(* ===== verification/_CoqProject ===== *)
-Q . S2P
Prelude.v
Types.v
Cpu.v
Mt19937.v
Float.v
Rounding.v
StdMap.v
LevelStore.v
MapLevels.v
FlatLevels.v
WindowedLevels.v
WindowedFacts.v
LevelTheorems.v
ObjectPool.v
Itch.v
OrderBook.v
BookSpec.v
BookInvariant.v
BookTheorems.v
BookMemory.v
BookSet.v
BookTyping.v
Framing.v
Wire.v
FeedFacts.v
Replay.v
Synthetic.v
SyntheticBook.v
SyntheticMulti.v
Mold.v
SpscRing.v
RingQueue.v
WeakRing.v
Dispatch.v
Pipeline.v
WeakPipeline.v
WeakSharded.v
Tape.v
Text.v
Fix.v
Sha1.v
Tcp.v
Sockets.v
Json.v
Printf.v
Mt5Protocol.v
Metrics.v
IeeeMetrics.v
PrintfFacts.v
Bridge.v
Publish.v
WebSocket.v
LatencyHist.v
Doubles.v
Averages.v
Quotes.v
Apps.v
LatencyJson.v
WsBook.v
Report.v
Cli.v
Obreplay.v
Tools.v
Mdrecv.v
Servers.v
Bench.v
