(* ===== verification/Prelude.v ===== *)
(** * A verification of the hft-orderbook engine

    The program is a C++17 library that reconstructs limit-order books from NASDAQ ITCH 5.0
    market data.  A feed of bytes (a framed capture, MoldUDP64 datagrams or a synthetic
    generator) is cut into records, decoded into messages and applied to an order book per
    instrument, on one thread, on two threads around a lock-free ring, or on several shards.
    From the book come metrics and a trade tape, which are reported by a command-line replay,
    streamed to a browser over WebSocket, or published to MetaTrader over a line protocol;
    the bridge server also answers ticks with the orders of a strategy.  Beside that there
    are a FIX codec for order entry, a latency histogram, and benchmark and fuzz drivers.

    ** Files and the code they model (paths below src/)

    - [Prelude]: machine integers, checked vectors, the failing fold, bytes, tactics, hints.
    - [Types]: include/core/types.hpp, [Side] with its casts; [Cpu]: include/core/cpu.hpp.
    - [Mt19937]: [std::mt19937], the random engine of include/feed/synthetic.hpp.
    - [Float]: IEEE 754 arithmetic with rounding to nearest, ties to even, in binary64 for [double]
      and the 64-bit significand for [long double]; [Rounding]: relative errors and how they add up.
    - [StdMap]: the [std::map] of the level stores, keyed by a comparator.
    - [LevelStore]: the template parameter of the book as type classes.  [LevelStore] has the
      operations, [LevelStoreSpec] the contract (an abstract map from prices to quantities and
      an invariant), [LevelStoreSafe] in-bounds behaviour without the contract's premises.
    - [MapLevels], [FlatLevels]: include/core/flat_levels.hpp.
    - [WindowedLevels], [WindowedFacts]: include/core/windowed_levels.hpp and its proofs.
    - [LevelTheorems]: the three stores compared over sequences of updates.
    - [ObjectPool]: include/core/object_pool.hpp.
    - [Itch]: include/itch/messages.hpp and src/itch/decoder.cpp.
    - [OrderBook]: include/book/order_book.hpp, generic in the level store.
    - [BookSpec]: the abstract book (orders by reference, quantities by side and price) and
      the simulation; [BookInvariant]: levels against orders; [BookTheorems]: the results;
      [BookMemory]: the slots of the pool, owned and lost.
    - [BookSet]: include/book/book_set.hpp; [BookTyping]: the types of everything that books
      and book sets store, with the class [TypedStore] for the level stores.
    - [Framing]: include/feed/framing.hpp.
    - [Wire]: the encoders of include/feed/synthetic.hpp; [FeedFacts]: what makes a written
      feed safe to replay; [Synthetic], [SyntheticBook], [SyntheticMulti]: the generators.
    - [Replay]: the single-threaded replay of include/feed/pipeline.hpp.
    - [Mold]: include/feed/moldudp64.hpp.
    - [SpscRing]: include/core/spsc_ring.hpp as a step relation under sequential consistency;
      [RingQueue]: the ring against an abstract bounded queue; [WeakRing]: the same code with
      the memory orders it names, over histories of stores and views.
    - [Dispatch]: the producer and worker threads of both threaded replays, step by step;
      [Pipeline]: include/feed/pipeline.hpp and include/feed/sharded_pipeline.hpp;
      [WeakPipeline], [WeakSharded]: both replays over [WeakRing].
    - [Tape]: include/book/tape.hpp.
    - [Text]: the [std::string] functions in use; [Fix]: include/fix/.
    - [Sha1]: include/core/sha1.hpp and the accept key of include/feed/websocket.hpp.
    - [Tcp]: the transfers of include/mt5/tcp.hpp over scripted results of recv and send;
      [Sockets]: the descriptors of include/mt5/tcp.hpp and include/feed/udp.hpp, from the
      system call that creates one to the one that closes it.
    - [Json]: the field scanner of include/mt5/protocol.hpp, with the class [DoubleText] for
      printing and reading doubles; [Mt5Protocol]: the messages of that header.
    - [Printf]: the texts of a [double] ("%.10g", "%.5g", "%.4f", a stream) and [strtod], in
      include/mt5/protocol.hpp, include/fix/message.hpp and apps/wsbook.cpp; [PrintfFacts]: what is
      printed is read back.
    - [Metrics]: include/book/metrics.hpp over the class [FloatOps]; [IeeeMetrics]: the same in the
      formats of [Float].
    - [Bridge]: run_bridge of include/mt5/server.hpp for any [Strategy] and
      include/mt5/strategy.hpp; [Publish]: publish_depth and publish_signal.
    - [WebSocket]: include/feed/websocket.hpp, both ends.
    - [LatencyHist]: include/core/latency_hist.hpp; [Doubles]: the ranks of its percentiles, and the
      instances of [Float] for the tape and the strategy; [Averages]: the average prices of the
      tape and the mean of the histogram; [Quotes]: include/mt5/strategy.hpp on quotes in binary64.
    - [Apps]: the loop over records, fuzz/decode_fuzz.cpp, the passes of apps/obreplay.cpp and
      apps/mdrecv.cpp; [Report]: the report of apps/obreplay.cpp.
    - [LatencyJson]: bench/latency_json.cpp.
    - [WsBook]: the snapshots and the stream of apps/wsbook.cpp.
    - [Cli]: arguments, exit codes and output streams; [Obreplay]: the main of
      apps/obreplay.cpp; [Tools]: apps/gencap.cpp, apps/fixsim.cpp and the main of
      bench/latency_json.cpp; [Mdrecv]: the main of apps/mdrecv.cpp; [Servers]: the mains of
      apps/wsbook.cpp and apps/mt5d.cpp around one accept loop.
    - [Bench]: bench/bench.cpp.

    ** How state and operations correspond to the code

    A class is a record with a field per data member; a member function is a definition that
    returns the new state with the result.  Integers are values of [Z]; every assignment to a
    variable of a fixed width that can wrap has its reduction ([u8], [u16], [u32], [u64])
    written out.  An access to a vector, array or buffer goes through [v.[i]], which is [None]
    outside, so a definition returns [option] where the code could leave its memory, and a
    safety theorem states that the result is [Some].  Results reported through references
    ([bool best_bid(Price&, Qty&)]) are an inner [option].  Unordered maps are [gmap]; where
    the code traverses one, the order of traversal is an argument and the theorems hold for
    every order; it depends on how the table was filled, in [Obreplay] on the input and the number
    of threads.  Template parameters are type classes or arguments; callbacks are
    state-passing functions.  Threads advance by one access to shared memory at a time, in
    any interleaving, in [SpscRing], [Dispatch] and [Pipeline] with sequentially consistent
    memory.  In [WeakRing], [WeakPipeline] and [WeakSharded] an atomic location is the history of
    its stores, a load may return any store that is not older than what its thread knows of, a
    release store carries the view of its thread to the acquire load that reads it, and an access to a
    slot without such an order is the outcome [UB].  Generators take an arbitrary sequence of
    draws, of which [mt19937 seed] is the one the program uses.  Code with floating-point operations
    is written over a record or class of operations, so that what does not depend on rounding
    is proved for every format, and then run with the IEEE instances; the texts of doubles come
    with the laws that a number is read back up to rounding and has no quotation mark or line
    break, which [PrintfFacts] proves of the printer and reader.  A connection is a script: the chunks and timeouts that recv returns
    until the peer closes, and for each send the number of bytes it takes or its error; EPIPE comes
    with SIGPIPE, which nothing in the program ignores, so such a send kills the process ([killed_]).
    Clock readings are a function, and so is whether a receive timeout expires ([RecvTimeout]).  The system
    calls on descriptors belong to a [kernel] that allocates descriptors by the class
    [Allocator] and fails by a script.  A main is a function from arguments, files and clients
    to a [process] (exit code and both output streams); a server may also be found waiting for its
    next client or killed ([Servers.server]), and mdrecv blocked in recv ([Mdrecv.receiver]).

    ** What the theorems show

    - The book ([BookTheorems]): for every lawful level store the pool, handles, free list and
      levels refine an abstract book ([book_refines_abstract]); the three stores are
      interchangeable ([level_stores_parity]); the levels are the totals of the resting orders
      ([levels_are_order_totals]), the top of the book is the best order
      ([top_of_book_is_best]), the program's own consistency check decides this relation and
      passes ([invariant_ok_decides], [invariant_ok_holds]), all for totals that fit 32 bits and,
      but for the check, references that are not reused; no sequence of decoded messages
      makes the book leave its memory ([book_never_out_of_bounds]), every reference owns a slot of
      its own and slots are lost by reused references only ([book_memory_accounted]), and all that
      is stored stays in the range of its type, also when totals wrap ([engine_state_typed]).
    - The stores and the pool: equivalence with the map store through recentering and spilling
      ([windowed_equals_map], [flat_equals_map]); no aliasing of live handles
      ([pool_no_aliasing]).
    - The wire: the decoder is in bounds and exact ([decode_safe_exact]); framing delivers
      exactly the complete records ([framed_stream_delivered]); encoders and decoder are
      inverse ([decode_inverts_encoders], [framed_stream_roundtrip]); MoldUDP64 packets carry
      a stream without loss and the gap count is exact between the first and the last datagram
      received ([mold_lossless], [mold_gaps_are_missing], [mold_receiver_safe]).
    - Concurrency: the ring is a wait-free, race-free bounded queue ([spsc_fifo],
      [spsc_race_free], [spsc_wait_free], [spsc_failures_exact]); the two-thread and the
      sharded replay give the single-threaded result under every interleaving and end under
      every fair schedule ([pipelined_equals_single], [sharded_equals_single]).  Whole calls
      refine a bounded queue ([ring_refines_queue]).  The memory orders that the code names are
      enough: with stale reads there is still no data race and no lost value, in the ring ([weak_ring_safe]), in the two-thread replay ([weak_pipelined_equals_single]) and
      in the sharded one ([weak_sharded_equals_single]); each of
      the four acquire and release orders of the ring is needed ([weaker_orders_race]).
    - Descriptors: one owner each, closed once, through moves and failures of any system call
      ([descriptors_owned]).
    - Feeds: for every seed the generators produce feeds that replay into consistent books
      ([synthetic_itch_replays], [synthetic_multi_replays]) and the demo feed never crosses
      the book ([synthetic_book_never_crossed]).
    - Tape, FIX, base64 and SHA-1: bars are the runs of trades ([tape_bars_are_runs],
      [tape_bars_well_formed]); FIX messages are read back and damage is detected
      ([fix_roundtrip], [fix_checksum_detects], [new_order_readable]); base64 is invertible
      and SHA-1 total ([base64_roundtrip], [sha1_total]).
    - The bridge: lines come out as they were sent however the bytes are cut
      ([recv_lines_of_stream], [line_transport]); messages survive encoding and parsing with
      any characters in their strings, up to the ten digits of a double and 2^63 - 1
      ([mt5_message_roundtrip], [mt5_publish_roundtrip]), and
      incomplete ones are refused ([mt5_required_fields]); a session is an abstract
      line-by-line machine ([bridge_session]), drops a silent peer exactly when its time is up
      ([bridge_drops_silent_peer]) and answers every tick ([bridge_answers_ticks],
      [example_strategy_rule]), in binary64 up to the tolerance of its mid prices
      ([strategy_follows_rule]); subscribers read the book and its metrics
      ([publish_reaches_subscriber]).
    - Metrics: exact integer parts for every format ([metrics_describe_book]), the bounds of the
      ratios over the rationals ([metrics_exact_bounds]) and in the arithmetic of the program,
      with the rounding errors of the micro-price and the depth-weighted mid
      ([metrics_ieee_bounds]).
    - Floating point: the arithmetic agrees with the one specified in the Standard Library on the
      operands tested ([agrees_with_spec_float]) and [mt19937] with the value that the C++ standard
      requires ([mt19937_conforms]); the average prices of the tape never leave the range of the
      traded prices and are three roundings from the exact ones ([tape_vwap_ieee]), the mean of a
      histogram is two ([mean_ieee]); the ranks of the percentiles are defined, in range and the
      rounded percentage ([percentiles_ieee]); a price goes through FIX with its exact decimals and
      through the line protocol as the same double ([prices_survive_text]), any other double as the
      one nearest to the ten digits printed ([printed_doubles_reread]).
    - WebSocket: frames of all lengths are read back ([ws_frames_roundtrip]), the handshake
      answers the right key ([ws_handshake_key]) and both ends agree
      ([ws_upgrade_end_to_end]); a viewer of wsbook with any key receives its accept key and
      exactly the snapshots of the replay ([wsbook_viewer_sees_replay], [wsbook_dump_snapshots]).
    - Programs: every main has the exit code, the output and the descriptors of its case,
      on every command line ([obreplay_main], [mdrecv_main], [mt5d_serves], [wsbook_serves],
      [latency_main_exits], [fixsim_output]); obreplay does not depend on the schedule of its
      threads, nor on their number where no ties show the order of a hash table; a server serves
      each client on its own and is killed by a client that has gone and by nothing else; mdrecv ends
      with every positive timeout; what gencap writes is what obreplay replays, whatever the clocks
      read ([gencap_obreplay]); options are read back ([parse_option_args]).  Below them, the passes
      of obreplay agree ([obreplay_passes_agree]) and its report never follows a null pointer
      ([obreplay_report_safe]); mdrecv rebuilds the books of the file
      ([mdrecv_equals_file_replay]).
    - Measurement: the fuzz target never fails ([fuzz_target_never_fails]); the benchmarks do
      the same work ([benchmarks_same_work]); percentiles, histogram and latency report count every
      sample once ([percentile_order_statistic], [histogram_counts],
      [latency_report_counts]).
    - Deviations that the model shows: a reused reference leaves a phantom level
      ([duplicate_add_leaves_phantom]), cross trades are decoded without shares
      ([cross_trade_has_no_shares]), a level total that wraps to zero is counted twice by the
      windowed store ([windowed_wrap_miscounts]), and a duplicated datagram is delivered
      again and then counted as a gap ([mold_duplicate_redelivers]).  Unsigned 64-bit fields
      of the bridge saturate at 2^63 - 1 when read ([large_id_saturates]); a malformed tick gets
      no reply ([malformed_tick_unanswered]); an oversized frame throws
      ([oversized_frame_throws]); crossed books keep their flags ([crossed_book_flags]); a move of exactly
      the default step can go unnoticed by the strategy ([exact_step_unnoticed]) and the micro-price of
      a locked book can leave its price by a rounding ([micro_above_locked]); the
      last histogram row holds more than its label ([last_row_label]); types are not folded in
      the latency report ([mpid_not_folded]); a dump can be shorter than asked for
      ([dump_prints_fewer]).  A client that has gone kills either server
      ([vanished_client_kills_mt5d], [vanished_viewer_kills_wsbook]); mdrecv without a timeout waits
      for ever ([zero_timeout_waits]); ties in the ranking of obreplay follow the order of a hash
      table ([ties_follow_traversal]).

    ** Bounds and fuel

    Loops without a structural argument take fuel computed from their input (the length of
    the buffer plus one for framing, packetizing, FIX parsing and base64; the window size for
    the scans of the windowed store; 65 doublings for a 64-bit capacity; 64 for the padding
    search; the binary logarithm for decimal digits and decimal exponents; the received bytes, lines and timeouts
    for the line socket, the bridge and the handshake).  Running out of fuel gives [None], so a
    theorem that a result exists shows that the fuel is enough.  Level totals are assumed to
    stay below 2^32 where the code's 32-bit totals would wrap ([run_fits]); streams have at
    most 2^32 messages, the range of a pool handle; buffers are smaller than 2^63 bytes; the
    generator theorems are for up to a million messages, which keeps all totals in range.
    Averages are exact sums up to 2^64 in the extended format; ranks are for up to 2^52 samples,
    depth metrics for up to 2^31 levels, and prices are the 32 bits of the feed.

    ** What is not modelled

    Memory allocation and the creation of threads always succeed.  Code outside the repository is a
    parameter: the system calls, the zlib reader and, in the
    report, [std::sort] (any ranking by count).  Floating-point exceptions and rounding modes other
    than to nearest do not occur in the program and are left out, and so are the payloads of NaNs;
    [long double] is the format of x86-64.  [cpu_relax] has no effect on memory; it appears as the retry of the
    loops that call it.  Of the options set on sockets only the receive timeout has an effect in the
    model: in [Tcp] it is the script of timeouts, in [Mdrecv] the kernel's answer to [timeval_of]; a
    client that neither sends nor closes is not in the scripts, so that wsbook, which sets no timeout,
    waits in the model only between viewers.  What a killed process had in its output buffers is not
    told from what it has written.  The benchmark harness is reduced to its number of rounds.
    That the threads end is proved for fair sequentially consistent schedules; under release and
    acquire a thread may read a stale value for ever, so there only progress and the result are.
    The portable branches for other operating systems and processors, the test-suite, the MQL5
    side of the bridge and the browser viewer are left out. *)
From stdpp Require Export base numbers list gmap option sorting.
From Stdlib Require Export ZArith Lia.

#[global] Open Scope Z_scope.
#[export] Set Warnings "-clear-no-such-hyp".

(** * Machine integers *)

(** The unsigned types of the code are values of [Z]; an assignment to a variable of
    width [w] reduces modulo [2^w]. *)

Definition wrap (w z : Z) : Z := z `mod` 2 ^ w.

Definition u8 (z : Z) : Z := wrap 8 z.

Definition u16 (z : Z) : Z := wrap 16 z.

Definition u32 (z : Z) : Z := wrap 32 z.

Definition u64 (z : Z) : Z := wrap 64 z.

(** [static_cast<int>] of a [long] or a [long long]. *)

Definition to_int (z : Z) : Z := (z + 2 ^ 31) `mod` 2 ^ 32 - 2 ^ 31.

Lemma to_int_small z : - 2 ^ 31 ≤ z < 2 ^ 31 → to_int z = z.
Proof. intros Hz. unfold to_int. rewrite Z.mod_small; lia. Qed.

(** [fits w z]: [z] is a value of an unsigned type of width [w]. *)

Definition fits (w z : Z) : Prop := 0 ≤ z < 2 ^ w.

#[global] Instance fits_dec w z : Decision (fits w z).
Proof. unfold fits. apply _. Defined.

(** * Vectors *)

(** [v[i]] on a [std::vector] or a raw buffer, and [v[i] = x].  [None] is the undefined
    behaviour of an access outside the allocated elements. *)

Definition vget {A} (l : list A) (i : Z) : option A :=
  if decide (0 ≤ i) then l !! Z.to_nat i else None.

Definition vset {A} (l : list A) (i : Z) (x : A) : option (list A) :=
  if decide (0 ≤ i < Z.of_nat (length l)) then Some (<[Z.to_nat i := x]> l) else None.

(** [size()] of a container. *)

Definition zlen {A} (l : list A) : Z := Z.of_nat (length l).

(** * Notations, hints and tactics *)

Declare Scope hft_scope.
Delimit Scope hft_scope with hft.
Notation "v .[ i ]" := (vget v i)
  (at level 1, i at level 200, left associativity, format "v .[ i ]") : hft_scope.
Notation "v .[ i <- x ]" := (vset v i x)
  (at level 1, i at level 200, x at level 200, left associativity,
   format "v .[ i  <-  x ]") : hft_scope.
#[global] Open Scope hft_scope.

Create HintDb hft.
Create Rewrite HintDb hftw.

(** Destructs every [bind] of the option monad in a hypothesis [H]. *)
Ltac inv_bind H :=
  repeat match type of H with
  | mbind _ ?m = Some _ =>
      let E := fresh "E" in destruct m eqn:E; simpl in H; [|discriminate H]
  end.

(** Case analysis on every boolean test and every [decide] of the goal. *)
Ltac split_tests :=
  repeat match goal with
  | |- context [if decide ?P then _ else _] => destruct (decide P)
  | |- context [if (?a =? ?b)%Z then _ else _] => destruct (Z.eqb_spec a b)
  | |- context [if (?a <? ?b)%Z then _ else _] => destruct (Z.ltb_spec a b)
  | |- context [if (?a <=? ?b)%Z then _ else _] => destruct (Z.leb_spec a b)
  end.

(** * Lemmas on machine integers *)

Lemma wrap_small w z : fits w z → wrap w z = z.
Proof. unfold fits, wrap. intros. by apply Z.mod_small. Qed.

Lemma wrap_fits w z : 0 ≤ w → fits w (wrap w z).
Proof. intros. unfold fits, wrap. apply Z.mod_pos_bound. by apply Z.pow_pos_nonneg. Qed.

Lemma u8_small z : 0 ≤ z < 256 → u8 z = z.
Proof. intros. by apply wrap_small. Qed.

Lemma u16_small z : 0 ≤ z < 65536 → u16 z = z.
Proof. intros. by apply wrap_small. Qed.

Lemma u32_small z : 0 ≤ z < 4294967296 → u32 z = z.
Proof. intros. by apply wrap_small. Qed.

Lemma u64_small z : 0 ≤ z < 18446744073709551616 → u64 z = z.
Proof. intros. by apply wrap_small. Qed.

Lemma u8_range z : 0 ≤ u8 z < 256.
Proof. by apply (wrap_fits 8). Qed.

Lemma u16_range z : 0 ≤ u16 z < 65536.
Proof. by apply (wrap_fits 16). Qed.

Lemma u32_range z : 0 ≤ u32 z < 4294967296.
Proof. by apply (wrap_fits 32). Qed.

Lemma u64_range z : 0 ≤ u64 z < 18446744073709551616.
Proof. by apply (wrap_fits 64). Qed.

Lemma u64_add_l a b : u64 (u64 a + b) = u64 (a + b).
Proof. unfold u64, wrap. by rewrite Z.add_mod_idemp_l. Qed.

Lemma u64_sub a b : u64 (u64 a - u64 b) = u64 (a - b).
Proof. unfold u64, wrap. by rewrite Zminus_mod_idemp_l, Zminus_mod_idemp_r. Qed.

#[export] Hint Resolve u8_range u16_range u32_range u64_range : hft.
#[export] Hint Rewrite u8_small u16_small u32_small u64_small using lia : hftw.

(** * Lemmas on vectors *)

Lemma zlen_nonneg {A} (l : list A) : 0 ≤ zlen l.
Proof. unfold zlen. lia. Qed.

Lemma zlen_app {A} (l k : list A) : zlen (l ++ k) = zlen l + zlen k.
Proof. unfold zlen. rewrite length_app. lia. Qed.

Lemma zlen_cons {A} (x : A) l : zlen (x :: l) = zlen l + 1.
Proof. unfold zlen. simpl. lia. Qed.

Lemma vget_nat {A} (l : list A) (i : nat) : l.[Z.of_nat i] = l !! i.
Proof. unfold vget. rewrite decide_True by lia. by rewrite Nat2Z.id. Qed.

Lemma vget_is_Some {A} (l : list A) i : 0 ≤ i < zlen l → is_Some l.[i].
Proof.
  intros [??]. unfold vget. rewrite decide_True by done.
  apply lookup_lt_is_Some. unfold zlen in *. lia.
Qed.

Lemma vget_Some {A} (l : list A) i x : l.[i] = Some x → 0 ≤ i < zlen l.
Proof.
  unfold vget, zlen. case_decide; [|done]. intros Hl%lookup_lt_Some. lia.
Qed.

Lemma vget_None {A} (l : list A) i : i < 0 ∨ zlen l ≤ i → l.[i] = None.
Proof.
  unfold vget, zlen. case_decide; [|done]. intros. apply lookup_ge_None. lia.
Qed.

Lemma vset_Some {A} (l : list A) i x :
  0 ≤ i < zlen l → l.[i <- x] = Some (<[Z.to_nat i := x]> l).
Proof. unfold vset, zlen. intros. by rewrite decide_True. Qed.

Lemma vset_length {A} (l k : list A) i x : l.[i <- x] = Some k → zlen k = zlen l.
Proof.
  unfold vset. case_decide; [|done]. intros [= <-]. unfold zlen. by rewrite length_insert.
Qed.

Lemma vset_inv {A} (l k : list A) i x :
  l.[i <- x] = Some k → 0 ≤ i < zlen l ∧ k = <[Z.to_nat i := x]> l.
Proof. unfold vset, zlen. case_decide; [|done]. by intros [= <-]. Qed.

Lemma vset_get {A} (l k : list A) i j x :
  l.[i <- x] = Some k → k.[j] = if decide (i = j) then Some x else l.[j].
Proof.
  unfold vset, vget. case_decide; [|done]. intros [= <-].
  case_decide as Hj; [|case_decide; [lia|done]].
  case_decide as Hij.
  - subst. apply list_lookup_insert_eq. lia.
  - apply list_lookup_insert_ne. lia.
Qed.

#[export] Hint Resolve zlen_nonneg : hft.
#[export] Hint Rewrite @zlen_app @zlen_cons : hftw.

(** Distinct numbers below a bound are no more than the bound. *)
Lemma nodup_bounded (l : list Z) (N : Z) :
  NoDup l → (∀ x, x ∈ l → 0 ≤ x < N) → zlen l ≤ Z.max 0 N.
Proof.
  intros Hnd Hb.
  assert (Hincl : incl (Z.to_nat <$> l) (List.seq 0 (Z.to_nat N))).
  { intros n Hn%list_elem_of_In. apply list_elem_of_fmap in Hn as (x & -> & Hx).
    apply Hb in Hx. apply in_seq. lia. }
  apply NoDup_incl_length in Hincl.
  - rewrite length_fmap, length_seq in Hincl. unfold zlen. lia.
  - apply NoDup_ListNoDup. clear Hincl. induction Hnd as [|x l Hx Hnd IH]; [constructor|].
    simpl. constructor.
    + intros (y & Hy & Hyl)%list_elem_of_fmap. apply Hx.
      pose proof (Hb x (list_elem_of_here _ _)). pose proof (Hb y (list_elem_of_further _ _ _ Hyl)).
      by replace x with y by lia.
    + apply IH. intros y Hy. apply Hb. by right.
Qed.

Lemma vget_app_l {A} (l k : list A) i : i < zlen l → (l ++ k).[i] = l.[i].
Proof.
  intros Hi. unfold vget. case_decide; [|done]. apply lookup_app_l. unfold zlen in Hi. lia.
Qed.

Lemma vget_app_r {A} (l k : list A) i : 0 ≤ i → (l ++ k).[zlen l + i] = k.[i].
Proof.
  intros Hi. unfold vget, zlen. rewrite !decide_True by lia.
  rewrite lookup_app_r by lia. f_equal. lia.
Qed.

Lemma drop_zlen_app {A} (l k : list A) : drop (Z.to_nat (zlen l)) (l ++ k) = k.
Proof. unfold zlen. rewrite Nat2Z.id. apply drop_app_length. Qed.

Lemma zlen_take {A} (l : list A) n : 0 ≤ n ≤ zlen l → zlen (take (Z.to_nat n) l) = n.
Proof. unfold zlen. intros. rewrite length_take. lia. Qed.

Lemma zlen_drop {A} (l : list A) n : 0 ≤ n ≤ zlen l → zlen (drop (Z.to_nat n) l) = zlen l - n.
Proof. unfold zlen. intros. rewrite length_drop. lia. Qed.

Lemma zlen_insert {A} (l : list A) i x : zlen (<[i := x]> l) = zlen l.
Proof. unfold zlen. by rewrite length_insert. Qed.

Lemma zlen_fmap {A B} (f : A → B) (l : list A) : zlen (f <$> l) = zlen l.
Proof. unfold zlen. by rewrite length_fmap. Qed.

Lemma zlen_nil_inv {A} (l : list A) : zlen l = 0 → l = [].
Proof. destruct l; [done|]. rewrite zlen_cons. pose proof (zlen_nonneg l). lia. Qed.

(** * Folding a fallible operation over a list *)

Fixpoint foldM {A S} (f : S → A → option S) (s : S) (l : list A) : option S :=
  match l with
  | [] => Some s
  | x :: l => s' ← f s x; foldM f s' l
  end.

Lemma foldM_app {A S} (f : S → A → option S) s l k :
  foldM f s (l ++ k) = s' ← foldM f s l; foldM f s' k.
Proof.
  revert s. induction l as [|x l IH]; intros s; simpl; [done|].
  destruct (f s x); simpl; [apply IH|done].
Qed.

(** * Bytes *)

Definition byte_ok (b : Z) : Prop := 0 ≤ b < 256.

Definition bytes_ok (l : list Z) : Prop := Forall byte_ok l.

#[global] Instance byte_ok_dec b : Decision (byte_ok b).
Proof. unfold byte_ok. apply _. Defined.

#[global] Instance bytes_ok_dec l : Decision (bytes_ok l).
Proof. unfold bytes_ok. apply _. Defined.

Lemma bytes_ok_take n l : bytes_ok l → bytes_ok (take n l).
Proof. apply Forall_take. Qed.

Lemma bytes_ok_drop n l : bytes_ok l → bytes_ok (drop n l).
Proof. apply Forall_drop. Qed.

Lemma bytes_ok_get l i b : bytes_ok l → l.[i] = Some b → byte_ok b.
Proof.
  unfold vget. intros H. case_decide; [|done]. by apply Forall_lookup_1.
Qed.

(** Shifting in a byte. *)
Lemma lor_shift8 v b : 0 ≤ v → byte_ok b → Z.lor (Z.shiftl v 8) b = v * 256 + b.
Proof.
  intros Hv Hb. unfold byte_ok in Hb.
  assert (Hd : Z.land (Z.shiftl v 8) b = 0).
  { apply Z.bits_inj'. intros n Hn. rewrite Z.land_spec, Z.bits_0.
    destruct (decide (n < 8)).
    - by rewrite Z.shiftl_spec_low by lia.
    - rewrite (Z.bits_above_log2 b n), andb_false_r; [done|lia|].
      destruct (decide (b = 0)) as [->|]; [simpl; lia|].
      apply Z.log2_lt_pow2; [lia|]. pose proof (Z.pow_le_mono_r 2 8 n). lia. }
  rewrite <- Z.lxor_lor, <- Z.add_nocarry_lxor by done.
  by rewrite Z.shiftl_mul_pow2 by lia.
Qed.
