(* ===== verification/Types.v ===== *)
(** Scalar types of the engine (include/core/types.hpp): prices are signed 64-bit tick
    counts, quantities unsigned 32-bit, order references unsigned 64-bit, all values of
    [Z].  [Side] is an [enum class : char]; the decoder casts an arbitrary byte to it, so
    besides the three named enumerators it has every other character value. *)
From S2P Require Export Prelude.

Abbreviation Price := Z (only parsing).
Abbreviation Qty := Z (only parsing).
Abbreviation OrderRef := Z (only parsing).

Inductive Side : Set :=
  | Buy
  | Sell
  | SideNone
  | SideOther (c : Z).

#[global] Instance Side_eq_dec : EqDecision Side.
Proof. solve_decision. Defined.

(** [static_cast<Side>(c)]. *)

Definition side_of_char (c : Z) : Side :=
  if c =? 66 then Buy else if c =? 83 then Sell else if c =? 0 then SideNone else SideOther c.

(** [static_cast<char>(s)]. *)

Definition char_of_side (s : Side) : Z :=
  match s with Buy => 66 | Sell => 83 | SideNone => 0 | SideOther c => c end.

(** One price tick is 1/10000 of a dollar. *)

Definition kPriceScale : Z := 10000.

Lemma char_of_side_of_char c : char_of_side (side_of_char c) = c.
Proof. unfold side_of_char. split_tests; simpl; lia. Qed.
