(* ===== verification/Cpu.v ===== *)
(** The processor helpers (include/core/cpu.hpp) as far as they compute: the 64-bit time stamp put
    together from the two registers of [rdtsc], and the affinity mask of [pin_this_thread].  The
    instruction and [pthread_setaffinity_np] are not part of the sources: the register values and
    the call are arguments.  [cpu_relax] is a hint without an effect. *)
From S2P Require Export Types.

(** [(static_cast<std::uint64_t>(hi) << 32) | lo] with the registers edx and eax. *)

Definition rdtsc (hi lo : Z) : Z := Z.lor (u64 (Z.shiftl hi 32)) lo.

(** [cpu_set_t] as a bit mask of [CPU_SETSIZE] cores; [CPU_SET] ignores other cores. *)

Definition CPU_SETSIZE : Z := 1024.

Definition CPU_SET (core mask : Z) : Z := if core <? CPU_SETSIZE then Z.setbit mask core else mask.

Definition pin_this_thread (setaffinity : Z → Z) (core : Z) : bool := setaffinity (CPU_SET core 0) =? 0.

(** * Facts *)

(** The stamp is the number the two halves stand for, and fits 64 bits. *)
Lemma rdtsc_value hi lo : fits 32 hi → fits 32 lo → rdtsc hi lo = hi * 2 ^ 32 + lo ∧ fits 64 (rdtsc hi lo).
Proof.
  unfold fits. intros Hh Hl. unfold rdtsc. rewrite Z.shiftl_mul_pow2, u64_small by lia.
  assert (Hd : Z.land (hi * 2 ^ 32) lo = 0).
  { apply Z.bits_inj'. intros n Hn. rewrite Z.land_spec, Z.bits_0. destruct (Z.lt_ge_cases n 32).
    - by rewrite Z.mul_pow2_bits_low by lia.
    - replace (Z.testbit lo n) with false; [apply andb_false_r|]. symmetry. destruct (decide (lo = 0)) as [->|]; [apply Z.bits_0|].
      apply Z.bits_above_log2; [lia|]. apply Z.lt_le_trans with 32; [apply Z.log2_lt_pow2; lia|done]. }
  pose proof (Z.add_lor_land (hi * 2 ^ 32) lo) as E. rewrite Hd in E. lia.
Qed.

(** Later stamps are larger: the order of the halves is lexicographic. *)
Lemma rdtsc_monotone hi lo hi' lo' :
  fits 32 hi → fits 32 lo → fits 32 hi' → fits 32 lo' → hi < hi' ∨ hi = hi' ∧ lo ≤ lo' → rdtsc hi lo ≤ rdtsc hi' lo'.
Proof.
  intros H1 H2 H3 H4 H. destruct (rdtsc_value hi lo H1 H2) as [-> _]. destruct (rdtsc_value hi' lo' H3 H4) as [-> _]. unfold fits in *. lia.
Qed.

(** The mask holds exactly the core asked for, and none when the core is out of range. *)
Lemma cpu_set_single core n : 0 ≤ core → 0 ≤ n → Z.testbit (CPU_SET core 0) n = bool_decide (n = core ∧ core < CPU_SETSIZE).
Proof.
  intros Hc Hn. unfold CPU_SET. destruct (Z.ltb_spec core CPU_SETSIZE).
  - rewrite Z.setbit_eqb by done. rewrite Z.bits_0, orb_false_r. destruct (Z.eqb_spec core n); case_bool_decide; done || lia.
  - rewrite Z.bits_0. by case_bool_decide; [lia|].
Qed.
