(* ===== verification/Mt19937.v ===== *)
(** The random engine of the feed generators: [std::mt19937] as the C++ standard defines it
    ([rand.eng.mers] with the parameters of [mt19937]), used by include/feed/synthetic.hpp as
    [std::mt19937 rng(seed)] and [rng() % hi].

    The state is the window of the last 624 words of the sequence, oldest first.  A call of the
    engine appends the next word and returns it tempered.  [mt19937 seed] is the sequence of the
    draws, in the shape in which the generators of [Synthetic], [SyntheticMulti] and
    [SyntheticBook] take their engine. *)
From S2P Require Export Types.

(** * Definition *)

Definition state_size : nat := 624.

Definition shift_size : nat := 397.

(** The word behind [x], [y] (the two oldest) and [z] (397 after the oldest): the top bit of [x] and
    the other bits of [y], shifted down, with the feedback if the lowest is set. *)

Definition twist (x y z : Z) : Z :=
  let c := Z.lor (Z.land x (2 ^ 31)) (Z.land y (2 ^ 31 - 1)) in
  Z.lxor (Z.lxor z (Z.shiftr c 1)) (if Z.odd c then 0x9908b0df else 0).

Definition temper (x : Z) : Z :=
  let x := Z.lxor x (Z.shiftr x 11) in
  let x := Z.lxor x (Z.land (u32 (Z.shiftl x 7)) 0x9d2c5680) in
  let x := Z.lxor x (Z.land (u32 (Z.shiftl x 15)) 0xefc60000) in
  Z.lxor x (Z.shiftr x 18).

(** The words [i], [i + 1], ... behind the word [x], [n] of them. *)

Fixpoint seed_words (n : nat) (i x : Z) : list Z :=
  match n with
  | O => []
  | S n => let y := u32 (1812433253 * Z.lxor x (Z.shiftr x 30) + i) in y :: seed_words n (i + 1) y
  end.

(** [std::mt19937 rng(seed)]. *)

Definition mt_seed (seed : Z) : list Z := u32 seed :: seed_words (state_size - 1) 1 (u32 seed).

Definition next_word (w : list Z) : Z := twist (w !!! 0%nat) (w !!! 1%nat) (w !!! shift_size).

Definition mt_step (w : list Z) : list Z := drop 1 w ++ [next_word w].

(** The window after [k] calls, and the draws. *)

Definition mt_state (seed : Z) (k : nat) : list Z := Nat.iter k mt_step (mt_seed seed).

Definition mt19937 (seed : Z) (k : nat) : Z := temper (next_word (mt_state seed k)).

(** * Conformance *)

(** The standard requires that the 10000th call of an engine with the default seed returns
    4123659995. *)

Example mt19937_conforms : mt19937 5489 (Z.to_nat 9999) = 4123659995.
Proof. vm_compute. reflexivity. Qed.

Example first_draws : mt19937 1 <$> seq 0 4 = [1791095845; 4282876139; 3093770124; 4005303368].
Proof. vm_compute. reflexivity. Qed.

(** * Facts *)

(** Words of 32 bits, by their bits. *)

Definition word32 (x : Z) : Prop := 0 ≤ x < 2 ^ 32.

Lemma word32_bits x : word32 x ↔ ∀ i, (i < 0 ∨ 32 ≤ i) → Z.testbit x i = false.
Proof.
  unfold word32. split.
  - intros [H0 H1] i [Hi|Hi]; [by apply Z.testbit_neg_r|]. destruct (Z.eq_dec x 0) as [->|]; [apply Z.testbit_0_l|].
    apply Z.bits_above_log2; [done|]. apply Z.lt_le_trans with 32; [|done]. apply Z.log2_lt_pow2; lia.
  - intros H. assert (E : x = x `mod` 2 ^ 32).
    { apply Z.bits_inj'. intros i Hi. rewrite Z.testbit_mod_pow2 by lia. destruct (Z.ltb_spec i 32); [done|].
      rewrite andb_false_l. apply H. lia. }
    rewrite E. apply Z.mod_pos_bound. lia.
Qed.

Lemma word32_u32 x : word32 (u32 x).
Proof. unfold word32, u32, wrap. apply Z.mod_pos_bound. lia. Qed.

Lemma word32_lxor x y : word32 x → word32 y → word32 (Z.lxor x y).
Proof. rewrite !word32_bits. intros Hx Hy i Hi. by rewrite Z.lxor_spec, Hx, Hy. Qed.

Lemma word32_land x y : word32 x → word32 (Z.land x y).
Proof. rewrite !word32_bits. intros Hx i Hi. by rewrite Z.land_spec, Hx. Qed.

Lemma word32_lor x y : word32 x → word32 y → word32 (Z.lor x y).
Proof. rewrite !word32_bits. intros Hx Hy i Hi. by rewrite Z.lor_spec, Hx, Hy. Qed.

Lemma word32_shiftr x n : 0 ≤ n → word32 x → word32 (Z.shiftr x n).
Proof.
  intros Hn [H0 H1]. unfold word32. rewrite Z.shiftr_div_pow2 by done. pose proof (Z.pow_pos_nonneg 2 n ltac:(lia) Hn).
  split; [by apply Z.div_pos|]. apply Z.div_lt_upper_bound; nia.
Qed.

#[local] Hint Resolve word32_u32 word32_lxor word32_land word32_lor word32_shiftr : core.

Lemma twist_word x y z : word32 x → word32 y → word32 z → word32 (twist x y z).
Proof.
  intros Hx Hy Hz. unfold twist. cbv zeta. apply word32_lxor; [apply word32_lxor; [done|apply word32_shiftr; [lia|auto]]|].
  by destruct (Z.odd _).
Qed.

Lemma temper_word x : word32 x → word32 (temper x).
Proof.
  intros Hx. unfold temper. cbv zeta.
  repeat first [done|apply word32_lxor|apply word32_land|apply word32_u32|apply word32_shiftr; [lia|]].
Qed.

(** The window: 624 words of 32 bits, at every time. *)

Definition window (w : list Z) : Prop := length w = state_size ∧ Forall word32 w.

Lemma window_at w i : window w → (i < state_size)%nat → word32 (w !!! i).
Proof.
  intros [Hl Hw] Hi. rewrite <- Hl in Hi. destruct (lookup_lt_is_Some_2 w i Hi) as [x E].
  rewrite (list_lookup_total_correct _ _ _ E). by eapply (proj1 (Forall_lookup _ _) Hw).
Qed.

Lemma seed_words_ok n : ∀ i x, length (seed_words n i x) = n ∧ Forall word32 (seed_words n i x).
Proof.
  induction n as [|n IH]; intros i x; [by split|]. cbn [seed_words length]. destruct (IH (i + 1) (u32 (1812433253 * Z.lxor x (Z.shiftr x 30) + i))) as [-> H].
  split; [done|]. by apply Forall_cons.
Qed.

Lemma next_word_ok w : window w → word32 (next_word w).
Proof. intros Hw. apply twist_word; (apply window_at; [done|]); unfold state_size, shift_size; lia. Qed.

Lemma mt_state_window seed k : window (mt_state seed k).
Proof.
  induction k as [|k IH].
  - change (mt_state seed 0) with (mt_seed seed). unfold mt_seed, window. destruct (seed_words_ok (state_size - 1) 1 (u32 seed)) as [E H].
    rewrite length_cons, E. split; [done|]. constructor; [apply word32_u32|exact H].
  - change (mt_state seed (S k)) with (mt_step (mt_state seed k)). pose proof (next_word_ok _ IH) as Hn. destruct IH as [Hl Hw]. unfold mt_step, window.
    rewrite length_app, length_drop, Hl. split; [done|]. apply Forall_app. split; [by apply Forall_drop|]. by apply Forall_singleton.
Qed.

(** The sequence of the words: those of the seed, then one for each call. *)

Definition mt_word (seed : Z) (j : nat) : Z := mt_state seed j !!! 0%nat.

Lemma mt_state_at seed i : ∀ k, (i < state_size)%nat → mt_state seed k !!! i = mt_word seed (k + i).
Proof.
  induction i as [|i IH]; intros k Hi; [unfold mt_word; by rewrite Nat.add_0_r|].
  replace (k + S i)%nat with (S k + i)%nat by lia. rewrite <- IH by lia. change (mt_state seed (S k)) with (mt_step (mt_state seed k)). unfold mt_step.
  destruct (mt_state_window seed k) as [Hl _]. rewrite lookup_total_app_l by (rewrite length_drop, Hl; lia). by rewrite lookup_total_drop.
Qed.

(** The recurrence of the standard, which the sliding window computes: each word follows from the
    ones 624, 623 and 227 places before it, and a draw is a tempered word. *)
Lemma mt_recurrence seed k :
  mt_word seed (k + state_size) = twist (mt_word seed k) (mt_word seed (k + 1)) (mt_word seed (k + shift_size)) ∧
  mt19937 seed k = temper (mt_word seed (k + state_size)).
Proof.
  assert (E : mt_word seed (k + state_size) = next_word (mt_state seed k)).
  { replace (k + state_size)%nat with (S k + (state_size - 1))%nat by (unfold state_size; lia). rewrite <- mt_state_at by (unfold state_size; lia).
    change (mt_state seed (S k)) with (mt_step (mt_state seed k)). unfold mt_step. destruct (mt_state_window seed k) as [Hl _].
    rewrite lookup_total_app_r by (rewrite length_drop, Hl; lia). by rewrite length_drop, Hl. }
  split; [|unfold mt19937; by rewrite E]. rewrite E. unfold next_word. by rewrite !mt_state_at, Nat.add_0_r by (unfold state_size, shift_size; lia).
Qed.

Lemma mt19937_word seed k : word32 (mt19937 seed k).
Proof. apply temper_word, next_word_ok, mt_state_window. Qed.
