(* ===== verification/Float.v ===== *)
(** Binary floating point as IEEE 754 defines it and as the program uses it on x86-64: [double]
    is binary64, [long double] the extended format of 64 bits.  A finite number is a sign, a
    significand and an exponent; every operation is the exact rational result rounded to the
    nearest number, ties to the even significand.  Rounding is proved to give a nearest number,
    to be monotone, and to keep every interval whose ends are numbers. *)
From S2P Require Export Prelude.
From Stdlib Require Export QArith Qabs Qround Qpower Lqa.

#[local] Open Scope Q_scope.

(** * Formats and numbers *)

Record format := mkFormat { prec : Z; emax : Z }.

Definition binary64 : format := mkFormat 53 1024.
Definition x87_extended : format := mkFormat 64 16384.

(** The exponent of the smallest positive number. *)

Definition emin (f : format) : Z := (3 - emax f - prec f)%Z.

(** [Fin s m e] is the number [m * 2^e], negated when [s]. *)

Inductive fl : Set := Zero (s : bool) | Inf (s : bool) | NaN (s : bool) | Fin (s : bool) (m : positive) (e : Z).

Definition pow2 (e : Z) : Q := 2 ^ e.

Definition val (x : fl) : Q :=
  match x with Fin s m e => (if s then - inject_Z (Z.pos m) else inject_Z (Z.pos m)) * pow2 e | _ => 0 end.

Definition finite (x : fl) : bool := match x with Zero _ | Fin _ _ _ => true | _ => false end.

Definition sign (x : fl) : bool := match x with Zero s | Inf s | NaN s | Fin s _ _ => s end.

(** * Rounding *)

(** The nearest integer, ties to even. *)

Definition rne (x : Q) : Z :=
  let n := Qfloor x in
  match Qcompare (x - inject_Z n) (1 # 2) with
  | Lt => n
  | Gt => (n + 1)%Z
  | Eq => if Z.even n then n else (n + 1)%Z
  end.

(** The exponent of the binade of a positive rational. *)

Definition log2Q (x : Q) : Z :=
  let k := (Z.log2 (Qnum x) - Z.log2 (Z.pos (Qden x)))%Z in
  if Qle_bool (pow2 k) x then k else (k - 1)%Z.

Definition fexp (f : format) (x : Q) : Z := Z.max (log2Q x - prec f + 1) (emin f).

Definition round_pos (f : format) (s : bool) (x : Q) : fl :=
  let e := fexp f x in
  let m := rne (x / pow2 e) in
  if (m =? 0)%Z then Zero s
  else
    let '(m, e) := if (m =? 2 ^ prec f)%Z then (2 ^ (prec f - 1), e + 1)%Z else (m, e) in
    if (emax f - prec f <? e)%Z then Inf s else Fin s (Z.to_pos m) e.

(** [s] is the sign of an exact zero. *)

Definition round (f : format) (s : bool) (x : Q) : fl :=
  match Qcompare x 0 with Eq => Zero s | Gt => round_pos f false x | Lt => round_pos f true (- x) end.

(** * Operations *)

Section Operations.
Context (f : format).

Definition of_Z (z : Z) : fl := round f false (inject_Z z).

Definition fneg (x : fl) : fl :=
  match x with
  | Zero s => Zero (negb s)
  | Inf s => Inf (negb s)
  | NaN s => NaN (negb s)
  | Fin s m e => Fin (negb s) m e
  end.

(** An operation without a result gives the negative quiet NaN; an operand that is one is passed on. *)

Definition fadd (x y : fl) : fl :=
  match x, y with
  | NaN _, _ => x
  | _, NaN _ => y
  | Inf a, Inf b => if eqb a b then x else NaN true
  | Inf _, _ => x
  | _, Inf _ => y
  | _, _ => round f (sign x && sign y) (val x + val y)
  end.

Definition fsub (x y : fl) : fl := match x, y with NaN _, _ => x | _, NaN _ => y | _, _ => fadd x (fneg y) end.

Definition fmul (x y : fl) : fl :=
  let s := xorb (sign x) (sign y) in
  match x, y with
  | NaN _, _ => x
  | _, NaN _ => y
  | Inf _, Zero _ | Zero _, Inf _ => NaN true
  | Inf _, _ | _, Inf _ => Inf s
  | _, _ => round f s (val x * val y)
  end.

Definition fdiv (x y : fl) : fl :=
  let s := xorb (sign x) (sign y) in
  match x, y with
  | NaN _, _ => x
  | _, NaN _ => y
  | Inf _, Inf _ | Zero _, Zero _ => NaN true
  | Inf _, _ | _, Zero _ => Inf s
  | _, Inf _ => Zero s
  | _, _ => round f s (val x / val y)
  end.

(** Conversion from another format. *)

Definition convert (x : fl) : fl := match x with Fin s _ _ => round f s (val x) | _ => x end.

End Operations.

(** [x < y]; false when one is a NaN. *)

Definition flt (x y : fl) : bool :=
  match x, y with
  | NaN _, _ | _, NaN _ => false
  | Inf a, Inf b => a && negb b
  | Inf a, _ => a
  | _, Inf b => negb b
  | _, _ => match Qcompare (val x) (val y) with Lt => true | _ => false end
  end.

(** The conversion to [std::size_t], undefined unless the truncated value is one. *)

Definition to_size_t (x : fl) : option Z :=
  if finite x then
    let z := if sign x then (- Qfloor (- val x))%Z else Qfloor (val x) in
    if ((0 <=? z) && (z <? 2 ^ 64))%Z then Some z else None
  else None.

(** * Powers of two *)

Lemma two_ne0 : ~ 2 == 0.
Proof. lra. Qed.

Lemma pow2_pos e : 0 < pow2 e.
Proof. apply Qpower_0_lt. lra. Qed.

Lemma pow2_add a b : pow2 (a + b) == pow2 a * pow2 b.
Proof. apply Qpower_plus. apply two_ne0. Qed.

Lemma pow2_le a b : (a ≤ b)%Z → pow2 a <= pow2 b.
Proof. intros. apply Qpower_le_compat_l; [done|lra]. Qed.

Lemma pow2_lt a b : (a < b)%Z → pow2 a < pow2 b.
Proof. intros. apply Qpower_lt_compat_l; [done|lra]. Qed.

Lemma pow2_Z n : (0 ≤ n)%Z → pow2 n == inject_Z (2 ^ n).
Proof. intros. by rewrite Zpower_Qpower. Qed.

Lemma pow2_succ e : pow2 (e + 1) == 2 * pow2 e.
Proof. rewrite pow2_add. change (pow2 1) with 2. ring. Qed.

Lemma injZ_le a b : (a ≤ b)%Z → inject_Z a <= inject_Z b.
Proof. by rewrite Zle_Qle. Qed.

Lemma injZ_lt a b : (a < b)%Z → inject_Z a < inject_Z b.
Proof. by rewrite Zlt_Qlt. Qed.

Lemma leZ_inj a b : inject_Z a <= inject_Z b → (a ≤ b)%Z.
Proof. by rewrite Zle_Qle. Qed.

(** Dividing by a power of two. *)
Lemma scale_le x y e : x / pow2 e <= y ↔ x <= y * pow2 e.
Proof.
  pose proof (pow2_pos e). split; intros.
  - setoid_replace x with (x / pow2 e * pow2 e) using relation Qeq by (field; lra). by apply Qmult_le_compat_r; [|lra].
  - by apply Qle_shift_div_r.
Qed.

Lemma scale_ge x y e : y <= x / pow2 e ↔ y * pow2 e <= x.
Proof.
  pose proof (pow2_pos e). split; intros.
  - setoid_replace x with (x / pow2 e * pow2 e) using relation Qeq by (field; lra). by apply Qmult_le_compat_r; [|lra].
  - by apply Qle_shift_div_l.
Qed.

(** * Nearest integers *)

Lemma rne_half x : Qabs (inject_Z (rne x) - x) <= 1 # 2.
Proof.
  unfold rne. pose proof (Qfloor_le x) as H1. pose proof (Qlt_floor x) as H2. rewrite inject_Z_plus in H2. change (inject_Z 1) with 1 in H2.
  set (n := Qfloor x) in *. apply Qabs_Qle_condition.
  destruct (Qcompare_spec (x - inject_Z n) (1 # 2)) as [E|E|E]; [destruct (Z.even n)|..];
    rewrite ?inject_Z_plus; change (inject_Z 1) with 1; lra.
Qed.

(** An integer on one side of a rational is not passed by rounding. *)
Lemma rne_le x z : x <= inject_Z z → (rne x ≤ z)%Z.
Proof.
  intros Hx. pose proof (rne_half x) as Hh. apply Qabs_Qle_condition in Hh.
  destruct (Z.le_gt_cases (rne x) z) as [|Hgt]; [done|]. assert (Hz : (z + 1 ≤ rne x)%Z) by lia.
  apply injZ_le in Hz. rewrite inject_Z_plus in Hz. change (inject_Z 1) with 1 in Hz. lra.
Qed.

Lemma rne_ge x z : inject_Z z <= x → (z ≤ rne x)%Z.
Proof.
  intros Hx. pose proof (rne_half x) as Hh. apply Qabs_Qle_condition in Hh.
  destruct (Z.le_gt_cases z (rne x)) as [|Hgt]; [done|]. assert (Hz : (rne x + 1 ≤ z)%Z) by lia.
  apply injZ_le in Hz. rewrite inject_Z_plus in Hz. change (inject_Z 1) with 1 in Hz. lra.
Qed.

(** Closer than one half, there is only one choice. *)
Lemma rne_near x z : Qabs (inject_Z z - x) < 1 # 2 → rne x = z.
Proof.
  intros Hz. pose proof (rne_half x) as Hh. apply Qabs_Qle_condition in Hh. apply Qabs_Qlt_condition in Hz.
  destruct (Z.lt_trichotomy (rne x) z) as [Hlt|[|Hlt]]; [|done|]; exfalso.
  - assert (Hc : (rne x + 1 ≤ z)%Z) by lia. apply injZ_le in Hc. rewrite inject_Z_plus in Hc. change (inject_Z 1) with 1 in Hc. lra.
  - assert (Hc : (z + 1 ≤ rne x)%Z) by lia. apply injZ_le in Hc. rewrite inject_Z_plus in Hc. change (inject_Z 1) with 1 in Hc. lra.
Qed.

#[global] Instance rne_proper : Proper (Qeq ==> eq) rne.
Proof.
  intros x y E. unfold rne. rewrite (Qfloor_comp _ _ E). by rewrite (Qcompare_comp (x - inject_Z (Qfloor y)) (y - inject_Z (Qfloor y)) ltac:(by rewrite E) (1 # 2) (1 # 2) ltac:(done)).
Qed.

(** * Binades *)

Lemma log2Q_spec x : 0 < x → pow2 (log2Q x) <= x < pow2 (log2Q x + 1).
Proof.
  intros Hx. unfold log2Q. destruct x as [n d]. assert (Hn : (0 < n)%Z) by (unfold Qlt in Hx; simpl in Hx; lia). cbn [Qnum Qden].
  pose proof (Z.log2_spec n Hn) as [N1 N2]. pose proof (Z.log2_spec (Z.pos d) ltac:(lia)) as [D1 D2].
  pose proof (Z.log2_nonneg n). pose proof (Z.log2_nonneg (Z.pos d)). set (a := Z.log2 n) in *. set (b := Z.log2 (Z.pos d)) in *.
  assert (Ex : n # d == inject_Z n / inject_Z (Z.pos d)) by (by rewrite <- Qmake_Qdiv).
  assert (Hd : 0 < inject_Z (Z.pos d)) by done.
  apply injZ_le in N1, D1. apply injZ_lt in N2, D2. rewrite <- Z.add_1_r in N2, D2.
  rewrite <- pow2_Z in N1, N2, D1, D2 by lia. rewrite pow2_succ in N2, D2.
  pose proof (pow2_pos a). pose proof (pow2_pos b). pose proof (pow2_pos (a - b)).
  assert (Eab : pow2 a == pow2 (a - b) * pow2 b) by (rewrite <- pow2_add; by replace (a - b + b)%Z with a by lia).
  assert (Hup : n # d < 2 * pow2 (a - b)) by (rewrite Ex; apply Qlt_shift_div_r; [done|nra]).
  assert (Hlow : pow2 (a - b) < 2 * (n # d)).
  { setoid_replace (2 * (n # d)) with (2 * inject_Z n / inject_Z (Z.pos d)) using relation Qeq by (rewrite Ex; field; lra). apply Qlt_shift_div_l; [done|nra]. }
  destruct (Qle_bool (pow2 (a - b)) (n # d)) eqn:El.
  - apply Qle_bool_iff in El. by rewrite pow2_succ.
  - assert (Hlt : n # d < pow2 (a - b)) by (apply Qnot_le_lt; intros Hle; apply Qle_bool_iff in Hle; congruence).
    replace (a - b - 1 + 1)%Z with (a - b)%Z by lia. split; [|done].
    assert (E2 : pow2 (a - b) == 2 * pow2 (a - b - 1)) by (rewrite <- pow2_succ; by replace (a - b - 1 + 1)%Z with (a - b)%Z by lia). lra.
Qed.

Lemma log2Q_unique x k : pow2 k <= x < pow2 (k + 1) → log2Q x = k.
Proof.
  intros [H1 H2]. assert (Hx : 0 < x) by (pose proof (pow2_pos k); lra). destruct (log2Q_spec x Hx) as [L1 L2].
  destruct (Z.lt_trichotomy (log2Q x) k) as [Hlt|[|Hlt]]; [|done|].
  - pose proof (pow2_le (log2Q x + 1) k ltac:(lia)). lra.
  - pose proof (pow2_le (k + 1) (log2Q x) ltac:(lia)). lra.
Qed.

Lemma log2Q_comp x y : 0 < x → x == y → log2Q x = log2Q y.
Proof. intros Hx E. symmetry. apply log2Q_unique. rewrite <- E. by apply log2Q_spec. Qed.

(** Rounding depends on the value only. *)
Lemma round_pos_comp f s x y : 0 < x → x == y → round_pos f s x = round_pos f s y.
Proof. intros Hx E. unfold round_pos, fexp. rewrite (log2Q_comp x y Hx E). by rewrite (rne_proper _ _ (Qdiv_comp _ _ E _ _ ltac:(reflexivity))). Qed.

#[global] Instance round_proper f s : Proper (Qeq ==> eq) (round f s).
Proof.
  intros x y E. unfold round. rewrite <- (Qcompare_comp x y E 0 0 ltac:(reflexivity)).
  destruct (Qcompare_spec x 0); [done|apply round_pos_comp; [lra|by rewrite E]|by apply round_pos_comp].
Qed.

Lemma round_pos_sign f s x : sign (round_pos f s x) = s.
Proof. unfold round_pos. destruct (_ =? 0)%Z; [done|]. destruct (if _ =? _ then _ else _)%Z as [m e]. by destruct (_ <? _)%Z. Qed.

Lemma round_nonneg_sign f x : 0 <= x → sign (round f false x) = false.
Proof. intros Hx. unfold round. destruct (Qcompare_spec x 0); [done|lra|apply round_pos_sign]. Qed.

(** * Correct rounding *)

Section Rounding.
Context (f : format).
Hypothesis Hf : (1 < prec f)%Z ∧ (prec f < emax f)%Z.

(** The values of the finite numbers of the format. *)

Definition number (y : Q) : Prop :=
  ∃ a e, (Z.abs a < 2 ^ prec f)%Z ∧ (emin f ≤ e ≤ emax f - prec f)%Z ∧ y == inject_Z a * pow2 e.

Definition canonical (x : fl) : Prop :=
  match x with Fin _ m e => (Z.pos m < 2 ^ prec f)%Z ∧ (emin f ≤ e ≤ emax f - prec f)%Z | _ => True end.

Lemma number_comp x y : x == y → number x → number y.
Proof. intros E (a & e & Ha & He & Ex). exists a, e. by rewrite <- E. Qed.

Lemma number_opp y : number y → number (- y).
Proof.
  intros (a & e & Ha & He & E). exists (- a)%Z, e. rewrite Z.abs_opp. split_and!; [lia..|]. rewrite E, inject_Z_opp. ring.
Qed.

Lemma number_val x : canonical x → number (val x).
Proof.
  destruct x as [s|s|s|s m e]; simpl.
  1-3: intros _; exists 0%Z, (emin f); split_and!; [simpl; lia|unfold emin; lia|unfold emin; lia|by rewrite Qmult_0_l].
  intros [Hm He]. assert (Hn : number (inject_Z (Z.pos m) * pow2 e)) by (exists (Z.pos m), e; split_and!; [lia..|done]).
  destruct s; [|done]. apply number_comp with (- (inject_Z (Z.pos m) * pow2 e)); [ring|by apply number_opp].
Qed.

Lemma number_Z z : (Z.abs z ≤ 2 ^ prec f)%Z → (2 * prec f ≤ emax f)%Z → number (inject_Z z).
Proof.
  intros Hz Hp. destruct (Z.eq_dec (Z.abs z) (2 ^ prec f)) as [E|].
  - assert (Ep : (2 ^ prec f = 2 * 2 ^ (prec f - 1))%Z) by (rewrite <- Z.pow_succ_r by lia; f_equal; lia).
    assert (0 < 2 ^ (prec f - 1))%Z by lia. 
    exists (Z.sgn z * 2 ^ (prec f - 1))%Z, 1%Z. split_and!; [rewrite Z.abs_mul, (Z.abs_eq (2 ^ _)) by lia; destruct z; simpl in *; lia|unfold emin; lia|lia|].
    change (pow2 1) with (inject_Z 2). rewrite <- inject_Z_mult. destruct z; simpl in *; rewrite ?inject_Z_opp; f_equiv; lia.
  - exists z, 0%Z. split_and!; [lia|unfold emin; lia|lia|]. change (pow2 0) with 1. ring.
Qed.

Lemma number_bound y : number y → y < pow2 (emax f).
Proof.
  intros (a & e & Ha & He & ->). assert (H1 : inject_Z a < pow2 (prec f)) by (rewrite pow2_Z by lia; apply injZ_lt; lia).
  pose proof (pow2_pos e). pose proof (pow2_le (prec f + e) (emax f) ltac:(lia)) as Hle. rewrite pow2_add in Hle.
    pose proof (Qmult_lt_compat_r _ _ _ (pow2_pos e) H1). lra.
Qed.

(** A number is a multiple of the smaller powers of two. *)
Lemma grid_mult a (e e' : Z) : (e ≤ e')%Z → ∃ b, inject_Z a * pow2 e' == inject_Z b * pow2 e.
Proof.
  intros He. exists (a * 2 ^ (e' - e))%Z. rewrite inject_Z_mult, <- pow2_Z by lia.
  rewrite <- Qmult_assoc, <- pow2_add. by replace (e' - e + e)%Z with e' by lia.
Qed.

(** Off the grid of [x] there are only numbers below its binade. *)
Lemma number_grid x y :
  0 < x → number y →
  (∃ b, y == inject_Z b * pow2 (fexp f x)) ∨ (y < pow2 (log2Q x) ∧ fexp f x = (log2Q x - prec f + 1)%Z).
Proof.
  intros Hx (a & e & Ha & He & Ey). destruct (Z.le_gt_cases (fexp f x) e) as [Hle|Hgt].
  - left. destruct (grid_mult a _ _ Hle) as [b Eb]. exists b. by rewrite Ey.
  - right. assert (Ee : fexp f x = (log2Q x - prec f + 1)%Z) by (unfold fexp in *; lia). split; [|done]. rewrite Ey.
    assert (H1 : inject_Z a < pow2 (prec f)) by (rewrite pow2_Z by lia; apply injZ_lt; lia).
    pose proof (pow2_pos e). pose proof (pow2_le (prec f + e) (log2Q x) ltac:(lia)) as Hle. rewrite pow2_add in Hle.
    pose proof (Qmult_lt_compat_r _ _ _ (pow2_pos e) H1). lra.
Qed.

(** The value rounded to, before the check for overflow. *)

Definition rv (x : Q) : Q := inject_Z (rne (x / pow2 (fexp f x))) * pow2 (fexp f x).

Lemma binade_grid x : fexp f x = (log2Q x - prec f + 1)%Z → pow2 (log2Q x) == inject_Z (2 ^ (prec f - 1)) * pow2 (fexp f x).
Proof. intros ->. rewrite <- pow2_Z, <- pow2_add by lia. by replace (prec f - 1 + (log2Q x - prec f + 1))%Z with (log2Q x) by lia. Qed.

Lemma rv_le x y : 0 < x → number y → x <= y → rv x <= y.
Proof.
  intros Hx Hy Hle. destruct (log2Q_spec x Hx) as [Hk _]. destruct (number_grid x y Hx Hy) as [[b Eb]|[Hlt _]]; [|lra].
  unfold rv. rewrite Eb. pose proof (pow2_pos (fexp f x)). apply Qmult_le_compat_r; [|lra]. apply injZ_le, rne_le, scale_le. by rewrite <- Eb.
Qed.

Lemma rv_grid_ge x b : inject_Z b * pow2 (fexp f x) <= x → inject_Z b * pow2 (fexp f x) <= rv x.
Proof.
  intros Hle. unfold rv. pose proof (pow2_pos (fexp f x)). apply Qmult_le_compat_r; [|lra]. by apply injZ_le, rne_ge, scale_ge.
Qed.

Lemma rv_ge x y : 0 < x → number y → y <= x → y <= rv x.
Proof.
  intros Hx Hy Hle. destruct (log2Q_spec x Hx) as [Hk _]. destruct (number_grid x y Hx Hy) as [[b Eb]|[Hlt Ee]].
  - rewrite Eb in *. by apply rv_grid_ge.
  - pose proof (binade_grid x Ee) as Eg. rewrite Eg in *. pose proof (rv_grid_ge x _ Hk). lra.
Qed.

Lemma rv_err x : Qabs (rv x - x) <= (1 # 2) * pow2 (fexp f x).
Proof.
  unfold rv. pose proof (pow2_pos (fexp f x)) as Hp. pose proof (rne_half (x / pow2 (fexp f x))) as Hh. apply Qabs_Qle_condition in Hh.
  apply Qabs_Qle_condition. set (m := inject_Z (rne _)) in *. set (e := pow2 (fexp f x)) in *.
  assert (Ex : x == x / e * e) by (field; lra). set (y := x / e) in *. rewrite Ex. nra.
Qed.

Lemma rv_nonneg x : 0 < x → 0 <= rv x.
Proof. intros Hx. apply rv_ge; [done| |lra]. apply (number_val (Zero false)). done. Qed.

Lemma rv_binade x : 0 < x → rv x <= pow2 (fexp f x + prec f).
Proof.
  intros Hx. destruct (log2Q_spec x Hx) as [_ Hk]. unfold rv. rewrite (Z.add_comm (fexp f x)), pow2_add.
  pose proof (pow2_pos (fexp f x)). apply Qmult_le_compat_r; [|lra]. rewrite (pow2_Z (prec f)) by lia. apply injZ_le, rne_le. rewrite <- (pow2_Z (prec f)) by lia.
  apply scale_le. rewrite <- pow2_add. pose proof (pow2_le (log2Q x + 1) (prec f + fexp f x) ltac:(unfold fexp; lia)). lra.
Qed.

(** Nothing nearer. *)
Lemma rv_near x y : 0 < x → number y → Qabs (rv x - x) <= Qabs (y - x).
Proof.
  intros Hx Hy. assert (Hgrid : ∀ b, Qabs (rv x - x) <= Qabs (inject_Z b * pow2 (fexp f x) - x)).
  { intros b. pose proof (pow2_pos (fexp f x)) as Hp. set (e := pow2 (fexp f x)) in *. unfold rv. fold e.
    assert (Ex : x == x / e * e) by (field; lra). set (z := x / e) in *. pose proof (rne_half z) as Hh.
    assert (Hz : Qabs (inject_Z (rne z) - z) <= Qabs (inject_Z b - z)).
    { destruct (Qlt_le_dec (Qabs (inject_Z b - z)) (1 # 2)) as [Hb|Hb]; [|lra]. rewrite (rne_near z b Hb). lra. }
    assert (Hs : ∀ a, Qabs (a * e - x) == Qabs (a - z) * e).
    { intros a. rewrite Ex. setoid_replace (a * e - z * e) with ((a - z) * e) using relation Qeq by ring. by rewrite Qabs_Qmult, (Qabs_pos e) by lra. }
    rewrite !Hs. apply Qmult_le_compat_r; [done|lra]. }
  destruct (number_grid x y Hx Hy) as [[b Eb]|[Hlt Ee]]; [by rewrite Eb|].
  destruct (log2Q_spec x Hx) as [Hk _]. pose proof (Hgrid (2 ^ (prec f - 1))%Z) as Hg. rewrite <- (binade_grid x Ee) in Hg.
  rewrite (Qabs_neg (pow2 _ - x)) in Hg by lra. rewrite (Qabs_neg (y - x)) by lra. lra.
Qed.

Definition signed (s : bool) (x : Q) : Q := if s then - x else x.

Lemma round_pos_spec s x :
  0 < x → canonical (round_pos f s x) ∧ (rv x < pow2 (emax f) → finite (round_pos f s x) = true) ∧
  (finite (round_pos f s x) = true → val (round_pos f s x) == signed s (rv x)).
Proof.
  intros Hx. pose proof (rv_binade x Hx) as Hb. pose proof (rv_nonneg x Hx) as Hnn. destruct (log2Q_spec x Hx) as [Hk _].
  assert (He : (emin f ≤ fexp f x)%Z) by (unfold fexp; lia).
  assert (Hbig : (emax f - prec f < fexp f x)%Z → pow2 (emax f) <= rv x).
  { intros Hgt. assert (Ee : fexp f x = (log2Q x - prec f + 1)%Z) by (unfold fexp, emin in *; lia).
    pose proof (binade_grid x Ee) as Eg. pose proof (pow2_le (emax f) (log2Q x) ltac:(lia)). rewrite Eg in Hk, H. pose proof (rv_grid_ge x _ Hk). lra. }
  unfold round_pos. pose proof (pow2_pos (fexp f x)) as Hp. unfold rv in *. set (m := rne (x / pow2 (fexp f x))) in *. set (e := fexp f x) in *.
  assert (Hm0 : (0 ≤ m)%Z).
  { apply leZ_inj. change (inject_Z 0) with 0. apply Qnot_lt_le. intros Hneg. nra. }
  assert (Hm1 : (m ≤ 2 ^ prec f)%Z).
  { apply leZ_inj. rewrite <- pow2_Z by lia. rewrite Z.add_comm, pow2_add in Hb. apply Qnot_lt_le. intros Hgt. nra. }
  destruct (Z.eqb_spec m 0) as [E0|E0]; [split; [done|]; split; [done|]; intros _; rewrite E0; destruct s; simpl; ring|].
  destruct (Z.eqb_spec m (2 ^ prec f)) as [E1|E1].
  - assert (Ev : inject_Z m * pow2 e == inject_Z (2 ^ (prec f - 1)) * pow2 (e + 1)).
    { rewrite E1, <- !pow2_Z, <- !pow2_add by lia. by replace (prec f - 1 + (e + 1))%Z with (prec f + e)%Z by lia. }
    assert (Hpp : (0 < 2 ^ (prec f - 1) < 2 ^ prec f)%Z) by (split; [lia|apply Z.pow_lt_mono_r; lia]).
    destruct (Z.ltb_spec (emax f - prec f) (e + 1)) as [Hov|Hov]; simpl.
    + split; [done|]. split; [|done]. intros Hlt. exfalso. rewrite E1, <- pow2_Z, <- pow2_add in Hlt by lia.
      pose proof (pow2_le (emax f) (prec f + e) ltac:(lia)). lra.
    + rewrite Z2Pos.id by lia. split; [lia|]. split; [done|]. intros _. destruct s; simpl; rewrite Ev; ring.
  - destruct (Z.ltb_spec (emax f - prec f) e) as [Hov|Hov]; simpl.
    + split; [done|]. split; [|done]. intros Hlt. specialize (Hbig Hov). lra.
    + rewrite Z2Pos.id by lia. split; [lia|]. split; [done|]. intros _. destruct s; simpl; ring.
Qed.

Lemma round_canonical s x : canonical (round f s x).
Proof.
  unfold round. destruct (Qcompare_spec x 0); [done|..]; apply round_pos_spec; lra.
Qed.

(** The rounded value, when there is one. *)
Lemma round_val s x :
  finite (round f s x) = true →
  (x == 0 ∧ val (round f s x) == 0) ∨ (0 < x ∧ val (round f s x) == rv x) ∨ (x < 0 ∧ val (round f s x) == - rv (- x)).
Proof.
  unfold round. destruct (Qcompare_spec x 0) as [E|E|E]; intros Hfin; [by left|right; right|right; left]; split; try done.
  - destruct (round_pos_spec true (- x) ltac:(lra)) as (_ & _ & ->); done.
  - destruct (round_pos_spec false x E) as (_ & _ & ->); done.
Qed.

Lemma round_le s x y : number y → x <= y → finite (round f s x) = true → val (round f s x) <= y.
Proof.
  intros Hy Hxy Hfin. destruct (round_val s x Hfin) as [[E ->]|[[E ->]|[E ->]]]; [lra|by apply rv_le|].
  pose proof (rv_ge (- x) (- y) ltac:(lra) (number_opp _ Hy) ltac:(lra)). lra.
Qed.

Lemma round_ge s x y : number y → y <= x → finite (round f s x) = true → y <= val (round f s x).
Proof.
  intros Hy Hxy Hfin. destruct (round_val s x Hfin) as [[E ->]|[[E ->]|[E ->]]]; [lra|by apply rv_ge|].
  pose proof (rv_le (- x) (- y) ltac:(lra) (number_opp _ Hy) ltac:(lra)). lra.
Qed.

Lemma round_finite s x lo hi : number lo → number hi → lo <= x <= hi → finite (round f s x) = true.
Proof.
  intros Hlo Hhi [Hl Hh]. unfold round. destruct (Qcompare_spec x 0) as [E|E|E]; [done|..]; apply round_pos_spec; try lra.
  - pose proof (number_bound _ (number_opp _ Hlo)). pose proof (rv_le (- x) (- lo) ltac:(lra) (number_opp _ Hlo) ltac:(lra)). lra.
  - pose proof (number_bound _ Hhi). pose proof (rv_le x hi E Hhi Hh). lra.
Qed.

(** Rounding never leaves an interval between two numbers; in particular it does not overflow there. *)
Lemma round_between s x lo hi :
  number lo → number hi → lo <= x <= hi → finite (round f s x) = true ∧ lo <= val (round f s x) <= hi.
Proof.
  intros Hlo Hhi Hx. pose proof (round_finite s x lo hi Hlo Hhi Hx) as Hfin. split; [done|].
  destruct Hx. split; [by apply round_ge|by apply round_le].
Qed.

Lemma round_exact s x : number x → finite (round f s x) = true ∧ val (round f s x) == x.
Proof. intros Hx. destruct (round_between s x x x Hx Hx ltac:(lra)) as [Hfin Hv]. split; [done|lra]. Qed.

(** No number is nearer than the rounded one. *)
Lemma round_near s x y : finite (round f s x) = true → number y → Qabs (val (round f s x) - x) <= Qabs (y - x).
Proof.
  intros Hfin Hy. destruct (round_val s x Hfin) as [[E ->]|[[E ->]|[E ->]]]; [|by apply rv_near|].
  - rewrite E. change (Qabs (0 - 0)) with 0. apply Qabs_nonneg.
  - pose proof (rv_near (- x) (- y) ltac:(lra) (number_opp _ Hy)) as Hn. rewrite <- (Qabs_opp (y - x)), <- (Qabs_opp (- rv (- x) - x)).
    setoid_replace (- (- rv (- x) - x)) with (rv (- x) - - x) using relation Qeq by ring.
    by setoid_replace (- (y - x)) with (- y - - x) using relation Qeq by ring.
Qed.

Lemma rv_comp x y : 0 < x → x == y → rv x == rv y.
Proof. intros Hx E. unfold rv, fexp. rewrite (log2Q_comp x y Hx E). by rewrite E. Qed.

(** The sign of a zero does not matter for the value. *)
Lemma round_sign s t x : val (round f s x) = val (round f t x) ∧ finite (round f s x) = finite (round f t x).
Proof. unfold round. by destruct (Qcompare x 0). Qed.

Lemma round_mono s t x y :
  x <= y → finite (round f s x) = true → finite (round f t y) = true → val (round f s x) <= val (round f t y).
Proof.
  intros Hxy Hx Hy. pose proof (number_val _ (round_canonical s x)) as Na. pose proof (number_val _ (round_canonical t y)) as Nb.
  destruct (Qlt_le_dec (val (round f t y)) (val (round f s x))) as [Hlt|]; [|done].
  destruct (Qlt_le_dec (val (round f t y)) x) as [Hbx|]; [|by apply round_le].
  destruct (Qlt_le_dec y (val (round f s x))) as [Hya|]; [|by apply round_ge].
  pose proof (round_near s x _ Hx Nb) as H1. pose proof (round_near t y _ Hy Na) as H2.
  rewrite (Qabs_pos (val (round f s x) - x)), (Qabs_neg (val (round f t y) - x)) in H1 by lra.
  rewrite (Qabs_neg (val (round f t y) - y)), (Qabs_pos (val (round f s x) - y)) in H2 by lra.
  destruct (round_sign s t x) as [-> _]. assert (Exy : x == y) by lra. rewrite Exy. lra.
Qed.

Lemma round_opp s t x :
  finite (round f s (- x)) = true → finite (round f t x) = true → val (round f s (- x)) == - val (round f t x).
Proof.
  intros H1 H2. destruct (round_val s (- x) H1) as [[? ->]|[[? ->]|[? ->]]], (round_val t x H2) as [[? ->]|[[? ->]|[? ->]]]; try lra; try reflexivity.
  rewrite (rv_comp (- - x) x) by lra. reflexivity.
Qed.

(** Above the subnormal numbers the relative error is at most half a unit in the last place. *)
Lemma round_rel s x :
  pow2 (emin f + prec f - 1) <= x → finite (round f s x) = true →
  (1 - pow2 (- prec f)) * x <= val (round f s x) <= (1 + pow2 (- prec f)) * x.
Proof.
  intros Hn Hfin. pose proof (pow2_pos (emin f + prec f - 1)). destruct (round_val s x Hfin) as [[? ?]|[[Hx ->]|[? ?]]]; [lra| |lra].
  destruct (log2Q_spec x Hx) as [Hk Hk1]. assert (Hlog : (emin f + prec f - 1 ≤ log2Q x)%Z).
  { destruct (Z.le_gt_cases (emin f + prec f - 1) (log2Q x)) as [|Hgt]; [done|]. pose proof (pow2_le (log2Q x + 1) (emin f + prec f - 1) ltac:(lia)). lra. }
  pose proof (rv_err x) as He. apply Qabs_Qle_condition in He.
  assert (Ee : (1 # 2) * pow2 (fexp f x) == pow2 (- prec f) * pow2 (log2Q x)).
  { unfold fexp. rewrite Z.max_l by lia. rewrite <- pow2_add. replace (log2Q x - prec f + 1)%Z with ((- prec f + log2Q x) + 1)%Z by lia. rewrite pow2_succ. ring. }
  assert (pow2 (- prec f) * pow2 (log2Q x) <= pow2 (- prec f) * x).
  { rewrite !(Qmult_comm (pow2 (- prec f))). apply Qmult_le_compat_r; [done|]. pose proof (pow2_pos (- prec f)). lra. }
  lra.
Qed.

End Rounding.

(** * Operations on finite numbers *)

Section Finite.
Context (f : format).
Hypothesis Hf : (1 < prec f)%Z ∧ (prec f < emax f)%Z.

Lemma val_fneg x : val (fneg x) == - val x.
Proof. destruct x as [s|s|s|[] m e]; simpl; ring. Qed.

Lemma fadd_round x y : finite x = true → finite y = true → fadd f x y = round f (sign x && sign y) (val x + val y).
Proof. by destruct x, y. Qed.

Lemma fsub_round x y :
  finite x = true → finite y = true → fsub f x y = round f (sign x && negb (sign y)) (val x + val (fneg y)).
Proof. by destruct x, y. Qed.

Lemma fmul_round x y : finite x = true → finite y = true → fmul f x y = round f (xorb (sign x) (sign y)) (val x * val y).
Proof. by destruct x, y. Qed.

Lemma fdiv_round x y :
  finite x = true → finite y = true → ~ val y == 0 → fdiv f x y = round f (xorb (sign x) (sign y)) (val x / val y).
Proof. destruct x, y; try done; intros _ _ Hy; by destruct Hy. Qed.

(** A result between two numbers is finite and between them. *)
Lemma fadd_between x y lo hi :
  finite x = true → finite y = true → number f lo → number f hi → lo <= val x + val y <= hi →
  finite (fadd f x y) = true ∧ lo <= val (fadd f x y) <= hi.
Proof using Hf. intros Hx Hy Hlo Hhi Hb. rewrite fadd_round by done. by apply round_between. Qed.

Lemma fsub_between x y lo hi :
  finite x = true → finite y = true → number f lo → number f hi → lo <= val x - val y <= hi →
  finite (fsub f x y) = true ∧ lo <= val (fsub f x y) <= hi.
Proof using Hf.
  intros Hx Hy Hlo Hhi Hb. rewrite fsub_round by done. pose proof (val_fneg y). apply round_between; [done..|]. lra.
Qed.

Lemma fmul_between x y lo hi :
  finite x = true → finite y = true → number f lo → number f hi → lo <= val x * val y <= hi →
  finite (fmul f x y) = true ∧ lo <= val (fmul f x y) <= hi.
Proof using Hf. intros Hx Hy Hlo Hhi Hb. rewrite fmul_round by done. by apply round_between. Qed.

Lemma fdiv_between x y lo hi :
  finite x = true → finite y = true → ~ val y == 0 → number f lo → number f hi → lo <= val x / val y <= hi →
  finite (fdiv f x y) = true ∧ lo <= val (fdiv f x y) <= hi.
Proof using Hf. intros Hx Hy H0 Hlo Hhi Hb. rewrite fdiv_round by done. by apply round_between. Qed.

Lemma of_Z_exact z : (Z.abs z ≤ 2 ^ prec f)%Z → (2 * prec f ≤ emax f)%Z → finite (of_Z f z) = true ∧ val (of_Z f z) == inject_Z z.
Proof using Hf. intros Hz Hp. apply round_exact; [done|]. by apply number_Z. Qed.

End Finite.

Lemma binary64_ok : (1 < prec binary64)%Z ∧ (prec binary64 < emax binary64)%Z.
Proof. done. Qed.

Lemma x87_ok : (1 < prec x87_extended)%Z ∧ (prec x87_extended < emax x87_extended)%Z.
Proof. done. Qed.

#[export] Hint Resolve binary64_ok x87_ok : core.

(** * Against the Standard Library

    The operations agree with the executable specification of binary64 that the Standard Library
    has, on operands with ties, cancellation, subnormal results, overflow and signed zeros. *)

From Stdlib Require Import SpecFloat.

Definition to_spec (x : fl) : spec_float :=
  match x with
  | Zero s => S754_zero s
  | Inf s => S754_infinity s
  | NaN _ => S754_nan
  | Fin s m e => S754_finite s m e
  end.

Definition samples : list fl :=
  [Zero false; Zero true; Inf true; of_Z binary64 (-3); round binary64 false (1 # 10); of_Z binary64 (2 ^ 53 - 1);
   Fin false (2 ^ 53 - 1) 971; Fin true 3 (-1074)].

Definition same_bits (a b : spec_float) : bool :=
  match a, b with
  | S754_zero s, S754_zero t | S754_infinity s, S754_infinity t => eqb s t
  | S754_nan, S754_nan => true
  | S754_finite s m e, S754_finite t n k => eqb s t && Pos.eqb m n && Z.eqb e k
  | _, _ => false
  end.

Lemma agrees_with_spec_float :
  forallb (λ x, forallb (λ y,
    let op f g := same_bits (to_spec (f x y)) (g 53%Z 1024%Z (to_spec x) (to_spec y)) in
    op (fadd binary64) SFadd && op (fsub binary64) SFsub && op (fmul binary64) SFmul && op (fdiv binary64) SFdiv
    && eqb (flt x y) (SFltb (to_spec x) (to_spec y))) samples) samples = true.
Proof. vm_compute. reflexivity. Qed.
