(* ===== verification/Rounding.v ===== *)
(** Rounding errors of the two formats: values that are numbers, small relative errors and how they
    add up over several operations, and roundings of values that are zero or well inside the
    range. *)
From S2P Require Export Float.

#[local] Open Scope Q_scope.

Definition num64 : Q → Prop := number binary64.

(** The unit roundoff of binary64. *)

Definition ulp : Q := pow2 (-53).

Lemma num_Z z : (Z.abs z ≤ 2 ^ 53)%Z → num64 (inject_Z z).
Proof. intros Hz. by apply (number_Z binary64 binary64_ok). Qed.

Lemma num_val s x : num64 (val (round binary64 s x)).
Proof. apply number_val; [done|]. by apply round_canonical. Qed.

Lemma int_exact z : (Z.abs z ≤ 2 ^ 53)%Z → finite (of_Z binary64 z) = true ∧ val (of_Z binary64 z) == inject_Z z.
Proof. intros Hz. by apply of_Z_exact. Qed.

Lemma flt_pos x : finite x = true → flt (Zero false) x = true ↔ 0 < val x.
Proof.
  intros Hx. assert (E : flt (Zero false) x = match Qcompare 0 (val x) with Lt => true | _ => false end) by (by destruct x).
  rewrite E. destruct (Qcompare_spec 0 (val x)); split; (done || lra).
Qed.

(** Twice a number of moderate size is a number, and so is half of one. *)
Lemma num_scale y k : num64 y → pow2 (-900) <= Qabs y <= pow2 900 → (Z.abs k ≤ 1)%Z → num64 (pow2 k * y).
Proof.
  intros (a & e & Ha & He & E) Hy Hk. exists a, (e + k)%Z. split; [done|].
  assert (Habs : Qabs y == inject_Z (Z.abs a) * pow2 e).
  { rewrite E, Qabs_Qmult, (Qabs_pos (pow2 e)) by (pose proof (pow2_pos e); lra). by destruct a. }
  assert (Ha1 : (1 ≤ Z.abs a)%Z).
  { destruct (Z.eq_dec a 0) as [->|]; [|lia]. pose proof (pow2_pos (-900)). simpl in Habs. rewrite Qmult_0_l in Habs. lra. }
  pose proof (pow2_pos e) as Hp. cbn [prec emax binary64] in *. change (emin binary64) with (-1074)%Z in *.
  assert (H1 : pow2 e <= pow2 900).
  { apply injZ_le in Ha1. change (inject_Z 1) with 1 in Ha1. pose proof (Qmult_le_compat_r _ _ (pow2 e) Ha1 ltac:(lra)). lra. }
  assert (H2 : pow2 (-900) <= pow2 (53 + e)).
  { assert (Hb : inject_Z (Z.abs a) <= pow2 53) by (rewrite (pow2_Z 53) by lia; apply injZ_le; lia).
    pose proof (Qmult_le_compat_r _ _ (pow2 e) Hb ltac:(lra)). rewrite pow2_add. lra. }
  assert ((e ≤ 900)%Z) by (destruct (Z.le_gt_cases e 900) as [|Hgt]; [done|]; pose proof (pow2_lt 900 e Hgt); lra).
  assert ((-900 ≤ 53 + e)%Z) by (destruct (Z.le_gt_cases (-900) (53 + e)) as [|Hgt]; [done|]; pose proof (pow2_lt (53 + e) (-900) Hgt); lra).
  split; [lia|]. rewrite E, pow2_add. ring.
Qed.

(** Rounding a value that is zero or well inside the range. *)
Lemma round_small s x :
  x == 0 ∨ pow2 (-1022) <= x → x <= inject_Z (2 ^ 53) →
  finite (round binary64 s x) = true ∧ (1 - ulp) * x <= val (round binary64 s x) <= (1 + ulp) * x.
Proof.
  intros Hx Hup. assert (H0 : 0 <= x) by (pose proof (pow2_pos (-1022)); destruct Hx; lra).
  destruct (round_between binary64 binary64_ok s x 0 (inject_Z (2 ^ 53))) as [Hfin Hv]; [by apply (num_Z 0)|by apply num_Z|lra|].
  split; [done|]. destruct Hx as [E|Hx].
  - destruct (round_between binary64 binary64_ok s x 0 0) as [_ Hz]; [by apply (num_Z 0)..|lra|].
    assert ((1 - ulp) * x == 0) by (rewrite E; ring). assert ((1 + ulp) * x == 0) by (rewrite E; ring). lra.
  - by apply (round_rel binary64 binary64_ok).
Qed.

Lemma mult_le_l c x y : 0 <= c → x <= y → c * x <= c * y.
Proof. intros Hc Hxy. rewrite !(Qmult_comm c). by apply Qmult_le_compat_r. Qed.

Lemma ulp_range : 0 < ulp < 1 # 1000.
Proof. by vm_compute. Qed.

Lemma convert_round f x : finite x = true → convert f x = round f (sign x) (val x).
Proof. by destruct x. Qed.

(** * Relative errors *)

Definition within (d x y : Q) : Prop := (1 - d) * x <= y <= (1 + d) * x.

Lemma within_trans d d' x y z : 0 <= x → 0 <= d → 0 <= d' <= 1 → within d x y → within d' y z → within (d + d' + d * d') x z.
Proof.
  intros Hx Hd [Hd0 Hd1] [H1 H2] [H3 H4]. pose proof (mult_le_l (1 - d') _ _ ltac:(lra) H1). pose proof (mult_le_l (1 + d') _ _ ltac:(lra) H2).
  assert (0 <= d * d' * x) by (apply Qmult_le_0_compat; [by apply Qmult_le_0_compat|done]). split; lra.
Qed.

Lemma within_mono d d' x y : 0 <= x → d <= d' → within d x y → within d' x y.
Proof. intros Hx Hd [H1 H2]. pose proof (Qmult_le_compat_r _ _ _ Hd Hx). split; lra. Qed.

(** * The extended format *)

Lemma ext_exact z : (Z.abs z ≤ 2 ^ 64)%Z → finite (of_Z x87_extended z) = true ∧ val (of_Z x87_extended z) == inject_Z z.
Proof. intros Hz. by apply (of_Z_exact x87_extended x87_ok). Qed.

Lemma num_ext z : (Z.abs z ≤ 2 ^ 64)%Z → number x87_extended (inject_Z z).
Proof. intros Hz. by apply (number_Z x87_extended x87_ok). Qed.

Lemma num_ext_pow2 e : (0 ≤ e ≤ 16000)%Z → number x87_extended (pow2 e).
Proof. intros He. exists 1%Z, e. split; [done|]. change (emin x87_extended) with (-16445)%Z. cbn [prec emax x87_extended]. split; [lia|]. by rewrite Qmult_1_l. Qed.

(** Every [double] is a number of the extended format. *)
Lemma num_widen y : num64 y → number x87_extended y.
Proof. intros (a & e & Ha & He & E). exists a, e. change (emin x87_extended) with (-16445)%Z.
  change (emin binary64) with (-1074)%Z in He. cbn [prec emax binary64 x87_extended] in *. split_and!; [lia..|done]. Qed.

Lemma ext_round s x :
  x == 0 ∨ pow2 (-16382) <= x → x <= pow2 100 →
  finite (round x87_extended s x) = true ∧ within (pow2 (-64)) x (val (round x87_extended s x)).
Proof.
  intros Hx Hup. assert (H0 : 0 <= x) by (pose proof (pow2_pos (-16382)); destruct Hx; lra).
  assert (F : finite (round x87_extended s x) = true)
    by (apply (round_finite x87_extended x87_ok s x 0 (pow2 100)); [by apply (num_ext 0)|by apply num_ext_pow2|lra]).
  split; [done|]. destruct Hx as [E|Hx]; [|by apply (round_rel x87_extended x87_ok)].
  destruct (round_between x87_extended x87_ok s x 0 0) as [_ Hz]; [by apply (num_ext 0)..|lra|]. unfold within.
  assert ((1 - pow2 (-64)) * x == 0) by (rewrite E; ring). assert ((1 + pow2 (-64)) * x == 0) by (rewrite E; ring). lra.
Qed.

(** Zero, or not below [pow2 (- k)]; a rounding to [double] costs one binary digit of this. *)

Definition at_least (k : Z) (x : Q) : Prop := x == 0 ∨ pow2 (- k) <= x.

Lemma at_least_within d k x y : d <= 1 # 2 → within d x y → 0 <= y → at_least k x → at_least (k + 1) y.
Proof.
  intros Hd [W1 W2] Hy [E|Hx]; [left|right].
  - assert ((1 + d) * x == 0) by (rewrite E; ring). lra.
  - pose proof (pow2_succ (- (k + 1))) as Ek. replace (- (k + 1) + 1)%Z with (- k)%Z in Ek by lia. pose proof (pow2_pos (- (k + 1))).
    pose proof (Qmult_le_compat_r d (1 # 2) x Hd ltac:(lra)). lra.
Qed.

Lemma double_stage s x k :
  at_least k x → (k ≤ 1000)%Z → x <= inject_Z (2 ^ 53) →
  finite (round binary64 s x) = true ∧ within ulp x (val (round binary64 s x)) ∧ at_least (k + 1) (val (round binary64 s x)).
Proof.
  intros Hx Hk Hup. assert (H0 : 0 <= x) by (destruct Hx; [|pose proof (pow2_pos (- k))]; lra).
  destruct (round_between binary64 binary64_ok s x 0 (inject_Z (2 ^ 53))) as [_ [Hy _]]; [by apply (num_Z 0)|by apply num_Z|lra|].
  destruct (round_small s x) as [F W]; [|done|].
  - destruct Hx as [?|Hx]; [by left|right]. apply Qle_trans with (pow2 (- k)); [apply pow2_le; lia|done].
  - split; [done|]. split; [done|]. by apply (at_least_within ulp k x).
Qed.

Lemma at_least_scaled k x : at_least k x → at_least (k + 14) (x / 10000).
Proof.
  intros [E|Hx]; [left; rewrite E; reflexivity|right]. apply Qle_shift_div_l; [done|]. replace (- k)%Z with (- (k + 14) + 14)%Z in Hx by lia.
  rewrite pow2_add in Hx. pose proof (pow2_pos (- (k + 14))). pose proof (mult_le_l (pow2 (- (k + 14))) 10000 (pow2 14) ltac:(lra) ltac:(by vm_compute)). lra.
Qed.

