(* ===== verification/StdMap.v ===== *)
(** [std::map<Price, Qty, Compare>] of the C++ standard library, as the price-level stores
    use it: the elements in iteration order, with [find], the insertion behind
    [operator[]], and [erase].  Keys are compared with the comparator only, as the standard
    prescribes.  [ladder c m] is the abstract content [m] listed in the order of [c]; a
    sorted list is the ladder of the finite map it represents. *)
From S2P Require Export Types.

(** The two comparators the books are instantiated with: [std::greater<Price>] for bids,
    [std::less<Price>] for asks. *)

Inductive Compare : Set := Greater | Less.

#[global] Instance Compare_eq_dec : EqDecision Compare.
Proof. solve_decision. Defined.

Definition cmp (c : Compare) (a b : Z) : bool :=
  match c with Greater => b <? a | Less => a <? b end.

(** * The container *)

Fixpoint find (c : Compare) (m : list (Z * Z)) (p : Z) : option Z :=
  match m with
  | [] => None
  | (k, v) :: r => if cmp c k p then find c r p else if cmp c p k then None else Some v
  end.

(** [m[p] = v]: overwrite the element of key [p], or insert one at its ordered place. *)

Fixpoint put (c : Compare) (m : list (Z * Z)) (p v : Z) : list (Z * Z) :=
  match m with
  | [] => [(p, v)]
  | (k, w) :: r =>
      if cmp c k p then (k, w) :: put c r p v
      else if cmp c p k then (p, v) :: (k, w) :: r else (k, v) :: r
  end.

Fixpoint erase (c : Compare) (m : list (Z * Z)) (p : Z) : list (Z * Z) :=
  match m with
  | [] => []
  | (k, w) :: r =>
      if cmp c k p then (k, w) :: erase c r p
      else if cmp c p k then (k, w) :: r else r
  end.

(** * The abstract content *)

Definition klt (c : Compare) (a b : Z * Z) : Prop := cmp c a.1 b.1 = true.

Definition kle (c : Compare) (a b : Z * Z) : Prop := cmp c b.1 a.1 = false.

#[global] Instance kle_dec c : RelDecision (kle c).
Proof. intros ??. unfold kle. apply _. Defined.

Definition to_map (l : list (Z * Z)) : gmap Z Z := list_to_map l.

Arguments to_map : simpl never.

Definition ladder (c : Compare) (m : gmap Z Z) : list (Z * Z) :=
  merge_sort (kle c) (map_to_list m).

Abbreviation ksorted c l := (StronglySorted (klt c) l).

(** * The comparator is a strict total order *)

Lemma cmp_irrefl c a : cmp c a a = false.
Proof. destruct c; simpl; lia. Qed.

Lemma cmp_trans c a b d : cmp c a b = true → cmp c b d = true → cmp c a d = true.
Proof. destruct c; simpl; lia. Qed.

Lemma cmp_total c a b : cmp c a b = false → cmp c b a = false → a = b.
Proof. destruct c; simpl; lia. Qed.

Lemma cmp_asym c a b : cmp c a b = true → cmp c b a = false.
Proof. destruct c; simpl; lia. Qed.

Lemma cmp_ne c a b : cmp c a b = true → a ≠ b.
Proof. destruct c; simpl; lia. Qed.

Lemma cmp_ne_false c a b : a ≠ b → cmp c a b = false → cmp c b a = true.
Proof. destruct c; simpl; lia. Qed.

(** Decides a comparison in the goal, leaving the equal, before and after cases. *)
Ltac cmp_cases c a b :=
  let E := fresh "Hc" in let F := fresh "Hc" in
  destruct (cmp c a b) eqn:E;
  [ | destruct (cmp c b a) eqn:F; [ | pose proof (cmp_total c _ _ E F); subst ] ].

#[global] Instance klt_trans c : Transitive (klt c).
Proof. intros ???. unfold klt. apply cmp_trans. Qed.

#[global] Instance klt_antisymm c : AntiSymm (=) (klt c).
Proof. intros ?? H1 H2. unfold klt in *. apply cmp_asym in H1. congruence. Qed.

#[global] Instance kle_total c : Total (kle c).
Proof.
  intros a b. unfold kle. destruct (cmp c b.1 a.1) eqn:E; [right|by left].
  by apply cmp_asym.
Qed.

#[global] Instance kle_trans c : Transitive (kle c).
Proof. intros ???. unfold kle. destruct c; simpl; lia. Qed.

(** * Sorted lists as finite maps *)

Lemma ksorted_cons_inv c k v l :
  ksorted c ((k, v) :: l) → ksorted c l ∧ ∀ k' v', (k', v') ∈ l → cmp c k k' = true.
Proof.
  intros [? H]%StronglySorted_inv. split; [done|].
  intros k' v' Hin. rewrite Forall_forall in H. by apply (H (k', v')).
Qed.

Lemma ksorted_not_in c k v l : ksorted c ((k, v) :: l) → k ∉ l.*1.
Proof.
  intros [_ H]%ksorted_cons_inv [[k' v'] [-> Hin]]%list_elem_of_fmap.
  pose proof (H _ _ Hin) as Hc. simpl in Hc. by rewrite cmp_irrefl in Hc.
Qed.

Lemma ksorted_nodup c l : ksorted c l → NoDup l.*1.
Proof.
  induction l as [|[k v] l IH]; intros H; simpl; constructor.
  - by eapply ksorted_not_in.
  - apply IH. by apply StronglySorted_inv in H as [??].
Qed.

Lemma to_map_cons k v l : to_map ((k, v) :: l) = <[k := v]> (to_map l).
Proof. done. Qed.

Lemma to_map_elem c l p v : ksorted c l → to_map l !! p = Some v ↔ (p, v) ∈ l.
Proof. intros H%ksorted_nodup. symmetry. by apply elem_of_list_to_map. Qed.

(** A key before every key of a sorted list is not in it. *)
Lemma to_map_before c p l :
  (∀ k v, (k, v) ∈ l → cmp c p k = true) → to_map l !! p = None.
Proof.
  intros H. apply not_elem_of_list_to_map. intros [[k v] [-> Hin]]%list_elem_of_fmap.
  specialize (H _ _ Hin). simpl in H. by rewrite cmp_irrefl in H.
Qed.

Lemma find_to_map c l p : ksorted c l → find c l p = to_map l !! p.
Proof.
  induction l as [|[k v] l IH]; intros Hs; [done|].
  apply ksorted_cons_inv in Hs as [Hs Hk]. rewrite to_map_cons. simpl.
  cmp_cases c k p.
  - rewrite lookup_insert_ne by (by eapply cmp_ne). by apply IH.
  - rewrite lookup_insert_ne by (by apply not_eq_sym; eapply cmp_ne).
    symmetry. eapply (to_map_before c). intros k' v' Hin.
    eapply cmp_trans; [done|by eapply Hk].
  - by rewrite lookup_insert_eq.
Qed.

Lemma put_to_map c l p v : ksorted c l → to_map (put c l p v) = <[p := v]> (to_map l).
Proof.
  induction l as [|[k w] l IH]; intros Hs; [done|].
  apply ksorted_cons_inv in Hs as [Hs Hk]. simpl. cmp_cases c k p.
  - rewrite !to_map_cons, IH by done. apply insert_insert_ne.
    by eapply cmp_ne.
  - done.
  - rewrite !to_map_cons. by rewrite insert_insert_eq.
Qed.

Lemma put_elem c l p v k w :
  (k, w) ∈ put c l p v → (k = p ∧ w = v) ∨ (k, w) ∈ l.
Proof.
  induction l as [|[k' w'] l IH]; simpl.
  - intros [= -> ->]%list_elem_of_singleton. by left.
  - cmp_cases c k' p; rewrite !elem_of_cons; intuition congruence.
Qed.

Lemma put_sorted c l p v : ksorted c l → ksorted c (put c l p v).
Proof.
  induction l as [|[k w] l IH]; intros Hs; simpl; [by repeat constructor|].
  pose proof Hs as [Hs' Hk]%ksorted_cons_inv.
  cmp_cases c k p.
  - constructor; [by apply IH|]. apply Forall_forall. intros [k' w'] Hin.
    apply put_elem in Hin as [[-> ->]|Hin]; unfold klt; simpl; [done|].
    by eapply Hk.
  - constructor; [done|]. apply Forall_forall. intros [k' w'] Hin.
    apply elem_of_cons in Hin as [[= -> ->]|Hin]; unfold klt; simpl; [done|].
    eapply cmp_trans; [done|by eapply Hk].
  - apply StronglySorted_inv in Hs as [Hs Hf]. constructor; [done|].
    eapply Forall_impl; [exact Hf|done].
Qed.

Lemma erase_to_map c l p : ksorted c l → to_map (erase c l p) = delete p (to_map l).
Proof.
  induction l as [|[k w] l IH]; intros Hs; simpl; [done|].
  pose proof Hs as [Hs' Hk]%ksorted_cons_inv. cmp_cases c k p.
  - rewrite !to_map_cons, IH by done. symmetry. apply delete_insert_ne.
    apply not_eq_sym. by eapply cmp_ne.
  - rewrite delete_id; [done|]. eapply (to_map_before c). intros k' v' Hin.
    apply elem_of_cons in Hin as [[= -> ->]|Hin]; [done|].
    eapply cmp_trans; [done|by eapply Hk].
  - rewrite to_map_cons, delete_insert_eq, delete_id; [done|].
    by eapply to_map_before.
Qed.

Lemma erase_elem c l p k w : (k, w) ∈ erase c l p → (k, w) ∈ l.
Proof.
  induction l as [|[k' w'] l IH]; simpl; [done|]. cmp_cases c k' p; rewrite ?elem_of_cons; tauto.
Qed.

Lemma erase_sorted c l p : ksorted c l → ksorted c (erase c l p).
Proof.
  induction l as [|[k w] l IH]; intros Hs; simpl; [done|].
  pose proof Hs as [Hs' Hk]%ksorted_cons_inv. cmp_cases c k p; [|done|done].
  constructor; [by apply IH|]. apply Forall_forall. intros [k' w'] Hin.
  apply erase_elem in Hin. unfold klt; simpl. by eapply Hk.
Qed.

#[export] Hint Resolve put_sorted erase_sorted : hft.

(** * The ladder of a map *)

Lemma kle_klt_sorted c l : NoDup l.*1 → StronglySorted (kle c) l → ksorted c l.
Proof.
  induction l as [|[k v] l IH]; intros Hnd Hs; [constructor|].
  apply NoDup_cons in Hnd as [Hk Hnd]. apply StronglySorted_inv in Hs as [Hs Hf].
  constructor; [by apply IH|]. rewrite Forall_forall in *. intros [k' v'] Hin.
  specialize (Hf _ Hin). unfold kle, klt in *. simpl in *.
  apply cmp_ne_false; [|done]. intros ->. apply Hk.
  apply list_elem_of_fmap. by exists (k, v').
Qed.

Lemma ladder_perm c m : ladder c m ≡ₚ map_to_list m.
Proof. apply merge_sort_Permutation. Qed.

Lemma ladder_sorted c m : ksorted c (ladder c m).
Proof.
  apply kle_klt_sorted.
  - rewrite ladder_perm. apply NoDup_fst_map_to_list.
  - apply Sorted_StronglySorted; [apply _|]. apply (Sorted_merge_sort _).
Qed.

Lemma ladder_elem c m p q : (p, q) ∈ ladder c m ↔ m !! p = Some q.
Proof. rewrite ladder_perm. apply elem_of_map_to_list. Qed.

Lemma ladder_length c m : length (ladder c m) = size m.
Proof. rewrite ladder_perm. apply length_map_to_list. Qed.

(** A sorted list is determined by the map it represents. *)
Lemma sorted_is_ladder c l : ksorted c l → l = ladder c (to_map l).
Proof.
  intros Hs. eapply (StronglySorted_unique (klt c)); [done|apply ladder_sorted|].
  rewrite ladder_perm. unfold to_map. rewrite map_to_list_to_map; [done|].
  by eapply ksorted_nodup.
Qed.

Lemma sorted_ladder_of c l m :
  ksorted c l → (∀ p q, (p, q) ∈ l ↔ m !! p = Some q) → l = ladder c m.
Proof.
  intros Hs Hl. rewrite (sorted_is_ladder c l Hs). f_equal. apply map_eq. intros p.
  apply option_eq. intros q. by rewrite (to_map_elem c), Hl.
Qed.

(** The least element of a sorted list is its head, and the tail holds the others. *)
Lemma sorted_min_head c l p q :
  ksorted c l → (p, q) ∈ l → (∀ p' q', (p', q') ∈ l → cmp c p' p = false) →
  ∃ l', l = (p, q) :: l' ∧ ksorted c l' ∧
        ∀ p' q', (p', q') ∈ l' ↔ (p', q') ∈ l ∧ p' ≠ p.
Proof.
  intros Hs Hin Hmin. destruct l as [|[k v] l]; [by apply elem_of_nil in Hin|].
  pose proof (ksorted_cons_inv c k v l Hs) as [Hs' Hk].
  assert ((k, v) = (p, q)) as [= -> ->].
  { apply elem_of_cons in Hin as [|Hin]; [done|].
    pose proof (Hmin k v (list_elem_of_here _ _)) as Hf. by rewrite (Hk _ _ Hin) in Hf. }
  exists l. split_and!; [done|done|]. intros p' q'. rewrite elem_of_cons. split.
  - intros H. split; [by right|]. apply not_eq_sym. eapply cmp_ne. by eapply Hk.
  - by intros [[[= -> ->]|H] ?].
Qed.

Lemma ladder_head c m p q :
  m !! p = Some q → (∀ p' q', m !! p' = Some q' → cmp c p' p = false) →
  head (ladder c m) = Some (p, q).
Proof.
  intros Hp Hmin. destruct (sorted_min_head c (ladder c m) p q) as (l & -> & _); [|..|done].
  - apply ladder_sorted.
  - by apply ladder_elem.
  - intros p' q' H%ladder_elem. by eapply Hmin.
Qed.

Lemma ladder_nil c m : (∀ p, m !! p = None) → ladder c m = [].
Proof.
  intros H. destruct (ladder c m) as [|[p q] l] eqn:E; [done|].
  assert ((p, q) ∈ ladder c m) as Hin by (rewrite E; left).
  apply ladder_elem in Hin. by rewrite H in Hin.
Qed.
