(* ===== verification/LevelStore.v ===== *)
(** The interface between the order book and its price-level stores.  [BasicOrderBook] is a
    template over a class template [LevelStore<Compare>]; here the parameter is a family
    [F : Compare → Type] with the operations of the class [LevelStore].  An operation
    returns [None] when the code would access a vector outside its bounds.

    [LevelStoreSpec] is the contract: a store represents a finite map from prices to
    quantities, [inc] and [dec] act on it as [lv_inc] and [lv_dec], and every query is
    answered from it.  The clients are proved against this class; [MapLevels], [FlatLevels]
    and [WindowedLevels] are instances. *)
From S2P Require Export StdMap.

Class LevelStore (F : Compare → Type) := {
  ls_empty : ∀ c, F c;
  ls_inc : ∀ {c}, F c → Price → Qty → option (F c);
  ls_dec : ∀ {c}, F c → Price → Qty → option (F c);
  ls_best : ∀ {c}, F c → option (option (Price * Qty));
  ls_at : ∀ {c}, F c → Price → option Qty;
  ls_size : ∀ {c}, F c → Z;
  ls_top : ∀ {c}, F c → nat → option (list (Price * Qty));
}.

(** * The abstract levels of one side *)

Definition lv_at (m : gmap Z Z) (p : Price) : Qty := default 0 (m !! p).

Definition lv_inc (m : gmap Z Z) (p : Price) (q : Qty) : gmap Z Z :=
  <[p := lv_at m p + q]> m.

(** Quantities are 32-bit: a decrement below zero would wrap around; a level whose quantity
    becomes zero disappears. *)

Definition lv_dec (m : gmap Z Z) (p : Price) (q : Qty) : gmap Z Z :=
  match m !! p with
  | None => m
  | Some v => if u32 (v - q) =? 0 then delete p m else <[p := u32 (v - q)]> m
  end.

(** Prices of the ITCH feed are unsigned 32-bit integers. *)

Definition price_ok (p : Price) : Prop := fits 32 p.

Definition levels_ok (m : gmap Z Z) : Prop :=
  map_Forall (λ p q, price_ok p ∧ 0 < q < 2 ^ 32) m.

(** * The contract *)

Class LevelStoreSpec (F : Compare → Type) `{LevelStore F} := {
  ls_rep : ∀ {c}, F c → gmap Z Z → Prop;
  ls_rep_ok : ∀ c (s : F c) m, ls_rep s m → levels_ok m;
  ls_empty_rep : ∀ c, ls_rep (ls_empty c) ∅;
  ls_inc_rep : ∀ c (s : F c) m p q,
    ls_rep s m → price_ok p → 0 < q → lv_at m p + q < 2 ^ 32 →
    ∃ s', ls_inc s p q = Some s' ∧ ls_rep s' (lv_inc m p q);
  ls_dec_rep : ∀ c (s : F c) m p q,
    ls_rep s m → ∃ s', ls_dec s p q = Some s' ∧ ls_rep s' (lv_dec m p q);
  ls_best_rep : ∀ c (s : F c) m, ls_rep s m → ls_best s = Some (head (ladder c m));
  ls_at_rep : ∀ c (s : F c) m p, ls_rep s m → ls_at s p = Some (lv_at m p);
  ls_size_rep : ∀ c (s : F c) m, ls_rep s m → ls_size s = Z.of_nat (size m);
  ls_top_rep : ∀ c (s : F c) m n, ls_rep s m → ls_top s n = Some (take n (ladder c m));
}.

(** Stores whose updates never leave the vector bounds, whatever their argument: [ls_inv] is
    the invariant that the updates rely on and preserve. *)

Class LevelStoreSafe (F : Compare → Type) `{LevelStore F} := {
  ls_inv : ∀ {c}, F c → Prop;
  ls_empty_inv : ∀ c, ls_inv (ls_empty c);
  ls_inc_inv : ∀ c (s : F c) p q,
    ls_inv s → fits 32 q → ∃ s', ls_inc s p q = Some s' ∧ ls_inv s';
  ls_dec_inv : ∀ c (s : F c) p q, ls_inv s → ∃ s', ls_dec s p q = Some s' ∧ ls_inv s';
}.

(** * Lemmas on the abstract levels *)

Lemma lv_at_empty p : lv_at ∅ p = 0.
Proof. unfold lv_at. by rewrite lookup_empty. Qed.

Lemma lv_at_inc m p q p' :
  lv_at (lv_inc m p q) p' = if decide (p = p') then lv_at m p + q else lv_at m p'.
Proof.
  unfold lv_inc, lv_at at 1. case_decide; subst.
  - by rewrite lookup_insert_eq.
  - by rewrite lookup_insert_ne.
Qed.

Lemma levels_ok_at m p : levels_ok m → 0 ≤ lv_at m p < 2 ^ 32.
Proof.
  intros H. unfold lv_at. destruct (m !! p) eqn:E; simpl; [|lia].
  destruct (H _ _ E). lia.
Qed.

(** A decrement within the level: exact subtraction. *)
Lemma lv_at_dec m p q p' :
  levels_ok m → 0 ≤ q ≤ lv_at m p →
  lv_at (lv_dec m p q) p' = if decide (p = p') then lv_at m p - q else lv_at m p'.
Proof.
  intros Hok Hq. unfold lv_dec. unfold lv_at in Hq.
  destruct (m !! p) as [v|] eqn:E; simpl in Hq.
  - destruct (Hok _ _ E) as [_ Hv]. rewrite u32_small by lia.
    split_tests; subst; unfold lv_at; simplify_map_eq; simpl; lia.
  - case_decide; [|done]. subst. unfold lv_at. rewrite E. simpl. lia.
Qed.

Lemma lv_inc_ok m p q :
  levels_ok m → price_ok p → 0 < q → lv_at m p + q < 2 ^ 32 → levels_ok (lv_inc m p q).
Proof.
  intros Hok Hp Hq Hlt. pose proof (levels_ok_at m p Hok).
  apply map_Forall_insert_2; [split; [done|lia]|done].
Qed.

Lemma lv_dec_ok m p q : levels_ok m → levels_ok (lv_dec m p q).
Proof.
  intros Hok. unfold lv_dec. destruct (m !! p) as [v|] eqn:E; [|done].
  destruct (Z.eqb_spec (u32 (v - q)) 0).
  - by apply map_Forall_delete.
  - apply map_Forall_insert_2; [|done]. split; [by destruct (Hok _ _ E)|].
    pose proof (u32_range (v - q)). lia.
Qed.

#[export] Hint Resolve lv_inc_ok lv_dec_ok : hft.

(** Zero-free maps are determined by their quantities. *)
Lemma levels_ext m1 m2 :
  levels_ok m1 → levels_ok m2 → (∀ p, lv_at m1 p = lv_at m2 p) → m1 = m2.
Proof.
  intros H1 H2 He. apply map_eq. intros p. specialize (He p). unfold lv_at in He.
  destruct (m1 !! p) eqn:E1, (m2 !! p) eqn:E2; simpl in He; subst; try done.
  - destruct (H1 _ _ E1). lia.
  - destruct (H2 _ _ E2). lia.
Qed.

(** There are at most [2^32] ITCH prices. *)
Lemma levels_ok_size m : levels_ok m → Z.of_nat (size m) ≤ 2 ^ 32.
Proof.
  intros H. rewrite <- length_map_to_list, <- (length_fmap fst).
  change (zlen (map_to_list m).*1 ≤ Z.max 0 (2 ^ 32)). apply nodup_bounded.
  - apply NoDup_fst_map_to_list.
  - intros p [[p' q] [-> Hin%elem_of_map_to_list]]%list_elem_of_fmap.
    by destruct (H _ _ Hin).
Qed.
