(* ===== verification/MapLevels.v ===== *)
(** [MapLevels<Compare>] (include/core/flat_levels.hpp): price levels in a [std::map].
    The reference store: its operations never fail and satisfy the contract. *)
From S2P Require Export LevelStore.

Record MapLevels (c : Compare) := mkMap { m_ : list (Price * Qty) }.

Arguments mkMap {c} _.
Arguments m_ {c} _.

Section MapLevels.
Context {c : Compare}.
Implicit Types s : MapLevels c.

Definition inc s (p : Price) (q : Qty) : MapLevels c :=
  mkMap (put c (m_ s) p (u32 (default 0 (find c (m_ s) p) + q))).

Definition dec s (p : Price) (q : Qty) : MapLevels c :=
  match find c (m_ s) p with
  | None => s
  | Some v =>
      if u32 (v - q) =? 0 then mkMap (erase c (m_ s) p)
      else mkMap (put c (m_ s) p (u32 (v - q)))
  end.

Definition best s : option (Price * Qty) := head (m_ s).

Definition at_ s (p : Price) : Qty := default 0 (find c (m_ s) p).

Definition size_ s : Z := zlen (m_ s).

(** The loop over the map that stops once [n] levels are collected in [out]. *)

Fixpoint top_loop (kvs : list (Price * Qty)) (n : nat) (out : list (Price * Qty)) :
    list (Price * Qty) :=
  match kvs with
  | [] => out
  | kv :: r => if decide (n ≤ length out)%nat then out else top_loop r n (out ++ [kv])
  end.

Definition top s (n : nat) : list (Price * Qty) := top_loop (m_ s) n [].

(** A well-formed store and the map it represents. *)

Definition rep s (m : gmap Z Z) : Prop :=
  ksorted c (m_ s) ∧ to_map (m_ s) = m ∧ levels_ok m.

Lemma top_loop_take kvs n out :
  (length out ≤ n)%nat → top_loop kvs n out = out ++ take (n - length out) kvs.
Proof.
  revert out. induction kvs as [|kv r IH]; intros out Hn; simpl.
  - by rewrite take_nil, app_nil_r.
  - case_decide.
    + replace (n - length out)%nat with 0%nat by lia. by rewrite app_nil_r.
    + rewrite IH; rewrite ?length_app; simpl; [|lia].
      replace (n - length out)%nat with (S (n - (length out + 1)))%nat by lia.
      by rewrite <- app_assoc.
Qed.

Lemma top_take s n : top s n = take n (m_ s).
Proof. unfold top. rewrite top_loop_take by (simpl; lia). simpl. by rewrite Nat.sub_0_r. Qed.

Lemma rep_ladder s m : rep s m → m_ s = ladder c m.
Proof. intros (Hs & <- & _). by apply sorted_is_ladder. Qed.

Lemma rep_find s m p : rep s m → find c (m_ s) p = m !! p.
Proof. intros (Hs & <- & _). by apply find_to_map. Qed.

Lemma inc_to_map s m p q :
  ksorted c (m_ s) → to_map (m_ s) = m →
  ksorted c (m_ (inc s p q)) ∧ to_map (m_ (inc s p q)) = <[p := u32 (lv_at m p + q)]> m.
Proof.
  intros Hs <-. unfold inc, lv_at. simpl. rewrite find_to_map by done.
  split; [auto with hft|by apply put_to_map].
Qed.

Lemma dec_to_map s m p q :
  ksorted c (m_ s) → to_map (m_ s) = m →
  ksorted c (m_ (dec s p q)) ∧ to_map (m_ (dec s p q)) = lv_dec m p q.
Proof.
  intros Hs <-. unfold dec, lv_dec. rewrite find_to_map by done.
  destruct (to_map (m_ s) !! p) as [v|]; [|done].
  split_tests; simpl; (split; [auto with hft|]).
  - by apply erase_to_map.
  - by apply put_to_map.
Qed.

Lemma inc_rep s m p q :
  rep s m → price_ok p → 0 < q → lv_at m p + q < 2 ^ 32 → rep (inc s p q) (lv_inc m p q).
Proof.
  intros (Hs & Hm & Hok) Hp Hq Hlt. pose proof (levels_ok_at m p Hok).
  destruct (inc_to_map s m p q Hs Hm) as [? E]. rewrite u32_small in E by lia.
  split_and!; auto with hft.
Qed.

Lemma dec_rep s m p q : rep s m → rep (dec s p q) (lv_dec m p q).
Proof.
  intros (Hs & Hm & Hok). destruct (dec_to_map s m p q Hs Hm). split_and!; auto with hft.
Qed.

End MapLevels.

#[global] Instance MapLevels_store : LevelStore MapLevels := {
  ls_empty c := mkMap [];
  ls_inc c s p q := Some (inc s p q);
  ls_dec c s p q := Some (dec s p q);
  ls_best c s := Some (best s);
  ls_at c s p := Some (at_ s p);
  ls_size c s := size_ s;
  ls_top c s n := Some (top s n);
}.

#[global, refine] Instance MapLevels_spec : LevelStoreSpec MapLevels := {|
  ls_rep c s m := rep s m
|}.
Proof.
  - by intros c s m (_ & _ & ?).
  - intros c. split_and!; [constructor|done|]. intros ??. by rewrite lookup_empty.
  - intros c s m p q ????. eexists. split; [done|]. by apply inc_rep.
  - intros c s m p q ?. eexists. split; [done|]. by apply dec_rep.
  - intros c s m H. simpl. unfold best. by rewrite (rep_ladder s m H).
  - intros c s m p H. simpl. unfold at_, lv_at. by rewrite (rep_find s m p H).
  - intros c s m H. simpl. unfold size_, zlen.
    by rewrite (rep_ladder s m H), ladder_length.
  - intros c s m n H. simpl. by rewrite top_take, (rep_ladder s m H).
Defined.

#[global, refine] Instance MapLevels_safe : LevelStoreSafe MapLevels := {|
  ls_inv c s := ksorted c (m_ s)
|}.
Proof.
  - intros c. constructor.
  - intros c s p q Hs _. eexists. split; [done|]. by eapply inc_to_map.
  - intros c s p q Hs. eexists. split; [done|]. by eapply dec_to_map.
Defined.
