(* ===== verification/FlatLevels.v ===== *)
(** [FlatLevels<Compare>] (include/core/flat_levels.hpp): price levels in a sorted
    [std::vector], searched with [std::lower_bound].  The main result is that on a sorted
    vector every operation is in bounds and computes exactly what [MapLevels] computes, for
    every price and quantity (wrap-around included); the contract follows. *)
From S2P Require Export LevelStore.
From S2P Require Import MapLevels.

Record FlatLevels (c : Compare) := mkFlat { v_ : list (Price * Qty) }.

Arguments mkFlat {c} _.
Arguments v_ {c} _.

(** [std::lower_bound(v.begin() + first, v.begin() + first + count, p, cmp)], the halving
    loop of the standard library.  [count] decreases at every round, so [fuel = count] is
    enough; running out of fuel is reported as [None]. *)

Fixpoint lower_bound (c : Compare) (fuel : nat) (v : list (Price * Qty)) (first count p : Z) :
    option Z :=
  if count <=? 0 then Some first
  else
    match fuel with
    | O => None
    | S fuel =>
        let step := count / 2 in
        a ← v.[first + step];
        if cmp c a.1 p then lower_bound c fuel v (first + step + 1) (count - (step + 1)) p
        else lower_bound c fuel v first step p
    end.

Section FlatLevels.
Context {c : Compare}.
Implicit Types s : FlatLevels c.

(** The position of the first element that is not before [p]. *)

Definition find_pos s (p : Price) : option Z :=
  lower_bound c (length (v_ s)) (v_ s) 0 (zlen (v_ s)) p.

(** [it != v_.end() && it->first == p], with the element when it holds. *)

Definition hit s (it p : Z) : option (option (Price * Qty)) :=
  if it =? zlen (v_ s) then Some None
  else a ← (v_ s).[it]; Some (if a.1 =? p then Some a else None).

Definition inc s (p : Price) (q : Qty) : option (FlatLevels c) :=
  it ← find_pos s p;
  h ← hit s it p;
  match h with
  | Some a => v ← (v_ s).[it <- (a.1, u32 (a.2 + q))]; Some (mkFlat v)
  | None => Some (mkFlat (take (Z.to_nat it) (v_ s) ++ (p, q) :: drop (Z.to_nat it) (v_ s)))
  end.

Definition dec s (p : Price) (q : Qty) : option (FlatLevels c) :=
  it ← find_pos s p;
  h ← hit s it p;
  match h with
  | Some a =>
      v ← (v_ s).[it <- (a.1, u32 (a.2 - q))];
      if u32 (a.2 - q) =? 0 then Some (mkFlat (delete (Z.to_nat it) v)) else Some (mkFlat v)
  | None => Some s
  end.

Definition best s : option (Price * Qty) := head (v_ s).

Definition at_ s (p : Price) : option Qty :=
  it ← find_pos s p;
  h ← hit s it p;
  Some (match h with Some a => a.2 | None => 0 end).

Definition size_ s : Z := zlen (v_ s).

(** [for (i = 0; i < v_.size() && i < n; ++i) out.push_back(v_[i])]: the loop from [i] on,
    with [k] elements of the vector left. *)

Fixpoint top_loop (v : list (Price * Qty)) (i n k : nat) : list (Price * Qty) :=
  match k with
  | O => []
  | S k =>
      if decide (i < n)%nat then
        match v !! i with Some a => a :: top_loop v (S i) n k | None => [] end
      else []
  end.

Definition top s (n : nat) : list (Price * Qty) := top_loop (v_ s) 0 n (length (v_ s)).

End FlatLevels.

(** * The search *)

(** The linear reference: how many elements stand before [p]. *)

Fixpoint before (c : Compare) (l : list (Price * Qty)) (p : Z) : nat :=
  match l with
  | [] => O
  | a :: r => if cmp c a.1 p then S (before c r p) else O
  end.

Lemma before_le c l p : (before c l p ≤ length l)%nat.
Proof. induction l as [|a l IH]; simpl; [lia|]. destruct (cmp c a.1 p); lia. Qed.

Lemma before_lt c l p i a :
  l !! i = Some a → (i < before c l p)%nat → cmp c a.1 p = true.
Proof.
  revert i. induction l as [|b l IH]; intros i Hi Hlt; simpl in *; [lia|].
  destruct (cmp c b.1 p) eqn:E; [|lia]. destruct i as [|i]; simplify_eq/=; [done|].
  eapply IH; [done|lia].
Qed.

Lemma before_ge c l p i a :
  ksorted c l → l !! i = Some a → (before c l p ≤ i)%nat → cmp c a.1 p = false.
Proof.
  revert i. induction l as [|b l IH]; intros i Hs Hi Hge; simpl in *; [done|].
  apply StronglySorted_inv in Hs as [Hs Hf].
  destruct (cmp c b.1 p) eqn:E.
  - destruct i as [|i]; [lia|]. simplify_eq/=. eapply IH; [done..|lia].
  - destruct i as [|i]; simplify_eq/=; [done|].
    rewrite Forall_lookup in Hf. specialize (Hf _ _ Hi). unfold klt in Hf.
    destruct c; simpl in *; lia.
Qed.

(** The halving loop finds the boundary whenever it lies in the searched range. *)
Lemma lower_bound_spec c fuel l first count p :
  ksorted c l → 0 ≤ first → 0 ≤ count → first + count ≤ zlen l → count ≤ Z.of_nat fuel →
  first ≤ Z.of_nat (before c l p) ≤ first + count →
  lower_bound c fuel l first count p = Some (Z.of_nat (before c l p)).
Proof.
  intros Hs. revert first count. induction fuel as [|fuel IH]; intros first count Hf Hc Hl Hu Hb.
  - replace count with 0 in * by lia. simpl. f_equal. lia.
  - cbn [lower_bound]. destruct (Z.leb_spec count 0); [f_equal; lia|].
    pose proof (Z.div_mod count 2) as Hdm. pose proof (Z.mod_pos_bound count 2) as Hmb.
    set (step := count / 2) in *.
    destruct (vget_is_Some l (first + step)) as [a Ha]; [lia|]. rewrite Ha. simpl.
    unfold vget in Ha. rewrite decide_True in Ha by lia.
    destruct (cmp c a.1 p) eqn:Ec.
    + apply IH; try lia. split; [|lia].
      destruct (decide (first + step < Z.of_nat (before c l p))) as [|Hn]; [lia|].
      rewrite (before_ge c l p _ a Hs Ha) in Ec by lia. done.
    + apply IH; try lia. split; [lia|].
      destruct (decide (first + step < Z.of_nat (before c l p))) as [Hn|]; [|lia].
      rewrite (before_lt c l p _ a Ha) in Ec by lia. done.
Qed.

Lemma find_pos_spec {c} (s : FlatLevels c) p :
  ksorted c (v_ s) → find_pos s p = Some (Z.of_nat (before c (v_ s) p)).
Proof.
  intros Hs. unfold find_pos. pose proof (before_le c (v_ s) p).
  apply lower_bound_spec; unfold zlen; try lia. done.
Qed.

(** * The container operations, by position *)

Lemma find_before c l p :
  find c l p = match l !! before c l p with
               | Some a => if a.1 =? p then Some a.2 else None
               | None => None
               end.
Proof.
  induction l as [|[k v] l IH]; [done|]. simpl. destruct (cmp c k p) eqn:E; [done|].
  simpl. destruct (cmp c p k) eqn:E'; split_tests; subst; try done.
  - by rewrite cmp_irrefl in E'.
  - by rewrite (cmp_total c k p) in *.
Qed.

Lemma put_before c l p v :
  put c l p v = match l !! before c l p with
                | Some a =>
                    if a.1 =? p then <[before c l p := (a.1, v)]> l
                    else take (before c l p) l ++ (p, v) :: drop (before c l p) l
                | None => take (before c l p) l ++ (p, v) :: drop (before c l p) l
                end.
Proof.
  induction l as [|[k w] l IH]; [done|]. simpl. destruct (cmp c k p) eqn:E; simpl.
  - rewrite IH. destruct (l !! before c l p) as [a|]; simpl; [|done]. by split_tests.
  - destruct (cmp c p k) eqn:E'; split_tests; subst; simpl; try done.
    + by rewrite cmp_irrefl in E'.
    + by rewrite (cmp_total c k p) in *.
Qed.

Lemma erase_before c l p :
  erase c l p = match l !! before c l p with
                | Some a => if a.1 =? p then delete (before c l p) l else l
                | None => l
                end.
Proof.
  induction l as [|[k w] l IH]; [done|]. simpl. destruct (cmp c k p) eqn:E; simpl.
  - rewrite IH. destruct (l !! before c l p) as [a|]; simpl; [|done]. by split_tests.
  - destruct (cmp c p k) eqn:E'; split_tests; subst; simpl; try done.
    + by rewrite cmp_irrefl in E'.
    + by rewrite (cmp_total c k p) in *.
Qed.

Lemma hit_spec {c} (s : FlatLevels c) p :
  hit s (Z.of_nat (before c (v_ s) p)) p =
  Some (match v_ s !! before c (v_ s) p with
        | Some a => if a.1 =? p then Some a else None
        | None => None
        end).
Proof.
  unfold hit, zlen. rewrite vget_nat. pose proof (before_le c (v_ s) p).
  destruct (Z.eqb_spec (Z.of_nat (before c (v_ s) p)) (Z.of_nat (length (v_ s)))) as [E|E].
  - by rewrite (proj2 (lookup_ge_None _ _)) by lia.
  - destruct (lookup_lt_is_Some_2 (v_ s) (before c (v_ s) p)) as [a ->]; [lia|done].
Qed.

(** * Every operation is the one of [MapLevels] *)

(** The same levels in the reference store. *)

Definition as_map {c} (s : FlatLevels c) : MapLevels c := mkMap (v_ s).

Lemma flat_inc_map {c} (s : FlatLevels c) p q :
  ksorted c (v_ s) → fits 32 q →
  inc s p q = Some (mkFlat (m_ (MapLevels.inc (as_map s) p q))).
Proof.
  intros Hs Hq. unfold inc, MapLevels.inc, as_map. rewrite find_pos_spec by done. simpl. rewrite hit_spec. simpl.
  rewrite find_before, put_before, Nat2Z.id.
  destruct (v_ s !! before c (v_ s) p) as [a|] eqn:E; simpl.
  - destruct (Z.eqb_spec a.1 p); simpl.
    + rewrite vset_Some by (unfold zlen; apply lookup_lt_Some in E; lia). simpl.
      by rewrite Nat2Z.id.
    + by rewrite u32_small by done.
  - by rewrite u32_small by done.
Qed.

Lemma flat_dec_map {c} (s : FlatLevels c) p q :
  ksorted c (v_ s) → dec s p q = Some (mkFlat (m_ (MapLevels.dec (as_map s) p q))).
Proof.
  intros Hs. unfold dec, MapLevels.dec, as_map. rewrite find_pos_spec by done. simpl.
  rewrite hit_spec. simpl. rewrite find_before.
  destruct (v_ s !! before c (v_ s) p) as [a|] eqn:E; simpl; [|by destruct s].
  destruct (Z.eqb_spec a.1 p) as [Ea|]; simpl; [|by destruct s].
  rewrite erase_before, put_before, E, Ea, Z.eqb_refl.
  rewrite vset_Some by (unfold zlen; apply lookup_lt_Some in E; lia). simpl.
  rewrite Nat2Z.id. destruct (u32 (a.2 - q) =? 0); simpl; [|done].
  do 2 f_equal. apply list_eq. intros j.
  destruct (decide (j < before c (v_ s) p)%nat).
  - rewrite !list_lookup_delete_lt by lia. by rewrite list_lookup_insert_ne by lia.
  - rewrite !list_lookup_delete_ge by lia. by rewrite list_lookup_insert_ne by lia.
Qed.

Lemma flat_at_map {c} (s : FlatLevels c) p :
  ksorted c (v_ s) → at_ s p = Some (MapLevels.at_ (as_map s) p).
Proof.
  intros Hs. unfold at_, MapLevels.at_, as_map. rewrite find_pos_spec by done. simpl.
  rewrite hit_spec. simpl. rewrite find_before.
  destruct (v_ s !! before c (v_ s) p) as [a|]; [|done]. by destruct (a.1 =? p).
Qed.

Lemma flat_top_loop v i n k :
  (i + k = length v)%nat → top_loop v i n k = take (n - i) (drop i v).
Proof.
  revert i. induction k as [|k IH]; intros i Hk; simpl.
  - by rewrite drop_ge, take_nil by lia.
  - case_decide.
    + destruct (lookup_lt_is_Some_2 v i) as [a Ha]; [lia|]. rewrite Ha.
      rewrite (drop_S v a i) by done. replace (n - i)%nat with (S (n - S i)) by lia.
      simpl. f_equal. apply IH. lia.
    + by replace (n - i)%nat with 0%nat by lia.
Qed.

Lemma flat_top_map {c} (s : FlatLevels c) n : top s n = MapLevels.top (as_map s) n.
Proof.
  unfold top. rewrite flat_top_loop by done. rewrite top_take. simpl.
  by rewrite Nat.sub_0_r.
Qed.

(** * The contract *)

#[global] Instance FlatLevels_store : LevelStore FlatLevels := {
  ls_empty c := mkFlat [];
  ls_inc c s p q := inc s p q;
  ls_dec c s p q := dec s p q;
  ls_best c s := Some (best s);
  ls_at c s p := at_ s p;
  ls_size c s := size_ s;
  ls_top c s n := Some (top s n);
}.

Definition flat_rep {c} (s : FlatLevels c) (m : gmap Z Z) : Prop := rep (as_map s) m.

#[global, refine] Instance FlatLevels_spec : LevelStoreSpec FlatLevels := {|
  ls_rep c s m := flat_rep s m
|}.
Proof.
  all: unfold flat_rep.
  - intros c s m. apply (ls_rep_ok (LevelStoreSpec:=MapLevels_spec)).
  - intros c. apply (ls_empty_rep (LevelStoreSpec:=MapLevels_spec)).
  - intros c s m p q Hr Hp Hq Hlt. simpl. pose proof (levels_ok_at m p) as Hat.
    rewrite flat_inc_map; [|by destruct Hr|].
    + eexists. split; [done|]. by apply inc_rep.
    + destruct Hr as (_ & _ & Hok). specialize (Hat Hok). unfold fits. lia.
  - intros c s m p q Hr. simpl. rewrite flat_dec_map by (by destruct Hr).
    eexists. split; [done|]. by apply dec_rep.
  - intros c s m. apply (ls_best_rep (LevelStoreSpec:=MapLevels_spec)).
  - intros c s m p Hr. simpl. rewrite flat_at_map by (by destruct Hr).
    by apply (ls_at_rep (LevelStoreSpec:=MapLevels_spec)).
  - intros c s m. apply (ls_size_rep (LevelStoreSpec:=MapLevels_spec)).
  - intros c s m n Hr. simpl. rewrite flat_top_map. by apply (ls_top_rep (LevelStoreSpec:=MapLevels_spec)).
Defined.

#[global, refine] Instance FlatLevels_safe : LevelStoreSafe FlatLevels := {|
  ls_inv c s := ksorted c (v_ s)
|}.
Proof.
  - intros c. constructor.
  - intros c s p q Hs Hq. simpl. rewrite flat_inc_map by done. eexists. split; [done|].
    by eapply (inc_to_map (as_map s)).
  - intros c s p q Hs. simpl. rewrite flat_dec_map by done. eexists. split; [done|].
    by eapply (dec_to_map (as_map s)).
Defined.
