(* ===== verification/WindowedFacts.v ===== *)
(** Correctness of [WindowedLevels]: the well-formedness invariant, its preservation by
    every update, and the contract of [LevelStore]. *)
From S2P Require Export WindowedLevels.

#[global] Opaque kWindow.

Lemma kWindow_eq : kWindow = 65536.
Proof. reflexivity. Qed.

(** * Counting the non-empty slots *)

Definition nz (l : list Qty) : Z := zlen (filter (λ v, v ≠ 0) l).

Lemma nz_nonneg l : 0 ≤ nz l.
Proof. apply zlen_nonneg. Qed.

Lemma nz_cons v l : nz (v :: l) = (if v =? 0 then 0 else 1) + nz l.
Proof.
  unfold nz, zlen. rewrite filter_cons.
  destruct (Z.eqb_spec v 0), (decide (v ≠ 0)); try done; simpl; lia.
Qed.

Lemma nz_le l : nz l ≤ zlen l.
Proof.
  induction l as [|v l IH]; [done|]. rewrite nz_cons, zlen_cons. destruct (v =? 0); lia.
Qed.

Lemma nz_insert l i v x :
  l !! i = Some v →
  nz (<[i := x]> l) = nz l - (if v =? 0 then 0 else 1) + (if x =? 0 then 0 else 1).
Proof.
  revert i. induction l as [|u l IH]; intros [|i] Hi; simplify_eq/=; rewrite !nz_cons.
  - lia.
  - rewrite (IH _ Hi). lia.
Qed.

Lemma nz_replicate n : nz (replicate n 0) = 0.
Proof. induction n as [|n IH]; [done|]. simpl. by rewrite nz_cons, IH. Qed.

Lemma nz_pos l i v : l !! i = Some v → v ≠ 0 → 0 < nz l.
Proof.
  revert i. induction l as [|u l IH]; intros [|i] Hi Hv; simplify_eq/=; rewrite nz_cons.
  - destruct (Z.eqb_spec v 0); [done|]. pose proof (nz_nonneg l). lia.
  - pose proof (IH _ Hi Hv). destruct (u =? 0); lia.
Qed.

Lemma nz_exists l : 0 < nz l → ∃ i v, l !! i = Some v ∧ v ≠ 0.
Proof.
  induction l as [|u l IH]; [done|]. rewrite nz_cons. destruct (Z.eqb_spec u 0).
  - intros (i & v & ? & ?)%IH. by exists (S i), v.
  - intros _. by exists 0%nat, u.
Qed.

(** * Comparing prices and indices *)

Lemma cmp_shift c b i j : cmp c (b + i) (b + j) = cmp c i j.
Proof. destruct c; simpl; lia. Qed.

Lemma cmp_shift_l c p b i : cmp c p (b + i) = cmp c (p - b) i.
Proof. destruct c; simpl; lia. Qed.

Lemma cmp_le_trans c i j k : cmp c i j = true → cmp c k j = false → cmp c k i = false.
Proof. destruct c; simpl; lia. Qed.

(** * The invariant *)

Section Windowed.
Context {c : Compare}.
Implicit Types w : WindowedLevels c.

(** The quantity the store holds at a price, if any. *)

Definition win_lookup w (p : Price) : option Qty :=
  if in_window w p then
    v ← (slots_ w).[p - base_ w]; if v =? 0 then None else Some v
  else to_map (overflow_ w) !! p.

(** [best_idx_] designates a non-empty slot that no other non-empty slot beats. *)

Definition best_ok w : Prop :=
  0 < count_ w →
  ∃ v, (slots_ w).[best_idx_ w] = Some v ∧ v ≠ 0 ∧
       ∀ i u, (slots_ w).[i] = Some u → u ≠ 0 → cmp c i (best_idx_ w) = false.

(** The window is in place: everything but [best_ok]. *)

Record wf_base w : Prop := {
  wf_has : has_base_ w = true;
  wf_len : zlen (slots_ w) = kWindow;
  wf_lo : 0 ≤ base_ w < 2 ^ 32;
  wf_count : count_ w = nz (slots_ w);
  wf_sorted : ksorted c (overflow_ w);
  wf_out : ∀ p v, (p, v) ∈ overflow_ w → in_window w p = false;
}.

Definition wf w : Prop := w = empty c ∨ (wf_base w ∧ best_ok w).

Definition win_rep w (m : gmap Z Z) : Prop :=
  wf w ∧ (∀ p, m !! p = win_lookup w p) ∧ levels_ok m.

Lemma in_window_iff w p :
  in_window w p = true ↔ has_base_ w = true ∧ base_ w ≤ p < base_ w + kWindow.
Proof. unfold in_window. destruct (has_base_ w); simpl; lia. Qed.

Lemma index_in_window w p :
  wf_base w → in_window w p = true → index w p = p - base_ w.
Proof.
  intros Hw [_ ?]%in_window_iff. unfold index. rewrite kWindow_eq in *.
  apply u64_small. lia.
Qed.

Lemma in_window_slot w p :
  wf_base w → in_window w p = true → ∃ v, (slots_ w).[p - base_ w] = Some v.
Proof.
  intros Hw [_ ?]%in_window_iff. apply vget_is_Some. rewrite (wf_len w Hw). lia.
Qed.

Lemma slot_in_window w i v :
  wf_base w → (slots_ w).[i] = Some v → in_window w (base_ w + i) = true.
Proof.
  intros Hw Hi%vget_Some. rewrite (wf_len w Hw) in Hi. apply in_window_iff.
  split; [apply (wf_has w Hw)|lia].
Qed.

Lemma win_lookup_slot w i v :
  wf_base w → (slots_ w).[i] = Some v → v ≠ 0 → win_lookup w (base_ w + i) = Some v.
Proof.
  intros Hw Hi Hv. unfold win_lookup. rewrite (slot_in_window w i v) by done.
  replace (base_ w + i - base_ w) with i by lia. rewrite Hi. simpl.
  by destruct (Z.eqb_spec v 0).
Qed.

Lemma win_lookup_over w p v :
  wf_base w → (p, v) ∈ overflow_ w → win_lookup w p = Some v.
Proof.
  intros Hw Hin. unfold win_lookup. rewrite (wf_out w Hw p v) by done.
  by apply (to_map_elem c _ _ _ (wf_sorted w Hw)).
Qed.

(** Every represented level is in a slot or in the overflow map. *)
Lemma win_lookup_inv w p v :
  wf_base w → win_lookup w p = Some v →
  (∃ i, p = base_ w + i ∧ (slots_ w).[i] = Some v ∧ v ≠ 0) ∨ (p, v) ∈ overflow_ w.
Proof.
  intros Hw. unfold win_lookup. destruct (in_window w p) eqn:E.
  - destruct (in_window_slot w p Hw E) as [u Hu]. rewrite Hu. simpl.
    destruct (Z.eqb_spec u 0); intros [= ->]. left. exists (p - base_ w).
    split_and!; [lia|done|done].
  - intros H. right. by apply (to_map_elem c _ _ _ (wf_sorted w Hw)).
Qed.


Lemma count_range w : wf_base w → 0 ≤ count_ w ≤ kWindow.
Proof.
  intros Hw. rewrite (wf_count w Hw), <- (wf_len w Hw).
  split; [apply nz_nonneg|apply nz_le].
Qed.

Lemma count_pos w i v :
  wf_base w → (slots_ w).[i] = Some v → v ≠ 0 → 0 < count_ w.
Proof.
  intros Hw Hi Hv. rewrite (wf_count w Hw). unfold vget in Hi.
  case_decide; [|done]. by eapply nz_pos.
Qed.

Lemma count_zero w i v :
  wf_base w → count_ w = 0 → (slots_ w).[i] = Some v → v = 0.
Proof.
  intros Hw Hc Hi. destruct (decide (v = 0)) as [|Hv]; [done|].
  pose proof (count_pos w i v Hw Hi Hv). lia.
Qed.

End Windowed.

(** * Walking the window *)

(** [r] is the next non-empty slot after [i] in the order of [c], if any. *)

Definition is_next (c : Compare) (slots : list Qty) (i : Z) (r : bool * Z) : Prop :=
  match r with
  | (true, j) =>
      (∃ v, slots.[j] = Some v ∧ v ≠ 0) ∧ cmp c i j = true ∧
      ∀ k u, slots.[k] = Some u → u ≠ 0 → cmp c i k = true → cmp c k j = false
  | (false, _) => ∀ k u, slots.[k] = Some u → cmp c i k = true → u = 0
  end.

(** Rounds the walk can still take from index [i]. *)

Definition steps_left (c : Compare) (slots : list Qty) (i : Z) : Z :=
  match c with Greater => i | Less => zlen slots - 1 - i end.

Lemma next_loop_spec c fuel slots i :
  zlen slots ≤ kWindow → 0 ≤ i < zlen slots → steps_left c slots i < Z.of_nat fuel →
  ∃ r, next_window_idx_loop (c:=c) fuel slots i = Some r ∧ is_next c slots i r.
Proof.
  intros HW. rewrite kWindow_eq in HW. revert i.
  induction fuel as [|fuel IH]; intros i Hi Hf; unfold steps_left in *.
  { destruct c; lia. }
  cbn [next_window_idx_loop]. unfold high_first.
  destruct c; simpl.
  - destruct (Z.eqb_spec i 0) as [->|Hi0].
    { eexists. split; [done|]. intros k u Hk%vget_Some. simpl. lia. }
    destruct (vget_is_Some slots (i - 1)) as [v Hv]; [lia|]. rewrite Hv. simpl.
    destruct (Z.eqb_spec v 0) as [->|Hv0].
    + destruct (IH (i - 1)) as (r & -> & Hr); [lia..|]. exists r. split; [done|].
      destruct r as [[] j]; simpl in *.
      * destruct Hr as (? & ? & Hk). split_and!; [done|lia|]. intros k u Hku Hu Hlt.
        destruct (decide (k = i - 1)) as [->|]; [by simplify_eq|].
        apply (Hk k u); [done|done|lia].
      * intros k u Hku Hlt. destruct (decide (k = i - 1)) as [->|]; [by simplify_eq|].
        apply (Hr k u); [done|lia].
    + eexists. split; [done|]. simpl. split_and!; [by eauto|lia|]. intros; lia.
  - rewrite u64_small by lia.
    destruct (Z.leb_spec (zlen slots) (i + 1)) as [Hge|Hlt].
    { eexists. split; [done|]. intros k u Hk%vget_Some. simpl. lia. }
    destruct (vget_is_Some slots (i + 1)) as [v Hv]; [lia|]. rewrite Hv. simpl.
    destruct (Z.eqb_spec v 0) as [->|Hv0].
    + destruct (IH (i + 1)) as (r & -> & Hr); [lia..|]. exists r. split; [done|].
      destruct r as [[] j]; simpl in *.
      * destruct Hr as (? & ? & Hk). split_and!; [done|lia|]. intros k u Hku Hu Hl.
        destruct (decide (k = i + 1)) as [->|]; [by simplify_eq|].
        apply (Hk k u); [done|done|lia].
      * intros k u Hku Hl. destruct (decide (k = i + 1)) as [->|]; [by simplify_eq|].
        apply (Hr k u); [done|lia].
    + eexists. split; [done|]. simpl. split_and!; [by eauto|lia|]. intros; lia.
Qed.

Lemma next_window_idx_spec {c} (w : WindowedLevels c) i :
  zlen (slots_ w) = kWindow → 0 ≤ i < kWindow →
  ∃ r, next_window_idx w i = Some r ∧ is_next c (slots_ w) i r.
Proof.
  intros Hl Hi. apply next_loop_spec; [lia|lia|].
  unfold steps_left, zlen in *. destruct c; lia.
Qed.

(** * Updating one slot *)

Section Updates.
Context {c : Compare}.
Implicit Types w : WindowedLevels c.

(** The quantity at a price, zero when there is no level. *)

Definition win_at w (p : Price) : Qty := default 0 (win_lookup w p).

Definition good w : Prop := wf_base w ∧ best_ok w.

(** [w'] has the window and the overflow map of [w] with the level at [p] set to [x]. *)

Definition level_set w w' (p : Price) (x : Qty) : Prop :=
  base_ w' = base_ w ∧
  ∀ p', win_lookup w' p' =
        if decide (p = p') then (if x =? 0 then None else Some x) else win_lookup w p'.

Lemma win_at_slot w p v :
  in_window w p = true → (slots_ w).[p - base_ w] = Some v → win_at w p = v.
Proof.
  intros Hin Hv. unfold win_at, win_lookup. rewrite Hin, Hv. simpl.
  by destruct (Z.eqb_spec v 0).
Qed.

Lemma slot_update w p v x slots b n :
  wf_base w → in_window w p = true → (slots_ w).[p - base_ w] = Some v →
  (slots_ w).[p - base_ w <- x] = Some slots →
  n = count_ w - (if v =? 0 then 0 else 1) + (if x =? 0 then 0 else 1) →
  let w' := mkWin slots (overflow_ w) (base_ w) b n (has_base_ w) in
  wf_base w' ∧ level_set w w' p x.
Proof.
  intros Hw Hin Hv Hs Hn w'.
  assert (Hiw : ∀ p', in_window w' p' = in_window w p') by done.
  split.
  - split; try apply Hw.
    + simpl. rewrite (vset_length _ _ _ _ Hs). apply Hw.
    + simpl. apply vset_inv in Hs as [? ->]. unfold vget in Hv.
      rewrite decide_True in Hv by lia. rewrite (nz_insert _ _ _ x Hv).
      rewrite Hn, (wf_count w Hw). done.
  - split; [done|]. intros p'. unfold win_lookup. rewrite Hiw. simpl.
    rewrite (vset_get _ _ _ _ _ Hs). case_decide as E; case_decide as E'; subst; try lia.
    + by rewrite Hin.
    + done.
Qed.

Lemma place_spec w p q :
  good w → in_window w p = true → 0 < q → 0 ≤ win_at w p → win_at w p + q < 2 ^ 32 →
  ∃ w', place_in_window w p q = Some w' ∧ good w' ∧ level_set w w' p (win_at w p + q).
Proof.
  intros [Hw Hb] Hin Hq Hnn Hlt. destruct (in_window_slot w p Hw Hin) as [v Hv].
  rewrite (win_at_slot w p v Hin Hv) in *.
  pose proof (vget_Some _ _ _ Hv) as Hr. pose proof (count_range w Hw) as Hcr.
  pose proof kWindow_eq as HkW.
  unfold place_in_window. rewrite index_in_window by done. rewrite Hv. simpl.
  rewrite u32_small by lia.
  pose proof (vset_Some (slots_ w) (p - base_ w) (v + q) Hr) as Hs. rewrite Hs. simpl.
  destruct (Z.eqb_spec v 0) as [->|Hv0].
  - set (b := if _ || _ then _ else _).
    destruct (slot_update w p 0 (0 + q) _ b (u64 (count_ w + 1)) Hw Hin Hv Hs) as [Hw' Hl].
    { rewrite u64_small by lia. destruct (Z.eqb_spec (0 + q) 0); simpl; lia. }
    eexists. split; [done|]. split; [split; [done|]|done].
    intros _. simpl. pose proof (λ j, vset_get _ _ _ j _ Hs) as Hg.
    assert (Hnb : ∀ j u, (slots_ w).[j] = Some u → u ≠ 0 → count_ w ≠ 0).
    { intros j u Hj Hu. pose proof (count_pos w j u Hw Hj Hu). lia. }
    subst b. destruct (Z.eqb_spec (count_ w) 0) as [Hc|Hc]; simpl.
    + exists (0 + q). rewrite Hg, decide_True by done. split_and!; [done|lia|].
      intros i u. rewrite Hg. case_decide; [intros; subst; apply cmp_irrefl|].
      intros Hi Hu. by destruct (Hnb i u Hi Hu).
    + destruct Hb as (v' & Hv' & Hv0' & Hbest); [lia|].
      destruct (better p (window_best_price w)) eqn:Eb;
        unfold better, window_best_price in Eb; rewrite cmp_shift_l in Eb.
      * exists (0 + q). rewrite Hg, decide_True by done. split_and!; [done|lia|].
        intros i u. rewrite Hg. case_decide; [intros; subst; apply cmp_irrefl|].
        intros Hi Hu. eapply cmp_le_trans; [exact Eb|by eapply Hbest].
      * exists v'. rewrite Hg. rewrite decide_False; [|intros Heq; congruence].
        split_and!; [done|done|]. intros i u. rewrite Hg. case_decide; [|by apply Hbest].
        intros _ _. by subst.
  - destruct (slot_update w p v (v + q) _ (best_idx_ w) (count_ w) Hw Hin Hv Hs) as [Hw' Hl].
    { destruct (Z.eqb_spec v 0), (Z.eqb_spec (v + q) 0); simpl; lia. }
    eexists. split; [done|]. split; [split; [done|]|done].
    intros Hc. simpl in *. destruct (Hb Hc) as (v' & Hv' & Hv0' & Hbest).
    pose proof (λ j, vset_get _ _ _ j _ Hs) as Hg.
    destruct (decide (p - base_ w = best_idx_ w)) as [E|E].
    + exists (v + q). rewrite Hg, decide_True by done. split_and!; [done|lia|].
      intros i u. rewrite Hg. case_decide; [intros; subst; rewrite <- E; apply cmp_irrefl|].
      by apply Hbest.
    + exists v'. rewrite Hg, decide_False by done. split_and!; [done|done|].
      intros i u. rewrite Hg. case_decide; [|by apply Hbest].
      intros _ _. subst. by apply (Hbest _ v).
Qed.

Lemma spill_spec w p q :
  good w → in_window w p = false → 0 < q → 0 ≤ win_at w p → win_at w p + q < 2 ^ 32 →
  good (spill w p q) ∧ level_set w (spill w p q) p (win_at w p + q).
Proof.
  intros [Hw Hb] Hin Hq Hnn Hlt.
  assert (He : u32 (default 0 (find c (overflow_ w) p) + q) = win_at w p + q).
  { rewrite find_to_map by apply Hw. unfold win_at, win_lookup in *. rewrite Hin in *.
    by rewrite u32_small by lia. }
  assert (Hiw : ∀ p', in_window (spill w p q) p' = in_window w p') by done.
  split; [split|].
  - split; try apply Hw.
    + unfold spill. simpl. apply put_sorted, Hw.
    + intros p' v' [[-> ->]|Hin']%put_elem; rewrite Hiw; [done|]. by eapply (wf_out w Hw).
  - exact Hb.
  - split; [done|]. intros p'. unfold win_lookup at 1. rewrite Hiw. simpl.
    rewrite He, put_to_map by apply Hw. unfold win_lookup.
    destruct (Z.eqb_spec (win_at w p + q) 0); [lia|].
    case_decide; subst; [by rewrite Hin, lookup_insert_eq|].
    by rewrite lookup_insert_ne.
Qed.

Lemma rebucket_spec w p q :
  good w → 0 < q → 0 ≤ win_at w p → win_at w p + q < 2 ^ 32 →
  ∃ w', rebucket w (p, q) = Some w' ∧ good w' ∧ level_set w w' p (win_at w p + q).
Proof.
  intros Hg Hq Hnn Hlt. unfold rebucket. simpl. destruct (in_window w p) eqn:E.
  - by apply place_spec.
  - eexists. split; [done|]. by apply spill_spec.
Qed.

Lemma rebucket_all_spec all w :
  good w → NoDup all.*1 → (∀ p q, (p, q) ∈ all → win_lookup w p = None ∧ 0 < q < 2 ^ 32) →
  ∃ w', rebucket_all w all = Some w' ∧ good w' ∧ base_ w' = base_ w ∧
        ∀ p, win_lookup w' p = match to_map all !! p with
                               | Some q => Some q | None => win_lookup w p end.
Proof.
  revert w. induction all as [|[p q] all IH]; intros w Hg Hnd Hall; [by exists w|].
  apply NoDup_cons in Hnd as [Hp Hnd].
  destruct (Hall p q) as [Hn Hq]; [left|].
  assert (Hat : win_at w p = 0) by (unfold win_at; by rewrite Hn).
  destruct (rebucket_spec w p q) as (w1 & Hw1 & Hg1 & Hb1 & Hl1); [done|lia..|].
  rewrite Hat in Hl1. cbn [rebucket_all]. rewrite Hw1. simpl.
  destruct (IH w1 Hg1 Hnd) as (w2 & -> & Hg2 & Hb2 & Hl2).
  { intros p' q' Hin. rewrite Hl1. case_decide as E; [|by apply Hall; right].
    subst. destruct Hp. apply list_elem_of_fmap. by exists (p', q'). }
  exists w2. split_and!; [done|done|congruence|]. intros p'. rewrite Hl2, to_map_cons, Hl1.
  destruct (decide (p = p')) as [<-|].
  - rewrite lookup_insert_eq. unfold to_map.
    rewrite (proj1 (not_elem_of_list_to_map all p) Hp).
    destruct (Z.eqb_spec (0 + q) 0); [lia|done].
  - by rewrite lookup_insert_ne.
Qed.

End Updates.

(** * The levels of a store as a list *)

Lemma collect_elem base i slots p q :
  (p, q) ∈ collect base i slots ↔ q ≠ 0 ∧ ∃ j : nat, slots !! j = Some q ∧ p = base + i + Z.of_nat j.
Proof.
  revert i. induction slots as [|v r IH]; intros i; simpl.
  - split; [by intros ?%elem_of_nil|]. by intros (_ & j & ? & _).
  - assert (Hr : (p, q) ∈ collect base (i + 1) r ↔
      q ≠ 0 ∧ ∃ j : nat, (v :: r) !! (S j) = Some q ∧ p = base + i + Z.of_nat (S j)).
    { rewrite IH. split; intros (? & j & ? & ?); (split; [done|]); exists j; (split; [done|lia]). }
    destruct (Z.eqb_spec v 0); [|rewrite elem_of_cons]; rewrite Hr; split.
    + intros (? & j & ?). eauto.
    + intros (? & [|j] & Hj & ?); simplify_eq/=. eauto.
    + intros [[= -> ->]|(? & j & ?)]; [|by eauto]. split; [done|]. exists 0%nat.
      split; [done|lia].
    + intros (? & [|j] & Hj & ?); simplify_eq/=; [left; by rewrite Z.add_0_r|].
      right. eauto.
Qed.

Lemma collect_sorted base i slots : ksorted Less (collect base i slots).
Proof.
  revert i. induction slots as [|v r IH]; intros i; simpl; [constructor|].
  destruct (v =? 0); [done|]. constructor; [done|]. apply Forall_forall.
  intros [p q] (_ & j & _ & ->)%collect_elem. unfold klt. simpl.
  apply Z.ltb_lt. lia.
Qed.

Lemma collect_length base i slots : zlen (collect base i slots) = nz slots.
Proof.
  revert i. induction slots as [|v r IH]; intros i; simpl; [done|].
  rewrite nz_cons. destruct (v =? 0); rewrite ?zlen_cons, IH; lia.
Qed.

Section Contract.
Context {c : Compare}.
Implicit Types w : WindowedLevels c.

(** What [recenter_to] gathers. *)

Definition entries w : list (Price * Qty) :=
  (if has_base_ w then collect (base_ w) 0 (slots_ w) else []) ++ overflow_ w.

Lemma entries_elem w p q : wf w → (p, q) ∈ entries w ↔ win_lookup w p = Some q.
Proof.
  intros [->|[Hw _]]; unfold entries; [simpl; by rewrite elem_of_nil|].
  rewrite (wf_has w Hw), elem_of_app, collect_elem. split.
  - intros [(Hq & j & Hj & ->)|Hin].
    + replace (base_ w + 0 + Z.of_nat j) with (base_ w + Z.of_nat j) by lia.
      apply win_lookup_slot; [done| |done]. by rewrite vget_nat.
    + by apply win_lookup_over.
  - intros [(i & -> & Hi & Hq)|Hin]%win_lookup_inv; [left|by right|done].
    split; [done|]. pose proof (vget_Some _ _ _ Hi). exists (Z.to_nat i).
    unfold vget in Hi. rewrite decide_True in Hi by lia. split; [done|lia].
Qed.

Lemma entries_nodup w : wf w → NoDup (entries w).*1.
Proof.
  intros [->|[Hw _]]; unfold entries; [constructor|]. rewrite (wf_has w Hw), fmap_app.
  apply NoDup_app. split_and!.
  - eapply ksorted_nodup, collect_sorted.
  - intros p [[p1 q1] [-> H1]]%list_elem_of_fmap [[p2 q2] [Hp H2]]%list_elem_of_fmap.
    simpl in *. subst p2. apply collect_elem in H1 as (_ & j & Hj & ->).
    pose proof (wf_out w Hw _ _ H2) as Hout.
    replace (base_ w + 0 + Z.of_nat j) with (base_ w + Z.of_nat j) in Hout by lia.
    rewrite (slot_in_window w (Z.of_nat j) q1) in Hout; [done|done|].
    by rewrite vget_nat.
  - eapply ksorted_nodup, (wf_sorted w Hw).
Qed.

Lemma entries_to_map w m : win_rep w m → to_map (entries w) = m.
Proof.
  intros (Hw & Hl & _). apply map_eq. intros p. apply option_eq. intros q.
  rewrite Hl, <- entries_elem by done. symmetry.
  apply elem_of_list_to_map. by apply entries_nodup.
Qed.

Lemma win_rep_at w m p : win_rep w m → win_at w p = lv_at m p.
Proof. intros (_ & Hl & _). unfold win_at, lv_at. by rewrite Hl. Qed.

(** * Re-centring *)

Lemma fresh_good b : 0 ≤ b < 2 ^ 32 →
  good (mkWin (c:=c) (replicate (Z.to_nat kWindow) 0) [] b 0 0 true).
Proof.
  intros Hb. pose proof kWindow_eq. split; [split|]; simpl.
  - done.
  - unfold zlen. rewrite length_replicate. lia.
  - done.
  - by rewrite nz_replicate.
  - constructor.
  - by intros p v ?%elem_of_nil.
  - intros Hc. simpl in Hc. lia.
Qed.

Lemma fresh_lookup b p :
  win_lookup (mkWin (c:=c) (replicate (Z.to_nat kWindow) 0) [] b 0 0 true) p = None.
Proof.
  unfold win_lookup. destruct (in_window _ p); simpl; [|done].
  unfold vget. case_decide; [|done].
  destruct (replicate (Z.to_nat kWindow) 0 !! Z.to_nat (p - b)) as [v|] eqn:E; [|done].
  apply lookup_replicate in E as [-> _]. done.
Qed.

Lemma recenter_spec w m p :
  win_rep w m → price_ok p →
  ∃ w', recenter_to w p = Some w' ∧ good w' ∧ in_window w' p = true ∧
        ∀ p', win_lookup w' p' = m !! p'.
Proof.
  intros Hr Hp. pose proof Hr as (Hw & Hl & Hok). unfold price_ok, fits in Hp.
  pose proof kWindow_eq as HkW. unfold recenter_to. fold (entries w).
  set (b := if _ <? 0 then _ else _).
  assert (Hb : 0 ≤ b < 2 ^ 32 ∧ b ≤ p < b + kWindow).
  { subst b. rewrite HkW. change (65536 / 2) with 32768.
    destruct (Z.ltb_spec (p - 32768) 0); lia. }
  destruct (rebucket_all_spec (entries w) _ (fresh_good b (proj1 Hb)) (entries_nodup w Hw))
    as (w' & -> & Hg & Hbase & Hl').
  { intros p' q' Hin. split; [apply fresh_lookup|].
    apply entries_elem in Hin; [|done]. rewrite <- Hl in Hin. by destruct (Hok _ _ Hin). }
  exists w'. split_and!; [done|done| |].
  - apply in_window_iff. split; [apply Hg|]. rewrite Hbase. simpl. lia.
  - intros p'. rewrite Hl', (entries_to_map w m Hr). rewrite fresh_lookup.
    by destruct (m !! p').
Qed.

(** * The updates *)

(** A level set to a positive quantity realises [lv_inc]. *)
Lemma level_set_inc w w' m p q :
  (∀ p', win_lookup w p' = m !! p') → good w' → level_set w w' p (lv_at m p + q) →
  levels_ok m → price_ok p → 0 < q → lv_at m p + q < 2 ^ 32 → win_rep w' (lv_inc m p q).
Proof.
  intros Hl Hg [_ Hs] Hok Hp Hq Hlt. pose proof (levels_ok_at m p Hok).
  split_and!; [by right| |by auto with hft]. intros p'. rewrite Hs. unfold lv_inc.
  destruct (Z.eqb_spec (lv_at m p + q) 0); [lia|].
  case_decide; subst; [by rewrite lookup_insert_eq|by rewrite lookup_insert_ne, Hl].
Qed.

(** Placing a level in a window that covers its price. *)
Lemma place_inc w m p q :
  good w → (∀ p', win_lookup w p' = m !! p') → in_window w p = true → levels_ok m →
  price_ok p → 0 < q → lv_at m p + q < 2 ^ 32 →
  ∃ w', place_in_window w p q = Some w' ∧ win_rep w' (lv_inc m p q).
Proof.
  intros Hg Hl Hin Hok Hp Hq Hlt. pose proof (levels_ok_at m p Hok).
  assert (Hat : win_at w p = lv_at m p) by (unfold win_at, lv_at; by rewrite Hl).
  destruct (place_spec w p q) as (w' & -> & Hg' & Hs); rewrite ?Hat; try done; [lia|].
  exists w'. split; [done|]. rewrite Hat in Hs. by eapply level_set_inc.
Qed.

Lemma recenter_inc w m p q :
  win_rep w m → price_ok p → 0 < q → lv_at m p + q < 2 ^ 32 →
  ∃ w', (w' ← recenter_to w p; place_in_window w' p q) = Some w' ∧ win_rep w' (lv_inc m p q).
Proof.
  intros Hr Hp Hq Hlt. destruct (recenter_spec w m p Hr Hp) as (w1 & -> & Hg & Hin & Hl).
  simpl. apply place_inc; try done. by destruct Hr as (_ & _ & ?).
Qed.

Lemma windowed_inc_rep w m p q :
  win_rep w m → price_ok p → 0 < q → lv_at m p + q < 2 ^ 32 →
  ∃ w', inc w p q = Some w' ∧ win_rep w' (lv_inc m p q).
Proof.
  intros Hr Hp Hq Hlt. pose proof Hr as (Hw & Hl & Hok). pose proof (levels_ok_at m p Hok).
  unfold inc. destruct (Z.eqb_spec q 0); [lia|].
  destruct Hw as [->|Hg]; [by apply recenter_inc|].
  rewrite (wf_has w (proj1 Hg)). simpl. destruct (in_window w p) eqn:Hin; simpl.
  { apply place_inc; done. }
  match goal with |- context [mbind _ ?o] => assert (is_Some o) as [b Hb] end.
  { destruct (Z.eqb_spec (count_ w) 0) as [Hc|Hc]; simpl.
    - unfold zlen, best_price. rewrite Hc. destruct (overflow_ w); simpl; [done|].
      destruct (Z.eqb_spec (Z.of_nat (S (length l))) 0); [done|]. simpl. done.
    - unfold best_price. destruct (Z.eqb_spec (count_ w) 0); [done|].
      by destruct (head (overflow_ w)). }
  rewrite Hb. simpl. destruct b; [by apply recenter_inc|].
  eexists. split; [done|]. destruct (spill_spec w p q) as [Hg' Hs]; try done.
  1,2: rewrite (win_rep_at w m) by done; lia.
  rewrite (win_rep_at w m) in Hs by done. by eapply level_set_inc.
Qed.

(** A level set to the wrapped difference realises [lv_dec]. *)
Lemma level_set_dec w w' m p q v :
  win_rep w m → m !! p = Some v → wf w' → level_set w w' p (u32 (v - q)) →
  win_rep w' (lv_dec m p q).
Proof.
  intros (_ & Hl & Hok) Hv Hw' [_ Hs]. split_and!; [done| |by auto with hft].
  intros p'. rewrite Hs. unfold lv_dec. rewrite Hv.
  destruct (u32 (v - q) =? 0); case_decide; subst; by simplify_map_eq.
Qed.

(** Emptying the best slot and rescanning finds the next best one; the full scan of the
    code is never needed. *)
Lemma rescan_spec w v slots :
  good w → (slots_ w).[best_idx_ w] = Some v → v ≠ 0 →
  (slots_ w).[best_idx_ w <- 0] = Some slots →
  let w1 := mkWin (c:=c) slots (overflow_ w) (base_ w) (best_idx_ w) (count_ w - 1)
              (has_base_ w) in
  wf_base w1 →
  ∃ b, rescan_best w1 = Some (set_best w1 b) ∧ best_ok (set_best w1 b).
Proof.
  intros [Hw Hb] Hv Hv0 Hs w1 Hw1. unfold rescan_best.
  pose proof (count_pos w _ v Hw Hv Hv0) as Hc. destruct (Hb Hc) as (v' & _ & _ & Hbest).
  pose proof (λ j, vset_get _ _ _ j _ Hs) as Hg.
  destruct (Z.eqb_spec (count_ w1) 0) as [Hz|Hz].
  { exists 0. split; [done|]. intros Hp. simpl in *. lia. }
  assert (Hlt : ∀ j u, slots.[j] = Some u → u ≠ 0 → cmp c (best_idx_ w) j = true).
  { intros j u. rewrite Hg. case_decide; [intros [= <-]; done|]. intros Hj Hu.
    apply cmp_ne_false; [by apply not_eq_sym|by eapply Hbest]. }
  destruct (next_window_idx_spec w1 (best_idx_ w1)) as ([[] i] & -> & Hn).
  - apply Hw1.
  - apply vget_Some in Hv. by rewrite (wf_len w Hw) in Hv.
  - exists i. split; [done|]. intros _. destruct Hn as ((u & Hu & Hu0) & _ & Hk).
    exists u. split_and!; [done|done|]. intros j x Hj Hx. apply (Hk j x); [done|done|].
    by apply (Hlt j x).
  - exfalso. destruct (nz_exists (slots_ w1)) as (j & u & Hj & Hu).
    { rewrite <- (wf_count w1 Hw1). pose proof (nz_nonneg (slots_ w1)) as Hnn.
      rewrite <- (wf_count w1 Hw1) in Hnn. lia. }
    rewrite <- vget_nat in Hj. apply Hu, (Hn _ u Hj). by apply (Hlt _ u).
Qed.

Lemma windowed_dec_window w m p q :
  win_rep w m → good w → in_window w p = true →
  ∃ w', dec w p q = Some w' ∧ win_rep w' (lv_dec m p q).
Proof.
  intros Hr [Hw Hb] Hin. pose proof Hr as (_ & Hl & Hok).
  destruct (in_window_slot w p Hw Hin) as [v Hv].
  unfold dec. rewrite Hin, index_in_window by done. rewrite Hv. simpl.
  assert (Hm : m !! p = if v =? 0 then None else Some v).
  { rewrite Hl. unfold win_lookup. by rewrite Hin, Hv. }
  destruct (Z.eqb_spec v 0) as [->|Hv0].
  { exists w. split; [done|]. unfold lv_dec. by rewrite Hm. }
  pose proof (vget_Some _ _ _ Hv) as Hrg.
  pose proof (vset_Some (slots_ w) (p - base_ w) (u32 (v - q)) Hrg) as Hs. rewrite Hs. simpl.
  pose proof (λ j, vset_get _ _ _ j _ Hs) as Hg.
  pose proof (count_pos w _ v Hw Hv Hv0) as Hc. pose proof (count_range w Hw) as Hcr.
  rewrite kWindow_eq in Hcr.
  destruct (Z.eqb_spec (u32 (v - q)) 0) as [Hz|Hz].
  - rewrite u64_small by lia.
    destruct (slot_update w p v (u32 (v - q)) _ (best_idx_ w) (count_ w - 1) Hw Hin Hv Hs)
      as [Hw1 Hset].
    { rewrite Hz. destruct (Z.eqb_spec v 0); simpl; lia. }
    destruct (Z.eqb_spec (p - base_ w) (best_idx_ w)) as [E|E].
    + rewrite Hz, E in *. destruct (rescan_spec w v _ (conj Hw Hb) Hv Hv0 Hs Hw1) as (b & -> & Hbk).
      eexists. split; [done|]. eapply level_set_dec; [done|done| |].
      * right. split; [|done]. split; apply Hw1.
      * by rewrite Hz.
    + eexists. split; [done|]. eapply level_set_dec; [done|done| |done].
      right. split; [done|]. intros _. destruct (Hb Hc) as (v' & Hv' & Hv0' & Hbest).
      simpl. exists v'. rewrite Hg, decide_False by done. split_and!; [done|done|].
      intros i u. rewrite Hg. case_decide; [by intros [= <-]|]. by apply Hbest.
  - destruct (slot_update w p v (u32 (v - q)) _ (best_idx_ w) (count_ w) Hw Hin Hv Hs)
      as [Hw1 Hset].
    { destruct (Z.eqb_spec v 0), (Z.eqb_spec (u32 (v - q)) 0); simpl; lia. }
    eexists. split; [done|]. eapply level_set_dec; [done|done| |done].
    right. split; [done|]. intros _. destruct (Hb Hc) as (v' & Hv' & Hv0' & Hbest). simpl.
    destruct (decide (p - base_ w = best_idx_ w)) as [E|E].
    + exists (u32 (v - q)). rewrite Hg, decide_True by done. split_and!; [done|done|].
      intros i u. rewrite Hg. case_decide; [intros; subst; rewrite E; apply cmp_irrefl|].
      by apply Hbest.
    + exists v'. rewrite Hg, decide_False by done. split_and!; [done|done|].
      intros i u. rewrite Hg. case_decide; [|by apply Hbest]. intros _ _. subst.
      by apply (Hbest _ v).
Qed.

Lemma windowed_dec_rep w m p q :
  win_rep w m → ∃ w', dec w p q = Some w' ∧ win_rep w' (lv_dec m p q).
Proof.
  intros Hr. pose proof Hr as (Hw & Hl & Hok). destruct (in_window w p) eqn:Hin.
  { apply windowed_dec_window; [done| |done]. by destruct Hw as [->|]. }
  unfold dec. rewrite Hin. pose proof (Hl p) as Hp. unfold win_lookup in Hp. rewrite Hin in Hp.
  destruct Hw as [->|Hg]; simpl.
  { exists (empty c). split; [done|]. unfold lv_dec. by rewrite Hp. }
  rewrite find_to_map by apply Hg. rewrite <- Hp. unfold lv_dec.
  destruct (m !! p) as [v|] eqn:Hv; [|by eexists].
  eexists. split; [done|]. set (w' := mkWin _ _ _ _ _ _).
  assert (Hw' : level_set w w' p (u32 (v - q)) ∧ ksorted c (overflow_ w') ∧
                ∀ p' v', (p', v') ∈ overflow_ w' → p' = p ∨ (p', v') ∈ overflow_ w).
  { subst w'. unfold level_set. simpl. destruct (u32 (v - q) =? 0) eqn:E.
    - split_and!; [done| |by apply erase_sorted, Hg|intros ?? ?%erase_elem; by right].
      intros p'. unfold win_lookup, in_window. simpl. fold (in_window w p').
      rewrite erase_to_map by apply Hg.
      case_decide; subst; [by rewrite Hin, lookup_delete_eq|by rewrite lookup_delete_ne].
    - split_and!; [done| |by apply put_sorted, Hg|intros ?? [[-> ->]|]%put_elem; auto].
      intros p'. unfold win_lookup, in_window. simpl. fold (in_window w p').
      rewrite put_to_map by apply Hg.
      case_decide; subst; [by rewrite Hin, lookup_insert_eq|by rewrite lookup_insert_ne]. }
  destruct Hw' as (Hs & Hso & Hov).
  eapply (level_set_dec w w' m p q v Hr Hv) in Hs as Hres.
  - unfold lv_dec in Hres. by rewrite Hv in Hres.
  - right. split; [|apply Hg]. split; try apply Hg; [done|].
    intros p' v' [->|Ho]%Hov; [done|]. by apply (wf_out w (proj1 Hg) p' v').
Qed.

(** * The queries *)

Lemma windowed_at_rep w m p : win_rep w m → at_ w p = Some (lv_at m p).
Proof.
  intros Hr. pose proof Hr as (Hw & Hl & _). unfold at_. destruct (in_window w p) eqn:Hin.
  - destruct Hw as [->|[Hw _]]; [done|]. rewrite index_in_window by done.
    destruct (in_window_slot w p Hw Hin) as [v Hv]. rewrite Hv.
    by rewrite <- (win_rep_at w m), (win_at_slot w p v).
  - unfold lv_at. rewrite Hl. unfold win_lookup. rewrite Hin.
    destruct Hw as [->|[Hw _]]; [done|]. by rewrite find_to_map by apply Hw.
Qed.

Lemma windowed_size_entries w m : win_rep w m → Z.of_nat (size m) = zlen (entries w).
Proof.
  intros Hr. rewrite <- (entries_to_map w m Hr). unfold zlen, to_map.
  rewrite <- (length_map_to_list (list_to_map (entries w) : gmap Z Z)).
  rewrite map_to_list_to_map; [done|]. apply entries_nodup, Hr.
Qed.

Lemma windowed_size_rep w m :
  win_rep w m → size_ w = Z.of_nat (size m).
Proof.
  intros Hr. assert (Hlt : Z.of_nat (size m) ≤ 2 ^ 32) by apply levels_ok_size, Hr. rewrite (windowed_size_entries w m Hr) in *. unfold size_, entries in *.
  destruct Hr as ([->|[Hw _]] & _); [done|].
  rewrite (wf_has w Hw), zlen_app, collect_length, <- (wf_count w Hw) in *.
  pose proof (count_range w Hw). pose proof (zlen_nonneg (overflow_ w)).
  apply u64_small. lia.
Qed.

(** No level of the window is before the best one. *)
Lemma window_best_min w p v :
  good w → 0 < count_ w → win_lookup w p = Some v → (p, v) ∉ overflow_ w →
  cmp c p (window_best_price w) = false.
Proof.
  intros [Hw Hb] Hc Hp Hno. apply win_lookup_inv in Hp as [(i & -> & Hi & Hv)|]; [|done|done].
  destruct (Hb Hc) as (_ & _ & _ & Hbest). unfold window_best_price.
  rewrite cmp_shift. by apply (Hbest i v).
Qed.

(** No level of the overflow map is before its first one. *)
Lemma overflow_head_min w o p v :
  good w → head (overflow_ w) = Some o → (p, v) ∈ overflow_ w → cmp c p o.1 = false.
Proof.
  intros [Hw _] Ho Hin. pose proof (wf_sorted w Hw) as Hs.
  destruct (overflow_ w) as [|[k u] l]; simplify_eq/=.
  apply elem_of_cons in Hin as [[= -> ->]|Hin]; [apply cmp_irrefl|].
  apply cmp_asym. by eapply (ksorted_cons_inv c k u l).
Qed.

(** The better of the two sides' bests is the best level. *)
Lemma windowed_best_rep w m : win_rep w m → best w = Some (head (ladder c m)).
Proof.
  intros (Hw & Hl & _). destruct Hw as [->|Hg].
  { unfold best. simpl. rewrite ladder_nil; [done|]. intros p. by rewrite Hl. }
  pose proof Hg as [Hw Hb]. unfold best. pose proof (count_range w Hw) as Hcr.
  assert (Hwin : 0 < count_ w → ∃ v, (slots_ w).[best_idx_ w] = Some v ∧
                 m !! window_best_price w = Some v).
  { intros Hc. destruct (Hb Hc) as (v & Hv & Hv0 & _). exists v. split; [done|].
    rewrite Hl. by apply win_lookup_slot. }
  assert (Hout : ∀ p v, m !! p = Some v → count_ w ≤ 0 → (p, v) ∈ overflow_ w).
  { intros p v Hp Hc. rewrite Hl in Hp. apply win_lookup_inv in Hp as [(i & _ & Hi & Hv)|]; [|done|done].
    pose proof (count_pos w i v Hw Hi Hv). lia. }
  destruct (head (overflow_ w)) as [o|] eqn:Ho.
  - assert (Hom : m !! o.1 = Some o.2).
    { rewrite Hl. apply win_lookup_over; [done|]. destruct (overflow_ w) as [|[k u] r];
        simplify_eq/=. by left. }
    destruct (Z.ltb_spec 0 (count_ w)) as [Hc|Hc]; simpl.
    + destruct (Hwin Hc) as (v & Hv & Hmv). unfold better.
      destruct (cmp c o.1 (window_best_price w)) eqn:Eb; simpl.
      * rewrite (ladder_head c m o.1 o.2); [by destruct o|done|]. intros p u Hp.
        destruct (decide ((p, u) ∈ overflow_ w)) as [Hin|Hin]; [by eapply overflow_head_min|].
        rewrite Hl in Hp. eapply cmp_le_trans; [done|by eapply window_best_min].
      * rewrite Hv. simpl. rewrite (ladder_head c m (window_best_price w) v); [done|done|].
        intros p u Hp. rewrite Hl in Hp.
        destruct (decide ((p, u) ∈ overflow_ w)) as [Hin|Hin]; [|by eapply window_best_min].
        pose proof (overflow_head_min w o p u Hg Ho Hin) as Hm.
        destruct (cmp c p (window_best_price w)) eqn:E; [|done].
        destruct (cmp c o.1 p) eqn:E'; [|pose proof (cmp_total c _ _ E' Hm); congruence].
        rewrite (cmp_trans c _ _ _ E' E) in Eb. done.
    + rewrite (ladder_head c m o.1 o.2); [by destruct o|done|]. intros p u Hp.
      eapply overflow_head_min; [done|done|]. by apply Hout.
  - assert (Hnil : overflow_ w = []) by (by destruct (overflow_ w)).
    destruct (Z.ltb_spec 0 (count_ w)) as [Hc|Hc].
    + destruct (Hwin Hc) as (v & Hv & Hmv). rewrite Hv. simpl.
      rewrite (ladder_head c m (window_best_price w) v); [done|done|]. intros p u Hp.
      rewrite Hl in Hp. eapply window_best_min; [done|done|done|].
      rewrite Hnil. apply not_elem_of_nil.
    + rewrite ladder_nil; [done|]. intros p. destruct (m !! p) as [v|] eqn:Hp; [|done].
      apply Hout in Hp; [|done]. rewrite Hnil in Hp. by apply elem_of_nil in Hp.
Qed.

(** The levels still to be listed when the merge stands at slot [wi] (if [valid]) and at the
    suffix [of_] of the overflow map. *)

Definition remaining w (wi : Z) (valid : bool) (of_ : list (Price * Qty)) (p q : Z) : Prop :=
  (valid = true ∧ ∃ j, (slots_ w).[j] = Some q ∧ q ≠ 0 ∧ p = base_ w + j ∧ cmp c j wi = false)
  ∨ (p, q) ∈ of_.

Lemma remaining_next w wi v r of_ p q :
  (slots_ w).[wi] = Some v → is_next c (slots_ w) wi r →
  (∀ p' q', (p', q') ∈ of_ → p' ≠ base_ w + wi) →
  remaining w r.2 r.1 of_ p q ↔ remaining w wi true of_ p q ∧ p ≠ base_ w + wi.
Proof.
  intros Hwi Hn Hof. unfold remaining. split.
  - intros [(Hr & j & Hj & Hq & -> & Hc)|Hin]; [|split; [by right|by eapply Hof]].
    destruct r as [[] i]; simpl in *; [|done]. destruct Hn as ((u & Hu & Hu0) & Hlt & _).
    split; [left; eauto 10 using cmp_le_trans|]. intros E.
    assert (j = wi) as -> by lia. congruence.
  - intros [[(_ & j & Hj & Hq & -> & Hc)|Hin] Hne]; [|by right].
    assert (Hlt : cmp c wi j = true) by (apply cmp_ne_false; [lia|done]).
    destruct r as [[] i]; simpl in *.
    + left. split; [done|]. exists j. split_and!; try done. by eapply Hn.
    + destruct Hq. by eapply Hn.
Qed.

Lemma top_loop_spec n w wi valid of_ l :
  wf_base w → ksorted c l → ksorted c of_ →
  (valid = true → ∃ v, (slots_ w).[wi] = Some v ∧ v ≠ 0) →
  (∀ p q, (p, q) ∈ of_ → in_window w p = false) →
  (∀ p q, (p, q) ∈ l ↔ remaining w wi valid of_ p q) →
  top_loop w n wi valid of_ = Some (take n l).
Proof.
  intros Hw. revert wi valid of_ l.
  induction n as [|n IH]; intros wi valid of_ l Hl Hof Hv Hout Hrem; [done|].
  cbn [top_loop]. destruct (valid && _) eqn:Et.
  - apply andb_true_iff in Et as [-> Hb]. destruct (Hv eq_refl) as (v & Hwi & Hv0).
    rewrite Hwi. simpl.
    destruct (next_window_idx_spec w wi) as (r & -> & Hn).
    { apply Hw. } { apply vget_Some in Hwi. by rewrite (wf_len w Hw) in Hwi. }
    destruct (sorted_min_head c l (base_ w + wi) v Hl) as (l' & -> & Hl' & Htl).
    { apply Hrem. left. split; [done|]. exists wi. rewrite cmp_irrefl. done. }
    { intros p q [(_ & j & _ & _ & -> & Hc)|Hin]%Hrem; [by rewrite cmp_shift|].
      destruct of_ as [|[k u] of_]; [by apply elem_of_nil in Hin|].
      apply negb_true_iff in Hb. unfold better in Hb. simpl in Hb.
      apply elem_of_cons in Hin as [[= -> ->]|Hin]; [done|].
      pose proof (proj2 (ksorted_cons_inv c k u of_ Hof) _ _ Hin) as Hk.
      destruct (cmp c p (base_ w + wi)) eqn:E; [|done].
      by rewrite (cmp_trans c _ _ _ Hk E) in Hb. }
    assert (Hne : ∀ p q, (p, q) ∈ of_ → p ≠ base_ w + wi).
    { intros p q Hin ->. apply Hout in Hin. by rewrite (slot_in_window w wi v) in Hin. }
    simpl. rewrite (IH r.2 r.1 of_ l'); try done.
    + intros Hr. destruct r as [[] i]; [|done]. by destruct Hn as (? & _).
    + intros p q. rewrite (remaining_next w wi v r of_ p q) by done. by rewrite Htl, Hrem.
  - destruct of_ as [|[k u] of_].
    + rewrite andb_true_r in Et. subst valid. destruct l as [|[p q] l]; [done|].
      exfalso. destruct (proj1 (Hrem p q)) as [[? _]|Hin]; [left|done|].
      by apply elem_of_nil in Hin.
    + pose proof (ksorted_cons_inv c k u of_ Hof) as [Hof' Hk].
      destruct (sorted_min_head c l k u Hl) as (l' & -> & Hl' & Htl).
      { apply Hrem. right. left. }
      { intros p q [(-> & j & _ & _ & -> & Hc)|Hin]%Hrem.
        - apply negb_false_iff in Et. unfold better in Et. simpl in Et.
          apply cmp_le_trans with (base_ w + wi); [done|by rewrite cmp_shift].
        - apply elem_of_cons in Hin as [[= -> ->]|Hin]; [apply cmp_irrefl|].
          apply cmp_asym. by eapply Hk. }
      rewrite (IH wi valid of_ l'); try done.
      * intros p q Hin. apply (Hout p q). by right.
      * intros p q. rewrite Htl, Hrem. unfold remaining. rewrite elem_of_cons. split.
        -- intros [[Hj|[[= -> ->]|Hin]] Hne]; [by left|done|by right].
        -- intros [(Hval & j & Hj & Hq & -> & Hc)|Hin].
           ++ split; [left; eauto 10|]. intros <-.
              pose proof (Hout (base_ w + j) u (list_elem_of_here _ _)) as Ho.
              by rewrite (slot_in_window w j q) in Ho.
           ++ split; [by right; right|]. apply not_eq_sym. eapply cmp_ne. by eapply Hk.
Qed.

Lemma windowed_top_rep w m n : win_rep w m → top w n = Some (take n (ladder c m)).
Proof.
  intros (Hw & Hl & _). unfold top. destruct Hw as [->|[Hw Hb]].
  { rewrite ladder_nil; [by destruct n|]. intros p. by rewrite Hl. }
  apply top_loop_spec; [done|apply ladder_sorted|apply Hw| |apply (wf_out w Hw)|].
  - intros Hc%Z.ltb_lt. destruct (Hb Hc) as (v & ? & ? & _). eauto.
  - intros p q. rewrite ladder_elem, Hl. unfold remaining. split.
    + intros [(i & -> & Hi & Hq)|Hin]%win_lookup_inv; [left|by right|done].
      pose proof (count_pos w i q Hw Hi Hq) as Hc. split; [by apply Z.ltb_lt|].
      exists i. split_and!; [done..|]. destruct (Hb Hc) as (_ & _ & _ & Hbest). by eapply Hbest.
    + intros [(_ & j & Hj & Hq & -> & _)|Hin]; [by apply win_lookup_slot|].
      by apply win_lookup_over.
Qed.

End Contract.

(** * The contract *)

#[global, refine] Instance WindowedLevels_spec : LevelStoreSpec WindowedLevels := {|
  ls_rep c w m := win_rep w m
|}.
Proof.
  - by intros c w m (_ & _ & ?).
  - intros c. split_and!; [by left|done|]. intros ??. by rewrite lookup_empty.
  - intros c w m p q. apply windowed_inc_rep.
  - intros c w m p q. apply windowed_dec_rep.
  - intros c w m. apply windowed_best_rep.
  - intros c w m p. apply windowed_at_rep.
  - intros c w m. apply windowed_size_rep.
  - intros c w m n. apply windowed_top_rep.
Defined.
