(* ===== verification/LevelTheorems.v ===== *)
(** Properties of the price-level stores over sequences of updates: the flat store computes
    exactly what the map store computes, wrap-around included; the windowed store implements
    the same levels as long as no total reaches [2^32], and differs from the other two when
    a total wraps around to zero. *)
From S2P Require Export MapLevels FlatLevels WindowedFacts.

Inductive LevelOp : Set :=
  | LInc (p : Price) (q : Qty)
  | LDec (p : Price) (q : Qty).

Definition ls_step {F : Compare → Type} `{LevelStore F} {c} (s : F c) (op : LevelOp) : option (F c) :=
  match op with
  | LInc p q => ls_inc s p q
  | LDec p q => ls_dec s p q
  end.

Definition ls_run {F : Compare → Type} `{LevelStore F} {c} (s : F c) (ops : list LevelOp) : option (F c) :=
  foldM ls_step s ops.

(** The levels after an operation, and the operations whose totals fit. *)

Definition lv_step (m : gmap Z Z) (op : LevelOp) : gmap Z Z :=
  match op with
  | LInc p q => lv_inc m p q
  | LDec p q => lv_dec m p q
  end.

Definition op_fits (m : gmap Z Z) (op : LevelOp) : Prop :=
  match op with
  | LInc p q => price_ok p ∧ 0 < q ∧ lv_at m p + q < 2 ^ 32
  | LDec p q => True
  end.

Fixpoint ops_fit (m : gmap Z Z) (ops : list LevelOp) : Prop :=
  match ops with
  | [] => True
  | op :: ops => op_fits m op ∧ ops_fit (lv_step m op) ops
  end.

#[global] Instance op_fits_dec m op : Decision (op_fits m op).
Proof. destruct op; simpl; unfold price_ok; apply _. Defined.

#[global] Instance ops_fit_dec m ops : Decision (ops_fit m ops).
Proof. revert m. induction ops; intros; simpl; apply _. Defined.

(** Every 32-bit quantity. *)

Definition op_q (op : LevelOp) : Qty := match op with LInc _ q | LDec _ q => q end.

(** Two stores with the same answers. *)

Definition same_levels {F G : Compare → Type} `{LevelStore F} `{LevelStore G} {c}
    (s : F c) (t : G c) : Prop :=
  ls_best s = ls_best t ∧ (∀ p, ls_at s p = ls_at t p) ∧ ls_size s = ls_size t ∧
  ∀ n, ls_top s n = ls_top t n.

(** The number of bid levels a store reports after a sequence of updates. *)

Definition level_count (F : Compare → Type) `{LevelStore F} (ops : list LevelOp) : option Z :=
  s ← ls_run (ls_empty (F:=F) Greater) ops; Some (ls_size (F:=F) s).

Lemma ls_run_rep {F : Compare → Type} `{LevelStoreSpec F} {c} ops (s : F c) m :
  ls_rep s m → ops_fit m ops →
  ∃ s', ls_run s ops = Some s' ∧ ls_rep s' (foldl lv_step m ops).
Proof.
  revert s m. induction ops as [|op ops IH]; intros s m Hr Hf; [by exists s|].
  destruct Hf as [Hop Hf]. unfold ls_run. cbn [foldM foldl].
  destruct op as [p q|p q]; cbn [ls_step lv_step op_fits] in *.
  - destruct Hop as (Hp & Hq & Hlt). destruct (ls_inc_rep c s m p q Hr Hp Hq Hlt) as (s1 & -> & Hr1).
    by apply IH.
  - destruct (ls_dec_rep c s m p q Hr) as (s1 & -> & Hr1). by apply IH.
Qed.

Lemma rep_same {F G : Compare → Type} `{LevelStoreSpec F} `{LevelStoreSpec G} {c}
    (s : F c) (t : G c) m :
  ls_rep s m → ls_rep t m → same_levels s t.
Proof.
  intros Hs Ht. split_and!.
  - by rewrite (ls_best_rep c s m Hs), (ls_best_rep c t m Ht).
  - intros p. by rewrite (ls_at_rep c s m p Hs), (ls_at_rep c t m p Ht).
  - by rewrite (ls_size_rep c s m Hs), (ls_size_rep c t m Ht).
  - intros n. by rewrite (ls_top_rep c s m n Hs), (ls_top_rep c t m n Ht).
Qed.

Lemma flat_step_map {c} (s : FlatLevels c) op :
  ksorted c (v_ s) → fits 32 (op_q op) →
  ∃ t : MapLevels c, ls_step (as_map s) op = Some t ∧ ls_step s op = Some (mkFlat (m_ t)) ∧
    ksorted c (m_ t).
Proof.
  intros Hs Hq. destruct op as [p q|p q]; simpl in *; eexists; (split; [done|]).
  - split; [by apply flat_inc_map|by eapply (inc_to_map (as_map s))].
  - split; [by apply flat_dec_map|by eapply (dec_to_map (as_map s))].
Qed.

Lemma flat_run_map {c} ops (s : FlatLevels c) :
  ksorted c (v_ s) → Forall (λ op, fits 32 (op_q op)) ops →
  ∃ t : MapLevels c, ls_run (as_map s) ops = Some t ∧ ls_run s ops = Some (mkFlat (m_ t)) ∧
    ksorted c (m_ t).
Proof.
  revert s. induction ops as [|op ops IH]; intros s Hs Hf; [exists (as_map s); by destruct s|].
  apply Forall_cons in Hf as [Hop Hf]. destruct (flat_step_map s op Hs Hop) as (t & Et & Es & Ht).
  unfold ls_run. cbn [foldM]. rewrite Et, Es. cbn [mbind option_bind].
  destruct (IH (mkFlat (m_ t)) Ht Hf) as (t' & Et' & Es' & Ht'). exists t'.
  split_and!; [|done|done]. unfold ls_run in Et'. unfold as_map in Et'. simpl in Et'. by destruct t.
Qed.

(** * Properties *)

(** The flat store is the map store.  On every sequence of updates with 32-bit
    quantities, wrapping totals included, the sorted vector is updated without leaving its
    bounds, holds exactly the entries of the tree, and answers every query alike. *)
Theorem flat_equals_map c ops :
  Forall (λ op, fits 32 (op_q op)) ops →
  ∃ (t : MapLevels c) (s : FlatLevels c),
    ls_run (ls_empty c) ops = Some t ∧ ls_run (ls_empty c) ops = Some s ∧
    v_ s = m_ t ∧ same_levels s t.
Proof.
  intros Hf. destruct (flat_run_map (c:=c) ops (mkFlat []) ltac:(constructor) Hf) as (t & Et & Es & Ht).
  exists t, (mkFlat (m_ t)). split_and!; [done..|]. split_and!; simpl.
  - done.
  - intros p. rewrite flat_at_map by done. by destruct t.
  - done.
  - intros n. rewrite flat_top_map. by destruct t.
Qed.

Lemma flat_equals_map_witness :
  let ops := [LInc 100 4294967295; LInc 90 5; LInc 100 3; LDec 90 6; LDec 100 2] in
  ∃ (t : MapLevels Greater) (s : FlatLevels Greater),
    ls_run (ls_empty Greater) ops = Some t ∧ ls_run (ls_empty Greater) ops = Some s ∧
    v_ s = m_ t ∧ same_levels s t.
Proof. apply flat_equals_map. apply (bool_decide_unpack _). vm_compute. exact I. Defined.

(** The windowed store is the map store on every sequence of updates whose totals fit 32
    bits: through recentering, spilling and rescanning it stays inside its vectors and
    answers every query as the tree does. *)
Theorem windowed_equals_map c ops :
  ops_fit ∅ ops →
  ∃ (t : MapLevels c) (w : WindowedLevels c),
    ls_run (ls_empty c) ops = Some t ∧ ls_run (ls_empty c) ops = Some w ∧ same_levels w t.
Proof.
  intros Hf.
  destruct (ls_run_rep ops (ls_empty (F:=MapLevels) c) ∅ (ls_empty_rep c) Hf) as (t & Et & Rt).
  destruct (ls_run_rep ops (ls_empty (F:=WindowedLevels) c) ∅ (ls_empty_rep c) Hf) as (w & Ew & Rw).
  exists t, w. split_and!; [done..|]. by eapply rep_same.
Qed.

(** A level far below the inside, a new inside above the window, and the way back. *)
Lemma windowed_equals_map_witness :
  let ops := [LInc 1000000 50; LInc 5 10; LInc 1200000 7; LDec 1200000 7; LDec 5 4] in
  ∃ (t : MapLevels Greater) (w : WindowedLevels Greater),
    ls_run (ls_empty Greater) ops = Some t ∧ ls_run (ls_empty Greater) ops = Some w ∧
    same_levels w t.
Proof. apply windowed_equals_map. apply (bool_decide_unpack _). vm_compute. exact I. Defined.

(** When a level total wraps around to zero the windowed store counts the level twice:
    after adding 2^31 shares twice and then 7 at one price, the map store and the flat store
    hold one level and the windowed store reports two. *)
Theorem windowed_wrap_miscounts :
  let ops := [LInc 100 (2 ^ 31); LInc 100 (2 ^ 31); LInc 100 7] in
  level_count MapLevels ops = Some 1 ∧
  level_count FlatLevels ops = Some 1 ∧
  level_count WindowedLevels ops = Some 2.
Proof. split_and!; vm_compute; reflexivity. Qed.
