(* ===== verification/ObjectPool.v ===== *)
(** [ObjectPool<T>] (include/core/object_pool.hpp): contiguous storage addressed by 32-bit
    handles, with a free list.  Vectors are lists in index order, [push_back] appends.

    [pool_ok p live] says which handles are in use: the free list is duplicate free and
    [live] is exactly the rest of the storage.  Under it [alloc] returns a handle that is
    not in use, and freeing gives one back. *)
From S2P Require Export Types.

Record ObjectPool (T : Type) := mkPool { slots_ : list T; free_ : list Z }.

Arguments mkPool {T} _ _.
Arguments slots_ {T} _.
Arguments free_ {T} _.

Section ObjectPool.
Context {T : Type}.
Implicit Types p : ObjectPool T.

(** The constructor only reserves memory. *)

Definition empty : ObjectPool T := mkPool [] [].

(** [dflt] is the value-initialised [T] that [emplace_back()] constructs. *)

Definition alloc (dflt : T) p : Z * ObjectPool T :=
  match last (free_ p) with
  | Some h => (h, mkPool (slots_ p) (removelast (free_ p)))
  | None =>
      let slots := slots_ p ++ [dflt] in
      (u32 (u64 (zlen slots - 1)), mkPool slots (free_ p))
  end.

Definition free p (h : Z) : ObjectPool T := mkPool (slots_ p) (free_ p ++ [h]).

Definition get p (h : Z) : option T := (slots_ p).[h].

Definition set p (h : Z) (x : T) : option (ObjectPool T) :=
  slots ← (slots_ p).[h <- x]; Some (mkPool slots (free_ p)).

Definition live p : Z := u64 (zlen (slots_ p) - zlen (free_ p)).

Definition capacity p : Z := zlen (slots_ p).

(** * Handles in use *)

Record pool_ok p (used : gset Z) : Prop := {
  po_nodup : NoDup (free_ p);
  po_range : ∀ h, h ∈ free_ p ∨ h ∈ used ↔ 0 ≤ h < capacity p;
  po_disj : ∀ h, h ∈ free_ p → h ∉ used;
  po_cap : capacity p ≤ 2 ^ 32;
}.

Lemma empty_ok : pool_ok empty ∅.
Proof.
  split; simpl; [constructor| |by intros ? ?%elem_of_nil|done].
  intros h. unfold capacity. simpl. unfold zlen. simpl. rewrite elem_of_nil.
  split; [by intros [?|?%elem_of_empty]|lia].
Qed.

Lemma pool_get p used h : pool_ok p used → h ∈ used → ∃ x, get p h = Some x.
Proof.
  intros Hp Hh. apply vget_is_Some. apply (po_range p used Hp). by right.
Qed.

Lemma pool_set p used h x :
  pool_ok p used → h ∈ used →
  ∃ p', set p h x = Some p' ∧ pool_ok p' used ∧
        (∀ k, get p' k = if decide (h = k) then Some x else get p k) ∧
        capacity p' = capacity p.
Proof.
  intros Hp Hh. unfold set.
  assert (Hr : 0 ≤ h < zlen (slots_ p)) by (apply (po_range p used Hp); by right).
  rewrite (vset_Some (slots_ p) h x Hr). simpl. eexists. split; [done|].
  assert (Hc : capacity (mkPool (<[Z.to_nat h := x]> (slots_ p)) (free_ p)) = capacity p).
  { unfold capacity, zlen. simpl. by rewrite length_insert. }
  split_and!; [|by intros k; apply vset_get, vset_Some|done].
  split; [apply Hp| |apply Hp|rewrite Hc; apply Hp].
  intros k. rewrite Hc. apply (po_range p used Hp).
Qed.

(** Popping the back of a non-empty free list. *)
Lemma free_pop p h :
  last (free_ p) = Some h → ∃ l, free_ p = l ++ [h] ∧ removelast (free_ p) = l.
Proof. intros [l ->]%last_Some. exists l. by rewrite removelast_last. Qed.

(** [alloc] hands out a handle that was not in use and leaves the stored values of the
    handles in use alone; it fails to do so only when 2^32 slots are in use. *)
Lemma pool_alloc dflt p used h p' :
  pool_ok p used → capacity p < 2 ^ 32 → alloc dflt p = (h, p') →
  (h ∉ used) ∧ pool_ok p' ({[h]} ∪ used) ∧ (∀ k, k ∈ used → get p' k = get p k) ∧
  capacity p' ≤ capacity p + 1.
Proof.
  intros Hp Hc. unfold alloc. destruct (last (free_ p)) as [h0|] eqn:El; intros [= <- <-].
  - rename h0 into h. destruct (free_pop p h El) as (l & Hl & ->).
    pose proof (po_nodup p used Hp) as Hnd. rewrite Hl in Hnd.
    apply NoDup_app in Hnd as (Hnd & Hdj & _).
    assert (Hh : h ∉ used) by (apply (po_disj p used Hp); rewrite Hl; set_solver).
    split_and!; [done| |done|unfold capacity; simpl; lia].
    split; simpl; [done| | |apply Hp].
    + intros k. rewrite <- (po_range p used Hp k), Hl. set_solver.
    + intros k Hk. pose proof (po_disj p used Hp k) as Hd. rewrite Hl in Hd. set_solver.
  - assert (Hnil : free_ p = []) by (by destruct (free_ p) using rev_ind; [|rewrite last_snoc in El]).
    unfold capacity in *. pose proof (zlen_nonneg (slots_ p)).
    assert (Hh : u32 (u64 (zlen (slots_ p ++ [dflt]) - 1)) = zlen (slots_ p)).
    { rewrite zlen_app. unfold zlen at 2. simpl. rewrite u64_small, u32_small by lia. lia. }
    rewrite Hh.
    assert (Hn : zlen (slots_ p) ∉ used).
    { intros Hin. pose proof (proj1 (po_range p used Hp _) (or_intror Hin)) as Hr.
      unfold capacity in Hr. lia. }
    assert (Hs : zlen (slots_ p ++ [dflt]) = zlen (slots_ p) + 1) by (by rewrite zlen_app).
    split_and!; [done| | |simpl; lia].
    + split; unfold capacity; simpl; rewrite ?Hnil; [constructor| |set_solver|lia].
      intros k. rewrite Hs. pose proof (po_range p used Hp k) as Hr. rewrite Hnil in Hr.
      assert (Hu : k ∈ used ↔ 0 ≤ k < zlen (slots_ p)).
      { rewrite <- Hr. split; [by right|]. by intros [?%elem_of_nil|]. }
      rewrite elem_of_union, elem_of_singleton, elem_of_nil, Hu. lia.
    + intros k Hk. unfold get, vget. simpl. case_decide; [|done]. apply lookup_app_l.
      pose proof (proj1 (po_range p used Hp k) (or_intror Hk)) as Hr.
      unfold capacity, zlen in Hr. lia.
Qed.

(** Freeing a handle in use makes it available. *)
Lemma pool_free p used h :
  pool_ok p used → h ∈ used → pool_ok (free p h) (used ∖ {[h]}).
Proof.
  intros Hp Hh. split; unfold free, capacity; simpl; [| | |apply Hp].
  - apply NoDup_app. split_and!; [apply Hp| |apply NoDup_singleton].
    intros k Hk ->%list_elem_of_singleton. by apply (po_disj p used Hp h).
  - intros k. rewrite <- (po_range p used Hp k).
    destruct (decide (k = h)); set_solver.
  - intros k. pose proof (po_disj p used Hp k). set_solver.
Qed.

(** Every slot is in use or free. *)
Lemma pool_slots p used : pool_ok p used → zlen (slots_ p) = zlen (free_ p) + Z.of_nat (size used).
Proof.
  intros Hp. assert (Hperm : (free_ p ++ elements used) ≡ₚ (Z.of_nat <$> seq 0 (length (slots_ p)))).
  { apply NoDup_Permutation.
    - apply NoDup_app. split_and!; [apply Hp| |apply NoDup_elements].
      intros h Hh Hu%elem_of_elements. by apply (po_disj p used Hp h).
    - apply NoDup_fmap_2; [apply _|apply NoDup_seq].
    - intros h. rewrite elem_of_app, elem_of_elements, (po_range p used Hp h).
      unfold capacity, zlen. rewrite list_elem_of_fmap. setoid_rewrite elem_of_seq. split.
      + intros Hh. exists (Z.to_nat h). lia.
      + intros (n & -> & Hn). lia. }
  apply Permutation_length in Hperm.
  rewrite length_app, length_fmap, length_seq in Hperm. unfold zlen, size, set_size. simpl. lia.
Qed.

(** [live()] counts the handles in use. *)
Lemma pool_live p used : pool_ok p used → live p = Z.of_nat (size used).
Proof.
  intros Hp. unfold live. pose proof (po_cap p used Hp) as Hc. unfold capacity in Hc.
  pose proof (pool_slots p used Hp) as Hlen. pose proof (zlen_nonneg (free_ p)). rewrite u64_small by lia. lia.
Qed.

(** * Clients of the pool *)

(** A client that stores values and only frees or writes handles it holds; [m] maps the
    handles it holds to the values it stored. *)

Inductive pool_step (dflt : T) : ObjectPool T * gmap Z T → ObjectPool T * gmap Z T → Prop :=
  | step_alloc p m h p1 p2 x :
      alloc dflt p = (h, p1) → set p1 h x = Some p2 →
      pool_step dflt (p, m) (p2, <[h := x]> m)
  | step_set p m h p1 x :
      is_Some (m !! h) → set p h x = Some p1 → pool_step dflt (p, m) (p1, <[h := x]> m)
  | step_free p m h :
      is_Some (m !! h) → pool_step dflt (p, m) (free p h, delete h m).

(** The pool holds the values of [m], at the handles of [m]. *)

Definition pool_rep p (m : gmap Z T) : Prop :=
  pool_ok p (dom m) ∧ ∀ h x, m !! h = Some x → get p h = Some x.

Lemma step_rep dflt p m p' m' :
  pool_rep p m → capacity p < 2 ^ 32 → pool_step dflt (p, m) (p', m') →
  pool_rep p' m' ∧ capacity p' ≤ capacity p + 1.
Proof.
  intros [Hp Hg] Hc Hs. inversion Hs as [? ? h p1 ? x Ha Hset|? ? h ? x Hh Hset|? ? h Hh]; subst.
  - destruct (pool_alloc dflt p (dom m) h p1 Hp Hc Ha) as (Hn & Hp1 & Hk & Hcap).
    destruct (pool_set p1 ({[h]} ∪ dom m) h x Hp1) as (p2 & E & Hp2 & Hg2 & Hc2); [set_solver|].
    simplify_eq. split; [|lia]. split; [by rewrite dom_insert_L|].
    intros k y. rewrite lookup_insert_Some, Hg2. intros [[<- <-]|[Hne Hy]]; [by rewrite decide_True|].
    rewrite decide_False by done. rewrite Hk by (by apply elem_of_dom_2 in Hy). auto.
  - destruct (pool_set p (dom m) h x Hp) as (p2 & E & Hp2 & Hg2 & Hc2); [by apply elem_of_dom|].
    simplify_eq. split; [|lia]. split.
    + rewrite dom_insert_L. replace ({[h]} ∪ dom m) with (dom m); [done|].
      apply elem_of_dom in Hh. set_solver.
    + intros k y. rewrite lookup_insert_Some, Hg2. intros [[<- <-]|[Hne Hy]]; [by rewrite decide_True|].
      rewrite decide_False by done. auto.
  - split; [|unfold free, capacity; simpl; lia]. split.
    + rewrite dom_delete_L. apply pool_free; [done|by apply elem_of_dom].
    + intros k y [_ Hy]%lookup_delete_Some. by apply Hg.
Qed.

Lemma steps_rep dflt n p m p' m' :
  pool_rep p m → capacity p + Z.of_nat n ≤ 2 ^ 32 →
  nsteps (pool_step dflt) n (p, m) (p', m') →
  pool_rep p' m' ∧ capacity p' ≤ capacity p + Z.of_nat n.
Proof.
  intros Hr Hc Hs. remember (p, m) as s eqn:E. remember (p', m') as s' eqn:E'.
  revert p m Hr Hc E. induction Hs as [|n s [p1 m1] s' H1 Hs IH]; intros p m Hr Hc ->.
  { simplify_eq. split; [done|lia]. }
  destruct (step_rep dflt p m p1 m1 Hr) as [Hr1 Hc1]; [lia|done|].
  destruct (IH E' p1 m1 Hr1) as [Hr' Hc']; [lia|done|]. split; [done|lia].
Qed.

Lemma empty_rep : pool_rep empty ∅.
Proof. split; [rewrite dom_empty_L; apply empty_ok|done]. Qed.

End ObjectPool.

(** * Properties *)

(** C36: The pool never mixes objects up.  After any [n < 2^32] allocations, writes and frees
    by a client that only touches handles it holds, every held handle still reads the value
    last stored there, the next allocation returns a handle that nobody holds, and [live()]
    is the number of held handles. *)
Theorem pool_no_aliasing {T} (dflt : T) n p (m : gmap Z T) :
  nsteps (pool_step dflt) n (empty, ∅) (p, m) → Z.of_nat n < 2 ^ 32 →
  (∀ h x, m !! h = Some x → get p h = Some x) ∧
  m !! (alloc dflt p).1 = None ∧ live p = Z.of_nat (size m).
Proof.
  intros Hs Hn. destruct (steps_rep dflt n empty ∅ p m empty_rep) as [[Hp Hg] Hc];
    [change (capacity (T:=T) empty) with 0; lia|done|].
  change (capacity (T:=T) empty) with 0 in Hc. split_and!; [done| |].
  - destruct (alloc dflt p) as [h p'] eqn:Ha.
    destruct (pool_alloc dflt p _ h p' Hp) as (Hh & _); [lia|done|]. by apply not_elem_of_dom.
  - rewrite (pool_live p _ Hp). by rewrite size_dom.
Qed.

(** Two allocations, a free, and a third allocation that recycles the slot. *)
Lemma pool_no_aliasing_witness :
  ∃ p m, nsteps (pool_step 0) 4 (empty, ∅) (p, m) ∧ get p 0 = Some 12 ∧ get p 1 = Some 11 ∧
         m !! (alloc 0 p).1 = None ∧ live p = 2.
Proof.
  pose (p := mkPool [12; 11] ([] : list Z)).
  pose (m := <[0 := 12]> (delete 0 (<[1 := 11]> (<[0 := 10]> (∅ : gmap Z Z))))).
  assert (Hs : nsteps (pool_step 0) 4 (empty, ∅) (p, m)).
  { eapply nsteps_l; [eapply (step_alloc 0 _ _ 0 _ _ 10); reflexivity|].
    eapply nsteps_l; [eapply (step_alloc 0 _ _ 1 _ _ 11); reflexivity|].
    eapply nsteps_l; [apply (step_free 0 _ _ 0); vm_compute; eexists; reflexivity|].
    eapply nsteps_l; [eapply (step_alloc 0 _ _ 0 _ _ 12); reflexivity|]. apply nsteps_O. }
  exists p, m. split; [exact Hs|].
  destruct (pool_no_aliasing 0 4 p m Hs) as (Hg & Ha & Hl); [lia|].
  split; [apply Hg; reflexivity|]. split; [apply Hg; reflexivity|].
  split; [exact Ha|]. rewrite Hl. reflexivity.
Defined.
