(* ===== verification/Itch.v ===== *)
(** The ITCH 5.0 messages and their decoder (include/itch/messages.hpp,
    include/itch/decoder.hpp, src/itch/decoder.cpp).  A byte is a value of [Z] in
    [0, 255]; a [char] is kept as the byte it was read from.  A pointer argument is [None]
    for [nullptr] and otherwise the bytes it points at; reading beyond them is undefined and
    makes the whole call [None]. *)
From S2P Require Export Types.

Inductive MsgType : Set :=
  | Unknown
  | SystemEvent
  | StockDirectory
  | AddOrder
  | AddOrderMpid
  | OrderExecuted
  | OrderExecutedWithPrice
  | OrderCancel
  | OrderDelete
  | OrderReplace
  | Trade
  | CrossTrade.

#[global] Instance MsgType_eq_dec : EqDecision MsgType.
Proof. solve_decision. Defined.

Record Message := mkMessage {
  type : MsgType;
  stock_locate : Z;
  timestamp : Z;
  order_ref : OrderRef;
  new_order_ref : OrderRef;
  match_number : Z;
  side : Side;
  shares : Qty;
  price : Price;
  stock : list Z;
  event_code : Z;
}.

(** [Message{}]. *)

Definition message0 : Message :=
  mkMessage Unknown 0 0 0 0 0 SideNone 0 0 (replicate 8 0) 0.

(** * Field readers *)

Definition rd16 (buf : list Z) (p : Z) : option Z :=
  b0 ← buf.[p]; b1 ← buf.[p + 1]; Some (u16 (Z.lor (Z.shiftl b0 8) b1)).

Definition rd32 (buf : list Z) (p : Z) : option Z :=
  b0 ← buf.[p]; b1 ← buf.[p + 1]; b2 ← buf.[p + 2]; b3 ← buf.[p + 3];
  Some (Z.lor (Z.lor (Z.lor (u32 (Z.shiftl b0 24)) (u32 (Z.shiftl b1 16)))
                (u32 (Z.shiftl b2 8))) b3).

(** The loop of [rd_be] from byte [p] on, with accumulator [v]. *)

Fixpoint rd_be_loop (buf : list Z) (p : Z) (n : nat) (v : Z) : option Z :=
  match n with
  | O => Some v
  | S n => b ← buf.[p]; rd_be_loop buf (p + 1) n (Z.lor (u64 (Z.shiftl v 8)) b)
  end.

Definition rd_be (buf : list Z) (p : Z) (n : nat) : option Z := rd_be_loop buf p n 0.

Definition rd48 (buf : list Z) (p : Z) : option Z := rd_be buf p 6.

Definition rd64 (buf : list Z) (p : Z) : option Z := rd_be buf p 8.

(** [std::memcpy(dst, buf + p, n)]. *)

Fixpoint memcpy (buf : list Z) (p : Z) (n : nat) : option (list Z) :=
  match n with
  | O => Some []
  | S n => b ← buf.[p]; r ← memcpy buf (p + 1) n; Some (b :: r)
  end.

(** * Message lengths *)

Definition message_length (type : Z) : Z :=
  match type with
  | 83 (* S *) => 12
  | 82 (* R *) => 39
  | 72 (* H *) => 25
  | 89 (* Y *) => 20
  | 76 (* L *) => 26
  | 86 (* V *) => 35
  | 87 (* W *) => 12
  | 75 (* K *) => 28
  | 74 (* J *) => 35
  | 104 (* h *) => 21
  | 65 (* A *) => 36
  | 70 (* F *) => 40
  | 69 (* E *) => 31
  | 67 (* C *) => 36
  | 88 (* X *) => 23
  | 68 (* D *) => 19
  | 85 (* U *) => 35
  | 80 (* P *) => 44
  | 81 (* Q *) => 40
  | 66 (* B *) => 19
  | 73 (* I *) => 50
  | 78 (* N *) => 20
  | 79 (* O *) => 48
  | _ => 0
  end.

(** The enumerator a handled type character stands for. *)

Definition type_of_char (t : Z) : MsgType :=
  match t with
  | 83 (* S *) => SystemEvent
  | 82 (* R *) => StockDirectory
  | 65 (* A *) => AddOrder
  | 70 (* F *) => AddOrderMpid
  | 69 (* E *) => OrderExecuted
  | 67 (* C *) => OrderExecutedWithPrice
  | 88 (* X *) => OrderCancel
  | 68 (* D *) => OrderDelete
  | 85 (* U *) => OrderReplace
  | 80 (* P *) => Trade
  | 81 (* Q *) => CrossTrade
  | _ => Unknown
  end.

(** * The decoder *)

(** The common header: [out = Message{}] with the locate and the timestamp. *)

Definition header (loc ts : Z) : Message :=
  mkMessage Unknown loc ts 0 0 0 SideNone 0 0 (replicate 8 0) 0.

(** The message is an out-parameter: the result is the returned flag and its final value. *)

Definition decode (buf : option (list Z)) (len : Z) (out : Message) :
    option (bool * Message) :=
  match buf with
  | None => Some (false, out)
  | Some buf =>
      if len <? 11 then Some (false, out)
      else
        loc ← rd16 buf 1;
        ts ← rd48 buf 5;
        let h := header loc ts in
        t ← buf.[0];
        match type_of_char t with
        | SystemEvent =>
            if len <? 12 then Some (false, h)
            else
              ev ← buf.[11];
              Some (true, mkMessage SystemEvent loc ts 0 0 0 SideNone 0 0 (replicate 8 0) ev)
        | StockDirectory =>
            if len <? 39 then Some (false, h)
            else
              st ← memcpy buf 11 8;
              Some (true, mkMessage StockDirectory loc ts 0 0 0 SideNone 0 0 st 0)
        | AddOrder =>
            if len <? 36 then Some (false, h)
            else
              ref ← rd64 buf 11; sd ← buf.[19]; sh ← rd32 buf 20; st ← memcpy buf 24 8;
              px ← rd32 buf 32;
              Some (true, mkMessage AddOrder loc ts ref 0 0 (side_of_char sd) sh px st 0)
        | AddOrderMpid =>
            if len <? 40 then Some (false, h)
            else
              ref ← rd64 buf 11; sd ← buf.[19]; sh ← rd32 buf 20; st ← memcpy buf 24 8;
              px ← rd32 buf 32;
              Some (true, mkMessage AddOrderMpid loc ts ref 0 0 (side_of_char sd) sh px st 0)
        | OrderExecuted =>
            if len <? 31 then Some (false, h)
            else
              ref ← rd64 buf 11; sh ← rd32 buf 19; mn ← rd64 buf 23;
              Some (true, mkMessage OrderExecuted loc ts ref 0 mn SideNone sh 0 (replicate 8 0) 0)
        | OrderExecutedWithPrice =>
            if len <? 36 then Some (false, h)
            else
              ref ← rd64 buf 11; sh ← rd32 buf 19; mn ← rd64 buf 23; px ← rd32 buf 32;
              Some (true, mkMessage OrderExecutedWithPrice loc ts ref 0 mn SideNone sh px
                            (replicate 8 0) 0)
        | OrderCancel =>
            if len <? 23 then Some (false, h)
            else
              ref ← rd64 buf 11; sh ← rd32 buf 19;
              Some (true, mkMessage OrderCancel loc ts ref 0 0 SideNone sh 0 (replicate 8 0) 0)
        | OrderDelete =>
            if len <? 19 then Some (false, h)
            else
              ref ← rd64 buf 11;
              Some (true, mkMessage OrderDelete loc ts ref 0 0 SideNone 0 0 (replicate 8 0) 0)
        | OrderReplace =>
            if len <? 35 then Some (false, h)
            else
              ref ← rd64 buf 11; nref ← rd64 buf 19; sh ← rd32 buf 27; px ← rd32 buf 31;
              Some (true, mkMessage OrderReplace loc ts ref nref 0 SideNone sh px
                            (replicate 8 0) 0)
        | Trade =>
            if len <? 44 then Some (false, h)
            else
              ref ← rd64 buf 11; sd ← buf.[19]; sh ← rd32 buf 20; st ← memcpy buf 24 8;
              px ← rd32 buf 32; mn ← rd64 buf 36;
              Some (true, mkMessage Trade loc ts ref 0 mn (side_of_char sd) sh px st 0)
        | CrossTrade =>
            if len <? 40 then Some (false, h)
            else
              st ← memcpy buf 19 8; px ← rd32 buf 27; mn ← rd64 buf 31;
              Some (true, mkMessage CrossTrade loc ts 0 0 mn SideNone 0 px st 0)
        | Unknown => Some (false, h)
        end
  end.

(** * Big-endian values *)

(** The value of a big-endian byte string. *)

Definition be_val (l : list Z) : Z := foldl (λ v b, v * 256 + b) 0 l.

(** The [n] bytes of a buffer from offset [p]. *)

Definition field (buf : list Z) (p : Z) (n : nat) : list Z := take n (drop (Z.to_nat p) buf).

Definition in_buf (buf : list Z) (p n : Z) : Prop := 0 ≤ p ∧ p + n ≤ zlen buf.

Lemma be_val_snoc l b : be_val (l ++ [b]) = be_val l * 256 + b.
Proof. unfold be_val. by rewrite foldl_snoc. Qed.

Lemma field_ok buf p n : bytes_ok buf → bytes_ok (field buf p n).
Proof. intros. by apply bytes_ok_take, bytes_ok_drop. Qed.

#[export] Hint Resolve bytes_ok_take bytes_ok_drop field_ok : hft.

Lemma be_val_range l : bytes_ok l → 0 ≤ be_val l < 256 ^ zlen l.
Proof.
  intros H. induction l as [|b l IH] using rev_ind; [done|].
  apply Forall_app in H as [H Hb]. rewrite Forall_singleton in Hb. specialize (IH H).
  unfold byte_ok in Hb. rewrite be_val_snoc, zlen_app.
  change (zlen [b]) with 1. rewrite Z.pow_add_r, Z.pow_1_r by (unfold zlen; lia). lia.
Qed.

Lemma field_S buf p n b :
  0 ≤ p → buf.[p] = Some b → field buf p (S n) = b :: field buf (p + 1) n.
Proof.
  intros Hp Hb. unfold field, vget in *. rewrite decide_True in Hb by done.
  rewrite (drop_S buf b (Z.to_nat p)) by done. rewrite firstn_cons.
  by replace (Z.to_nat (p + 1)) with (S (Z.to_nat p)) by lia.
Qed.

Lemma field_length buf p n : in_buf buf p (Z.of_nat n) → zlen (field buf p n) = Z.of_nat n.
Proof.
  intros [??]. unfold field, zlen in *. rewrite length_take, length_drop. lia.
Qed.

Lemma rd_be_loop_spec buf p n v k :
  bytes_ok buf → in_buf buf p (Z.of_nat n) → 0 ≤ v < 256 ^ k → 0 ≤ k →
  k + Z.of_nat n ≤ 8 →
  rd_be_loop buf p n v = Some (foldl (λ v b, v * 256 + b) v (field buf p n)).
Proof.
  intros Hok. revert p v k. induction n as [|n IH]; intros p v k [Hp Hl] Hv Hk Hn; [done|].
  destruct (vget_is_Some buf p) as [b Hb]; [lia|]. cbn [rd_be_loop]. rewrite Hb. simpl.
  pose proof (bytes_ok_get _ _ _ Hok Hb) as Hbk.
  assert (Hlt : 256 ^ k * 256 = 256 ^ (k + 1)) by (by rewrite Z.pow_add_r by lia).
  assert (Hle : 256 ^ (k + 1) ≤ 256 ^ 8) by (apply Z.pow_le_mono_r; lia).
  change (256 ^ 8) with (2 ^ 64) in Hle.
  rewrite (field_S buf p n b) by done. simpl.
  assert (Hs : u64 (Z.shiftl v 8) = Z.shiftl v 8).
  { apply u64_small. rewrite Z.shiftl_mul_pow2 by lia. change (2 ^ 8) with 256. lia. }
  rewrite Hs, lor_shift8 by (done || lia). unfold byte_ok in Hbk.
  apply IH with (k := k + 1); [|lia|lia|lia]. split; lia.
Qed.

Lemma rd_be_spec buf p n :
  bytes_ok buf → in_buf buf p (Z.of_nat n) → (n ≤ 8)%nat →
  rd_be buf p n = Some (be_val (field buf p n)).
Proof. intros. apply rd_be_loop_spec with (k := 0); done || lia. Qed.

Lemma rd16_spec buf p :
  bytes_ok buf → in_buf buf p 2 → rd16 buf p = Some (be_val (field buf p 2)).
Proof.
  intros Hok [Hp Hl]. unfold rd16.
  destruct (vget_is_Some buf p) as [a Ha]; [lia|].
  destruct (vget_is_Some buf (p + 1)) as [b Hb]; [lia|].
  rewrite (field_S buf p 1 a), (field_S buf (p + 1) 0 b) by (done || lia).
  rewrite Ha, Hb. simpl. pose proof (bytes_ok_get _ _ _ Hok Ha) as Hao.
  pose proof (bytes_ok_get _ _ _ Hok Hb) as Hbo. unfold byte_ok in *.
  rewrite lor_shift8 by (done || lia). rewrite u16_small by lia. done.
Qed.

(** Disjoint byte positions of a 32-bit word. *)
Lemma lor_bytes4 a b c d :
  byte_ok a → byte_ok b → byte_ok c → byte_ok d →
  Z.lor (Z.lor (Z.lor (u32 (Z.shiftl a 24)) (u32 (Z.shiftl b 16))) (u32 (Z.shiftl c 8))) d
  = ((a * 256 + b) * 256 + c) * 256 + d.
Proof.
  unfold byte_ok. intros Ha Hb Hc Hd.
  rewrite !u32_small by (rewrite Z.shiftl_mul_pow2 by lia; lia).
  rewrite <- !lor_shift8 by (unfold byte_ok; rewrite ?Z.shiftl_nonneg, ?Z.lor_nonneg; lia).
  rewrite !Z.shiftl_lor, !Z.shiftl_shiftl by lia. done.
Qed.

Lemma rd32_spec buf p :
  bytes_ok buf → in_buf buf p 4 → rd32 buf p = Some (be_val (field buf p 4)).
Proof.
  intros Hok [Hp Hl]. unfold rd32.
  destruct (vget_is_Some buf p) as [a Ha]; [lia|].
  destruct (vget_is_Some buf (p + 1)) as [b Hb]; [lia|].
  destruct (vget_is_Some buf (p + 2)) as [c Hc]; [lia|].
  destruct (vget_is_Some buf (p + 3)) as [d Hd]; [lia|].
  rewrite (field_S buf p 3 a), (field_S buf (p + 1) 2 b) by (done || lia).
  replace (p + 1 + 1) with (p + 2) by lia. rewrite (field_S buf (p + 2) 1 c) by (done || lia).
  replace (p + 2 + 1) with (p + 3) by lia. rewrite (field_S buf (p + 3) 0 d) by (done || lia).
  rewrite Ha, Hb, Hc, Hd. simpl. rewrite lor_bytes4 by (by eapply bytes_ok_get). done.
Qed.

Lemma memcpy_spec buf p n :
  in_buf buf p (Z.of_nat n) → memcpy buf p n = Some (field buf p n).
Proof.
  revert p. induction n as [|n IH]; intros p [Hp Hl]; [done|].
  destruct (vget_is_Some buf p) as [b Hb]; [lia|]. cbn [memcpy]. rewrite Hb. simpl.
  rewrite IH by (split; lia). simpl. by rewrite (field_S buf p n b).
Qed.

Lemma byte_spec buf p : in_buf buf p 1 → buf.[p] = Some (be_val (field buf p 1)).
Proof.
  intros [Hp Hl]. destruct (vget_is_Some buf p) as [b Hb]; [lia|].
  by rewrite (field_S buf p 0 b).
Qed.

(** Rewrites every read of the goal that is inside the buffer to the value it yields. *)
Ltac read_fields :=
  unfold rd48, rd64;
  repeat first
    [ rewrite rd16_spec by (done || (split; lia))
    | rewrite rd32_spec by (done || (split; lia))
    | rewrite rd_be_spec by (done || (split; lia) || lia)
    | rewrite memcpy_spec by (split; lia)
    | rewrite byte_spec by (split; lia) ];
  cbn [mbind option_bind].

(** A field of [n] bytes is below [256^n]. *)
Lemma field_fits buf p n k :
  bytes_ok buf → in_buf buf p (Z.of_nat n) → k = 8 * Z.of_nat n → fits k (be_val (field buf p n)).
Proof.
  intros Hok Hin ->. unfold fits. pose proof (be_val_range _ (field_ok buf p n Hok)) as H.
  rewrite field_length in H by done. by rewrite Z.pow_mul_r by lia.
Qed.

(** * What a decoded message guarantees *)

Record msg_ok (m : Message) : Prop := {
  mo_locate : fits 16 (stock_locate m);
  mo_ts : fits 48 (timestamp m);
  mo_ref : fits 64 (order_ref m);
  mo_new : fits 64 (new_order_ref m);
  mo_match : fits 64 (match_number m);
  mo_shares : fits 32 (shares m);
  mo_price : fits 32 (price m);
  mo_stock : bytes_ok (stock m) ∧ length (stock m) = 8%nat;
}.

(** The length of the handled types. *)

Definition type_length (t : MsgType) : Z :=
  match t with
  | Unknown => 0 | SystemEvent => 12 | StockDirectory => 39 | AddOrder => 36
  | AddOrderMpid => 40 | OrderExecuted => 31 | OrderExecutedWithPrice => 36
  | OrderCancel => 23 | OrderDelete => 19 | OrderReplace => 35 | Trade => 44
  | CrossTrade => 40
  end.

Lemma message_length_handled t :
  type_of_char t ≠ Unknown → message_length t = type_length (type_of_char t).
Proof.
  destruct t as [|t|t]; [done| |done].
  do 7 (destruct t as [t|t|]; try done).
Qed.

Lemma replicate_ok : bytes_ok (replicate 8 0) ∧ length (replicate 8 0) = 8%nat.
Proof. split; [|done]. apply Forall_replicate. done. Qed.

(** Decoding inside the buffer: every branch of the switch. *)
Lemma decode_in_buf buf len out :
  bytes_ok buf → 11 ≤ len ≤ zlen buf →
  ∃ m t, buf.[0] = Some t ∧
    decode (Some buf) len out =
      Some (bool_decide (type_of_char t ≠ Unknown ∧ type_length (type_of_char t) ≤ len), m) ∧
    msg_ok m ∧
    type m = (if bool_decide (type_length (type_of_char t) ≤ len) then type_of_char t else Unknown) ∧
    (type m = CrossTrade → shares m = 0).
Proof.
  intros Hok Hl. unfold decode. destruct (Z.ltb_spec len 11); [lia|].
  destruct (vget_is_Some buf 0) as [t Ht]; [lia|]. rewrite Ht. read_fields.
  pose proof replicate_ok as [Hr1 Hr2].
  set (loc := be_val (field buf 1 2)). set (ts := be_val (field buf 5 6)).
  assert (Hloc : fits 16 loc) by (apply field_fits; [done|split; lia|done]).
  assert (Hts : fits 48 ts) by (apply field_fits; [done|split; lia|done]).
  destruct (type_of_char t) eqn:Et; cbn [type_length];
    [|match goal with |- context [len <? ?k] => destruct (Z.ltb_spec len k) end..].
  all: read_fields.
  all: eexists _, t; rewrite Et; cbn [type_length]; split; [done|].
  all: split; [f_equal; f_equal; symmetry|].
  all: try (apply bool_decide_eq_true_2; split; [done|lia]).
  all: try (apply bool_decide_eq_false_2; intros []; done || lia).
  all: case_bool_decide; try lia.
  all: split_and!; try done.
  all: split; cbn; try done.
  all: try (apply field_fits; [done|split; lia|done]).
  all: split; [by apply field_ok|].
  all: apply Nat2Z.inj; apply (field_length buf _ 8); split; lia.
Qed.

(** * Properties *)

(** C13: The decoder is memory safe and its acceptance is exact.  For every byte buffer and
    every length not larger than it, the call reads inside the buffer only; it returns
    [true] exactly when the first byte is a handled type and the length reaches that type's
    [message_length]; an accepted message has the type of that byte, and every field is in
    the range of its ITCH width. *)
Theorem decode_safe_exact buf len out :
  bytes_ok buf → 0 ≤ len ≤ zlen buf →
  ∃ r m, decode (Some buf) len out = Some (r, m) ∧
    (r = true ↔ ∃ t, buf.[0] = Some t ∧ type_of_char t ≠ Unknown ∧ message_length t ≤ len) ∧
    (r = true → buf.[0] ≫= (λ t, Some (type_of_char t)) = Some (type m) ∧ msg_ok m).
Proof.
  intros Hok Hl. destruct (decide (11 ≤ len)).
  - destruct (decode_in_buf buf len out) as (m & t & Ht & E & Hm & Hty & _); [done|lia|].
    eexists _, m. split; [done|]. rewrite bool_decide_eq_true. split.
    + split; [intros [? ?]; exists t; rewrite message_length_handled by done; done|].
      intros (t' & Ht' & Hu & Hlen). simplify_eq. by rewrite message_length_handled in Hlen.
    + intros [Hu Hlen]. rewrite Ht. simpl. split; [|done]. by rewrite Hty, bool_decide_true.
  - exists false, out. unfold decode. destruct (Z.ltb_spec len 11); [|lia]. split_and!; [done| |done].
    split; [done|]. intros (t & Ht & Hu & Hlen). rewrite message_length_handled in Hlen by done.
    destruct (type_of_char t); simpl in Hlen; done || lia.
Qed.

(** An order-delete message for reference 7 on locate 3. *)

Definition delete_bytes : list Z := [68; 0; 3; 0; 0; 0; 0; 0; 0; 1; 2; 0; 0; 0; 0; 0; 0; 0; 7].

Lemma decode_safe_exact_witness :
  bytes_ok delete_bytes ∧
  ∃ r m, decode (Some delete_bytes) 19 message0 = Some (r, m) ∧ r = true ∧ msg_ok m.
Proof.
  assert (Hok : bytes_ok delete_bytes) by (apply (bool_decide_unpack _); vm_compute; exact I).
  split; [exact Hok|].
  destruct (decode_safe_exact delete_bytes 19 message0 Hok) as (r & m & E & Hr & Hm).
  - vm_compute. split; discriminate.
  - exists r, m. split; [exact E|]. assert (r = true) as ->.
    { apply Hr. exists 68. split; [reflexivity|]. split; [discriminate|]. vm_compute. discriminate. }
    split; [reflexivity|]. apply Hm. reflexivity.
Defined.

(** Every accepted cross trade is decoded with zero shares, whatever the shares field of
    the wire message holds. *)
Theorem cross_trade_has_no_shares buf len out m :
  bytes_ok buf → len ≤ zlen buf → buf.[0] = Some 81 →
  decode (Some buf) len out = Some (true, m) → type m = CrossTrade ∧ shares m = 0.
Proof.
  intros Hok Hl H0 E. destruct (decide (11 ≤ len)).
  - destruct (decode_in_buf buf len out) as (m' & t & Ht & E' & _ & Hty & Hs); [done|lia|].
    rewrite E' in E. injection E as Hb ->. apply bool_decide_eq_true in Hb as [_ Hlen].
    rewrite H0 in Ht. injection Ht as <-. rewrite bool_decide_true in Hty by done. auto.
  - unfold decode in E. destruct (Z.ltb_spec len 11); [done|lia].
Qed.

(** A cross of 500 shares at price 12.3400. *)

Definition cross_bytes : list Z :=
  [81; 0; 1; 0; 0; 0; 0; 0; 0; 0; 9; 0; 0; 0; 0; 0; 0; 1; 244] ++
  [65; 66; 67; 68; 32; 32; 32; 32] ++ [0; 1; 226; 8; 0; 0; 0; 0; 0; 0; 0; 5; 79].

Lemma cross_trade_has_no_shares_witness :
  ∃ m, decode (Some cross_bytes) 40 message0 = Some (true, m) ∧
       price m = 123400 ∧ type m = CrossTrade ∧ shares m = 0.
Proof.
  destruct (decode (Some cross_bytes) 40 message0) as [[[] m]|] eqn:E; try (vm_compute in E; discriminate).
  exists m. split; [reflexivity|]. split; [vm_compute in E; by injection E as <-|].
  apply (cross_trade_has_no_shares cross_bytes 40 message0 m);
    [apply (bool_decide_unpack _); vm_compute; exact I|vm_compute; discriminate|reflexivity|exact E].
Defined.
