(* ===== verification/OrderBook.v ===== *)
(** [BasicOrderBook<LevelStore>] (include/book/order_book.hpp): the single-instrument book
    reconstructor.  It is generic in the level store, as the class template is, through the
    interface [LevelStore]; orders live in an [ObjectPool] and are found through the
    [order_ref -> handle] index, an [std::unordered_map].  An operation is [None] exactly
    when the code would access the pool or a level vector outside its bounds. *)
From S2P Require Export LevelStore ObjectPool Itch.

Record Order := mkOrder { o_side : Side; o_price : Price; o_shares : Qty }.

(** [Order{}]. *)

Definition order0 : Order := mkOrder SideNone 0 0.

#[global] Instance Order_eq_dec : EqDecision Order.
Proof. solve_decision. Defined.

Record BasicOrderBook (F : Compare → Type) := mkBook {
  bids_ : F Greater;
  asks_ : F Less;
  orders_ : ObjectPool Order;
  index_ : gmap OrderRef Z;
}.

Arguments mkBook {F} _ _ _ _.
Arguments bids_ {F} _.
Arguments asks_ {F} _.
Arguments orders_ {F} _.
Arguments index_ {F} _.

Section OrderBook.
Context {F : Compare → Type} `{LevelStore F}.
Implicit Types b : BasicOrderBook F.

Definition book0 : BasicOrderBook F :=
  mkBook (ls_empty Greater) (ls_empty Less) ObjectPool.empty ∅.

(** * Updates *)

Definition inc_level b (sd : Side) (p : Price) (q : Qty) : option (BasicOrderBook F) :=
  if decide (sd = Buy) then
    bids ← ls_inc (bids_ b) p q; Some (mkBook bids (asks_ b) (orders_ b) (index_ b))
  else asks ← ls_inc (asks_ b) p q; Some (mkBook (bids_ b) asks (orders_ b) (index_ b)).

Definition dec_level b (sd : Side) (p : Price) (d : Qty) : option (BasicOrderBook F) :=
  if decide (sd = Buy) then
    bids ← ls_dec (bids_ b) p d; Some (mkBook bids (asks_ b) (orders_ b) (index_ b))
  else asks ← ls_dec (asks_ b) p d; Some (mkBook (bids_ b) asks (orders_ b) (index_ b)).

Definition add b (ref : OrderRef) (sd : Side) (p : Price) (q : Qty) :
    option (BasicOrderBook F) :=
  if q =? 0 then Some b
  else
    let '(h, pool) := alloc order0 (orders_ b) in
    pool ← set pool h (mkOrder sd p q);
    inc_level (mkBook (bids_ b) (asks_ b) pool (<[ref := h]> (index_ b))) sd p q.

(** [orders_.free(it->second); index_.erase(it);] *)

Definition drop_order b (ref : OrderRef) (h : Z) : BasicOrderBook F :=
  mkBook (bids_ b) (asks_ b) (free (orders_ b) h) (delete ref (index_ b)).

Definition reduce b (ref : OrderRef) (qty : Qty) : option (bool * BasicOrderBook F) :=
  match index_ b !! ref with
  | None => Some (false, b)
  | Some h =>
      o ← get (orders_ b) h;
      let d := if qty <? o_shares o then qty else o_shares o in
      let o' := mkOrder (o_side o) (o_price o) (u32 (o_shares o - d)) in
      pool ← set (orders_ b) h o';
      b' ← dec_level (mkBook (bids_ b) (asks_ b) pool (index_ b)) (o_side o) (o_price o) d;
      Some (true, if o_shares o' =? 0 then drop_order b' ref h else b')
  end.

Definition remove b (ref : OrderRef) : option (bool * BasicOrderBook F) :=
  match index_ b !! ref with
  | None => Some (false, b)
  | Some h =>
      o ← get (orders_ b) h;
      b' ← dec_level b (o_side o) (o_price o) (o_shares o);
      Some (true, drop_order b' ref h)
  end.

Definition replace b (orig new : OrderRef) (q : Qty) (p : Price) :
    option (bool * BasicOrderBook F) :=
  match index_ b !! orig with
  | None => Some (false, b)
  | Some h =>
      o ← get (orders_ b) h;
      r ← remove b orig;
      b' ← add r.2 new (o_side o) p q;
      Some (true, b')
  end.

Definition apply b (m : Message) : option (BasicOrderBook F) :=
  match type m with
  | AddOrder | AddOrderMpid => add b (order_ref m) (side m) (price m) (shares m)
  | OrderExecuted | OrderExecutedWithPrice | OrderCancel =>
      r ← reduce b (order_ref m) (shares m); Some r.2
  | OrderDelete => r ← remove b (order_ref m); Some r.2
  | OrderReplace => r ← replace b (order_ref m) (new_order_ref m) (shares m) (price m); Some r.2
  | _ => Some b
  end.

Fixpoint apply_all b (ms : list Message) : option (BasicOrderBook F) :=
  match ms with
  | [] => Some b
  | m :: ms => b' ← apply b m; apply_all b' ms
  end.

(** * Queries *)

Definition best_bid b : option (option (Price * Qty)) := ls_best (bids_ b).

Definition best_ask b : option (option (Price * Qty)) := ls_best (asks_ b).

Definition qty_at b (sd : Side) (p : Price) : option Qty :=
  if decide (sd = Buy) then ls_at (bids_ b) p else ls_at (asks_ b) p.

Definition order_count b : Z := Z.of_nat (size (index_ b)).

Definition bid_levels b : Z := ls_size (bids_ b).

Definition ask_levels b : Z := ls_size (asks_ b).

Definition depth b (sd : Side) (n : nat) : option (list (Price * Qty)) :=
  if decide (sd = Buy) then ls_top (bids_ b) n else ls_top (asks_ b) n.

Definition bids b (n : nat) : option (list (Price * Qty)) := ls_top (bids_ b) n.

Definition asks b (n : nat) : option (list (Price * Qty)) := ls_top (asks_ b) n.

(** * The consistency check *)

(** [m[p] += q] on a [std::map<Price, Qty, Compare>]. *)

Definition bump (c : Compare) (m : list (Price * Qty)) (p : Price) (q : Qty) :
    list (Price * Qty) :=
  put c m p (u32 (default 0 (StdMap.find c m p) + q)).

(** The loop over [index_]; [iter] is the order in which the unordered map is traversed.
    [Some None] is the early [return false]. *)

Fixpoint rebuild b (iter : list (OrderRef * Z)) (rb ra : list (Price * Qty)) :
    option (option (list (Price * Qty) * list (Price * Qty))) :=
  match iter with
  | [] => Some (Some (rb, ra))
  | (_, h) :: iter =>
      o ← get (orders_ b) h;
      if o_shares o =? 0 then Some None
      else
        match o_side o with
        | Buy => rebuild b iter (bump Greater rb (o_price o) (o_shares o)) ra
        | Sell => rebuild b iter rb (bump Less ra (o_price o) (o_shares o))
        | _ => Some None
        end
  end.

(** [for (kv : rebuilt) if (store.at(kv.first) != kv.second) return false;] *)

Fixpoint levels_match {c} (s : F c) (kvs : list (Price * Qty)) : option bool :=
  match kvs with
  | [] => Some true
  | (p, q) :: kvs => v ← ls_at s p; if v =? q then levels_match s kvs else Some false
  end.

Definition invariant_ok b (iter : list (OrderRef * Z)) : option bool :=
  r ← rebuild b iter [] [];
  match r with
  | None => Some false
  | Some (rb, ra) =>
      if negb (zlen rb =? ls_size (bids_ b)) then Some false
      else if negb (zlen ra =? ls_size (asks_ b)) then Some false
      else
        ok ← levels_match (bids_ b) rb;
        if (ok : bool) then levels_match (asks_ b) ra else Some false
  end.

End OrderBook.
