(* ===== verification/BookSpec.v ===== *)
(** The abstract order book and the proof that [BasicOrderBook] implements it, for every
    level store that satisfies the contract [LevelStoreSpec].

    The abstract book [abook] maps order references to orders and prices to quantities; it
    has no pool, no handles and no free list.  [book_rep] is the simulation relation.  The
    simulation needs two bounds, both part of the 32-bit types of the code: a level total
    stays below [2^32] ([add_fits]) and the pool has fewer than [2^32] slots. *)
From S2P Require Export OrderBook.

(** * The abstract book *)

Record abook := mkAbs {
  ab_orders : gmap OrderRef Order;
  ab_bids : gmap Price Qty;
  ab_asks : gmap Price Qty;
}.

Definition ab0 : abook := mkAbs ∅ ∅ ∅.

Definition ab_levels (a : abook) (sd : Side) : gmap Price Qty :=
  if decide (sd = Buy) then ab_bids a else ab_asks a.

(** The book with other orders and with the levels of one side updated by [f]. *)

Definition ab_update (a : abook) (os : gmap OrderRef Order) (sd : Side)
    (f : gmap Price Qty → gmap Price Qty) : abook :=
  if decide (sd = Buy) then mkAbs os (f (ab_bids a)) (ab_asks a)
  else mkAbs os (ab_bids a) (f (ab_asks a)).

Definition ab_add (a : abook) (ref : OrderRef) (sd : Side) (p : Price) (q : Qty) : abook :=
  if q =? 0 then a
  else ab_update a (<[ref := mkOrder sd p q]> (ab_orders a)) sd (λ m, lv_inc m p q).

Definition ab_remove (a : abook) (ref : OrderRef) : bool * abook :=
  match ab_orders a !! ref with
  | None => (false, a)
  | Some o =>
      (true, ab_update a (delete ref (ab_orders a)) (o_side o)
               (λ m, lv_dec m (o_price o) (o_shares o)))
  end.

Definition ab_reduce (a : abook) (ref : OrderRef) (qty : Qty) : bool * abook :=
  match ab_orders a !! ref with
  | None => (false, a)
  | Some o =>
      let d := Z.min qty (o_shares o) in
      let os := if decide (d = o_shares o) then delete ref (ab_orders a)
                else <[ref := mkOrder (o_side o) (o_price o) (o_shares o - d)]> (ab_orders a) in
      (true, ab_update a os (o_side o) (λ m, lv_dec m (o_price o) d))
  end.

Definition ab_replace (a : abook) (orig new : OrderRef) (q : Qty) (p : Price) : bool * abook :=
  match ab_orders a !! orig with
  | None => (false, a)
  | Some o => (true, ab_add (ab_remove a orig).2 new (o_side o) p q)
  end.

Definition ab_apply (a : abook) (m : Message) : abook :=
  match type m with
  | AddOrder | AddOrderMpid => ab_add a (order_ref m) (side m) (price m) (shares m)
  | OrderExecuted | OrderExecutedWithPrice | OrderCancel =>
      (ab_reduce a (order_ref m) (shares m)).2
  | OrderDelete => (ab_remove a (order_ref m)).2
  | OrderReplace => (ab_replace a (order_ref m) (new_order_ref m) (shares m) (price m)).2
  | _ => a
  end.

Definition ab_run (a : abook) (ms : list Message) : abook := foldl ab_apply a ms.

(** * The bounds *)

Definition add_fits (a : abook) (sd : Side) (p : Price) (q : Qty) : Prop :=
  lv_at (ab_levels a sd) p + q < 2 ^ 32.

Definition msg_fits (a : abook) (m : Message) : Prop :=
  match type m with
  | AddOrder | AddOrderMpid => add_fits a (side m) (price m) (shares m)
  | OrderReplace =>
      match ab_orders a !! order_ref m with
      | None => True
      | Some o => add_fits (ab_remove a (order_ref m)).2 (o_side o) (price m) (shares m)
      end
  | _ => True
  end.

Fixpoint run_fits (a : abook) (ms : list Message) : Prop :=
  match ms with
  | [] => True
  | m :: ms => msg_fits a m ∧ run_fits (ab_apply a m) ms
  end.

#[global] Instance msg_fits_dec a m : Decision (msg_fits a m).
Proof. unfold msg_fits, add_fits. destruct (type m); try destruct (_ !! _); apply _. Defined.

#[global] Instance run_fits_dec a ms : Decision (run_fits a ms).
Proof. revert a. induction ms; intros; simpl; apply _. Defined.

(** * The simulation relation *)

Section Simulation.
Context {F : Compare → Type} `{LevelStore F}.
Implicit Types b : BasicOrderBook F.
Implicit Types os : gmap OrderRef Order.

(** The pool and the index represent the orders [os]: indexed handles are in use, distinct,
    and hold the orders.  [used] may be larger: the slot of an order whose reference is
    added again is never freed. *)

Record orders_rep b os (used : gset Z) : Prop := {
  or_pool : pool_ok (orders_ b) used;
  or_used : ∀ ref h, index_ b !! ref = Some h → h ∈ used;
  or_inj : ∀ r1 r2 h, index_ b !! r1 = Some h → index_ b !! r2 = Some h → r1 = r2;
  or_lookup : ∀ ref, os !! ref = index_ b !! ref ≫= get (orders_ b);
  or_shares : map_Forall (λ _ o, 0 < o_shares o < 2 ^ 32) os;
}.

Lemma orders_rep_some b os used ref h :
  orders_rep b os used → index_ b !! ref = Some h →
  ∃ o, get (orders_ b) h = Some o ∧ os !! ref = Some o ∧ 0 < o_shares o < 2 ^ 32.
Proof.
  intros Hr Hi. destruct (pool_get _ _ h (or_pool _ _ _ Hr)) as [o Ho].
  { by eapply or_used. }
  exists o. assert (Hl : os !! ref = Some o) by (rewrite (or_lookup _ _ _ Hr), Hi; done).
  split_and!; [done|done|..]; by apply (or_shares _ _ _ Hr _ _ Hl).
Qed.

Lemma orders_rep_none b os used ref :
  orders_rep b os used → index_ b !! ref = None → os !! ref = None.
Proof. intros Hr Hi. by rewrite (or_lookup _ _ _ Hr), Hi. Qed.

Lemma orders_rep_count b os used :
  orders_rep b os used → order_count b = Z.of_nat (size os).
Proof.
  intros Hr. unfold order_count. f_equal. rewrite <- !size_dom. f_equal.
  apply set_eq. intros ref. rewrite !elem_of_dom. destruct (index_ b !! ref) as [h|] eqn:Hi.
  - destruct (orders_rep_some b os used ref h Hr Hi) as (o & _ & -> & _). done.
  - by rewrite (orders_rep_none b os used ref Hr Hi).
Qed.

(** [orders_rep] does not depend on the levels. *)
Lemma orders_rep_levels b os used bs as_ :
  orders_rep b os used → orders_rep (mkBook bs as_ (orders_ b) (index_ b)) os used.
Proof. intros []. by split. Qed.

(** Storing a new order. *)
Lemma orders_rep_add b os used ref o h pool :
  orders_rep b os used → 0 < o_shares o < 2 ^ 32 → capacity (orders_ b) < 2 ^ 32 →
  alloc order0 (orders_ b) = (h, pool) →
  ∃ pool', set pool h o = Some pool' ∧ capacity pool' ≤ capacity (orders_ b) + 1 ∧
    ∀ bs as_, orders_rep (mkBook bs as_ pool' (<[ref := h]> (index_ b)))
                (<[ref := o]> os) ({[h]} ∪ used).
Proof.
  intros Hr Ho Hc Ha.
  destruct (pool_alloc _ _ _ _ _ (or_pool _ _ _ Hr) Hc Ha) as (Hn & Hp & Hk & Hcap).
  destruct (pool_set pool ({[h]} ∪ used) h o Hp) as (pool' & -> & Hp' & Hg & Hc');
    [set_solver|].
  exists pool'. split_and!; [done|lia|]. intros bs as_. split; simpl; [done| | | |].
  - intros r k. rewrite lookup_insert_Some. intros [[-> ->]|[_ Hi]]; [set_solver|].
    apply (or_used _ _ _ Hr) in Hi. set_solver.
  - intros r1 r2 k. rewrite !lookup_insert_Some.
    intros [[<- <-]|[? H1]] [[<- ?]|[? H2]]; subst; try done.
    + by apply (or_used _ _ _ Hr) in H2.
    + by apply (or_used _ _ _ Hr) in H1.
    + by eapply (or_inj _ _ _ Hr).
  - intros r. destruct (decide (ref = r)) as [<-|Hne].
    + rewrite !lookup_insert_eq. simpl. by rewrite Hg, decide_True.
    + rewrite !lookup_insert_ne by done. rewrite (or_lookup _ _ _ Hr r).
      destruct (index_ b !! r) as [k|] eqn:Hi; [|done]. simpl.
      apply (or_used _ _ _ Hr) in Hi. rewrite Hg, decide_False by (intros ->; done).
      symmetry. by apply Hk.
  - apply map_Forall_insert_2; [done|]. apply Hr.
Qed.

(** Overwriting the slot of an indexed order. *)
Lemma orders_rep_set b os used ref h o :
  orders_rep b os used → index_ b !! ref = Some h → 0 < o_shares o < 2 ^ 32 →
  ∃ pool, set (orders_ b) h o = Some pool ∧ capacity pool = capacity (orders_ b) ∧
    ∀ bs as_, orders_rep (mkBook bs as_ pool (index_ b)) (<[ref := o]> os) used.
Proof.
  intros Hr Hi Ho.
  destruct (pool_set (orders_ b) used h o) as (pool & -> & Hp & Hg & Hc);
    [apply Hr|by eapply or_used|].
  exists pool. split_and!; [done|done|]. intros bs as_. split; simpl; [done|apply Hr|apply Hr| |].
  - intros r. destruct (decide (ref = r)) as [<-|Hne].
    + rewrite lookup_insert_eq, Hi. simpl. by rewrite Hg, decide_True.
    + rewrite lookup_insert_ne by done. rewrite (or_lookup _ _ _ Hr r).
      destruct (index_ b !! r) as [k|] eqn:Hk; [|done]. simpl.
      rewrite Hg, decide_False; [done|]. intros ->. apply Hne. by eapply (or_inj _ _ _ Hr).
  - apply map_Forall_insert_2; [done|]. apply Hr.
Qed.

(** Dropping an indexed order, whatever its slot holds now. *)
Lemma orders_rep_drop b b' os used ref h :
  orders_rep b os used → index_ b !! ref = Some h →
  index_ b' = index_ b → pool_ok (orders_ b') used →
  (∀ k, k ≠ h → get (orders_ b') k = get (orders_ b) k) →
  orders_rep (drop_order b' ref h) (delete ref os) (used ∖ {[h]}).
Proof.
  intros Hr Hi Hx Hp Hg. split; unfold drop_order; simpl; rewrite ?Hx.
  - apply pool_free; [done|]. by eapply or_used.
  - intros r k. rewrite lookup_delete_Some. intros [Hne Hk].
    pose proof (or_used _ _ _ Hr _ _ Hk). assert (k ≠ h); [|set_solver].
    intros ->. apply Hne. by eapply (or_inj _ _ _ Hr).
  - intros r1 r2 k. rewrite !lookup_delete_Some. intros [_ ?] [_ ?].
    by eapply (or_inj _ _ _ Hr).
  - intros r. destruct (decide (ref = r)) as [<-|Hne].
    + by rewrite !lookup_delete_eq.
    + rewrite !lookup_delete_ne by done. rewrite (or_lookup _ _ _ Hr r).
      destruct (index_ b !! r) as [k|] eqn:Hk; [|done]. simpl.
      change (get (free (orders_ b') h) k) with (get (orders_ b') k).
      symmetry. apply Hg. intros ->. apply Hne. by eapply (or_inj _ _ _ Hr).
  - apply map_Forall_delete. apply Hr.
Qed.

(** * The operations up to their level update *)

(** [b'] differs from [b] in its levels only. *)

Definition same_orders b b' : Prop := orders_ b' = orders_ b ∧ index_ b' = index_ b.

Lemma same_orders_rep b b' os used : same_orders b b' → orders_rep b os used → orders_rep b' os used.
Proof.
  intros [Ho Hi] Hr. destruct b' as [bs as_ os' ix]. simpl in *. subst. by apply orders_rep_levels.
Qed.

Lemma inc_level_same b sd p q b' : inc_level b sd p q = Some b' → same_orders b b'.
Proof. unfold inc_level. case_decide; intros E; inv_bind E; by simplify_eq. Qed.

Lemma dec_level_same b sd p q b' : dec_level b sd p q = Some b' → same_orders b b'.
Proof. unfold dec_level. case_decide; intros E; inv_bind E; by simplify_eq. Qed.

Lemma add_orders b os used ref sd p q :
  orders_rep b os used → 0 < q < 2 ^ 32 → capacity (orders_ b) < 2 ^ 32 →
  ∃ b1 used1, add b ref sd p q = inc_level b1 sd p q ∧
    bids_ b1 = bids_ b ∧ asks_ b1 = asks_ b ∧
    orders_rep b1 (<[ref := mkOrder sd p q]> os) used1 ∧
    capacity (orders_ b1) ≤ capacity (orders_ b) + 1.
Proof.
  intros Hr Hq Hc. unfold add. destruct (Z.eqb_spec q 0); [lia|].
  destruct (alloc order0 (orders_ b)) as [h pool] eqn:Ha.
  destruct (orders_rep_add b os used ref (mkOrder sd p q) h pool Hr Hq Hc Ha)
    as (pool' & -> & Hcap & Hrep).
  simpl. eexists _, _. split; [done|]. split_and!; [done|done|apply Hrep|done].
Qed.

Lemma remove_orders b os used ref h o :
  orders_rep b os used → index_ b !! ref = Some h → os !! ref = Some o →
  remove b ref = (b' ← dec_level b (o_side o) (o_price o) (o_shares o);
                  Some (true, drop_order b' ref h)) ∧
  ∀ b', same_orders b b' → orders_rep (drop_order b' ref h) (delete ref os) (used ∖ {[h]}).
Proof.
  intros Hr Hi Ho. unfold remove. rewrite Hi.
  destruct (orders_rep_some b os used ref h Hr Hi) as (o' & -> & Ho' & _). simplify_eq/=.
  split; [done|]. intros b' [E1 E2]. eapply orders_rep_drop; try done.
  - rewrite E1. apply Hr.
  - by rewrite E1.
Qed.

Lemma reduce_orders b os used ref h o qty :
  orders_rep b os used → index_ b !! ref = Some h → os !! ref = Some o → 0 ≤ qty →
  ∃ b1 fin used1, let d := Z.min qty (o_shares o) in
    reduce b ref qty = (b' ← dec_level b1 (o_side o) (o_price o) d; Some (true, fin b')) ∧
    bids_ b1 = bids_ b ∧ asks_ b1 = asks_ b ∧
    capacity (orders_ b1) = capacity (orders_ b) ∧
    ∀ b', same_orders b1 b' →
      bids_ (fin b') = bids_ b' ∧ asks_ (fin b') = asks_ b' ∧
      capacity (orders_ (fin b')) = capacity (orders_ b') ∧
      orders_rep (fin b')
        (if decide (d = o_shares o) then delete ref os
         else <[ref := mkOrder (o_side o) (o_price o) (o_shares o - d)]> os) used1.
Proof.
  intros Hr Hi Ho Hq. unfold reduce. rewrite Hi.
  destruct (orders_rep_some b os used ref h Hr Hi) as (o' & -> & Ho' & Hs). simplify_eq/=.
  replace (if qty <? o_shares o then qty else o_shares o) with (Z.min qty (o_shares o))
    by (destruct (Z.ltb_spec qty (o_shares o)); lia).
  set (d := Z.min qty (o_shares o)). rewrite u32_small by lia.
  set (o' := mkOrder _ _ (o_shares o - d)).
  destruct (pool_set (orders_ b) used h o') as (pool & Es & Hp & Hg & Hcap);
    [apply Hr|by eapply or_used|]. rewrite Es. simpl.
  destruct (Z.eqb_spec (o_shares o - d) 0) as [Hz|Hz].
  - eexists _, (λ b', drop_order b' ref h), (used ∖ {[h]}). split; [done|].
    split_and!; [done..|]. intros b' [E1 E2]. split_and!; [done..|].
    rewrite decide_True by lia. eapply orders_rep_drop; [done|done|by rewrite E2| |].
    + by rewrite E1.
    + intros k Hk. rewrite E1. simpl. by rewrite Hg, decide_False.
  - destruct (orders_rep_set b os used ref h o' Hr Hi) as (pool' & Es' & _ & Hrep).
    { subst o'. simpl. lia. }
    assert (pool' = pool) as -> by congruence.
    eexists (mkBook (bids_ b) (asks_ b) pool (index_ b)), (λ b', b'), used. split; [done|].
    split_and!; [done..|]. intros b' Hb'. split_and!; [done..|].
    rewrite decide_False by lia. by eapply same_orders_rep.
Qed.

End Simulation.

(** * The book implements the abstract book *)

Section Refinement.
Context {F : Compare → Type} `{LevelStoreSpec F}.
Implicit Types b : BasicOrderBook F.
Implicit Types a : abook.

Record book_rep b a : Prop := {
  br_orders : ∃ used, orders_rep b (ab_orders a) used;
  br_bids : ls_rep (bids_ b) (ab_bids a);
  br_asks : ls_rep (asks_ b) (ab_asks a);
}.

Definition cap b : Z := capacity (orders_ b).

Lemma book0_rep : book_rep book0 ab0.
Proof.
  split; [|apply ls_empty_rep..]. exists ∅.
  split; simpl; [apply empty_ok|by intros ?? ?|by intros ??? ?|done|].
  intros ??. by rewrite lookup_empty.
Qed.

(** A level update of the book is the level update of the abstract book. *)
Lemma inc_level_rep b b1 a os used sd p q :
  book_rep b a → bids_ b1 = bids_ b → asks_ b1 = asks_ b → orders_rep b1 os used →
  price_ok p → 0 < q → add_fits a sd p q →
  ∃ b', inc_level b1 sd p q = Some b' ∧ same_orders b1 b' ∧
        book_rep b' (ab_update a os sd (λ m, lv_inc m p q)).
Proof.
  intros [_ Hb Ha] Eb Ea Ho Hp Hq Hf. unfold inc_level, add_fits, ab_levels, ab_update in *.
  rewrite Eb, Ea. case_decide.
  - destruct (ls_inc_rep _ _ _ p q Hb Hp Hq Hf) as (s & -> & Hs). simpl. eexists.
    split; [done|]. split; [done|]. split; simpl; [|done|done].
    exists used. by apply orders_rep_levels.
  - destruct (ls_inc_rep _ _ _ p q Ha Hp Hq Hf) as (s & -> & Hs). simpl. eexists.
    split; [done|]. split; [done|]. split; simpl; [|done|done].
    exists used. by apply orders_rep_levels.
Qed.

Lemma dec_level_rep b b1 a sd p q :
  book_rep b a → bids_ b1 = bids_ b → asks_ b1 = asks_ b →
  ∃ b', dec_level b1 sd p q = Some b' ∧ same_orders b1 b' ∧
    ∀ os, let a' := ab_update a os sd (λ m, lv_dec m p q) in
          ab_orders a' = os ∧ ls_rep (bids_ b') (ab_bids a') ∧ ls_rep (asks_ b') (ab_asks a').
Proof.
  intros [_ Hb Ha] Eb Ea. unfold dec_level, ab_update. rewrite Eb, Ea. case_decide.
  - destruct (ls_dec_rep _ _ _ p q Hb) as (s & -> & Hs). simpl. by eexists.
  - destruct (ls_dec_rep _ _ _ p q Ha) as (s & -> & Hs). simpl. by eexists.
Qed.

Lemma add_rep b a ref sd p q :
  book_rep b a → price_ok p → 0 ≤ q < 2 ^ 32 → add_fits a sd p q → cap b < 2 ^ 32 →
  ∃ b', add b ref sd p q = Some b' ∧ book_rep b' (ab_add a ref sd p q) ∧ cap b' ≤ cap b + 1.
Proof.
  intros Hr Hp Hq Hf Hc. unfold ab_add. destruct (Z.eqb_spec q 0) as [->|Hq0].
  { exists b. split_and!; [done|done|lia]. }
  pose proof Hr as [[used Ho] _ _].
  destruct (add_orders b (ab_orders a) used ref sd p q Ho) as (b1 & u1 & -> & Eb & Ea & Ho1 & Hc1);
    [lia|done|].
  destruct (inc_level_rep b b1 a _ u1 sd p q Hr Eb Ea Ho1) as (b' & -> & Hs & Hr'); [done|lia|done|].
  exists b'. split_and!; [done|done|]. unfold cap. by rewrite (proj1 Hs).
Qed.

Lemma remove_rep b a ref :
  book_rep b a →
  ∃ b', remove b ref = Some ((ab_remove a ref).1, b') ∧ book_rep b' (ab_remove a ref).2 ∧
        cap b' = cap b.
Proof.
  intros Hr. pose proof Hr as [[used Ho] _ _]. unfold ab_remove.
  destruct (index_ b !! ref) as [h|] eqn:Hi.
  - destruct (orders_rep_some b _ used ref h Ho Hi) as (o & _ & Ho' & _). rewrite Ho'.
    destruct (remove_orders b _ used ref h o Ho Hi Ho') as [-> Hd].
    destruct (dec_level_rep b b a (o_side o) (o_price o) (o_shares o) Hr eq_refl eq_refl)
      as (b' & -> & Hs & Hl). simpl.
    eexists. split; [done|].
    destruct (Hl (delete ref (ab_orders a))) as (E & Hb' & Ha'). split.
    + split; simpl; [|done|done]. rewrite E. eexists. by apply Hd.
    + unfold cap, drop_order, free, capacity. simpl. by rewrite (proj1 Hs).
  - rewrite (orders_rep_none b _ used ref Ho Hi). exists b. unfold remove. by rewrite Hi.
Qed.

Lemma reduce_rep b a ref qty :
  book_rep b a → 0 ≤ qty →
  ∃ b', reduce b ref qty = Some ((ab_reduce a ref qty).1, b') ∧
        book_rep b' (ab_reduce a ref qty).2 ∧ cap b' = cap b.
Proof.
  intros Hr Hq. pose proof Hr as [[used Ho] _ _]. unfold ab_reduce.
  destruct (index_ b !! ref) as [h|] eqn:Hi.
  - destruct (orders_rep_some b _ used ref h Ho Hi) as (o & _ & Ho' & _). rewrite Ho'.
    destruct (reduce_orders b _ used ref h o qty Ho Hi Ho' Hq)
      as (b1 & fin & u1 & -> & Eb & Ea & Hc & Hfin).
    destruct (dec_level_rep b b1 a (o_side o) (o_price o) (Z.min qty (o_shares o)) Hr Eb Ea)
      as (b' & -> & Hs & Hl). simpl.
    destruct (Hfin b' Hs) as (Fb & Fa & Fc & Fo). eexists. split; [done|].
    match goal with |- book_rep _ (ab_update _ ?os _ _) ∧ _ => destruct (Hl os) as (E & Hb' & Ha') end.
    split.
    + split; [rewrite E; by eexists|by rewrite Fb|by rewrite Fa].
    + unfold cap. by rewrite Fc, (proj1 Hs).
  - rewrite (orders_rep_none b _ used ref Ho Hi). exists b. unfold reduce. by rewrite Hi.
Qed.

Lemma replace_rep b a orig new q p :
  book_rep b a → price_ok p → 0 ≤ q < 2 ^ 32 → cap b < 2 ^ 32 →
  (∀ o, ab_orders a !! orig = Some o → add_fits (ab_remove a orig).2 (o_side o) p q) →
  ∃ b', replace b orig new q p = Some ((ab_replace a orig new q p).1, b') ∧
        book_rep b' (ab_replace a orig new q p).2 ∧ cap b' ≤ cap b + 1.
Proof.
  intros Hr Hp Hq Hc Hf. pose proof Hr as [[used Ho] _ _]. unfold ab_replace, replace.
  destruct (index_ b !! orig) as [h|] eqn:Hi.
  - destruct (orders_rep_some b _ used orig h Ho Hi) as (o & -> & Ho' & _). rewrite Ho'. simpl.
    destruct (remove_rep b a orig Hr) as (b1 & -> & Hr1 & Hc1). simpl.
    destruct (add_rep b1 _ new (o_side o) p q Hr1 Hp Hq (Hf o Ho')) as (b2 & -> & Hr2 & Hc2);
      [by rewrite Hc1|].
    exists b2. split_and!; [done|done|lia].
  - rewrite (orders_rep_none b _ used orig Ho Hi). exists b. split_and!; [done|done|simpl; lia].
Qed.

Lemma apply_rep b a m :
  book_rep b a → msg_ok m → msg_fits a m → cap b < 2 ^ 32 →
  ∃ b', apply b m = Some b' ∧ book_rep b' (ab_apply a m) ∧ cap b' ≤ cap b + 1.
Proof.
  intros Hr Hm Hf Hc. pose proof (mo_shares m Hm) as Hs. pose proof (mo_price m Hm) as Hp.
  unfold fits in Hs. unfold apply, ab_apply, msg_fits in *.
  assert (Hred : ∃ b', (r ← reduce b (order_ref m) (shares m); Some r.2) = Some b' ∧
            book_rep b' (ab_reduce a (order_ref m) (shares m)).2 ∧ cap b' ≤ cap b + 1).
  { destruct (reduce_rep b a (order_ref m) (shares m) Hr) as (b' & -> & ? & ?); [lia|].
    exists b'. split_and!; [done|done|lia]. }
  destruct (type m); try done; try (exists b; split_and!; [done|done|lia]).
  - by apply add_rep.
  - by apply add_rep.
  - destruct (remove_rep b a (order_ref m) Hr) as (b' & -> & ? & ?).
    exists b'. split_and!; [done|done|lia].
  - destruct (replace_rep b a (order_ref m) (new_order_ref m) (shares m) (price m) Hr)
      as (b' & -> & ? & ?); [done|done|done|by intros o Ho; rewrite Ho in Hf|].
    exists b'. split_and!; [done|done|lia].
Qed.

Lemma apply_all_rep ms b a :
  book_rep b a → Forall msg_ok ms → run_fits a ms → cap b + zlen ms ≤ 2 ^ 32 →
  ∃ b', apply_all b ms = Some b' ∧ book_rep b' (ab_run a ms) ∧ cap b' ≤ cap b + zlen ms.
Proof.
  revert b a. induction ms as [|m ms IH]; intros b a Hr Hm Hf Hc.
  { exists b. split_and!; [done|done|]. unfold zlen. simpl. lia. }
  apply Forall_cons in Hm as [Hm Hms]. destruct Hf as [Hf Hfs]. rewrite zlen_cons in Hc.
  pose proof (zlen_nonneg ms).
  destruct (apply_rep b a m Hr Hm Hf) as (b1 & Hb1 & Hr1 & Hc1); [lia|].
  cbn [apply_all]. rewrite Hb1. simpl.
  destruct (IH b1 (ab_apply a m)) as (b2 & -> & Hr2 & Hc2); [done..|lia|].
  exists b2. rewrite zlen_cons. split_and!; [done|done|lia].
Qed.

(** * Every query is answered from the abstract book *)

Lemma query_rep b a :
  book_rep b a →
  best_bid b = Some (head (ladder Greater (ab_bids a))) ∧
  best_ask b = Some (head (ladder Less (ab_asks a))) ∧
  (∀ sd p, qty_at b sd p = Some (lv_at (ab_levels a sd) p)) ∧
  order_count b = Z.of_nat (size (ab_orders a)) ∧
  bid_levels b = Z.of_nat (size (ab_bids a)) ∧
  ask_levels b = Z.of_nat (size (ab_asks a)) ∧
  (∀ n, bids b n = Some (take n (ladder Greater (ab_bids a)))) ∧
  (∀ n, asks b n = Some (take n (ladder Less (ab_asks a)))).
Proof.
  intros [[used Ho] Hb Ha]. split_and!.
  - by apply ls_best_rep.
  - by apply ls_best_rep.
  - intros sd p. unfold qty_at, ab_levels. case_decide; by apply ls_at_rep.
  - by eapply orders_rep_count.
  - by apply ls_size_rep.
  - by apply ls_size_rep.
  - intros n. by apply ls_top_rep.
  - intros n. by apply ls_top_rep.
Qed.

End Refinement.
