(* ===== verification/BookInvariant.v ===== *)
(** The consistency of levels and orders.  [total buy p os] is the number of shares the
    orders [os] rest at price [p] on one side.  Two invariants of the abstract book:
    [covers]: no level is below the total of its orders, on every message stream whose level
    totals fit 32 bits; [consistent]: every level is exactly that total, when no message
    reuses the reference of a resting order.  [BasicOrderBook::invariant_ok] decides
    [consistent] (together with every order having side Buy or Sell). *)
From S2P Require Export BookSpec.

(** * Totals *)

Definition is_buy (sd : Side) : bool := bool_decide (sd = Buy).

Definition contrib (buy : bool) (p : Price) (o : Order) : Qty :=
  if eqb (is_buy (o_side o)) buy && (o_price o =? p) then o_shares o else 0.

Definition lsum (buy : bool) (p : Price) (ol : list Order) : Qty :=
  foldr (λ o acc, contrib buy p o + acc) 0 ol.

Definition total (buy : bool) (p : Price) (os : gmap OrderRef Order) : Qty :=
  lsum buy p (map_to_list os).*2.

Definition lvl (a : abook) (buy : bool) : gmap Price Qty :=
  if buy then ab_bids a else ab_asks a.

Definition covers (a : abook) : Prop :=
  ∀ buy p, total buy p (ab_orders a) ≤ lv_at (lvl a buy) p.

Definition consistent (a : abook) : Prop :=
  ∀ buy p, lv_at (lvl a buy) p = total buy p (ab_orders a).

Definition sides_ok (a : abook) : Prop :=
  map_Forall (λ _ o, o_side o = Buy ∨ o_side o = Sell) (ab_orders a).

(** Quantities and prices stay in the range of their types. *)

Record ab_ok (a : abook) : Prop := {
  ao_lvl : ∀ buy, levels_ok (lvl a buy);
  ao_orders : map_Forall (λ _ o, 0 < o_shares o < 2 ^ 32 ∧ price_ok (o_price o)) (ab_orders a);
}.

(** A message that does not reuse the reference of a resting order. *)

Definition msg_fresh (a : abook) (m : Message) : Prop :=
  match type m with
  | AddOrder | AddOrderMpid => ab_orders a !! order_ref m = None
  | OrderReplace =>
      new_order_ref m = order_ref m ∨ ab_orders a !! new_order_ref m = None
  | _ => True
  end.

(** An add message whose side byte is one of the two sides. *)

Definition msg_sided (m : Message) : Prop :=
  match type m with
  | AddOrder | AddOrderMpid => side m = Buy ∨ side m = Sell
  | _ => True
  end.

Fixpoint run_fresh (a : abook) (ms : list Message) : Prop :=
  match ms with
  | [] => True
  | m :: ms => msg_fresh a m ∧ run_fresh (ab_apply a m) ms
  end.

#[global] Instance msg_fresh_dec a m : Decision (msg_fresh a m).
Proof. unfold msg_fresh. destruct (type m); apply _. Defined.

#[global] Instance msg_sided_dec m : Decision (msg_sided m).
Proof. unfold msg_sided. destruct (type m); apply _. Defined.

#[global] Instance run_fresh_dec a ms : Decision (run_fresh a ms).
Proof. revert a. induction ms; intros; simpl; apply _. Defined.

Lemma contrib_range buy p o : 0 ≤ o_shares o → 0 ≤ contrib buy p o ≤ o_shares o.
Proof. intros. unfold contrib. destruct (_ && _); lia. Qed.

Lemma contrib_self o : contrib (is_buy (o_side o)) (o_price o) o = o_shares o.
Proof. unfold contrib. by rewrite eqb_reflx, Z.eqb_refl. Qed.

Lemma lsum_perm buy p ol1 ol2 : ol1 ≡ₚ ol2 → lsum buy p ol1 = lsum buy p ol2.
Proof. induction 1; simpl; lia. Qed.

Lemma lsum_nonneg buy p ol : Forall (λ o, 0 ≤ o_shares o) ol → 0 ≤ lsum buy p ol.
Proof.
  induction 1 as [|o ol Ho _ IH]; simpl; [lia|]. pose proof (contrib_range buy p o Ho). lia.
Qed.

Lemma total_insert buy p os r o :
  os !! r = None → total buy p (<[r := o]> os) = contrib buy p o + total buy p os.
Proof.
  intros Hr. unfold total.
  by rewrite (lsum_perm buy p _ _ (fmap_Permutation snd _ _ (map_to_list_insert os r o Hr))).
Qed.

Lemma total_delete buy p os r o :
  os !! r = Some o → total buy p (delete r os) = total buy p os - contrib buy p o.
Proof.
  intros Hr. rewrite <- (insert_delete_id os r o Hr) at 2.
  rewrite total_insert by apply lookup_delete_eq. lia.
Qed.

Lemma total_overwrite buy p os r o o' :
  os !! r = Some o →
  total buy p (<[r := o']> os) = total buy p os - contrib buy p o + contrib buy p o'.
Proof.
  intros Hr. rewrite <- insert_delete_eq, total_insert by apply lookup_delete_eq.
  rewrite (total_delete buy p os r o Hr). lia.
Qed.

Lemma total_nonneg buy p os :
  map_Forall (λ _ o, 0 < o_shares o) os → 0 ≤ total buy p os.
Proof.
  intros H. apply lsum_nonneg. apply Forall_forall. intros o Ho.
  apply list_elem_of_fmap in Ho as [[r o'] [-> Hin]]. apply elem_of_map_to_list in Hin.
  apply H in Hin. simpl. lia.
Qed.

(** An order is part of the total at its own price. *)
Lemma contrib_total buy p os r o :
  map_Forall (λ _ o, 0 < o_shares o) os → os !! r = Some o →
  contrib buy p o ≤ total buy p os.
Proof.
  intros H Hr. pose proof (total_nonneg buy p (delete r os) (map_Forall_delete _ _ r H)).
  rewrite (total_delete buy p os r o Hr) in *. lia.
Qed.

(** * Levels after an update *)

Lemma lvl_update a os sd f buy :
  lvl (ab_update a os sd f) buy = if eqb (is_buy sd) buy then f (lvl a buy) else lvl a buy.
Proof.
  unfold ab_update, is_buy, lvl. case_decide; [rewrite bool_decide_true by done|
    rewrite bool_decide_false by done]; by destruct buy.
Qed.

Lemma orders_update a os sd f : ab_orders (ab_update a os sd f) = os.
Proof. unfold ab_update. by case_decide. Qed.

Lemma ab_levels_lvl a sd : ab_levels a sd = lvl a (is_buy sd).
Proof.
  unfold ab_levels, is_buy, lvl. case_decide; [by rewrite bool_decide_true|by rewrite bool_decide_false].
Qed.

Lemma lv_at_add a os sd p q buy p' :
  lv_at (lvl (ab_update a os sd (λ m, lv_inc m p q)) buy) p' =
  lv_at (lvl a buy) p' + (if eqb (is_buy sd) buy && (p =? p') then q else 0).
Proof.
  rewrite lvl_update. destruct (eqb (is_buy sd) buy); simpl; [|lia].
  rewrite lv_at_inc. split_tests; subst; try done; lia.
Qed.

Lemma lv_at_sub a os sd p q buy p' :
  levels_ok (lvl a (is_buy sd)) → 0 ≤ q ≤ lv_at (lvl a (is_buy sd)) p →
  lv_at (lvl (ab_update a os sd (λ m, lv_dec m p q)) buy) p' =
  lv_at (lvl a buy) p' - (if eqb (is_buy sd) buy && (p =? p') then q else 0).
Proof.
  intros Hok Hq. rewrite lvl_update. destruct (eqb (is_buy sd) buy) eqn:E; simpl; [|lia].
  apply eqb_prop in E. subst buy. rewrite lv_at_dec by done.
  split_tests; subst; try done; lia.
Qed.

(** * The levels cover the orders *)

Record ab_inv (a : abook) : Prop := { ai_ok : ab_ok a; ai_covers : covers a }.

Lemma ab_inv_shares a : ab_inv a → map_Forall (λ _ o, 0 < o_shares o) (ab_orders a).
Proof. intros [Hok _] r o Ho. by destruct (ao_orders a Hok r o Ho) as [[? _] _]. Qed.

(** The level of a resting order holds its shares. *)
Lemma covers_order a r o :
  ab_inv a → ab_orders a !! r = Some o →
  0 < o_shares o ≤ lv_at (lvl a (is_buy (o_side o))) (o_price o).
Proof.
  intros Hi Ho. pose proof (contrib_total (is_buy (o_side o)) (o_price o) _ r o (ab_inv_shares a Hi) Ho).
  rewrite contrib_self in *. pose proof (ai_covers a Hi (is_buy (o_side o)) (o_price o)).
  pose proof (ab_inv_shares a Hi r o Ho). simpl in *. lia.
Qed.

Lemma ab0_inv : ab_inv ab0.
Proof.
  split; [split|].
  - intros []; apply map_Forall_empty.
  - apply map_Forall_empty.
  - intros [] p; unfold lvl; simpl; by rewrite lv_at_empty.
Qed.

Lemma ab0_consistent : consistent ab0.
Proof. intros [] p; unfold lvl; simpl; by rewrite lv_at_empty. Qed.

(** The difference between levels and totals after an add: unchanged for a new reference,
    larger by the old order for a reused one. *)
Lemma add_gap a ref sd p q buy p' :
  0 < q →
  lv_at (lvl (ab_add a ref sd p q) buy) p' - total buy p' (ab_orders (ab_add a ref sd p q)) =
  lv_at (lvl a buy) p' - total buy p' (ab_orders a) +
  match ab_orders a !! ref with Some o => contrib buy p' o | None => 0 end.
Proof.
  intros Hq. unfold ab_add. destruct (Z.eqb_spec q 0); [lia|].
  rewrite lv_at_add, orders_update.
  assert (Hc : (if eqb (is_buy sd) buy && (p =? p') then q else 0) =
               contrib buy p' (mkOrder sd p q)) by done.
  rewrite Hc. destruct (ab_orders a !! ref) as [o|] eqn:Ho.
  - rewrite (total_overwrite _ _ _ _ _ _ Ho). lia.
  - rewrite total_insert by done. lia.
Qed.

Lemma remove_gap a ref buy p' :
  ab_inv a →
  lv_at (lvl (ab_remove a ref).2 buy) p' - total buy p' (ab_orders (ab_remove a ref).2) =
  lv_at (lvl a buy) p' - total buy p' (ab_orders a).
Proof.
  intros Hi. unfold ab_remove. destruct (ab_orders a !! ref) as [o|] eqn:Ho; [|done].
  pose proof (covers_order a ref o Hi Ho) as Hc. cbn [snd].
  rewrite lv_at_sub, orders_update; [|apply (ao_lvl a), Hi|lia].
  rewrite (total_delete _ _ _ _ _ Ho). unfold contrib. lia.
Qed.

Lemma reduce_gap a ref qty buy p' :
  ab_inv a → 0 ≤ qty →
  lv_at (lvl (ab_reduce a ref qty).2 buy) p' - total buy p' (ab_orders (ab_reduce a ref qty).2) =
  lv_at (lvl a buy) p' - total buy p' (ab_orders a).
Proof.
  intros Hi Hq. unfold ab_reduce. destruct (ab_orders a !! ref) as [o|] eqn:Ho; [|done].
  pose proof (covers_order a ref o Hi Ho) as Hc. cbn [snd].
  rewrite lv_at_sub, orders_update; [|apply (ao_lvl a), Hi|lia].
  case_decide as Hd.
  - rewrite (total_delete _ _ _ _ _ Ho), Hd. unfold contrib. lia.
  - rewrite (total_overwrite _ _ _ _ _ _ Ho). unfold contrib. simpl.
    destruct (eqb (is_buy (o_side o)) buy && (o_price o =? p')); lia.
Qed.

(** * Preservation *)

(** [total] is below a level quantity, hence below [2^32]. *)
Lemma total_range a buy p :
  ab_inv a → 0 ≤ total buy p (ab_orders a) < 2 ^ 32.
Proof.
  intros Hi. pose proof (total_nonneg buy p _ (ab_inv_shares a Hi)).
  pose proof (ai_covers a Hi buy p). pose proof (levels_ok_at _ p (ao_lvl a (ai_ok a Hi) buy)). lia.
Qed.

Lemma ab_add_ok a ref sd p q :
  ab_ok a → price_ok p → 0 ≤ q < 2 ^ 32 → add_fits a sd p q → ab_ok (ab_add a ref sd p q).
Proof.
  intros [Hl Ho] Hp Hq Hf. unfold ab_add. destruct (Z.eqb_spec q 0); [done|]. split.
  - intros buy. rewrite lvl_update. destruct (eqb (is_buy sd) buy) eqn:E; [|done].
    apply eqb_prop in E. subst buy. unfold add_fits in Hf. rewrite ab_levels_lvl in Hf.
    apply lv_inc_ok; [done|done|lia|done].
  - rewrite orders_update. apply map_Forall_insert_2; [|done]. simpl. split; [lia|done].
Qed.

Lemma ab_remove_ok a ref : ab_ok a → ab_ok (ab_remove a ref).2.
Proof.
  intros Ha. pose proof Ha as [Hl Ho]. unfold ab_remove.
  destruct (ab_orders a !! ref) as [o|] eqn:E; [|done]. cbn [snd]. split.
  - intros buy. rewrite lvl_update. destruct (eqb _ buy); auto with hft.
  - rewrite orders_update. by apply map_Forall_delete.
Qed.

Lemma ab_reduce_ok a ref qty : ab_ok a → 0 ≤ qty → ab_ok (ab_reduce a ref qty).2.
Proof.
  intros Ha Hq. pose proof Ha as [Hl Ho]. unfold ab_reduce.
  destruct (ab_orders a !! ref) as [o|] eqn:E; [|done]. cbn [snd]. split.
  - intros buy. rewrite lvl_update. destruct (eqb _ buy); auto with hft.
  - rewrite orders_update. destruct (Ho _ _ E) as [? ?]. case_decide.
    + by apply map_Forall_delete.
    + apply map_Forall_insert_2; [|done]. simpl. split; [lia|done].
Qed.

Lemma ab_add_inv a ref sd p q :
  ab_inv a → price_ok p → 0 ≤ q < 2 ^ 32 → add_fits a sd p q → ab_inv (ab_add a ref sd p q).
Proof.
  intros Hi Hp Hq Hf. split; [by apply ab_add_ok; [apply Hi|..]|].
  intros buy p'. destruct (Z.eqb_spec q 0) as [->|]; [apply Hi|].
  pose proof (add_gap a ref sd p q buy p'). pose proof (ai_covers a Hi buy p').
  destruct (ab_orders a !! ref) as [o|] eqn:Ho; [|lia].
  pose proof (ab_inv_shares a Hi ref o Ho). pose proof (contrib_range buy p' o).
  simpl in *. lia.
Qed.

Lemma ab_remove_inv a ref : ab_inv a → ab_inv (ab_remove a ref).2.
Proof.
  intros Hi. split; [by apply ab_remove_ok, Hi|]. intros buy p'.
  pose proof (remove_gap a ref buy p' Hi). pose proof (ai_covers a Hi buy p'). lia.
Qed.

Lemma ab_reduce_inv a ref qty : ab_inv a → 0 ≤ qty → ab_inv (ab_reduce a ref qty).2.
Proof.
  intros Hi Hq. split; [by apply ab_reduce_ok; [apply Hi|]|]. intros buy p'.
  pose proof (reduce_gap a ref qty buy p' Hi Hq). pose proof (ai_covers a Hi buy p'). lia.
Qed.

#[export] Hint Resolve ab_add_inv ab_remove_inv ab_reduce_inv : hft.

Lemma ab_apply_inv a m : ab_inv a → msg_ok m → msg_fits a m → ab_inv (ab_apply a m).
Proof.
  intros Hi Hm Hf. pose proof (mo_shares m Hm) as Hs. pose proof (mo_price m Hm) as Hp.
  unfold fits in Hs. unfold ab_apply, msg_fits in *.
  destruct (type m); auto with hft; try (by apply ab_reduce_inv; [|lia]).
  unfold ab_replace. destruct (ab_orders a !! order_ref m); simpl; auto with hft.
Qed.

Lemma ab_run_inv ms a :
  ab_inv a → Forall msg_ok ms → run_fits a ms → ab_inv (ab_run a ms).
Proof.
  revert a. induction ms as [|m ms IH]; intros a Hi Hm Hf; [done|].
  apply Forall_cons in Hm as [Hm Hms]. destruct Hf as [Hf Hfs].
  apply IH; [by apply ab_apply_inv|done|done].
Qed.

(** Without a reused reference the gap between levels and totals does not change. *)
Lemma ab_apply_consistent a m :
  ab_inv a → msg_ok m → msg_fresh a m → consistent a → consistent (ab_apply a m).
Proof.
  intros Hi Hm Hf Hc. pose proof (mo_shares m Hm) as Hs. unfold fits in Hs.
  assert (Hadd : ∀ a' ref sd p, consistent a' → ab_orders a' !! ref = None →
                 consistent (ab_add a' ref sd p (shares m))).
  { intros a' ref sd p Hc' Hn buy p'. destruct (Z.eqb_spec (shares m) 0) as [E|].
    - unfold ab_add. rewrite E. apply Hc'.
    - pose proof (add_gap a' ref sd p (shares m) buy p') as Hg. rewrite Hn in Hg.
      specialize (Hc' buy p'). lia. }
  assert (Hred : consistent (ab_reduce a (order_ref m) (shares m)).2).
  { intros buy p'. pose proof (reduce_gap a (order_ref m) (shares m) buy p' Hi).
    specialize (Hc buy p'). lia. }
  assert (Hrem : consistent (ab_remove a (order_ref m)).2).
  { intros buy p'. pose proof (remove_gap a (order_ref m) buy p' Hi).
    specialize (Hc buy p'). lia. }
  unfold ab_apply, msg_fresh in *. destruct (type m); try done; [by apply Hadd..|].
  unfold ab_replace. destruct (ab_orders a !! order_ref m) as [o|] eqn:Ho; [|done].
  apply Hadd; [done|]. unfold ab_remove. rewrite Ho. cbn [snd]. rewrite orders_update.
  destruct Hf as [->|Hf]; [apply lookup_delete_eq|]. rewrite lookup_delete_ne; [done|].
  intros E. rewrite E in Ho. congruence.
Qed.

Lemma sides_update a os sd f :
  map_Forall (λ _ o, o_side o = Buy ∨ o_side o = Sell) os → sides_ok (ab_update a os sd f).
Proof. unfold sides_ok. by rewrite orders_update. Qed.

Lemma ab_apply_sides a m : msg_sided m → sides_ok a → sides_ok (ab_apply a m).
Proof.
  intros Hm Hs.
  assert (Hadd : ∀ a' ref sd p, sides_ok a' → (sd = Buy ∨ sd = Sell) →
                 sides_ok (ab_add a' ref sd p (shares m))).
  { intros a' ref sd p Hs' Hsd. unfold ab_add. destruct (shares m =? 0); [done|].
    apply sides_update. by apply map_Forall_insert_2. }
  assert (Hrem : ∀ ref, sides_ok (ab_remove a ref).2).
  { intros ref. unfold ab_remove. destruct (ab_orders a !! ref); [|done].
    apply sides_update. by apply map_Forall_delete. }
  assert (Hred : sides_ok (ab_reduce a (order_ref m) (shares m)).2).
  { unfold ab_reduce. destruct (ab_orders a !! order_ref m) as [o|] eqn:Ho; [|done].
    apply sides_update. case_decide; [by apply map_Forall_delete|].
    apply map_Forall_insert_2; [by apply (Hs _ _ Ho)|done]. }
  unfold ab_apply, msg_sided in *. destruct (type m); try done; [by apply Hadd..|].
  unfold ab_replace. destruct (ab_orders a !! order_ref m) as [o|] eqn:Ho; [|done].
  apply Hadd; [done|]. by apply (Hs _ _ Ho).
Qed.

Lemma ab_run_consistent ms a :
  ab_inv a → Forall msg_ok ms → run_fits a ms → run_fresh a ms → consistent a →
  consistent (ab_run a ms).
Proof.
  revert a. induction ms as [|m ms IH]; intros a Hi Hm Hf Hr Hc; [done|].
  apply Forall_cons in Hm as [Hm Hms]. destruct Hf as [Hf Hfs]. destruct Hr as [Hr Hrs].
  apply IH; [by apply ab_apply_inv|done|done|done|by apply ab_apply_consistent].
Qed.

Lemma ab_run_sides ms a : Forall msg_sided ms → sides_ok a → sides_ok (ab_run a ms).
Proof.
  revert a. induction ms as [|m ms IH]; intros a Hm Hs; [done|].
  apply Forall_cons in Hm as [Hm Hms]. apply IH; [done|]. by apply ab_apply_sides.
Qed.

(** * The consistency check of the code *)

(** Rebuilding the levels from a list of orders. *)

Fixpoint rebuild_orders (ol : list Order) (rb ra : list (Price * Qty)) :
    option (list (Price * Qty) * list (Price * Qty)) :=
  match ol with
  | [] => Some (rb, ra)
  | o :: ol =>
      if o_shares o =? 0 then None
      else
        match o_side o with
        | Buy => rebuild_orders ol (bump Greater rb (o_price o) (o_shares o)) ra
        | Sell => rebuild_orders ol rb (bump Less ra (o_price o) (o_shares o))
        | _ => None
        end
  end.

(** A rebuilt side: sorted, without empty levels, and with the quantities [f]. *)

Definition built (c : Compare) (l : list (Price * Qty)) (f : Price → Qty) : Prop :=
  ksorted c l ∧ map_Forall (λ _ q, 0 < q) (to_map l) ∧ ∀ p, lv_at (to_map l) p = f p.

Lemma bump_built c l f p q :
  built c l f → 0 < q → 0 ≤ f p → f p + q < 2 ^ 32 →
  built c (bump c l p q) (λ p', f p' + if p =? p' then q else 0).
Proof.
  intros (Hs & Hpos & Hf) Hq Hnn Hlt. unfold bump.
  assert (Hv : u32 (default 0 (StdMap.find c l p) + q) = f p + q).
  { rewrite find_to_map by done. rewrite <- (Hf p) in *. by rewrite u32_small by (unfold lv_at in *; lia). }
  rewrite Hv. split_and!; [by apply put_sorted|..]; rewrite ?put_to_map by done.
  - apply map_Forall_insert_2; [lia|done].
  - intros p'. unfold lv_at.
    destruct (Z.eqb_spec p p') as [<-|]; [by rewrite lookup_insert_eq|].
    rewrite lookup_insert_ne by done. rewrite Z.add_0_r. apply Hf.
Qed.

Lemma built_ext c l f g : (∀ p, f p = g p) → built c l f → built c l g.
Proof. intros E (? & ? & Hf). split_and!; [done|done|]. intros p. by rewrite Hf. Qed.

Lemma rebuild_orders_spec ol rb ra fb fa :
  Forall (λ o, 0 < o_shares o ∧ (o_side o = Buy ∨ o_side o = Sell)) ol →
  built Greater rb fb → built Less ra fa →
  (∀ p, 0 ≤ fb p ∧ fb p + lsum true p ol < 2 ^ 32) →
  (∀ p, 0 ≤ fa p ∧ fa p + lsum false p ol < 2 ^ 32) →
  ∃ rb' ra', rebuild_orders ol rb ra = Some (rb', ra') ∧
    built Greater rb' (λ p, fb p + lsum true p ol) ∧
    built Less ra' (λ p, fa p + lsum false p ol).
Proof.
  revert rb ra fb fa. induction ol as [|o ol IH]; intros rb ra fb fa Hol Hb Ha Lb La.
  { exists rb, ra. split; [done|]. split; (eapply built_ext; [|done]); intros; simpl; lia. }
  apply Forall_cons in Hol as [[Hsh Hsd] Hol]. cbn [rebuild_orders].
  destruct (Z.eqb_spec (o_shares o) 0); [lia|].
  assert (Hnn : ∀ buy p, 0 ≤ lsum buy p ol).
  { intros. apply lsum_nonneg. eapply Forall_impl; [exact Hol|]. simpl. lia. }
  assert (Hc : ∀ buy p, contrib buy p o =
            if eqb (is_buy (o_side o)) buy then (if o_price o =? p then o_shares o else 0) else 0).
  { intros. unfold contrib. by destruct (eqb _ _), (_ =? _). }
  destruct Hsd as [Hsd|Hsd]; rewrite Hsd in *; unfold is_buy in Hc; simpl in Hc, Lb, La.
  - destruct (IH (bump Greater rb (o_price o) (o_shares o)) ra
      (λ p, fb p + if o_price o =? p then o_shares o else 0) fa) as (rb' & ra' & E & Hb' & Ha').
    + done.
    + apply bump_built; [done|lia|by apply Lb|].
      destruct (Lb (o_price o)). specialize (Hnn true (o_price o)).
      rewrite (Hc true), Z.eqb_refl in *. lia.
    + done.
    + intros p. specialize (Lb p). specialize (Hnn true p). rewrite (Hc true) in Lb.
      destruct (o_price o =? p); lia.
    + intros p. specialize (La p). rewrite (Hc false) in La. lia.
    + exists rb', ra'. split; [done|]. split; (eapply built_ext; [|done]); intros p; simpl;
        rewrite Hc; lia.
  - destruct (IH rb (bump Less ra (o_price o) (o_shares o)) fb
      (λ p, fa p + if o_price o =? p then o_shares o else 0)) as (rb' & ra' & E & Hb' & Ha').
    + done.
    + done.
    + apply bump_built; [done|lia|by apply La|].
      destruct (La (o_price o)). specialize (Hnn false (o_price o)).
      rewrite (Hc false), Z.eqb_refl in *. lia.
    + intros p. specialize (Lb p). rewrite (Hc true) in Lb. lia.
    + intros p. specialize (La p). specialize (Hnn false p). rewrite (Hc false) in La.
      destruct (o_price o =? p); lia.
    + exists rb', ra'. split; [done|]. split; (eapply built_ext; [|done]); intros p; simpl;
        rewrite Hc; lia.
Qed.

Lemma rebuild_orders_bad ol rb ra :
  Exists (λ o, ¬ (o_side o = Buy ∨ o_side o = Sell)) ol → rebuild_orders ol rb ra = None.
Proof.
  intros H. revert rb ra. induction H as [o ol Ho|o ol _ IH]; intros rb ra; simpl;
    destruct (o_shares o =? 0); try done; destruct (o_side o) eqn:E; auto; by destruct Ho; auto.
Qed.

Section Check.
Context {F : Compare → Type} `{LevelStoreSpec F}.
Implicit Types b : BasicOrderBook F.

(** The traversal of the index visits the resting orders. *)
Lemma rebuild_iter b os used iter rb ra :
  orders_rep b os used → Forall (λ rh, index_ b !! rh.1 = Some rh.2) iter →
  ∃ ol, rebuild b iter rb ra = Some (rebuild_orders ol rb ra) ∧
        Forall2 (λ rh o, os !! rh.1 = Some o) iter ol.
Proof.
  intros Hr Hi. revert rb ra. induction Hi as [|[r h] iter Hx Hi IH]; intros rb ra; simpl.
  { exists []. split; [done|constructor]. }
  destruct (orders_rep_some b os used r h Hr Hx) as (o & -> & Ho & _). simpl.
  destruct (IH rb ra) as (ol0 & _ & Hol0).
  exists (o :: ol0). split; [|by constructor]. simpl.
  assert (Hsame : ∀ rb ra, rebuild b iter rb ra = Some (rebuild_orders ol0 rb ra)).
  { intros rb' ra'. destruct (IH rb' ra') as (ol1 & -> & Hol1). do 2 f_equal.
    clear -Hol0 Hol1. revert ol1 Hol1.
    induction Hol0; intros ol1 Hol1; inversion Hol1; simplify_eq; [done|]. f_equal; auto. }
  destruct (o_shares o =? 0); [done|]. by destruct (o_side o).
Qed.

Lemma iter_orders b os used iter ol :
  orders_rep b os used → iter ≡ₚ map_to_list (index_ b) →
  Forall2 (λ rh o, os !! rh.1 = Some o) iter ol → ol ≡ₚ (map_to_list os).*2.
Proof.
  intros Hr Hp H2.
  assert (Hpairs : zip iter.*1 ol ≡ₚ map_to_list os).
  { assert (Hfst : (zip iter.*1 ol).*1 = iter.*1).
    { apply fst_zip. rewrite length_fmap. by rewrite (Forall2_length _ _ _ H2). }
    apply NoDup_Permutation.
    - apply (NoDup_fmap_1 fst). rewrite Hfst, Hp. apply NoDup_fst_map_to_list.
    - apply NoDup_map_to_list.
    - intros [r o]. rewrite elem_of_map_to_list. split.
      + clear -H2. induction H2 as [|[r' h] o' iter ol Ho _ IH]; simpl; [by intros ?%elem_of_nil|].
        intros [[= -> ->]|Hin]%elem_of_cons; [done|auto].
      + intros Ho. assert (Hx : is_Some (index_ b !! r)).
        { destruct (index_ b !! r) eqn:E; [done|].
          by rewrite (orders_rep_none b os used r Hr E) in Ho. }
        destruct Hx as [h Hx]. assert (Hin : (r, h) ∈ iter) by (rewrite Hp; by apply elem_of_map_to_list).
        clear -H2 Hin Ho. induction H2 as [|[r' h'] o' iter ol Ho' _ IH]; [by apply elem_of_nil in Hin|].
        simpl in *. apply elem_of_cons in Hin as [[= -> ->]|Hin]; [|right; auto].
        simplify_eq. left. }
  rewrite <- Hpairs. rewrite snd_zip; [done|]. rewrite length_fmap.
  by rewrite (Forall2_length _ _ _ H2).
Qed.

Lemma levels_match_spec c (s : F c) m kvs :
  ls_rep s m →
  levels_match s kvs = Some (bool_decide (Forall (λ pq, lv_at m pq.1 = pq.2) kvs)).
Proof.
  intros Hr. induction kvs as [|[p q] kvs IH]; simpl; [done|].
  rewrite (ls_at_rep _ _ _ p Hr). simpl. rewrite IH. destruct (Z.eqb_spec (lv_at m p) q).
  - f_equal. apply bool_decide_ext. rewrite Forall_cons. simpl. tauto.
  - f_equal. symmetry. apply bool_decide_eq_false_2. rewrite Forall_cons. simpl. tauto.
Qed.

(** Same number of levels and every rebuilt level found: the sides are equal. *)
Lemma side_check c (s : F c) m l f :
  ls_rep s m → built c l f →
  (zlen l = ls_size s ∧ Forall (λ pq, lv_at m pq.1 = pq.2) l) ↔ ∀ p, lv_at m p = f p.
Proof.
  intros Hr (Hs & Hpos & Hf). pose proof (ls_rep_ok _ _ _ Hr) as Hok.
  rewrite (ls_size_rep _ _ _ Hr).
  assert (Hlen : zlen l = Z.of_nat (size (to_map l))).
  { rewrite (sorted_is_ladder c l Hs) at 1. unfold zlen. by rewrite ladder_length. }
  rewrite Hlen. split.
  - intros [Hsz Hall] p. rewrite <- Hf. f_equal. symmetry. apply map_subseteq_size_eq; [|lia].
    apply map_subseteq_spec. intros k q Hk. rewrite Forall_forall in Hall.
    pose proof (Hpos _ _ Hk). apply (to_map_elem c) in Hk; [|done].
    specialize (Hall _ Hk). simpl in *. unfold lv_at in Hall.
    destruct (m !! k); simpl in *; [congruence|lia].
  - intros He. assert (Hm : m = to_map l).
    { apply map_eq. intros k. specialize (He k). rewrite <- Hf in He. unfold lv_at in He.
      destruct (m !! k) as [v|] eqn:E1, (to_map l !! k) as [v'|] eqn:E2; simpl in He; subst; try done.
      - destruct (Hok _ _ E1). lia.
      - pose proof (Hpos _ _ E2). simpl in *. lia. }
    subst m. split; [done|]. apply Forall_forall. intros [p q] Hin. simpl.
    apply (to_map_elem c) in Hin; [|done]. unfold lv_at. by rewrite Hin.
Qed.

Lemma invariant_ok_rep b a iter :
  book_rep b a → ab_inv a → iter ≡ₚ map_to_list (index_ b) →
  ∃ r, invariant_ok b iter = Some r ∧ (r = true ↔ sides_ok a ∧ consistent a).
Proof.
  intros [[used Ho] Hb Ha] Hi Hp.
  destruct (rebuild_iter b _ used iter [] [] Ho) as (ol & Hreb & H2).
  { apply Forall_forall. intros [r h]. rewrite Hp. apply elem_of_map_to_list. }
  pose proof (iter_orders b _ used iter ol Ho Hp H2) as Hperm.
  unfold invariant_ok. rewrite Hreb. simpl.
  assert (Hsides : sides_ok a ↔ Forall (λ o, o_side o = Buy ∨ o_side o = Sell) ol).
  { rewrite Hperm. unfold sides_ok. rewrite map_Forall_to_list, Forall_fmap.
    apply Forall_iff. by intros []. }
  destruct (decide (Forall (λ o, o_side o = Buy ∨ o_side o = Sell) ol)) as [Hs|Hs].
  2: { rewrite rebuild_orders_bad; [exists false; naive_solver|]. by apply (not_Forall_Exists _). }
  assert (Hsum : ∀ buy p, lsum buy p ol = total buy p (ab_orders a)) by (intros; by apply lsum_perm).
  assert (Hnil : ∀ c, built c [] (λ _, 0)) by (intros c; split_and!; [constructor|apply map_Forall_empty|done]).
  destruct (rebuild_orders_spec ol [] [] (λ _, 0) (λ _, 0)) as (rb & ra & -> & Bb & Ba); [|done|done|..].
  { rewrite Hperm, Forall_fmap. rewrite Hperm, Forall_fmap in Hs. apply Forall_forall.
    intros [r o] Hin. rewrite Forall_forall in Hs. split; [|by apply (Hs (r, o))].
    apply elem_of_map_to_list in Hin. apply (ab_inv_shares a Hi r o Hin). }
  1,2: intros p; rewrite Hsum; split; [lia|]; apply (total_range a _ p Hi).
  pose proof (side_check _ _ _ _ _ Hb Bb) as Cb. pose proof (side_check _ _ _ _ _ Ha Ba) as Ca.
  simpl in Cb, Ca. setoid_rewrite Hsum in Cb. setoid_rewrite Hsum in Ca.
  assert (Hcon : consistent a ↔
    (zlen rb = ls_size (bids_ b) ∧ Forall (λ pq, lv_at (ab_bids a) pq.1 = pq.2) rb) ∧
    (zlen ra = ls_size (asks_ b) ∧ Forall (λ pq, lv_at (ab_asks a) pq.1 = pq.2) ra)).
  { rewrite Cb, Ca. split; [intros Hc; exact (conj (Hc true) (Hc false))|intros [? ?] [] p; auto]. }
  rewrite (levels_match_spec _ _ _ rb Hb), (levels_match_spec _ _ _ ra Ha). simpl.
  destruct (Z.eqb_spec (zlen rb) (ls_size (bids_ b))); simpl; [|exists false; naive_solver].
  destruct (Z.eqb_spec (zlen ra) (ls_size (asks_ b))); simpl; [|exists false; naive_solver].
  case_bool_decide; [|exists false; naive_solver].
  eexists. split; [done|]. rewrite bool_decide_eq_true. naive_solver.
Qed.

End Check.
