(* ===== verification/BookTheorems.v ===== *)
(** The properties of the order book: refinement of the abstract book by every lawful level
    store, parity of the three stores, memory safety, and the meaning of the levels in terms
    of the resting orders. *)
From S2P Require Export WindowedFacts FlatLevels MapLevels BookInvariant.

(** * What the queries return *)

(** The answers of a book are those of the abstract book [a]. *)

Definition answers {F : Compare → Type} `{LevelStore F} (b : BasicOrderBook F) (a : abook) : Prop :=
  best_bid b = Some (head (ladder Greater (ab_bids a))) ∧
  best_ask b = Some (head (ladder Less (ab_asks a))) ∧
  (∀ sd p, qty_at b sd p = Some (lv_at (ab_levels a sd) p)) ∧
  order_count b = Z.of_nat (size (ab_orders a)) ∧
  bid_levels b = Z.of_nat (size (ab_bids a)) ∧
  ask_levels b = Z.of_nat (size (ab_asks a)) ∧
  (∀ n, bids b n = Some (take n (ladder Greater (ab_bids a)))) ∧
  (∀ n, asks b n = Some (take n (ladder Less (ab_asks a)))).

(** Two books, of possibly different stores, that no query tells apart. *)

Definition same_answers {F G : Compare → Type} `{LevelStore F} `{LevelStore G}
    (b1 : BasicOrderBook F) (b2 : BasicOrderBook G) : Prop :=
  best_bid b1 = best_bid b2 ∧ best_ask b1 = best_ask b2 ∧
  (∀ sd p, qty_at b1 sd p = qty_at b2 sd p) ∧
  order_count b1 = order_count b2 ∧ bid_levels b1 = bid_levels b2 ∧
  ask_levels b1 = ask_levels b2 ∧
  (∀ n, bids b1 n = bids b2 n) ∧ (∀ n, asks b1 n = asks b2 n) ∧
  (∀ sd n, depth b1 sd n = depth b2 sd n).

(** The resting orders of a book: the indexed slots of its pool. *)

Definition resting {F : Compare → Type} (b : BasicOrderBook F) : gmap OrderRef Order :=
  omap (get (orders_ b)) (index_ b).

(** The messages of a day whose level totals fit their type, and the books they build. *)

Definition stream_ok (ms : list Message) : Prop :=
  Forall msg_ok ms ∧ run_fits ab0 ms ∧ zlen ms ≤ 2 ^ 32.

#[global] Instance msg_ok_dec m : Decision (msg_ok m).
Proof.
  refine (cast_if (decide ((fits 16 (stock_locate m) ∧ fits 48 (timestamp m)) ∧
    (fits 64 (order_ref m) ∧ fits 64 (new_order_ref m) ∧ fits 64 (match_number m)) ∧
    (fits 32 (shares m) ∧ fits 32 (price m)) ∧
    (bytes_ok (stock m) ∧ length (stock m) = 8%nat)))).
  - abstract (split; tauto).
  - abstract (intros []; tauto).
Defined.

#[global] Instance stream_ok_dec ms : Decision (stream_ok ms).
Proof. unfold stream_ok. apply _. Defined.

Section Store.
Context {F : Compare → Type} `{LevelStoreSpec F}.
Implicit Types b : BasicOrderBook F.

Lemma resting_rep b a : book_rep b a → resting b = ab_orders a.
Proof.
  intros [[used Ho] _ _]. apply map_eq. intros r. unfold resting. rewrite lookup_omap.
  symmetry. apply (or_lookup _ _ _ Ho).
Qed.

Lemma run_rep ms :
  stream_ok ms →
  ∃ b, apply_all book0 ms = Some b ∧ book_rep b (ab_run ab0 ms) ∧ cap b ≤ zlen ms.
Proof.
  intros (Hm & Hf & Hl). destruct (apply_all_rep (F:=F) ms book0 ab0) as (b & Hb & Hr & Hc);
    [apply book0_rep|done|done|..]; change (cap book0) with 0 in *; [lia|]. by exists b.
Qed.

Lemma run_rep_inv ms b :
  stream_ok ms → apply_all book0 ms = Some b →
  book_rep b (ab_run ab0 ms) ∧ ab_inv (ab_run ab0 ms).
Proof.
  intros Hs Hb. destruct (run_rep ms Hs) as (b' & Hb' & Hr & _). destruct Hs as (Hm & Hf & _).
  simplify_eq. split; [done|]. apply ab_run_inv; [apply ab0_inv|done|done].
Qed.

(** [depth] is [bids] or [asks]. *)
Lemma depth_cases b sd n : depth b sd n = if decide (sd = Buy) then bids b n else asks b n.
Proof. done. Qed.

End Store.

Lemma answers_same {F G : Compare → Type} `{LevelStore F} `{LevelStore G}
    (b1 : BasicOrderBook F) (b2 : BasicOrderBook G) a :
  answers b1 a → answers b2 a → same_answers b1 b2.
Proof.
  intros (A1&A2&A3&A4&A5&A6&A7&A8) (B1&B2&B3&B4&B5&B6&B7&B8).
  split_and!; try congruence; intros; rewrite ?depth_cases; try case_decide; congruence.
Qed.

(** * Safety *)

Section Safe.
Context {F : Compare → Type} `{LevelStoreSafe F}.
Implicit Types b : BasicOrderBook F.

(** The part of the state that keeps every access in bounds. *)

Record book_safe b : Prop := {
  bs_orders : ∃ os used, orders_rep b os used;
  bs_bids : ls_inv (bids_ b);
  bs_asks : ls_inv (asks_ b);
}.

Lemma inc_level_safe b sd p q :
  ls_inv (bids_ b) → ls_inv (asks_ b) → fits 32 q →
  ∃ b', inc_level b sd p q = Some b' ∧ ls_inv (bids_ b') ∧ ls_inv (asks_ b').
Proof.
  intros Hb Ha Hq. unfold inc_level. case_decide.
  - destruct (ls_inc_inv _ _ p q Hb Hq) as (s & -> & Hs). simpl. by eexists.
  - destruct (ls_inc_inv _ _ p q Ha Hq) as (s & -> & Hs). simpl. by eexists.
Qed.

Lemma dec_level_safe b sd p q :
  ls_inv (bids_ b) → ls_inv (asks_ b) →
  ∃ b', dec_level b sd p q = Some b' ∧ ls_inv (bids_ b') ∧ ls_inv (asks_ b').
Proof.
  intros Hb Ha. unfold dec_level. case_decide.
  - destruct (ls_dec_inv _ _ p q Hb) as (s & -> & Hs). simpl. by eexists.
  - destruct (ls_dec_inv _ _ p q Ha) as (s & -> & Hs). simpl. by eexists.
Qed.

Lemma add_safe b ref sd p q :
  book_safe b → fits 32 q → cap b < 2 ^ 32 →
  ∃ b', add b ref sd p q = Some b' ∧ book_safe b' ∧ cap b' ≤ cap b + 1.
Proof.
  intros Hs Hq Hc. destruct (Z.eqb_spec q 0) as [->|Hq0].
  { exists b. unfold add. split_and!; [done|done|lia]. }
  pose proof Hs as [(os & used & Ho) Hb Ha]. unfold fits in Hq.
  destruct (add_orders b os used ref sd p q Ho) as (b1 & u1 & -> & Eb & Ea & Ho1 & Hc1);
    [lia|done|].
  destruct (inc_level_safe b1 sd p q) as (b' & E & Hb' & Ha'); [by rewrite Eb|by rewrite Ea|done|].
  exists b'. pose proof (inc_level_same b1 sd p q b' E) as Hsame. split_and!; [done| |].
  - split; [|done|done]. eexists _, _. by eapply same_orders_rep.
  - unfold cap. by rewrite (proj1 Hsame).
Qed.

Lemma remove_safe b ref :
  book_safe b → ∃ r b', remove b ref = Some (r, b') ∧ book_safe b' ∧ cap b' = cap b.
Proof.
  intros Hs. pose proof Hs as [(os & used & Ho) Hb Ha].
  destruct (index_ b !! ref) as [h|] eqn:Hi.
  - destruct (orders_rep_some b os used ref h Ho Hi) as (o & _ & Ho' & _).
    destruct (remove_orders b os used ref h o Ho Hi Ho') as [-> Hd].
    destruct (dec_level_safe b (o_side o) (o_price o) (o_shares o) Hb Ha) as (b' & E & Hb' & Ha').
    pose proof (dec_level_same _ _ _ _ _ E) as Hsame. rewrite E. simpl. eexists _, _.
    split_and!; [done| |].
    + split; simpl; [eexists _, _; by apply Hd|done|done].
    + unfold cap, drop_order, free, capacity. simpl. by rewrite (proj1 Hsame).
  - exists false, b. unfold remove. by rewrite Hi.
Qed.

Lemma reduce_safe b ref qty :
  book_safe b → 0 ≤ qty →
  ∃ r b', reduce b ref qty = Some (r, b') ∧ book_safe b' ∧ cap b' = cap b.
Proof.
  intros Hs Hq. pose proof Hs as [(os & used & Ho) Hb Ha].
  destruct (index_ b !! ref) as [h|] eqn:Hi.
  - destruct (orders_rep_some b os used ref h Ho Hi) as (o & _ & Ho' & _).
    destruct (reduce_orders b os used ref h o qty Ho Hi Ho' Hq)
      as (b1 & fin & u1 & -> & Eb & Ea & Hc & Hfin).
    destruct (dec_level_safe b1 (o_side o) (o_price o) (Z.min qty (o_shares o)))
      as (b' & E & Hb' & Ha'); [by rewrite Eb|by rewrite Ea|].
    pose proof (dec_level_same _ _ _ _ _ E) as Hsame. rewrite E. simpl.
    destruct (Hfin b' Hsame) as (Fb & Fa & Fc & Fo). eexists _, _. split_and!; [done| |].
    + split; [by eexists _, _|by rewrite Fb|by rewrite Fa].
    + unfold cap. by rewrite Fc, (proj1 Hsame).
  - exists false, b. unfold reduce. by rewrite Hi.
Qed.

Lemma replace_safe b orig new q p :
  book_safe b → fits 32 q → cap b < 2 ^ 32 →
  ∃ r b', replace b orig new q p = Some (r, b') ∧ book_safe b' ∧ cap b' ≤ cap b + 1.
Proof.
  intros Hs Hq Hc. unfold replace. destruct (index_ b !! orig) as [h|] eqn:Hi.
  - pose proof Hs as [(os & used & Ho) _ _].
    destruct (orders_rep_some b os used orig h Ho Hi) as (o & -> & _). simpl.
    destruct (remove_safe b orig Hs) as (r & b1 & -> & Hs1 & Hc1). simpl.
    destruct (add_safe b1 new (o_side o) p q Hs1 Hq) as (b2 & -> & Hs2 & Hc2); [by rewrite Hc1|].
    eexists _, _. split_and!; [done|done|lia].
  - eexists _, b. split_and!; [done|done|lia].
Qed.

Lemma apply_safe b m :
  book_safe b → msg_ok m → cap b < 2 ^ 32 →
  ∃ b', apply b m = Some b' ∧ book_safe b' ∧ cap b' ≤ cap b + 1.
Proof.
  intros Hs Hm Hc. pose proof (mo_shares m Hm) as Hq. unfold apply.
  assert (Hred : ∃ b', (r ← reduce b (order_ref m) (shares m); Some r.2) = Some b' ∧
            book_safe b' ∧ cap b' ≤ cap b + 1).
  { destruct (reduce_safe b (order_ref m) (shares m) Hs) as (r & b' & -> & ? & ?);
      [unfold fits in Hq; lia|]. exists b'. split_and!; [done|done|lia]. }
  destruct (type m); try done; try (exists b; split_and!; [done|done|lia]); try (by apply add_safe).
  - destruct (remove_safe b (order_ref m) Hs) as (r & b' & -> & ? & ?).
    exists b'. split_and!; [done|done|lia].
  - destruct (replace_safe b (order_ref m) (new_order_ref m) (shares m) (price m) Hs)
      as (r & b' & -> & ? & ?); [done|done|]. by exists b'.
Qed.

Lemma apply_all_safe ms b :
  book_safe b → Forall msg_ok ms → cap b + zlen ms ≤ 2 ^ 32 →
  ∃ b', apply_all b ms = Some b' ∧ book_safe b'.
Proof.
  revert b. induction ms as [|m ms IH]; intros b Hs Hm Hc; [by exists b|].
  apply Forall_cons in Hm as [Hm Hms]. rewrite zlen_cons in Hc. pose proof (zlen_nonneg ms).
  destruct (apply_safe b m Hs Hm) as (b1 & E & Hs1 & Hc1); [lia|].
  cbn [apply_all]. rewrite E. simpl. apply IH; [done|done|lia].
Qed.

Lemma book0_safe : book_safe book0.
Proof.
  split; [|apply ls_empty_inv..]. exists ∅, ∅.
  split; simpl; [apply empty_ok|by intros ?? ?|by intros ??? ?|done|].
  intros ??. by rewrite lookup_empty.
Qed.

End Safe.

(** * The levels in terms of the resting orders *)

Section Meaning.
Context {F : Compare → Type} `{LevelStoreSpec F}.
Implicit Types b : BasicOrderBook F.

Lemma run_consistent ms b :
  stream_ok ms → run_fresh ab0 ms → apply_all book0 ms = Some b →
  ∃ a, book_rep b a ∧ ab_inv a ∧ consistent a ∧ resting b = ab_orders a.
Proof.
  intros Hs Hf Hb. destruct (run_rep_inv ms b Hs Hb) as [Hr Hi]. exists (ab_run ab0 ms).
  destruct Hs as (Hm & Hfit & _). split_and!; [done|done| |by apply resting_rep].
  apply ab_run_consistent; [apply ab0_inv|done|done|done|apply ab0_consistent].
Qed.

(** A side is empty exactly when no order rests on it. *)
Lemma total_zero buy os :
  map_Forall (λ _ o, 0 < o_shares o) os →
  (∀ p, total buy p os = 0) → ∀ r o, os !! r = Some o → is_buy (o_side o) ≠ buy.
Proof.
  intros Hpos Hz r o Ho <-. pose proof (contrib_total (is_buy (o_side o)) (o_price o) os r o Hpos Ho).
  rewrite contrib_self, Hz in *. specialize (Hpos r o Ho). simpl in Hpos. lia.
Qed.

(** The head of a ladder: the first price with a positive quantity. *)
Lemma ladder_best c m :
  levels_ok m →
  match head (ladder c m) with
  | None => ∀ p, lv_at m p = 0
  | Some (p, q) => q = lv_at m p ∧ 0 < q ∧ ∀ p', 0 < lv_at m p' → p' = p ∨ cmp c p p' = true
  end.
Proof.
  intros Hok. destruct (ladder c m) as [|[p q] l] eqn:E; simpl.
  - intros p. unfold lv_at. destruct (m !! p) eqn:Hp; [|done].
    apply (ladder_elem c) in Hp. rewrite E in Hp. by apply elem_of_nil in Hp.
  - assert (Hp : m !! p = Some q) by (apply (ladder_elem c); rewrite E; left).
    destruct (Hok _ _ Hp). split_and!; [by unfold lv_at; rewrite Hp|lia|].
    intros p' Hp'. unfold lv_at in Hp'. destruct (m !! p') as [q'|] eqn:E'; [|simpl in Hp'; lia].
    apply (ladder_elem c) in E'. pose proof (ladder_sorted c m) as Hs. rewrite E in E', Hs.
    apply elem_of_cons in E' as [[= -> ->]|Hin]; [by left|right].
    inversion Hs as [|? ? _ Hall]; subst. rewrite Forall_forall in Hall. by apply (Hall (p', q')).
Qed.

Lemma resting_level b a r o :
  book_rep b a → ab_inv a → resting b !! r = Some o →
  0 < lv_at (lvl a (is_buy (o_side o))) (o_price o).
Proof.
  intros Hr Hi Ho. rewrite (resting_rep b a Hr) in Ho. pose proof (covers_order a r o Hi Ho). lia.
Qed.

End Meaning.

(** * Properties *)

(** A short session with every kind of book message: adds on both sides, an execution, a
    cancel, a replace and a delete. *)

Definition msg_add (ref : Z) (sd : Side) (q p : Z) : Message :=
  mkMessage AddOrder 1 0 ref 0 0 sd q p (replicate 8 32) 0.

Definition msg_ref (t : MsgType) (ref q : Z) : Message :=
  mkMessage t 1 0 ref 0 0 SideNone q 0 (replicate 8 32) 0.

Definition session : list Message :=
  [ msg_add 1 Buy 100 999900; msg_add 2 Buy 50 999900; msg_add 3 Buy 70 999800;
    msg_add 4 Sell 30 1000100; msg_add 5 Sell 60 1009900;
    msg_ref OrderExecuted 1 40; msg_ref OrderCancel 5 10;
    mkMessage OrderReplace 1 0 3 6 0 SideNone 80 1000000 (replicate 8 32) 0;
    msg_ref OrderDelete 4 0 ].

(** C1: For every level store that satisfies the contract, every message stream whose level
    totals fit 32 bits is applied without an out-of-bounds access, and afterwards all the
    queries of the book (top of book, quantity at a price, counts, depth) are those of the
    abstract book, which has no pool, no handles and no free list. *)
Theorem book_refines_abstract {F : Compare → Type} `{LevelStoreSpec F} ms :
  stream_ok ms → ∃ b : BasicOrderBook F,
    apply_all book0 ms = Some b ∧ answers b (ab_run ab0 ms).
Proof.
  intros Hs. destruct (run_rep (F:=F) ms Hs) as (b & Hb & Hr & _). exists b. split; [done|].
  by apply query_rep.
Qed.

Lemma book_refines_abstract_witness :
  stream_ok session ∧
  ∃ b : BasicOrderBook WindowedLevels,
    apply_all book0 session = Some b ∧ answers b (ab_run ab0 session).
Proof.
  assert (H : stream_ok session) by (apply (bool_decide_unpack _); vm_compute; exact I).
  split; [exact H|]. exact (book_refines_abstract session H).
Defined.

(** C2: Map, flat and windowed level stores give indistinguishable books: on a stream whose
    level totals fit 32 bits the three books are built and every query has the same answer
    on all three. *)
Theorem level_stores_parity ms :
  stream_ok ms →
  ∃ (bm : BasicOrderBook MapLevels) (bf : BasicOrderBook FlatLevels)
    (bw : BasicOrderBook WindowedLevels),
    apply_all book0 ms = Some bm ∧ apply_all book0 ms = Some bf ∧ apply_all book0 ms = Some bw ∧
    same_answers bm bf ∧ same_answers bm bw.
Proof.
  intros Hs.
  destruct (run_rep (F:=MapLevels) ms Hs) as (bm & Em & Rm & _).
  destruct (run_rep (F:=FlatLevels) ms Hs) as (bf & Ef & Rf & _).
  destruct (run_rep (F:=WindowedLevels) ms Hs) as (bw & Ew & Rw & _).
  exists bm, bf, bw. split_and!; [done..| |].
  - eapply answers_same; by apply query_rep.
  - eapply answers_same; by apply query_rep.
Qed.

Lemma level_stores_parity_witness :
  stream_ok session ∧
  ∃ (bm : BasicOrderBook MapLevels) (bf : BasicOrderBook FlatLevels)
    (bw : BasicOrderBook WindowedLevels),
    apply_all book0 session = Some bm ∧ apply_all book0 session = Some bf ∧
    apply_all book0 session = Some bw ∧ same_answers bm bf ∧ same_answers bm bw.
Proof.
  assert (H : stream_ok session) by (apply (bool_decide_unpack _); vm_compute; exact I).
  split; [exact H|]. exact (level_stores_parity session H).
Defined.

(** C3: On a stream of up to 2^32 decoded messages whose level totals fit 32 bits, in which no
    message reuses the reference of a resting order, the quantity shown at any price of either
    side is the sum of the shares of the orders that rest there. *)
Theorem levels_are_order_totals {F : Compare → Type} `{LevelStoreSpec F} ms
    (b : BasicOrderBook F) :
  stream_ok ms → run_fresh ab0 ms → apply_all book0 ms = Some b →
  ∀ sd p, qty_at b sd p = Some (total (is_buy sd) p (resting b)).
Proof.
  intros Hs Hf Hb sd p. destruct (run_consistent ms b Hs Hf Hb) as (a & Hr & _ & Hc & ->).
  destruct (query_rep b a Hr) as (_ & _ & -> & _). by rewrite ab_levels_lvl, Hc.
Qed.

Lemma levels_are_order_totals_witness :
  stream_ok session ∧ run_fresh ab0 session ∧
  ∃ b : BasicOrderBook FlatLevels, apply_all book0 session = Some b ∧
    ∀ sd p, qty_at b sd p = Some (total (is_buy sd) p (resting b)).
Proof.
  assert (H : stream_ok session) by (apply (bool_decide_unpack _); vm_compute; exact I).
  assert (Hf : run_fresh ab0 session) by (apply (bool_decide_unpack _); vm_compute; exact I).
  split; [exact H|]. split; [exact Hf|].
  destruct (run_rep (F:=FlatLevels) session H) as (b & Hb & _).
  exists b. split; [exact Hb|]. exact (levels_are_order_totals session b H Hf Hb).
Defined.

(** C4: On a stream whose level totals fit 32 bits, in which no message reuses the reference of
    a resting order, the top of book is the best of the resting orders, on each side: no best
    exactly when no order rests there; otherwise its price is at least as good as the price of every
    resting order of the side and its quantity is the total at that price. *)
Theorem top_of_book_is_best {F : Compare → Type} `{LevelStoreSpec F} ms
    (b : BasicOrderBook F) :
  stream_ok ms → run_fresh ab0 ms → apply_all book0 ms = Some b →
  (∃ bb, best_bid b = Some bb ∧
    match bb with
    | None => ∀ r o, resting b !! r = Some o → o_side o ≠ Buy
    | Some (p, q) => q = total true p (resting b) ∧ 0 < q ∧
        ∀ r o, resting b !! r = Some o → o_side o = Buy → o_price o ≤ p
    end) ∧
  (∃ ba, best_ask b = Some ba ∧
    match ba with
    | None => ∀ r o, resting b !! r = Some o → o_side o = Buy
    | Some (p, q) => q = total false p (resting b) ∧ 0 < q ∧
        ∀ r o, resting b !! r = Some o → o_side o ≠ Buy → p ≤ o_price o
    end).
Proof.
  intros Hs Hf Hb. destruct (run_consistent ms b Hs Hf Hb) as (a & Hr & Hi & Hc & Hrest).
  destruct (query_rep b a Hr) as (-> & -> & _). pose proof (ab_inv_shares a Hi) as Hpos.
  pose proof (ladder_best Greater (ab_bids a) (ao_lvl a (ai_ok a Hi) true)) as Lb.
  pose proof (ladder_best Less (ab_asks a) (ao_lvl a (ai_ok a Hi) false)) as La.
  split; eexists; (split; [done|]).
  - destruct (head (ladder Greater _)) as [[p q]|].
    + destruct Lb as (-> & Hq & Hbest). rewrite Hrest. split_and!; [apply (Hc true p)|done|].
      rewrite <- Hrest. intros r o Ho Hsd. pose proof (resting_level b a r o Hr Hi Ho) as Hl.
      unfold is_buy in Hl. rewrite bool_decide_true in Hl by done.
      destruct (Hbest _ Hl) as [->|Hlt]; [lia|]. unfold cmp in Hlt. lia.
    + rewrite Hrest. intros r o Ho Hsd.
      apply (total_zero true (ab_orders a) Hpos) with r o; [|done|by apply bool_decide_eq_true].
      intros p. rewrite <- (Hc true p). apply Lb.
  - destruct (head (ladder Less _)) as [[p q]|].
    + destruct La as (-> & Hq & Hbest). rewrite Hrest. split_and!; [apply (Hc false p)|done|].
      rewrite <- Hrest. intros r o Ho Hsd. pose proof (resting_level b a r o Hr Hi Ho) as Hl.
      unfold is_buy in Hl. rewrite bool_decide_false in Hl by done.
      destruct (Hbest _ Hl) as [->|Hlt]; [lia|]. unfold cmp in Hlt. lia.
    + rewrite Hrest. intros r o Ho. destruct (decide (o_side o = Buy)) as [|Hsd]; [done|].
      exfalso. apply (total_zero false (ab_orders a) Hpos) with r o; [|done|by apply bool_decide_eq_false].
      intros p. rewrite <- (Hc false p). apply La.
Qed.

Lemma top_of_book_is_best_witness :
  ∃ b : BasicOrderBook WindowedLevels, apply_all book0 session = Some b ∧
    ∃ bb, best_bid b = Some bb ∧
    match bb with
    | None => ∀ r o, resting b !! r = Some o → o_side o ≠ Buy
    | Some (p, q) => q = total true p (resting b) ∧ 0 < q ∧
        ∀ r o, resting b !! r = Some o → o_side o = Buy → o_price o ≤ p
    end.
Proof.
  assert (H : stream_ok session) by (apply (bool_decide_unpack _); vm_compute; exact I).
  assert (Hf : run_fresh ab0 session) by (apply (bool_decide_unpack _); vm_compute; exact I).
  destruct (run_rep (F:=WindowedLevels) session H) as (b & Hb & _).
  exists b. split; [exact Hb|]. exact (proj1 (top_of_book_is_best session b H Hf Hb)).
Defined.

(** C31: [invariant_ok] decides its specification: on the book of any stream whose level
    totals fit 32 bits, and whatever order the index is traversed in, it returns (in bounds)
    [true] exactly when every resting order has a real side and every level of both sides is
    the total of its orders. *)
Theorem invariant_ok_decides {F : Compare → Type} `{LevelStoreSpec F} ms
    (b : BasicOrderBook F) iter :
  stream_ok ms → apply_all book0 ms = Some b → iter ≡ₚ map_to_list (index_ b) →
  ∃ r, invariant_ok b iter = Some r ∧
    (r = true ↔
      (∀ ref o, resting b !! ref = Some o → o_side o = Buy ∨ o_side o = Sell) ∧
      (∀ sd p, qty_at b sd p = Some (total (is_buy sd) p (resting b)))).
Proof.
  intros Hs Hb Hp. destruct (run_rep_inv ms b Hs Hb) as [Hr Hi].
  destruct (invariant_ok_rep b _ iter Hr Hi Hp) as (r & -> & Hiff). exists r. split; [done|].
  rewrite Hiff. clear Hiff.
  rewrite (resting_rep b _ Hr). destruct (query_rep b _ Hr) as (_ & _ & Hq & _).
  apply and_iff_compat_l. split.
  - intros Hc sd p. by rewrite Hq, ab_levels_lvl, Hc.
  - intros Ht buy p. specialize (Ht (if buy then Buy else Sell) p).
    rewrite Hq, ab_levels_lvl in Ht. by destruct buy; injection Ht.
Qed.

Lemma invariant_ok_decides_witness :
  ∃ b : BasicOrderBook MapLevels, apply_all book0 session = Some b ∧
  ∃ r, invariant_ok b (map_to_list (index_ b)) = Some r ∧
    (r = true ↔
      (∀ ref o, resting b !! ref = Some o → o_side o = Buy ∨ o_side o = Sell) ∧
      (∀ sd p, qty_at b sd p = Some (total (is_buy sd) p (resting b)))).
Proof.
  assert (H : stream_ok session) by (apply (bool_decide_unpack _); vm_compute; exact I).
  destruct (run_rep (F:=MapLevels) session H) as (b & Hb & _).
  exists b. split; [exact Hb|].
  exact (invariant_ok_decides session b (map_to_list (index_ b)) H Hb (Permutation_refl _)).
Defined.

(** The consistency check never fails on a well-behaved feed: if add messages carry side
    [B] or [S] and no message reuses the reference of a resting order, [invariant_ok] returns
    [true] after every message. *)
Theorem invariant_ok_holds {F : Compare → Type} `{LevelStoreSpec F} ms
    (b : BasicOrderBook F) iter :
  stream_ok ms → run_fresh ab0 ms → Forall msg_sided ms → apply_all book0 ms = Some b →
  iter ≡ₚ map_to_list (index_ b) → invariant_ok b iter = Some true.
Proof.
  intros Hs Hf Hsd Hb Hp. destruct (run_rep_inv ms b Hs Hb) as [Hr Hi].
  destruct (invariant_ok_rep b _ iter Hr Hi Hp) as (r & -> & Hiff).
  destruct Hs as (Hm & Hfit & _). f_equal. apply Hiff. split.
  - apply ab_run_sides; [done|apply map_Forall_empty].
  - apply ab_run_consistent; [apply ab0_inv|done|done|done|apply ab0_consistent].
Qed.

Lemma invariant_ok_holds_witness :
  ∃ b : BasicOrderBook WindowedLevels, apply_all book0 session = Some b ∧
    invariant_ok b (map_to_list (index_ b)) = Some true.
Proof.
  assert (H : stream_ok session) by (apply (bool_decide_unpack _); vm_compute; exact I).
  assert (Hf : run_fresh ab0 session) by (apply (bool_decide_unpack _); vm_compute; exact I).
  assert (Hd : Forall msg_sided session) by (apply (bool_decide_unpack _); vm_compute; exact I).
  destruct (run_rep (F:=WindowedLevels) session H) as (b & Hb & _).
  exists b. split; [exact Hb|].
  exact (invariant_ok_holds session b _ H Hf Hd Hb (Permutation_refl _)).
Defined.

(** Re-adding the reference of a resting order leaves the old order's quantity behind:
    each level then exceeds the total of its orders by exactly the shares the overwritten
    order had there, more than before, so the consistency check of the book fails. *)
Theorem duplicate_add_leaves_phantom {F : Compare → Type} `{LevelStoreSpec F} ms
    (b : BasicOrderBook F) ref sd p q o :
  stream_ok ms → run_fresh ab0 ms → apply_all book0 ms = Some b → zlen ms < 2 ^ 32 →
  resting b !! ref = Some o → price_ok p → 0 < q →
  (∀ v, qty_at b sd p = Some v → v + q < 2 ^ 32) →
  ∃ b', add b ref sd p q = Some b' ∧
    (∀ sd' p', qty_at b' sd' p' =
       Some (total (is_buy sd') p' (resting b') + contrib (is_buy sd') p' o)) ∧
    ∀ iter, iter ≡ₚ map_to_list (index_ b') → invariant_ok b' iter = Some false.
Proof.
  intros Hs Hf Hb Hl Ho Hp Hq Hfit. destruct (run_consistent ms b Hs Hf Hb) as (a & Hr & Hi & Hc & Hrest).
  destruct (run_rep (F:=F) ms Hs) as (b0 & Hb0 & _ & Hcap). simplify_eq.
  destruct (query_rep b a Hr) as (_ & _ & Hqa & _). specialize (Hfit _ (Hqa sd p)).
  pose proof (levels_ok_at (lvl a (is_buy sd)) p (ao_lvl a (ai_ok a Hi) _)) as Hnn.
  rewrite <- ab_levels_lvl in Hnn. rewrite Hrest in Ho.
  destruct (add_rep b a ref sd p q Hr Hp) as (b' & E & Hr' & _); [lia|done|lia|].
  pose proof (ab_add_inv a ref sd p q Hi Hp ltac:(lia) Hfit) as Hi'.
  assert (Hgap : ∀ buy p', lv_at (lvl (ab_add a ref sd p q) buy) p' =
            total buy p' (ab_orders (ab_add a ref sd p q)) + contrib buy p' o).
  { intros buy p'. pose proof (add_gap a ref sd p q buy p' Hq) as Hg. rewrite Ho in Hg.
    specialize (Hc buy p'). lia. }
  exists b'. split_and!; [done| |].
  - intros sd' p'. destruct (query_rep b' _ Hr') as (_ & _ & -> & _).
    by rewrite (resting_rep b' _ Hr'), ab_levels_lvl, Hgap.
  - intros iter Hit. destruct (invariant_ok_rep b' _ iter Hr' Hi' Hit) as ([] & -> & Hiff); [|done].
    destruct (proj1 Hiff eq_refl) as [_ Hc']. specialize (Hc' (is_buy (o_side o)) (o_price o)).
    rewrite Hgap, contrib_self in Hc'. pose proof (ab_inv_shares a Hi ref o Ho). simpl in *. lia.
Qed.

Lemma duplicate_add_leaves_phantom_witness :
  ∃ b b' : BasicOrderBook FlatLevels,
    apply_all book0 session = Some b ∧ resting b !! 1 = Some (mkOrder Buy 999900 60) ∧
    add b 1 Sell 1000200 5 = Some b' ∧ invariant_ok b' (map_to_list (index_ b')) = Some false.
Proof.
  assert (H : stream_ok session) by (apply (bool_decide_unpack _); vm_compute; exact I).
  assert (Hf : run_fresh ab0 session) by (apply (bool_decide_unpack _); vm_compute; exact I).
  destruct (apply_all (F:=FlatLevels) book0 session) as [b|] eqn:Hb; [|vm_compute in Hb; discriminate].
  pose proof Hb as Hv. vm_compute in Hv. injection Hv as <-.
  destruct (duplicate_add_leaves_phantom session _ 1 Sell 1000200 5 (mkOrder Buy 999900 60)
              H Hf Hb) as (b' & E & _ & Hi).
  - vm_compute; reflexivity.
  - vm_compute; reflexivity.
  - unfold price_ok, fits. lia.
  - lia.
  - intros v Hv. vm_compute in Hv. injection Hv as <-. lia.
  - eexists _, b'. split; [reflexivity|]. split; [vm_compute; reflexivity|].
    split; [exact E|]. exact (Hi _ (Permutation_refl _)).
Defined.

(** C32: With a level store whose updates stay in bounds on their own (the map and the flat
    store), the book makes no out-of-bounds access on any sequence of fewer than 2^32
    decoded messages: duplicate or unknown references, unknown sides and level totals
    beyond 32 bits included. *)
Theorem book_never_out_of_bounds {F : Compare → Type} `{LevelStoreSafe F} ms :
  Forall msg_ok ms → zlen ms ≤ 2 ^ 32 →
  ∃ b : BasicOrderBook F, apply_all book0 ms = Some b.
Proof.
  intros Hm Hl. destruct (apply_all_safe (F:=F) ms book0 book0_safe Hm) as (b & Hb & _).
  - by change (cap book0) with 0.
  - by exists b.
Qed.

(** A stream outside the bounds of the refinement: a level total that wraps around and a
    reference that is added twice. *)

Definition rough_session : list Message :=
  [ msg_add 1 Buy 4294967295 999900; msg_add 2 Buy 4294967295 999900;
    msg_add 1 (SideOther 88) 7 5; msg_ref OrderExecuted 9 1; msg_ref OrderDelete 2 0 ].

Lemma book_never_out_of_bounds_witness :
  ¬ stream_ok rough_session ∧
  ∃ b : BasicOrderBook FlatLevels, apply_all book0 rough_session = Some b.
Proof.
  split; [apply (bool_decide_unpack _); vm_compute; exact I|].
  apply (book_never_out_of_bounds (F:=FlatLevels)).
  - apply (bool_decide_unpack _). vm_compute. exact I.
  - vm_compute. discriminate.
Defined.
