(* ===== verification/BookMemory.v ===== *)
(** The memory of a book (include/book/order_book.hpp with include/core/object_pool.hpp): which slots
    of the pool the index owns, and how many slots are in use after an arbitrary stream.  The
    accounting follows the code message by message; it needs neither fresh references nor level
    totals that fit. *)
From S2P Require Import BookTheorems.

Section Memory.
Context {F : Compare → Type} `{LevelStoreSafe F}.
Implicit Types b : BasicOrderBook F.

(** ** Slots taken and given back *)

Definition balance {T} (p : ObjectPool T) : Z := zlen (slots_ p) - zlen (free_ p).

Lemma alloc_balance {T} (dflt : T) p : balance (alloc dflt p).2 = balance p + 1.
Proof using.
  unfold alloc, balance. destruct (last (free_ p)) as [h|] eqn:El; simpl.
  - destruct (free_pop p h El) as (l & -> & ->). rewrite zlen_app. unfold zlen at 5. simpl. lia.
  - rewrite zlen_app. unfold zlen at 2. simpl. lia.
Qed.

Lemma free_balance {T} (p : ObjectPool T) h : balance (free p h) = balance p - 1.
Proof using. unfold free, balance. simpl. rewrite zlen_app. unfold zlen at 3. simpl. lia. Qed.

Lemma set_balance {T} (p p' : ObjectPool T) h x : set p h x = Some p' → balance p' = balance p.
Proof using.
  unfold set, vset. case_decide; intros E; simplify_eq/=. unfold balance, zlen. simpl. by rewrite length_insert.
Qed.

(** Slots in use that no reference leads to. *)

Definition unowned b : Z := balance (orders_ b) - order_count b.

(** How many slots a message loses: an order that is stored under a reference in use replaces its
    handle in the index, and nothing frees it. *)

Definition taken (index : gmap OrderRef Z) (ref : OrderRef) (q : Qty) : Z :=
  if q =? 0 then 0 else if decide (is_Some (index !! ref)) then 1 else 0.

Definition lost b (m : Message) : Z :=
  match type m with
  | AddOrder | AddOrderMpid => taken (index_ b) (order_ref m) (shares m)
  | OrderReplace =>
      if decide (is_Some (index_ b !! order_ref m)) then taken (delete (order_ref m) (index_ b)) (new_order_ref m) (shares m) else 0
  | _ => 0
  end.

Fixpoint lost_by b (ms : list Message) : Z :=
  match ms with
  | [] => 0
  | m :: ms => lost b m + match apply b m with Some b' => lost_by b' ms | None => 0 end
  end.

Lemma index_insert b (ref : OrderRef) (h : Z) q :
  q ≠ 0 → Z.of_nat (size (<[ref := h]> (index_ b))) = order_count b + 1 - taken (index_ b) ref q.
Proof using.
  intros Hq. unfold taken, order_count. destruct (Z.eqb_spec q 0); [done|]. destruct (index_ b !! ref) as [h'|] eqn:Ei.
  - rewrite decide_True by (by eexists). rewrite (map_size_insert_Some _ _ _ (ex_intro _ h' Ei)). lia.
  - rewrite decide_False by (by intros [? ?]). rewrite map_size_insert_None by done. lia.
Qed.

Lemma index_delete b ref h : index_ b !! ref = Some h → Z.of_nat (size (delete ref (index_ b))) = order_count b - 1.
Proof using.
  intros Ei. unfold order_count. rewrite map_size_delete_Some by (by eexists).
  assert (size (index_ b) ≠ 0%nat); [|lia]. intros E0%map_size_empty_inv. by rewrite E0 in Ei.
Qed.

Lemma same_orders_unowned b b' : same_orders b b' → unowned b' = unowned b.
Proof using. intros [E1 E2]. unfold unowned, order_count. by rewrite E1, E2. Qed.

Lemma drop_unowned b ref h : index_ b !! ref = Some h → unowned (drop_order b ref h) = unowned b.
Proof using. intros Ei. unfold unowned, order_count. simpl. rewrite free_balance, (index_delete b ref h Ei). unfold order_count. lia. Qed.

Lemma add_unowned b ref sd p q b' : add b ref sd p q = Some b' → unowned b' = unowned b + taken (index_ b) ref q.
Proof using.
  unfold add. intros E. destruct (Z.eqb_spec q 0) as [->|Hq]; [simplify_eq; unfold taken; simpl; lia|].
  pose proof (alloc_balance order0 (orders_ b)) as Ha. destruct (alloc order0 (orders_ b)) as [h pool]. simpl in Ha.
  apply bind_Some in E as (pool' & Es & E). apply inc_level_same, same_orders_unowned in E. rewrite E.
  unfold unowned at 1, order_count. simpl. rewrite (set_balance _ _ _ _ Es), Ha, (index_insert b ref h q Hq). unfold unowned. lia.
Qed.

Lemma remove_unowned b ref r : remove b ref = Some r → unowned r.2 = unowned b ∧ index_ r.2 = delete ref (index_ b).
Proof using.
  unfold remove. destruct (index_ b !! ref) as [h|] eqn:Ei; intros E; [|simplify_eq/=; by rewrite delete_id].
  apply bind_Some in E as (o & _ & E). apply bind_Some in E as (b1 & E1 & [= <-]). apply dec_level_same in E1 as [Eo E1]. simpl.
  rewrite E1. split; [|done]. rewrite drop_unowned by (by rewrite E1). by apply same_orders_unowned.
Qed.

Lemma reduce_unowned b ref q r : reduce b ref q = Some r → unowned r.2 = unowned b.
Proof using.
  unfold reduce. destruct (index_ b !! ref) as [h|] eqn:Ei; intros E; [|by simplify_eq].
  apply bind_Some in E as (o & _ & E). apply bind_Some in E as (pool & Es & E). apply bind_Some in E as (b1 & E1 & [= <-]).
  apply dec_level_same in E1 as [Eo E1]. simpl in *.
  assert (Hb : unowned b1 = unowned b) by (unfold unowned, order_count; by rewrite Eo, E1, (set_balance _ _ _ _ Es)).
  destruct (u32 _ =? 0); simpl; [|done]. by rewrite drop_unowned by (by rewrite E1).
Qed.

Lemma replace_unowned b orig new q p r :
  replace b orig new q p = Some r →
  unowned r.2 = unowned b + if decide (is_Some (index_ b !! orig)) then taken (delete orig (index_ b)) new q else 0.
Proof using.
  unfold replace. destruct (index_ b !! orig) as [h|] eqn:Ei; intros E; [|simplify_eq/=; lia].
  apply bind_Some in E as (o & _ & E). apply bind_Some in E as (r1 & E1 & E). apply bind_Some in E as (b2 & E2 & [= <-]).
  destruct (remove_unowned _ _ _ E1) as [Hu Hi]. simpl. rewrite (add_unowned _ _ _ _ _ _ E2), Hu, Hi. done.
Qed.

Lemma apply_unowned b m b' : apply b m = Some b' → unowned b' = unowned b + lost b m.
Proof using.
  unfold apply, lost. intros E. destruct (type m); try (simplify_eq; lia); try by (eapply add_unowned; exact E).
  1-3: apply bind_Some in E as (r & E & [= <-]); rewrite (reduce_unowned _ _ _ _ E); lia.
  - apply bind_Some in E as (r & E & [= <-]). rewrite (proj1 (remove_unowned _ _ _ E)). lia.
  - apply bind_Some in E as (r & E & [= <-]). by apply replace_unowned in E.
Qed.

Lemma apply_all_unowned ms b b' : apply_all b ms = Some b' → unowned b' = unowned b + lost_by b ms.
Proof using.
  revert b. induction ms as [|m ms IH]; intros b E; [simplify_eq/=; lia|]. cbn [apply_all lost_by] in *.
  apply bind_Some in E as (b1 & E1 & E). rewrite E1, (IH b1 E), (apply_unowned _ _ _ E1). lia.
Qed.

(** C12: The memory of a book, on any sequence of up to 2^32 decoded messages, also with duplicate or
    unknown references and wrapping totals (map or flat store).  Every reference of the index owns a
    slot of its own: handles are in bounds, different for different references and not on the free
    list, and the slot holds an order with shares left; the free list holds no handle twice; and the
    slots in use are as many as the orders in the index and the slots lost, one for each order that
    was stored under a reference in use.  So without reused references the pool holds exactly the
    resting orders and nothing leaks. *)
Theorem book_memory_accounted ms :
  Forall msg_ok ms → zlen ms ≤ 2 ^ 32 →
  ∃ b, apply_all book0 ms = Some b ∧
    (∀ ref h, index_ b !! ref = Some h →
       0 ≤ h < capacity (orders_ b) ∧ (h ∉ free_ (orders_ b)) ∧
       (∀ ref', index_ b !! ref' = Some h → ref' = ref) ∧
       ∃ o, get (orders_ b) h = Some o ∧ 0 < o_shares o < 2 ^ 32) ∧
    NoDup (free_ (orders_ b)) ∧ live (orders_ b) = order_count b + lost_by book0 ms.
Proof using Type*.
  intros Hm Hl. destruct (apply_all_safe (F:=F) ms book0 book0_safe Hm) as (b & E & [(os & used & Hr) _ _]); [by change (cap book0) with 0|].
  pose proof (or_pool _ _ _ Hr) as Hp. exists b. split_and!; [done| |apply Hp|].
  - intros ref h Hi. pose proof (or_used _ _ _ Hr ref h Hi) as Hu. split; [|split; [|split]].
    + apply (po_range _ _ Hp). by right.
    + intros Hf. by apply (po_disj _ _ Hp h Hf).
    + intros ref' Hi'. by apply (or_inj _ _ _ Hr ref' ref h).
    + destruct (orders_rep_some b os used ref h Hr Hi) as (o & Ho & _ & Hs). by exists o.
  - pose proof (apply_all_unowned ms book0 b E) as Hu. unfold unowned at 2, order_count in Hu. simpl in Hu.
    pose proof (pool_slots _ _ Hp) as Hsl. pose proof (po_cap _ _ Hp) as Hc. unfold capacity in Hc.
    pose proof (zlen_nonneg (free_ (orders_ b))). unfold live, unowned, balance in *. rewrite u64_small by lia.
    change (zlen (slots_ (@ObjectPool.empty Order))) with 0 in Hu. change (zlen (free_ (@ObjectPool.empty Order))) with 0 in Hu.
    rewrite map_size_empty in Hu. lia.
Qed.

End Memory.

(** A reference added twice, and an order that is deleted: one order is left, in two slots. *)

Definition twice : list Message := [msg_add 1 Buy 10 999900; msg_add 2 Sell 5 1000100; msg_add 1 Buy 7 999800; msg_ref OrderDelete 2 0].

Lemma book_memory_accounted_witness :
  ∃ b : BasicOrderBook MapLevels, apply_all book0 twice = Some b ∧ order_count b = 1 ∧ live (orders_ b) = 2.
Proof.
  destruct (book_memory_accounted (F:=MapLevels) twice) as (b & E & _ & _ & Hl).
  - apply (bool_decide_unpack _). vm_compute. exact I.
  - vm_compute. discriminate.
  - exists b. split; [exact E|]. rewrite Hl. vm_compute in E. injection E as <-. split; vm_compute; reflexivity.
Defined.
