(* ===== verification/BookSet.v ===== *)
(** [BookSet] (include/book/book_set.hpp): one order book per [stock_locate], routed by the
    message header, and the table of symbols.  Unordered maps are [gmap]; where the code
    traverses one, the traversal order is an argument ([iter], any permutation of the
    entries).  [OrderBook] is [BasicOrderBook<MapLevels>]. *)
From S2P Require Export BookTheorems.

Abbreviation OrderBook := (BasicOrderBook MapLevels).

Record BookSet := mkSet {
  books_ : gmap Z OrderBook;
  symbols_ : gmap Z (list Z);
}.

Definition set0 : BookSet := mkSet ∅ ∅.

(** The symbol without its trailing blanks: [n] starts at 8. *)

Fixpoint trim_loop (s : list Z) (n : nat) : option nat :=
  match n with
  | O => Some O
  | S n => c ← s !! n; if c =? 32 then trim_loop s n else Some (S n)
  end.

Definition trim (s : list Z) : option (list Z) := n ← trim_loop s 8; Some (take n s).

(** [books_[locate]]: the book of a locate, created empty when it is missing. *)

Definition book_of (bs : BookSet) (locate : Z) : OrderBook := default book0 (books_ bs !! locate).

Definition apply (bs : BookSet) (m : Message) : option BookSet :=
  match type m with
  | StockDirectory =>
      sym ← trim (stock m);
      Some (mkSet (<[stock_locate m := book_of bs (stock_locate m)]> (books_ bs))
                  (<[stock_locate m := sym]> (symbols_ bs)))
  | AddOrder | AddOrderMpid | OrderExecuted | OrderExecutedWithPrice | OrderCancel
  | OrderDelete | OrderReplace =>
      b ← OrderBook.apply (book_of bs (stock_locate m)) m;
      Some (mkSet (<[stock_locate m := b]> (books_ bs)) (symbols_ bs))
  | _ => Some bs
  end.

Definition book (bs : BookSet) (locate : Z) : option OrderBook := books_ bs !! locate.

(** The search by name, in the traversal order [iter] of [symbols_]. *)

Fixpoint book_by_symbol (bs : BookSet) (iter : list (Z * list Z)) (sym : list Z) :
    option OrderBook :=
  match iter with
  | [] => None
  | (loc, s) :: iter => if decide (s = sym) then book bs loc else book_by_symbol bs iter sym
  end.

Definition symbol (bs : BookSet) (locate : Z) : list Z := default [] (symbols_ bs !! locate).

Definition book_count (bs : BookSet) : Z := Z.of_nat (size (books_ bs)).

Definition total_orders (iter : list (Z * OrderBook)) : Z :=
  foldl (λ n kv, u64 (n + order_count kv.2)) 0 iter.

Lemma total_orders_perm iter iter' : iter ≡ₚ iter' → total_orders iter = total_orders iter'.
Proof.
  unfold total_orders. generalize 0. intros n Hp. revert n.
  induction Hp as [|kv l l' _ IH|kv kv' l|l1 l2 l3 _ IH1 _ IH2]; intros n; cbn [foldl]; [done|apply IH| |by rewrite IH1].
  f_equal. unfold u64, wrap. rewrite !Zplus_mod_idemp_l. f_equal. lia.
Qed.

(** [emplace] does nothing when the key is taken. *)

Definition emplace {A} (m : gmap Z A) (kv : Z * A) : gmap Z A :=
  match m !! kv.1 with Some _ => m | None => <[kv.1 := kv.2]> m end.

(** The result is this set and the other one, emptied. *)

Definition merge_from (bs : BookSet) (iter_b : list (Z * OrderBook))
    (iter_s : list (Z * list Z)) : BookSet * BookSet :=
  (mkSet (foldl emplace (books_ bs) iter_b) (foldl emplace (symbols_ bs) iter_s), set0).

(** * One book per locate *)

(** The messages of one locate, and the messages that create or change its book. *)

Definition at_locate (loc : Z) (ms : list Message) : list Message :=
  filter (λ m, stock_locate m = loc) ms.

Definition routed (m : Message) : bool :=
  match type m with
  | StockDirectory | AddOrder | AddOrderMpid | OrderExecuted | OrderExecutedWithPrice
  | OrderCancel | OrderDelete | OrderReplace => true
  | _ => false
  end.

Definition apply_set (bs : BookSet) (ms : list Message) : option BookSet := foldM apply bs ms.

Lemma apply_all_app {F : Compare → Type} `{LevelStore F} (b : BasicOrderBook F) ms ks :
  apply_all b (ms ++ ks) = b' ← apply_all b ms; apply_all b' ks.
Proof.
  revert b. induction ms as [|m ms IH]; intros b; simpl; [done|].
  destruct (OrderBook.apply b m); simpl; [apply IH|done].
Qed.

Lemma at_locate_snoc loc ms m :
  at_locate loc (ms ++ [m]) = at_locate loc ms ++ (if decide (stock_locate m = loc) then [m] else []).
Proof. unfold at_locate. by rewrite filter_app, filter_cons, filter_nil. Qed.

Lemma at_locate_zlen loc ms : zlen (at_locate loc ms) ≤ zlen ms.
Proof. unfold zlen, at_locate. pose proof (length_filter (λ m, stock_locate m = loc) ms). lia. Qed.

Lemma at_locate_ok loc ms : Forall msg_ok ms → Forall msg_ok (at_locate loc ms).
Proof.
  rewrite !Forall_forall. intros H m [_ Hin]%list_elem_of_filter. by apply H.
Qed.

Lemma trim_loop_total s n : (n ≤ length s)%nat → ∃ k, trim_loop s n = Some k ∧ (k ≤ n)%nat.
Proof.
  induction n as [|n IH]; intros Hn; [by exists O|]. cbn [trim_loop].
  destruct (lookup_lt_is_Some_2 s n) as [c ->]; [lia|]. cbn [mbind option_bind].
  destruct (c =? 32); [|eauto]. destruct IH as (k & -> & ?); [lia|]. eauto.
Qed.

(** A book of fewer than [2^32] messages is built without leaving a vector. *)
Lemma map_book_total ms :
  Forall msg_ok ms → zlen ms ≤ 2 ^ 32 → is_Some (apply_all (F:=MapLevels) book0 ms).
Proof.
  intros Hm Hl. destruct (apply_all_safe (F:=MapLevels) ms book0 book0_safe Hm) as (b & -> & _);
    [by change (cap book0) with 0|done].
Qed.

Lemma unrouted_apply (b : OrderBook) m : routed m = false → OrderBook.apply b m = Some b.
Proof. unfold routed, OrderBook.apply. by destruct (type m). Qed.

(** The state of the set after [ms]. *)

Record set_rep (ms : list Message) (bs : BookSet) : Prop := {
  sr_book : ∀ loc, apply_all book0 (at_locate loc ms) = Some (book_of bs loc);
  sr_dom : ∀ loc, is_Some (books_ bs !! loc) ↔ Exists (λ m, routed m = true) (at_locate loc ms);
  sr_symbol : ∀ loc, symbols_ bs !! loc =
    last (filter (λ m, type m = StockDirectory) (at_locate loc ms)) ≫= λ m, trim (stock m);
}.

(** Overwriting the book of one locate. *)
Lemma set_rep_book ms bs m b :
  set_rep ms bs → routed m = true → type m ≠ StockDirectory →
  OrderBook.apply (book_of bs (stock_locate m)) m = Some b →
  set_rep (ms ++ [m]) (mkSet (<[stock_locate m := b]> (books_ bs)) (symbols_ bs)).
Proof.
  intros [Hb Hd Hs] Hr Ht Ha. split; intros loc; rewrite at_locate_snoc; case_decide as E.
  - subst loc. rewrite apply_all_app, Hb. cbn [mbind option_bind apply_all]. rewrite Ha.
    unfold book_of. simpl. by rewrite lookup_insert_eq.
  - rewrite app_nil_r, Hb. unfold book_of. simpl. by rewrite lookup_insert_ne.
  - subst loc. simpl. rewrite lookup_insert_eq, Exists_app, Exists_cons. naive_solver.
  - simpl. by rewrite lookup_insert_ne, app_nil_r.
  - subst loc. simpl. rewrite filter_app, filter_cons_False, filter_nil, app_nil_r by done. apply Hs.
  - rewrite app_nil_r. apply Hs.
Qed.

Lemma set_rep_directory ms bs m sym :
  set_rep ms bs → type m = StockDirectory → trim (stock m) = Some sym →
  set_rep (ms ++ [m])
    (mkSet (<[stock_locate m := book_of bs (stock_locate m)]> (books_ bs))
           (<[stock_locate m := sym]> (symbols_ bs))).
Proof.
  intros [Hb Hd Hs] Ht Hsym. assert (Hr : routed m = true) by (unfold routed; by rewrite Ht).
  split; intros loc; rewrite at_locate_snoc; case_decide as E.
  - subst loc. rewrite apply_all_app, Hb. cbn [mbind option_bind apply_all]. unfold OrderBook.apply.
    rewrite Ht. cbn [mbind option_bind]. unfold book_of. simpl. by rewrite lookup_insert_eq.
  - rewrite app_nil_r, Hb. unfold book_of. simpl. by rewrite lookup_insert_ne.
  - subst loc. simpl. rewrite lookup_insert_eq, Exists_app, Exists_cons. naive_solver.
  - simpl. by rewrite lookup_insert_ne, app_nil_r.
  - subst loc. simpl. rewrite lookup_insert_eq, filter_app, filter_cons_True, filter_nil by done.
    by rewrite last_snoc.
  - simpl. by rewrite lookup_insert_ne, app_nil_r.
Qed.

Lemma set_rep_skip ms bs m : set_rep ms bs → routed m = false → set_rep (ms ++ [m]) bs.
Proof.
  intros [Hb Hd Hs] Hr. split; intros loc; rewrite at_locate_snoc; case_decide; rewrite ?app_nil_r; try done.
  - rewrite apply_all_app, Hb. cbn [mbind option_bind apply_all]. by rewrite unrouted_apply.
  - rewrite Hd, Exists_app, Exists_cons, Exists_nil, Hr. naive_solver.
  - rewrite filter_app, filter_cons_False, filter_nil, app_nil_r; [done|].
    intros Ht. unfold routed in Hr. by rewrite Ht in Hr.
Qed.

Lemma set0_rep : set_rep [] set0.
Proof.
  split; intros loc; [done| |done]. unfold at_locate. rewrite filter_nil, Exists_nil.
  simpl. rewrite lookup_empty. split; [by intros []|done].
Qed.

Lemma set_apply_rep ms bs m :
  set_rep ms bs → Forall msg_ok (ms ++ [m]) → zlen (ms ++ [m]) ≤ 2 ^ 32 →
  ∃ bs', apply bs m = Some bs' ∧ set_rep (ms ++ [m]) bs'.
Proof.
  intros Hr Hm Hl. destruct (routed m) eqn:Er.
  2: { exists bs. split; [|by apply set_rep_skip]. unfold apply, routed in *. by destruct (type m). }
  destruct (decide (type m = StockDirectory)) as [Ht|Ht].
  - assert (Hstock : length (stock m) = 8%nat).
    { apply Forall_app in Hm as [_ Hm%Forall_inv]. apply (mo_stock m Hm). }
    destruct (trim_loop_total (stock m) 8) as (k & Hk & _); [lia|].
    assert (Hsym : trim (stock m) = Some (take k (stock m))) by (unfold trim; by rewrite Hk).
    eexists. split; [|by eapply set_rep_directory]. unfold apply. by rewrite Ht, Hsym.
  - assert (Hb : is_Some (OrderBook.apply (book_of bs (stock_locate m)) m)).
    { pose proof (map_book_total (at_locate (stock_locate m) (ms ++ [m]))) as Htot.
      rewrite at_locate_snoc, decide_True, apply_all_app, (sr_book ms bs Hr) in Htot by done.
      cbn [mbind option_bind apply_all] in Htot.
      destruct (OrderBook.apply _ m); [done|]. apply Htot.
      - rewrite <- (decide_True (P:=stock_locate m = stock_locate m) [m] []), <- at_locate_snoc by done.
        by apply at_locate_ok.
      - rewrite <- (decide_True (P:=stock_locate m = stock_locate m) [m] []), <- at_locate_snoc by done.
        pose proof (at_locate_zlen (stock_locate m) (ms ++ [m])). lia. }
    destruct Hb as [b Hb]. eexists. split; [|by eapply set_rep_book].
    unfold apply, routed in *. rewrite Hb. by destruct (type m).
Qed.

Lemma apply_set_rep ms :
  Forall msg_ok ms → zlen ms ≤ 2 ^ 32 → ∃ bs, apply_set set0 ms = Some bs ∧ set_rep ms bs.
Proof.
  induction ms as [|m ms IH] using rev_ind; intros Hm Hl; [exists set0; split; [done|apply set0_rep]|].
  destruct IH as (bs & E & Hr); [by apply Forall_app in Hm as []|rewrite zlen_app in Hl; pose proof (zlen_nonneg [m]); lia|].
  destruct (set_apply_rep ms bs m Hr Hm Hl) as (bs' & E' & Hr'). exists bs'. split; [|done].
  unfold apply_set in *. rewrite foldM_app, E. cbn [mbind option_bind foldM]. by rewrite E'.
Qed.

(** * Merging shards *)

Lemma emplace_union {A} (m : gmap Z A) l : foldl emplace m l = m ∪ list_to_map l.
Proof.
  revert m. induction l as [|[k v] l IH]; intros m; simpl; [by rewrite map_union_empty|].
  rewrite IH. unfold emplace. simpl. apply map_eq. intros j.
  destruct (m !! k) as [x|] eqn:Hk; rewrite !lookup_union; destruct (decide (j = k)) as [->|Hne];
    rewrite ?lookup_insert_eq, ?lookup_insert_ne, ?Hk by done; try done;
    by destruct (list_to_map l !! _).
Qed.

Lemma emplace_all {A} (m o : gmap Z A) iter :
  iter ≡ₚ map_to_list o → foldl emplace m iter = m ∪ o.
Proof.
  intros Hp. rewrite emplace_union. f_equal. rewrite (list_to_map_proper iter (map_to_list o)); [|by rewrite Hp; apply NoDup_fst_map_to_list|done].
  apply list_to_map_to_list.
Qed.

(** A set is determined by the books and the symbols of its locates. *)
Lemma set_rep_unique ms bs1 bs2 : set_rep ms bs1 → set_rep ms bs2 → bs1 = bs2.
Proof.
  intros [B1 D1 S1] [B2 D2 S2]. destruct bs1 as [b1 s1], bs2 as [b2 s2]. simpl in *. f_equal.
  - apply map_eq. intros loc. specialize (B1 loc). specialize (B2 loc). rewrite B1 in B2.
    unfold book_of in B2. simpl in B2. specialize (D1 loc). rewrite <- (D2 loc) in D1.
    destruct (b1 !! loc), (b2 !! loc); simpl in *; [by f_equal; simplify_eq| | |done].
    + by destruct (proj1 D1) as [? ?].
    + by destruct (proj2 D1) as [? ?].
  - apply map_eq. intros loc. by rewrite S1, S2.
Qed.

(** * Partitioning a feed *)

(** The messages of the locates that [keep] selects. *)

Definition part (keep : Z → Prop) `{∀ l, Decision (keep l)} (ms : list Message) : list Message :=
  filter (λ m, keep (stock_locate m)) ms.

Lemma at_locate_part (keep : Z → Prop) `{∀ l, Decision (keep l)} loc ms :
  at_locate loc (part keep ms) = if decide (keep loc) then at_locate loc ms else [].
Proof.
  unfold at_locate, part. induction ms as [|m ms IH]; [by case_decide|].
  rewrite !filter_cons.
  destruct (decide (keep (stock_locate m))) as [Hk|Hk];
    destruct (decide (stock_locate m = loc)) as [<-|Hne]; rewrite ?filter_cons, IH;
    repeat case_decide; done.
Qed.

(** Two sets built from disjoint parts of a feed merge into the set of both parts. *)
Lemma merge_parts ms keep1 keep2 keep `{∀ l, Decision (keep1 l)} `{∀ l, Decision (keep2 l)}
    `{∀ l : Z, Decision (keep l)} bs1 bs2 iter_b iter_s :
  (∀ l, keep1 l → ¬ keep2 l) → (∀ l, keep l ↔ keep1 l ∨ keep2 l) →
  set_rep (part keep1 ms) bs1 → set_rep (part keep2 ms) bs2 →
  iter_b ≡ₚ map_to_list (books_ bs2) → iter_s ≡ₚ map_to_list (symbols_ bs2) →
  set_rep (part keep ms) (merge_from bs1 iter_b iter_s).1.
Proof.
  intros Hdis Hk [B1 D1 S1] [B2 D2 S2] Hb Hs. unfold merge_from. simpl.
  rewrite (emplace_all _ (books_ bs2) _ Hb), (emplace_all _ (symbols_ bs2) _ Hs).
  assert (Hone : ∀ l, let bs := if decide (keep1 l) then bs1 else bs2 in
    (books_ bs1 ∪ books_ bs2) !! l = books_ bs !! l ∧
    (symbols_ bs1 ∪ symbols_ bs2) !! l = symbols_ bs !! l ∧
    at_locate l (part keep ms) =
      at_locate l (if decide (keep1 l) then part keep1 ms else part keep2 ms)).
  { intros l. specialize (Hdis l). specialize (Hk l). specialize (D1 l). specialize (D2 l).
    specialize (S1 l). specialize (S2 l). rewrite at_locate_part in *.
    destruct (decide (keep1 l)) as [Hin|Hin].
    - rewrite decide_False in D2, S2 by tauto. rewrite Exists_nil in D2. rewrite at_locate_part.
      rewrite !lookup_union_l; [rewrite !decide_True by tauto; done|done|].
      destruct (books_ bs2 !! l); [|done]. by destruct (proj1 D2).
    - rewrite Exists_nil in D1. rewrite at_locate_part.
      rewrite !lookup_union_r; [split_and!; [done..|]; repeat case_decide; tauto|done|].
      destruct (books_ bs1 !! l); [|done]. by destruct (proj1 D1). }
  split; intros l; destruct (Hone l) as (Eb & Es & Ea); simpl; rewrite ?Ea, ?Eb, ?Es; unfold book_of; simpl;
    rewrite ?Eb; clear Hone Ea Eb Es; case_decide; auto.
Qed.

(** * Properties *)

(** C15: Routing keeps the instruments apart.  A multi-symbol feed of fewer than 2^32 decoded
    messages is applied without an out-of-bounds access; afterwards the book of a locate
    exists exactly when a directory entry or an order message for it was seen, and it is
    the book that the messages of that locate alone, in their order, build; the symbol of a
    locate is the trimmed name of its last directory entry. *)
Theorem book_set_isolates ms :
  Forall msg_ok ms → zlen ms ≤ 2 ^ 32 →
  ∃ bs, apply_set set0 ms = Some bs ∧ ∀ loc,
    match book bs loc with
    | Some b => Exists (λ m, routed m = true) (at_locate loc ms) ∧
                apply_all book0 (at_locate loc ms) = Some b
    | None => Forall (λ m, routed m = false) (at_locate loc ms)
    end ∧
    symbol bs loc =
      match last (filter (λ m, type m = StockDirectory) (at_locate loc ms)) with
      | Some m => default [] (trim (stock m))
      | None => []
      end.
Proof.
  intros Hm Hl. destruct (apply_set_rep ms Hm Hl) as (bs & E & [Hb Hd Hs]). exists bs.
  split; [done|]. intros loc. specialize (Hb loc). specialize (Hd loc). specialize (Hs loc). split.
  - unfold book, book_of in *. destruct (books_ bs !! loc) as [b|] eqn:Eb.
    + split; [by apply Hd|done].
    + apply Forall_forall. intros m Hin. destruct (routed m) eqn:Er; [|done].
      destruct (proj2 Hd) as [? ?]; [|done]. apply Exists_exists. by exists m.
  - unfold symbol. rewrite Hs. by destruct (last _).
Qed.

(** Two instruments, one of them named. *)

Definition two_symbols : list Message :=
  [ mkMessage StockDirectory 2 0 0 0 0 SideNone 0 0 [65; 66; 67; 32; 32; 32; 32; 32] 0;
    mkMessage AddOrder 2 0 7 0 0 Buy 10 500 (replicate 8 32) 0;
    mkMessage AddOrder 9 0 7 0 0 Sell 20 600 (replicate 8 32) 0;
    mkMessage OrderDelete 9 0 7 0 0 SideNone 0 0 (replicate 8 32) 0 ].

Lemma book_set_isolates_witness :
  ∃ bs, apply_set set0 two_symbols = Some bs ∧
    book bs 5 = None ∧ symbol bs 2 = [65; 66; 67] ∧
    ∃ b, book bs 9 = Some b ∧ apply_all book0 (at_locate 9 two_symbols) = Some b.
Proof.
  assert (Hm : Forall msg_ok two_symbols) by (apply (bool_decide_unpack _); vm_compute; exact I).
  destruct (book_set_isolates two_symbols Hm) as (bs & E & H); [vm_compute; discriminate|].
  exists bs. split; [exact E|]. vm_compute in E. injection E as <-.
  split; [vm_compute; reflexivity|]. split; [rewrite (proj2 (H 2)); vm_compute; reflexivity|].
  pose proof (proj1 (H 9)) as H9. eexists. split; [vm_compute; reflexivity|]. apply H9.
Defined.
