(* ===== verification/BookTyping.v ===== *)
(** Machine-width typing of the book (include/book/order_book.hpp, include/core/flat_levels.hpp,
    include/core/windowed_levels.hpp, include/core/object_pool.hpp, include/book/book_set.hpp):
    the values of [Z] that stand for 16-, 32- and 64-bit integers stay in the range of their type.
    Unlike the refinement of the abstract book this holds for every sequence of decoded messages,
    also when level totals wrap around or references are reused.  [TypedStore] is what a level store
    promises for its own state. *)
From S2P Require Export BookSet FlatLevels WindowedFacts.

(** A level: a price and a quantity, [std::int64_t] and [std::uint32_t]. *)

Definition level_typed (pq : Price * Qty) : Prop := fits 63 pq.1 ∧ fits 32 pq.2.

Class TypedStore (F : Compare → Type) `{LevelStore F} := {
  ls_typed : ∀ {c}, F c → Prop;
  typed_empty : ∀ c, ls_typed (ls_empty c);
  typed_inc : ∀ c (s s' : F c) p q, ls_typed s → price_ok p → fits 32 q → ls_inc s p q = Some s' → ls_typed s';
  typed_dec : ∀ c (s s' : F c) p q, ls_typed s → price_ok p → ls_dec s p q = Some s' → ls_typed s';
  typed_best : ∀ c (s : F c) pq, ls_typed s → ls_best s = Some (Some pq) → level_typed pq;
  typed_at : ∀ c (s : F c) p q, ls_typed s → ls_at s p = Some q → fits 32 q;
  typed_top : ∀ c (s : F c) n l, ls_typed s → ls_top s n = Some l → Forall level_typed l;
}.

(** * Lists of levels *)

Lemma price_level p q : price_ok p → fits 32 q → level_typed (p, q).
Proof. unfold price_ok, fits, level_typed, fits. simpl. lia. Qed.

Section Lists.
Context (P : Price * Qty → Prop).

Lemma Forall_put c l p v : Forall P l → P (p, v) → Forall P (put c l p v).
Proof.
  rewrite !Forall_forall. intros Hl Hp [k w] Hin. apply put_elem in Hin as [[-> ->]|Hin]; [done|by apply Hl].
Qed.

Lemma Forall_erase c l p : Forall P l → Forall P (erase c l p).
Proof. rewrite !Forall_forall. intros Hl [k w] Hin. apply Hl. by eapply erase_elem. Qed.

Lemma find_In c l p v : StdMap.find c l p = Some v → ∃ k, (k, v) ∈ l.
Proof.
  induction l as [|[k w] l IH]; simpl; [done|]. destruct (cmp c k p); [|destruct (cmp c p k); [done|]].
  - intros [k' Hk]%IH. exists k'. by right.
  - intros [= ->]. exists k. by left.
Qed.
End Lists.

Lemma vset_Forall {A} (P : A → Prop) (l l' : list A) i x : Forall P l → P x → l.[i <- x] = Some l' → Forall P l'.
Proof. intros Hl Hx E. unfold vset in E. case_decide; [|done]. injection E as <-. by apply Forall_insert. Qed.

Lemma vget_Forall {A} (P : A → Prop) (l : list A) i x : Forall P l → l.[i] = Some x → P x.
Proof. intros Hl E. unfold vget in E. case_decide; [|done]. by eapply Forall_lookup_1. Qed.

Lemma find_typed c l p : Forall level_typed l → fits 32 (default 0 (StdMap.find c l p)).
Proof.
  intros Hl. destruct (StdMap.find c l p) as [v|] eqn:E; [|done]. apply find_In in E as [k Hk]. rewrite Forall_forall in Hl.
  by destruct (Hl _ Hk).
Qed.

(** * The three stores *)

Lemma head_typed (l : list (Price * Qty)) pq : Forall level_typed l → head l = Some pq → level_typed pq.
Proof. intros Hl E. destruct l as [|x l]; [done|]. injection E as <-. by apply Forall_cons in Hl as [? _]. Qed.

#[global, refine] Instance MapLevels_typed : TypedStore MapLevels := {| ls_typed c s := Forall level_typed (m_ s) |}.
Proof.
  - constructor.
  - intros c s s' p q Hs Hp Hq [= <-]. unfold MapLevels.inc. apply Forall_put; [done|]. apply price_level; [done|apply u32_range].
  - intros c s s' p q Hs Hp [= <-]. unfold MapLevels.dec. destruct (StdMap.find c (m_ s) p); [|done]. destruct (_ =? 0); [by apply Forall_erase|].
    apply Forall_put; [done|]. apply price_level; [done|apply u32_range].
  - intros c s pq Hs [= E]. by eapply head_typed.
  - intros c s p q Hs [= <-]. by apply find_typed.
  - intros c s n l Hs [= <-]. rewrite top_take. by apply Forall_take.
Defined.

Lemma flat_top_Forall (P : Price * Qty → Prop) v i n k : Forall P v → Forall P (FlatLevels.top_loop v i n k).
Proof.
  intros Hv. revert i. induction k as [|k IH]; intros i; simpl; [constructor|]. case_decide; [|constructor].
  destruct (v !! i) as [a|] eqn:E; [|constructor]. constructor; [by eapply Forall_lookup_1|apply IH].
Qed.

Lemma flat_hit_typed {c} (s : FlatLevels c) it p a : Forall level_typed (v_ s) → FlatLevels.hit s it p = Some (Some a) → level_typed a.
Proof.
  intros Hs E. unfold FlatLevels.hit in E. destruct (_ =? _); [done|]. apply bind_Some in E as (x & Ex & E).
  destruct (_ =? _); simplify_eq. by eapply vget_Forall.
Qed.

(** The quantity of a level that was hit is replaced by a wrapped one. *)
Lemma flat_set_typed {c} (s : FlatLevels c) it p a q v :
  Forall level_typed (v_ s) → FlatLevels.hit s it p = Some (Some a) → (v_ s).[it <- (a.1, u32 q)] = Some v → Forall level_typed v.
Proof.
  intros Hs Hh Hv. destruct (flat_hit_typed _ _ _ _ Hs Hh) as [Ha _]. eapply vset_Forall; [done| |done]. split; [done|apply u32_range].
Qed.

#[global, refine] Instance FlatLevels_typed : TypedStore FlatLevels := {| ls_typed c s := Forall level_typed (v_ s) |}.
Proof.
  - constructor.
  - intros c s s' p q Hs Hp Hq E. change (FlatLevels.inc s p q = Some s') in E. apply bind_Some in E as (it & _ & E).
    apply bind_Some in E as ([a|] & Eh & E).
    + apply bind_Some in E as (v & Ev & [= <-]). by eapply flat_set_typed.
    + injection E as <-. apply Forall_app. split; [by apply Forall_take|]. constructor; [by apply price_level|by apply Forall_drop].
  - intros c s s' p q Hs Hp E. change (FlatLevels.dec s p q = Some s') in E. apply bind_Some in E as (it & _ & E).
    apply bind_Some in E as ([a|] & Eh & E); [|by injection E as <-].
    apply bind_Some in E as (v & Ev & E). pose proof (flat_set_typed _ _ _ _ _ _ Hs Eh Ev).
    destruct (_ =? 0); injection E as <-; [by apply Forall_delete|done].
  - intros c s pq Hs [= E]. by eapply head_typed.
  - intros c s p q Hs E. change (FlatLevels.at_ s p = Some q) in E. apply bind_Some in E as (it & _ & E).
    apply bind_Some in E as ([a|] & Eh & [= <-]); [|done]. by destruct (flat_hit_typed _ _ _ _ Hs Eh).
  - intros c s n l Hs [= <-]. by apply flat_top_Forall.
Defined.

(** ** The window *)

Definition wide_level (pq : Price * Qty) : Prop := fits 33 pq.1 ∧ fits 32 pq.2.

Record window_typed {c} (w : WindowedLevels c) : Prop := {
  wt_slots : Forall (fits 32) (WindowedLevels.slots_ w) ∧ zlen (WindowedLevels.slots_ w) ≤ kWindow;
  wt_overflow : Forall wide_level (overflow_ w);
  wt_base : fits 32 (base_ w);
  wt_counters : fits 64 (best_idx_ w) ∧ fits 64 (count_ w);
}.

Lemma wide_level_typed pq : wide_level pq → level_typed pq.
Proof. unfold wide_level, level_typed, fits. lia. Qed.

Lemma price_wide p q : price_ok p → fits 32 q → wide_level (p, q).
Proof. unfold price_ok, wide_level, fits. simpl. lia. Qed.

(** A slot as a level. *)
Lemma slot_wide {c} (w : WindowedLevels c) i v :
  window_typed w → (WindowedLevels.slots_ w).[i] = Some v → wide_level (base_ w + i, v).
Proof.
  intros [[Hs Hl] _ Hb _] E. pose proof (vget_Some _ _ _ E). pose proof (vget_Forall _ _ _ _ Hs E) as Hv.
  change kWindow with 65536 in Hl. unfold wide_level, fits in *. simpl. lia.
Qed.

Section Window.
Context {c : Compare}.
Implicit Types w : WindowedLevels c.

Lemma set_slot_typed w i v slots best count :
  window_typed w → fits 32 v → (WindowedLevels.slots_ w).[i <- v] = Some slots → fits 64 best → fits 64 count →
  window_typed (c:=c) (mkWin slots (overflow_ w) (base_ w) best count (has_base_ w)).
Proof.
  intros [[Hs Hl] Ho Hb _] Hv E Hbest Hcount. split; simpl; [|done|done|done]. split; [by eapply vset_Forall|].
  apply vset_length in E. lia.
Qed.

Lemma place_typed w p q w' : window_typed w → place_in_window w p q = Some w' → window_typed w'.
Proof.
  intros Hw E. unfold place_in_window in E. apply bind_Some in E as (v & Ev & E). apply bind_Some in E as (slots & Es & [= <-]).
  pose proof (wt_counters w Hw) as [? ?]. assert (fits 64 (index w p)) by apply u64_range.
  destruct (v =? 0); apply (set_slot_typed w (index w p) (u32 (v + q))); try done; try apply u32_range; try apply u64_range.
  by destruct ((count_ w =? 0) || better p (window_best_price w)).
Qed.

Lemma spill_typed w p q : window_typed w → fits 33 p → window_typed (spill w p q).
Proof.
  intros [Hs Ho Hb Hc] Hp. split; try done. apply Forall_put; [done|]. split; [done|apply u32_range].
Qed.

Lemma rebucket_all_typed l w w' : window_typed w → Forall wide_level l → rebucket_all w l = Some w' → window_typed w'.
Proof.
  intros Hw Hl. revert w Hw. induction Hl as [|[p q] l [Hp Hq] _ IH]; intros w Hw E; [by injection E as <-|].
  apply bind_Some in E as (w1 & E1 & E). apply (IH w1); [|done]. unfold rebucket in E1. destruct (in_window w _).
  - by eapply place_typed.
  - injection E1 as <-. by apply spill_typed.
Qed.

Lemma collect_typed (base i : Z) slots :
  fits 32 base → 0 ≤ i → i + zlen slots ≤ kWindow → Forall (fits 32) slots → Forall wide_level (collect base i slots).
Proof.
  intros Hb Hi Hl Hs. revert i Hi Hl. induction Hs as [|v slots Hv _ IH]; intros i Hi Hl; simpl; [constructor|].
  rewrite zlen_cons in Hl. pose proof (zlen_nonneg slots).
  assert (Forall wide_level (collect base (i + 1) slots)) by (apply IH; lia). destruct (v =? 0); [done|]. constructor; [|done].
  change kWindow with 65536 in Hl. unfold wide_level, fits in *. simpl. lia.
Qed.

Lemma recenter_typed w p w' : window_typed w → price_ok p → recenter_to w p = Some w' → window_typed w'.
Proof.
  intros [[Hs Hl] Ho Hb Hc] Hp. unfold recenter_to. apply rebucket_all_typed.
  - split; simpl; [|constructor| |done].
    + split; [by apply Forall_replicate|]. unfold zlen. rewrite length_replicate. change kWindow with 65536. lia.
    + change (kWindow / 2) with 32768. unfold price_ok, fits in *. destruct (Z.ltb_spec (p - 32768) 0); lia.
  - apply Forall_app. split; [|done]. destruct (has_base_ w); [|constructor]. apply collect_typed; [done|lia|lia|done].
Qed.

Lemma window_inc_typed w w' p q : window_typed w → price_ok p → WindowedLevels.inc w p q = Some w' → window_typed w'.
Proof.
  intros Hw Hp E. unfold WindowedLevels.inc in E. destruct (q =? 0); [by injection E as <-|].
  assert (Hm : ∀ x, (w1 ← recenter_to w p; place_in_window w1 p q) = Some x → window_typed x).
  { intros x (w1 & E1 & E2)%bind_Some. eapply place_typed; [|done]. by eapply recenter_typed. }
  destruct (negb (has_base_ w)); [by apply Hm|]. destruct (negb (in_window w p)); [|by eapply place_typed].
  apply bind_Some in E as ([] & _ & E); [by apply Hm|]. injection E as <-. apply spill_typed; [done|]. unfold price_ok, fits in *. lia.
Qed.

Lemma next_idx_typed slots fuel i b j : fits 64 i → next_window_idx_loop (c:=c) fuel slots i = Some (b, j) → fits 64 j.
Proof.
  revert i. induction fuel as [|fuel IH]; intros i Hi E; [done|]. cbn [next_window_idx_loop] in E. destruct high_first.
  - destruct (Z.eqb_spec i 0); [by injection E as <- <-|]. apply bind_Some in E as (v & Ev & E). apply vget_Some in Ev.
    assert (fits 64 (i - 1)) by (unfold fits in *; lia). destruct (v =? 0); [by apply (IH (i - 1))|by injection E as <- <-].
  - pose proof (u64_range (i + 1)) as Hj. destruct (_ <=? _); [by injection E as <- <-|]. apply bind_Some in E as (v & Ev & E).
    destruct (v =? 0); [by apply (IH (u64 (i + 1)))|by injection E as <- <-].
Qed.

Lemma scan_down_range slots j x : scan_down slots j = Some x → 0 ≤ x < zlen slots.
Proof.
  induction j as [|j IH]; simpl; [done|]. destruct (slots !! j) as [v|] eqn:Ev; [|done]. destruct (v =? 0); [done|].
  intros [= <-]. apply lookup_lt_Some in Ev. unfold zlen. lia.
Qed.

Lemma scan_up_range slots j x : scan_up slots j = Some x → j ≤ x < j + zlen slots.
Proof.
  revert j. induction slots as [|v slots IH]; intros j; simpl; [done|]. rewrite zlen_cons. pose proof (zlen_nonneg slots).
  destruct (v =? 0); [intros ?%IH; lia|]. intros [= <-]. lia.
Qed.

Lemma rescan_typed w w' : window_typed w → rescan_best w = Some w' → window_typed w'.
Proof.
  intros Hw E. pose proof Hw as [[Hs Hl] Ho Hb [Hi Hc]]. change kWindow with 65536 in Hl.
  assert (Hset : ∀ i, fits 64 i → window_typed (set_best w i)) by (intros i ?; by split).
  unfold rescan_best in E. destruct (count_ w =? 0); [injection E as <-; by apply Hset|].
  apply bind_Some in E as ([[] j] & Ej & [= <-]).
  - apply Hset. exact (next_idx_typed _ _ _ _ _ Hi Ej).
  - destruct (if high_first then _ else _) as [x|] eqn:Ex; [|done]. apply Hset. pose proof (zlen_nonneg (WindowedLevels.slots_ w)).
    destruct high_first; [apply scan_down_range in Ex|apply scan_up_range in Ex]; unfold fits; lia.
Qed.

Lemma window_dec_typed w w' p q : window_typed w → price_ok p → WindowedLevels.dec w p q = Some w' → window_typed w'.
Proof.
  intros Hw Hp E. pose proof Hw as [_ Ho Hb [Hi Hc]]. unfold WindowedLevels.dec in E. destruct (in_window w p).
  - apply bind_Some in E as (v & Ev & E). destruct (v =? 0); [by injection E as <-|]. apply bind_Some in E as (slots & Es & E).
    assert (Hset : ∀ n, fits 64 n → window_typed (c:=c) (mkWin slots (overflow_ w) (base_ w) (best_idx_ w) n (has_base_ w)))
      by (intros n ?; apply (set_slot_typed w (index w p) (u32 (v - q))); try done; apply u32_range).
    destruct (_ =? 0); [|injection E as <-; by apply Hset]. destruct (_ =? best_idx_ w).
    + eapply rescan_typed; [|done]. apply Hset, u64_range.
    + injection E as <-. apply Hset, u64_range.
  - destruct (StdMap.find c (overflow_ w) p); injection E as <-; [|done]. split; simpl; try apply Hw; try done.
    destruct (_ =? 0); [by apply Forall_erase|]. apply Forall_put; [done|]. apply price_wide; [done|apply u32_range].
Qed.

Lemma window_top_typed w n wi valid of_ l :
  window_typed w → Forall wide_level of_ → WindowedLevels.top_loop w n wi valid of_ = Some l → Forall level_typed l.
Proof.
  intros Hw. revert wi valid of_ l. induction n as [|n IH]; intros wi valid of_ l Hof E; [injection E as <-; constructor|].
  cbn [WindowedLevels.top_loop] in E. destruct (valid && _).
  - apply bind_Some in E as (v & Ev & E). apply bind_Some in E as (r & Er & E). apply bind_Some in E as (rest & Erest & [= <-]).
    constructor; [by apply wide_level_typed, slot_wide|by eapply IH].
  - destruct of_ as [|o of_]; [injection E as <-; constructor|]. apply Forall_cons in Hof as [Ho Hof].
    apply bind_Some in E as (rest & Erest & [= <-]). constructor; [by apply wide_level_typed|by eapply IH].
Qed.

Lemma window_best_typed w pq : window_typed w → WindowedLevels.best w = Some (Some pq) → level_typed pq.
Proof.
  intros Hw E. unfold WindowedLevels.best in E.
  assert (Hwin : ∀ x, (v ← (WindowedLevels.slots_ w).[best_idx_ w]; Some (Some (window_best_price w, v))) = Some (Some x) → level_typed x)
    by (intros x (v & Ev & [= <-])%bind_Some; by apply wide_level_typed, slot_wide).
  destruct (head (overflow_ w)) as [o|] eqn:Eo.
  - destruct (_ && _); [by apply Hwin|]. injection E as <-. apply wide_level_typed. pose proof (wt_overflow w Hw) as Ho.
    destruct (overflow_ w) as [|x l]; [done|]. injection Eo as <-. by apply Forall_cons in Ho as [? _].
  - destruct (0 <? count_ w); [by apply Hwin|done].
Qed.

Lemma window_at_typed w p q : window_typed w → WindowedLevels.at_ w p = Some q → fits 32 q.
Proof.
  intros [[Hs _] Ho _ _] E. unfold WindowedLevels.at_ in E. destruct (in_window w p); [by eapply vget_Forall|]. injection E as <-.
  apply find_typed. eapply Forall_impl; [exact Ho|]. apply wide_level_typed.
Qed.

End Window.

#[global, refine] Instance WindowedLevels_typed : TypedStore WindowedLevels := {| ls_typed c w := window_typed w |}.
Proof.
  - intros c. by split; simpl; [split; [constructor|]|constructor| |].
  - intros c s s' p q Hs Hp _ E. by eapply window_inc_typed.
  - intros c s s' p q Hs Hp E. by eapply window_dec_typed.
  - intros c s pq. apply window_best_typed.
  - intros c s p q. apply window_at_typed.
  - intros c s n l Hs E. exact (window_top_typed s n _ _ _ l Hs (wt_overflow s Hs) E).
Defined.

(** * The book *)

Definition order_typed (o : Order) : Prop := price_ok (o_price o) ∧ fits 32 (o_shares o).

Section Book.
Context {F : Compare → Type} `{TypedStore F}.
Implicit Types b : BasicOrderBook F.

Record book_typed b : Prop := {
  bt_bids : ls_typed (bids_ b);
  bt_asks : ls_typed (asks_ b);
  bt_orders : Forall order_typed (ObjectPool.slots_ (orders_ b));
  bt_free : Forall (fits 32) (free_ (orders_ b));
  bt_index : map_Forall (λ ref h, fits 64 ref ∧ fits 32 h) (index_ b);
}.

Lemma book0_typed : book_typed book0.
Proof. split; simpl; [apply typed_empty|apply typed_empty|constructor|constructor|apply map_Forall_empty]. Qed.

Lemma get_typed b h o : book_typed b → get (orders_ b) h = Some o → order_typed o.
Proof. intros Hb E. eapply vget_Forall; [apply (bt_orders b Hb)|exact E]. Qed.

Lemma inc_level_typed b b' sd p q : book_typed b → price_ok p → fits 32 q → inc_level b sd p q = Some b' → book_typed b'.
Proof.
  intros [Hb Ha Ho Hf Hi] Hp Hq E. unfold inc_level in E. case_decide; apply bind_Some in E as (s & Es & [= <-]); split; try done; by eapply typed_inc; [| | |exact Es].
Qed.

Lemma dec_level_typed b b' sd p q : book_typed b → price_ok p → dec_level b sd p q = Some b' → book_typed b'.
Proof.
  intros [Hb Ha Ho Hf Hi] Hp E. unfold dec_level in E. case_decide; apply bind_Some in E as (s & Es & [= <-]); split; try done; by eapply typed_dec; [| |exact Es].
Qed.

(** A slot of the pool overwritten. *)
Lemma pool_set_typed b h o pool : book_typed b → order_typed o → set (orders_ b) h o = Some pool → book_typed (mkBook (bids_ b) (asks_ b) pool (index_ b)).
Proof.
  intros [Hb Ha Hs Hf Hi] Ho E. apply bind_Some in E as (slots & Es & [= <-]). split; try done. simpl. by eapply vset_Forall.
Qed.

(** The handle that is handed out, with the storage grown by an empty order when needed. *)
Lemma alloc_typed b h pool :
  book_typed b → alloc order0 (orders_ b) = (h, pool) →
  fits 32 h ∧ ∀ idx, map_Forall (λ ref h, fits 64 ref ∧ fits 32 h) idx → book_typed (mkBook (bids_ b) (asks_ b) pool idx).
Proof.
  intros [Hb Ha Ho Hf Hi] E. unfold alloc in E. destruct (last (free_ (orders_ b))) as [h'|] eqn:El; injection E as <- <-.
  - apply last_Some in El as [l El]. rewrite El in Hf. apply Forall_app in Hf as [Hl Hh]. apply Forall_cons in Hh as [Hh _].
    split; [done|]. intros idx Hx. split; try done. simpl. by rewrite El, removelast_last.
  - split; [apply u32_range|]. intros idx Hx. split; try done. simpl. apply Forall_app. split; [done|]. by repeat constructor.
Qed.

Lemma add_typed b b' ref sd p q :
  book_typed b → fits 64 ref → price_ok p → fits 32 q → add b ref sd p q = Some b' → book_typed b'.
Proof.
  intros Hb Hr Hp Hq E. unfold add in E. destruct (q =? 0); [by injection E as <-|].
  destruct (alloc order0 (orders_ b)) as [h pool] eqn:Ea. destruct (alloc_typed b h pool Hb Ea) as [Hh Hpool].
  apply bind_Some in E as (pool' & Es & E).
  assert (Hidx : map_Forall (λ ref h, fits 64 ref ∧ fits 32 h) (<[ref := h]> (index_ b))) by (apply map_Forall_insert_2; [done|apply Hb]).
  refine (inc_level_typed _ _ sd p q _ Hp Hq E). exact (pool_set_typed _ h (mkOrder sd p q) pool' (Hpool _ Hidx) (conj Hp Hq) Es).
Qed.

Lemma drop_order_typed b ref h : book_typed b → fits 32 h → book_typed (drop_order b ref h).
Proof.
  intros [Hb Ha Ho Hf Hi] Hh. split; try done; simpl; [|by apply map_Forall_delete]. apply Forall_app. split; [done|]. by constructor.
Qed.

Lemma reduce_typed b ref q r : book_typed b → reduce b ref q = Some r → book_typed r.2.
Proof.
  intros Hb E. unfold reduce in E. destruct (index_ b !! ref) as [h|] eqn:Ei; [|by injection E as <-].
  destruct (bt_index b Hb _ _ Ei) as [_ Hh]. apply bind_Some in E as (o & Eo & E). destruct (get_typed b h o Hb Eo) as [Hp Hs].
  apply bind_Some in E as (pool & Es & E). apply bind_Some in E as (b1 & E1 & [= <-]). simpl.
  assert (H1 : book_typed b1) by (eapply dec_level_typed; [|exact Hp|exact E1]; eapply pool_set_typed; [done| |done]; split; [done|apply u32_range]).
  destruct (_ =? 0); [by apply drop_order_typed|done].
Qed.

Lemma remove_typed b ref r : book_typed b → OrderBook.remove b ref = Some r → book_typed r.2.
Proof.
  intros Hb E. unfold OrderBook.remove in E. destruct (index_ b !! ref) as [h|] eqn:Ei; [|by injection E as <-].
  destruct (bt_index b Hb _ _ Ei) as [_ Hh]. apply bind_Some in E as (o & Eo & E). destruct (get_typed b h o Hb Eo) as [Hp Hs].
  apply bind_Some in E as (b1 & E1 & [= <-]). simpl. apply drop_order_typed; [|done].
  exact (dec_level_typed b b1 _ _ _ Hb Hp E1).
Qed.

Lemma replace_typed b orig new q p r :
  book_typed b → fits 64 new → price_ok p → fits 32 q → replace b orig new q p = Some r → book_typed r.2.
Proof.
  intros Hb Hn Hp Hq E. unfold replace in E. destruct (index_ b !! orig) as [h|]; [|by injection E as <-].
  apply bind_Some in E as (o & Eo & E). apply bind_Some in E as (r1 & E1 & E). apply bind_Some in E as (b1 & E2 & [= <-]). simpl.
  exact (add_typed _ _ _ _ _ _ (remove_typed _ _ _ Hb E1) Hn Hp Hq E2).
Qed.

Lemma apply_typed b m b' : book_typed b → msg_ok m → OrderBook.apply b m = Some b' → book_typed b'.
Proof.
  intros Hb [_ _ Hr Hn _ Hs Hp _] E. unfold OrderBook.apply in E.
  destruct (type m); first [by injection E as <- | exact (add_typed _ _ _ _ _ _ Hb Hr Hp Hs E) | apply bind_Some in E as (r & Er & [= <-])].
  - exact (reduce_typed _ _ _ _ Hb Er).
  - exact (reduce_typed _ _ _ _ Hb Er).
  - exact (reduce_typed _ _ _ _ Hb Er).
  - exact (remove_typed _ _ _ Hb Er).
  - exact (replace_typed _ _ _ _ _ _ Hb Hn Hp Hs Er).
Qed.

Lemma apply_all_typed b ms b' : book_typed b → Forall msg_ok ms → apply_all b ms = Some b' → book_typed b'.
Proof.
  intros Hb Hm. revert b Hb. induction Hm as [|m ms Hm _ IH]; intros b Hb E; [by injection E as <-|].
  apply bind_Some in E as (b1 & E1 & E). apply (IH b1); [|done]. exact (apply_typed _ _ _ Hb Hm E1).
Qed.

End Book.

(** * The book set *)

Record set_typed (bs : BookSet) : Prop := {
  st_books : map_Forall (λ loc b, fits 16 loc ∧ book_typed b) (books_ bs);
  st_symbols : map_Forall (λ loc sym, fits 16 loc ∧ bytes_ok sym ∧ zlen sym ≤ 8) (symbols_ bs);
}.

Lemma book_of_typed bs loc : set_typed bs → book_typed (book_of bs loc).
Proof.
  intros [Hb _]. unfold book_of. destruct (books_ bs !! loc) as [b|] eqn:E; [by destruct (Hb _ _ E)|apply book0_typed].
Qed.

Lemma set_apply_typed bs m bs' : set_typed bs → msg_ok m → BookSet.apply bs m = Some bs' → set_typed bs'.
Proof.
  intros Hs Hm E. pose proof Hs as [Hb Hy]. pose proof (mo_locate m Hm) as Hl. pose proof (book_of_typed bs (stock_locate m) Hs) as Hbk.
  assert (Hput : ∀ b, book_typed b → map_Forall (λ loc b, fits 16 loc ∧ book_typed b) (<[stock_locate m := b]> (books_ bs)))
    by (intros b ?; by apply map_Forall_insert_2).
  unfold BookSet.apply in E.
  destruct (type m); try (by injection E as <-);
    try (apply bind_Some in E as (b1 & E1 & [= <-]); split; [|done]; apply Hput; exact (apply_typed _ _ _ Hbk Hm E1)).
  apply bind_Some in E as (sym & Es & [= <-]). split; [by apply Hput|]. apply map_Forall_insert_2; [|done]. split; [done|].
  destruct (mo_stock m Hm) as [Hok Hlen]. apply bind_Some in Es as (n & _ & [= <-]). split; [by apply bytes_ok_take|].
  unfold zlen. rewrite length_take. lia.
Qed.

Lemma apply_set_typed bs ms bs' : set_typed bs → Forall msg_ok ms → apply_set bs ms = Some bs' → set_typed bs'.
Proof.
  intros Hs Hm. revert bs Hs. induction Hm as [|m ms Hm _ IH]; intros bs Hs E; [by injection E as <-|].
  apply bind_Some in E as (b1 & E1 & E). apply (IH b1); [|done]. exact (set_apply_typed _ _ _ Hs Hm E1).
Qed.

(** The state of the engine is well typed.  Whatever decoded messages are applied, in any order,
    also with reused references and totals that wrap around, and with any of the three level stores:
    every stored order has a 32-bit price and quantity, every handle and free-list entry is a 32-bit
    value, every reference a 64-bit one, every level a 64-bit price and a 32-bit total, and so is
    what the queries return; in a book set the locates are 16-bit values and the symbols byte
    strings of at most 8 characters. *)
Theorem engine_state_typed {F : Compare → Type} `{TypedStore F} (ms : list Message) (b : BasicOrderBook F) (bs : BookSet) :
  Forall msg_ok ms →
  (apply_all book0 ms = Some b →
   book_typed b ∧
   (∀ pq, best_bid b = Some (Some pq) ∨ best_ask b = Some (Some pq) → level_typed pq) ∧
   (∀ sd p q, qty_at b sd p = Some q → fits 32 q) ∧
   (∀ sd n l, depth b sd n = Some l → Forall level_typed l)) ∧
  (apply_set set0 ms = Some bs → set_typed bs).
Proof.
  intros Hm. split; [intros E|intros E].
  - pose proof (apply_all_typed _ _ _ book0_typed Hm E) as Hb. pose proof Hb as [Hbid Hask _ _ _]. split_and!; [done| | |].
    + intros pq [?|?]; [by apply (typed_best _ _ _ Hbid)|by apply (typed_best _ _ _ Hask)].
    + intros sd p q Hq. unfold qty_at in Hq. case_decide; [by apply (typed_at _ _ _ _ Hbid Hq)|by apply (typed_at _ _ _ _ Hask Hq)].
    + intros sd n l Hl. unfold depth in Hl. case_decide; [by apply (typed_top _ _ _ _ Hbid Hl)|by apply (typed_top _ _ _ _ Hask Hl)].
  - eapply apply_set_typed; [|done|done]. split; apply map_Forall_empty.
Qed.

(** Two orders at one price whose total wraps around. *)

Definition wrap_feed : list Message :=
  [mkMessage AddOrder 1 0 7 0 0 Buy 4294967295 1000000 (replicate 8 32) 0;
   mkMessage AddOrder 1 0 8 0 0 Buy 5 1000000 (replicate 8 32) 0].

Lemma engine_state_typed_witness :
  ∃ b : BasicOrderBook FlatLevels, apply_all book0 wrap_feed = Some b ∧ best_bid b = Some (Some (1000000, 4)) ∧ level_typed (1000000, 4).
Proof.
  destruct (apply_all (F := FlatLevels) book0 wrap_feed) as [b|] eqn:E; [|vm_compute in E; discriminate].
  assert (Hm : Forall msg_ok wrap_feed) by (repeat constructor; vm_compute; discriminate).
  exists b. split; [reflexivity|]. assert (Eb : best_bid b = Some (Some (1000000, 4))) by (vm_compute in E; injection E as <-; vm_compute; reflexivity).
  split; [exact Eb|]. exact (proj1 (proj2 (proj1 (engine_state_typed wrap_feed b set0 Hm) E)) _ (or_introl Eb)).
Defined.
