(* ===== verification/Framing.v ===== *)
(** BinaryFILE framing (include/feed/framing.hpp): a byte stream of messages, each preceded
    by its big-endian 16-bit length.  [framed] is the specification, a prefix of the buffer
    that is a concatenation of records; the loop of [for_each_framed_message] is proved to
    deliver exactly the decodable records of the longest such prefix. *)
From S2P Require Export Itch.

(** The sink is a callback with a state; [None] is an undefined access inside it. *)

Section Loop.
Context {S : Type} (sink : S → Message → option S).

(** The loop from offset [off]; [fuel] bounds the number of records.  The result is the
    final offset and the state of the sink. *)

Fixpoint framed_loop (fuel : nat) (buf : list Z) (len off : Z) (s : S) : option (Z * S) :=
  match fuel with
  | O => None
  | Datatypes.S fuel =>
      if u64 (off + 2) <=? len then
        b0 ← buf.[off];
        b1 ← buf.[off + 1];
        let mlen := Z.lor (Z.shiftl b0 8) b1 in
        if mlen =? 0 then Some (off, s)
        else if len <? u64 (off + 2 + mlen) then Some (off, s)
        else
          r ← decode (Some (drop (Z.to_nat (off + 2)) buf)) mlen message0;
          s' ← (if (r.1 : bool) then sink s r.2 else Some s);
          framed_loop fuel buf len (u64 (off + (2 + mlen))) s'
      else Some (off, s)
  end.

Definition for_each_framed_message (buf : list Z) (len : Z) (s : S) : option (Z * S) :=
  framed_loop (Datatypes.S (length buf)) buf len 0 s.

End Loop.

(** * Records *)

(** A record: the length of the body, then the body. *)

Definition record (body : list Z) : list Z :=
  [u8 (Z.shiftr (zlen body) 8); u8 (zlen body)] ++ body.

Definition body_ok (body : list Z) : Prop := 0 < zlen body < 65536.

#[global] Instance body_ok_dec body : Decision (body_ok body).
Proof. unfold body_ok. apply _. Defined.

(** The bytes after the last complete record: fewer than two, a zero length, or a length
    beyond the end of the buffer. *)

Definition stopping (tail : list Z) : Prop :=
  match tail with
  | b0 :: b1 :: rest => Z.lor (Z.shiftl b0 8) b1 = 0 ∨ zlen rest < Z.lor (Z.shiftl b0 8) b1
  | _ => True
  end.

(** The message a body decodes to, if any. *)

Definition decode_body (body : list Z) : option Message :=
  match decode (Some body) (zlen body) message0 with
  | Some (true, m) => Some m
  | _ => None
  end.

(** The messages of a list of records. *)

Definition messages (bodies : list (list Z)) : list Message := omap decode_body bodies.

Definition frames (bodies : list (list Z)) : list Z := mjoin (record <$> bodies).

(** * The decoder reads the body only *)

Lemma rd_be_prefix a b p n v : p + Z.of_nat n ≤ zlen a → rd_be_loop (a ++ b) p n v = rd_be_loop a p n v.
Proof.
  revert p v. induction n as [|n IH]; intros p v Hp; [done|]. cbn [rd_be_loop].
  rewrite vget_app_l by lia. destruct (a.[p]); [|done]. cbn. apply IH. lia.
Qed.

Lemma memcpy_prefix a b p n : p + Z.of_nat n ≤ zlen a → memcpy (a ++ b) p n = memcpy a p n.
Proof.
  revert p. induction n as [|n IH]; intros p Hp; [done|]. cbn [memcpy].
  rewrite vget_app_l by lia. destruct (a.[p]); [|done]. cbn. by rewrite IH by lia.
Qed.

Lemma decode_prefix a b len out : len ≤ zlen a → decode (Some (a ++ b)) len out = decode (Some a) len out.
Proof.
  intros Hl. unfold decode. destruct (Z.ltb_spec len 11); [done|].
  unfold rd48, rd64, rd_be, rd16, rd32.
  rewrite (vget_app_l a b 0), (vget_app_l a b 1), (vget_app_l a b (1 + 1)),
    (rd_be_prefix a b 5) by lia.
  destruct (a.[1]) as [?|], (a.[1 + 1]) as [?|]; try done. cbn [mbind option_bind].
  destruct (rd_be_loop a 5 6 0) as [?|]; [|done]. cbn [mbind option_bind].
  destruct (a.[0]) as [t|]; [|done]. cbn [mbind option_bind].
  destruct (type_of_char t); try done;
    match goal with |- context [len <? ?k] => destruct (Z.ltb_spec len k); [done|] end;
    rewrite ?rd_be_prefix, ?vget_app_l, ?memcpy_prefix by lia; done.
Qed.

(** A body is decoded inside its own bytes. *)
Lemma decode_body_total body rest :
  bytes_ok body →
  ∃ r m, decode (Some (body ++ rest)) (zlen body) message0 = Some (r, m) ∧
         decode_body body = if (r : bool) then Some m else None.
Proof.
  intros Hok. rewrite decode_prefix by done. unfold decode_body.
  destruct (decide (11 ≤ zlen body)).
  - destruct (decode_in_buf body (zlen body) message0) as (m & t & _ & -> & _); [done|lia|].
    eexists _, _. split; [done|]. by case_bool_decide.
  - exists false, message0. unfold decode. destruct (Z.ltb_spec (zlen body) 11); [done|lia].
Qed.

(** * Reading a record *)

(** The two length bytes encode the length. *)
Lemma length_bytes n : 0 ≤ n < 65536 → Z.lor (Z.shiftl (u8 (Z.shiftr n 8)) 8) (u8 n) = n.
Proof.
  intros Hn. rewrite Z.shiftr_div_pow2 by lia. change (2 ^ 8) with 256.
  rewrite (u8_small (n / 256)) by (split; [apply Z.div_pos|apply Z.div_lt_upper_bound]; lia).
  rewrite lor_shift8; [|apply Z.div_pos; lia|apply u8_range].
  unfold u8, wrap. change (2 ^ 8) with 256. pose proof (Z.div_mod n 256). lia.
Qed.

Lemma frames_cons body bodies : frames (body :: bodies) = record body ++ frames bodies.
Proof. done. Qed.

Lemma record_zlen body : zlen (record body) = 2 + zlen body.
Proof. unfold record. rewrite zlen_app. done. Qed.

(** A buffer that starts with two bytes and does not stop there starts with a record. *)
Lemma starts_record b0 b1 rest :
  byte_ok b0 → byte_ok b1 →
  let n := Z.lor (Z.shiftl b0 8) b1 in
  n ≠ 0 → n ≤ zlen rest →
  let body := take (Z.to_nat n) rest in
  body_ok body ∧ zlen body = n ∧ b0 :: b1 :: rest = record body ++ drop (Z.to_nat n) rest.
Proof.
  intros H0 H1 n Hn Hle body. unfold byte_ok in *.
  assert (Hv : n = b0 * 256 + b1) by (apply lor_shift8; [lia|done]).
  assert (Hz : zlen body = n) by (apply zlen_take; lia).
  split_and!; [unfold body_ok; rewrite Hz; lia|done|].
  unfold record. rewrite Hz. simpl. unfold body. rewrite take_drop. f_equal; [|f_equal].
  - rewrite Z.shiftr_div_pow2, Hv by lia. change (2 ^ 8) with 256.
    rewrite Z.div_add_l, (Z.div_small b1) by lia. rewrite u8_small; lia.
  - unfold u8, wrap. rewrite Hv. change (2 ^ 8) with 256. rewrite Z.add_comm, Z.mod_add by lia.
    by rewrite Z.mod_small.
Qed.

Lemma stopping_dec_cases rest :
  bytes_ok rest →
  stopping rest ∨ ∃ body rest', rest = record body ++ rest' ∧ body_ok body.
Proof.
  intros Hok. destruct rest as [|b0 [|b1 rest]]; [by left|by left|].
  apply Forall_cons in Hok as [H0 [H1 _]%Forall_cons].
  destruct (decide (Z.lor (Z.shiftl b0 8) b1 = 0)) as [|Hn]; [by left; left|].
  destruct (decide (zlen rest < Z.lor (Z.shiftl b0 8) b1)) as [|Hle]; [by left; right|].
  right. destruct (starts_record b0 b1 rest H0 H1 Hn) as (Hb & _ & E); [lia|]. eauto.
Qed.

(** Reading the record behind [pre]. *)
Lemma record_head pre body rest :
  body_ok body →
  let buf := pre ++ record body ++ rest in
  ∃ b0 b1, buf.[zlen pre] = Some b0 ∧ buf.[zlen pre + 1] = Some b1 ∧
    Z.lor (Z.shiftl b0 8) b1 = zlen body ∧
    drop (Z.to_nat (zlen pre + 2)) buf = body ++ rest ∧
    zlen buf = zlen pre + 2 + zlen body + zlen rest.
Proof.
  intros [Hpos Hlt] buf. exists (u8 (Z.shiftr (zlen body) 8)), (u8 (zlen body)). split_and!.
  - unfold buf. rewrite <- (Z.add_0_r (zlen pre)), vget_app_r by lia. done.
  - unfold buf. by rewrite vget_app_r by lia.
  - apply length_bytes. lia.
  - unfold buf, record. rewrite !app_assoc, <- (app_assoc _ body).
    replace (zlen pre + 2) with (zlen (pre ++ [u8 (Z.shiftr (zlen body) 8); u8 (zlen body)]))
      by (by rewrite zlen_app). apply drop_zlen_app.
  - unfold buf. rewrite !zlen_app, record_zlen. lia.
Qed.

(** Reading the bytes behind [pre] when they stop the stream. *)
Lemma stop_head pre rest :
  bytes_ok rest → stopping rest →
  zlen rest < 2 ∨
  ∃ b0 b1, (pre ++ rest).[zlen pre] = Some b0 ∧ (pre ++ rest).[zlen pre + 1] = Some b1 ∧
    0 ≤ Z.lor (Z.shiftl b0 8) b1 < 65536 ∧
    (Z.lor (Z.shiftl b0 8) b1 = 0 ∨ zlen rest < 2 + Z.lor (Z.shiftl b0 8) b1).
Proof.
  intros Hok Hst. destruct rest as [|b0 [|b1 rest]]; [by left|by left|right].
  exists b0, b1. apply Forall_cons in Hok as [Hb0 [Hb1 _]%Forall_cons].
  assert (Hv : Z.lor (Z.shiftl b0 8) b1 = b0 * 256 + b1)
    by (apply lor_shift8; [unfold byte_ok in *; lia|done]).
  unfold byte_ok in *. split_and!.
  - rewrite <- (Z.add_0_r (zlen pre)). by rewrite vget_app_r by lia.
  - by rewrite vget_app_r by lia.
  - lia.
  - lia.
  - rewrite !zlen_cons. destruct Hst; [by left|right; lia].
Qed.

Section LoopFacts.
Context {S : Type} (sink : S → Message → option S).

Lemma framed_loop_record fuel pre body rest s :
  bytes_ok body → body_ok body → zlen (pre ++ record body ++ rest) < 2 ^ 63 →
  framed_loop sink (Datatypes.S fuel) (pre ++ record body ++ rest)
    (zlen (pre ++ record body ++ rest)) (zlen pre) s =
  s' ← foldM sink s (messages [body]);
  framed_loop sink fuel ((pre ++ record body) ++ rest)
    (zlen ((pre ++ record body) ++ rest)) (zlen (pre ++ record body)) s'.
Proof.
  intros Hok Hb Hlen. pose proof (zlen_nonneg pre). pose proof (zlen_nonneg rest).
  destruct (record_head pre body rest Hb) as (b0 & b1 & E0 & E1 & Ev & Hd & Hz).
  destruct Hb as [Hpos Hlt]. rewrite <- (app_assoc pre).
  set (buf := pre ++ record body ++ rest) in *.
  cbn [framed_loop]. rewrite (u64_small (zlen pre + 2)) by lia.
  destruct (Z.leb_spec (zlen pre + 2) (zlen buf)); [|lia].
  rewrite E0, E1. cbn [mbind option_bind]. rewrite Ev, Hd.
  destruct (Z.eqb_spec (zlen body) 0); [lia|]. rewrite (u64_small (_ + 2 + _)) by lia.
  destruct (Z.ltb_spec (zlen buf) (zlen pre + 2 + zlen body)); [lia|].
  destruct (decode_body_total body rest Hok) as (r & m & -> & Hb).
  cbn [mbind option_bind fst snd]. rewrite (u64_small (_ + (2 + _))) by lia.
  rewrite (zlen_app pre), record_zlen. unfold messages. simpl. rewrite Hb.
  destruct r; simpl; [|done]. by destruct (sink s m).
Qed.

Lemma framed_loop_stop fuel pre rest s :
  bytes_ok rest → stopping rest → zlen (pre ++ rest) < 2 ^ 63 →
  framed_loop sink (Datatypes.S fuel) (pre ++ rest) (zlen (pre ++ rest)) (zlen pre) s
  = Some (zlen pre, s).
Proof.
  intros Hok Hst Hlen. pose proof (zlen_nonneg pre). pose proof (zlen_nonneg rest).
  rewrite zlen_app in *. cbn [framed_loop]. rewrite (u64_small (zlen pre + 2)) by lia.
  destruct (Z.leb_spec (zlen pre + 2) (zlen pre + zlen rest)); [|done].
  destruct (stop_head pre rest Hok Hst) as [?|(b0 & b1 & -> & -> & Hn & Hs)]; [lia|].
  cbn [mbind option_bind]. destruct (Z.eqb_spec (Z.lor (Z.shiftl b0 8) b1) 0); [done|].
  rewrite u64_small by lia.
  destruct (Z.ltb_spec (zlen pre + zlen rest) (zlen pre + 2 + Z.lor (Z.shiftl b0 8) b1)); [done|lia].
Qed.

(** The loop delivers the messages of the records up to the first stop. *)
Lemma framed_loop_spec fuel pre rest :
  (length rest < fuel)%nat → bytes_ok rest → zlen (pre ++ rest) < 2 ^ 63 →
  ∃ bodies tail, rest = frames bodies ++ tail ∧ Forall body_ok bodies ∧ stopping tail ∧
    ∀ s, framed_loop sink fuel (pre ++ rest) (zlen (pre ++ rest)) (zlen pre) s =
         s' ← foldM sink s (messages bodies); Some (zlen pre + zlen (frames bodies), s').
Proof.
  revert pre rest. induction fuel as [|fuel IH]; intros pre rest Hf Hok Hlen; [lia|].
  destruct (stopping_dec_cases rest Hok) as [Hst|(body & rest' & -> & Hb)].
  - exists [], rest. split_and!; [done|constructor|done|]. intros s.
    rewrite framed_loop_stop by done. unfold frames, zlen at 3. simpl. by rewrite Z.add_0_r.
  - apply Forall_app in Hok as [[_ Hbok]%Forall_app Hok].
    assert (Hl : (length rest' < fuel)%nat) by (rewrite length_app in Hf; simpl in Hf; lia).
    destruct (IH (pre ++ record body) rest' Hl Hok) as (bodies & tail & -> & Hbs & Hst & Heq);
      [by rewrite <- app_assoc|].
    exists (body :: bodies), tail. split_and!; [by rewrite frames_cons, <- app_assoc|by constructor|done|].
    intros s. rewrite framed_loop_record by done. rewrite frames_cons.
    change (messages (body :: bodies)) with (messages ([body] ++ bodies)).
    unfold messages. rewrite omap_app, foldM_app. fold (messages [body]).
    destruct (foldM sink s (messages [body])) as [s1|]; [|done].
    cbn [mbind option_bind]. rewrite Heq. by rewrite !zlen_app, <- Z.add_assoc.
Qed.

End LoopFacts.

Lemma frames_app l k : frames (l ++ k) = frames l ++ frames k.
Proof. unfold frames. by rewrite fmap_app, join_app. Qed.

Lemma frames_ok bodies : Forall bytes_ok bodies → bytes_ok (frames bodies).
Proof.
  induction 1 as [|b bs Hb _ IH]; [constructor|]. rewrite frames_cons. apply Forall_app.
  split; [|done]. unfold record. repeat constructor; try done; apply u8_range.
Qed.

(** A record in front is read back: the decomposition into records is unique. *)
Lemma record_inj b1 b2 r1 r2 :
  body_ok b1 → body_ok b2 → record b1 ++ r1 = record b2 ++ r2 → b1 = b2 ∧ r1 = r2.
Proof.
  intros [? H1] [? H2] E. unfold record in E. injection E as E1 E2 E3.
  assert (Hz : zlen b1 = zlen b2).
  { rewrite <- (length_bytes (zlen b1)), <- (length_bytes (zlen b2)) by lia. by rewrite E1, E2. }
  apply app_inj_1 in E3; [done|]. unfold zlen in Hz. lia.
Qed.

Lemma record_not_stopping body rest : body_ok body → ¬ stopping (record body ++ rest).
Proof.
  intros [? ?]. unfold record. simpl. rewrite length_bytes by lia. rewrite zlen_app.
  pose proof (zlen_nonneg rest). lia.
Qed.

Lemma frames_unique l1 l2 t1 t2 :
  Forall body_ok l1 → Forall body_ok l2 → stopping t1 → stopping t2 →
  frames l1 ++ t1 = frames l2 ++ t2 → l1 = l2 ∧ t1 = t2.
Proof.
  intros H1. revert l2. induction H1 as [|b1 l1 Hb1 _ IH]; intros l2 H2 Ht1 Ht2 E.
  - destruct H2 as [|b2 l2 Hb2 _]; [done|]. change (t1 = frames (b2 :: l2) ++ t2) in E.
    rewrite frames_cons in E. subst t1.
    rewrite <- app_assoc in Ht1. by apply record_not_stopping in Ht1.
  - rewrite frames_cons, <- app_assoc in E. destruct H2 as [|b2 l2 Hb2 H2].
    + change (record b1 ++ frames l1 ++ t1 = t2) in E. rewrite <- E in Ht2. by apply record_not_stopping in Ht2.
    + rewrite frames_cons, <- app_assoc in E. apply record_inj in E as [-> E]; [|done|done].
      destruct (IH l2 H2 Ht1 Ht2 E) as [-> ->]. done.
Qed.

(** * Properties *)

(** C34: Framing delivers exactly the complete records.  On every byte buffer the loop ends
    without reading outside it; the buffer is a sequence of records followed by bytes at
    which the format says to stop, the sink has been called with the decodable records in
    order and nothing else, and the returned count is the length of the records. *)
Theorem framed_stream_delivered {S} (sink : S → Message → option S) buf s :
  bytes_ok buf → zlen buf < 2 ^ 63 →
  ∃ bodies tail, buf = frames bodies ++ tail ∧ Forall body_ok bodies ∧ stopping tail ∧
    for_each_framed_message sink buf (zlen buf) s =
      s' ← foldM sink s (messages bodies); Some (zlen (frames bodies), s').
Proof.
  intros Hok Hlen.
  destruct (framed_loop_spec sink (Datatypes.S (length buf)) [] buf) as (bs & t & E & Hb & Hs & Hl);
    [lia|done|done|]. exists bs, t. split_and!; [done..|]. apply Hl.
Qed.

Lemma framed_stream_delivered_witness :
  bytes_ok (record delete_bytes ++ [0; 0; 7]) ∧
  ∃ bodies tail, record delete_bytes ++ [0; 0; 7] = frames bodies ++ tail ∧
    Forall body_ok bodies ∧ stopping tail ∧
    for_each_framed_message (λ n _, Some (n + 1)) (record delete_bytes ++ [0; 0; 7]) 24 0 =
      s' ← foldM (λ n _, Some (n + 1)) 0 (messages bodies); Some (zlen (frames bodies), s').
Proof.
  assert (Hok : bytes_ok (record delete_bytes ++ [0; 0; 7]))
    by (apply (bool_decide_unpack _); vm_compute; exact I).
  split; [exact Hok|].
  apply (framed_stream_delivered (λ n _, Some (n + 1)) (record delete_bytes ++ [0; 0; 7]) 0 Hok).
  vm_compute. reflexivity.
Defined.

(** The framed bodies read back from their frames, with any stopping tail. *)
Lemma framed_roundtrip {S} (sink : S → Message → option S) bodies tail s :
  Forall body_ok bodies → Forall bytes_ok bodies → bytes_ok tail → stopping tail →
  zlen (frames bodies ++ tail) < 2 ^ 63 →
  for_each_framed_message sink (frames bodies ++ tail) (zlen (frames bodies ++ tail)) s =
    s' ← foldM sink s (messages bodies); Some (zlen (frames bodies), s').
Proof.
  intros Hb Hbok Htok Hst Hlen.
  assert (Hok : bytes_ok (frames bodies ++ tail)) by (apply Forall_app; split; [by apply frames_ok|done]).
  destruct (framed_loop_spec sink (Datatypes.S (length (frames bodies ++ tail))) []
    (frames bodies ++ tail)) as (bs & t & E & Hb' & Hs & Hl); [lia|done|done|].
  apply frames_unique in E as [-> ->]; [|done..]. apply Hl.
Qed.
