(* ===== verification/Wire.v ===== *)
(** The ITCH encoders of the synthetic feed (include/feed/synthetic.hpp, namespace
    [detail]) and the message bodies the generators build with them.  Vectors grow by
    [push_back], so an encoder maps the bytes so far to the bytes so far with the field
    appended.  The decoder is proved to invert every body. *)
From S2P Require Export Framing.

(** * Encoders *)

Definition be16 (b : list Z) (v : Z) : list Z := b ++ [u8 (Z.shiftr v 8)] ++ [u8 v].

Definition be32 (b : list Z) (v : Z) : list Z :=
  b ++ [u8 (Z.shiftr v 24)] ++ [u8 (Z.shiftr v 16)] ++ [u8 (Z.shiftr v 8)] ++ [u8 v].

(** The loop of [be_n]: [s] runs from [(n - 1) * 8] down to [0]. *)

Fixpoint be_n (b : list Z) (v : Z) (n : nat) : list Z :=
  match n with
  | O => b
  | S n => be_n (b ++ [u8 (Z.shiftr v (Z.of_nat n * 8))]) v n
  end.

Definition hdr (b : list Z) (type locate ts : Z) : list Z :=
  be_n (be16 (be16 (b ++ [u8 type]) locate) 0) ts 6.

(** [SYNTH] padded with blanks. *)

Definition synth_stock : list Z := [83; 89; 78; 84; 72; 32; 32; 32].

Definition stock8 (b : list Z) : list Z := b ++ synth_stock.

(** [frame]: the length and the body of the scratch message [m]. *)

Definition frame (b m : list Z) : list Z := be16 b (u16 (zlen m)) ++ m.

(** * Message bodies *)

(** The messages the generators write, with the fields they choose. *)

Inductive WireMsg : Set :=
  | WAdd (locate ts ref side shares price : Z)
  | WExecute (locate ts ref shares match_no : Z)
  | WCancel (locate ts ref shares : Z)
  | WDelete (locate ts ref : Z)
  | WReplace (locate ts ref nref shares price : Z)
  | WTrade (locate ts side shares price match_no : Z)
  | WDirectory (locate ts : Z) (sym : list Z).

Definition encode (w : WireMsg) : list Z :=
  match w with
  | WAdd locate ts ref side shares price =>
      be32 (stock8 (be32 (be_n (hdr [] 65 locate ts) ref 8 ++ [u8 side]) shares)) price
  | WExecute locate ts ref shares match_no =>
      be_n (be32 (be_n (hdr [] 69 locate ts) ref 8) shares) match_no 8
  | WCancel locate ts ref shares => be32 (be_n (hdr [] 88 locate ts) ref 8) shares
  | WDelete locate ts ref => be_n (hdr [] 68 locate ts) ref 8
  | WReplace locate ts ref nref shares price =>
      be32 (be32 (be_n (be_n (hdr [] 85 locate ts) ref 8) nref 8) shares) price
  | WTrade locate ts side shares price match_no =>
      be_n (be32 (stock8 (be32 (be_n (hdr [] 80 locate ts) 0 8 ++ [u8 side]) shares)) price)
        match_no 8
  | WDirectory locate ts sym =>
      let m := hdr [] 82 locate ts ++ sym in m ++ replicate (39 - length m) 0
  end.

(** The message such a body stands for. *)

Definition wire_message (w : WireMsg) : Message :=
  match w with
  | WAdd locate ts ref side shares price =>
      mkMessage AddOrder locate ts ref 0 0 (side_of_char side) shares price synth_stock 0
  | WExecute locate ts ref shares match_no =>
      mkMessage OrderExecuted locate ts ref 0 match_no SideNone shares 0 (replicate 8 0) 0
  | WCancel locate ts ref shares =>
      mkMessage OrderCancel locate ts ref 0 0 SideNone shares 0 (replicate 8 0) 0
  | WDelete locate ts ref =>
      mkMessage OrderDelete locate ts ref 0 0 SideNone 0 0 (replicate 8 0) 0
  | WReplace locate ts ref nref shares price =>
      mkMessage OrderReplace locate ts ref nref 0 SideNone shares price (replicate 8 0) 0
  | WTrade locate ts side shares price match_no =>
      mkMessage Trade locate ts 0 0 match_no (side_of_char side) shares price synth_stock 0
  | WDirectory locate ts sym =>
      mkMessage StockDirectory locate ts 0 0 0 SideNone 0 0 sym 0
  end.

(** The fields are in the range of their wire width. *)

Definition wire_ok (w : WireMsg) : Prop :=
  match w with
  | WAdd locate ts ref side shares price =>
      fits 16 locate ∧ fits 48 ts ∧ fits 64 ref ∧ byte_ok side ∧ fits 32 shares ∧ fits 32 price
  | WExecute locate ts ref shares match_no =>
      fits 16 locate ∧ fits 48 ts ∧ fits 64 ref ∧ fits 32 shares ∧ fits 64 match_no
  | WCancel locate ts ref shares =>
      fits 16 locate ∧ fits 48 ts ∧ fits 64 ref ∧ fits 32 shares
  | WDelete locate ts ref => fits 16 locate ∧ fits 48 ts ∧ fits 64 ref
  | WReplace locate ts ref nref shares price =>
      fits 16 locate ∧ fits 48 ts ∧ fits 64 ref ∧ fits 64 nref ∧ fits 32 shares ∧ fits 32 price
  | WTrade locate ts side shares price match_no =>
      fits 16 locate ∧ fits 48 ts ∧ byte_ok side ∧ fits 32 shares ∧ fits 32 price ∧
      fits 64 match_no
  | WDirectory locate ts sym =>
      fits 16 locate ∧ fits 48 ts ∧ bytes_ok sym ∧ length sym = 8%nat
  end.

#[global] Instance wire_ok_dec w : Decision (wire_ok w).
Proof. destruct w; simpl; apply _. Defined.

(** * The bytes of a number *)

Fixpoint be_bytes (n : nat) (v : Z) : list Z :=
  match n with
  | O => []
  | S n => u8 (Z.shiftr v (Z.of_nat n * 8)) :: be_bytes n v
  end.

Lemma be_n_bytes b v n : be_n b v n = b ++ be_bytes n v.
Proof.
  revert b. induction n as [|n IH]; intros b; simpl; [by rewrite app_nil_r|].
  rewrite IH. by rewrite <- app_assoc.
Qed.

Lemma be_bytes_ok n v : bytes_ok (be_bytes n v).
Proof. induction n; constructor; [apply u8_range|done]. Qed.

Lemma be_val_cons b l : be_val (b :: l) = b * 256 ^ zlen l + be_val l.
Proof.
  induction l as [|c l IH] using rev_ind; [unfold be_val, zlen; simpl; lia|].
  rewrite app_comm_cons, !be_val_snoc, IH, zlen_app. change (zlen [c]) with 1.
  rewrite Z.pow_add_r by (unfold zlen; lia). lia.
Qed.

Lemma be_bytes_zlen n v : zlen (be_bytes n v) = Z.of_nat n.
Proof. unfold zlen. f_equal. induction n; simpl; auto. Qed.

Lemma be_val_bytes n v : be_val (be_bytes n v) = v `mod` 256 ^ Z.of_nat n.
Proof.
  induction n as [|n IH]; [by rewrite Z.mod_1_r|]. cbn [be_bytes].
  rewrite be_val_cons, IH, be_bytes_zlen. rewrite Z.shiftr_div_pow2 by lia.
  replace (2 ^ (Z.of_nat n * 8)) with (256 ^ Z.of_nat n)
    by (rewrite Z.mul_comm, Z.pow_mul_r by lia; done).
  unfold u8, wrap. change (2 ^ 8) with 256.
  rewrite Nat2Z.inj_succ, Z.pow_succ_r by lia. rewrite (Z.mul_comm 256).
  rewrite Z.rem_mul_r by lia. lia.
Qed.

Lemma be_val_fits n k v : fits k v → k = 8 * Z.of_nat n → be_val (be_bytes n v) = v.
Proof.
  intros Hv ->. rewrite be_val_bytes. unfold fits in Hv. rewrite Z.pow_mul_r in Hv by lia.
  by apply Z.mod_small.
Qed.

(** * Decoding the bodies *)

(** The bodies as concatenations of their fields. *)
Lemma be16_bytes b v : be16 b v = b ++ be_bytes 2 v.
Proof. unfold be16. simpl. by rewrite Z.shiftr_0_r. Qed.

Lemma be32_bytes b v : be32 b v = b ++ be_bytes 4 v.
Proof. unfold be32. simpl. by rewrite Z.shiftr_0_r. Qed.

Ltac wire_fields := unfold encode, hdr, stock8; rewrite ?be_n_bytes, ?be32_bytes, ?be_n_bytes, ?be16_bytes.

Lemma u8_byte v : byte_ok v → u8 v = v.
Proof. apply u8_small. Qed.

Lemma encode_ok w : wire_ok w → bytes_ok (encode w).
Proof.
  intros Hw.
  assert (Hs : Forall byte_ok synth_stock) by (apply (bool_decide_unpack _); vm_compute; exact I).
  assert (H1 : ∀ v, Forall byte_ok [u8 v]) by (intros; constructor; [apply u8_range|constructor]).
  destruct w; simpl in Hw; wire_fields; cbv zeta;
    repeat (apply Forall_app; split); try done; try apply be_bytes_ok;
    try (apply Forall_replicate; done); apply Hw.
Qed.

Lemma encode_length w :
  wire_ok w → zlen (encode w) = type_length (type (wire_message w)).
Proof.
  intros Hw. destruct w; simpl in Hw; wire_fields; cbv zeta; unfold zlen;
    rewrite ?length_app, ?length_replicate; try reflexivity.
  destruct Hw as (_ & _ & _ & Hsym). simpl. rewrite ?length_app, ?Hsym. reflexivity.
Qed.

(** Solves [read = value] for a field read from an encoded body. *)
Ltac field_value :=
  match goal with
  | H : fits ?k ?v |- be_val (field _ _ ?n) = ?v => exact (be_val_fits n k v H eq_refl)
  | H : byte_ok ?v |- be_val (field _ _ 1) = ?v => change (0 * 256 + u8 v = v); by rewrite u8_byte
  | _ => reflexivity
  end.

(** Runs the decoder on an encoded body of type [t]: reads every field of the buffer, then
    compares it with the value that was encoded there. *)
Ltac decode_fields t Hw Hok Hz :=
  let buf := fresh "buf" in
  revert Hok Hz; wire_fields; cbv zeta;
  match goal with |- context [decode_body ?b] => set (buf := b) end; intros Hok Hz;
  cbn [wire_message type type_length] in Hz; unfold decode_body; rewrite Hz; unfold decode;
  cbn [Z.ltb Z.compare Pos.compare Pos.compare_cont]; read_fields;
  change (type_of_char (be_val (field buf 0 1))) with t; cbn [wire_message]; simpl in Hw;
  destruct_and! Hw; repeat f_equal; field_value.

Lemma decode_encode w :
  wire_ok w → decode_body (encode w) = Some (wire_message w).
Proof.
  intros Hw. pose proof (encode_ok w Hw) as Hok. pose proof (encode_length w Hw) as Hz.
  destruct w as [loc ts ref sd sh px|loc ts ref sh mn|loc ts ref sh|loc ts ref
    |loc ts ref nref sh px|loc ts sd sh px mn|loc ts sym].
  - decode_fields AddOrder Hw Hok Hz.
  - decode_fields OrderExecuted Hw Hok Hz.
  - decode_fields OrderCancel Hw Hok Hz.
  - decode_fields OrderDelete Hw Hok Hz.
  - decode_fields OrderReplace Hw Hok Hz.
  - decode_fields Trade Hw Hok Hz.
  - assert (Hsym : length sym = 8%nat) by apply Hw.
    do 8 (destruct sym as [|? sym]; [discriminate Hsym|]). destruct sym; [|discriminate Hsym].
    decode_fields StockDirectory Hw Hok Hz.
Qed.

(** * Streams *)

Lemma encode_body_ok w : wire_ok w → body_ok (encode w).
Proof. intros Hw. unfold body_ok. rewrite encode_length by done. destruct w; simpl; lia. Qed.

Lemma frame_record b m : body_ok m → frame b m = b ++ record m.
Proof.
  intros [? ?]. unfold frame, be16, record. rewrite u16_small by lia. by rewrite <- !app_assoc.
Qed.

(** The bytes of a session written message by message, as the generators do. *)

Definition write_stream (ws : list WireMsg) : list Z := foldl (λ b w, frame b (encode w)) [] ws.

Lemma write_stream_frames ws :
  Forall wire_ok ws → write_stream ws = frames (encode <$> ws).
Proof.
  intros Hw. unfold write_stream.
  assert (H : ∀ b, foldl (λ b w, frame b (encode w)) b ws = b ++ frames (encode <$> ws)); [|apply H].
  induction Hw as [|w ws Hw _ IH]; intros b; [by rewrite app_nil_r|].
  cbn [foldl fmap list_fmap]. rewrite IH, frame_record by (by apply encode_body_ok).
  by rewrite frames_cons, app_assoc.
Qed.

Lemma messages_encode ws : Forall wire_ok ws → messages (encode <$> ws) = wire_message <$> ws.
Proof.
  induction 1 as [|w ws Hw _ IH]; [done|]. unfold messages. simpl.
  rewrite decode_encode by done. by f_equal.
Qed.

Lemma encode_all_ok ws :
  Forall wire_ok ws → Forall body_ok (encode <$> ws) ∧ Forall bytes_ok (encode <$> ws).
Proof.
  intros Hw. split; apply Forall_fmap; (eapply Forall_impl; [exact Hw|]);
    intros w; [apply encode_body_ok|apply encode_ok].
Qed.

(** Replaying a written stream calls the sink with the messages written. *)
Lemma replay_written {S} (sink : S → Message → option S) ws s :
  Forall wire_ok ws → zlen (write_stream ws) < 2 ^ 63 →
  for_each_framed_message sink (write_stream ws) (zlen (write_stream ws)) s =
    s' ← foldM sink s (wire_message <$> ws); Some (zlen (write_stream ws), s').
Proof.
  intros Hw Hl. rewrite write_stream_frames in * by done. destruct (encode_all_ok ws Hw).
  pose proof (framed_roundtrip sink (encode <$> ws) [] s) as E. rewrite app_nil_r in E.
  rewrite E, messages_encode; try done. constructor.
Qed.

(** A sink that collects the messages. *)
Lemma collect_fold ms l : foldM (λ ms (m : Message), Some (ms ++ [m])) ms l = Some (ms ++ l).
Proof.
  revert ms. induction l as [|m l IH]; intros ms; simpl; [by rewrite app_nil_r|].
  rewrite IH. by rewrite <- app_assoc.
Qed.

(** * Properties *)

(** Encode/decode round trip at message level: the decoder reads back every field of
    every message the generators can write (adds, executions, cancels, deletes, replaces,
    trades and directory entries with fields in the range of their widths). *)
Theorem decode_inverts_encoders w out :
  wire_ok w → decode (Some (encode w)) (zlen (encode w)) out = Some (true, wire_message w).
Proof.
  intros Hw. pose proof (decode_encode w Hw) as E. unfold decode_body in E.
  assert (Ho : decode (Some (encode w)) (zlen (encode w)) out =
               decode (Some (encode w)) (zlen (encode w)) message0).
  { unfold decode. destruct (Z.ltb_spec (zlen (encode w)) 11); [|done].
    rewrite encode_length in * by done. by destruct w; simpl in *; lia. }
  rewrite Ho. by destruct (decode _ _ _) as [[[] m]|]; simplify_eq.
Qed.

Lemma decode_inverts_encoders_witness :
  decode (Some (encode (WReplace 3 34200000000000 17 99 4000000000 1234500)))
    (zlen (encode (WReplace 3 34200000000000 17 99 4000000000 1234500))) message0 =
  Some (true, wire_message (WReplace 3 34200000000000 17 99 4000000000 1234500)).
Proof.
  apply decode_inverts_encoders. apply (bool_decide_unpack _). vm_compute. exact I.
Defined.

(** Round trip at stream level: reading back a framed stream delivers exactly the
    messages that were written, in order, and consumes every byte of it. *)
Theorem framed_stream_roundtrip ws :
  Forall wire_ok ws → zlen (write_stream ws) < 2 ^ 63 →
  for_each_framed_message (λ ms m, Some (ms ++ [m])) (write_stream ws)
    (zlen (write_stream ws)) [] = Some (zlen (write_stream ws), wire_message <$> ws).
Proof.
  intros Hw Hl. rewrite replay_written by done. by rewrite collect_fold.
Qed.

Lemma framed_stream_roundtrip_witness :
  let ws := [WAdd 1 34200000000000 1 66 100 1000000; WDelete 1 34200000000001 1] in
  for_each_framed_message (λ ms m, Some (ms ++ [m])) (write_stream ws)
    (zlen (write_stream ws)) [] = Some (zlen (write_stream ws), wire_message <$> ws).
Proof.
  apply framed_stream_roundtrip.
  - apply (bool_decide_unpack _). vm_compute. exact I.
  - vm_compute. reflexivity.
Defined.
