(* ===== verification/FeedFacts.v ===== *)
(** What makes a written feed safe to replay: [feed_inv ws next] says that the messages
    [ws] of one instrument are in range, carry real sides, never reuse a reference (all
    references so far are below [next]) and keep every level total below the bound that
    their number gives.  It is extended one message at a time. *)
From S2P Require Export Wire BookTheorems.

(** The shares any generated message may carry. *)

Definition max_shares : Z := 4000.

Definition feed_messages (ws : list WireMsg) : list Message := wire_message <$> ws.

Definition feed_book (ws : list WireMsg) : abook := ab_run ab0 (feed_messages ws).

Record feed_inv (ws : list WireMsg) (next : Z) : Prop := {
  fi_wire : Forall wire_ok ws;
  fi_sided : Forall msg_sided (feed_messages ws);
  fi_fits : run_fits ab0 (feed_messages ws);
  fi_fresh : run_fresh ab0 (feed_messages ws);
  fi_refs : ∀ r, is_Some (ab_orders (feed_book ws) !! r) → r < next;
  fi_levels : ∀ buy p, lv_at (lvl (feed_book ws) buy) p ≤ max_shares * zlen ws;
}.

(** What a generated message must satisfy, with [next] the first unused reference. *)

Definition wire_fresh (next : Z) (w : WireMsg) : Prop :=
  match w with
  | WAdd _ _ ref side shares _ => next ≤ ref ∧ (side = 66 ∨ side = 83) ∧ 0 ≤ shares ≤ max_shares
  | WReplace _ _ _ nref shares _ => next ≤ nref ∧ 0 ≤ shares ≤ max_shares
  | _ => True
  end.

Definition next_after (next : Z) (w : WireMsg) : Z :=
  match w with
  | WAdd _ _ ref _ _ _ => ref + 1
  | WReplace _ _ _ nref _ _ => nref + 1
  | _ => next
  end.

(** * Runs, one message at a time *)

Lemma ab_run_snoc a ms m : ab_run a (ms ++ [m]) = ab_apply (ab_run a ms) m.
Proof. unfold ab_run. by rewrite foldl_snoc. Qed.

Lemma run_fits_snoc a ms m : run_fits a (ms ++ [m]) ↔ run_fits a ms ∧ msg_fits (ab_run a ms) m.
Proof.
  revert a. induction ms as [|x ms IH]; intros a; simpl; [tauto|]. rewrite IH. tauto.
Qed.

Lemma run_fresh_snoc a ms m : run_fresh a (ms ++ [m]) ↔ run_fresh a ms ∧ msg_fresh (ab_run a ms) m.
Proof.
  revert a. induction ms as [|x ms IH]; intros a; simpl; [tauto|]. rewrite IH. tauto.
Qed.

Lemma feed_messages_snoc ws w : feed_messages (ws ++ [w]) = feed_messages ws ++ [wire_message w].
Proof. unfold feed_messages. by rewrite fmap_app. Qed.

Lemma feed_book_snoc ws w : feed_book (ws ++ [w]) = ab_apply (feed_book ws) (wire_message w).
Proof. unfold feed_book. by rewrite feed_messages_snoc, ab_run_snoc. Qed.

Lemma wire_msg_ok w : wire_ok w → msg_ok (wire_message w).
Proof.
  assert (Hs : bytes_ok synth_stock ∧ length synth_stock = 8%nat)
    by (split; [apply (bool_decide_unpack _); vm_compute; exact I|done]).
  assert (Hz : ∀ k, 0 ≤ k → fits k 0) by (intros; unfold fits; split; [lia|by apply Z.pow_pos_nonneg]).
  pose proof replicate_ok as Hr. destruct w; simpl; intros Hw; destruct_and! Hw; split; simpl; auto with lia.
Qed.

Lemma feed_msgs_ok ws : Forall wire_ok ws → Forall msg_ok (feed_messages ws).
Proof.
  intros H. apply Forall_fmap. eapply Forall_impl; [exact H|]. intros w. apply wire_msg_ok.
Qed.

Lemma feed_ab_inv ws next : feed_inv ws next → ab_inv (feed_book ws).
Proof.
  intros [Hw _ Hf _ _ _]. apply ab_run_inv; [apply ab0_inv|by apply feed_msgs_ok|done].
Qed.

(** * One message *)

(** The orders after a message: those from before, or the new one. *)
Lemma ab_apply_orders a m r o :
  ab_orders (ab_apply a m) !! r = Some o →
  (∃ o', ab_orders a !! r = Some o' ∧ o_side o' = o_side o ∧ o_price o' = o_price o) ∨
  ((type m = AddOrder ∨ type m = AddOrderMpid) ∧ r = order_ref m ∧ o = mkOrder (side m) (price m) (shares m)) ∨
  (type m = OrderReplace ∧ r = new_order_ref m).
Proof.
  assert (Hadd : ∀ a' ref sd p q, ab_orders (ab_add a' ref sd p q) !! r = Some o →
    ab_orders a' !! r = Some o ∨ (r = ref ∧ o = mkOrder sd p q)).
  { intros a' ref sd p q. unfold ab_add. destruct (q =? 0); [by left|]. rewrite orders_update.
    rewrite lookup_insert_Some. intros [[-> ->]|[_ ?]]; [by right|by left]. }
  assert (Hrem : ∀ ref, ab_orders (ab_remove a ref).2 !! r = Some o → ab_orders a !! r = Some o).
  { intros ref. unfold ab_remove. destruct (ab_orders a !! ref); [|done]. cbn [snd].
    rewrite orders_update. by intros [_ ?]%lookup_delete_Some. }
  assert (Hred : ∀ ref q, ab_orders (ab_reduce a ref q).2 !! r = Some o →
    ∃ o', ab_orders a !! r = Some o' ∧ o_side o' = o_side o ∧ o_price o' = o_price o).
  { intros ref q. unfold ab_reduce. destruct (ab_orders a !! ref) as [o'|] eqn:E; [|by exists o].
    cbn [snd]. rewrite orders_update. case_decide.
    - intros [_ ?]%lookup_delete_Some. by exists o.
    - rewrite lookup_insert_Some. intros [[-> <-]|[_ ?]]; [by exists o'|by exists o]. }
  unfold ab_apply. destruct (type m) eqn:Et; try (by intros H; left; exists o); try (by intros ?%Hred; left).
  - intros [?|[-> ->]]%Hadd; [left; by exists o|]. right; left. auto.
  - intros [?|[-> ->]]%Hadd; [left; by exists o|]. right; left. auto.
  - intros ?%Hrem. left. by exists o.
  - unfold ab_replace. destruct (ab_orders a !! order_ref m) as [o'|]; [|by intros ?; left; exists o].
    cbn [snd]. intros [?%Hrem|[-> ->]]%Hadd; [left; by exists o|]. by right; right.
Qed.

(** The shares a message can add to a level. *)

Definition added (m : Message) : Z :=
  match type m with
  | AddOrder | AddOrderMpid | OrderReplace => shares m
  | _ => 0
  end.

Lemma ab_add_level a ref sd p q buy p' :
  0 ≤ q → lv_at (lvl (ab_add a ref sd p q) buy) p' ≤ lv_at (lvl a buy) p' + q.
Proof.
  intros Hq. unfold ab_add. destruct (Z.eqb_spec q 0); [lia|]. rewrite lv_at_add.
  destruct (_ && _); lia.
Qed.

Lemma ab_remove_level a ref buy p' :
  ab_inv a → lv_at (lvl (ab_remove a ref).2 buy) p' ≤ lv_at (lvl a buy) p'.
Proof.
  intros Hi. unfold ab_remove. destruct (ab_orders a !! ref) as [o|] eqn:Ho; [|done].
  pose proof (covers_order a ref o Hi Ho). cbn [snd].
  rewrite lv_at_sub; [destruct (_ && _); lia|apply (ao_lvl a), Hi|lia].
Qed.

Lemma ab_reduce_level a ref q buy p' :
  ab_inv a → 0 ≤ q → lv_at (lvl (ab_reduce a ref q).2 buy) p' ≤ lv_at (lvl a buy) p'.
Proof.
  intros Hi Hq. unfold ab_reduce. destruct (ab_orders a !! ref) as [o|] eqn:Ho; [|done].
  pose proof (covers_order a ref o Hi Ho). cbn [snd].
  rewrite lv_at_sub; [destruct (_ && _); lia|apply (ao_lvl a), Hi|lia].
Qed.

Lemma ab_apply_level a m buy p :
  ab_inv a → msg_ok m → lv_at (lvl (ab_apply a m) buy) p ≤ lv_at (lvl a buy) p + added m.
Proof.
  intros Hi Hm. pose proof (mo_shares m Hm) as Hs. unfold fits in Hs. unfold ab_apply, added.
  pose proof (ab_remove_level a (order_ref m) buy p Hi) as Hr.
  pose proof (ab_reduce_level a (order_ref m) (shares m) buy p Hi) as Hd.
  destruct (type m); try lia; try (apply ab_add_level; lia).
  unfold ab_replace. destruct (ab_orders a !! order_ref m); cbn [snd]; [|lia].
  etrans; [apply ab_add_level; lia|lia].
Qed.

Lemma msg_fits_bound a m B :
  ab_inv a → msg_ok m → (∀ buy p, lv_at (lvl a buy) p ≤ B) → B + added m < 2 ^ 32 → msg_fits a m.
Proof.
  intros Hi Hm HB Hlt. unfold msg_fits, add_fits, added in *.
  destruct (type m); try done; try (rewrite ab_levels_lvl; specialize (HB (is_buy (side m)) (price m)); lia).
  destruct (ab_orders a !! order_ref m) as [o|]; [|done]. rewrite ab_levels_lvl.
  pose proof (ab_remove_level a (order_ref m) (is_buy (o_side o)) (price m) Hi).
  specialize (HB (is_buy (o_side o)) (price m)). lia.
Qed.

(** * Extending a feed *)

Lemma feed_nil : feed_inv [] 1.
Proof.
  split; [constructor|constructor|done|done| |].
  - intros r [o Ho]. unfold feed_book in Ho. simpl in Ho. by rewrite lookup_empty in Ho.
  - intros [] p; unfold feed_book, lvl; simpl; by rewrite lv_at_empty.
Qed.

Lemma wire_added next w : wire_fresh next w → 0 ≤ added (wire_message w) ≤ max_shares.
Proof. unfold added, max_shares. destruct w; simpl; unfold max_shares; intros; lia. Qed.

Lemma wire_sided next w : wire_fresh next w → msg_sided (wire_message w).
Proof. destruct w; simpl; try done. intros (_ & [-> | ->] & _); [by left|by right]. Qed.

Lemma feed_snoc ws next w :
  feed_inv ws next → wire_ok w → wire_fresh next w → max_shares * (zlen ws + 1) < 2 ^ 32 →
  feed_inv (ws ++ [w]) (next_after next w).
Proof.
  intros Hi Hw Hf Hlt. pose proof (feed_ab_inv ws next Hi) as Ha. pose proof (wire_msg_ok w Hw) as Hm.
  pose proof (wire_added next w Hf) as Hadd. destruct Hi as [Hws Hsd Hfit Hfr Hrefs Hlv].
  split; rewrite ?feed_messages_snoc, ?feed_book_snoc.
  - apply Forall_app. split; [done|by constructor].
  - apply Forall_app. split; [done|]. constructor; [by eapply wire_sided|constructor].
  - apply run_fits_snoc. split; [done|]. eapply msg_fits_bound; [done|done|exact Hlv|lia].
  - apply run_fresh_snoc. split; [done|].
    assert (Hn : ∀ r, next ≤ r → ab_orders (feed_book ws) !! r = None).
    { intros r Hr. destruct (ab_orders (feed_book ws) !! r) eqn:E; [|done].
      assert (r < next) by (by apply Hrefs; rewrite E). lia. }
    destruct w; simpl in Hf |- *; try done; unfold msg_fresh; simpl; [|right]; apply Hn; lia.
  - intros r [o Ho]. apply ab_apply_orders in Ho as [(o' & Ho' & _)|[(Ht & -> & _)|(Ht & ->)]].
    + assert (r < next) by (by apply Hrefs; rewrite Ho'). destruct w; simpl in *; lia.
    + destruct w; simpl in *; try (by destruct Ht); lia.
    + destruct w; simpl in *; try done; lia.
  - intros buy p. pose proof (ab_apply_level (feed_book ws) (wire_message w) buy p Ha Hm).
    specialize (Hlv buy p). rewrite zlen_app. change (zlen [w]) with 1. lia.
Qed.

Lemma feed_weaken ws next next' : feed_inv ws next → next ≤ next' → feed_inv ws next'.
Proof. intros [? ? ? ? Hr ?] Hle. split; try done. intros r Ho. specialize (Hr r Ho). lia. Qed.

(** A feed is a stream the books can be trusted on. *)
Lemma feed_stream_ok ws next :
  feed_inv ws next → zlen ws ≤ 2 ^ 32 →
  stream_ok (feed_messages ws) ∧ run_fresh ab0 (feed_messages ws) ∧ Forall msg_sided (feed_messages ws).
Proof.
  intros [Hw Hsd Hfit Hfr _ _] Hl. split_and!; [|done|done]. split_and!; [by apply feed_msgs_ok|done|].
  unfold feed_messages. by rewrite zlen_fmap.
Qed.

(** A prefix of a feed is a stream the books can be trusted on, too. *)
Lemma run_fits_prefix a ms ks : run_fits a (ms ++ ks) → run_fits a ms.
Proof. revert a. induction ms as [|m ms IH]; intros a; simpl; [done|]. intros [? ?]. eauto. Qed.

Lemma run_fresh_prefix a ms ks : run_fresh a (ms ++ ks) → run_fresh a ms.
Proof. revert a. induction ms as [|m ms IH]; intros a; simpl; [done|]. intros [? ?]. eauto. Qed.

Lemma feed_prefix_ok ws ks next :
  feed_inv (ws ++ ks) next → zlen (ws ++ ks) ≤ 2 ^ 32 →
  stream_ok (feed_messages ws) ∧ run_fresh ab0 (feed_messages ws).
Proof.
  intros [Hw _ Hfit Hfr _ _] Hl. unfold feed_messages in *. rewrite fmap_app in *. rewrite zlen_app in Hl.
  pose proof (zlen_nonneg ks). split; [|by eapply run_fresh_prefix]. split_and!.
  - apply Forall_app in Hw as [Hw _]. by apply feed_msgs_ok.
  - by eapply run_fits_prefix.
  - rewrite zlen_fmap. lia.
Qed.

(** A level is made of orders. *)
Lemma lsum_pos buy p ol : 0 < lsum buy p ol → ∃ o, o ∈ ol ∧ is_buy (o_side o) = buy ∧ o_price o = p.
Proof.
  induction ol as [|o ol IH]; simpl; [lia|]. intros Hs. unfold contrib in Hs.
  destruct (eqb (is_buy (o_side o)) buy) eqn:Eb; [destruct (Z.eqb_spec (o_price o) p)|]; simpl in Hs.
  - exists o. split_and!; [left|by apply eqb_prop|done].
  - destruct IH as (o' & ? & ?); [lia|]. exists o'. split; [by right|done].
  - destruct IH as (o' & ? & ?); [lia|]. exists o'. split; [by right|done].
Qed.

Lemma total_pos buy p os :
  0 < total buy p os → ∃ r o, os !! r = Some o ∧ is_buy (o_side o) = buy ∧ o_price o = p.
Proof.
  intros (o & Ho & Hb)%lsum_pos. apply list_elem_of_fmap in Ho as ([r o'] & -> & Hin).
  apply elem_of_map_to_list in Hin. by exists r, o'.
Qed.
