(* ===== verification/Replay.v ===== *)
(** The single-threaded replay (include/feed/pipeline.hpp): deframe, decode and apply on one
    thread.  It is the reference for the pipelined and the sharded replay. *)
From S2P Require Export BookSet FeedFacts.

(** The sink of the replay: apply the message and count it. *)

Definition replay_sink (nb : Z * OrderBook) (m : Message) : option (Z * OrderBook) :=
  b ← OrderBook.apply nb.2 m; Some (u64 (nb.1 + 1), b).

Definition replay_single_threaded (buf : list Z) (len : Z) (b : OrderBook) :
    option (Z * OrderBook) :=
  r ← for_each_framed_message replay_sink buf len (0, b); Some r.2.

(** The sink applied to a list of messages. *)
Lemma replay_fold ms n b :
  0 ≤ n → n + zlen ms < 2 ^ 64 →
  foldM replay_sink (n, b) ms = b' ← apply_all b ms; Some (n + zlen ms, b').
Proof.
  revert n b. induction ms as [|m ms IH]; intros n b Hn Hlt.
  { simpl. unfold zlen. simpl. by rewrite Z.add_0_r. }
  rewrite zlen_cons in *. pose proof (zlen_nonneg ms). cbn [foldM apply_all]. unfold replay_sink at 2.
  cbn [fst snd]. destruct (OrderBook.apply b m) as [b1|]; [|done]. cbn [mbind option_bind].
  rewrite u64_small, IH by lia. by replace (n + 1 + zlen ms) with (n + (zlen ms + 1)) by lia.
Qed.

(** A record of a generated message is at most 46 bytes. *)
Lemma write_stream_zlen ws : Forall wire_ok ws → zlen (write_stream ws) ≤ 46 * zlen ws.
Proof.
  intros Hw. rewrite write_stream_frames by done. induction Hw as [|w ws Hw _ IH]; [done|].
  cbn [fmap list_fmap]. rewrite frames_cons, zlen_app, record_zlen, zlen_cons, encode_length by done.
  destruct w; simpl in *; lia.
Qed.

Lemma record_ok b : bytes_ok b → bytes_ok (record b).
Proof. intros Hok. unfold record. constructor; [apply u8_range|]. constructor; [apply u8_range|done]. Qed.

(** A written feed is a byte string. *)
Lemma write_stream_ok ws : Forall wire_ok ws → bytes_ok (write_stream ws).
Proof.
  intros Hw. rewrite write_stream_frames by done. destruct (encode_all_ok ws Hw) as [_ Hok]. induction Hok as [|b bs Hbok _ IH]; [constructor|].
  rewrite frames_cons. apply Forall_app. split; [by apply record_ok|done].
Qed.

(** Replaying a written feed applies its messages and counts them. *)
Lemma replay_feed ws b :
  Forall wire_ok ws → zlen ws ≤ 2 ^ 32 →
  replay_single_threaded (write_stream ws) (zlen (write_stream ws)) b =
    b' ← apply_all b (feed_messages ws); Some (zlen ws, b').
Proof.
  intros Hw Hl. unfold replay_single_threaded. pose proof (write_stream_zlen ws Hw).
  rewrite replay_written by (done || lia). unfold feed_messages.
  rewrite replay_fold; rewrite ?zlen_fmap; try lia. by destruct (apply_all b _).
Qed.

(** The book of a feed is consistent. *)
Lemma feed_apply_consistent ws next :
  feed_inv ws next → zlen ws ≤ 2 ^ 32 →
  ∃ b : OrderBook, apply_all book0 (feed_messages ws) = Some b ∧
    ∀ iter, iter ≡ₚ map_to_list (index_ b) → invariant_ok b iter = Some true.
Proof.
  intros Hf Hl. destruct (feed_stream_ok ws next Hf Hl) as (Hs & Hfr & Hsd).
  destruct (run_rep (F:=MapLevels) _ Hs) as (b & Hb & Hr & _). exists b. split; [done|].
  intros iter Hp. destruct (invariant_ok_rep b _ iter Hr (feed_ab_inv ws next Hf) Hp) as (r & -> & Hiff).
  f_equal. apply Hiff. destruct Hs as (Hm & Hfit & _). split.
  - apply ab_run_sides; [done|apply map_Forall_empty].
  - apply ab_run_consistent; [apply ab0_inv|done|done|done|apply ab0_consistent].
Qed.

Lemma feed_replay_consistent ws next :
  feed_inv ws next → zlen ws ≤ 2 ^ 32 →
  ∃ b, replay_single_threaded (write_stream ws) (zlen (write_stream ws)) book0 = Some (zlen ws, b) ∧
    ∀ iter, iter ≡ₚ map_to_list (index_ b) → invariant_ok b iter = Some true.
Proof.
  intros Hf Hl. destruct (feed_apply_consistent ws next Hf Hl) as (b & Hb & Hok).
  rewrite replay_feed by (done || apply Hf). rewrite Hb. by exists b.
Qed.
