(* ===== verification/Synthetic.v ===== *)
(** The monad and the program logic of the synthetic feed generators
    (include/feed/synthetic.hpp), and [make_synthetic_itch], the single-symbol stress mix.
    [make_synthetic_multi] is in [SyntheticMulti], [make_synthetic_book] in [SyntheticBook].

    A generator runs in a monad [M] with its local variables as state, a count of the draws
    from the random engine, and [None] for an access outside a vector.  The engine
    is the sequence [rng] of its draws, [mt19937 seed] for the [std::mt19937] of the source;
    every statement holds for every sequence, hence for every seed.  The bytes are written record by record, so the
    state keeps the messages and the result is their [write_stream]. *)
From S2P Require Export Replay Mt19937.

(** * The monad *)

Definition M (St A : Type) : Type := nat → St → option (A * nat * St).

#[global] Instance M_ret St : MRet (M St) := λ A x k s, Some (x, k, s).

#[global] Instance M_bind St : MBind (M St) := λ A B f m k s,
  match m k s with Some (x, k', s') => f x k' s' | None => None end.

Definition get_st {St} : M St St := λ k s, Some (s, k, s).

Definition modify {St} (f : St → St) : M St unit := λ k s, Some (tt, k, f s).

Definition lift {St A} (o : option A) : M St A := λ k s, x ← o; Some (x, k, s).

(** Running [body] with the loop counter [e], [e + 1], ... [n] times. *)

Fixpoint repeat_from {St} (n : nat) (e : Z) (body : Z → M St unit) : M St unit :=
  match n with
  | O => mret tt
  | S n => body e ≫= λ _, repeat_from n (e + 1) body
  end.

(** * Weakest preconditions *)

(** [wp m Q k s]: run from [s] after [k] draws, [m] ends in a state satisfying [Q]. *)

Definition wp {St A} (m : M St A) (Q : A → St → Prop) (k : nat) (s : St) : Prop :=
  ∃ x k' s', m k s = Some (x, k', s') ∧ Q x s'.

Section Wp.
Context {St : Type}.

Lemma wp_ret {A} (x : A) (Q : A → St → Prop) k s : Q x s → wp (mret x) Q k s.
Proof. intros HQ. by exists x, k, s. Qed.

Lemma wp_bind {A B} (m : M St A) (f : A → M St B) Q k s :
  wp m (λ x s', ∀ k', wp (f x) Q k' s') k s → wp (m ≫= f) Q k s.
Proof.
  intros (x & k' & s' & E & Hf). destruct (Hf k') as (y & k'' & s'' & E' & HQ).
  exists y, k'', s''. split; [|done]. unfold mbind, M_bind. by rewrite E.
Qed.

Lemma wp_mono {A} (m : M St A) (Q Q' : A → St → Prop) k s :
  wp m Q k s → (∀ x s', Q x s' → Q' x s') → wp m Q' k s.
Proof. intros (x & k' & s' & E & HQ) H. exists x, k', s'. auto. Qed.

Lemma wp_get Q k (s : St) : Q s s → wp get_st Q k s.
Proof. intros HQ. by exists s, k, s. Qed.

Lemma wp_modify f Q k (s : St) : Q tt (f s) → wp (modify f) Q k s.
Proof. intros HQ. by exists tt, k, (f s). Qed.

Lemma wp_lift {A} (o : option A) x Q k (s : St) : o = Some x → Q x s → wp (lift o) Q k s.
Proof. intros -> HQ. by exists x, k, s. Qed.

Lemma wp_repeat (I : Z → St → Prop) n e body k s :
  I e s → (∀ e' k' s', e ≤ e' < e + Z.of_nat n → I e' s' → wp (body e') (λ _, I (e' + 1)) k' s') →
  wp (repeat_from n e body) (λ _, I (e + Z.of_nat n)) k s.
Proof.
  revert e k s. induction n as [|n IH]; intros e k s Hi Hb.
  - apply wp_ret. by replace (e + Z.of_nat 0) with e by lia.
  - cbn [repeat_from]. apply wp_bind. eapply wp_mono; [apply Hb; [lia|exact Hi]|].
    intros x s' Hi' k'. simpl in Hi'. replace (e + Z.of_nat (S n)) with (e + 1 + Z.of_nat n) by lia.
    apply IH; [done|]. intros e' k'' s'' He. apply Hb. lia.
Qed.

End Wp.

(** * Random draws *)

Section Draws.
Context (rng : nat → Z).

Definition draw {St} : M St Z := λ k s, Some (rng k, S k, s).

(** [rng() % hi]. *)

Definition pct {St} (hi : Z) : M St Z := draw ≫= λ r, mret (r `mod` hi).

Lemma wp_pct {St} hi (Q : Z → St → Prop) k s :
  0 < hi → (∀ r, 0 ≤ r < hi → Q r s) → wp (pct hi) Q k s.
Proof.
  intros Hhi HQ. eexists _, _, _. split; [done|]. apply HQ. by apply Z.mod_pos_bound.
Qed.

End Draws.

(** [static_cast<int>(rng() % static_cast<unsigned>(hi))] is [pct]: a draw fits the 32 bits of the
    division, which changes nothing, and the result fits an [int]. *)
Lemma pct_in_32_bits {St} seed k hi (s : St) :
  0 < hi < 2 ^ 31 →
  ∃ r, pct (mt19937 seed) hi k s = Some (r, S k, s) ∧ r = u32 (mt19937 seed k) `mod` u32 hi ∧ 0 ≤ r < 2 ^ 31.
Proof.
  intros Hh. destruct (mt19937_word seed k) as [H0 H1]. eexists. split; [done|]. unfold u32, wrap. rewrite !(Z.mod_small _ (2 ^ 32)) by lia.
  pose proof (Z.mod_pos_bound (mt19937 seed k) hi ltac:(lia)). split; [done|lia].
Qed.

(** Takes the next random draw or state access of a generator apart. *)
Ltac wp_next :=
  first
    [ apply wp_bind, wp_pct; [lia|]
    | apply wp_bind, wp_get; cbv beta
    | apply wp_bind, wp_modify; cbv beta ].

(** * The single-symbol mix *)

Section Generators.
Context (rng : nat → Z).

Record ItchGen := mkItchGen {
  i_out : list WireMsg;
  i_live : list (Z * Z);
  i_next : Z;
  i_ts : Z;
  i_mid : Z;
}.

Definition itch0 : ItchGen := mkItchGen [] [] 1 (34200 * 1000000000) 1000000.

Definition i_write (w : WireMsg) (g : ItchGen) : ItchGen :=
  mkItchGen (i_out g ++ [w]) (i_live g) (i_next g) (i_ts g) (i_mid g).

Definition i_set_live (l : list (Z * Z)) (g : ItchGen) : ItchGen :=
  mkItchGen (i_out g) l (i_next g) (i_ts g) (i_mid g).

Definition i_set_next (n : Z) (g : ItchGen) : ItchGen :=
  mkItchGen (i_out g) (i_live g) n (i_ts g) (i_mid g).

Definition i_set_ts (t : Z) (g : ItchGen) : ItchGen :=
  mkItchGen (i_out g) (i_live g) (i_next g) t (i_mid g).

Definition i_set_mid (m : Z) (g : ItchGen) : ItchGen :=
  mkItchGen (i_out g) (i_live g) (i_next g) (i_ts g) m.

(** The price of a new order around [mid]. *)

Definition px_around (mid side o : Z) : Z :=
  let off := if side =? 66 then - (1 + o) else 1 + o in
  let px := mid + off * 100 in
  if px <? 100 then 100 else px.

Definition add_px (side : Z) : M ItchGen Z :=
  pct rng 50 ≫= λ o, get_st ≫= λ g, mret (px_around (i_mid g) side o).

Definition emit_add : M ItchGen unit :=
  pct rng 2 ≫= λ s,
  let side := if s =? 0 then 66 else 83 in
  get_st ≫= λ g0,
  let ref := i_next g0 in
  modify (i_set_next (u64 (ref + 1))) ≫= λ _,
  pct rng 990 ≫= λ sh,
  add_px side ≫= λ px,
  get_st ≫= λ g,
  modify (i_write (WAdd 1 (i_ts g) ref side (u32 (10 + sh)) (u32 px))) ≫= λ _,
  modify (i_set_live (i_live g ++ [(ref, side)])).

Definition pick : M ItchGen Z :=
  draw rng ≫= λ r, get_st ≫= λ g, mret (r `mod` zlen (i_live g)).

(** [live[i] = live.back(); live.pop_back();] *)

Definition swap_pop {A} (l : list A) (i : Z) : option (list A) :=
  b ← last l; l' ← l.[i <- b]; Some (removelast l').

(** The branches of the main loop, with [e] messages emitted. *)

Definition i_execute (e : Z) : M ItchGen unit :=
  pick ≫= λ i, get_st ≫= λ g, lift (i_live g).[i] ≫= λ x,
  pct rng 20 ≫= λ sh, modify (i_write (WExecute 1 (i_ts g) x.1 (u32 (1 + sh)) e)).

Definition i_cancel : M ItchGen unit :=
  pick ≫= λ i, get_st ≫= λ g, lift (i_live g).[i] ≫= λ x,
  pct rng 20 ≫= λ sh, modify (i_write (WCancel 1 (i_ts g) x.1 (u32 (1 + sh)))).

Definition i_delete : M ItchGen unit :=
  pick ≫= λ i, get_st ≫= λ g, lift (i_live g).[i] ≫= λ x,
  modify (i_write (WDelete 1 (i_ts g) x.1)) ≫= λ _,
  lift (swap_pop (i_live g) i) ≫= λ l, modify (i_set_live l).

Definition i_replace : M ItchGen unit :=
  pick ≫= λ i, get_st ≫= λ g, lift (i_live g).[i] ≫= λ x,
  let nref := i_next g in
  modify (i_set_next (u64 (nref + 1))) ≫= λ _,
  pct rng 990 ≫= λ sh,
  add_px x.2 ≫= λ px,
  modify (i_write (WReplace 1 (i_ts g) x.1 nref (u32 (10 + sh)) (u32 px))) ≫= λ _,
  lift (i_live g).[i <- (nref, x.2)] ≫= λ l, modify (i_set_live l).

Definition i_trade (e : Z) : M ItchGen unit :=
  pct rng 2 ≫= λ s,
  let side := if s =? 0 then 66 else 83 in
  pct rng 200 ≫= λ sh, get_st ≫= λ g,
  modify (i_write (WTrade 1 (i_ts g) side (u32 (1 + sh)) (u32 (i_mid g)) e)).

Definition i_walk : M ItchGen unit :=
  pct rng 8 ≫= λ w,
  if w =? 0 then
    pct rng 2 ≫= λ d, get_st ≫= λ g,
    let mid := i_mid g + (if d =? 0 then -100 else 100) in
    modify (i_set_mid (if mid <? 1000 then 1000 else mid))
  else mret tt.

Definition itch_step (e : Z) : M ItchGen unit :=
  i_walk ≫= λ _,
  pct rng 100 ≫= λ roll,
  get_st ≫= λ g,
  (if (zlen (i_live g) <? 8) || (roll <? 50) then emit_add
   else if roll <? 66 then i_execute e
   else if roll <? 78 then i_cancel
   else if roll <? 88 then i_delete
   else if roll <? 96 then i_replace
   else i_trade e) ≫= λ _,
  pct rng 1000 ≫= λ t,
  modify (λ g, i_set_ts (u64 (i_ts g + (1 + t))) g).

Definition itch_gen (n : nat) : M ItchGen unit :=
  repeat_from (min 16 n) 0 (λ _, emit_add) ≫= λ _,
  repeat_from (n - 16) 16 itch_step.

Definition make_synthetic_itch (n : nat) : option (list Z) :=
  r ← itch_gen n 0%nat itch0; Some (write_stream (i_out r.2)).

(** * The invariant of the single-symbol mix *)

(** The number of messages the bounds below allow for: a million. *)

Definition max_messages : Z := 1000000.

Definition t0 : Z := 34200 * 1000000000.

(** [len] messages written, the clock moved at most [tb] times, the mid at most [mb]. *)

Record itch_inv (len tb mb : Z) (g : ItchGen) : Prop := {
  ii_len : zlen (i_out g) = len;
  ii_feed : feed_inv (i_out g) (i_next g);
  ii_live : Forall (λ x, 1 ≤ x.1 < i_next g ∧ (x.2 = 66 ∨ x.2 = 83)) (i_live g);
  ii_next : 1 ≤ i_next g ≤ len + 1;
  ii_ts : t0 ≤ i_ts g ≤ t0 + 1000 * tb;
  ii_mid : 1000 ≤ i_mid g ≤ 1000000 + 100 * mb;
}.

Lemma px_around_range mid side o :
  1000 ≤ mid → 0 ≤ o < 50 → 100 ≤ px_around mid side o ≤ mid + 5000.
Proof. intros. unfold px_around. destruct (side =? 66); split_tests; lia. Qed.

(** Writing a message. *)
Lemma i_write_inv len tb mb g w next live :
  itch_inv len tb mb g → len < max_messages → wire_ok w → wire_fresh (i_next g) w →
  next = next_after (i_next g) w → i_next g ≤ next ≤ i_next g + 1 →
  Forall (λ x, 1 ≤ x.1 < next ∧ (x.2 = 66 ∨ x.2 = 83)) live →
  itch_inv (len + 1) tb mb (i_set_live live (i_write w (i_set_next next g))).
Proof.
  intros [Hl Hf Hv Hn Ht Hm] Hlt Hw Hfr -> Hnx Hlive. unfold max_messages in Hlt. split; simpl; try done.
  - by rewrite zlen_app, Hl.
  - apply feed_snoc; [done|done|done|]. rewrite Hl. unfold max_shares. lia.
  - lia.
Qed.

Lemma live_weaken next next' (l : list (Z * Z)) :
  next ≤ next' → Forall (λ x, 1 ≤ x.1 < next ∧ (x.2 = 66 ∨ x.2 = 83)) l →
  Forall (λ x, 1 ≤ x.1 < next' ∧ (x.2 = 66 ∨ x.2 = 83)) l.
Proof. intros Hle H. eapply Forall_impl; [exact H|]. intros x (Hx & Hs). simpl. split; [lia|done]. Qed.

(** The state record of a generator is determined by its fields. *)
Lemma i_set_id g : g = i_set_live (i_live g) (i_set_next (i_next g) g).
Proof. by destruct g. Qed.

Lemma emit_add_inv len tb mb k g :
  itch_inv len tb mb g → len < max_messages → 0 ≤ tb ≤ max_messages → 0 ≤ mb ≤ max_messages →
  wp emit_add (λ _, itch_inv (len + 1) tb mb) k g.
Proof.
  intros Hi Hlt Htb Hmb. pose proof Hi as [Hl Hf Hv Hn Ht Hm]. unfold emit_add, max_messages, t0 in *.
  wp_next. intros s Hs k1. wp_next. intros k2. wp_next. intros k3. wp_next. intros sh Hsh k4.
  set (side := if s =? 0 then 66 else 83).
  assert (Hside : side = 66 ∨ side = 83) by (unfold side; destruct (s =? 0); auto).
  unfold add_px. apply wp_bind. wp_next. intros o Ho k5. wp_next. intros k6. apply wp_ret. simpl. intros k7.
  wp_next. intros k8. wp_next. intros k9. apply wp_modify. simpl.
  pose proof (px_around_range (i_mid g) side o) as Hpx. rewrite !u32_small, u64_small by lia.
  apply (i_write_inv len tb mb g (WAdd 1 (i_ts g) (i_next g) side (10 + sh) (px_around (i_mid g) side o))
           (i_next g + 1)); simpl; try done; try lia.
  - unfold fits, byte_ok. destruct Hside as [-> | ->]; lia.
  - split_and!; [lia|done|unfold max_shares; lia..].
  - apply Forall_app. split; [by apply (live_weaken (i_next g)); [lia|]|].
    constructor; [simpl; split; [lia|done]|constructor].
Qed.

Lemma swap_pop_some {A} (l : list A) i :
  0 ≤ i < zlen l → ∃ l', swap_pop l i = Some l' ∧ ∀ x, x ∈ l' → x ∈ l.
Proof.
  intros Hi. destruct l as [|y l _] using rev_ind; [unfold zlen in Hi; simpl in Hi; lia|].
  unfold swap_pop. rewrite last_snoc. cbn [mbind option_bind].
  rewrite vset_Some by done. cbn [mbind option_bind]. eexists. split; [done|].
  intros x Hx. assert (Hin : x ∈ <[Z.to_nat i := y]> (l ++ [y])).
  { apply list_elem_of_In in Hx. apply list_elem_of_In. revert Hx. generalize (<[Z.to_nat i:=y]> (l ++ [y])).
    intros k. induction k as [|a [|b k] IH]; simpl; [done|done|]. intros [->|H]; [by left|right; by apply IH]. }
  apply list_elem_of_lookup in Hin as [j Hj]. destruct (decide (j = Z.to_nat i)) as [->|Hne].
  - unfold zlen in Hi. rewrite list_lookup_insert_eq in Hj by lia. injection Hj as <-. set_solver.
  - rewrite list_lookup_insert_ne in Hj by done. by eapply list_elem_of_lookup_2.
Qed.

(** Picking a live order. *)
Lemma wp_pick Q k g :
  0 < zlen (i_live g) → (∀ i x, 0 ≤ i < zlen (i_live g) → (i_live g).[i] = Some x → x ∈ i_live g → Q i g) →
  wp pick Q k g.
Proof.
  intros Hl HQ. eexists _, _, _. split; [done|].
  assert (Hr : 0 ≤ rng k `mod` zlen (i_live g) < zlen (i_live g)) by (by apply Z.mod_pos_bound).
  destruct (vget_is_Some (i_live g) _ Hr) as [x Hx]. eapply HQ; [done|exact Hx|].
  unfold vget in Hx. rewrite decide_True in Hx by lia. by eapply list_elem_of_lookup_2.
Qed.

(** Starts a branch that works on a live order [x], at index [i]. *)
Ltac pick_live Hv :=
  let i := fresh "i" in let x := fresh "x" in
  apply wp_bind, wp_pick; [done|]; intros i x Hidx Hx Hin k1; wp_next; intros k2;
  apply wp_bind; (apply wp_lift with x; [exact Hx|]); intros k3;
  pose proof Hv as Hx'; rewrite Forall_forall in Hx'; specialize (Hx' x Hin); destruct Hx' as [Hxr Hxs].

Lemma i_write_same len tb mb g w :
  itch_inv len tb mb g → len < max_messages → wire_ok w → wire_fresh (i_next g) w →
  next_after (i_next g) w = i_next g → itch_inv (len + 1) tb mb (i_write w g).
Proof.
  intros Hi Hlt Hw Hf Hn. pose proof Hi as [_ _ Hv _ _ _].
  assert (E : i_write w g = i_set_live (i_live g) (i_write w (i_set_next (i_next g) g))) by (by destruct g).
  rewrite E. apply i_write_inv; try done; lia.
Qed.

Section Branches.
Context (len tb mb : Z) (g : ItchGen).
Hypothesis Hi : itch_inv len tb mb g.
Hypothesis Hlt : 0 ≤ len < max_messages.
Hypothesis Htb : 0 ≤ tb ≤ max_messages.
Hypothesis Hmb : 0 ≤ mb ≤ max_messages.
Hypothesis Hlive : 0 < zlen (i_live g).

Lemma i_execute_inv k : wp (i_execute len) (λ _, itch_inv (len + 1) tb mb) k g.
Proof using Hi Hlt Htb Hlive.
  pose proof Hi as [_ _ Hv Hn Ht _]. unfold i_execute, max_messages, t0 in *. pick_live Hv.
  wp_next. intros sh Hsh k4. apply wp_modify. rewrite u32_small by lia.
  apply i_write_same; [done|unfold max_messages; lia| |done|done].
  simpl. unfold fits. lia.
Qed.

Lemma i_cancel_inv k : wp i_cancel (λ _, itch_inv (len + 1) tb mb) k g.
Proof using Hi Hlt Htb Hlive.
  pose proof Hi as [_ _ Hv Hn Ht _]. unfold i_cancel, max_messages, t0 in *. pick_live Hv.
  wp_next. intros sh Hsh k4. apply wp_modify. rewrite u32_small by lia.
  apply i_write_same; [done|unfold max_messages; lia| |done|done].
  simpl. unfold fits. lia.
Qed.

Lemma i_delete_inv k : wp i_delete (λ _, itch_inv (len + 1) tb mb) k g.
Proof using Hi Hlt Htb Hlive.
  pose proof Hi as [_ _ Hv Hn Ht _]. unfold i_delete, max_messages, t0 in *. pick_live Hv.
  wp_next. intros k4. destruct (swap_pop_some (i_live g) i) as (l & El & Hl); [done|].
  apply wp_bind. apply wp_lift with l; [done|]. intros k5. apply wp_modify.
  assert (E : i_write (WDelete 1 (i_ts g) x.1) g =
              i_write (WDelete 1 (i_ts g) x.1) (i_set_next (i_next g) g)) by (by destruct g).
  rewrite E. apply i_write_inv; try done; [unfold max_messages; lia|simpl; unfold fits; lia|lia|].
  apply Forall_forall. intros y Hy. rewrite Forall_forall in Hv. by apply Hv, Hl.
Qed.

Lemma i_replace_inv k : wp i_replace (λ _, itch_inv (len + 1) tb mb) k g.
Proof using Hi Hlt Htb Hmb Hlive.
  pose proof Hi as [_ _ Hv Hn Ht Hm]. unfold i_replace, max_messages, t0 in *. pick_live Hv.
  wp_next. intros k4. wp_next. intros sh Hsh k5.
  unfold add_px. apply wp_bind. wp_next. intros o Ho k6. wp_next. intros k7. apply wp_ret. simpl. intros k8.
  wp_next. intros k9. apply wp_bind. eapply wp_lift; [by apply vset_Some|]. intros k10. apply wp_modify.
  pose proof (px_around_range (i_mid g) x.2 o) as Hpx. rewrite !u32_small, u64_small by lia.
  apply (i_write_inv len tb mb g (WReplace 1 (i_ts g) x.1 (i_next g) (10 + sh) (px_around (i_mid g) x.2 o))
           (i_next g + 1)); simpl; try done; try lia.
  - unfold max_messages. lia.
  - unfold fits. lia.
  - unfold max_shares. lia.
  - apply Forall_insert; [by apply (live_weaken (i_next g)); [lia|]|]. simpl. split; [lia|done].
Qed.

Lemma i_trade_inv k : wp (i_trade len) (λ _, itch_inv (len + 1) tb mb) k g.
Proof using Hi Hlt Htb Hmb.
  pose proof Hi as [_ _ Hv Hn Ht Hm]. unfold i_trade, max_messages, t0 in *.
  wp_next. intros s Hs k1. wp_next. intros sh Hsh k2. wp_next. intros k3. apply wp_modify.
  rewrite !u32_small by lia. apply i_write_same; [done|unfold max_messages; lia| |done|done].
  simpl. unfold fits, byte_ok. destruct (s =? 0); lia.
Qed.

End Branches.

Lemma i_walk_inv len tb mb k g :
  itch_inv len tb mb g → 0 ≤ mb → wp i_walk (λ _, itch_inv len tb (mb + 1)) k g.
Proof.
  intros [Hl Hf Hv Hn Ht Hm] Hmb. unfold i_walk. wp_next. intros w _ k1.
  destruct (w =? 0); [|apply wp_ret; split; try done; lia].
  wp_next. intros d _ k2. wp_next. intros k3. apply wp_modify. split; simpl; try done.
  destruct (d =? 0); split_tests; lia.
Qed.

Lemma itch_step_inv e k g :
  itch_inv e e e g → 0 ≤ e < max_messages → wp (itch_step e) (λ _, itch_inv (e + 1) (e + 1) (e + 1)) k g.
Proof.
  intros Hi He. unfold itch_step. apply wp_bind. eapply wp_mono; [apply i_walk_inv; [done|lia]|].
  intros x g1 Hi1 k1. simpl in Hi1. clear x g Hi. wp_next. intros roll _ k2. wp_next. intros k3.
  apply wp_bind. eapply wp_mono with (Q := λ _, itch_inv (e + 1) e (e + 1)).
  - destruct (Z.ltb_spec (zlen (i_live g1)) 8) as [|Hlive]; simpl; [apply emit_add_inv; done || lia|].
    assert (0 < zlen (i_live g1)) by lia.
    destruct (roll <? 50); [apply emit_add_inv; done || lia|].
    destruct (roll <? 66); [apply i_execute_inv; done || lia|].
    destruct (roll <? 78); [apply i_cancel_inv; done || lia|].
    destruct (roll <? 88); [apply i_delete_inv; done || lia|].
    destruct (roll <? 96); [apply i_replace_inv; done || lia|apply i_trade_inv; done || lia].
  - intros x g2 [Hl Hf Hv Hn Ht Hm] k4. wp_next. intros t Ht' k5. apply wp_modify.
    unfold max_messages, t0 in *. split; simpl; try done. unfold t0. rewrite u64_small by lia. lia.
Qed.

Lemma itch0_inv : itch_inv 0 0 0 itch0.
Proof. split; simpl; try done; apply feed_nil. Qed.

Lemma itch_gen_inv n k :
  Z.of_nat n ≤ max_messages →
  wp (itch_gen n) (λ _ g, itch_inv (Z.of_nat n) (Z.of_nat n) (Z.of_nat n) g) k itch0.
Proof.
  intros Hn. unfold itch_gen. apply wp_bind.
  eapply wp_mono; [apply (wp_repeat (λ e g, itch_inv e e e g)); [apply itch0_inv|]|].
  - intros e k1 g He Hi. eapply wp_mono; [apply emit_add_inv; [exact Hi|lia..]|].
    intros x g' [Hl Hf Hv Hnx Ht Hm]. split; try done; lia.
  - intros x g Hi k1. cbv beta in Hi.
    replace (0 + Z.of_nat (16 `min` n)) with (Z.of_nat (16 `min` n)) in Hi by lia.
    destruct (decide (n ≤ 16)%nat) as [Hle|Hgt].
    + replace (n - 16)%nat with 0%nat by lia. apply wp_ret.
      by replace (Z.of_nat n) with (Z.of_nat (16 `min` n)) by lia.
    + replace (Z.of_nat (16 `min` n)) with 16 in Hi by lia.
      eapply wp_mono; [apply (wp_repeat (λ e g, itch_inv e e e g)); [exact Hi|]|].
      * intros e k2 g2 He Hi2. apply itch_step_inv; [done|lia].
      * intros x2 g2. by replace (16 + Z.of_nat (n - 16)) with (Z.of_nat n) by lia.
Qed.

End Generators.

(** * Properties *)

(** What the generator writes: a feed of as many messages as asked for. *)
Lemma itch_stream (rng : nat → Z) n :
  Z.of_nat n ≤ max_messages →
  ∃ ws next, make_synthetic_itch rng n = Some (write_stream ws) ∧ zlen ws = Z.of_nat n ∧ feed_inv ws next.
Proof.
  intros Hn. destruct (itch_gen_inv rng n 0 Hn) as (x & k & g & E & [Hl Hf _ _ _ _]).
  exists (i_out g), (i_next g). unfold make_synthetic_itch. by rewrite E.
Qed.

(** The stress feed replays cleanly for every seed: for up to a million messages and any
    sequence of random draws the generator stays inside its vectors, and replaying the bytes
    it wrote applies exactly the requested number of messages and leaves a book whose
    consistency check passes. *)
Theorem synthetic_itch_replays (rng : nat → Z) n :
  Z.of_nat n ≤ max_messages →
  ∃ bytes b, make_synthetic_itch rng n = Some bytes ∧
    replay_single_threaded bytes (zlen bytes) book0 = Some (Z.of_nat n, b) ∧
    ∀ iter, iter ≡ₚ map_to_list (index_ b) → invariant_ok b iter = Some true.
Proof.
  intros Hn. destruct (itch_stream rng n Hn) as (ws & next & E & Hl & Hf). unfold max_messages in Hn.
  destruct (feed_replay_consistent ws next Hf) as (b & Hb & Hok); [lia|].
  exists (write_stream ws), b. rewrite <- Hl. done.
Qed.

(** The first hundred messages of the default seed. *)
Lemma synthetic_itch_replays_witness :
  ∃ bytes b, make_synthetic_itch (mt19937 1) 100 = Some bytes ∧
    replay_single_threaded bytes (zlen bytes) book0 = Some (100, b) ∧
    ∀ iter, iter ≡ₚ map_to_list (index_ b) → invariant_ok b iter = Some true.
Proof.
  apply (synthetic_itch_replays (mt19937 1) 100). vm_compute. discriminate.
Defined.

(** The input of the decode benchmark, [make_synthetic_itch(1, 7)]: one order to sell 662 shares at
    $100.22. *)
Example decode_input :
  make_synthetic_itch (mt19937 7) 1 = Some (write_stream [WAdd 1 34200000000000 1 83 662 1002200]).
Proof. vm_compute. reflexivity. Qed.
