(* ===== verification/SyntheticBook.v ===== *)
(** [make_synthetic_book] (include/feed/synthetic.hpp): the generator of a never-crossed
    book.  It keeps the price of every live order and prices a new order strictly inside the
    other side; the main result is that every prefix of its feed reconstructs into a book
    whose best bid is below its best ask. *)
From S2P Require Export Synthetic.

Record BookGen := mkBookGen {
  b_out : list WireMsg;
  b_live : list (Z * Z);
  b_px : list Z;
  b_next : Z;
  b_ts : Z;
}.

Definition bgen0 : BookGen := mkBookGen [] [] [] 1 (34200 * 1000000000).

Definition b_write (w : WireMsg) (g : BookGen) : BookGen :=
  mkBookGen (b_out g ++ [w]) (b_live g) (b_px g) (b_next g) (b_ts g).

Definition b_set_live (l : list (Z * Z)) (p : list Z) (g : BookGen) : BookGen :=
  mkBookGen (b_out g) l p (b_next g) (b_ts g).

Definition b_set_next (n : Z) (g : BookGen) : BookGen :=
  mkBookGen (b_out g) (b_live g) (b_px g) n (b_ts g).

Definition b_set_ts (t : Z) (g : BookGen) : BookGen :=
  mkBookGen (b_out g) (b_live g) (b_px g) (b_next g) t.

Definition C : Z := 100.

Definition seed_bid : Z := 1001000.

Definition seed_ask : Z := 1001100.

(** The loop of [best]: over the live orders and their prices, with [any] and [v]. *)

Fixpoint best_loop (side : Z) (live : list (Z * Z)) (px : list Z) (any : bool) (v : Z) :
    option (bool * Z) :=
  match live, px with
  | [], _ => Some (any, v)
  | x :: live, p :: px =>
      if x.2 =? side then
        best_loop side live px true
          (if negb any then p
           else if (if side =? 66 then v <? p else p <? v) then p else v)
      else best_loop side live px any v
  | x :: live, [] => if x.2 =? side then None else best_loop side live [] any v
  end.

Definition best (live : list (Z * Z)) (px : list Z) (side : Z) : option Z :=
  r ← best_loop side live px false 0;
  Some (if (r.1 : bool) then r.2 else if side =? 66 then seed_bid else seed_ask).

Section Generator.
Context (rng : nat → Z).

Definition b_add (side : Z) : M BookGen unit :=
  get_st ≫= λ g,
  lift (best (b_live g) (b_px g) 66) ≫= λ bb,
  lift (best (b_live g) (b_px g) 83) ≫= λ ba,
  pct rng 10 ≫= λ k,
  let price := if side =? 66 then ba - C - k * C else bb + C + k * C in
  let price := if price <? C then C else price in
  let ref := b_next g in
  modify (b_set_next (u64 (ref + 1))) ≫= λ _,
  pct rng 2500 ≫= λ sh,
  modify (b_write (WAdd 1 (b_ts g) ref side (u32 (50 + sh)) (u32 price))) ≫= λ _,
  modify (b_set_live (b_live g ++ [(ref, side)]) (b_px g ++ [price])).

Definition b_pick : M BookGen Z :=
  draw rng ≫= λ r, get_st ≫= λ g, mret (r `mod` zlen (b_live g)).

Definition b_execute (e : Z) : M BookGen unit :=
  b_pick ≫= λ i, get_st ≫= λ g, lift (b_live g).[i] ≫= λ x,
  pct rng 150 ≫= λ sh, modify (b_write (WExecute 1 (b_ts g) x.1 (u32 (5 + sh)) e)).

Definition b_delete : M BookGen unit :=
  b_pick ≫= λ i, get_st ≫= λ g, lift (b_live g).[i] ≫= λ x,
  modify (b_write (WDelete 1 (b_ts g) x.1)) ≫= λ _,
  lift (swap_pop (b_live g) i) ≫= λ l,
  lift (swap_pop (b_px g) i) ≫= λ p, modify (b_set_live l p).

Definition b_trade (e : Z) : M BookGen unit :=
  get_st ≫= λ g,
  lift (best (b_live g) (b_px g) 66) ≫= λ bb,
  lift (best (b_live g) (b_px g) 83) ≫= λ ba,
  let mid := (bb + ba) `quot` 2 in
  pct rng 2 ≫= λ s,
  let side := if s =? 0 then 66 else 83 in
  pct rng 600 ≫= λ sh,
  modify (b_write (WTrade 1 (b_ts g) side (u32 (10 + sh)) (u32 mid) e)).

Definition book_step (e : Z) : M BookGen unit :=
  pct rng 100 ≫= λ roll,
  get_st ≫= λ g,
  (if (roll <? 42) || (zlen (b_live g) <? 10) then
     pct rng 2 ≫= λ s, b_add (if s =? 0 then 66 else 83)
   else if roll <? 64 then b_execute e
   else if roll <? 82 then b_delete
   else b_trade e) ≫= λ _,
  pct rng 800 ≫= λ t,
  modify (λ g, b_set_ts (u64 (b_ts g + (1 + t))) g).

Definition book_gen (n : nat) : M BookGen unit :=
  repeat_from (min 20 n) 0 (λ i, b_add (if Z.land i 1 =? 0 then 66 else 83)) ≫= λ _,
  repeat_from (n - 20) 20 book_step.

Definition make_synthetic_book (n : nat) : option (list Z) :=
  r ← book_gen n 0%nat bgen0; Some (write_stream (b_out r.2)).

End Generator.

(** * Live orders with their prices *)

Abbreviation entries g := (zip (b_live g) (b_px g)).

Definition on_side (side : Z) (x : Z * Z * Z) : Prop := x.1.2 = side.

(** The best price of a side: at least as good as every live price, and a live price unless
    the side is empty. *)

Lemma best_loop_spec side es any v :
  ∃ any' v', best_loop side es.*1 es.*2 any v = Some (any', v') ∧
    (any' = false → any = false ∧ Forall (λ x, ¬ on_side side x) es) ∧
    (any = true → any' = true ∧ if side =? 66 then v ≤ v' else v' ≤ v) ∧
    Forall (λ x, on_side side x → if side =? 66 then x.2 ≤ v' else v' ≤ x.2) es ∧
    (any' = true → (any = true ∧ v' = v) ∨ ∃ x, x ∈ es ∧ on_side side x ∧ v' = x.2).
Proof.
  revert any v. induction es as [|[[r s] p] es IH]; intros any v.
  { exists any, v. split; [done|]. split; [by intros ->; split; [|constructor]|]. split; [intros ->; split; [done|by destruct (side =? 66)]|].
    split; [constructor|]. by left. }
  cbn [best_loop fmap list_fmap fst snd]. destruct (Z.eqb_spec s side) as [->|Hne].
  - destruct (IH true (if negb any then p else if (if side =? 66 then v <? p else p <? v) then p else v))
      as (any' & v' & -> & H1 & H2 & H3 & H4). exists any', v'.
    destruct (H2 eq_refl) as [-> Hv]. split_and!; try done.
    + intros ->. split; [done|]. simpl in Hv.
      destruct (side =? 66); [destruct (Z.ltb_spec v p)|destruct (Z.ltb_spec p v)]; lia.
    + constructor; [|done]. intros _. simpl. destruct any; simpl in Hv;
        (destruct (side =? 66); [destruct (Z.ltb_spec v p)|destruct (Z.ltb_spec p v)]; lia).
    + intros _. destruct (H4 eq_refl) as [[_ ->]|(x & Hx & Hs & ->)].
      * destruct any; simpl; [|right; exists (r, side, p); split_and!; [left|done|done]].
        destruct (if side =? 66 then v <? p else p <? v); [|by left].
        right. exists (r, side, p). split_and!; [left|done|done].
      * right. exists x. split_and!; [by right|done|done].
  - destruct (IH any v) as (any' & v' & -> & H1 & H2 & H3 & H4). exists any', v'. split_and!; try done.
    + intros Hf. destruct (H1 Hf). split; [done|]. by constructor.
    + by constructor.
    + intros Ht. destruct (H4 Ht) as [?|(x & Hx & Hs & ->)]; [by left|].
      right. exists x. split_and!; [by right|done|done].
Qed.

Lemma best_spec es side :
  ∃ v, best es.*1 es.*2 side = Some v ∧
    Forall (λ x, on_side side x → if side =? 66 then x.2 ≤ v else v ≤ x.2) es ∧
    ((Forall (λ x, ¬ on_side side x) es ∧ v = if side =? 66 then seed_bid else seed_ask) ∨
     ∃ x, x ∈ es ∧ on_side side x ∧ v = x.2).
Proof.
  destruct (best_loop_spec side es false 0) as (any & v & E & H1 & _ & H3 & H4).
  unfold best. rewrite E. cbn [mbind option_bind fst snd]. destruct any.
  - exists v. split_and!; [done|done|]. right. by destruct (H4 eq_refl) as [[? _]|].
  - destruct (H1 eq_refl) as [_ Hno]. eexists. split_and!; [done| |by left].
    eapply Forall_impl; [exact Hno|]. intros x Hx Hs. by destruct (Hx Hs).
Qed.

(** * Removing a live order *)

Lemma swap_pop_perm {A} (l : list A) i x :
  l.[i] = Some x → ∃ l', swap_pop l i = Some l' ∧ l ≡ₚ x :: l'.
Proof.
  intros Hx. pose proof (vget_Some _ _ _ Hx) as Hi. unfold vget in Hx. rewrite decide_True in Hx by lia.
  destruct l as [|y l _] using rev_ind; [done|]. unfold swap_pop. rewrite last_snoc.
  cbn [mbind option_bind]. rewrite vset_Some by done. cbn [mbind option_bind]. eexists. split; [done|].
  unfold zlen in Hi. rewrite length_app in Hi. simpl in Hi.
  destruct (decide (Z.to_nat i < length l)%nat) as [Hlt|Hge].
  - rewrite insert_app_l by done. rewrite removelast_last. rewrite lookup_app_l in Hx by done.
    rewrite <- (take_drop_middle l (Z.to_nat i) x Hx) at 1. rewrite insert_take_drop by done.
    generalize (take (Z.to_nat i) l), (drop (S (Z.to_nat i)) l). intros k1 k2.
    rewrite <- (Permutation_middle k1 k2 x), <- (Permutation_middle k1 k2 y). simpl.
    apply perm_skip. symmetry. apply (Permutation_cons_append (k1 ++ k2) y).
  - rewrite lookup_app_r in Hx by lia. replace (Z.to_nat i) with (length l) in * by lia.
    rewrite Nat.sub_diag in Hx. injection Hx as ->.
    replace (length l) with (length l + 0)%nat by lia. rewrite insert_app_r. simpl.
    rewrite removelast_last. by rewrite Permutation_app_comm.
Qed.

Lemma swap_pop_fmap {A B} (f : A → B) (l l' : list A) i :
  swap_pop l i = Some l' → swap_pop (f <$> l) i = Some (f <$> l').
Proof.
  unfold swap_pop. rewrite fmap_last. intros H. inv_bind H. simpl.
  apply vset_inv in E0 as [Hi ->]. injection H as <-.
  rewrite vset_Some by (by rewrite zlen_fmap). simpl. rewrite <- list_fmap_insert. f_equal.
  generalize (<[Z.to_nat i:=a]> l). clear. intros l. induction l as [|x [|y l] IH]; [done|done|].
  change (f x :: removelast (f <$> y :: l) = f x :: (f <$> removelast (y :: l))). by rewrite IH.
Qed.

Lemma prefix_snoc_cases {A} (k l : list A) x : k `prefix_of` l ++ [x] → k `prefix_of` l ∨ k = l ++ [x].
Proof.
  intros [m Hm]. destruct m as [|y m _] using rev_ind; [right; by rewrite app_nil_r in Hm|left].
  rewrite app_assoc in Hm. apply app_inj_tail in Hm as [-> _]. by exists m.
Qed.

(** * The invariant *)

(** A live entry: a used reference, a side, and a price that leaves room for the other side. *)

Definition entry_ok (next hi : Z) (x : Z * Z * Z) : Prop :=
  1 ≤ x.1.1 < next ∧ x.2 ≤ hi ∧ ((x.1.2 = 66 ∧ 100 ≤ x.2) ∨ (x.1.2 = 83 ∧ 200 ≤ x.2)).

Definition uncrossed_entries (es : list (Z * Z * Z)) : Prop :=
  ∀ x y, x ∈ es → y ∈ es → on_side 66 x → on_side 83 y → x.2 < y.2.

(** An abstract book whose buy orders are all priced below its other orders. *)

Definition uncrossed (a : abook) : Prop :=
  ∀ r1 o1 r2 o2, ab_orders a !! r1 = Some o1 → ab_orders a !! r2 = Some o2 →
    o_side o1 = Buy → o_side o2 ≠ Buy → o_price o1 < o_price o2.

Record book_inv (len tb : Z) (g : BookGen) (es : list (Z * Z * Z)) : Prop := {
  bi_len : zlen (b_out g) = len;
  bi_feed : feed_inv (b_out g) (b_next g);
  bi_next : 1 ≤ b_next g ≤ len + 1;
  bi_ts : t0 ≤ b_ts g ≤ t0 + 1000 * tb;
  bi_live : b_live g = es.*1 ∧ b_px g = es.*2;
  bi_entries : Forall (entry_ok (b_next g) (1002000 + 1000 * len)) es;
  bi_uncrossed : uncrossed_entries es;
  bi_nodup : NoDup es.*1.*1;
  bi_rest : ∀ r o, ab_orders (feed_book (b_out g)) !! r = Some o →
    (r, char_of_side (o_side o), o_price o) ∈ es ∧ (o_side o = Buy ∨ o_side o = Sell);
  bi_prefix : ∀ ws, ws `prefix_of` b_out g → uncrossed (feed_book ws);
}.

(** The resting orders are among the live entries, so they are not crossed. *)
Lemma entries_uncrossed a es :
  uncrossed_entries es →
  (∀ r o, ab_orders a !! r = Some o →
     (r, char_of_side (o_side o), o_price o) ∈ es ∧ (o_side o = Buy ∨ o_side o = Sell)) →
  uncrossed a.
Proof.
  intros Hu Hr r1 o1 r2 o2 H1 H2 S1 S2. destruct (Hr _ _ H1) as [E1 _].
  destruct (Hr _ _ H2) as [E2 [?|S2']]; [done|]. rewrite S1 in E1. rewrite S2' in E2.
  apply (Hu _ _ E1 E2); done.
Qed.

(** Writing a message that keeps or updates the live entries. *)
Lemma b_write_inv len tb g es w next es' :
  book_inv len tb g es → len < max_messages → wire_ok w → wire_fresh (b_next g) w →
  next = next_after (b_next g) w → b_next g ≤ next ≤ b_next g + 1 →
  Forall (entry_ok next (1002000 + 1000 * (len + 1))) es' → uncrossed_entries es' → NoDup es'.*1.*1 →
  (∀ r o, ab_orders (ab_apply (feed_book (b_out g)) (wire_message w)) !! r = Some o →
     (r, char_of_side (o_side o), o_price o) ∈ es' ∧ (o_side o = Buy ∨ o_side o = Sell)) →
  book_inv (len + 1) tb (b_set_live es'.*1 es'.*2 (b_write w (b_set_next next g))) es'.
Proof.
  intros [Hl Hf Hn Ht Hlv He Hu Hnd Hr Hp] Hlt Hw Hfr -> Hnx He' Hu' Hnd' Hr'. unfold max_messages in Hlt.
  split; simpl; try done; [|..].
  - by rewrite zlen_app, Hl.
  - apply feed_snoc; [done|done|done|]. rewrite Hl. unfold max_shares. lia.
  - lia.
  - by rewrite feed_book_snoc.
  - intros ws Hws. destruct (prefix_snoc_cases _ _ _ Hws) as [?| ->]; [by apply Hp|].
    rewrite feed_book_snoc. by eapply entries_uncrossed.
Qed.

(** Orders that a message leaves alone stay among the entries. *)
Lemma rest_kept a m (es : list (Z * Z * Z)) :
  (∀ r o, ab_orders a !! r = Some o →
     (r, char_of_side (o_side o), o_price o) ∈ es ∧ (o_side o = Buy ∨ o_side o = Sell)) →
  type m ≠ AddOrder → type m ≠ AddOrderMpid → type m ≠ OrderReplace →
  ∀ r o, ab_orders (ab_apply a m) !! r = Some o →
     (r, char_of_side (o_side o), o_price o) ∈ es ∧ (o_side o = Buy ∨ o_side o = Sell).
Proof.
  intros Hr H1 H2 H3 r o Ho.
  apply ab_apply_orders in Ho as [(o' & Ho' & <- & <-)|[([?|?] & _)|(? & _)]]; try done. by apply Hr.
Qed.

Lemma remove_gone a ref : ab_orders (ab_remove a ref).2 !! ref = None.
Proof.
  unfold ab_remove. destruct (ab_orders a !! ref) eqn:E; cbn [snd]; [|done].
  rewrite orders_update. apply lookup_delete_eq.
Qed.

Lemma entry_weaken next next' hi hi' es :
  next ≤ next' → hi ≤ hi' → Forall (entry_ok next hi) es → Forall (entry_ok next' hi') es.
Proof.
  intros Hn Hh H. eapply Forall_impl; [exact H|]. intros x (Hx & Hp & Hs). unfold entry_ok.
  split_and!; [lia|lia|lia|done].
Qed.

(** The best prices are within the bounds of the entries. *)
Lemma best_range next hi es side :
  Forall (entry_ok next hi) es → 1001100 ≤ hi → side = 66 ∨ side = 83 →
  ∃ v, best es.*1 es.*2 side = Some v ∧ v ≤ hi ∧ (if side =? 66 then 100 else 200) ≤ v ∧
    Forall (λ x, on_side side x → if side =? 66 then x.2 ≤ v else v ≤ x.2) es.
Proof.
  intros He Hhi Hs. destruct (best_spec es side) as (v & E & Hall & Hv). exists v. split; [done|].
  assert (Hb : v ≤ hi ∧ (if side =? 66 then 100 else 200) ≤ v); [|tauto].
  unfold seed_bid, seed_ask in Hv. rewrite Forall_forall in He.
  destruct Hs as [-> | ->]; simpl in *; destruct Hv as [[_ ->]|(x & Hx & Ho & ->)]; try lia;
    destruct (He x Hx) as (_ & Hp & Hs); unfold on_side in Ho; lia.
Qed.

(** The price of a new order is inside the other side. *)
Lemma new_price es next hi side bb ba k :
  Forall (entry_ok next hi) es → side = 66 ∨ side = 83 → 0 ≤ k < 10 → 1001100 ≤ hi →
  100 ≤ bb ≤ hi → 200 ≤ ba ≤ hi →
  Forall (λ x, on_side 66 x → x.2 ≤ bb) es → Forall (λ x, on_side 83 x → ba ≤ x.2) es →
  let price := if side =? 66 then ba - C - k * C else bb + C + k * C in
  let price := if price <? C then C else price in
  (side = 66 → 100 ≤ price ∧ Forall (λ x, on_side 83 x → price < x.2) es) ∧
  (side = 83 → 200 ≤ price ∧ Forall (λ x, on_side 66 x → x.2 < price) es) ∧ price ≤ hi + 1000.
Proof.
  intros He Hs Hk Hhi Hbb Hba Fb Fa. unfold C. cbv zeta. split_and!.
  - intros ->. simpl. split; [split_tests; lia|]. rewrite Forall_forall in *. intros x Hx Ho.
    specialize (Fa x Hx Ho). destruct (He x Hx) as (_ & _ & Hx'). unfold on_side in Ho. split_tests; lia.
  - intros ->. simpl. split; [split_tests; lia|]. rewrite Forall_forall in *. intros x Hx Ho.
    specialize (Fb x Hx Ho). split_tests; lia.
  - destruct Hs as [-> | ->]; simpl; split_tests; lia.
Qed.

Section BookFacts.
Context (rng : nat → Z).

Lemma b_add_inv side len tb k g es :
  book_inv len tb g es → 0 ≤ len < max_messages → 0 ≤ tb ≤ max_messages → side = 66 ∨ side = 83 →
  wp (b_add rng side) (λ _ g', ∃ es', book_inv (len + 1) tb g' es') k g.
Proof.
  intros Hi Hlt Htb Hs. pose proof Hi as [Hl Hf Hn Ht [Ev Ep] He Hu Hnd Hr Hp].
  unfold b_add, max_messages, t0 in *.
  set (hi := 1002000 + 1000 * len) in *.
  destruct (best_range _ hi es 66 He) as (bb & Eb & Hbb & Hbb' & Fb); [lia|by left|].
  destruct (best_range _ hi es 83 He) as (ba & Ea & Hba & Hba' & Fa); [lia|by right|]. simpl in Hbb', Hba', Fb, Fa.
  wp_next. intros k1. rewrite Ev, Ep.
  apply wp_bind. apply wp_lift with bb; [done|]. intros k2.
  apply wp_bind. apply wp_lift with ba; [done|]. intros k3. wp_next. intros d Hd k4.
  destruct (new_price es _ hi side bb ba d He Hs Hd) as (P66 & P83 & Phi); [lia|lia|lia|done|done|].
  set (price := if (if side =? 66 then ba - C - d * C else bb + C + d * C) <? C then C else _) in *.
  wp_next. intros k5. wp_next. intros sh Hsh k6. wp_next. intros k7. apply wp_modify.
  assert (Hpr : 100 ≤ price) by (destruct Hs as [Hs|Hs]; [by apply P66|pose proof (P83 Hs); lia]).
  rewrite !u32_small, u64_small by lia. exists (es ++ [(b_next g, side, price)]).
  assert (E : b_set_live (es.*1 ++ [(b_next g, side)]) (es.*2 ++ [price])
      (b_write (WAdd 1 (b_ts g) (b_next g) side (50 + sh) price) (b_set_next (b_next g + 1) g)) =
    b_set_live (es ++ [(b_next g, side, price)]).*1 (es ++ [(b_next g, side, price)]).*2
      (b_write (WAdd 1 (b_ts g) (b_next g) side (50 + sh) price) (b_set_next (b_next g + 1) g)))
    by (by rewrite !fmap_app).
  rewrite E. eapply b_write_inv; [exact Hi|unfold max_messages; lia|..].
  - simpl. unfold fits, byte_ok. destruct Hs as [-> | ->]; lia.
  - simpl. split_and!; [lia|done|lia|unfold max_shares; lia].
  - done.
  - simpl. lia.
  - apply Forall_app. split; [by eapply entry_weaken; [..|exact He]; lia|].
    constructor; [|constructor]. unfold entry_ok. simpl. split_and!; [lia|lia|lia|].
    destruct Hs as [Hs|Hs]; [left; split; [done|lia]|right; split; [done|]; by apply P83].
  - intros x y Hx Hy. rewrite elem_of_app, list_elem_of_singleton in Hx, Hy. intros Sx Sy.
    destruct Hx as [Hx| ->], Hy as [Hy| ->]; unfold on_side in *; simpl in *.
    + by apply Hu.
    + destruct (P83 Sy) as [_ F]. rewrite Forall_forall in F. exact (F x Hx Sx).
    + destruct (P66 Sx) as [_ F]. rewrite Forall_forall in F. exact (F y Hy Sy).
    + lia.
  - rewrite !fmap_app. apply NoDup_app. split_and!; [done| |apply NoDup_singleton].
    intros r Hin ->%list_elem_of_singleton. apply list_elem_of_fmap in Hin as (y & Ey & Hy).
    apply list_elem_of_fmap in Hy as (x & -> & Hx). rewrite Forall_forall in He.
    destruct (He x Hx) as (Hxr & _). simpl in Ey. lia.
  - intros r o Ho. apply ab_apply_orders in Ho as [(o' & Ho' & <- & <-)|[(_ & -> & ->)|(? & _)]]; [| |done].
    + destruct (Hr _ _ Ho') as [Hin ?]. split; [|done]. rewrite elem_of_app. by left.
    + simpl. rewrite elem_of_app, list_elem_of_singleton. destruct Hs as [-> | ->]; simpl; auto.
Qed.

Lemma wp_b_pick Q k g :
  0 < zlen (b_live g) → (∀ i x, (b_live g).[i] = Some x → Q i g) → wp (b_pick rng) Q k g.
Proof.
  intros Hl HQ. eexists _, _, _. split; [done|].
  destruct (vget_is_Some (b_live g) (rng k `mod` zlen (b_live g))) as [x Hx]; [by apply Z.mod_pos_bound|].
  by eapply HQ.
Qed.

(** The entry behind an index of the live orders. *)
Lemma live_entry len tb g es i x :
  book_inv len tb g es → (b_live g).[i] = Some x →
  ∃ p, es.[i] = Some (x, p) ∧ 1 ≤ x.1 < b_next g.
Proof.
  intros [_ _ _ _ [Ev _] He _ _ _ _] Hx. rewrite Ev in Hx. unfold vget in *. case_decide; [|done].
  rewrite list_lookup_fmap in Hx. destruct (es !! Z.to_nat i) as [[x' p]|] eqn:Ex; [|done].
  injection Hx as <-. exists p. split; [done|]. rewrite Forall_lookup in He. by destruct (He _ _ Ex).
Qed.

(** Writing a message that is neither an add nor a replace. *)
Lemma b_write_same len tb g es w :
  book_inv len tb g es → len < max_messages → wire_ok w → wire_fresh (b_next g) w →
  next_after (b_next g) w = b_next g →
  type (wire_message w) ≠ AddOrder → type (wire_message w) ≠ AddOrderMpid →
  type (wire_message w) ≠ OrderReplace → book_inv (len + 1) tb (b_write w g) es.
Proof.
  intros Hi Hlt Hw Hf Hn H1 H2 H3. pose proof Hi as [_ _ _ _ [Ev Ep] He Hu Hnd Hr _].
  assert (E : b_write w g = b_set_live es.*1 es.*2 (b_write w (b_set_next (b_next g) g)))
    by (destruct g; simpl in *; by subst).
  rewrite E. eapply b_write_inv; try done; [lia|by eapply entry_weaken; [..|exact He]; lia|].
  by apply rest_kept.
Qed.

Section Branches.
Context (len tb : Z) (g : BookGen) (es : list (Z * Z * Z)).
Hypothesis Hi : book_inv len tb g es.
Hypothesis Hlt : 0 ≤ len < max_messages.
Hypothesis Htb : 0 ≤ tb ≤ max_messages.
Hypothesis Hlive : 0 < zlen (b_live g).

Lemma b_execute_inv k : wp (b_execute rng len) (λ _ g', ∃ es', book_inv (len + 1) tb g' es') k g.
Proof using Hi Hlt Htb Hlive.
  pose proof Hi as [_ _ Hn Ht _ _ _ _ _ _]. unfold b_execute, max_messages, t0 in *.
  apply wp_bind, wp_b_pick; [done|]. intros i x Hx k1. wp_next. intros k2.
  apply wp_bind. apply wp_lift with x; [done|]. intros k3.
  destruct (live_entry len tb g es i x Hi Hx) as (p & _ & Hxr).
  wp_next. intros sh Hsh k4. apply wp_modify. rewrite u32_small by lia. exists es.
  apply b_write_same; try done; [unfold max_messages; lia|]. simpl. unfold fits. lia.
Qed.

Lemma b_delete_inv k : wp (b_delete rng) (λ _ g', ∃ es', book_inv (len + 1) tb g' es') k g.
Proof using Hi Hlt Htb Hlive.
  pose proof Hi as [_ _ Hn Ht [Ev Ep] He Hu Hnd Hr _]. unfold b_delete, max_messages, t0 in *.
  apply wp_bind, wp_b_pick; [done|]. intros i x Hx k1. wp_next. intros k2.
  apply wp_bind. apply wp_lift with x; [done|]. intros k3. wp_next. intros k4.
  destruct (live_entry len tb g es i x Hi Hx) as (p & Hxp & Hxr).
  destruct (swap_pop_perm es i (x, p) Hxp) as (es' & Es & Hperm). rewrite Ev, Ep.
  apply wp_bind. eapply wp_lift; [by apply swap_pop_fmap|]. intros k5.
  apply wp_bind. eapply wp_lift; [by apply swap_pop_fmap|]. intros k6. apply wp_modify. exists es'.
  assert (E : b_write (WDelete 1 (b_ts g) x.1) g =
              b_write (WDelete 1 (b_ts g) x.1) (b_set_next (b_next g) g)) by (by destruct g).
  rewrite E. rewrite Hperm in He, Hnd. apply Forall_cons in He as [_ He].
  assert (Hsub : ∀ y, y ∈ es' → y ∈ es) by (intros y Hy; rewrite Hperm; by right).
  eapply b_write_inv; [exact Hi|unfold max_messages; lia|simpl; unfold fits; lia|done|done|simpl; lia|..].
  - eapply entry_weaken; [..|exact He]; simpl; lia.
  - intros y z Hy Hz. apply Hu; auto.
  - by apply NoDup_cons in Hnd as [_ Hnd].
  - intros r o Ho. assert (Hne : r ≠ x.1).
    { intros ->. cbn [wire_message] in Ho. unfold ab_apply in Ho. simpl in Ho. by rewrite remove_gone in Ho. }
    destruct (rest_kept _ (wire_message (WDelete 1 (b_ts g) x.1)) es Hr ltac:(done) ltac:(done) ltac:(done) r o Ho)
      as [Hin Hs]. split; [|done].
    rewrite Hperm in Hin. apply elem_of_cons in Hin as [Eq|Hin]; [|done].
    destruct Hne. by injection Eq as <-.
Qed.

Lemma b_trade_inv k : wp (b_trade rng len) (λ _ g', ∃ es', book_inv (len + 1) tb g' es') k g.
Proof using Hi Hlt Htb.
  pose proof Hi as [_ _ Hn Ht [Ev Ep] He _ _ _ _]. unfold b_trade, max_messages, t0 in *.
  set (hi := 1002000 + 1000 * len) in *.
  destruct (best_range _ hi es 66 He) as (bb & Eb & Hbb & Hbb' & _); [lia|by left|].
  destruct (best_range _ hi es 83 He) as (ba & Ea & Hba & Hba' & _); [lia|by right|]. simpl in Hbb', Hba'.
  wp_next. intros k1. rewrite Ev, Ep.
  apply wp_bind. apply wp_lift with bb; [done|]. intros k2.
  apply wp_bind. apply wp_lift with ba; [done|]. intros k3.
  wp_next. intros s Hs k4. wp_next. intros sh Hsh k5. apply wp_modify.
  assert (Hmid : 0 ≤ (bb + ba) `quot` 2 ≤ hi) by (rewrite Z.quot_div_nonneg by lia; split; [apply Z.div_pos|apply Z.div_le_upper_bound]; lia).
  rewrite !u32_small by lia. exists es.
  apply b_write_same; try done; [unfold max_messages; lia|]. simpl. unfold fits, byte_ok.
  destruct (s =? 0); lia.
Qed.

End Branches.

Lemma book_step_inv e k g es :
  book_inv e e g es → 0 ≤ e < max_messages →
  wp (book_step rng e) (λ _ g', ∃ es', book_inv (e + 1) (e + 1) g' es') k g.
Proof.
  intros Hi He. unfold book_step. wp_next. intros roll _ k1. wp_next. intros k2. apply wp_bind.
  eapply wp_mono with (Q := λ _ g', ∃ es', book_inv (e + 1) e g' es').
  - assert (Hadd : ∀ k', wp (pct rng 2 ≫= λ s, b_add rng (if s =? 0 then 66 else 83))
              (λ _ g', ∃ es', book_inv (e + 1) e g' es') k' g).
    { intros k'. wp_next. intros s _ k3. eapply b_add_inv; [exact Hi|done|lia|destruct (s =? 0); auto]. }
    destruct (roll <? 42); [apply Hadd|]. destruct (Z.ltb_spec (zlen (b_live g)) 10) as [|Hlive]; [apply Hadd|].
    assert (0 < zlen (b_live g)) by lia. simpl.
    destruct (roll <? 64); [eapply b_execute_inv; [exact Hi|lia..]|].
    destruct (roll <? 82); [eapply b_delete_inv; [exact Hi|lia..]|eapply b_trade_inv; [exact Hi|lia..]].
  - intros x g2 (es2 & [Hl Hf Hn Ht Hlv He2 Hu Hnd Hr Hp]) k4. wp_next. intros t Ht' k5. apply wp_modify.
    exists es2. unfold max_messages, t0 in *. split; simpl; try done. unfold t0. rewrite u64_small by lia. lia.
Qed.

Lemma bgen0_inv : book_inv 0 0 bgen0 [].
Proof.
  assert (Hnil : ab_orders (feed_book []) = ∅) by done.
  split; simpl; try done.
  - apply feed_nil.
  - by intros x y ?%elem_of_nil.
  - constructor.
  - intros ws ->%prefix_nil_inv r1 o1 r2 o2. by rewrite Hnil, lookup_empty.
Qed.

Lemma book_gen_inv n k :
  Z.of_nat n ≤ max_messages →
  wp (book_gen rng n) (λ _ g, ∃ es, book_inv (Z.of_nat n) (Z.of_nat n) g es) k bgen0.
Proof.
  intros Hn. unfold book_gen. apply wp_bind.
  eapply wp_mono; [apply (wp_repeat (λ e g, ∃ es, book_inv e e g es)); [exists []; apply bgen0_inv|]|].
  - intros e k1 g He [es Hi]. eapply wp_mono; [eapply b_add_inv; [exact Hi|lia|lia|destruct (_ =? 0); auto]|].
    intros x g' (es' & [Hl Hf Hnx Ht Hlv He2 Hu Hnd Hr Hp]). exists es'. split; try done; lia.
  - intros x g [es Hi] k1.
    replace (0 + Z.of_nat (20 `min` n)) with (Z.of_nat (20 `min` n)) in Hi by lia.
    destruct (decide (n ≤ 20)%nat) as [Hle|Hgt].
    + replace (n - 20)%nat with 0%nat by lia. apply wp_ret. exists es.
      by replace (Z.of_nat n) with (Z.of_nat (20 `min` n)) by lia.
    + replace (Z.of_nat (20 `min` n)) with 20 in Hi by lia.
      eapply wp_mono; [apply (wp_repeat (λ e g, ∃ es, book_inv e e g es)); [by exists es|]|].
      * intros e k2 g2 He [es2 Hi2]. eapply book_step_inv; [exact Hi2|lia].
      * intros x2 g2. by replace (20 + Z.of_nat (n - 20)) with (Z.of_nat n) by lia.
Qed.

End BookFacts.

(** The top of an uncrossed book is not crossed. *)
Lemma uncrossed_top {F : Compare → Type} `{LevelStoreSpec F} (b : BasicOrderBook F) a pb qb pa qa :
  book_rep b a → ab_inv a → consistent a → uncrossed a →
  best_bid b = Some (Some (pb, qb)) → best_ask b = Some (Some (pa, qa)) → pb < pa.
Proof.
  intros Hr Hi Hc Hu Hb Ha. destruct (query_rep b a Hr) as (Eb & Ea & _). rewrite Hb in Eb. rewrite Ha in Ea.
  pose proof (ladder_best Greater (ab_bids a) (ao_lvl a (ai_ok a Hi) true)) as Lb.
  pose proof (ladder_best Less (ab_asks a) (ao_lvl a (ai_ok a Hi) false)) as La.
  destruct (head (ladder Greater (ab_bids a))) as [[p q]|]; [|done]. injection Eb as -> ->.
  destruct (head (ladder Less (ab_asks a))) as [[p' q']|]; [|done]. injection Ea as -> ->.
  destruct Lb as (-> & Lb & _), La as (-> & La & _).
  change (ab_bids a) with (lvl a true) in Lb. change (ab_asks a) with (lvl a false) in La.
  rewrite Hc in Lb, La. apply total_pos in Lb as (r1 & o1 & H1 & S1 & <-).
  apply total_pos in La as (r2 & o2 & H2 & S2 & <-).
  apply (Hu r1 o1 r2 o2 H1 H2); [by apply bool_decide_eq_true in S1|by apply bool_decide_eq_false in S2].
Qed.

(** * Properties *)

(** What the generator writes: as many messages as asked for. *)
Lemma book_stream (rng : nat → Z) n :
  Z.of_nat n ≤ max_messages → ∃ ws, make_synthetic_book rng n = Some (write_stream ws) ∧ zlen ws = Z.of_nat n ∧ Forall wire_ok ws.
Proof.
  intros Hn. destruct (book_gen_inv rng n 0 Hn) as (x & k & g & E & es & Hi). pose proof Hi as [Hl Hf _ _ _ _ _ _ _ _].
  exists (b_out g). unfold make_synthetic_book. rewrite E. split_and!; [done|done|apply (fi_wire _ _ Hf)].
Qed.

(** C37: The demo feed is never crossed.  For every seed and up to a million messages the
    generator stays inside its vectors and writes exactly the requested number of messages,
    and after every prefix of them the reconstructed book, with any lawful level store, has
    its best bid strictly below its best ask. *)
Theorem synthetic_book_never_crossed {F : Compare → Type} `{LevelStoreSpec F} (rng : nat → Z) n :
  Z.of_nat n ≤ max_messages →
  ∃ bytes ms, make_synthetic_book rng n = Some bytes ∧
    for_each_framed_message (λ ms m, Some (ms ++ [m])) bytes (zlen bytes) [] = Some (zlen bytes, ms) ∧
    zlen ms = Z.of_nat n ∧
    ∀ ms', ms' `prefix_of` ms → ∃ b : BasicOrderBook F, apply_all book0 ms' = Some b ∧
      ∀ pb qb pa qa, best_bid b = Some (Some (pb, qb)) → best_ask b = Some (Some (pa, qa)) → pb < pa.
Proof.
  intros Hn. destruct (book_gen_inv rng n 0 Hn) as (x & k & g & E & es & Hi).
  pose proof Hi as [Hl Hf _ _ _ _ _ _ _ Hp]. unfold max_messages in Hn. pose proof (fi_wire _ _ Hf) as Hw.
  pose proof (write_stream_zlen (b_out g) Hw).
  exists (write_stream (b_out g)), (feed_messages (b_out g)). unfold make_synthetic_book. rewrite E.
  split_and!; [done| |unfold feed_messages; by rewrite zlen_fmap|].
  { rewrite replay_written by (done || lia). by rewrite collect_fold. }
  intros ms' [ks Hks]. apply fmap_app_inv in Hks as (ws & ws' & -> & -> & Hout).
  rewrite Hout in Hf, Hl. destruct (feed_prefix_ok ws ws' _ Hf) as [Hs Hfr]; [lia|].
  destruct (run_rep (F:=F) _ Hs) as (b & Hb & Hr & _). exists b. split; [done|].
  destruct (run_rep_inv (F:=F) _ b Hs Hb) as [_ Ha]. destruct Hs as (Hm & Hfit & _).
  intros pb qb pa qa. apply (uncrossed_top b (feed_book ws)); [done|done| |].
  - apply ab_run_consistent; [apply ab0_inv|done|done|done|apply ab0_consistent].
  - apply Hp. rewrite Hout. by exists ws'.
Qed.

Lemma synthetic_book_never_crossed_witness :
  ∃ bytes ms, make_synthetic_book (mt19937 1) 60 = Some bytes ∧
    for_each_framed_message (λ ms m, Some (ms ++ [m])) bytes (zlen bytes) [] = Some (zlen bytes, ms) ∧
    zlen ms = 60 ∧
    ∀ ms', ms' `prefix_of` ms → ∃ b : BasicOrderBook WindowedLevels, apply_all book0 ms' = Some b ∧
      ∀ pb qb pa qa, best_bid b = Some (Some (pb, qb)) → best_ask b = Some (Some (pa, qa)) → pb < pa.
Proof.
  apply (synthetic_book_never_crossed (F:=WindowedLevels) (mt19937 1) 60).
  vm_compute. discriminate.
Defined.
