(* ===== verification/SyntheticMulti.v ===== *)
(** [make_synthetic_multi] (include/feed/synthetic.hpp): directory entries for the symbols
    [1 .. n_symbols], then orders interleaved across them.  References are unique across the
    whole stream, so the messages of every locate form a feed of their own. *)
From S2P Require Export Synthetic.

Record Sym := mkSym { s_mid : Z; s_live : list (Z * Z) }.

Record MultiGen := mkMultiGen {
  m_out : list WireMsg;
  m_syms : list Sym;
  m_next : Z;
  m_ts : Z;
}.

(** The symbols with their distinct mids. *)

Definition multi0 (n_symbols : nat) : MultiGen :=
  mkMultiGen [] (map (λ s, mkSym (1000000 + Z.of_nat s * 5000) []) (List.seq 0 n_symbols))
    1 (34200 * 1000000000).

Definition m_write (w : WireMsg) (g : MultiGen) : MultiGen :=
  mkMultiGen (m_out g ++ [w]) (m_syms g) (m_next g) (m_ts g).

Definition m_set_syms (l : list Sym) (g : MultiGen) : MultiGen :=
  mkMultiGen (m_out g) l (m_next g) (m_ts g).

Definition m_set_next (n : Z) (g : MultiGen) : MultiGen :=
  mkMultiGen (m_out g) (m_syms g) n (m_ts g).

Definition m_set_ts (t : Z) (g : MultiGen) : MultiGen :=
  mkMultiGen (m_out g) (m_syms g) (m_next g) t.

(** [SYNnn]. *)

Definition symbol_name (s : Z) : list Z :=
  [83; 89; 78; 48 + (s / 10) `mod` 10; 48 + s `mod` 10; 32; 32; 32].

(** [locate = static_cast<uint16_t>(s + 1)]. *)

Definition locate_of (s : Z) : Z := u16 (s + 1).

Definition m_directory (s : Z) : M MultiGen unit :=
  get_st ≫= λ g, modify (m_write (WDirectory (locate_of s) (m_ts g) (symbol_name s))).

(** [Sym& sym = syms[s];] and an assignment through it. *)

Definition m_sym (s : Z) : M MultiGen Sym := get_st ≫= λ g, lift (m_syms g).[s].

Definition m_set_sym (s : Z) (x : Sym) : M MultiGen unit :=
  get_st ≫= λ g, lift (m_syms g).[s <- x] ≫= λ l, modify (m_set_syms l).

Section Generator.
Context (rng : nat → Z) (n_symbols : Z).

Definition m_walk (s : Z) : M MultiGen unit :=
  pct rng 8 ≫= λ w,
  if w =? 0 then
    pct rng 2 ≫= λ d, m_sym s ≫= λ x,
    let mid := s_mid x + (if d =? 0 then -100 else 100) in
    m_set_sym s (mkSym (if mid <? 1000 then 1000 else mid) (s_live x))
  else mret tt.

Definition m_add (s : Z) : M MultiGen unit :=
  pct rng 2 ≫= λ c,
  let side := if c =? 0 then 66 else 83 in
  get_st ≫= λ g,
  let ref := m_next g in
  modify (m_set_next (u64 (ref + 1))) ≫= λ _,
  pct rng 990 ≫= λ sh,
  pct rng 50 ≫= λ o, m_sym s ≫= λ x,
  modify (m_write (WAdd (locate_of s) (m_ts g) ref side (u32 (10 + sh))
                     (u32 (px_around (s_mid x) side o)))) ≫= λ _,
  m_set_sym s (mkSym (s_mid x) (s_live x ++ [(ref, side)])).

Definition m_pick (x : Sym) : M MultiGen (Z * (Z * Z)) :=
  draw rng ≫= λ r, let i := r `mod` zlen (s_live x) in lift (s_live x).[i] ≫= λ y, mret (i, y).

Definition m_execute (s e : Z) : M MultiGen unit :=
  m_sym s ≫= λ x, m_pick x ≫= λ iy, get_st ≫= λ g,
  pct rng 20 ≫= λ sh,
  modify (m_write (WExecute (locate_of s) (m_ts g) iy.2.1 (u32 (1 + sh)) e)).

Definition m_cancel (s : Z) : M MultiGen unit :=
  m_sym s ≫= λ x, m_pick x ≫= λ iy, get_st ≫= λ g,
  pct rng 20 ≫= λ sh,
  modify (m_write (WCancel (locate_of s) (m_ts g) iy.2.1 (u32 (1 + sh)))).

Definition m_delete (s : Z) : M MultiGen unit :=
  m_sym s ≫= λ x, m_pick x ≫= λ iy, get_st ≫= λ g,
  modify (m_write (WDelete (locate_of s) (m_ts g) iy.2.1)) ≫= λ _,
  lift (swap_pop (s_live x) iy.1) ≫= λ l, m_set_sym s (mkSym (s_mid x) l).

Definition multi_step (e : Z) : M MultiGen unit :=
  draw rng ≫= λ r,
  let s := r `mod` n_symbols in
  m_walk s ≫= λ _,
  pct rng 100 ≫= λ roll,
  m_sym s ≫= λ x,
  (if (zlen (s_live x) <? 4) || (roll <? 55) then m_add s
   else if roll <? 72 then m_execute s e
   else if roll <? 84 then m_cancel s
   else m_delete s) ≫= λ _,
  pct rng 1000 ≫= λ t,
  modify (λ g, m_set_ts (u64 (m_ts g + (1 + t))) g).

End Generator.

Definition multi_gen (rng : nat → Z) (n : nat) (n_symbols : nat) : M MultiGen unit :=
  repeat_from (min n_symbols n) 0 m_directory ≫= λ _,
  repeat_from (n - n_symbols) (Z.of_nat n_symbols) (multi_step rng (Z.of_nat n_symbols)).

Definition make_synthetic_multi (rng : nat → Z) (n : nat) (n_symbols : nat) : option (list Z) :=
  let n_symbols := if decide (n_symbols < 1)%nat then 1%nat else n_symbols in
  r ← multi_gen rng n n_symbols 0%nat (multi0 n_symbols); Some (write_stream (m_out r.2)).

(** * The invariant *)

Definition wire_locate (w : WireMsg) : Z := stock_locate (wire_message w).

Definition wire_at (loc : Z) (ws : list WireMsg) : list WireMsg :=
  filter (λ w, wire_locate w = loc) ws.

Definition sym_ok (next hi : Z) (x : Sym) : Prop :=
  1000 ≤ s_mid x ≤ hi ∧ Forall (λ y, 1 ≤ y.1 < next ∧ (y.2 = 66 ∨ y.2 = 83)) (s_live x).

Record multi_inv (nsym len tb mb : Z) (g : MultiGen) : Prop := {
  mi_len : zlen (m_out g) = len;
  mi_feed : ∀ loc, feed_inv (wire_at loc (m_out g)) (m_next g);
  mi_locate : Forall (λ w, 1 ≤ wire_locate w ≤ nsym) (m_out g);
  mi_wire : Forall wire_ok (m_out g);
  mi_next : 1 ≤ m_next g ≤ len + 1;
  mi_ts : t0 ≤ m_ts g ≤ t0 + 1000 * tb;
  mi_syms : zlen (m_syms g) = nsym ∧ Forall (sym_ok (m_next g) (1000000 + nsym * 5000 + 100 * mb)) (m_syms g);
}.

Lemma wire_at_snoc loc ws w :
  wire_at loc (ws ++ [w]) = wire_at loc ws ++ (if decide (wire_locate w = loc) then [w] else []).
Proof. unfold wire_at. by rewrite filter_app, filter_cons, filter_nil. Qed.

Lemma wire_at_zlen loc ws : zlen (wire_at loc ws) ≤ zlen ws.
Proof. unfold zlen, wire_at. pose proof (length_filter (λ w, wire_locate w = loc) ws). lia. Qed.

Lemma syms_weaken next next' hi hi' l :
  next ≤ next' → hi ≤ hi' → Forall (sym_ok next hi) l → Forall (sym_ok next' hi') l.
Proof.
  intros Hn Hh H. eapply Forall_impl; [exact H|]. intros x (Hx & Hl). split; [lia|].
  by eapply live_weaken; [|exact Hl].
Qed.

(** Writing a message and updating the symbols. *)
Lemma m_write_inv nsym len tb mb g w next syms :
  multi_inv nsym len tb mb g → len < max_messages → wire_ok w → wire_fresh (m_next g) w →
  1 ≤ wire_locate w ≤ nsym → next = next_after (m_next g) w → m_next g ≤ next ≤ m_next g + 1 →
  zlen syms = nsym → Forall (sym_ok next (1000000 + nsym * 5000 + 100 * mb)) syms →
  multi_inv nsym (len + 1) tb mb (m_set_syms syms (m_write w (m_set_next next g))).
Proof.
  intros [Hl Hf Hloc Hw Hn Ht Hs] Hlt Hok Hfr Hwl -> Hnx Hz Hsy. unfold max_messages in Hlt.
  split; simpl; try done.
  - by rewrite zlen_app, Hl.
  - intros loc. rewrite wire_at_snoc. case_decide.
    + apply feed_snoc; [apply Hf|done|done|]. pose proof (wire_at_zlen loc (m_out g)).
      unfold max_shares. lia.
    + rewrite app_nil_r. eapply feed_weaken; [apply Hf|lia].
  - apply Forall_app. split; [done|by constructor].
  - apply Forall_app. split; [done|by constructor].
  - lia.
Qed.

Lemma m_write_same nsym len tb mb g w :
  multi_inv nsym len tb mb g → len < max_messages → wire_ok w → wire_fresh (m_next g) w →
  1 ≤ wire_locate w ≤ nsym → next_after (m_next g) w = m_next g →
  multi_inv nsym (len + 1) tb mb (m_write w g).
Proof.
  intros Hi Hlt Hw Hf Hl Hn. pose proof Hi as [_ _ _ _ _ _ [Hz Hs]].
  assert (E : m_write w g = m_set_syms (m_syms g) (m_write w (m_set_next (m_next g) g))) by (by destruct g).
  rewrite E. apply m_write_inv; try done; lia.
Qed.

(** * The branches preserve the invariant *)

Lemma vget_elem {A} (l : list A) i x : l.[i] = Some x → x ∈ l.
Proof. unfold vget. case_decide; [|done]. apply list_elem_of_lookup_2. Qed.

Section Branches.
Context (rng : nat → Z) (nsym s len tb mb : Z) (g : MultiGen).
Hypothesis Hi : multi_inv nsym len tb mb g.
Hypothesis Hlt : 0 ≤ len < max_messages.
Hypothesis Htb : 0 ≤ tb ≤ max_messages.
Hypothesis Hmb : 0 ≤ mb ≤ max_messages.
Hypothesis Hns : nsym ≤ 65535.
Hypothesis Hs : 0 ≤ s < nsym.

Lemma locate_of_eq : locate_of s = s + 1.
Proof using Hns Hs. unfold locate_of. apply u16_small. lia. Qed.

Lemma wp_m_sym Q k :
  (∀ x, (m_syms g).[s] = Some x → sym_ok (m_next g) (1000000 + nsym * 5000 + 100 * mb) x → Q x g) →
  wp (m_sym s) Q k g.
Proof using Hi Hs.
  intros HQ. destruct (mi_syms _ _ _ _ _ Hi) as [Hz Hf].
  destruct (vget_is_Some (m_syms g) s) as [x Hx]; [lia|].
  unfold m_sym. apply wp_bind, wp_get. intros k'. apply wp_lift with x; [done|]. apply HQ; [done|].
  rewrite Forall_forall in Hf. by apply Hf, (vget_elem _ s).
Qed.

(** Assigning the symbol [s] of a state with as many symbols. *)
Lemma wp_m_set_sym g' x Q k :
  zlen (m_syms g') = nsym → Q tt (m_set_syms (<[Z.to_nat s := x]> (m_syms g')) g') →
  wp (m_set_sym s x) Q k g'.
Proof using Hs.
  intros Hz HQ. unfold m_set_sym. apply wp_bind, wp_get. intros k'. apply wp_bind.
  eapply wp_lift; [apply vset_Some; lia|]. intros k''. by apply wp_modify.
Qed.

(** Drawing an order of the symbol. *)
Lemma wp_m_pick x Q k :
  0 < zlen (s_live x) →
  (∀ i y, 0 ≤ i < zlen (s_live x) → y ∈ s_live x → Q (i, y) g) → wp (m_pick rng x) Q k g.
Proof using.
  intros Hl HQ. unfold m_pick. apply wp_bind. eexists _, _, _. split; [done|]. intros k'.
  set (i := rng k `mod` zlen (s_live x)).
  assert (Hr : 0 ≤ i < zlen (s_live x)) by (by apply Z.mod_pos_bound).
  destruct (vget_is_Some (s_live x) i Hr) as [y Hy]. cbv zeta.
  apply wp_bind. apply wp_lift with y; [done|]. intros k''. apply wp_ret. apply HQ; [done|].
  by apply (vget_elem _ i).
Qed.

Lemma m_walk_inv k : wp (m_walk rng s) (λ _, multi_inv nsym len tb (mb + 1)) k g.
Proof using Hi Hmb Hs.
  pose proof Hi as [Hl Hf Hloc Hw Hn Ht [Hz Hsy]].
  assert (Hup : Forall (sym_ok (m_next g) (1000000 + nsym * 5000 + 100 * (mb + 1))) (m_syms g))
    by (apply (syms_weaken (m_next g) _ (1000000 + nsym * 5000 + 100 * mb)); [lia|lia|done]).
  unfold m_walk. wp_next. intros w _ k1. destruct (w =? 0); [|by apply wp_ret; split].
  wp_next. intros d _ k2. apply wp_bind, wp_m_sym. intros x _ [Hx Hlive] k3. apply wp_m_set_sym; [done|].
  split; simpl; try done. split; [by rewrite zlen_insert|]. apply Forall_insert; [done|].
  split; simpl; [|done]. destruct (d =? 0); split_tests; lia.
Qed.

Lemma m_add_inv k : wp (m_add rng s) (λ _, multi_inv nsym (len + 1) tb mb) k g.
Proof using Hi Hlt Htb Hmb Hns Hs.
  pose proof Hi as [Hl Hf Hloc Hw Hn Ht [Hz Hsy]]. unfold m_add, max_messages, t0 in *.
  wp_next. intros c _ k1. set (side := if c =? 0 then 66 else 83).
  assert (Hside : side = 66 ∨ side = 83) by (unfold side; destruct (c =? 0); auto).
  wp_next. intros k2. wp_next. intros k3. wp_next. intros sh Hsh k4. wp_next. intros o Ho k5.
  destruct (vget_is_Some (m_syms g) s) as [x Hx]; [lia|].
  assert (Hxok : sym_ok (m_next g) (1000000 + nsym * 5000 + 100 * mb) x)
    by (rewrite Forall_forall in Hsy; by apply Hsy, (vget_elem _ s)).
  destruct Hxok as [Hm Hlive].
  unfold m_sym. apply wp_bind. wp_next. intros k6. apply wp_lift with x; [done|]. intros k7.
  wp_next. intros k8. apply wp_m_set_sym; [done|]. simpl.
  pose proof (px_around_range (s_mid x) side o) as Hpx. rewrite !u32_small, u64_small by lia.
  rewrite locate_of_eq.
  apply (m_write_inv nsym len tb mb g
    (WAdd (s + 1) (m_ts g) (m_next g) side (10 + sh) (px_around (s_mid x) side o)) (m_next g + 1));
    unfold wire_locate, max_messages; simpl; try done; try lia.
  - unfold fits, byte_ok. destruct Hside as [-> | ->]; lia.
  - split_and!; [lia|done|unfold max_shares; lia..].
  - by rewrite zlen_insert.
  - apply Forall_insert; [eapply syms_weaken; [| |exact Hsy]; lia|]. split; [done|].
    apply Forall_app. split; [apply (live_weaken (m_next g)); [lia|done]|].
    constructor; [simpl; split; [lia|done]|constructor].
Qed.

(** The branches on a live order of a symbol that has one. *)

Hypothesis Hlive : ∀ x, (m_syms g).[s] = Some x → 0 < zlen (s_live x).

Lemma wp_m_choose (Q : Sym → Z * (Z * Z) → M MultiGen unit) k :
  (∀ x i y k', (m_syms g).[s] = Some x → sym_ok (m_next g) (1000000 + nsym * 5000 + 100 * mb) x →
     0 ≤ i < zlen (s_live x) → 1 ≤ y.1 < m_next g → wp (Q x (i, y)) (λ _, multi_inv nsym (len + 1) tb mb) k' g) →
  wp (m_sym s ≫= λ x, m_pick rng x ≫= Q x) (λ _, multi_inv nsym (len + 1) tb mb) k g.
Proof using Hi Hs Hlive.
  intros HQ. apply wp_bind, wp_m_sym. intros x Hx Hok k1. apply wp_bind, wp_m_pick; [by apply Hlive|].
  intros i y Hr Hin k2. apply HQ; [done|done|done|]. destruct Hok as [_ Hf]. rewrite Forall_forall in Hf.
  by apply Hf.
Qed.

Lemma m_execute_inv k : wp (m_execute rng s len) (λ _, multi_inv nsym (len + 1) tb mb) k g.
Proof using Hi Hlt Htb Hns Hs Hlive.
  pose proof Hi as [_ _ _ _ Hn Ht _]. apply wp_m_choose. intros x i y k1 _ _ _ Hy.
  unfold max_messages, t0 in *. wp_next. intros k2. wp_next. intros sh Hsh k3. apply wp_modify.
  rewrite u32_small, locate_of_eq by lia.
  apply m_write_same; unfold wire_locate, max_messages; simpl; try done; unfold fits; lia.
Qed.

Lemma m_cancel_inv k : wp (m_cancel rng s) (λ _, multi_inv nsym (len + 1) tb mb) k g.
Proof using Hi Hlt Htb Hns Hs Hlive.
  pose proof Hi as [_ _ _ _ Hn Ht _]. apply wp_m_choose. intros x i y k1 _ _ _ Hy.
  unfold max_messages, t0 in *. wp_next. intros k2. wp_next. intros sh Hsh k3. apply wp_modify.
  rewrite u32_small, locate_of_eq by lia.
  apply m_write_same; unfold wire_locate, max_messages; simpl; try done; unfold fits; lia.
Qed.

Lemma m_delete_inv k : wp (m_delete rng s) (λ _, multi_inv nsym (len + 1) tb mb) k g.
Proof using Hi Hlt Htb Hns Hs Hlive.
  pose proof Hi as [_ _ _ _ Hn Ht [Hz Hsy]]. apply wp_m_choose. intros x i y k1 _ [Hm Hl] Hr Hy.
  unfold max_messages, t0 in *. wp_next. intros k2. wp_next. intros k3.
  destruct (swap_pop_some (s_live x) i) as (l & El & Hin); [done|].
  apply wp_bind. apply wp_lift with l; [done|]. intros k4. apply wp_m_set_sym; [done|].
  rewrite locate_of_eq.
  assert (E : m_write (WDelete (s + 1) (m_ts g) y.1) g =
              m_write (WDelete (s + 1) (m_ts g) y.1) (m_set_next (m_next g) g)) by (by destruct g).
  simpl. rewrite E. apply m_write_inv; unfold wire_locate, max_messages; simpl; try done; unfold fits; try lia.
  - by rewrite zlen_insert.
  - apply Forall_insert; [done|]. split; [done|]. apply Forall_forall. intros z Hz'.
    rewrite Forall_forall in Hl. by apply Hl, Hin.
Qed.

End Branches.

(** * The whole generator *)

Lemma m_directory_inv nsym e tb mb k g :
  multi_inv nsym e tb mb g → 0 ≤ e < max_messages → 0 ≤ tb ≤ max_messages → nsym ≤ 65535 → e < nsym →
  wp (m_directory e) (λ _, multi_inv nsym (e + 1) tb mb) k g.
Proof.
  intros Hi Hlt Htb Hns He. pose proof Hi as [_ _ _ _ Hn Ht _]. unfold m_directory, max_messages, t0 in *.
  wp_next. intros k1. apply wp_modify. rewrite (locate_of_eq nsym) by lia.
  assert (Hd : ∀ a, 0 ≤ a `mod` 10 < 10) by (intros; by apply Z.mod_pos_bound).
  pose proof (Hd e). pose proof (Hd (e / 10)).
  apply m_write_same; unfold wire_locate, max_messages; simpl; try done; try (unfold fits; lia).
  split_and!; [unfold fits; lia..| |done]. unfold symbol_name. repeat constructor; unfold byte_ok; lia.
Qed.

Lemma multi_step_inv rng nsym e k g :
  multi_inv nsym e e e g → 0 ≤ e < max_messages → 1 ≤ nsym ≤ 65535 →
  wp (multi_step rng nsym e) (λ _, multi_inv nsym (e + 1) (e + 1) (e + 1)) k g.
Proof.
  intros Hi He Hns. unfold multi_step. apply wp_bind. eexists _, _, _. split; [done|]. intros k1.
  set (s := rng k `mod` nsym). assert (Hs : 0 ≤ s < nsym) by (apply Z.mod_pos_bound; lia).
  cbv zeta. apply wp_bind.
  eapply wp_mono; [eapply m_walk_inv; [exact Hi|lia|done]|]. intros x g1 Hi1 k2. cbv beta in Hi1. clear x Hi g.
  wp_next. intros roll _ k3. apply wp_bind. eapply wp_m_sym; [exact Hi1|done|]. intros x Hx _ k4.
  apply wp_bind. eapply wp_mono with (Q := λ _, multi_inv nsym (e + 1) e (e + 1)).
  - unfold max_messages in *.
    destruct (Z.ltb_spec (zlen (s_live x)) 4) as [|Hlive]; simpl; [apply m_add_inv; done || unfold max_messages; lia|].
    assert (Hl : ∀ x', (m_syms g1).[s] = Some x' → 0 < zlen (s_live x'))
      by (intros x' Hx'; rewrite Hx in Hx'; injection Hx' as <-; lia).
    destruct (roll <? 55); [apply m_add_inv; done || unfold max_messages; lia|].
    destruct (roll <? 72); [apply m_execute_inv; done || unfold max_messages; lia|].
    destruct (roll <? 84); [apply m_cancel_inv; done || unfold max_messages; lia|
                            apply m_delete_inv; done || unfold max_messages; lia].
  - intros y g2 [Hl Hf Hloc Hw Hn Ht Hsy] k5. wp_next. intros t Ht' k6. apply wp_modify.
    unfold max_messages, t0 in *. split; simpl; try done. unfold t0. rewrite u64_small by lia. lia.
Qed.

Lemma multi0_inv (nsym : nat) : multi_inv (Z.of_nat nsym) 0 0 0 (multi0 nsym).
Proof.
  split; simpl; try done; [intros loc; apply feed_nil|]. split.
  - unfold zlen. by rewrite length_map, length_seq.
  - apply Forall_forall. intros x Hx. apply list_elem_of_In, in_map_iff in Hx as (i & <- & Hin).
    apply in_seq in Hin. split; simpl; [lia|constructor].
Qed.

Lemma multi_gen_inv rng n nsym k :
  Z.of_nat n ≤ max_messages → (1 ≤ nsym)%nat → Z.of_nat nsym ≤ 65535 →
  wp (multi_gen rng n nsym)
    (λ _, multi_inv (Z.of_nat nsym) (Z.of_nat n) (Z.of_nat n) (Z.of_nat n)) k (multi0 nsym).
Proof.
  intros Hn H1 H2. unfold multi_gen. apply wp_bind.
  eapply wp_mono; [apply (wp_repeat (λ e g, multi_inv (Z.of_nat nsym) e e e g)); [apply multi0_inv|]|].
  - intros e k1 g He Hi. eapply wp_mono; [apply m_directory_inv; [exact Hi|lia..]|].
    intros x g' [Hl Hf Hloc Hw Hnx Ht [Hz Hs]]. split; try done; try lia. split; [done|].
    eapply syms_weaken; [| |exact Hs]; lia.
  - intros x g Hi k1. cbv beta in Hi. rewrite Z.add_0_l in Hi.
    destruct (decide (n ≤ nsym)%nat) as [Hle|Hgt].
    + replace (n - nsym)%nat with 0%nat by lia. apply wp_ret.
      by replace (Z.of_nat n) with (Z.of_nat (nsym `min` n)) by lia.
    + replace (Z.of_nat (nsym `min` n)) with (Z.of_nat nsym) in Hi by lia.
      eapply wp_mono; [apply (wp_repeat (λ e g, multi_inv (Z.of_nat nsym) e e e g)); [exact Hi|]|].
      * intros e k2 g2 He Hi2. apply multi_step_inv; [done|lia..].
      * intros x2 g2. by replace (Z.of_nat nsym + Z.of_nat (n - nsym)) with (Z.of_nat n) by lia.
Qed.

(** The messages of one locate are written by the generator for that locate. *)
Lemma at_locate_feed loc ws : at_locate loc (feed_messages ws) = feed_messages (wire_at loc ws).
Proof.
  unfold at_locate, feed_messages, wire_at, wire_locate.
  induction ws as [|w ws IH]; [done|]. rewrite fmap_cons, !filter_cons. case_decide; simpl; by rewrite IH.
Qed.

(** * Properties *)

(** What the generator writes: as many messages as asked for. *)
Lemma multi_stream (rng : nat → Z) n n_symbols :
  Z.of_nat n ≤ max_messages → Z.of_nat n_symbols ≤ 65535 →
  ∃ ws, make_synthetic_multi rng n n_symbols = Some (write_stream ws) ∧ zlen ws = Z.of_nat n ∧ Forall wire_ok ws.
Proof.
  intros Hn Hs. unfold make_synthetic_multi. set (ns := if decide (n_symbols < 1)%nat then 1%nat else n_symbols).
  assert (Hns : (1 ≤ ns)%nat ∧ Z.of_nat ns ≤ 65535) by (unfold ns; case_decide; lia).
  destruct (multi_gen_inv rng n ns 0) as (x & k & g & E & [Hl Hf Hloc Hw _ _ _]); [lia..|].
  exists (m_out g). rewrite E. done.
Qed.

(** The multi-symbol feed replays cleanly for every seed: for up to a million messages
    and 65535 symbols the generator stays inside its vectors, a book set consumes every byte
    it wrote, every book that appears belongs to one of the symbols, and each of them passes
    the consistency check. *)
Theorem synthetic_multi_replays (rng : nat → Z) n n_symbols :
  Z.of_nat n ≤ max_messages → Z.of_nat n_symbols ≤ 65535 →
  ∃ bytes bs, make_synthetic_multi rng n n_symbols = Some bytes ∧
    for_each_framed_message BookSet.apply bytes (zlen bytes) set0 = Some (zlen bytes, bs) ∧
    ∀ loc b, book bs loc = Some b →
      1 ≤ loc ≤ Z.max 1 (Z.of_nat n_symbols) ∧
      ∀ iter, iter ≡ₚ map_to_list (index_ b) → invariant_ok b iter = Some true.
Proof.
  intros Hn Hs. unfold make_synthetic_multi.
  set (ns := if decide (n_symbols < 1)%nat then 1%nat else n_symbols).
  assert (Hns : (1 ≤ ns)%nat ∧ Z.of_nat ns = Z.max 1 (Z.of_nat n_symbols))
    by (unfold ns; case_decide; lia).
  destruct (multi_gen_inv rng n ns 0) as (x & k & g & E & [Hl Hf Hloc Hw _ _ _]); [lia..|].
  unfold max_messages in Hn. rewrite E. cbn [mbind option_bind snd].
  destruct (apply_set_rep (feed_messages (m_out g))) as (bs & Ebs & [Hb Hd _]).
  { by apply feed_msgs_ok. } { unfold feed_messages. rewrite zlen_fmap. lia. }
  exists (write_stream (m_out g)), bs. split_and!; [done| |].
  { pose proof (write_stream_zlen _ Hw). rewrite replay_written by (done || lia).
    unfold apply_set, feed_messages in Ebs. by rewrite Ebs. }
  intros loc b Ebk. unfold book in Ebk. specialize (Hb loc). specialize (Hd loc).
  rewrite at_locate_feed in Hb, Hd. unfold book_of in Hb. rewrite Ebk in Hb. simpl in Hb. split.
  - destruct Hd as [Hd _]. specialize (Hd (ex_intro _ b Ebk)). apply Exists_exists in Hd as (m & Hin & _).
    apply list_elem_of_fmap in Hin as (w & -> & [Hwl Hin]%list_elem_of_filter).
    rewrite Forall_forall in Hloc. specialize (Hloc w Hin). lia.
  - pose proof (wire_at_zlen loc (m_out g)).
    destruct (feed_apply_consistent _ _ (Hf loc)) as (b' & Hb' & Hok); [lia|].
    rewrite Hb in Hb'. by injection Hb' as <-.
Qed.

(** Sixty messages over three symbols. *)
Lemma synthetic_multi_replays_witness :
  ∃ bytes bs, make_synthetic_multi (mt19937 1) 60 3 = Some bytes ∧
    for_each_framed_message BookSet.apply bytes (zlen bytes) set0 = Some (zlen bytes, bs) ∧
    ∀ loc b, book bs loc = Some b →
      1 ≤ loc ≤ Z.max 1 (Z.of_nat 3) ∧
      ∀ iter, iter ≡ₚ map_to_list (index_ b) → invariant_ok b iter = Some true.
Proof.
  apply (synthetic_multi_replays (mt19937 1) 60 3); vm_compute; discriminate.
Defined.
