(* ===== verification/Mold.v ===== *)
(** MoldUDP64 (include/feed/moldudp64.hpp): the datagram header, the packetizer that cuts a
    framed stream into datagrams, and [MoldSession], the receiver that detects dropped
    messages by sequence number.  All counters are unsigned 64-bit. *)
From S2P Require Export Wire.

(** * Headers *)

Record MoldHeader := mkHeader { session : list Z; seq : Z; count : Z }.

Definition header0 : MoldHeader := mkHeader (replicate 10 0) 0 0.

Definition kMoldEndOfSession : Z := 65535.

(** The header is an out-parameter: the result is the returned flag and its final value.  A
    [char] of the session is the byte it is read from. *)

Definition parse_mold_header (buf : list Z) (len : Z) (h : MoldHeader) :
    option (bool * MoldHeader) :=
  if len <? 20 then Some (false, h)
  else
    sess ← memcpy buf 0 10;
    s ← rd_be_loop buf 10 8 0;
    b18 ← buf.[18];
    b19 ← buf.[19];
    Some (true, mkHeader sess s (u16 (Z.lor (Z.shiftl b18 8) b19))).

(** The ten bytes of the session name, padded with blanks. *)

Definition session_bytes (sess : list Z) : list Z :=
  map (λ i, match sess !! i with Some c => u8 c | None => 32 end) (List.seq 0 10).

Definition encode_mold_packet (sess : list Z) (sq cnt : Z) (blocks : option (list Z))
    (blen : Z) : option (list Z) :=
  let p := session_bytes sess in
  let p := p ++ (map (λ i, u8 (Z.land (Z.shiftr sq (8 * i)) 255)) [7; 6; 5; 4; 3; 2; 1; 0]) in
  let p := p ++ [u8 (Z.land (Z.shiftr cnt 8) 255)] in
  let p := p ++ [u8 (Z.land cnt 255)] in
  if blen =? 0 then Some p
  else
    bl ← blocks;
    if blen <=? zlen bl then Some (p ++ take (Z.to_nat blen) bl) else None.

(** * The packetizer *)

(** The inner loop: the records of one datagram, from [off] with [cnt] records so far. *)

Fixpoint packet_loop (fuel : nat) (framed : list Z) (len mpp off cnt : Z) : option (Z * Z) :=
  match fuel with
  | O => None
  | S fuel =>
      if (u64 (off + 2) <=? len) && (cnt <? mpp) then
        b0 ← framed.[off];
        b1 ← framed.[off + 1];
        let mlen := Z.lor (Z.shiftl b0 8) b1 in
        if (mlen =? 0) || (len <? u64 (off + 2 + mlen)) then Some (off, cnt)
        else packet_loop fuel framed len mpp (u64 (off + (2 + mlen))) (u16 (cnt + 1))
      else Some (off, cnt)
  end.

Fixpoint packetize_loop (fuel : nat) (sess framed : list Z) (len mpp sq off : Z) :
    option (list (list Z)) :=
  match fuel with
  | O => None
  | S fuel =>
      if off <? len then
        r ← packet_loop (S (length framed)) framed len mpp off 0;
        if r.2 =? 0 then Some []
        else
          p ← encode_mold_packet sess sq r.2 (Some (drop (Z.to_nat off) framed)) (u64 (r.1 - off));
          rest ← packetize_loop fuel sess framed len mpp (u64 (sq + r.2)) r.1;
          Some (p :: rest)
      else Some []
  end.

Definition packetize_mold (sess framed : list Z) (len mpp : Z) : option (list (list Z)) :=
  packetize_loop (S (length framed)) sess framed len mpp 1 0.

(** * The receiver *)

Record MoldSession := mkMold {
  expected_ : Z;
  gaps_ : Z;
  packets_ : Z;
  messages_ : Z;
  started_ : bool;
  ended_ : bool;
}.

Definition mold0 : MoldSession := mkMold 0 0 0 0 false false.

Section Receiver.
Context {S : Type} (sink : S → Z → Message → option S).

(** The loop over the blocks of a datagram, [i] blocks before the end. *)

Fixpoint blocks_loop (i : nat) (buf : list Z) (len off sq msgs : Z) (s : S) :
    option (Z * Z * S) :=
  match i with
  | O => Some (sq, msgs, s)
  | Datatypes.S i =>
      if len <? u64 (off + 2) then Some (sq, msgs, s)
      else
        b0 ← buf.[off];
        b1 ← buf.[off + 1];
        let mlen := Z.lor (Z.shiftl b0 8) b1 in
        let off := u64 (off + 2) in
        if len <? u64 (off + mlen) then Some (sq, msgs, s)
        else
          r ← decode (Some (drop (Z.to_nat off) buf)) mlen message0;
          r' ← (if (r.1 : bool) then s' ← sink s sq r.2; Some (u64 (msgs + 1), s')
                else Some (msgs, s));
          blocks_loop i buf len (u64 (off + mlen)) (u64 (sq + 1)) r'.1 r'.2
  end.

Definition on_packet (d : MoldSession) (buf : list Z) (len : Z) (s : S) :
    option (MoldSession * S) :=
  ph ← parse_mold_header buf len header0;
  if negb ph.1 then Some (d, s)
  else
    let h := ph.2 in
    let packets := u64 (packets_ d + 1) in
    if count h =? kMoldEndOfSession then
      Some (mkMold (expected_ d) (gaps_ d) packets (messages_ d) (started_ d) true, s)
    else
      let gaps := if started_ d && (expected_ d <? seq h)
                  then u64 (gaps_ d + u64 (seq h - expected_ d)) else gaps_ d in
      r ← blocks_loop (Z.to_nat (count h)) buf len 20 (seq h) (messages_ d) s;
      Some (mkMold r.1.1 gaps packets r.1.2 true (ended_ d), r.2).

(** A receiver fed with datagrams in the order of their arrival. *)

Definition on_packets (d : MoldSession) (ps : list (list Z)) (s : S) :
    option (MoldSession * S) :=
  foldM (λ ds p, on_packet ds.1 p (zlen p) ds.2) (d, s) ps.

End Receiver.

(** * Datagrams *)

(** The datagram of the records [bodies], numbered from [sq]. *)

Definition datagram (sess : list Z) (sq : Z) (bodies : list (list Z)) : list Z :=
  session_bytes sess ++ be_bytes 8 sq ++ be_bytes 2 (zlen bodies) ++ frames bodies.

Fixpoint datagrams (sess : list Z) (sq : Z) (chunks : list (list (list Z))) : list (list Z) :=
  match chunks with
  | [] => []
  | c :: cs => datagram sess sq c :: datagrams sess (sq + zlen c) cs
  end.

(** The decodable bodies with their sequence numbers. *)

Fixpoint numbered (sq : Z) (bodies : list (list Z)) : list (Z * Message) :=
  match bodies with
  | [] => []
  | b :: bs =>
      match decode_body b with
      | Some m => (sq, m) :: numbered (sq + 1) bs
      | None => numbered (sq + 1) bs
      end
  end.

(** Cutting a list into pieces of [n]. *)

Fixpoint chunk {A} (fuel n : nat) (l : list A) : list (list A) :=
  match fuel, l with
  | S fuel, _ :: _ => take n l :: chunk fuel n (drop n l)
  | _, _ => []
  end.

Lemma numbered_app sq l k : numbered sq (l ++ k) = numbered sq l ++ numbered (sq + zlen l) k.
Proof.
  revert sq. induction l as [|b l IH]; intros sq; simpl.
  { f_equal. unfold zlen. simpl. lia. }
  rewrite IH, zlen_cons. replace (sq + (zlen l + 1)) with (sq + 1 + zlen l) by lia.
  by destruct (decode_body b).
Qed.

Lemma chunk_join {A} fuel n (l : list A) :
  (0 < n)%nat → (length l ≤ fuel)%nat → mjoin (chunk fuel n l) = l.
Proof.
  intros Hn. revert l. induction fuel as [|fuel IH]; intros l Hl; destruct l as [|x l]; try done.
  { simpl in Hl. lia. }
  cbn [chunk]. simpl mjoin. rewrite IH; [apply take_drop|].
  rewrite length_drop. simpl in *. lia.
Qed.

Lemma chunk_size {A} fuel n (l : list A) :
  (0 < n)%nat → Forall (λ c, (0 < length c ≤ n)%nat) (chunk fuel n l).
Proof.
  intros Hn. revert l. induction fuel as [|fuel IH]; intros l; [constructor|].
  destruct l as [|x l]; [constructor|]. constructor; [|apply IH].
  rewrite length_take. simpl. lia.
Qed.

(** The fuel does not matter when it covers the list. *)
Lemma chunk_fuel {A} f1 f2 n (l : list A) :
  (0 < n)%nat → (length l ≤ f1)%nat → (length l ≤ f2)%nat → chunk f1 n l = chunk f2 n l.
Proof.
  intros Hn. revert f2 l. induction f1 as [|f1 IH]; intros f2 l H1 H2;
    (destruct l as [|x l]; [by destruct f2|]); simpl in *; [lia|].
  destruct f2 as [|f2]; [lia|]. cbn [chunk]. f_equal.
  apply IH; rewrite length_drop; simpl; lia.
Qed.

Lemma session_bytes_spec sess :
  length (session_bytes sess) = 10%nat ∧ bytes_ok (session_bytes sess).
Proof.
  split; [done|]. unfold session_bytes. apply Forall_fmap, Forall_forall. intros i _.
  simpl. destruct (sess !! i); [apply u8_range|unfold byte_ok; lia].
Qed.

Lemma u8_land x : u8 (Z.land x 255) = u8 x.
Proof.
  change 255 with (Z.ones 8). rewrite Z.land_ones by lia. unfold u8, wrap. by rewrite Z.mod_mod.
Qed.

Lemma encode_mold_spec sess sq bodies framed :
  Forall body_ok bodies →
  encode_mold_packet sess sq (zlen bodies) (Some (frames bodies ++ framed)) (zlen (frames bodies)) =
    Some (datagram sess sq bodies).
Proof.
  intros Hb. unfold encode_mold_packet, datagram.
  assert (E8 : map (λ i, u8 (Z.land (Z.shiftr sq (8 * i)) 255)) [7; 6; 5; 4; 3; 2; 1; 0] =
               be_bytes 8 sq) by (simpl; by rewrite !u8_land).
  assert (E2 : [u8 (Z.land (Z.shiftr (zlen bodies) 8) 255)] ++ [u8 (Z.land (zlen bodies) 255)] =
               be_bytes 2 (zlen bodies)) by (simpl; by rewrite !u8_land, Z.shiftr_0_r).
  rewrite E8, <- (app_assoc _ [_] [_]), E2. cbv zeta.
  destruct (Z.eqb_spec (zlen (frames bodies)) 0) as [Hz|Hz].
  - destruct Hb as [|b bs [? ?] _]; [by rewrite <- !app_assoc, !app_nil_r|].
    rewrite frames_cons, zlen_app, record_zlen in Hz. pose proof (zlen_nonneg (frames bs)). lia.
  - cbn [mbind option_bind]. rewrite zlen_app. pose proof (zlen_nonneg framed).
    destruct (Z.leb_spec (zlen (frames bodies)) (zlen (frames bodies) + zlen framed)); [|lia].
    unfold zlen at 2. rewrite Nat2Z.id, take_app_length. by rewrite <- !app_assoc.
Qed.

(** * Parsing *)

Lemma parse_mold_spec buf h :
  bytes_ok buf → 20 ≤ zlen buf →
  parse_mold_header buf (zlen buf) h =
    Some (true, mkHeader (field buf 0 10) (be_val (field buf 10 8)) (be_val (field buf 18 2))).
Proof.
  intros Hok Hl. unfold parse_mold_header. destruct (Z.ltb_spec (zlen buf) 20); [lia|].
  rewrite memcpy_spec by (split; lia). cbn [mbind option_bind].
  pose proof (rd_be_spec buf 10 8 Hok) as E8. unfold rd_be in E8. rewrite E8 by (first [split; lia|lia]).
  pose proof (rd16_spec buf 18 Hok) as E2. unfold rd16 in E2. cbn [mbind option_bind].
  change (18 + 1) with 19 in E2. specialize (E2 ltac:(split; lia)).
  destruct (buf.[18]) as [b18|]; [|done]. destruct (buf.[19]) as [b19|]; [|done].
  cbn [mbind option_bind] in *. by injection E2 as ->.
Qed.

Lemma datagram_ok sess sq bodies : Forall bytes_ok bodies → bytes_ok (datagram sess sq bodies).
Proof.
  intros Hb. unfold datagram. repeat apply Forall_app_2; [apply session_bytes_spec|
    apply be_bytes_ok|apply be_bytes_ok|by apply frames_ok].
Qed.

Lemma datagram_zlen sess sq bodies : zlen (datagram sess sq bodies) = 20 + zlen (frames bodies).
Proof.
  unfold datagram. rewrite !zlen_app, !be_bytes_zlen. unfold zlen at 1.
  rewrite (proj1 (session_bytes_spec sess)). lia.
Qed.

Lemma parse_datagram sess sq bodies h :
  Forall bytes_ok bodies → fits 64 sq → zlen bodies < 65536 →
  parse_mold_header (datagram sess sq bodies) (zlen (datagram sess sq bodies)) h =
    Some (true, mkHeader (session_bytes sess) sq (zlen bodies)).
Proof.
  intros Hb Hsq Hn. pose proof (zlen_nonneg (frames bodies)).
  pose proof (zlen_nonneg bodies).
  rewrite parse_mold_spec; [|by apply datagram_ok|rewrite datagram_zlen; lia].
  do 2 f_equal. unfold datagram. f_equal.
  - exact (be_val_fits 8 64 sq Hsq eq_refl).
  - apply (be_val_fits 2 16); [|done]. split; [lia|done].
Qed.

(** * The packetizer cuts the records into pieces *)

Lemma packet_loop_full fuel buf len mpp off : packet_loop (S fuel) buf len mpp off mpp = Some (off, mpp).
Proof. cbn [packet_loop]. by rewrite Z.ltb_irrefl, andb_false_r. Qed.

Lemma packet_loop_stop fuel pre tail mpp cnt :
  bytes_ok tail → stopping tail → zlen (pre ++ tail) < 2 ^ 63 →
  packet_loop (S fuel) (pre ++ tail) (zlen (pre ++ tail)) mpp (zlen pre) cnt = Some (zlen pre, cnt).
Proof.
  intros Hok Hst Hlen. pose proof (zlen_nonneg pre). pose proof (zlen_nonneg tail).
  rewrite zlen_app in *. cbn [packet_loop]. rewrite (u64_small (zlen pre + 2)) by lia.
  destruct (Z.leb_spec (zlen pre + 2) (zlen pre + zlen tail)); [|done].
  destruct (cnt <? mpp); [|done]. cbn [andb].
  destruct (stop_head pre tail Hok Hst) as [?|(b0 & b1 & -> & -> & Hn & Hs)]; [lia|].
  cbn [mbind option_bind]. rewrite u64_small by lia.
  destruct (Z.eqb_spec (Z.lor (Z.shiftl b0 8) b1) 0); [done|].
  destruct (Z.ltb_spec (zlen pre + zlen tail) (zlen pre + 2 + Z.lor (Z.shiftl b0 8) b1)); [done|lia].
Qed.

Lemma packet_loop_record fuel pre body rest mpp cnt :
  body_ok body → 0 ≤ cnt < mpp → mpp < 65536 → zlen (pre ++ record body ++ rest) < 2 ^ 63 →
  packet_loop (S fuel) (pre ++ record body ++ rest) (zlen (pre ++ record body ++ rest)) mpp
    (zlen pre) cnt =
  packet_loop fuel ((pre ++ record body) ++ rest) (zlen ((pre ++ record body) ++ rest)) mpp
    (zlen (pre ++ record body)) (cnt + 1).
Proof.
  intros Hb Hc Hm Hlen. pose proof (zlen_nonneg pre). pose proof (zlen_nonneg rest).
  destruct (record_head pre body rest Hb) as (b0 & b1 & E0 & E1 & Ev & _ & Hz).
  destruct Hb as [Hpos Hlt]. rewrite <- (app_assoc pre).
  set (buf := pre ++ record body ++ rest) in *.
  cbn [packet_loop]. rewrite (u64_small (zlen pre + 2)) by lia.
  destruct (Z.leb_spec (zlen pre + 2) (zlen buf)); [|lia].
  destruct (Z.ltb_spec cnt mpp); [|lia]. cbn [andb].
  rewrite E0, E1. cbn [mbind option_bind]. rewrite Ev, !u64_small, u16_small by lia.
  destruct (Z.eqb_spec (zlen body) 0); [lia|].
  destruct (Z.ltb_spec (zlen buf) (zlen pre + 2 + zlen body)); [lia|]. cbn [orb].
  by rewrite (zlen_app pre), record_zlen.
Qed.

Lemma packet_loop_spec bodies tail mpp fuel pre cnt :
  Forall body_ok bodies → bytes_ok tail → stopping tail → mpp < 65536 →
  (length bodies < fuel)%nat → 0 ≤ cnt ≤ mpp →
  zlen (pre ++ frames bodies ++ tail) < 2 ^ 63 →
  packet_loop fuel (pre ++ frames bodies ++ tail) (zlen (pre ++ frames bodies ++ tail)) mpp
    (zlen pre) cnt =
  Some (zlen pre + zlen (frames (take (Z.to_nat (mpp - cnt)) bodies)),
        cnt + zlen (take (Z.to_nat (mpp - cnt)) bodies)).
Proof.
  intros Hb Hok Hst Hm. revert pre cnt fuel.
  assert (Hend : ∀ (pre : list Z) (cnt : Z), (zlen pre + zlen (frames []), cnt + zlen (A:=list Z) []) = (zlen pre, cnt)).
  { intros. unfold frames, zlen at 2 3. simpl. f_equal; lia. }
  induction Hb as [|body bodies Hb Hbs IH]; intros pre cnt fuel Hf Hc Hlen;
    (destruct fuel as [|fuel]; [simpl in Hf; lia|]).
  - rewrite take_nil, Hend. by apply packet_loop_stop.
  - rewrite frames_cons, <- app_assoc in *. destruct (decide (cnt = mpp)) as [->|Hne].
    + rewrite packet_loop_full, Z.sub_diag. change (take (Z.to_nat 0) (body :: bodies)) with (@nil (list Z)).
      by rewrite Hend.
    + rewrite packet_loop_record by (done || lia). simpl in Hf.
      rewrite IH by (rewrite <- ?app_assoc; done || lia).
      replace (Z.to_nat (mpp - cnt)) with (S (Z.to_nat (mpp - (cnt + 1)))) by lia.
      rewrite firstn_cons, frames_cons, !zlen_app, zlen_cons. do 2 f_equal; lia.
Qed.

Lemma frames_length bodies : (length bodies ≤ length (frames bodies))%nat.
Proof. induction bodies as [|b bs IH]; [done|]. rewrite frames_cons, length_app. simpl. lia. Qed.

Lemma frames_nil_inv bodies : zlen (frames bodies) = 0 → bodies = [].
Proof.
  intros Hz. pose proof (frames_length bodies). destruct bodies; [done|]. unfold zlen in Hz.
  simpl in *. lia.
Qed.

Lemma packetize_loop_spec sess mpp tail fuel pre sq bodies :
  Forall body_ok bodies → bytes_ok tail → stopping tail → 0 < mpp < 65536 →
  (length bodies < fuel)%nat → 0 ≤ sq → sq + zlen bodies < 2 ^ 64 →
  zlen (pre ++ frames bodies ++ tail) < 2 ^ 63 →
  packetize_loop fuel sess (pre ++ frames bodies ++ tail) (zlen (pre ++ frames bodies ++ tail))
    mpp sq (zlen pre) =
  Some (datagrams sess sq (chunk (length bodies) (Z.to_nat mpp) bodies)).
Proof.
  intros Hb Hok Hst Hm. revert pre sq bodies Hb. induction fuel as [|fuel IH];
    intros pre sq bodies Hb Hf Hsq Hn Hlen; [lia|]. cbn [packetize_loop].
  pose proof (zlen_nonneg pre). pose proof (zlen_nonneg tail).
  destruct (Z.ltb_spec (zlen pre) (zlen (pre ++ frames bodies ++ tail))) as [Hlt|Hge].
  2: { rewrite !zlen_app in Hge. pose proof (zlen_nonneg (frames bodies)).
       rewrite (frames_nil_inv bodies) by lia. done. }
  assert (Hfl : (length bodies < S (length (pre ++ frames bodies ++ tail)))%nat).
  { rewrite !length_app. pose proof (frames_length bodies). lia. }
  rewrite packet_loop_spec by (done || lia).
  cbn [mbind option_bind fst snd]. rewrite Z.sub_0_r, Z.add_0_l.
  set (c := take (Z.to_nat mpp) bodies).
  destruct (Z.eqb_spec (zlen c) 0) as [Hz|Hz].
  { apply zlen_nil_inv in Hz. unfold c in Hz. destruct bodies; [done|].
    by replace (Z.to_nat mpp) with (S (pred (Z.to_nat mpp))) in Hz by lia. }
  assert (Hcut : frames bodies = frames c ++ frames (drop (Z.to_nat mpp) bodies)).
  { unfold c. by rewrite <- frames_app, take_drop. }
  rewrite drop_zlen_app. replace (zlen pre + zlen (frames c) - zlen pre) with (zlen (frames c)) by lia.
  rewrite Hcut in Hlen |- *. rewrite !zlen_app in Hlen. pose proof (zlen_nonneg (frames c)).
  pose proof (zlen_nonneg (frames (drop (Z.to_nat mpp) bodies))).
  rewrite (u64_small (zlen (frames c))), <- (app_assoc (frames c)), encode_mold_spec by (lia || by apply Forall_take).
  cbn [mbind option_bind]. pose proof (zlen_nonneg c).
  assert (Hsum : zlen bodies = zlen c + zlen (drop (Z.to_nat mpp) bodies)).
  { unfold c. by rewrite <- zlen_app, take_drop. }
  pose proof (zlen_nonneg (drop (Z.to_nat mpp) bodies)).
  rewrite (u64_small (sq + zlen c)), <- zlen_app by lia.
  rewrite (app_assoc pre (frames c)), IH; [| by apply Forall_drop | | lia | lia |].
  - destruct bodies as [|b bs]; [by unfold c in Hz; rewrite take_nil in Hz|]. cbn [mbind option_bind length chunk]. fold c.
    cbn [datagrams]. do 3 f_equal. apply chunk_fuel; [lia|done|].
    rewrite length_drop. simpl. lia.
  - rewrite length_drop. destruct bodies; [by unfold c in Hz; rewrite take_nil in Hz|].
    simpl in *. lia.
  - rewrite !zlen_app. lia.
Qed.

(** * The receiver delivers the records *)

Section ReceiverFacts.
Context {S : Type} (sink : S → Z → Message → option S).

(** The sink called with a list of numbered messages. *)

Definition deliver (s : S) (l : list (Z * Message)) : option S :=
  foldM (λ s qm, sink s qm.1 qm.2) s l.

Lemma blocks_loop_spec bodies pre sq msgs s :
  Forall body_ok bodies → Forall bytes_ok bodies →
  zlen (pre ++ frames bodies) < 2 ^ 63 → 0 ≤ sq → sq + zlen bodies < 2 ^ 64 →
  0 ≤ msgs → msgs + zlen bodies < 2 ^ 64 →
  blocks_loop sink (length bodies) (pre ++ frames bodies) (zlen (pre ++ frames bodies))
    (zlen pre) sq msgs s =
  s' ← deliver s (numbered sq bodies);
  Some (sq + zlen bodies, msgs + zlen (numbered sq bodies), s').
Proof.
  intros Hb. revert pre sq msgs s. induction Hb as [|body bodies Hb Hbs IH];
    intros pre sq msgs s Hok Hlen Hsq Hn Hmsg Hmn.
  { simpl. unfold zlen. simpl. by rewrite !Z.add_0_r. }
  apply Forall_cons in Hok as [Hbok Hok]. rewrite frames_cons in *. rewrite zlen_cons in *.
  pose proof (zlen_nonneg pre). pose proof (zlen_nonneg (frames bodies)). pose proof (zlen_nonneg bodies).
  destruct (record_head pre body (frames bodies) Hb) as (b0 & b1 & E0 & E1 & Ev & Hd & Hz).
  destruct Hb as [Hpos Hlt]. set (buf := pre ++ record body ++ frames bodies) in *.
  cbn [length blocks_loop]. rewrite (u64_small (zlen pre + 2)) by lia.
  destruct (Z.ltb_spec (zlen buf) (zlen pre + 2)); [lia|].
  rewrite E0, E1. cbn [mbind option_bind]. rewrite Ev, Hd.
  rewrite (u64_small (zlen pre + 2 + _)), (u64_small (sq + 1)), (u64_small (msgs + 1)) by lia.
  destruct (Z.ltb_spec (zlen buf) (zlen pre + 2 + zlen body)); [lia|].
  destruct (decode_body_total body (frames bodies) Hbok) as (r & m & -> & Hdb).
  cbn [mbind option_bind fst snd numbered]. rewrite Hdb.
  assert (Hpre : zlen pre + 2 + zlen body = zlen (pre ++ record body))
    by (rewrite zlen_app, record_zlen; lia).
  assert (Hbuf : buf = (pre ++ record body) ++ frames bodies) by apply app_assoc.
  rewrite Hbuf in *. rewrite Hpre. destruct r.
  - unfold deliver. cbn [foldM fst snd]. destruct (sink s sq m) as [s1|]; [|done].
    cbn [mbind option_bind fst snd]. rewrite IH by (done || lia). fold (deliver s1).
    unfold deliver. destruct (foldM _ s1 _) as [s2|]; [|done]. cbn [mbind option_bind].
    rewrite zlen_cons. do 3 f_equal; lia.
  - cbn [mbind option_bind fst snd]. rewrite IH by (done || lia).
    destruct (deliver s _); [|done]. cbn [mbind option_bind]. do 3 f_equal; lia.
Qed.

(** What a datagram of consecutive records does to the receiver. *)
Lemma on_packet_datagram d sess sq bodies s :
  Forall body_ok bodies → Forall bytes_ok bodies → zlen bodies < 65535 →
  zlen (datagram sess sq bodies) < 2 ^ 63 → 0 ≤ sq → sq + zlen bodies < 2 ^ 64 →
  0 ≤ messages_ d → messages_ d + zlen bodies < 2 ^ 64 →
  on_packet sink d (datagram sess sq bodies) (zlen (datagram sess sq bodies)) s =
  s' ← deliver s (numbered sq bodies);
  Some (mkMold (sq + zlen bodies)
          (if started_ d && (expected_ d <? sq) then u64 (gaps_ d + u64 (sq - expected_ d)) else gaps_ d)
          (u64 (packets_ d + 1)) (messages_ d + zlen (numbered sq bodies)) true (ended_ d), s').
Proof.
  intros Hb Hok Hn Hlen Hsq Hsn Hm Hmn. unfold on_packet. pose proof (zlen_nonneg bodies).
  rewrite parse_datagram by (unfold fits; done || lia). cbn [mbind option_bind fst snd negb count seq].
  unfold kMoldEndOfSession. destruct (Z.eqb_spec (zlen bodies) 65535); [lia|].
  set (pre := session_bytes sess ++ be_bytes 8 sq ++ be_bytes 2 (zlen bodies)).
  assert (Hd : datagram sess sq bodies = pre ++ frames bodies).
  { unfold datagram, pre. by rewrite <- !app_assoc. }
  rewrite Hd in *.
  assert (Hp : zlen pre = 20) by done.
  rewrite <- Hp. unfold zlen at 1. rewrite Nat2Z.id.
  rewrite blocks_loop_spec by (done || lia). by destruct (deliver s _).
Qed.

End ReceiverFacts.

(** * Sequences of datagrams *)

(** Datagrams as (first sequence number, records).  [ordered e l]: they arrive in order and
    without overlap, the first not before [e]; some of the numbers may be missing. *)

Fixpoint ordered (e : Z) (l : list (Z * list (list Z))) : Prop :=
  match l with
  | [] => True
  | (q, c) :: l => e ≤ q ∧ ordered (q + zlen c) l
  end.

(** The number after the last record, and the number of records. *)

Fixpoint last_end (e : Z) (l : list (Z * list (list Z))) : Z :=
  match l with
  | [] => e
  | (q, c) :: l => last_end (q + zlen c) l
  end.

Definition records (l : list (Z * list (list Z))) : Z := zlen (mjoin l.*2).

Definition all_numbered (l : list (Z * list (list Z))) : list (Z * Message) :=
  mjoin ((λ qc, numbered qc.1 qc.2) <$> l).

(** A datagram of a size the transport can carry, with an ordinary message count. *)

Definition chunk_ok (c : list (list Z)) : Prop :=
  Forall body_ok c ∧ Forall bytes_ok c ∧ zlen c < 65535.

#[global] Instance chunk_ok_dec c : Decision (chunk_ok c).
Proof. unfold chunk_ok. apply _. Defined.

#[global] Instance ordered_dec e l : Decision (ordered e l).
Proof. revert e. induction l as [|[q c] l IH]; intros e; simpl; apply _. Defined.

Lemma records_cons q c l : records ((q, c) :: l) = zlen c + records l.
Proof. unfold records. simpl. apply zlen_app. Qed.

Lemma all_numbered_cons q c l : all_numbered ((q, c) :: l) = numbered q c ++ all_numbered l.
Proof. done. Qed.

Lemma ordered_last e l : ordered e l → e + records l ≤ last_end e l.
Proof.
  revert e. induction l as [|[q c] l IH]; intros e Ho; [unfold records, zlen; simpl; lia|].
  destruct Ho as [He Ho]. specialize (IH _ Ho). rewrite records_cons. simpl. lia.
Qed.

Lemma numbered_length sq bodies : zlen (numbered sq bodies) ≤ zlen bodies.
Proof.
  revert sq. induction bodies as [|b bs IH]; intros sq; [done|]. simpl.
  specialize (IH (sq + 1)). destruct (decode_body b); rewrite ?zlen_cons; lia.
Qed.

(** A body is at most 65535 bytes, so a datagram is far below the address space. *)
Lemma datagram_small sess sq c : chunk_ok c → zlen (datagram sess sq c) < 2 ^ 63.
Proof.
  intros (Hb & _ & Hn). rewrite datagram_zlen.
  assert (zlen (frames c) ≤ 65537 * zlen c); [|lia].
  clear Hn. induction Hb as [|b bs [? ?] _ IH]; [done|].
  rewrite frames_cons, zlen_app, record_zlen, zlen_cons. lia.
Qed.

Section Sequences.
Context {S : Type} (sink : S → Z → Message → option S).

Definition feed (sess : list Z) (d : MoldSession) (s : S) (l : list (Z * list (list Z))) :
    option (MoldSession * S) :=
  on_packets sink d ((λ qc, datagram sess qc.1 qc.2) <$> l) s.

(** Datagrams in order: the receiver delivers all their records under their own numbers and
    counts the missing numbers as gaps. *)
Lemma feed_ordered sess l d s :
  Forall (λ qc, chunk_ok qc.2) l → ordered (expected_ d) l → started_ d = true →
  0 ≤ expected_ d → last_end (expected_ d) l < 2 ^ 64 → 0 ≤ gaps_ d → 0 ≤ messages_ d →
  gaps_ d + (last_end (expected_ d) l - expected_ d) < 2 ^ 64 →
  messages_ d + records l < 2 ^ 64 → fits 64 (packets_ d) →
  feed sess d s l =
  s' ← deliver sink s (all_numbered l);
  Some (mkMold (last_end (expected_ d) l)
          (gaps_ d + (last_end (expected_ d) l - expected_ d - records l))
          (u64 (packets_ d + zlen l))
          (messages_ d + zlen (all_numbered l)) true (ended_ d), s').
Proof.
  intros Hc. revert d s. induction Hc as [|[q c] l Hq Hc IH];
    intros d s Ho Hst He Hle Hg Hm Hgl Hml Hpk.
  { destruct d. simpl in *. subst. unfold feed, on_packets, records, zlen. simpl.
    unfold fits in Hpk. rewrite !Z.add_0_r, u64_small by lia. do 3 f_equal; lia. }
  destruct Ho as [Heq Ho]. rewrite records_cons in *. cbn [last_end] in *.
  pose proof (ordered_last _ _ Ho). pose proof (zlen_nonneg c).
  assert (Hrec : 0 ≤ records l) by apply zlen_nonneg. pose proof (numbered_length q c).
  pose proof (zlen_nonneg (numbered q c)).
  pose proof (datagram_small sess q c Hq) as Hdl. destruct Hq as (Hb & Hok & Hn).
  unfold feed, on_packets. cbn [fmap list_fmap foldM fst snd].
  rewrite on_packet_datagram by (done || lia). rewrite Hst. cbn [andb].
  assert (Hgap : (if expected_ d <? q then u64 (gaps_ d + u64 (q - expected_ d)) else gaps_ d) =
                 gaps_ d + (q - expected_ d)).
  { destruct (Z.ltb_spec (expected_ d) q); [|lia].
    rewrite (u64_small (q - _)) by lia. by rewrite u64_small by lia. }
  rewrite Hgap, all_numbered_cons. unfold deliver. rewrite foldM_app. destruct (foldM _ s (numbered q c)) as [s1|]; [|done].
  cbn [mbind option_bind].
  specialize (IH (mkMold (q + zlen c) (gaps_ d + (q - expected_ d)) (u64 (packets_ d + 1))
               (messages_ d + zlen (numbered q c)) true (ended_ d)) s1).
  unfold feed, on_packets, deliver in IH. cbn [fst snd expected_ gaps_ packets_ messages_ started_ ended_] in IH.
  rewrite IH by (first [done|lia|apply u64_range]).
  destruct (foldM _ s1 (all_numbered l)) as [s2|]; [|done]. cbn [mbind option_bind].
  rewrite zlen_app, u64_add_l, zlen_cons. do 3 f_equal; try lia. f_equal. lia.
Qed.

(** A receiver that has not started takes its first number from the first datagram. *)
Lemma feed_first sess q c l s :
  Forall (λ qc, chunk_ok qc.2) ((q, c) :: l) → ordered q ((q, c) :: l) → 0 ≤ q →
  last_end q ((q, c) :: l) < 2 ^ 64 →
  feed sess mold0 s ((q, c) :: l) =
  s' ← deliver sink s (all_numbered ((q, c) :: l));
  Some (mkMold (last_end q ((q, c) :: l)) (last_end q ((q, c) :: l) - q - records ((q, c) :: l))
          (u64 (zlen ((q, c) :: l))) (zlen (all_numbered ((q, c) :: l))) true false, s').
Proof.
  intros Hc Ho Hq Hle.
  pose proof (feed_ordered sess ((q, c) :: l) (mkMold q 0 0 0 true false) s) as E.
  cbn [expected_ gaps_ packets_ messages_ started_ ended_] in E. rewrite !Z.add_0_l in E.
  assert (Hrec : records ((q, c) :: l) < 2 ^ 64) by (pose proof (ordered_last _ _ Ho); lia).
  rewrite <- E; clear E; [|done|done|done|lia|done|lia|lia|lia|done|done].
  pose proof (Forall_inv Hc) as Hk. simpl in Hk. pose proof (datagram_small sess q c Hk) as Hdl.
  destruct Hk as (Hb & Hok & Hn). rewrite records_cons in Hrec.
  assert (0 ≤ records l) by apply zlen_nonneg. destruct Ho as [_ Ho]. cbn [last_end] in Hle.
  pose proof (ordered_last _ _ Ho).
  unfold feed, on_packets. cbn [fmap list_fmap foldM fst snd].
  rewrite !on_packet_datagram by (simpl; done || lia). simpl. by rewrite Z.ltb_irrefl.
Qed.

End Sequences.

(** The datagrams of consecutive pieces. *)

Fixpoint consecutive (q : Z) (cs : list (list (list Z))) : list (Z * list (list Z)) :=
  match cs with
  | [] => []
  | c :: cs => (q, c) :: consecutive (q + zlen c) cs
  end.

Lemma consecutive_spec q cs :
  ordered q (consecutive q cs) ∧ last_end q (consecutive q cs) = q + zlen (mjoin cs) ∧
  records (consecutive q cs) = zlen (mjoin cs) ∧
  all_numbered (consecutive q cs) = numbered q (mjoin cs) ∧
  (∀ sess, (λ qc, datagram sess qc.1 qc.2) <$> consecutive q cs = datagrams sess q cs).
Proof.
  revert q. induction cs as [|c cs IH]; intros q.
  { unfold records, zlen. simpl. split_and!; try done; lia. }
  destruct (IH (q + zlen c)) as (Ho & Hl & Hr & Hnum & Hd). simpl. split_and!.
  - lia.
  - done.
  - rewrite Hl, zlen_app. lia.
  - by rewrite records_cons, Hr, zlen_app.
  - unfold all_numbered. simpl. rewrite numbered_app. f_equal. apply Hnum.
  - intros sess. by rewrite Hd.
Qed.

Lemma chunk_Forall {A} (P : A → Prop) fuel n l : Forall P l → Forall (Forall P) (chunk fuel n l).
Proof.
  revert l. induction fuel as [|fuel IH]; intros l Hl; [constructor|].
  destruct l as [|x l]; [constructor|]. cbn [chunk]. constructor; [by apply Forall_take|].
  by apply IH, Forall_drop.
Qed.

Lemma consecutive_snd q cs : (consecutive q cs).*2 = cs.
Proof. revert q. induction cs as [|c cs IH]; intros q; [done|]. simpl. by rewrite IH. Qed.

Lemma chunks_ok mpp bodies :
  Forall body_ok bodies → Forall bytes_ok bodies → 0 < mpp < 65535 →
  Forall chunk_ok (chunk (length bodies) (Z.to_nat mpp) bodies).
Proof.
  intros Hb Hok Hm. pose proof (chunk_Forall _ (length bodies) (Z.to_nat mpp) bodies Hb) as H1.
  pose proof (chunk_Forall _ (length bodies) (Z.to_nat mpp) bodies Hok) as H2.
  assert (H3 := chunk_size (length bodies) (Z.to_nat mpp) bodies ltac:(lia)).
  rewrite Forall_forall in H1, H2, H3. apply Forall_forall. intros c Hc.
  specialize (H1 c Hc). specialize (H2 c Hc). specialize (H3 c Hc). simpl in H3.
  split_and!; [done|done|]. unfold zlen. lia.
Qed.

(** * Memory safety of the receiver *)

Section Total.
Context {S : Type} (sink : S → Z → Message → option S).

(** A property of the consumer's state after [n] messages, kept for [bound] messages. *)

Context (I : Z → S → Prop) (bound : Z).
Hypothesis sink_ok : ∀ n s sq b m,
  bytes_ok b → decode_body b = Some m → n < bound → I n s → ∃ s', sink s sq m = Some s' ∧ I (n + 1) s'.

Lemma blocks_loop_total i buf off sq msgs s n :
  bytes_ok buf → zlen buf < 2 ^ 63 → 0 ≤ off ≤ zlen buf → I n s → n + (zlen buf - off) ≤ bound →
  ∃ r n', blocks_loop sink i buf (zlen buf) off sq msgs s = Some r ∧ I n' r.2 ∧ n ≤ n' ≤ n + (zlen buf - off).
Proof.
  intros Hok Hlen. revert off sq msgs s n. induction i as [|i IH]; intros off sq msgs s n Hoff Hn Hb;
    [by eexists _, n; split_and!; [done|done|lia|lia]|].
  assert (Hstop : ∃ r n', Some (sq, msgs, s) = Some r ∧ I n' r.2 ∧ n ≤ n' ≤ n + (zlen buf - off))
    by (by eexists _, n; split_and!; [done|done|lia|lia]).
  cbn [blocks_loop]. rewrite !(u64_small (off + 2)) by lia.
  destruct (Z.ltb_spec (zlen buf) (off + 2)); [done|].
  destruct (vget_is_Some buf off) as [b0 E0]; [lia|].
  destruct (vget_is_Some buf (off + 1)) as [b1 E1]; [lia|].
  rewrite E0, E1. cbn [mbind option_bind].
  pose proof (bytes_ok_get _ _ _ Hok E0) as Hb0. pose proof (bytes_ok_get _ _ _ Hok E1) as Hb1.
  assert (Hv : Z.lor (Z.shiftl b0 8) b1 = b0 * 256 + b1)
    by (apply lor_shift8; [unfold byte_ok in *; lia|done]).
  unfold byte_ok in *. rewrite Hv. set (k := b0 * 256 + b1) in *. rewrite !(u64_small (off + 2 + k)) by lia.
  destruct (Z.ltb_spec (zlen buf) (off + 2 + k)); [done|].
  set (rest := drop (Z.to_nat (off + 2)) buf).
  assert (Hz : k ≤ zlen rest) by (unfold rest; rewrite zlen_drop; lia).
  assert (Hbok : bytes_ok (take (Z.to_nat k) rest)) by (by apply bytes_ok_take, bytes_ok_drop).
  destruct (decode_body_total (take (Z.to_nat k) rest) (drop (Z.to_nat k) rest) Hbok) as (r & m & E & Em).
  rewrite take_drop, zlen_take in E by lia. rewrite E. cbn [mbind option_bind fst snd]. destruct r.
  - destruct (sink_ok n s sq _ m Hbok Em ltac:(lia) Hn) as (s' & -> & Hn'). cbn [mbind option_bind fst snd].
    destruct (IH (off + 2 + k) (u64 (sq + 1)) (u64 (msgs + 1)) s' (n + 1)) as (r & n' & Er & Hr & Hle); [lia|done|lia|].
    exists r, n'. split_and!; [done|done|lia|lia].
  - destruct (IH (off + 2 + k) (u64 (sq + 1)) msgs s n) as (r & n' & Er & Hr & Hle); [lia|done|lia|].
    exists r, n'. split_and!; [done|done|lia|lia].
Qed.

Lemma on_packet_total d buf s n :
  bytes_ok buf → zlen buf < 2 ^ 63 → I n s → n + zlen buf ≤ bound →
  ∃ r n', on_packet sink d buf (zlen buf) s = Some r ∧ I n' r.2 ∧ n ≤ n' ≤ n + zlen buf.
Proof.
  intros Hok Hlen Hn Hb. pose proof (zlen_nonneg buf). unfold on_packet. destruct (decide (20 ≤ zlen buf)).
  - rewrite parse_mold_spec by done. cbn [mbind option_bind fst snd negb count].
    destruct (_ =? _); [by eexists _, n; split_and!; [done|done|lia|lia]|].
    destruct (blocks_loop_total (Z.to_nat (be_val (field buf 18 2))) buf 20
      (be_val (field buf 10 8)) (messages_ d) s n Hok Hlen) as (r & n' & Hr & Hi & Hle); [lia|done|lia|]. cbn [seq].
    rewrite Hr. eexists _, n'. split_and!; [done|done|lia|lia].
  - unfold parse_mold_header. destruct (Z.ltb_spec (zlen buf) 20); [|lia]. by eexists _, n; split_and!; [done|done|lia|lia].
Qed.

End Total.

(** * Properties *)

(** Receiving all datagrams of a stream. *)
Lemma mold_receive_all {S} (sink : S → Z → Message → option S) sess bodies tail mpp s :
  Forall body_ok bodies → Forall bytes_ok bodies → bytes_ok tail → stopping tail →
  0 < mpp < 65535 → bodies ≠ [] → zlen (frames bodies ++ tail) < 2 ^ 63 →
  ∃ ps, packetize_mold sess (frames bodies ++ tail) (zlen (frames bodies ++ tail)) mpp = Some ps ∧
    on_packets sink mold0 ps s =
      s' ← deliver sink s (numbered 1 bodies);
      Some (mkMold (1 + zlen bodies) 0 (u64 (zlen ps)) (zlen (numbered 1 bodies)) true false, s').
Proof.
  intros Hb Hok Htok Hst Hm Hne Hlen. set (cs := chunk (length bodies) (Z.to_nat mpp) bodies).
  assert (Hn : zlen bodies ≤ zlen (frames bodies)) by (pose proof (frames_length bodies); unfold zlen; lia).
  pose proof (zlen_nonneg tail). exists (datagrams sess 1 cs). split.
  - pose proof (packetize_loop_spec sess mpp tail (Datatypes.S (length (frames bodies ++ tail))) [] 1 bodies)
      as E. simpl in E. rewrite zlen_app in *. pose proof (frames_length bodies).
    apply E; try done; [lia| |lia]. rewrite length_app. lia.
  - destruct (consecutive_spec 1 cs) as (Ho & Hl & Hr & Hnum & Hd). rewrite zlen_app in Hlen.
    assert (Hj : mjoin cs = bodies) by (apply chunk_join; [lia|done]). rewrite Hj in *.
    rewrite <- Hd, <- Hnum, zlen_fmap. fold (feed sink sess mold0 s (consecutive 1 cs)).
    destruct (consecutive 1 cs) as [|[q c] l] eqn:Ec.
    { unfold records, zlen in Hr. simpl in Hr. by destruct bodies. }
    assert (q = 1) as -> by (destruct cs; [done|by injection Ec]).
    rewrite feed_first, Hl, Hr; [by rewrite Z.add_simpl_l, Z.sub_diag| |done|lia|rewrite Hl; lia].
    rewrite <- Ec. change (Forall (chunk_ok ∘ snd) (consecutive 1 cs)).
    rewrite <- Forall_fmap, consecutive_snd. by apply chunks_ok.
Qed.

(** C14: The transport is lossless.  Cutting a framed stream into datagrams of 1 to 65534
    messages and feeding them all to a fresh receiver delivers every decodable message of
    the stream once, in order, under sequence numbers counted from 1, and reports no gap. *)
Theorem mold_lossless {S} (sink : S → Z → Message → option S) sess bodies tail mpp s :
  Forall body_ok bodies → Forall bytes_ok bodies → bytes_ok tail → stopping tail →
  0 < mpp < 65535 → bodies ≠ [] → zlen (frames bodies ++ tail) < 2 ^ 63 →
  ∃ ps, packetize_mold sess (frames bodies ++ tail) (zlen (frames bodies ++ tail)) mpp = Some ps ∧
    on_packets sink mold0 ps s =
      s' ← deliver sink s (numbered 1 bodies);
      Some (mkMold (1 + zlen bodies) 0 (u64 (zlen ps)) (zlen (numbered 1 bodies)) true false, s').
Proof. apply mold_receive_all. Qed.

Lemma mold_lossless_witness :
  let bodies := [delete_bytes; [90; 1]; delete_bytes] in
  ∃ ps, packetize_mold [83; 69; 83] (frames bodies ++ [0; 0]) (zlen (frames bodies ++ [0; 0])) 2
        = Some ps ∧
    on_packets (λ l sq m, Some (l ++ [(sq, order_ref m)])) mold0 ps [] =
      s' ← deliver (λ l sq m, Some (l ++ [(sq, order_ref m)])) [] (numbered 1 bodies);
      Some (mkMold 4 0 (u64 (zlen ps)) 2 true false, s').
Proof.
  apply (mold_lossless (λ l sq m, Some (l ++ [(sq, order_ref m)])));
    try (apply (bool_decide_unpack _); vm_compute; exact I).
Defined.

(** C35: Gap accounting, for sequence numbers below 2^64.  When datagrams arrive in order and some between the first and the last
    are missing, the receiver delivers the decodable records it got under their own numbers,
    expects the number after the last one, and its gap counter is exactly the count of messages
    missing in between: the span of sequence numbers from the first datagram received to the last,
    less the records it received.  What was lost before the first datagram or behind the last is
    not counted. *)
Theorem mold_gaps_are_missing {S} (sink : S → Z → Message → option S) sess q c l s :
  Forall (λ qc, chunk_ok qc.2) ((q, c) :: l) → ordered q ((q, c) :: l) → 0 ≤ q →
  last_end q ((q, c) :: l) < 2 ^ 64 →
  on_packets sink mold0 ((λ qc, datagram sess qc.1 qc.2) <$> ((q, c) :: l)) s =
  s' ← deliver sink s (all_numbered ((q, c) :: l));
  Some (mkMold (last_end q ((q, c) :: l)) (last_end q ((q, c) :: l) - q - records ((q, c) :: l))
          (u64 (zlen ((q, c) :: l))) (zlen (all_numbered ((q, c) :: l))) true false, s').
Proof. apply feed_first. Qed.

(** Records 4 to 6 are lost between two datagrams. *)
Lemma mold_gaps_are_missing_witness :
  let ps := [datagram [] 2 [delete_bytes; delete_bytes]; datagram [] 7 [delete_bytes]] in
  on_packets (λ l sq m, Some (l ++ [sq])) mold0 ps [] =
    Some (mkMold 8 3 2 3 true false, [2; 3; 7]).
Proof.
  change (on_packets (λ l sq (m : Message), Some (l ++ [sq])) mold0
    ((λ qc, datagram [] qc.1 qc.2) <$> [(2, [delete_bytes; delete_bytes]); (7, [delete_bytes])]) [] =
    Some (mkMold 8 3 2 3 true false, [2; 3; 7])).
  rewrite (mold_gaps_are_missing (λ l sq (m : Message), Some (l ++ [sq])) []
    2 [delete_bytes; delete_bytes] [(7, [delete_bytes])] []).
  - vm_compute. reflexivity.
  - apply (bool_decide_unpack _); vm_compute; exact I.
  - apply (bool_decide_unpack _); vm_compute; exact I.
  - lia.
  - vm_compute. reflexivity.
Defined.

(** The receiver is memory safe on arbitrary datagrams: whatever the bytes, the declared
    count and the block lengths, a packet is processed without a read outside it. *)
Theorem mold_receiver_safe {S} (sink : S → Z → Message → option S) d buf s :
  (∀ s sq m, is_Some (sink s sq m)) → bytes_ok buf → zlen buf < 2 ^ 63 →
  is_Some (on_packet sink d buf (zlen buf) s).
Proof.
  intros Hs Hok Hl.
  assert (Hk : ∀ n s sq b m, bytes_ok b → decode_body b = Some m → n < zlen buf → True → ∃ s', sink s sq m = Some s' ∧ True)
    by (intros n s' sq b m _ _ _ _; destruct (Hs s' sq m) as [s'' ->]; by exists s'').
  destruct (on_packet_total sink (λ _ _, True) (zlen buf) Hk d buf s 0 Hok Hl I) as (r & n' & -> & _); [done|by eexists].
Qed.

(** A truncated datagram that claims 500 blocks. *)
Lemma mold_receiver_safe_witness :
  is_Some (on_packet (λ n _ _, Some (n + 1)) mold0
    (replicate 18 65 ++ [1; 244; 0; 40; 65]) 23 0).
Proof.
  apply (mold_receiver_safe (λ n _ _, Some (n + 1)) mold0 (replicate 18 65 ++ [1; 244; 0; 40; 65]) 0).
  - intros s sq m. exists (s + 1). reflexivity.
  - apply (bool_decide_unpack _); vm_compute; exact I.
  - vm_compute. reflexivity.
Defined.

(** Processes the next datagram of a list. *)
Ltac next_packet :=
  rewrite on_packet_datagram by (simpl; done || lia);
  cbn [started_ expected_ gaps_ messages_ packets_ ended_ andb mold0];
  unfold deliver; rewrite ?foldM_app;
  match goal with |- mbind _ (mbind _ ?m) = _ => destruct m; [|done] end;
  cbn [mbind option_bind fst snd].

(** A duplicated datagram is not filtered.  After the consecutive datagrams [c1] and
    [c2], a late copy of [c1] is delivered a second time and moves the expected number back,
    so that the next in-order datagram [c3] is reported as a gap of the size of [c2]
    although nothing is missing. *)
Theorem mold_duplicate_redelivers {S} (sink : S → Z → Message → option S) sess q c1 c2 c3 s :
  chunk_ok c1 → chunk_ok c2 → chunk_ok c3 → c2 ≠ [] → 0 ≤ q →
  q + zlen c1 + zlen c2 + zlen c3 < 2 ^ 62 →
  on_packets sink mold0
    [datagram sess q c1; datagram sess (q + zlen c1) c2; datagram sess q c1;
     datagram sess (q + zlen c1 + zlen c2) c3] s =
  s' ← deliver sink s (numbered q c1 ++ numbered (q + zlen c1) c2 ++ numbered q c1 ++
                       numbered (q + zlen c1 + zlen c2) c3);
  Some (mkMold (q + zlen c1 + zlen c2 + zlen c3) (zlen c2) 4
    (2 * zlen (numbered q c1) + zlen (numbered (q + zlen c1) c2) +
     zlen (numbered (q + zlen c1 + zlen c2) c3)) true false, s').
Proof.
  intros H1 H2 H3 Hne Hq Hlt.
  pose proof (datagram_small sess q c1 H1). pose proof (datagram_small sess (q + zlen c1) c2 H2).
  pose proof (datagram_small sess (q + zlen c1 + zlen c2) c3 H3).
  pose proof (zlen_nonneg c1). pose proof (zlen_nonneg c3).
  assert (0 < zlen c2) by (destruct c2; [done|rewrite zlen_cons; pose proof (zlen_nonneg c2); lia]).
  pose proof (numbered_length q c1). pose proof (numbered_length (q + zlen c1) c2).
  pose proof (numbered_length (q + zlen c1 + zlen c2) c3).
  pose proof (zlen_nonneg (numbered q c1)). pose proof (zlen_nonneg (numbered (q + zlen c1) c2)).
  destruct H1 as (? & ? & ?), H2 as (? & ? & ?), H3 as (? & ? & ?).
  unfold deliver, on_packets. cbn [foldM fst snd].
  next_packet. next_packet. rewrite Z.ltb_irrefl. next_packet.
  destruct (Z.ltb_spec (q + zlen c1 + zlen c2) q); [lia|]. next_packet.
  destruct (Z.ltb_spec (q + zlen c1) (q + zlen c1 + zlen c2)); [|lia].
  rewrite (u64_small (q + _ + _ - _)), u64_small by lia. do 3 f_equal; try lia.
Qed.

Lemma mold_duplicate_redelivers_witness :
  on_packets (λ l sq m, Some (l ++ [sq])) mold0
    [datagram [] 1 [delete_bytes]; datagram [] 2 [delete_bytes; delete_bytes];
     datagram [] 1 [delete_bytes]; datagram [] 4 [delete_bytes]] [] =
  Some (mkMold 5 2 4 5 true false, [1; 2; 3; 1; 4]).
Proof.
  etransitivity.
  - apply (mold_duplicate_redelivers (λ l sq (m : Message), Some (l ++ [sq])) [] 1
      [delete_bytes] [delete_bytes; delete_bytes] [delete_bytes] []);
      apply (bool_decide_unpack _); vm_compute; exact I.
  - vm_compute. reflexivity.
Defined.
