(* ===== verification/SpscRing.v ===== *)
(** [SpscRing<T>] (include/core/spsc_ring.hpp): the single-producer single-consumer ring.
    [push] and [pop] are cut at their accesses to shared memory; a run of the system is any
    interleaving of the producer's and the consumer's steps (sequentially consistent).  The
    counters are 64-bit and wrap around.

    The specification is a FIFO queue: [pushed] and [popped] are the histories of completed
    operations, and the queue is the part of the first that is not in the second. *)
From S2P Require Export Types.

Record SpscRing (T : Type) := mkRing {
  cap_ : Z;
  mask_ : Z;
  slots_ : list T;
  head_ : Z;
  tail_cache_ : Z;
  tail_ : Z;
  head_cache_ : Z;
}.

Arguments mkRing {T} _ _ _ _ _ _ _.
Arguments cap_ {T} _.
Arguments mask_ {T} _.
Arguments slots_ {T} _.
Arguments head_ {T} _.
Arguments tail_cache_ {T} _.
Arguments tail_ {T} _.
Arguments head_cache_ {T} _.

(** * Construction *)

(** [while (p < n) p <<= 1;] with the shift of a 64-bit value; no result when the fuel runs
    out. *)

Fixpoint round_up_loop (fuel : nat) (p n : Z) : option Z :=
  match fuel with
  | O => None
  | S fuel => if p <? n then round_up_loop fuel (u64 (Z.shiftl p 1)) n else Some p
  end.

Definition round_up_pow2 (n : Z) : option Z :=
  p ← round_up_loop 65 1 n; Some (if p <? 2 then 2 else p).

Section Ring.
Context {T : Type} (dflt : T).
Implicit Types r : SpscRing T.

Definition make_ring (capacity : Z) : option (SpscRing T) :=
  cap ← round_up_pow2 capacity;
  Some (mkRing cap (cap - 1) (replicate (Z.to_nat cap) dflt) 0 0 0 0).

(** * Program counters *)

(** Where the producer is in [push(item)]: at its start, before the reload of [tail_],
    before the write of the slot, before the store of [head_]. *)

Inductive prod_pc : Type :=
  | PIdle
  | PStart (item : T)
  | PReload (item : T) (head : Z)
  | PWrite (item : T) (head : Z)
  | PPublish (item : T) (head : Z).

Inductive cons_pc : Type :=
  | CIdle
  | CStart
  | CReload (tail : Z)
  | CRead (tail : Z)
  | CRelease (tail : Z) (out : T).

(** [next - tail_cache_ > cap_] with [next = head + 1]. *)

Definition looks_full r (head : Z) : bool := cap_ r <? u64 (u64 (head + 1) - tail_cache_ r).

(** One step of [push]: the ring, the next point, and the result when it returns. *)

Definition push_step r (pc : prod_pc) : option (SpscRing T * prod_pc * option bool) :=
  match pc with
  | PIdle => None
  | PStart item =>
      let head := head_ r in
      Some (r, if looks_full r head then PReload item head else PWrite item head, None)
  | PReload item head =>
      let r := mkRing (cap_ r) (mask_ r) (slots_ r) (head_ r) (tail_ r) (tail_ r) (head_cache_ r) in
      Some (if looks_full r head then (r, PIdle, Some false) else (r, PWrite item head, None))
  | PWrite item head =>
      slots ← (slots_ r).[Z.land head (mask_ r) <- item];
      Some (mkRing (cap_ r) (mask_ r) slots (head_ r) (tail_cache_ r) (tail_ r) (head_cache_ r),
            PPublish item head, None)
  | PPublish item head =>
      Some (mkRing (cap_ r) (mask_ r) (slots_ r) (u64 (head + 1)) (tail_cache_ r) (tail_ r)
              (head_cache_ r), PIdle, Some true)
  end.

(** One step of [pop]; on success the result is the value assigned to [out]. *)

Definition pop_step r (pc : cons_pc) : option (SpscRing T * cons_pc * option (option T)) :=
  match pc with
  | CIdle => None
  | CStart =>
      let tail := tail_ r in
      Some (r, if tail =? head_cache_ r then CReload tail else CRead tail, None)
  | CReload tail =>
      let r := mkRing (cap_ r) (mask_ r) (slots_ r) (head_ r) (tail_cache_ r) (tail_ r) (head_ r) in
      Some (if tail =? head_cache_ r then (r, CIdle, Some None) else (r, CRead tail, None))
  | CRead tail =>
      out ← (slots_ r).[Z.land tail (mask_ r)];
      Some (r, CRelease tail out, None)
  | CRelease tail out =>
      Some (mkRing (cap_ r) (mask_ r) (slots_ r) (head_ r) (tail_cache_ r) (u64 (tail + 1))
              (head_cache_ r), CIdle, Some (Some out))
  end.

(** [size_approx] with the values of its two loads, [tail_] first. *)

Definition size_approx (t h : Z) : Z := u64 (h - t).

Definition empty_approx (t h : Z) : bool := size_approx t h =? 0.

(** An operation run to its end without interference. *)

Fixpoint push_run (fuel : nat) r (pc : prod_pc) : option (SpscRing T * bool) :=
  match fuel with
  | O => None
  | S fuel =>
      x ← push_step r pc;
      match x with
      | (r, _, Some b) => Some (r, b)
      | (r, pc, None) => push_run fuel r pc
      end
  end.

Definition push r (item : T) : option (SpscRing T * bool) := push_run 4 r (PStart item).

Fixpoint pop_run (fuel : nat) r (pc : cons_pc) : option (SpscRing T * option T) :=
  match fuel with
  | O => None
  | S fuel =>
      x ← pop_step r pc;
      match x with
      | (r, _, Some o) => Some (r, o)
      | (r, pc, None) => pop_run fuel r pc
      end
  end.

Definition pop r : option (SpscRing T * option T) := pop_run 4 r CStart.

(** * Interleavings *)

(** The ring, the two threads, and the histories of the completed operations. *)

Record sys := mkSys {
  ring : SpscRing T;
  ppc : prod_pc;
  cpc : cons_pc;
  pushed : list T;
  popped : list T;
}.

Definition push_item (pc : prod_pc) : list T := match pc with PPublish item _ => [item] | _ => [] end.

Inductive step : sys → sys → Prop :=
  | step_call_push item r c hi ho :
      step (mkSys r PIdle c hi ho) (mkSys r (PStart item) c hi ho)
  | step_prod r p c hi ho r' p' res :
      push_step r p = Some (r', p', res) →
      step (mkSys r p c hi ho)
           (mkSys r' p' c (match res with Some true => hi ++ push_item p | _ => hi end) ho)
  | step_call_pop r p hi ho :
      step (mkSys r p CIdle hi ho) (mkSys r p CStart hi ho)
  | step_cons r p c hi ho r' c' res :
      pop_step r c = Some (r', c', res) →
      step (mkSys r p c hi ho)
           (mkSys r' p c' hi (match res with Some (Some x) => ho ++ [x] | _ => ho end)).

Definition sys0 r : sys := mkSys r PIdle CIdle [] [].

Definition reachable r (s : sys) : Prop := rtc step (sys0 r) s.

End Ring.

Arguments PIdle {T}.
Arguments CIdle {T}.
Arguments CStart {T}.
Arguments CReload {T} _.
Arguments CRead {T} _.

(** * Rounding up to a power of two *)

Lemma round_up_loop_spec fuel k n :
  0 ≤ k ≤ 63 → (2 ^ k < 2 * n ∨ k = 0) → n ≤ 2 ^ 63 → (63 - k < Z.of_nat fuel) →
  ∃ j, round_up_loop fuel (2 ^ k) n = Some (2 ^ j) ∧ k ≤ j ≤ 63 ∧ n ≤ 2 ^ j ∧ (2 ^ j < 2 * n ∨ j = 0).
Proof.
  revert k. induction fuel as [|fuel IH]; intros k Hk Hs Hn Hf; [lia|]. cbn [round_up_loop].
  destruct (Z.ltb_spec (2 ^ k) n) as [Hlt|Hge].
  - assert (Hk' : k < 63).
    { destruct (decide (k = 63)) as [->|]; [|lia]. lia. }
    assert (E : u64 (Z.shiftl (2 ^ k) 1) = 2 ^ (k + 1)).
    { rewrite Z.shiftl_mul_pow2, Z.pow_add_r by lia. apply u64_small.
      pose proof (Z.pow_le_mono_r 2 k 62). pose proof (Z.pow_pos_nonneg 2 k). lia. }
    rewrite E. destruct (IH (k + 1)) as (j & -> & Hj & Hnj & Hs'); [lia| |done|lia|].
    + rewrite Z.pow_add_r by lia. lia.
    + exists j. split_and!; [done|lia|lia|done|done].
  - exists k. split_and!; [done|lia|lia|lia|]. destruct Hs; [by left|by right].
Qed.

(** A ring's capacity: a power of two between 2 and [2^63]. *)

Definition cap_ok (cap : Z) : Prop := ∃ k, 1 ≤ k ≤ 63 ∧ cap = 2 ^ k.

Lemma round_up_pow2_spec n :
  0 ≤ n ≤ 2 ^ 63 →
  ∃ cap, round_up_pow2 n = Some cap ∧ cap_ok cap ∧ n ≤ cap ∧ (cap < 2 * n ∨ cap = 2).
Proof.
  intros Hn. unfold round_up_pow2.
  destruct (round_up_loop_spec 65 0 n) as (j & E & Hj & Hnj & Hs); [lia|by right|lia|lia|].
  change (2 ^ 0) with 1 in E. rewrite E. cbn [mbind option_bind].
  destruct (decide (j = 0)) as [->|Hj0].
  - exists 2. split_and!; [done|exists 1; split; [lia|done]|simpl in Hnj; lia|by right].
  - pose proof (Z.pow_le_mono_r 2 1 j). destruct (Z.ltb_spec (2 ^ j) 2); [lia|].
    exists (2 ^ j). split_and!; [done|exists j; split; [lia|done]|done|]. destruct Hs; [by left|lia].
Qed.

Lemma cap_ok_range cap : cap_ok cap → 2 ≤ cap ≤ 2 ^ 63.
Proof.
  intros (k & Hk & ->). pose proof (Z.pow_le_mono_r 2 1 k). pose proof (Z.pow_le_mono_r 2 k 63). lia.
Qed.

(** Masking a wrapped counter is the remainder of the counter. *)
Lemma mask_index cap n : cap_ok cap → 0 ≤ n → Z.land (u64 n) (cap - 1) = n `mod` cap.
Proof.
  intros (k & Hk & ->) Hn. replace (2 ^ k - 1) with (Z.ones k) by (rewrite Z.ones_equiv; lia).
  rewrite Z.land_ones by lia. unfold u64, wrap.
  replace (2 ^ 64) with (2 ^ k * 2 ^ (64 - k)) by (rewrite <- Z.pow_add_r by lia; f_equal; lia).
  rewrite Z.rem_mul_r by (first [apply Z.pow_nonzero; lia|apply Z.pow_pos_nonneg; lia]).
  rewrite (Z.mul_comm (2 ^ k)), Z.mod_add by (apply Z.pow_nonzero; lia).
  apply Z.mod_mod, Z.pow_nonzero; lia.
Qed.

(** Two counters at most a capacity apart use different slots unless they are equal. *)
Lemma slot_inj cap i j : 0 < cap → 0 ≤ i → i < j < i + cap → i `mod` cap ≠ j `mod` cap.
Proof.
  intros Hc Hi Hj E. pose proof (Z.div_mod i cap) as Ei. pose proof (Z.div_mod j cap) as Ej.
  assert (Hd : cap * (j / cap - i / cap) = j - i) by lia.
  destruct (decide (j / cap - i / cap ≤ 0)); nia.
Qed.

(** Differences of wrapped counters. *)
Lemma u64_diff a b : 0 ≤ a - b < 2 ^ 64 → u64 (u64 a - u64 b) = a - b.
Proof. intros. rewrite u64_sub. by apply u64_small. Qed.

Lemma u64_eq a b : 0 ≤ a - b < 2 ^ 64 → u64 b = u64 a → a = b.
Proof. intros H E. pose proof (u64_diff a b H) as D. rewrite E, Z.sub_diag in D. change (u64 0) with 0 in D. lia. Qed.

Lemma u64_succ n : u64 (u64 n + 1) = u64 (n + 1).
Proof. apply u64_add_l. Qed.

(** * The invariant *)

Section Invariant.
Context {T : Type}.
Implicit Types r : SpscRing T.
Implicit Types s : sys (T:=T).

(** [tc] and [hc] are the counter values the two private copies stand for. *)

Record ring_inv (cap : Z) s (tc hc : Z) : Prop := {
  ri_cap : cap_ok cap ∧ cap_ (ring s) = cap ∧ mask_ (ring s) = cap - 1 ∧ zlen (slots_ (ring s)) = cap;
  ri_head : head_ (ring s) = u64 (zlen (pushed s));
  ri_tail : tail_ (ring s) = u64 (zlen (popped s));
  ri_tc : tail_cache_ (ring s) = u64 tc ∧ 0 ≤ tc ≤ zlen (popped s) ∧ zlen (pushed s) ≤ tc + cap;
  ri_hc : head_cache_ (ring s) = u64 hc ∧ zlen (popped s) ≤ hc ≤ zlen (pushed s);
  ri_slots : ∀ i, zlen (popped s) ≤ i < zlen (pushed s) →
    (slots_ (ring s)).[i `mod` cap] = (pushed s).[i];
  ri_fifo : popped s `prefix_of` pushed s;
  ri_prod : match ppc s with
    | PIdle | PStart _ => True
    | PReload _ head => head = u64 (zlen (pushed s))
    | PWrite _ head => head = u64 (zlen (pushed s)) ∧ zlen (pushed s) < tc + cap
    | PPublish item head => head = u64 (zlen (pushed s)) ∧ zlen (pushed s) < tc + cap ∧
        (slots_ (ring s)).[zlen (pushed s) `mod` cap] = Some item
    end;
  ri_cons : match cpc s with
    | CIdle | CStart => True
    | CReload tail => tail = u64 (zlen (popped s))
    | CRead tail => tail = u64 (zlen (popped s)) ∧ zlen (popped s) < hc
    | CRelease tail out => tail = u64 (zlen (popped s)) ∧ zlen (popped s) < hc ∧
        (pushed s).[zlen (popped s)] = Some out
    end;
}.

Definition inv (cap : Z) s : Prop := ∃ tc hc, ring_inv cap s tc hc.

Lemma looks_full_spec cap r n tc :
  cap_ok cap → cap_ r = cap → tail_cache_ r = u64 tc → 0 ≤ tc ≤ n → n ≤ tc + cap →
  looks_full r (u64 n) = bool_decide (n = tc + cap).
Proof.
  intros Hc Ec Et Ht Hn. pose proof (cap_ok_range cap Hc). unfold looks_full.
  rewrite Ec, Et, u64_succ, u64_diff by lia.
  destruct (Z.ltb_spec cap (n + 1 - tc)); case_bool_decide; lia || done.
Qed.

Lemma prod_inv cap r p c hi ho r' p' res :
  inv cap (mkSys r p c hi ho) → push_step r p = Some (r', p', res) →
  inv cap (mkSys r' p' c (match res with Some true => hi ++ push_item p | _ => hi end) ho).
Proof.
  intros (tc & hc & [(Hc & Ec & Em & El) Hh Ht Htc Hhc Hsl Hf Hp Hq]) E. simpl in *.
  pose proof (zlen_nonneg ho). pose proof (cap_ok_range cap Hc). destruct Htc as (Etc & Htc & Hle).
  destruct p as [|item|item head|item head|item head]; simpl in E; [done|..].
  - injection E as <- <- <-. exists tc, hc. split; simpl; try done.
    rewrite Hh, (looks_full_spec cap r _ tc) by (done || lia).
    case_bool_decide; [done|]. split; [done|lia].
  - subst head. set (r1 := mkRing _ _ _ _ (tail_ r) _ _) in E.
    rewrite (looks_full_spec cap r1 _ (zlen ho)) in E by (done || lia).
    case_bool_decide; simplify_eq; exists (zlen ho), hc; split; simpl; try done; try (split; lia); lia.
  - destruct Hp as [-> Hlt]. rewrite Em, mask_index in E by (done || lia).
    destruct ((slots_ r).[_ <- item]) as [slots|] eqn:Es; [|done]. simpl in E.
    injection E as <- <- <-. pose proof (vset_get _ _ _ (zlen hi `mod` cap) _ Es) as Hg.
    rewrite decide_True in Hg by done. exists tc, hc. split; simpl; try done.
    + rewrite (vset_length _ _ _ _ Es). done.
    + intros i Hi. rewrite (vset_get _ _ _ _ _ Es), decide_False; [by apply Hsl|].
      apply not_eq_sym, slot_inj; lia.
  - injection E as <- <- <-. destruct Hp as (-> & Hlt & Hs). simpl.
    assert (Hz : zlen (hi ++ [item]) = zlen hi + 1) by (by rewrite zlen_app).
    exists tc, hc. split; simpl; rewrite ?Hz; try done.
    + by rewrite u64_succ.
    + split_and!; [done|lia..].
    + split; [apply Hhc|lia].
    + intros i Hi. destruct (decide (i = zlen hi)) as [->|].
      * rewrite Hs. rewrite <- (Z.add_0_r (zlen hi)). by rewrite vget_app_r.
      * rewrite vget_app_l by lia. apply Hsl. lia.
    + by apply prefix_app_r.
    + destruct c; simpl in *; try done. split_and!; try apply Hq. rewrite vget_app_l by lia. apply Hq.
Qed.

Lemma cons_inv cap r p c hi ho r' c' res :
  inv cap (mkSys r p c hi ho) → pop_step r c = Some (r', c', res) →
  inv cap (mkSys r' p c' hi (match res with Some (Some x) => ho ++ [x] | _ => ho end)).
Proof.
  intros (tc & hc & [(Hc & Ec & Em & El) Hh Ht Htc Hhc Hsl Hf Hp Hq]) E. simpl in *.
  pose proof (zlen_nonneg ho). pose proof (cap_ok_range cap Hc).
  destruct Htc as (Etc & Htc & Hle), Hhc as (Ehc & Hhc).
  destruct c as [| |tail|tail|tail out]; simpl in E; [done|..].
  - injection E as <- <- <-. exists tc, hc. split; simpl; try done.
    rewrite Ht, Ehc. destruct (Z.eqb_spec (u64 (zlen ho)) (u64 hc)) as [|Hne]; [done|].
    split; [done|]. destruct (decide (zlen ho = hc)) as [Heq|]; [by rewrite Heq in Hne|lia].
  - subst tail. rewrite Hh in E. 
    destruct (Z.eqb_spec (u64 (zlen ho)) (u64 (zlen hi))) as [|Hne]; simplify_eq;
      exists tc, (zlen hi); split; simpl; try done; try (split; lia).
    split; [done|]. destruct (decide (zlen ho = zlen hi)) as [Heq|]; [by rewrite Heq in Hne|lia].
  - destruct Hq as [-> Hlt]. rewrite Em, mask_index, Hsl in E by (done || lia).
    destruct (hi.[zlen ho]) as [x|] eqn:Ex; [|done]. simpl in E. injection E as <- <- <-.
    exists tc, hc. split; simpl; done.
  - injection E as <- <- <-. destruct Hq as (-> & Hlt & Hx).
    assert (Hz : zlen (ho ++ [out]) = zlen ho + 1) by (by rewrite zlen_app).
    exists tc, hc. split; simpl; rewrite ?Hz; try done; try (split_and!; done || lia).
    + by rewrite u64_succ.
    + intros i Hi. apply Hsl. lia.
    + destruct Hf as [k ->]. rewrite <- (Z.add_0_r (zlen ho)), vget_app_r in Hx by lia.
      destruct k as [|y k]; [done|]. injection Hx as ->. exists k. by rewrite <- app_assoc.
Qed.

Lemma step_inv cap s s' : inv cap s → step s s' → inv cap s'.
Proof.
  intros Hi Hs. destruct Hs as [item r c hi ho|r p c hi ho r' p' res E|r p hi ho|r p c hi ho r' c' res E].
  - destruct Hi as (tc & hc & [? ? ? ? ? ? ? ? ?]). exists tc, hc. by split.
  - by eapply prod_inv.
  - destruct Hi as (tc & hc & [? ? ? ? ? ? ? ? ?]). exists tc, hc. by split.
  - by eapply cons_inv.
Qed.

Lemma make_ring_inv (dflt : T) n r :
  0 ≤ n ≤ 2 ^ 63 → make_ring dflt n = Some r → inv (cap_ r) (sys0 r) ∧ n ≤ cap_ r.
Proof.
  intros Hn E. unfold make_ring in E. destruct (round_up_pow2_spec n Hn) as (cap & Ec & Hc & Hle & _).
  rewrite Ec in E. simpl in E. injection E as <-. pose proof (cap_ok_range cap Hc). split; [|done].
  exists 0, 0. split; simpl; try done.
  - split_and!; try done. unfold zlen. rewrite length_replicate. lia.
  - unfold zlen. simpl. split_and!; [done|lia..].
  - unfold zlen. simpl. intros. lia.
Qed.

Lemma reachable_inv (dflt : T) n r s :
  0 ≤ n ≤ 2 ^ 63 → make_ring dflt n = Some r → reachable r s → inv (cap_ r) s.
Proof.
  intros Hn Hr Hs. destruct (make_ring_inv dflt n r Hn Hr) as [Hi _].
  clear Hn Hr. unfold reachable in Hs. revert Hi. generalize (cap_ r). intros cap Hi.
  revert Hi. induction Hs as [s|s1 s2 s3 H12 _ IH]; intros Hi; [done|]. apply IH. by eapply step_inv.
Qed.

End Invariant.

(** * Consequences *)

Section Facts.
Context {T : Type}.
Implicit Types s : sys (T:=T).

(** The steps an operation still takes, at most. *)

Definition push_left (pc : prod_pc (T:=T)) : nat :=
  match pc with PIdle => 0 | PPublish _ _ => 1 | PWrite _ _ => 2 | PReload _ _ => 3 | PStart _ => 4 end.

Definition pop_left (pc : cons_pc (T:=T)) : nat :=
  match pc with CIdle => 0 | CRelease _ _ => 1 | CRead _ => 2 | CReload _ => 3 | CStart => 4 end.

(** An operation returns exactly when its program counter becomes idle. *)
Ltac returns := split; [first [done|by intros []]|first [done|by eexists]].

Lemma push_step_progress cap s :
  inv cap s → ppc s ≠ PIdle →
  ∃ r' p' res, push_step (ring s) (ppc s) = Some (r', p', res) ∧
    (push_left p' < push_left (ppc s))%nat ∧ (is_Some res ↔ p' = PIdle).
Proof.
  intros (tc & hc & Hi) Hne. destruct Hi as [(Hc & Ec & Em & El) _ _ _ _ _ _ Hp _].
  pose proof (cap_ok_range cap Hc). pose proof (zlen_nonneg (pushed s)).
  destruct (ppc s) as [|item|item head|item head|item head]; simpl in *; [done|..].
  - eexists _, _, _. split; [done|]. destruct (looks_full _ _); simpl; split; try lia; returns.
  - destruct (looks_full _ _); eexists _, _, _; (split; [done|]); simpl; split; try lia; returns.
  - destruct Hp as [-> _]. rewrite Em, mask_index by (done || lia).
    rewrite vset_Some by (rewrite El; apply Z.mod_pos_bound; lia).
    eexists _, _, _. split; [done|]. simpl. split; [lia|]. returns.
  - eexists _, _, _. split; [done|]. simpl. split; [lia|]. returns.
Qed.

Lemma pop_step_progress cap s :
  inv cap s → cpc s ≠ CIdle →
  ∃ r' c' res, pop_step (ring s) (cpc s) = Some (r', c', res) ∧
    (pop_left c' < pop_left (cpc s))%nat ∧ (is_Some res ↔ c' = CIdle).
Proof.
  intros (tc & hc & Hi) Hne. destruct Hi as [(Hc & Ec & Em & El) _ _ _ _ _ _ _ Hq].
  pose proof (cap_ok_range cap Hc). pose proof (zlen_nonneg (popped s)).
  destruct (cpc s) as [| |tail|tail|tail out]; simpl in *; [done|..].
  - eexists _, _, _. split; [done|]. destruct (_ =? _); simpl; split; try lia; returns.
  - destruct (_ =? _); eexists _, _, _; (split; [done|]); simpl; split; try lia; returns.
  - destruct Hq as [-> _]. rewrite Em, mask_index by (done || lia).
    destruct (vget_is_Some (slots_ (ring s)) (zlen (popped s) `mod` cap)) as [x ->];
      [rewrite El; apply Z.mod_pos_bound; lia|].
    eexists _, _, _. split; [done|]. simpl. split; [lia|]. returns.
  - eexists _, _, _. split; [done|]. simpl. split; [lia|]. returns.
Qed.

(** Histories only grow. *)
Lemma step_popped s s' : step s s' → zlen (popped s) ≤ zlen (popped s').
Proof.
  intros []; simpl; try lia. destruct res as [[]|]; rewrite ?zlen_app; try lia.
  match goal with |- _ ≤ _ + zlen ?l => pose proof (zlen_nonneg l) end. lia.
Qed.

Lemma steps_popped s s' : rtc step s s' → zlen (popped s) ≤ zlen (popped s').
Proof.
  induction 1 as [|s1 s2 s3 H _ IH]; [lia|]. pose proof (step_popped _ _ H). lia.
Qed.

Lemma reachable_step r s s' : reachable r s → rtc step s s' → reachable r s'.
Proof. unfold reachable. intros. by etrans. Qed.

(** The content of the ring. *)
Lemma inv_queue cap s :
  inv cap s → pushed s = popped s ++ drop (length (popped s)) (pushed s) ∧
  0 ≤ zlen (pushed s) - zlen (popped s) ≤ cap.
Proof.
  intros (tc & hc & [_ _ _ (_ & Htc & Hle) (_ & Hhc) _ Hf _ _]). destruct Hf as [k Hk].
  rewrite Hk at 1. rewrite Hk at 1. rewrite drop_app_length. split; [done|lia].
Qed.

(** A failed operation has seen the ring full, or empty. *)
Lemma push_fails cap s r' p' :
  inv cap s → push_step (ring s) (ppc s) = Some (r', p', Some false) →
  zlen (pushed s) - zlen (popped s) = cap.
Proof.
  intros Hi E. pose proof (inv_queue _ s Hi) as [Hq Hd]. destruct Hi as (tc & hc & Hi).
  destruct Hi as [(Hc & Ec & Em & El) Hh Ht (Etc & Htc & Hle) (Ehc & Hhc) _ _ Hp Hc'].
  pose proof (cap_ok_range _ Hc).
  destruct (ppc s) as [|item|item head|item head|item head]; simpl in E; try done.
  - subst head. set (r1 := mkRing _ _ _ _ (tail_ (ring s)) _ _) in E.
    rewrite (looks_full_spec cap r1 _ (zlen (popped s))) in E by (done || lia).
    case_bool_decide; [lia|done].
  - inv_bind E. congruence.
Qed.

Lemma pop_fails cap s r' c' :
  inv cap s → pop_step (ring s) (cpc s) = Some (r', c', Some None) → pushed s = popped s.
Proof.
  intros Hi E. pose proof (inv_queue _ s Hi) as [Hq Hd]. destruct Hi as (tc & hc & Hi).
  destruct Hi as [(Hc & Ec & Em & El) Hh Ht (Etc & Htc & Hle) (Ehc & Hhc) _ _ Hp Hc'].
  pose proof (cap_ok_range _ Hc).
  destruct (cpc s) as [| |tail|tail|tail out]; simpl in E; try done.
  - subst tail. rewrite Hh in E.
    destruct (Z.eqb_spec (u64 (zlen (popped s))) (u64 (zlen (pushed s)))) as [Heq|]; [|done].
    assert (zlen (pushed s) = zlen (popped s)) by (apply u64_eq; [lia|done]).
    rewrite Hq, drop_ge, app_nil_r by (unfold zlen in *; lia). done.
  - inv_bind E. congruence.
Qed.

End Facts.

(** * Properties *)

(** C5: The ring is a bounded FIFO queue under every interleaving of producer and consumer:
    the values popped are a prefix of the values pushed, in order and without loss or
    duplication, and the values in flight never exceed the capacity. *)
Theorem spsc_fifo {T} (dflt : T) n r s :
  0 ≤ n ≤ 2 ^ 63 → make_ring dflt n = Some r → reachable r s →
  pushed s = popped s ++ drop (length (popped s)) (pushed s) ∧
  0 ≤ zlen (pushed s) - zlen (popped s) ≤ cap_ r.
Proof. intros Hn Hr Hs. by eapply inv_queue, reachable_inv. Qed.

(** Two values pushed, the first one popped, in a ring of capacity 2. *)

Definition demo_run : sys (T:=Z) :=
  mkSys (mkRing 2 1 [5; 6] 2 0 1 2) PIdle CIdle [5; 6] [5].

Definition demo_ring : SpscRing Z := mkRing 2 1 [0; 0] 0 0 0 0.

(** Runs one step of the producer or of the consumer. *)
Ltac prod_do := eapply rtc_l; [eapply step_prod; vm_compute; reflexivity|]; simpl.
Ltac cons_do := eapply rtc_l; [eapply step_cons; vm_compute; reflexivity|]; simpl.

Lemma demo_reachable : reachable demo_ring demo_run.
Proof.
  unfold reachable, sys0, demo_run.
  eapply rtc_l; [apply (step_call_push 5)|]. do 3 prod_do.
  eapply rtc_l; [apply (step_call_push 6)|]. prod_do.
  eapply rtc_l; [apply step_call_pop|]. do 2 prod_do. do 4 cons_do. apply rtc_refl.
Qed.

Lemma spsc_fifo_witness :
  reachable demo_ring demo_run ∧
  pushed demo_run = popped demo_run ++ drop (length (popped demo_run)) (pushed demo_run) ∧
  0 ≤ zlen (pushed demo_run) - zlen (popped demo_run) ≤ 2.
Proof.
  split; [exact demo_reachable|].
  apply (spsc_fifo 0 2 demo_ring demo_run); [lia|vm_compute; reflexivity|exact demo_reachable].
Defined.

(** The ring is free of data races: whenever the producer is about to write a slot and
    the consumer is about to read one, the two slots differ, and both are inside the
    vector. *)
Theorem spsc_race_free {T} (dflt : T) n r s item head tail :
  0 ≤ n ≤ 2 ^ 63 → make_ring dflt n = Some r → reachable r s →
  ppc s = PWrite item head → cpc s = CRead tail →
  Z.land head (mask_ (ring s)) ≠ Z.land tail (mask_ (ring s)) ∧
  0 ≤ Z.land head (mask_ (ring s)) < zlen (slots_ (ring s)) ∧
  0 ≤ Z.land tail (mask_ (ring s)) < zlen (slots_ (ring s)).
Proof.
  intros Hn Hr Hs Ep Eq. destruct (reachable_inv dflt n r s Hn Hr Hs) as (tc & hc & Hi).
  destruct Hi as [(Hc & Ec & Em & El) _ _ (_ & Htc & _) (_ & Hhc) _ _ Hp Hq]. rewrite Ep in Hp. rewrite Eq in Hq.
  destruct Hp as [-> Hlt], Hq as [-> Hlt']. pose proof (cap_ok_range _ Hc).
  pose proof (zlen_nonneg (popped s)). rewrite Em, El, !mask_index by (done || lia).
  split_and!; [apply not_eq_sym, slot_inj; lia|apply Z.mod_pos_bound; lia..].
Qed.

Definition demo_race : sys (T:=Z) :=
  mkSys (mkRing 2 1 [5; 0] 1 0 0 1) (PWrite 6 1) (CRead 0) [5] [].

Lemma spsc_race_free_witness :
  reachable demo_ring demo_race ∧
  Z.land 1 (mask_ (ring demo_race)) ≠ Z.land 0 (mask_ (ring demo_race)).
Proof.
  assert (H : reachable demo_ring demo_race).
  { unfold reachable, sys0, demo_race. eapply rtc_l; [apply (step_call_push 5)|]. do 3 prod_do.
    eapply rtc_l; [apply (step_call_push 6)|]. prod_do.
    eapply rtc_l; [apply step_call_pop|]. do 2 cons_do. apply rtc_refl. }
  split; [exact H|].
  apply (spsc_race_free 0 2 demo_ring demo_race 6 1 0);
    [lia|vm_compute; reflexivity|exact H|reflexivity|reflexivity].
Defined.

(** C33: Both operations are wait-free: in every reachable state an operation under way can
    take its next step, every step brings it closer to its end (at most four steps in all,
    whatever the other side does), and it returns exactly when it ends. *)
Theorem spsc_wait_free {T} (dflt : T) n r s :
  0 ≤ n ≤ 2 ^ 63 → make_ring dflt n = Some r → reachable r s →
  (ppc s ≠ PIdle → ∃ r' p' res, push_step (ring s) (ppc s) = Some (r', p', res) ∧
     (push_left p' < push_left (ppc s) ≤ 4)%nat ∧ (is_Some res ↔ p' = PIdle)) ∧
  (cpc s ≠ CIdle → ∃ r' c' res, pop_step (ring s) (cpc s) = Some (r', c', res) ∧
     (pop_left c' < pop_left (cpc s) ≤ 4)%nat ∧ (is_Some res ↔ c' = CIdle)).
Proof.
  intros Hn Hr Hs. pose proof (reachable_inv dflt n r s Hn Hr Hs) as Hi. split; intros Hne.
  - destruct (push_step_progress _ s Hi Hne) as (r' & p' & res & E & Hl & Hres).
    exists r', p', res. split_and!; try done; try apply Hres. destruct (ppc s); simpl; lia.
  - destruct (pop_step_progress _ s Hi Hne) as (r' & c' & res & E & Hl & Hres).
    exists r', c', res. split_and!; try done; try apply Hres. destruct (cpc s); simpl; lia.
Qed.

Lemma spsc_wait_free_witness :
  ∃ r' p' res, push_step (mkRing 2 1 [5; 0] 1 0 0 1) (PWrite 6 1) = Some (r', p', res) ∧
    (push_left p' < push_left (PWrite 6 1) ≤ 4)%nat ∧ (is_Some res ↔ p' = PIdle).
Proof.
  assert (H : reachable demo_ring demo_race).
  { unfold reachable, sys0, demo_race. eapply rtc_l; [apply (step_call_push 5)|]. do 3 prod_do.
    eapply rtc_l; [apply (step_call_push 6)|]. prod_do.
    eapply rtc_l; [apply step_call_pop|]. do 2 cons_do. apply rtc_refl. }
  apply (spsc_wait_free 0 2 demo_ring demo_race); [lia|vm_compute; reflexivity|exact H|discriminate].
Defined.

(** The failures are exact: [push] returns [false] only at a moment when the ring holds
    [capacity()] values, and [pop] returns [false] only at a moment when it is empty. *)
Theorem spsc_failures_exact {T} (dflt : T) n r s :
  0 ≤ n ≤ 2 ^ 63 → make_ring dflt n = Some r → reachable r s →
  (∀ r' p', push_step (ring s) (ppc s) = Some (r', p', Some false) →
     zlen (pushed s) - zlen (popped s) = cap_ r) ∧
  (∀ r' c', pop_step (ring s) (cpc s) = Some (r', c', Some None) → pushed s = popped s).
Proof.
  intros Hn Hr Hs. pose proof (reachable_inv dflt n r s Hn Hr Hs) as Hi.
  split; intros; [by eapply push_fails|by eapply pop_fails].
Qed.

(** A second push into a ring whose two slots are taken. *)
Lemma spsc_failures_exact_witness :
  ∃ s, reachable demo_ring s ∧ (∃ r' p', push_step (ring s) (ppc s) = Some (r', p', Some false)) ∧
    zlen (pushed s) - zlen (popped s) = 2.
Proof.
  pose (s := mkSys (mkRing 2 1 [5; 6] 2 0 0 0) (PReload 7 2) CIdle [5; 6] ([] : list Z)).
  assert (H : reachable demo_ring s).
  { unfold reachable, sys0, s. eapply rtc_l; [apply (step_call_push 5)|]. do 3 prod_do.
    eapply rtc_l; [apply (step_call_push 6)|]. do 3 prod_do.
    eapply rtc_l; [apply (step_call_push 7)|]. prod_do. apply rtc_refl. }
  exists s. split; [exact H|]. split; [eexists _, _; vm_compute; reflexivity|].
  eapply (proj1 (spsc_failures_exact 0 2 demo_ring s ltac:(lia) ltac:(vm_compute; reflexivity) H)).
  vm_compute. reflexivity.
Defined.

(** [size_approx] cannot underflow.  If it loads [tail_] in one state and [head_] in a
    later one, however the threads ran in between, the result is the number of pushes
    completed at the second load less the pops completed at the first: never negative and
    never wrapped while fewer than 2^64 values have been pushed. *)
Theorem size_approx_no_underflow {T} (dflt : T) n r s1 s2 :
  0 ≤ n ≤ 2 ^ 63 → make_ring dflt n = Some r → reachable r s1 → rtc step s1 s2 →
  zlen (pushed s2) < 2 ^ 64 →
  size_approx (tail_ (ring s1)) (head_ (ring s2)) = zlen (pushed s2) - zlen (popped s1) ∧
  0 ≤ zlen (pushed s2) - zlen (popped s1).
Proof.
  intros Hn Hr H1 H12 Hlt. pose proof (reachable_inv dflt n r s1 Hn Hr H1) as I1.
  pose proof (reachable_inv dflt n r s2 Hn Hr (reachable_step r s1 s2 H1 H12)) as I2.
  pose proof (steps_popped s1 s2 H12). pose proof (inv_queue _ s2 I2) as [_ Hd].
  pose proof (zlen_nonneg (popped s1)). destruct I1 as (? & ? & I1), I2 as (? & ? & I2).
  unfold size_approx. rewrite (ri_tail _ _ _ _ I1), (ri_head _ _ _ _ I2), u64_diff by lia. lia.
Qed.

Lemma size_approx_no_underflow_witness :
  size_approx (tail_ (ring (sys0 demo_ring))) (head_ (ring demo_run)) = 2.
Proof.
  apply (size_approx_no_underflow 0 2 demo_ring (sys0 demo_ring) demo_run);
    [lia|vm_compute; reflexivity|apply rtc_refl|exact demo_reachable|vm_compute; reflexivity].
Defined.

(** The capacity is rounded up to a power of two: for every request up to 2^63 the loop
    ends, and the result is the least power of two that is at least the request and 2. *)
Theorem round_up_pow2_least n :
  0 ≤ n ≤ 2 ^ 63 →
  ∃ k, round_up_pow2 n = Some (2 ^ k) ∧ 1 ≤ k ≤ 63 ∧ n ≤ 2 ^ k ∧
    ∀ j, 1 ≤ j → n ≤ 2 ^ j → 2 ^ k ≤ 2 ^ j.
Proof.
  intros Hn. destruct (round_up_pow2_spec n Hn) as (cap & E & (k & Hk & ->) & Hle & Hs).
  exists k. split_and!; [done|lia..|]. intros j Hj Hnj. destruct Hs as [Hs|Hs].
  - apply Z.pow_le_mono_r; [lia|]. destruct (decide (k ≤ j)); [done|].
    assert (2 ^ (j + 1) ≤ 2 ^ k) by (apply Z.pow_le_mono_r; lia).
    rewrite Z.pow_add_r in * by lia. lia.
  - rewrite Hs. change 2 with (2 ^ 1) at 1. apply Z.pow_le_mono_r; lia.
Qed.

Lemma round_up_pow2_least_witness :
  ∃ k, round_up_pow2 1000 = Some (2 ^ k) ∧ 1 ≤ k ≤ 63 ∧ 1000 ≤ 2 ^ k ∧
    ∀ j, 1 ≤ j → 1000 ≤ 2 ^ j → 2 ^ k ≤ 2 ^ j.
Proof. apply (round_up_pow2_least 1000). lia. Defined.
