(* ===== verification/RingQueue.v ===== *)
(** The ring used from one thread (include/core/spsc_ring.hpp): whole calls of [push], [pop],
    [size_approx] and [empty_approx] implement a bounded queue.  The abstract queue is a list
    with a capacity; a ring represents a queue when it is an idle state of the interleaving
    semantics whose pushed values are the popped ones and the queue. *)
From S2P Require Export SpscRing.

(** * The abstract queue *)

Inductive qop (T : Type) : Type := QPush (x : T) | QPop | QSize | QEmpty.

Arguments QPush {T} x.
Arguments QPop {T}.
Arguments QSize {T}.
Arguments QEmpty {T}.

Inductive qres (T : Type) : Type := RPushed (ok : bool) | RPopped (out : option T) | RSize (n : Z) | REmpty (b : bool).

Arguments RPushed {T} ok.
Arguments RPopped {T} out.
Arguments RSize {T} n.
Arguments REmpty {T} b.

Section Queue.
Context {T : Type}.

Definition queue_op (cap : Z) (q : list T) (o : qop T) : list T * qres T :=
  match o with
  | QPush x => if zlen q <? cap then (q ++ [x], RPushed true) else (q, RPushed false)
  | QPop => match q with [] => ([], RPopped None) | x :: q => (q, RPopped (Some x)) end
  | QSize => (q, RSize (zlen q))
  | QEmpty => (q, REmpty (bool_decide (q = [])))
  end.

(** The same calls on the ring. *)

Definition ring_op (r : SpscRing T) (o : qop T) : option (SpscRing T * qres T) :=
  match o with
  | QPush x => '(r, b) ← push r x; Some (r, RPushed b)
  | QPop => '(r, o) ← pop r; Some (r, RPopped o)
  | QSize => Some (r, RSize (size_approx (tail_ r) (head_ r)))
  | QEmpty => Some (r, REmpty (empty_approx (tail_ r) (head_ r)))
  end.

Fixpoint queue_ops (cap : Z) (q : list T) (os : list (qop T)) : list T * list (qres T) :=
  match os with
  | [] => (q, [])
  | o :: os => let '(q, x) := queue_op cap q o in let '(q, xs) := queue_ops cap q os in (q, x :: xs)
  end.

Fixpoint ring_ops (r : SpscRing T) (os : list (qop T)) : option (SpscRing T * list (qres T)) :=
  match os with
  | [] => Some (r, [])
  | o :: os => '(r, x) ← ring_op r o; '(r, xs) ← ring_ops r os; Some (r, x :: xs)
  end.

(** * The representation *)

Definition represents (cap : Z) (r : SpscRing T) (q : list T) : Prop :=
  ∃ ho, inv cap (mkSys r PIdle CIdle (ho ++ q) ho).

(** The value a push is about. *)

Definition pc_item (p : prod_pc (T:=T)) : list T :=
  match p with PIdle => [] | PStart x | PReload x _ | PWrite x _ | PPublish x _ => [x] end.

(** What a step of [push] leaves: the same value, or the result. *)
Lemma push_step_item r p r' p' res :
  push_step r p = Some (r', p', res) → p ≠ PIdle →
  match res with None => pc_item p' = pc_item p | Some true => push_item p = pc_item p | Some false => True end.
Proof.
  intros E Hp. destruct p as [|x|x h|x h|x h]; simpl in E; [done|..].
  - injection E as <- <- <-. by destruct (looks_full _ _).
  - by destruct (looks_full _ _); injection E as <- <- <-.
  - inv_bind E. by injection E as <- <- <-.
  - by injection E as <- <- <-.
Qed.

Lemma push_run_spec cap fuel r p c (hi ho : list T) :
  inv cap (mkSys r p c hi ho) → p ≠ PIdle → (push_left p ≤ fuel)%nat →
  ∃ r' b, push_run fuel r p = Some (r', b) ∧ inv cap (mkSys r' PIdle c (if (b : bool) then hi ++ pc_item p else hi) ho) ∧
    (b = false → zlen hi - zlen ho = cap).
Proof.
  revert r p. induction fuel as [|fuel IH]; intros r p Hi Hp Hf; [destruct p; simpl in Hf; done || lia|].
  destruct (push_step_progress cap _ Hi Hp) as (r' & p' & res & E & Hl & Hres). cbn [ring ppc] in *.
  pose proof (step_inv _ _ _ Hi (step_prod r p c hi ho r' p' res E)) as Hi'. pose proof (push_step_item _ _ _ _ _ E Hp) as Hitem.
  cbn [push_run]. rewrite E. cbn [mbind option_bind]. destruct res as [b|].
  - assert (p' = PIdle) as -> by (apply Hres; by eexists). exists r', b. split; [done|]. split.
    + destruct b; [by rewrite Hitem in Hi'|done].
    + intros ->. exact (push_fails cap _ r' PIdle Hi E).
  - assert (p' ≠ PIdle) by (intros Hx; destruct Hres as [_ Hres]; by destruct (Hres Hx)).
    destruct (IH r' p') as (r2 & b & E2 & Hi2 & Hb); [done|done|lia|]. exists r2, b. by rewrite <- Hitem.
Qed.

Lemma pop_run_spec cap fuel r p c (hi ho : list T) :
  inv cap (mkSys r p c hi ho) → c ≠ CIdle → (pop_left c ≤ fuel)%nat →
  ∃ r' o, pop_run fuel r c = Some (r', o) ∧
    inv cap (mkSys r' p CIdle hi (match o with Some x => ho ++ [x] | None => ho end)) ∧ (o = None → hi = ho).
Proof.
  revert r c. induction fuel as [|fuel IH]; intros r c Hi Hc Hf; [destruct c; simpl in Hf; done || lia|].
  destruct (pop_step_progress cap _ Hi Hc) as (r' & c' & res & E & Hl & Hres). cbn [ring cpc] in *.
  pose proof (step_inv _ _ _ Hi (step_cons r p c hi ho r' c' res E)) as Hi'.
  cbn [pop_run]. rewrite E. cbn [mbind option_bind]. destruct res as [o|].
  - assert (c' = CIdle) as -> by (apply Hres; by eexists). exists r', o. split; [done|]. split; [by destruct o|].
    intros ->. exact (pop_fails cap _ r' CIdle Hi E).
  - assert (c' ≠ CIdle) by (intros Hx; destruct Hres as [_ Hres]; by destruct (Hres Hx)).
    by apply IH; [| |lia].
Qed.

(** * Simulation *)

Lemma ring_op_sim cap r q o :
  represents cap r q → ∃ r', ring_op r o = Some (r', (queue_op cap q o).2) ∧ represents cap r' (queue_op cap q o).1.
Proof.
  intros [ho Hi]. destruct (inv_queue _ _ Hi) as [_ Hz]. cbn [pushed popped] in Hz. rewrite zlen_app in Hz.
  destruct o as [x| | |]; cbn [ring_op queue_op].
  - destruct (push_run_spec cap 4 r (PStart x) CIdle (ho ++ q) ho) as (r' & b & E & Hi' & Hb);
      [exact (step_inv _ _ _ Hi (step_call_push x _ _ _ _))|done|done|].
    unfold push. rewrite E. cbn [mbind option_bind]. destruct (inv_queue _ _ Hi') as [_ Hz']. cbn [pushed popped] in Hz'.
    destruct b.
    + rewrite !zlen_app in Hz'. change (zlen (pc_item (PStart x))) with 1 in Hz'. destruct (Z.ltb_spec (zlen q) cap); [|lia].
      exists r'. split; [done|]. exists ho. cbn [fst]. by rewrite app_assoc.
    + specialize (Hb eq_refl). rewrite zlen_app in Hb. destruct (Z.ltb_spec (zlen q) cap); [lia|]. exists r'. split; [done|]. by exists ho.
  - destruct (pop_run_spec cap 4 r PIdle CStart (ho ++ q) ho) as (r' & o & E & Hi' & Hn);
      [exact (step_inv _ _ _ Hi (step_call_pop _ _ _ _))|done|done|].
    unfold pop. rewrite E. cbn [mbind option_bind]. destruct o as [x|].
    + destruct (inv_queue _ _ Hi') as [Hq _]. cbn [pushed popped] in Hq. rewrite <- app_assoc in Hq. apply app_inv_head in Hq.
      destruct q as [|y q]; [done|]. injection Hq as -> Hq. exists r'. split; [done|]. exists (ho ++ [x]). cbn [fst]. by rewrite <- app_assoc.
    + specialize (Hn eq_refl). rewrite <- (app_nil_r ho) in Hn at 2. apply app_inv_head in Hn as ->.
      exists r'. split; [done|]. by exists ho.
  - exists r. split; [|by exists ho]. destruct Hi as (tc & hc & [(Hc & _) Hh Ht _ _ _ _ _ _]). cbn [ring pushed popped] in *.
    pose proof (cap_ok_range _ Hc). unfold size_approx. rewrite Hh, Ht, u64_diff; rewrite zlen_app; [|lia].
    by replace (zlen ho + zlen q - zlen ho) with (zlen q) by lia.
  - exists r. split; [|by exists ho]. destruct Hi as (tc & hc & [(Hc & _) Hh Ht _ _ _ _ _ _]). cbn [ring pushed popped] in *.
    pose proof (cap_ok_range _ Hc). unfold empty_approx, size_approx. rewrite Hh, Ht, u64_diff; rewrite zlen_app; [|lia].
    replace (zlen ho + zlen q - zlen ho) with (zlen q) by lia. destruct q as [|x q]; [done|]. rewrite bool_decide_eq_false_2 by done.
    rewrite zlen_cons. pose proof (zlen_nonneg q). destruct (Z.eqb_spec (zlen q + 1) 0); [lia|done].
Qed.

Lemma ring_ops_sim cap r q os :
  represents cap r q → ∃ r', ring_ops r os = Some (r', (queue_ops cap q os).2) ∧ represents cap r' (queue_ops cap q os).1.
Proof.
  revert r q. induction os as [|o os IH]; intros r q Hr; [by exists r|]. cbn [ring_ops queue_ops].
  destruct (ring_op_sim cap r q o Hr) as (r1 & -> & Hr1). cbn [mbind option_bind]. destruct (queue_op cap q o) as [q1 x]. simpl in Hr1.
  destruct (IH r1 q1 Hr1) as (r2 & -> & Hr2). cbn [mbind option_bind]. destruct (queue_ops cap q1 os) as [q2 xs]. by exists r2.
Qed.

End Queue.

(** C11: the ring refines the bounded queue.  A ring made for [n] values, used by any sequence of
    calls one after the other, is defined and returns what a queue of its capacity returns (a push
    fails exactly when the queue is full and a pop exactly when it is empty, sizes are exact), and
    its capacity is at least [n]; the wrap-around of the counters and the masked slot index are
    not observable. *)
Theorem ring_refines_queue {T} (dflt : T) n r os :
  0 ≤ n ≤ 2 ^ 63 → make_ring dflt n = Some r →
  n ≤ cap_ r ∧ ∃ r', ring_ops r os = Some (r', (queue_ops (cap_ r) [] os).2) ∧ represents (cap_ r) r' (queue_ops (cap_ r) [] os).1.
Proof.
  intros Hn Hr. destruct (make_ring_inv dflt n r Hn Hr) as [Hi Hc]. split; [done|]. apply ring_ops_sim. by exists [].
Qed.

(** Three pushes into a ring of two slots, and the values back. *)
Lemma ring_refines_queue_witness :
  ∃ r r', make_ring 0 2 = Some r ∧
    ring_ops r [QPush 5; QPush 6; QPush 7; QSize; QPop; QPush 8; QPop; QPop; QPop; QEmpty] =
      Some (r', [RPushed true; RPushed true; RPushed false; RSize 2; RPopped (Some 5); RPushed true; RPopped (Some 6);
                 RPopped (Some 8); RPopped None; REmpty true]).
Proof.
  exists (mkRing 2 1 [0; 0] 0 0 0 0).
  destruct (ring_refines_queue 0 2 (mkRing 2 1 [0; 0] 0 0 0 0)
    [QPush 5; QPush 6; QPush 7; QSize; QPop; QPush 8; QPop; QPop; QPop; QEmpty]) as (_ & r' & E & _).
  - lia.
  - vm_compute. reflexivity.
  - exists r'. split; [vm_compute; reflexivity|exact E].
Defined.
