(* ===== verification/WeakRing.v ===== *)
(** The ring of include/core/spsc_ring.hpp under the release/acquire part of the C++ memory
    model.  Every atomic has the list of its stores in modification order; a load may return
    any store that is not older than what its thread already knows of, so values can be stale.
    A release store attaches the knowledge of its thread and an acquire load takes it over.
    The slots are plain memory: an access that is not ordered after the conflicting ones by
    happens-before is a data race, which is undefined behaviour.  Happens-before is tracked by
    a vector clock of the two threads, as race detectors do.

    The memory orders are arguments of the steps, so that the source's choice of orders can be
    compared with weaker ones. *)
From S2P Require Export SpscRing.

(** * Memory orders and views *)

Inductive order : Set := Relaxed | Acquire | Release.

#[global] Instance order_eq_dec : EqDecision order.
Proof. solve_decision. Defined.

Inductive tid : Set := Producer | Consumer.

(** The atomics: [head_], [tail_], and [producing] of the pipelines. *)

Inductive loc : Set := LHead | LTail | LFlag.

(** What a thread knows: a clock per thread and, per atomic, the position of the newest store
    it has seen. *)

Record view := mkView { v_prod : Z; v_cons : Z; v_head : Z; v_tail : Z; v_flag : Z }.

Definition view0 : view := mkView 0 0 0 0 0.

Definition join (v w : view) : view :=
  mkView (Z.max (v_prod v) (v_prod w)) (Z.max (v_cons v) (v_cons w)) (Z.max (v_head v) (v_head w))
    (Z.max (v_tail v) (v_tail w)) (Z.max (v_flag v) (v_flag w)).

Definition seen (v : view) (l : loc) : Z :=
  match l with LHead => v_head v | LTail => v_tail v | LFlag => v_flag v end.

Definition see (v : view) (l : loc) (i : Z) : view :=
  match l with
  | LHead => mkView (v_prod v) (v_cons v) i (v_tail v) (v_flag v)
  | LTail => mkView (v_prod v) (v_cons v) (v_head v) i (v_flag v)
  | LFlag => mkView (v_prod v) (v_cons v) (v_head v) (v_tail v) i
  end.

Definition clock (t : tid) (v : view) : Z := match t with Producer => v_prod v | Consumer => v_cons v end.

Definition tick (t : tid) (v : view) : view :=
  match t with
  | Producer => mkView (v_prod v + 1) (v_cons v) (v_head v) (v_tail v) (v_flag v)
  | Consumer => mkView (v_prod v) (v_cons v + 1) (v_head v) (v_tail v) (v_flag v)
  end.

(** * Memory *)

(** A slot with the clocks of its last write and its last read by either thread. *)

Record cell (T : Type) := mkCell { c_val : T; w_prod : Z; w_cons : Z; r_prod : Z; r_cons : Z }.

Arguments mkCell {T} _ _ _ _ _.
Arguments c_val {T} _.
Arguments w_prod {T} _.
Arguments w_cons {T} _.
Arguments r_prod {T} _.
Arguments r_cons {T} _.

(** The stores of an atomic, oldest first, each with its message view. *)

Definition history : Type := list (Z * view).

Record mem (T : Type) := mkMem { cells : list (cell T); h_head : history; h_tail : history; h_flag : history }.

Arguments mkMem {T} _ _ _ _.
Arguments cells {T} _.
Arguments h_head {T} _.
Arguments h_tail {T} _.
Arguments h_flag {T} _.

Section Memory.
Context {T : Type}.

Definition stores (m : mem T) (l : loc) : history :=
  match l with LHead => h_head m | LTail => h_tail m | LFlag => h_flag m end.

Definition set_stores (m : mem T) (l : loc) (h : history) : mem T :=
  match l with
  | LHead => mkMem (cells m) h (h_tail m) (h_flag m)
  | LTail => mkMem (cells m) (h_head m) h (h_flag m)
  | LFlag => mkMem (cells m) (h_head m) (h_tail m) h
  end.

(** An atomic load that returns store [i]; [None] if the thread may not read it. *)

Definition load (o : order) (m : mem T) (l : loc) (v : view) (i : Z) : option (Z * view) :=
  if seen v l <=? i then
    s ← (stores m l).[i];
    let v := see v l i in
    Some (s.1, if decide (o = Acquire) then join v s.2 else v)
  else None.

(** An atomic store by the only thread that writes [l]. *)

Definition store (o : order) (t : tid) (m : mem T) (l : loc) (v : view) (x : Z) : mem T * view :=
  let i := zlen (stores m l) in
  let v := see v l i in
  let msg := if decide (o = Release) then v else see view0 l i in
  (set_stores m l (stores m l ++ [(x, msg)]), tick t v).

(** Plain accesses: [None] is a data race or an index outside. *)

Definition na_write (t : tid) (m : mem T) (v : view) (k : Z) (x : T) : option (mem T) :=
  c ← (cells m).[k];
  if (w_prod c <=? v_prod v) && (w_cons c <=? v_cons v) && (r_prod c <=? v_prod v) && (r_cons c <=? v_cons v) then
    let c := match t with
             | Producer => mkCell x (v_prod v) (w_cons c) (r_prod c) (r_cons c)
             | Consumer => mkCell x (w_prod c) (v_cons v) (r_prod c) (r_cons c)
             end in
    cs ← (cells m).[k <- c];
    Some (mkMem cs (h_head m) (h_tail m) (h_flag m))
  else None.

Definition na_read (t : tid) (m : mem T) (v : view) (k : Z) : option (T * mem T) :=
  c ← (cells m).[k];
  if (w_prod c <=? v_prod v) && (w_cons c <=? v_cons v) then
    let c' := match t with
              | Producer => mkCell (c_val c) (w_prod c) (w_cons c) (v_prod v) (r_cons c)
              | Consumer => mkCell (c_val c) (w_prod c) (w_cons c) (r_prod c) (v_cons v)
              end in
    cs ← (cells m).[k <- c'];
    Some (c_val c, mkMem cs (h_head m) (h_tail m) (h_flag m))
  else None.

End Memory.

(** * The operations *)

(** The orders of the six atomic accesses of [push] and [pop]. *)

Record orders := mkOrders {
  o_head_own : order;
  o_tail_reload : order;
  o_publish : order;
  o_tail_own : order;
  o_head_reload : order;
  o_release : order;
}.

Definition ring_orders : orders := mkOrders Relaxed Acquire Release Relaxed Acquire Release.

(** A step that the chosen store allows either goes on or is undefined. *)

Inductive outcome (A : Type) : Type := UB | Ret (a : A).

Arguments UB {A}.
Arguments Ret {A} _.

(** A thread: its view and its private copy of the other counter. *)

Record wthread := mkTh { th_view : view; th_cache : Z }.

Section Ops.
Context {T : Type} (o : orders) (cap : Z).
Implicit Types m : mem T.

Definition w_full (cache head : Z) : bool := cap <? u64 (u64 (head + 1) - cache).

(** One step of [push]; [i] is the store that the load of the step returns. *)

Definition wpush_step m (th : wthread) (pc : prod_pc (T:=T)) (i : Z) :
    option (outcome (mem T * wthread * prod_pc (T:=T) * option bool)) :=
  match pc with
  | PIdle => None
  | PStart item =>
      r ← load (o_head_own o) m LHead (th_view th) i;
      let head := r.1 in
      Some (Ret (m, mkTh r.2 (th_cache th), if w_full (th_cache th) head then PReload item head else PWrite item head, None))
  | PReload item head =>
      r ← load (o_tail_reload o) m LTail (th_view th) i;
      let th := mkTh r.2 r.1 in
      Some (Ret (if w_full r.1 head then (m, th, PIdle, Some false) else (m, th, PWrite item head, None)))
  | PWrite item head =>
      Some (match na_write Producer m (th_view th) (Z.land head (cap - 1)) item with
            | Some m => Ret (m, th, PPublish item head, None)
            | None => UB
            end)
  | PPublish item head =>
      let '(m, v) := store (o_publish o) Producer m LHead (th_view th) (u64 (head + 1)) in
      Some (Ret (m, mkTh v (th_cache th), PIdle, Some true))
  end.

Definition wpop_step m (th : wthread) (pc : cons_pc (T:=T)) (i : Z) :
    option (outcome (mem T * wthread * cons_pc (T:=T) * option (option T))) :=
  match pc with
  | CIdle => None
  | CStart =>
      r ← load (o_tail_own o) m LTail (th_view th) i;
      let tail := r.1 in
      Some (Ret (m, mkTh r.2 (th_cache th), if tail =? th_cache th then CReload tail else CRead tail, None))
  | CReload tail =>
      r ← load (o_head_reload o) m LHead (th_view th) i;
      let th := mkTh r.2 r.1 in
      Some (Ret (if tail =? r.1 then (m, th, CIdle, Some None) else (m, th, CRead tail, None)))
  | CRead tail =>
      Some (match na_read Consumer m (th_view th) (Z.land tail (cap - 1)) with
            | Some (out, m) => Ret (m, th, CRelease tail out, None)
            | None => UB
            end)
  | CRelease tail out =>
      let '(m, v) := store (o_release o) Consumer m LTail (th_view th) (u64 (tail + 1)) in
      Some (Ret (m, mkTh v (th_cache th), CIdle, Some (Some out)))
  end.

End Ops.

(** * Executions *)

Record wsys (T : Type) := mkW {
  y_mem : mem T;
  y_prod : wthread;
  y_ppc : prod_pc (T:=T);
  y_cons : wthread;
  y_cpc : cons_pc (T:=T);
  y_pushed : list T;
  y_popped : list T;
}.

Arguments mkW {T} _ _ _ _ _ _ _.
Arguments y_mem {T} _.
Arguments y_prod {T} _.
Arguments y_ppc {T} _.
Arguments y_cons {T} _.
Arguments y_cpc {T} _.
Arguments y_pushed {T} _.
Arguments y_popped {T} _.

Section Executions.
Context {T : Type} (o : orders) (cap : Z).

(** The constructor runs before the threads exist, so its writes happen before everything. *)

Definition wmem0 (dflt : T) : mem T :=
  mkMem (replicate (Z.to_nat cap) (mkCell dflt 0 0 0 0)) [(0, view0)] [(0, view0)] [(1, view0)].

Definition wsys0 (dflt : T) : wsys T :=
  mkW (wmem0 dflt) (mkTh (tick Producer view0) 0) PIdle (mkTh (tick Consumer view0) 0) CIdle [] [].

Inductive wstep : wsys T → wsys T → Prop :=
  | wstep_call_push item m p c cpc hi ho :
      wstep (mkW m p PIdle c cpc hi ho) (mkW m p (PStart item) c cpc hi ho)
  | wstep_prod i m p pc c cpc hi ho m' p' pc' res :
      wpush_step o cap m p pc i = Some (Ret (m', p', pc', res)) →
      wstep (mkW m p pc c cpc hi ho)
            (mkW m' p' pc' c cpc (match res with Some true => hi ++ push_item pc | _ => hi end) ho)
  | wstep_call_pop m p ppc c hi ho :
      wstep (mkW m p ppc c CIdle hi ho) (mkW m p ppc c CStart hi ho)
  | wstep_cons i m p ppc c pc hi ho m' c' pc' res :
      wpop_step o cap m c pc i = Some (Ret (m', c', pc', res)) →
      wstep (mkW m p ppc c pc hi ho)
            (mkW m' p ppc c' pc' hi (match res with Some (Some x) => ho ++ [x] | _ => ho end)).

Definition wreachable (dflt : T) (s : wsys T) : Prop := rtc wstep (wsys0 dflt) s.

(** Some step that the memory allows is a data race or leaves the slots. *)

Definition undefined (s : wsys T) : Prop :=
  ∃ i, wpush_step o cap (y_mem s) (y_prod s) (y_ppc s) i = Some UB ∨
       wpop_step o cap (y_mem s) (y_cons s) (y_cpc s) i = Some UB.

End Executions.

(** * The invariant *)

(** A view that knows of nothing beyond [P] pushes, [Q] pops and [F] signals. *)

Definition vbound (P Q F : Z) (v : view) : Prop :=
  v_prod v ≤ P + 1 ∧ v_cons v ≤ Q + 1 ∧ v_head v ≤ P ∧ v_tail v ≤ Q ∧ v_flag v ≤ F.

Section Invariant.
Context {T : Type}.
Implicit Types m : mem T.
Implicit Types hi ho : list T.

(** The stores to the flag after its initialisation. *)

Definition signals m : Z := zlen (h_flag m) - 1.

(** Store [i] of a counter has value [i], and its message knows the [i] operations before. *)

Definition hist_ok (N : Z) (know : view → Z) (l : loc) (P Q F : Z) (h : history) : Prop :=
  zlen h = N + 1 ∧ ∀ i, 0 ≤ i ≤ N → ∃ w, h.[i] = Some (u64 i, w) ∧ i ≤ know w ∧ i ≤ seen w l ∧ vbound P Q F w.

Definition heads_ok (P Q F : Z) : history → Prop := hist_ok P v_prod LHead P Q F.

Definition tails_ok (P Q F : Z) : history → Prop := hist_ok Q v_cons LTail P Q F.

(** The reads of a slot are pops of values that were in it. *)

Definition cell_ok (cap P Q k : Z) (c : cell T) : Prop :=
  w_cons c = 0 ∧ r_prod c = 0 ∧ w_prod c ≤ P + 1 ∧
  (r_cons c = 0 ∨ 0 ≤ r_cons c - 1 < P ∧ (r_cons c - 1) `mod` cap = k).

Record winv (cap : Z) (s : wsys T) (tc hc : Z) : Prop := {
  wi_cap : cap_ok cap ∧ zlen (cells (y_mem s)) = cap;
  wi_heads : heads_ok (zlen (y_pushed s)) (zlen (y_popped s)) (signals (y_mem s)) (h_head (y_mem s));
  wi_tails : tails_ok (zlen (y_pushed s)) (zlen (y_popped s)) (signals (y_mem s)) (h_tail (y_mem s));
  wi_cells : ∀ k c, (cells (y_mem s)).[k] = Some c → cell_ok cap (zlen (y_pushed s)) (zlen (y_popped s)) k c;
  wi_slots : ∀ i, zlen (y_popped s) ≤ i < zlen (y_pushed s) →
    ∃ c, (cells (y_mem s)).[i `mod` cap] = Some c ∧ Some (c_val c) = (y_pushed s).[i] ∧ w_prod c ≤ i + 1;
  wi_prod : vbound (zlen (y_pushed s)) (zlen (y_popped s)) (signals (y_mem s)) (th_view (y_prod s)) ∧
    v_prod (th_view (y_prod s)) = zlen (y_pushed s) + 1 ∧ v_head (th_view (y_prod s)) = zlen (y_pushed s) ∧
    th_cache (y_prod s) = u64 tc ∧ 0 ≤ tc ≤ zlen (y_popped s) ∧ zlen (y_pushed s) ≤ tc + cap ∧
    tc ≤ v_cons (th_view (y_prod s)) ∧ tc ≤ v_tail (th_view (y_prod s)) ∧ 0 ≤ v_cons (th_view (y_prod s));
  wi_cons : vbound (zlen (y_pushed s)) (zlen (y_popped s)) (signals (y_mem s)) (th_view (y_cons s)) ∧
    v_cons (th_view (y_cons s)) = zlen (y_popped s) + 1 ∧ v_tail (th_view (y_cons s)) = zlen (y_popped s) ∧
    th_cache (y_cons s) = u64 hc ∧ zlen (y_popped s) ≤ hc ≤ zlen (y_pushed s) ∧
    hc ≤ v_prod (th_view (y_cons s)) ∧ hc ≤ v_head (th_view (y_cons s)) ∧ 0 ≤ v_prod (th_view (y_cons s));
  wi_fifo : y_popped s `prefix_of` y_pushed s;
  wi_ppc : match y_ppc s with
    | PIdle | PStart _ => True
    | PReload _ head => head = u64 (zlen (y_pushed s))
    | PWrite _ head => head = u64 (zlen (y_pushed s)) ∧ zlen (y_pushed s) < tc + cap
    | PPublish item head => head = u64 (zlen (y_pushed s)) ∧ zlen (y_pushed s) < tc + cap ∧
        ∃ c, (cells (y_mem s)).[zlen (y_pushed s) `mod` cap] = Some c ∧ c_val c = item ∧ w_prod c ≤ zlen (y_pushed s) + 1
    end;
  wi_cpc : match y_cpc s with
    | CIdle | CStart => True
    | CReload tail => tail = u64 (zlen (y_popped s))
    | CRead tail => tail = u64 (zlen (y_popped s)) ∧ zlen (y_popped s) < hc
    | CRelease tail out => tail = u64 (zlen (y_popped s)) ∧ zlen (y_popped s) < hc ∧ (y_pushed s).[zlen (y_popped s)] = Some out
    end;
}.

Lemma vbound_mono P Q F P' Q' F' v : vbound P Q F v → P ≤ P' → Q ≤ Q' → F ≤ F' → vbound P' Q' F' v.
Proof. unfold vbound. lia. Qed.

Lemma vbound_join P Q F v w : vbound P Q F v → vbound P Q F w → vbound P Q F (join v w).
Proof. unfold vbound, join. simpl. lia. Qed.

Lemma hist_mono N know l P Q F P' Q' F' h :
  hist_ok N know l P Q F h → P ≤ P' → Q ≤ Q' → F ≤ F' → hist_ok N know l P' Q' F' h.
Proof.
  intros [Hl Hh] HP HQ HF. split; [done|]. intros i Hi. destruct (Hh i Hi) as (w & E & H1 & H2 & Hb).
  exists w. split_and!; [done|done|done|]. by eapply vbound_mono.
Qed.

(** One more store at the end. *)
Lemma hist_snoc N know l P Q F h w :
  hist_ok N know l P Q F h → 0 ≤ N → N + 1 ≤ know w → N + 1 ≤ seen w l → vbound P Q F w →
  hist_ok (N + 1) know l P Q F (h ++ [(u64 (N + 1), w)]).
Proof.
  intros [Hl Hh] HP Hw1 Hw2 Hb. split; [rewrite zlen_app, Hl; done|]. intros i Hi. destruct (decide (i = N + 1)) as [->|].
  - exists w. split; [|done]. rewrite <- Hl, <- (Z.add_0_r (zlen h)). by rewrite vget_app_r.
  - destruct (Hh i ltac:(lia)) as (w' & E & H1 & H2 & Hb'). exists w'. rewrite vget_app_l by lia. done.
Qed.

(** What a load of a counter returns. *)
Lemma load_hist o m v N know l P Q F i r :
  hist_ok N know l P Q F (stores m l) → load o m l v i = Some r →
  seen v l ≤ i ≤ N ∧ r.1 = u64 i ∧
  ∃ w, i ≤ know w ∧ vbound P Q F w ∧ r.2 = (if decide (o = Acquire) then join (see v l i) w else see v l i).
Proof.
  intros [Hl Hh] E. unfold load in E. destruct (Z.leb_spec (seen v l) i); [|done].
  destruct ((stores m l).[i]) as [[x w]|] eqn:Ei; [|done]. pose proof (vget_Some _ _ _ Ei) as Hr. rewrite Hl in Hr.
  destruct (Hh i ltac:(lia)) as (w' & E' & H1 & _ & Hb). rewrite E' in Ei. simplify_eq. simpl in E. injection E as <-.
  split; [lia|]. split; [done|]. by exists w.
Qed.

Lemma w_full_spec cap n tc :
  cap_ok cap → 0 ≤ tc ≤ n → n ≤ tc + cap → w_full cap (u64 tc) (u64 n) = bool_decide (n = tc + cap).
Proof.
  intros Hc Ht Hn. pose proof (cap_ok_range cap Hc). unfold w_full. rewrite u64_succ, u64_diff by lia.
  destruct (Z.ltb_spec cap (n + 1 - tc)); case_bool_decide; lia || done.
Qed.

(** A slot that may be written, and one that may be read. *)
Lemma na_write_ok cap P Q k m v x :
  (∀ c, (cells m).[k] = Some c → cell_ok cap P Q k c) → 0 ≤ k < zlen (cells m) → 0 ≤ P → v_prod v = P + 1 → 0 ≤ v_cons v →
  (∀ j, 0 ≤ j < P → j `mod` cap = k → j + 1 ≤ v_cons v) →
  ∃ m' c', na_write Producer m v k x = Some m' ∧ (cells m).[k <- c'] = Some (cells m') ∧
    h_head m' = h_head m ∧ h_tail m' = h_tail m ∧ h_flag m' = h_flag m ∧
    c_val c' = x ∧ w_prod c' = P + 1 ∧ cell_ok cap P Q k c'.
Proof.
  intros Hc Hk HP Hv Hv0 Hr. destruct (vget_is_Some (cells m) k Hk) as [c Ec]. destruct (Hc c Ec) as (C1 & C2 & C3 & C4).
  unfold na_write. rewrite Ec. cbn [mbind option_bind].
  assert (r_cons c ≤ v_cons v) by (destruct C4 as [->|[Hj Hm]]; [done|]; specialize (Hr _ Hj Hm); lia).
  rewrite (proj2 (Z.leb_le _ _)) by lia. rewrite (proj2 (Z.leb_le (w_cons c) _)) by lia.
  rewrite (proj2 (Z.leb_le (r_prod c) _)) by lia. rewrite (proj2 (Z.leb_le (r_cons c) _)) by lia. cbn [andb].
  rewrite vset_Some by done. eexists _, _. split; [done|]. split; [by apply vset_Some|]. split_and!; simpl; try done. by split_and!; simpl; lia || done.
Qed.

Lemma na_read_ok cap P Q k m v j c :
  (cells m).[k] = Some c → cell_ok cap P Q k c → w_prod c ≤ j + 1 → j + 1 ≤ v_prod v → v_cons v = j + 1 → 0 ≤ j < P → j `mod` cap = k →
  ∃ m' c', na_read Consumer m v k = Some (c_val c, m') ∧ (cells m).[k <- c'] = Some (cells m') ∧
    h_head m' = h_head m ∧ h_tail m' = h_tail m ∧ h_flag m' = h_flag m ∧
    c_val c' = c_val c ∧ w_prod c' = w_prod c ∧ cell_ok cap P Q k c'.
Proof.
  intros Ec (C1 & C2 & C3 & C4) Hw Hv Hv' Hj Hm. pose proof (vget_Some _ _ _ Ec) as Hk. unfold na_read. rewrite Ec. cbn [mbind option_bind].
  rewrite (proj2 (Z.leb_le _ _)) by lia. rewrite (proj2 (Z.leb_le (w_cons c) _)) by lia. cbn [andb].
  rewrite vset_Some by done. eexists _, _. split; [done|]. split; [by apply vset_Some|]. split_and!; simpl; try done.
  split_and!; simpl; try done. right. rewrite Hv'. replace (j + 1 - 1) with j by lia. done.
Qed.

Ltac wsplit := split; simpl; try done.

(** Steps that do not touch the flag keep its number of stores. *)
Ltac same_signals m :=
  repeat match goal with |- context [signals ?x] => tryif constr_eq x m then fail else change (signals x) with (signals m) end.

Lemma wprod_inv cap m p pc c cpc hi ho tc hc i r :
  winv cap (mkW m p pc c cpc hi ho) tc hc → wpush_step ring_orders cap m p pc i = Some r →
  ∃ m' p' pc' res, r = Ret (m', p', pc', res) ∧
    ∃ tc', winv cap (mkW m' p' pc' c cpc (match res with Some true => hi ++ push_item pc | _ => hi end) ho) tc' hc.
Proof.
  intros [(Hc & El) Hh Ht Hcell Hsl Hp Hq Hf Hpc Hcpc] E. simpl in *.
  pose proof (zlen_nonneg ho). pose proof (zlen_nonneg hi). pose proof (cap_ok_range cap Hc).
  destruct Hp as (Hb & Hvp & Hvh & Ec & Htc & Hle & Hk1 & Hk2 & Hk3). destruct Hq as (Hqb & Hq).
  destruct pc as [|item|item head|item head|item head]; simpl in E; [done|..].
  - destruct (load Relaxed m LHead (th_view p) i) as [[x v]|] eqn:Eld; [|done]. simpl in E. injection E as <-.
    destruct (load_hist _ m _ _ _ LHead _ _ _ _ _ Hh Eld) as (Hi & Ex & w & Hw & Hbw & Ev). simpl in *. subst x v.
    assert (i = zlen hi) as -> by lia. eexists _, _, _, _. split; [done|]. exists tc. wsplit.
    + unfold vbound in *. simpl. split_and!; lia || done.
    + rewrite Ec, w_full_spec by (done || lia). case_bool_decide; [done|]. split; [done|lia].
  - subst head. destruct (load Acquire m LTail (th_view p) i) as [[x v]|] eqn:Eld; [|done]. simpl in E. injection E as <-.
    destruct (load_hist _ m _ _ _ LTail _ _ _ _ _ Ht Eld) as (Hi & Ex & w & Hw & Hbw & Ev). simpl in *. subst x v.
    rewrite w_full_spec by (done || lia). unfold vbound in *.
    case_bool_decide; eexists _, _, _, _; (split; [done|]); exists i; wsplit; unfold vbound; simpl; split_and!; lia || done.
  - destruct Hpc as [-> Hlt]. rewrite mask_index in E by (done || lia).
    pose proof (Z.mod_pos_bound (zlen hi) cap ltac:(lia)) as Hm.
    destruct (na_write_ok cap (zlen hi) (zlen ho) (zlen hi `mod` cap) m (th_view p) item)
      as (m' & c' & Ew & Es & E1 & E2 & E3 & Cv & Cw & Cok); [by intros ? ?%Hcell|lia|done|done|done| |].
    { intros j Hj Hjm. destruct (decide (zlen hi < j + cap)); [|lia]. exfalso. revert Hjm. apply slot_inj; lia. }
    assert (Esig : signals m' = signals m) by (unfold signals; by rewrite E3). rewrite Ew in E. injection E as <-. eexists _, _, _, _. split; [done|]. exists tc. wsplit.
    + by rewrite (vset_length _ _ _ _ Es).
    + by rewrite E1, Esig.
    + by rewrite E2, Esig.
    + intros k c1 Hk. rewrite (vset_get _ _ _ _ _ Es) in Hk. case_decide; [by simplify_eq|by apply Hcell].
    + intros j Hj. destruct (Hsl j Hj) as (c1 & Ec1 & Hv1 & Hw1). exists c1.
      rewrite (vset_get _ _ _ _ _ Es), decide_False; [done|]. apply not_eq_sym, slot_inj; lia.
    + rewrite Esig. split_and!; lia || done.
    + by rewrite Esig.
    + split; [done|]. split; [done|]. exists c'. rewrite (vset_get _ _ _ _ _ Es), decide_True by done. split_and!; [done..|lia].
  - destruct Hpc as (-> & Hlt & c1 & Ec1 & Hv1 & Hw1). injection E as <-. rewrite u64_succ.
    assert (Hz : zlen (hi ++ [item]) = zlen hi + 1) by (by rewrite zlen_app).
    eexists _, _, _, _. split; [done|]. exists tc. wsplit; rewrite ?Hz; same_signals m.
    + unfold heads_ok. rewrite (proj1 Hh). apply hist_snoc; simpl; try lia.
      * eapply hist_mono; [exact Hh|lia..].
      * unfold vbound in *. simpl. lia.
    + eapply hist_mono; [exact Ht|lia..].
    + intros k c2 Hk. destruct (Hcell k c2 Hk) as (C1 & C2 & C3 & C4). split_and!; [done|done|lia|]. destruct C4; [by left|right; lia].
    + intros j Hj. destruct (decide (j = zlen hi)) as [->|].
      * exists c1. split; [done|]. rewrite <- (Z.add_0_r (zlen hi)), vget_app_r by lia. simpl. rewrite Hv1. split; [done|lia].
      * destruct (Hsl j ltac:(lia)) as (c2 & Ec2 & Hv2 & Hw2). exists c2. rewrite vget_app_l by lia. done.
    + rewrite (proj1 Hh). unfold vbound in *. simpl. split_and!; lia || done.
    + unfold vbound in *. split_and!; lia || tauto.
    + by apply prefix_app_r.
    + destruct cpc; simpl in *; try done. split_and!; try apply Hcpc. rewrite vget_app_l by lia. apply Hcpc.
Qed.

Lemma wcons_inv cap m p ppc c pc hi ho tc hc i r :
  winv cap (mkW m p ppc c pc hi ho) tc hc → wpop_step ring_orders cap m c pc i = Some r →
  ∃ m' c' pc' res, r = Ret (m', c', pc', res) ∧
    ∃ hc', winv cap (mkW m' p ppc c' pc' hi (match res with Some (Some x) => ho ++ [x] | _ => ho end)) tc hc'.
Proof.
  intros [(Hc & El) Hh Ht Hcell Hsl Hp Hq Hf Hpc Hcpc] E. simpl in *.
  pose proof (zlen_nonneg ho). pose proof (zlen_nonneg hi). pose proof (cap_ok_range cap Hc).
  destruct Hq as (Hb & Hvc & Hvt & Ec & Hhc & Hk1 & Hk2 & Hk3). destruct Hp as (Hpb & Hp).
  destruct pc as [| |tail|tail|tail out]; simpl in E; [done|..].
  - destruct (load Relaxed m LTail (th_view c) i) as [[x v]|] eqn:Eld; [|done]. simpl in E. injection E as <-.
    destruct (load_hist _ m _ _ _ LTail _ _ _ _ _ Ht Eld) as (Hi & Ex & w & Hw & Hbw & Ev). simpl in *. subst x v.
    assert (i = zlen ho) as -> by lia. eexists _, _, _, _. split; [done|]. exists hc. wsplit.
    + unfold vbound in *. simpl. split_and!; lia || done.
    + rewrite Ec. destruct (Z.eqb_spec (u64 (zlen ho)) (u64 hc)) as [|Hne]; [done|].
      split; [done|]. destruct (decide (zlen ho = hc)) as [Heq|]; [by rewrite Heq in Hne|lia].
  - subst tail. destruct (load Acquire m LHead (th_view c) i) as [[x v]|] eqn:Eld; [|done]. simpl in E. injection E as <-.
    destruct (load_hist _ m _ _ _ LHead _ _ _ _ _ Hh Eld) as (Hi & Ex & w & Hw & Hbw & Ev). simpl in *. subst x v. unfold vbound in *.
    destruct (Z.eqb_spec (u64 (zlen ho)) (u64 i)) as [|Hne];
      eexists _, _, _, _; (split; [done|]); exists i; wsplit; unfold vbound; simpl; split_and!; try (lia || done).
    destruct (decide (zlen ho = i)) as [Heq|]; [by rewrite Heq in Hne|lia].
  - destruct Hcpc as [-> Hlt]. rewrite mask_index in E by (done || lia).
    destruct (Hsl (zlen ho) ltac:(lia)) as (c1 & Ec1 & Hv1 & Hw1).
    destruct (na_read_ok cap (zlen hi) (zlen ho) (zlen ho `mod` cap) m (th_view c) (zlen ho) c1)
      as (m' & c' & Er & Es & E1 & E2 & E3 & Cv & Cw & Cok); [done|by apply Hcell|lia|lia|done|lia|done|].
    assert (Esig : signals m' = signals m) by (unfold signals; by rewrite E3). rewrite Er in E. injection E as <-. eexists _, _, _, _. split; [done|]. exists hc. wsplit.
    + by rewrite (vset_length _ _ _ _ Es).
    + by rewrite E1, Esig.
    + by rewrite E2, Esig.
    + intros k c2 Hk. rewrite (vset_get _ _ _ _ _ Es) in Hk. case_decide; [by simplify_eq|by apply Hcell].
    + intros j Hj. destruct (Hsl j Hj) as (c2 & Ec2 & Hv2 & Hw2). rewrite (vset_get _ _ _ _ _ Es).
      destruct (decide (zlen ho `mod` cap = j `mod` cap)) as [Em|]; [|by exists c2].
      exists c'. rewrite <- Em, Ec1 in Ec2. simplify_eq. rewrite Cv, Cw. done.
    + by rewrite Esig.
    + rewrite Esig. split_and!; lia || done.
    + destruct ppc; simpl in *; try done. destruct Hpc as (? & ? & c2 & Ec2 & Hv2 & Hw2). split; [done|]. split; [done|].
      rewrite (vset_get _ _ _ _ _ Es). destruct (decide (zlen ho `mod` cap = zlen hi `mod` cap)) as [Em|]; [|by exists c2].
      exfalso. revert Em. apply slot_inj; lia.
  - destruct Hcpc as (-> & Hlt & Hx). injection E as <-. rewrite u64_succ.
    assert (Hz : zlen (ho ++ [out]) = zlen ho + 1) by (by rewrite zlen_app).
    eexists _, _, _, _. split; [done|]. exists hc. wsplit; rewrite ?Hz; same_signals m.
    + eapply hist_mono; [exact Hh|lia..].
    + unfold tails_ok. rewrite (proj1 Ht). apply hist_snoc; simpl; try lia.
      * eapply hist_mono; [exact Ht|lia..].
      * unfold vbound in *. simpl. lia.
    + intros j Hj. apply Hsl. lia.
    + unfold vbound in *. split_and!; lia || tauto.
    + rewrite (proj1 Ht). unfold vbound in *. simpl. split_and!; lia || done.
    + destruct Hf as [k ->]. rewrite <- (Z.add_0_r (zlen ho)), vget_app_r in Hx by lia.
      destruct k as [|y k]; [done|]. injection Hx as ->. exists k. by rewrite <- app_assoc.
Qed.

Lemma wsys0_inv cap (dflt : T) : cap_ok cap → winv cap (wsys0 cap dflt) 0 0.
Proof.
  intros Hc. pose proof (cap_ok_range cap Hc). assert (Hz : ∀ A, zlen (@nil A) = 0) by done.
  assert (Hh : ∀ know l, know view0 = 0 → seen view0 l = 0 → hist_ok 0 know l 0 0 0 [(0, view0)]).
  { intros know l E1 E2. split; [done|]. intros i Hi. assert (i = 0) as -> by lia. exists view0. unfold vbound. simpl. split_and!; done || lia. }
  split; simpl; rewrite ?Hz; try done.
  - split; [done|]. unfold zlen. rewrite length_replicate. lia.
  - by apply Hh.
  - by apply Hh.
  - intros k c Hk. unfold vget in Hk. case_decide; [|done]. apply lookup_replicate in Hk as [-> _]. split_and!; simpl; lia || by left.
  - intros i Hi. lia.
  - unfold vbound. simpl. split_and!; done || lia.
Qed.

Lemma wstep_inv cap s s' :
  (∃ tc hc, winv cap s tc hc) → wstep ring_orders cap s s' → ∃ tc hc, winv cap s' tc hc.
Proof.
  intros (tc & hc & Hi) Hs. destruct Hs as [item m p c cpc hi ho|i m p pc c cpc hi ho m' p' pc' res E|
    m p ppc c hi ho|i m p ppc c pc hi ho m' c' pc' res E].
  - exists tc, hc. destruct Hi. by split.
  - destruct (wprod_inv _ _ _ _ _ _ _ _ _ _ _ _ Hi E) as (? & ? & ? & ? & [= <- <- <- <-] & tc' & Hi'). by exists tc', hc.
  - exists tc, hc. destruct Hi. by split.
  - destruct (wcons_inv _ _ _ _ _ _ _ _ _ _ _ _ Hi E) as (? & ? & ? & ? & [= <- <- <- <-] & hc' & Hi'). by exists tc, hc'.
Qed.

Lemma winv_defined cap s tc hc : winv cap s tc hc → ¬ undefined ring_orders cap s.
Proof.
  destruct s as [m p ppc c cpc hi ho]. intros Hi (i & [E|E]); simpl in E.
  - by destruct (wprod_inv _ _ _ _ _ _ _ _ _ _ _ _ Hi E) as (? & ? & ? & ? & ? & _).
  - by destruct (wcons_inv _ _ _ _ _ _ _ _ _ _ _ _ Hi E) as (? & ? & ? & ? & ? & _).
Qed.

Lemma wreachable_inv cap (dflt : T) s :
  cap_ok cap → wreachable ring_orders cap dflt s → ∃ tc hc, winv cap s tc hc.
Proof.
  intros Hc Hs. assert (H0 : ∃ tc hc, winv cap (wsys0 cap dflt) tc hc) by (exists 0, 0; by apply wsys0_inv).
  unfold wreachable in Hs. revert H0. induction Hs as [s|s1 s2 s3 H12 _ IH]; intros H0; [done|]. apply IH. by eapply wstep_inv.
Qed.

End Invariant.

(** * Scripted executions *)

Inductive action (T : Type) : Type := CallPush (item : T) | Prod (i : Z) | CallPop | Cons (i : Z).

Arguments CallPush {T} _.
Arguments Prod {T} _.
Arguments CallPop {T}.
Arguments Cons {T} _.

Section Scripts.
Context {T : Type} (o : orders) (cap : Z).

Definition act (a : action T) (s : wsys T) : option (wsys T) :=
  let '(mkW m p ppc c cpc hi ho) := s in
  match a with
  | CallPush item => match ppc with PIdle => Some (mkW m p (PStart item) c cpc hi ho) | _ => None end
  | Prod i =>
      match wpush_step o cap m p ppc i with
      | Some (Ret (m, p, pc, res)) => Some (mkW m p pc c cpc (match res with Some true => hi ++ push_item ppc | _ => hi end) ho)
      | _ => None
      end
  | CallPop => match cpc with CIdle => Some (mkW m p ppc c CStart hi ho) | _ => None end
  | Cons i =>
      match wpop_step o cap m c cpc i with
      | Some (Ret (m, c, pc, res)) => Some (mkW m p ppc c pc hi (match res with Some (Some x) => ho ++ [x] | _ => ho end))
      | _ => None
      end
  end.

Fixpoint acts (l : list (action T)) (s : wsys T) : option (wsys T) :=
  match l with [] => Some s | a :: l => s ← act a s; acts l s end.

Lemma act_step a s s' : act a s = Some s' → wstep o cap s s'.
Proof.
  destruct s as [m p ppc c cpc hi ho], a as [item|i| |i]; simpl; intros E.
  - destruct ppc; simplify_eq. constructor.
  - destruct (wpush_step _ _ _ _ _ _) as [[|[[[m' p'] pc] res]]|] eqn:Ep; simplify_eq. by econstructor.
  - destruct cpc; simplify_eq. constructor.
  - destruct (wpop_step _ _ _ _ _ _) as [[|[[[m' p'] pc] res]]|] eqn:Ep; simplify_eq. by econstructor.
Qed.

Lemma acts_steps l s s' : acts l s = Some s' → rtc (wstep o cap) s s'.
Proof.
  revert s. induction l as [|a l IH]; intros s E; simpl in E; [by simplify_eq|].
  destruct (act a s) as [s1|] eqn:E1; [|done]. econstructor; [by apply act_step in E1|by apply IH].
Qed.

End Scripts.

(** * Properties *)

Section Facts.
Context {T : Type}.

Lemma load_newest o (m : mem T) N know l P Q F v :
  hist_ok N know l P Q F (stores m l) → 0 ≤ N → seen v l ≤ N → is_Some (load o m l v N).
Proof.
  intros [Hl Hh] HN Hv. unfold load. rewrite (proj2 (Z.leb_le _ _)) by done. destruct (Hh N ltac:(lia)) as (w & -> & _). by eexists.
Qed.

(** Reading the newest store is always possible, so no operation waits for the other side. *)
Lemma wprogress cap (s : wsys T) tc hc :
  winv cap s tc hc →
  (y_ppc s ≠ PIdle → ∃ i r, wpush_step ring_orders cap (y_mem s) (y_prod s) (y_ppc s) i = Some r) ∧
  (y_cpc s ≠ CIdle → ∃ i r, wpop_step ring_orders cap (y_mem s) (y_cons s) (y_cpc s) i = Some r).
Proof.
  intros [_ Hh Ht _ _ ((_ & _ & Hvh & Hvt & _) & _) ((_ & _ & Hch & Hct & _) & _) _ _ _]. split; intros Hne.
  - destruct (y_ppc s); [done| | |by exists 0; eexists|by exists 0; eexists].
    + destruct (load_newest Relaxed (y_mem s) _ _ LHead _ _ _ (th_view (y_prod s)) Hh) as [r E]; [apply zlen_nonneg|done|].
      exists (zlen (y_pushed s)). simpl. rewrite E. by eexists.
    + destruct (load_newest Acquire (y_mem s) _ _ LTail _ _ _ (th_view (y_prod s)) Ht) as [r E]; [apply zlen_nonneg|done|].
      exists (zlen (y_popped s)). simpl. rewrite E. by eexists.
  - destruct (y_cpc s); [done| | |by exists 0; eexists|by exists 0; eexists].
    + destruct (load_newest Relaxed (y_mem s) _ _ LTail _ _ _ (th_view (y_cons s)) Ht) as [r E]; [apply zlen_nonneg|done|].
      exists (zlen (y_popped s)). simpl. rewrite E. by eexists.
    + destruct (load_newest Acquire (y_mem s) _ _ LHead _ _ _ (th_view (y_cons s)) Hh) as [r E]; [apply zlen_nonneg|done|].
      exists (zlen (y_pushed s)). simpl. rewrite E. by eexists.
Qed.

(** [size_approx] by a thread with view [v], its loads returning the stores [i] and [j]. *)

Definition wsize_approx (m : mem T) (v : view) (i j : Z) : option Z :=
  t ← load Acquire m LTail v i;
  h ← load Acquire m LHead t.2 j;
  Some (size_approx t.1 h.1).

(** From either side the estimate lies between 0 and the capacity. *)
Lemma weak_size_approx cap s tc hc v i j n :
  winv cap s tc hc → v = th_view (y_prod s) ∨ v = th_view (y_cons s) →
  wsize_approx (y_mem s) v i j = Some n → n = j - i ∧ 0 ≤ n ≤ cap.
Proof.
  intros [(Hc & _) Hh Ht _ _ (Hpb & Hpv & Hph & _ & Htc & Hle & _ & Hpt & _) (Hcb & Hcv & Hct & _ & Hhc & _ & Hch & _) _ _ _] Hv E.
  pose proof (cap_ok_range cap Hc). unfold wsize_approx in E.
  destruct (load Acquire _ LTail v i) as [[t v1]|] eqn:E1; [|done].
  destruct (load_hist _ (y_mem s) _ _ _ LTail _ _ _ _ _ Ht E1) as (Hi & Et & w & Hw & Hbw & Ev). simpl in *. subst t v1.
  destruct (load Acquire _ LHead _ j) as [[h v2]|] eqn:E2; [|done].
  destruct (load_hist _ (y_mem s) _ _ _ LHead _ _ _ _ _ Hh E2) as (Hj & Eh & _). simpl in *. subst h. injection E as <-.
  assert (Hlow : 0 ≤ j - i ≤ cap) by (destruct Hv; subst v; lia). unfold size_approx. rewrite u64_diff by lia. done.
Qed.

End Facts.

(** C8: Under the release/acquire memory model, with loads that may return stale values, every use
    of a ring of any capacity by one producer and one consumer is free of data races and stays
    inside the slots; the popped values are a prefix of the pushed ones, at most the capacity
    is in flight, and every operation can always take its next step. *)
Theorem weak_ring_safe {T} (dflt : T) n cap s :
  0 ≤ n ≤ 2 ^ 63 → round_up_pow2 n = Some cap → wreachable ring_orders cap dflt s →
  ¬ undefined ring_orders cap s ∧
  y_popped s `prefix_of` y_pushed s ∧ zlen (y_pushed s) - zlen (y_popped s) ≤ cap ∧
  (y_ppc s ≠ PIdle → ∃ i r, wpush_step ring_orders cap (y_mem s) (y_prod s) (y_ppc s) i = Some (Ret r)) ∧
  (y_cpc s ≠ CIdle → ∃ i r, wpop_step ring_orders cap (y_mem s) (y_cons s) (y_cpc s) i = Some (Ret r)).
Proof.
  intros Hn Ec Hs. destruct (round_up_pow2_spec n Hn) as (cap' & Ec' & Hc & _). rewrite Ec in Ec'. injection Ec' as <-.
  destruct (wreachable_inv cap dflt s Hc Hs) as (tc & hc & Hi). pose proof (winv_defined cap s tc hc Hi) as Hu.
  destruct (wprogress cap s tc hc Hi) as [Hp Hq]. split; [done|]. split; [apply Hi|]. split.
  - destruct (wi_prod _ _ _ _ Hi) as (_ & _ & _ & _ & ? & ? & _). lia.
  - split; intros Hne; [destruct (Hp Hne) as (i & [|r] & E)|destruct (Hq Hne) as (i & [|r] & E)]; [|by exists i, r| |by exists i, r];
      (destruct Hu; exists i); [by left|by right].
Qed.

(** Two pushes, and a pop that reads the first store of [head_] although two are there. *)

Definition stale_script : list (action Z) :=
  [CallPush 7; Prod 0; Prod 0; Prod 0; CallPush 8; Prod 1; Prod 0; Prod 0; CallPop; Cons 0; Cons 1; Cons 0; Cons 0].

Definition stale_state : wsys Z := default (wsys0 2 0) (acts ring_orders 2 stale_script (wsys0 2 0)).

Lemma weak_ring_safe_witness :
  ¬ undefined ring_orders 2 stale_state ∧ y_pushed stale_state = [7; 8] ∧ y_popped stale_state = [7].
Proof.
  split; [|vm_compute; split; reflexivity].
  apply (weak_ring_safe 0 2 2 stale_state).
  - lia.
  - reflexivity.
  - apply (acts_steps ring_orders 2 stale_script). vm_compute. reflexivity.
Defined.

(** Without any one of the four synchronising orders there is a data race. *)

Definition with_orders (publish head_reload release tail_reload : order) : orders :=
  mkOrders Relaxed tail_reload publish Relaxed head_reload release.

Definition one_push_pop : list (action Z) := [CallPush 7; Prod 0; Prod 0; Prod 0; CallPop; Cons 0; Cons 1].

Definition refill : list (action Z) :=
  one_push_pop ++ [Cons 0; Cons 0; CallPush 8; Prod 1; Prod 0; Prod 0; CallPush 9; Prod 2; Prod 1].

Definition race_after (o : orders) (l : list (action Z)) : bool :=
  match acts o 2 l (wsys0 2 0) with
  | Some s =>
      match wpush_step o 2 (y_mem s) (y_prod s) (y_ppc s) 0, wpop_step o 2 (y_mem s) (y_cons s) (y_cpc s) 0 with
      | Some UB, _ | _, Some UB => true
      | _, _ => false
      end
  | None => false
  end.

Lemma weaker_orders_race :
  race_after (with_orders Relaxed Acquire Release Acquire) one_push_pop = true ∧
  race_after (with_orders Release Relaxed Release Acquire) one_push_pop = true ∧
  race_after (with_orders Release Acquire Relaxed Acquire) refill = true ∧
  race_after (with_orders Release Acquire Release Relaxed) refill = true ∧
  with_orders Release Acquire Release Acquire = ring_orders ∧ race_after ring_orders refill = false.
Proof. vm_compute. done. Qed.
