(* ===== verification/Dispatch.v ===== *)
(** The thread structure that [replay_pipelined] (include/feed/pipeline.hpp) and
    [replay_sharded] (include/feed/sharded_pipeline.hpp) share: a producer pushes every item
    into the ring of its shard, spinning while the ring is full, and then raises a flag; each
    worker pops from its own ring and applies the items, and when a pop fails and the flag is
    up it pops once more and stops if that fails too.

    A state is advanced by one access to shared memory of one thread, in any order; the items
    are messages, the worker state is a book or a set of books ([app] applies an item). *)
From S2P Require Export SpscRing.

(** Where a worker is in its loop: in the first [pop], about to load the flag, in the second
    [pop], or past the loop. *)

Inductive mode : Set := WPop | WCheck | WLast | WDone.

#[global] Instance mode_eq_dec : EqDecision mode.
Proof. solve_decision. Defined.

Section Machine.
Context {T St : Type} (app : St → T → option St) (shard : T → nat).

(** A worker with its ring ([w_sys] also holds the producer's position in a [push] to that
    ring) and what it builds. *)

Record worker := mkWorker { w_sys : sys (T:=T); w_mode : mode; w_st : St }.

(** The items the producer has still to push, the number pushed, the flag (raised when the
    producer is done), and the workers. *)

Record machine := mkMachine {
  todo : list T;
  sent : Z;
  flag : bool;
  workers : list worker;
}.

Definition set_worker (m : machine) (i : nat) (w : worker) : machine :=
  mkMachine (todo m) (sent m) (flag m) (<[i := w]> (workers m)).

(** The producer: [while (!ring.push(x)) pause();] for every item, then the flag.  [None]
    when the thread has ended. *)

Definition prod_step (m : machine) : option machine :=
  match todo m with
  | [] => if flag m then None else Some (mkMachine [] (sent m) true (workers m))
  | x :: rest =>
      w ← workers m !! shard x;
      let s := w_sys w in
      let back s' := mkWorker s' (w_mode w) (w_st w) in
      match ppc s with
      | PIdle =>
          Some (set_worker m (shard x)
                  (back (mkSys (ring s) (PStart x) (cpc s) (pushed s) (popped s))))
      | pc =>
          y ← push_step (ring s) pc;
          let '(r, pc', res) := y in
          match res with
          | Some true =>
              Some (mkMachine rest (u64 (sent m + 1)) (flag m)
                (<[shard x := back (mkSys r pc' (cpc s) (pushed s ++ push_item pc) (popped s))]>
                   (workers m)))
          | _ => Some (set_worker m (shard x)
                         (back (mkSys r pc' (cpc s) (pushed s) (popped s))))
          end
      end
  end.

(** Worker [i]. *)

Definition work_step (i : nat) (m : machine) : option machine :=
  w ← workers m !! i;
  let s := w_sys w in
  match w_mode w with
  | WDone => None
  | WCheck => Some (set_worker m i (mkWorker s (if flag m then WLast else WPop) (w_st w)))
  | md =>
      match cpc s with
      | CIdle =>
          Some (set_worker m i
            (mkWorker (mkSys (ring s) (ppc s) CStart (pushed s) (popped s)) md (w_st w)))
      | pc =>
          y ← pop_step (ring s) pc;
          let '(r, pc', res) := y in
          match res with
          | None =>
              Some (set_worker m i
                (mkWorker (mkSys r (ppc s) pc' (pushed s) (popped s)) md (w_st w)))
          | Some None =>
              Some (set_worker m i
                (mkWorker (mkSys r (ppc s) pc' (pushed s) (popped s))
                   (if decide (md = WPop) then WCheck else WDone) (w_st w)))
          | Some (Some x) =>
              st ← app (w_st w) x;
              Some (set_worker m i
                (mkWorker (mkSys r (ppc s) pc' (pushed s) (popped s ++ [x])) WPop st))
          end
      end
  end.

(** Thread 0 is the producer, thread [S i] worker [i]. *)

Definition thread_step (t : nat) (m : machine) : option machine :=
  match t with O => prod_step m | S i => work_step i m end.

(** A schedule names the thread of every step; a thread that has ended is passed over. *)

Definition sched_step (t : nat) (m : machine) : machine := default m (thread_step t m).

Definition run (sched : list nat) (m : machine) : machine := foldl (λ m t, sched_step t m) m sched.

(** [join]: all threads have ended. *)

Definition all_done (m : machine) : bool :=
  flag m && forallb (λ w, bool_decide (w_mode w = WDone)) (workers m).

Definition machine0 (items : list T) (rings : list (SpscRing T)) (st : St) : machine :=
  mkMachine items 0 false ((λ r, mkWorker (sys0 r) WPop st) <$> rings).

End Machine.

Arguments mkWorker {T St} _ _ _.
Arguments w_sys {T St} _.
Arguments w_mode {T St} _.
Arguments w_st {T St} _.
Arguments mkMachine {T St} _ _ _ _.
Arguments todo {T St} _.
Arguments sent {T St} _.
Arguments flag {T St} _.
Arguments workers {T St} _.

(** * One step of each thread *)

Section Steps.
Context {T St : Type}.
Implicit Types s : sys (T:=T).

(** The item that a [push] under way carries. *)

Definition pc_item (pc : prod_pc (T:=T)) : option T :=
  match pc with
  | PIdle => None
  | PStart x | PReload x _ | PWrite x _ | PPublish x _ => Some x
  end.

Definition ring_ok s : Prop := inv (cap_ (ring s)) s.

Definition full s : Prop := zlen (pushed s) - zlen (popped s) = cap_ (ring s).

(** The steps to the end of a [push] or a [pop] that will succeed, its call included. *)

Definition push_rank (pc : prod_pc (T:=T)) : nat :=
  match pc with PIdle => 5 | _ => push_left pc end.

Definition pop_rank (pc : cons_pc (T:=T)) : nat :=
  match pc with CIdle => 5 | _ => pop_left pc end.

Lemma ring_ok_step s s' : ring_ok s → step s s' → ring_ok s' ∧ cap_ (ring s') = cap_ (ring s).
Proof.
  unfold ring_ok. intros Hi Hs. pose proof (step_inv _ s s' Hi Hs) as Hi'.
  destruct (Hi') as (tc & hc & [(_ & Ec & _) _ _ _ _ _ _ _ _]). by rewrite Ec.
Qed.

(** The producer's next access to the ring of item [x]. *)
Lemma push_access s x :
  ring_ok s → (∀ y, pc_item (ppc s) = Some y → y = x) →
  ppc s ≠ PIdle → ∃ r p res, push_step (ring s) (ppc s) = Some (r, p, res) ∧
    let s' := mkSys r p (cpc s) (match res with Some true => pushed s ++ [x] | _ => pushed s end) (popped s) in
    step s s' ∧
    (match res with Some true => p = PIdle | _ => ∀ y, pc_item p = Some y → y = x end) ∧
    (res ≠ Some true → ¬ full s → (push_rank p < push_rank (ppc s))%nat).
Proof.
  intros Hi Hx Hne. destruct (push_step_progress _ s Hi Hne) as (r & p & res & E & Hlt & Hres).
  exists r, p, res. split; [done|]. cbv zeta. split_and!.
  - destruct s as [rr pp cc hi ho]. simpl in *.
    assert (Hp : match res with Some true => hi ++ [x] | _ => hi end =
                 match res with Some true => hi ++ push_item pp | _ => hi end).
    { destruct pp; simpl in *; simplify_eq; try done.
      - destruct (looks_full _ _); by simplify_eq.
      - inv_bind E; by simplify_eq.
      - by rewrite (Hx item). }
    rewrite Hp. by apply step_prod.
  - destruct (ppc s); simpl in *; simplify_eq; try done.
    + by destruct (looks_full _ _).
    + by destruct (looks_full _ _); simplify_eq.
    + inv_bind E; by simplify_eq.
  - intros Hr Hf. assert (Hp : p ≠ PIdle).
    { intros ->. destruct Hres as [_ [b ->]]; [done|]. destruct b; [done|]. by apply push_fails with (1 := Hi) in E. }
    destruct p; [done|..]; destruct (ppc s); done.
Qed.

(** The consumer's next access. *)
Lemma pop_access s :
  ring_ok s → cpc s ≠ CIdle → ∃ r c res, pop_step (ring s) (cpc s) = Some (r, c, res) ∧
    let s' := mkSys r (ppc s) c (pushed s) (match res with Some (Some x) => popped s ++ [x] | _ => popped s end) in
    step s s' ∧ (is_Some res ↔ c = CIdle) ∧ (res = Some None → pushed s = popped s) ∧
    (∀ x, res = Some (Some x) → pushed s ≠ popped s) ∧
    (res = None → (pop_rank c < pop_rank (cpc s))%nat).
Proof.
  intros Hi Hne. destruct (pop_step_progress _ s Hi Hne) as (r & c & res & E & Hlt & Hres).
  exists r, c, res. split; [done|]. cbv zeta.
  assert (Hs : step s (mkSys r (ppc s) c (pushed s) (match res with Some (Some x) => popped s ++ [x] | _ => popped s end)))
    by (destruct s; by apply step_cons).
  split_and!; [done|exact Hres|..].
  - intros ->. by eapply pop_fails.
  - intros x -> Heq. destruct (ring_ok_step _ _ Hi Hs) as [Hi' _].
    apply inv_queue in Hi' as [_ Hd]. simpl in Hd. rewrite zlen_app, Heq in Hd.
    change (zlen [x]) with 1 in Hd. lia.
  - intros ->. destruct c; simpl in *; [|destruct (cpc s); simpl in *; lia..].
    by destruct Hres as [_ [? ?]].
Qed.

End Steps.

(** * The invariant, and what a step achieves *)

Section Correct.
Context {T St : Type} (app : St → T → option St) (shard : T → nat) (st0 : St) (items : list T) (W : nat).
Hypothesis Hshard : ∀ x, x ∈ items → (shard x < W)%nat.
Hypothesis Happ : ∀ i, (i < W)%nat → is_Some (foldM app st0 (filter (λ x, shard x = i) items)).

(** The items of shard [i]. *)

Definition sub (i : nat) (l : list T) : list T := filter (λ x, shard x = i) l.

Record winv (i : nat) (d td : list T) (fl : bool) (w : worker (T:=T) (St:=St)) : Prop := {
  wi_ring : ring_ok (w_sys w);
  wi_pushed : pushed (w_sys w) = sub i d;
  wi_st : foldM app st0 (popped (w_sys w)) = Some (w_st w);
  wi_item : ∀ x, pc_item (ppc (w_sys w)) = Some x → head td = Some x ∧ shard x = i;
  wi_mode : match w_mode w with
    | WPop => True
    | WCheck => cpc (w_sys w) = CIdle
    | WLast => fl = true
    | WDone => fl = true ∧ popped (w_sys w) = pushed (w_sys w)
    end;
}.

(** [d] is the part of the items already pushed. *)

Record minv (m : machine (T:=T) (St:=St)) (d : list T) : Prop := {
  mv_split : items = d ++ todo m;
  mv_sent : sent m = u64 (zlen d);
  mv_flag : flag m = true → todo m = [];
  mv_len : length (workers m) = W;
  mv_worker : ∀ i w, workers m !! i = Some w → winv i d (todo m) (flag m) w;
}.

(** The number of successful pushes and pops, flag and exits still to come. *)

Definition wev (w : worker (T:=T) (St:=St)) : nat :=
  length (pushed (w_sys w)) - length (popped (w_sys w)) + (if decide (w_mode w = WDone) then 0 else 1).

Definition events (m : machine (T:=T) (St:=St)) : nat :=
  2 * length (todo m) + (if flag m then 0 else 1) + sum_list_with wev (workers m).

(** Thread [t] will bring one of them about within [k] steps of its own, whatever the other
    threads do, unless another thread does so before. *)

Definition work_rank (w : worker (T:=T) (St:=St)) : nat :=
  let base := pop_rank (cpc (w_sys w)) in
  match w_mode w with
  | WCheck => 6
  | WPop => if decide (length (popped (w_sys w)) = length (pushed (w_sys w))) then base + 4 else base
  | _ => base
  end.

Definition prod_ready (k : nat) (w : worker (T:=T) (St:=St)) : Prop :=
  ¬ full (w_sys w) ∧ push_rank (ppc (w_sys w)) = k.

Definition work_ready (fl : bool) (k : nat) (w : worker (T:=T) (St:=St)) : Prop :=
  w_mode w ≠ WDone ∧ (length (popped (w_sys w)) ≠ length (pushed (w_sys w)) ∨ fl = true) ∧ work_rank w = k.

Definition helps (t k : nat) (m : machine (T:=T) (St:=St)) : Prop :=
  match t with
  | O => match todo m with
         | [] => flag m = false
         | x :: _ => ∃ w, workers m !! shard x = Some w ∧ prod_ready k w
         end
  | S i => ∃ w, workers m !! i = Some w ∧ work_ready (flag m) k w
  end.

Definition effect (t : nat) (m m' : machine (T:=T) (St:=St)) : Prop :=
  (events m' < events m)%nat ∨
  (events m' = events m ∧ ∀ t' k, helps t' k m →
     if decide (t' = t) then ∃ k', (k' < k)%nat ∧ helps t' k' m' else helps t' k m').

Lemma sum_insert (f : worker (T:=T) (St:=St) → nat) l i w w' :
  l !! i = Some w → (sum_list_with f (<[i := w']> l) + f w = sum_list_with f l + f w')%nat.
Proof.
  revert i. induction l as [|x l IH]; intros [|i] E; simpl in *; [done|done|by injection E as ->; lia|].
  specialize (IH i E). lia.
Qed.

Lemma set_worker_inv m d i w w' :
  minv m d → workers m !! i = Some w → winv i d (todo m) (flag m) w' → minv (set_worker m i w') d.
Proof.
  intros [? ? ? Hl Hw] E Hw'. split; simpl; try done; [by rewrite length_insert|].
  intros j v. destruct (decide (j = i)) as [->|Hne].
  - rewrite list_lookup_insert_eq by (by eapply lookup_lt_Some). intros [= <-]. done.
  - rewrite list_lookup_insert_ne by done. apply Hw.
Qed.

(** Replacing a worker by one with the same progress. *)
Lemma set_worker_quiet t m i w w' :
  workers m !! i = Some w → wev w' = wev w →
  (∀ k, t = O → ∀ x, head (todo m) = Some x → i = shard x → prod_ready k w → ∃ k', (k' < k)%nat ∧ prod_ready k' w') →
  (∀ k, t ≠ O → prod_ready k w → prod_ready k w') →
  (∀ k, t = S i → work_ready (flag m) k w → ∃ k', (k' < k)%nat ∧ work_ready (flag m) k' w') →
  (∀ k, t ≠ S i → work_ready (flag m) k w → work_ready (flag m) k w') →
  (t = O → ∃ x, head (todo m) = Some x ∧ i = shard x) → (t = O ∨ t = S i) →
  effect t m (set_worker m i w').
Proof.
  intros E Hev Hp1 Hp2 Hw1 Hw2 Ht0 Ht. right. split.
  { unfold events. simpl. pose proof (sum_insert wev _ _ _ w' E). lia. }
  assert (Hi : (i < length (workers m))%nat) by (by eapply lookup_lt_Some).
  intros [|j] k; simpl.
  - destruct (todo m) as [|x rest] eqn:Et; simpl in *.
    + case_decide as Hd; [|done]. by destruct Ht0 as (? & ? & _).
    + intros (v & Ev & Hr). destruct (decide (shard x = i)) as [Hx|Hx].
      * subst i. rewrite E in Ev. injection Ev as <-. case_decide as Hd.
        -- destruct (Hp1 k (eq_sym Hd) x) as (k' & ? & ?); [done..|]. exists k'. split; [done|].
           exists w'. by rewrite list_lookup_insert_eq.
        -- exists w'. rewrite list_lookup_insert_eq by done. split; [done|]. apply Hp2; [congruence|done].
      * case_decide as Hd; [destruct Ht0 as (? & ? & ?); [done|]; congruence|].
        exists v. by rewrite list_lookup_insert_ne.
  - intros (v & Ev & Hr). destruct (decide (j = i)) as [->|Hj].
    + rewrite E in Ev. injection Ev as <-. case_decide as Hd.
      * destruct (Hw1 k) as (k' & ? & ?); [done..|]. exists k'. split; [done|]. exists w'.
        by rewrite list_lookup_insert_eq.
      * exists w'. rewrite list_lookup_insert_eq by done. split; [done|]. apply Hw2; [congruence|done].
    + case_decide as Hd; [destruct Ht; congruence|]. exists v. by rewrite list_lookup_insert_ne.
Qed.

(** The producer's access to the ring of its first item changes neither the mode nor the
    consumer's side of the worker. *)
Lemma push_quiet m d x rest w s' :
  minv m d → todo m = x :: rest → workers m !! shard x = Some w → step (w_sys w) s' →
  cpc s' = cpc (w_sys w) → pushed s' = pushed (w_sys w) → popped s' = popped (w_sys w) →
  (∀ y, pc_item (ppc s') = Some y → y = x) →
  (¬ full (w_sys w) → (push_rank (ppc s') < push_rank (ppc (w_sys w)))%nat) →
  let m' := set_worker m (shard x) (mkWorker s' (w_mode w) (w_st w)) in
  minv m' d ∧ effect 0 m m'.
Proof using.
  intros Hm Et Ew Hs Hc Hpu Hpo Hit Hrk. cbv zeta.
  pose proof (mv_worker m d Hm _ _ Ew) as [Hr Hp Hst Hi Hmd].
  destruct (ring_ok_step _ _ Hr Hs) as [Hr' Hcap]. split.
  - apply (set_worker_inv m d _ w); [done|done|]. split; simpl; rewrite ?Hpu, ?Hpo, ?Hc; try done.
    intros y Hy. rewrite Et. simpl. by rewrite (Hit y Hy).
  - apply set_worker_quiet with w; simpl; try done.
    + unfold wev. simpl. by rewrite Hpu, Hpo.
    + intros k _ y _ _ [Hf Hk]. exists (push_rank (ppc s')). split; [rewrite <- Hk; by apply Hrk|].
      split; [|done]. unfold full in *. simpl. by rewrite Hpu, Hpo, Hcap.
    + intros k _. unfold work_ready, work_rank. simpl. by rewrite Hpu, Hpo, Hc.
    + intros _. rewrite Et. by exists x.
    + by left.
Qed.

(** A successful push. *)
Lemma push_done m d x rest w s' :
  minv m d → todo m = x :: rest → workers m !! shard x = Some w → step (w_sys w) s' →
  cpc s' = cpc (w_sys w) → pushed s' = pushed (w_sys w) ++ [x] → popped s' = popped (w_sys w) → ppc s' = PIdle →
  let m' := mkMachine rest (u64 (sent m + 1)) (flag m)
              (<[shard x := mkWorker s' (w_mode w) (w_st w)]> (workers m)) in
  minv m' (d ++ [x]) ∧ effect 0 m m'.
Proof using.
  intros Hm Et Ew Hs Hc Hpu Hpo Hidle. cbv zeta. pose proof Hm as [Hsp Hse Hfl Hle Hwk].
  pose proof (Hwk _ _ Ew) as [Hr Hp Hst Hi Hmd]. destruct (ring_ok_step _ _ Hr Hs) as [Hr' _].
  assert (Hff : flag m = false) by (destruct (flag m); [|done]; rewrite Hfl in Et; done).
  assert (Hsub : ∀ i, sub i (d ++ [x]) = sub i d ++ (if decide (shard x = i) then [x] else []))
    by (intros; unfold sub; by rewrite filter_app, filter_cons, filter_nil).
  split.
  - split; simpl; try done.
    + by rewrite <- app_assoc, Hsp, Et.
    + rewrite Hse, u64_add_l, zlen_app. done.
    + by rewrite Hff.
    + by rewrite length_insert.
    + intros i v. destruct (decide (i = shard x)) as [->|Hne].
      * rewrite list_lookup_insert_eq by (by eapply lookup_lt_Some). intros [= <-].
        split; simpl; rewrite ?Hpu, ?Hpo, ?Hc, ?Hidle; try done.
        -- by rewrite Hsub, decide_True, Hp.
        -- destruct (w_mode w); try done. destruct Hmd. congruence.
      * rewrite list_lookup_insert_ne by done. intros Ev. pose proof (Hwk _ _ Ev) as [Hr2 Hp2 Hst2 Hi2 Hmd2].
        split; try done.
        -- by rewrite Hsub, decide_False, app_nil_r.
        -- intros y Hy. destruct (Hi2 y Hy) as [Hh Hys]. rewrite Et in Hh. injection Hh as ->. congruence.
  - left. unfold events. simpl. rewrite Et. simpl.
    pose proof (sum_insert wev _ _ _ (mkWorker s' (w_mode w) (w_st w)) Ew) as Hsum.
    unfold wev in Hsum at 2 4. simpl in Hsum. rewrite Hpu, Hpo, length_app in Hsum. simpl in Hsum.
    apply inv_queue in Hr as [_ Hd]. unfold zlen in Hd. lia.
Qed.

Lemma pc_idle (pc : prod_pc (T:=T)) : pc = PIdle ∨ pc ≠ PIdle.
Proof using. by destruct pc; [left|right..]. Qed.

Lemma prod_step_push (m : machine (T:=T) (St:=St)) x rest w r p res :
  todo m = x :: rest → workers m !! shard x = Some w → ppc (w_sys w) ≠ PIdle →
  (∀ y, pc_item (ppc (w_sys w)) = Some y → y = x) →
  push_step (ring (w_sys w)) (ppc (w_sys w)) = Some (r, p, res) →
  prod_step shard m = Some (
    let s := w_sys w in
    match res with
    | Some true => mkMachine rest (u64 (sent m + 1)) (flag m)
        (<[shard x := mkWorker (mkSys r p (cpc s) (pushed s ++ [x]) (popped s)) (w_mode w) (w_st w)]> (workers m))
    | _ => set_worker m (shard x)
        (mkWorker (mkSys r p (cpc s) (pushed s) (popped s)) (w_mode w) (w_st w))
    end).
Proof using.
  intros Et Ew Hne Hit E. unfold prod_step. rewrite Et, Ew. cbn [mbind option_bind]. cbv zeta.
  destruct (ppc (w_sys w)) as [|item|item head|item head|item head] eqn:Ep; [done|..]; rewrite E;
    cbn [mbind option_bind]; destruct res as [[]|]; try done; simpl in E; try by simplify_eq.
  - by destruct (looks_full _ _); simplify_eq.
  - inv_bind E; by simplify_eq.
  - simpl. by rewrite (Hit item).
Qed.

Lemma prod_effect m d :
  minv m d →
  match prod_step shard m with
  | None => flag m = true
  | Some m' => (∃ d', minv m' d') ∧ effect 0 m m'
  end.
Proof using Hshard.
  intros Hm. pose proof Hm as [Hsp Hse Hfl Hle Hwk].
  destruct (todo m) as [|x rest] eqn:Et.
  { unfold prod_step. rewrite Et. destruct (flag m) eqn:Ef; [done|]. split.
    - exists d. split; simpl; try done. intros i w Ew. destruct (Hwk i w Ew) as [? ? ? Hi Hmd].
      split; try done. destruct (w_mode w); try done. by destruct Hmd.
    - left. unfold events. simpl. rewrite Et, Ef. simpl. lia. }
  destruct (lookup_lt_is_Some_2 (workers m) (shard x)) as [w Ew].
  { rewrite Hle. apply Hshard. rewrite Hsp. apply elem_of_app. right. by left. }
  pose proof (Hwk _ _ Ew) as [Hr Hp Hst Hi Hmd].
  assert (Hit : ∀ y, pc_item (ppc (w_sys w)) = Some y → y = x).
  { intros y Hy. destruct (Hi y Hy) as [Hh _]. by injection Hh. }
  destruct (pc_idle (ppc (w_sys w))) as [Hidle|Hne].
  - assert (E : prod_step shard m = Some (set_worker m (shard x) (mkWorker
      (mkSys (ring (w_sys w)) (PStart x) (cpc (w_sys w)) (pushed (w_sys w)) (popped (w_sys w))) (w_mode w) (w_st w)))).
    { unfold prod_step. rewrite Et, Ew. cbn [mbind option_bind]. by rewrite Hidle. }
    rewrite E. destruct (push_quiet m d x rest w
      (mkSys (ring (w_sys w)) (PStart x) (cpc (w_sys w)) (pushed (w_sys w)) (popped (w_sys w)))) as [? ?];
      try done; eauto; simpl.
    + destruct (w_sys w). simpl in *. subst. constructor.
    + by intros y [= ->].
    + rewrite Hidle. simpl. lia.
  - destruct (push_access (w_sys w) x Hr Hit Hne) as (r & p & res & E & Hs & Hpc & Hrk).
    rewrite (prod_step_push m x rest w r p res) by done. cbv zeta. destruct res as [[]|].
    + destruct (push_done m d x rest w _ Hm Et Ew Hs) as [? ?]; eauto.
    + destruct (push_quiet m d x rest w _ Hm Et Ew Hs) as [? ?]; eauto.
    + destruct (push_quiet m d x rest w _ Hm Et Ew Hs) as [? ?]; eauto.
Qed.

(** The worker's accesses: nothing the producer reads changes unless an item is popped. *)
Lemma work_quiet m d i w w' :
  minv m d → workers m !! i = Some w → w_mode w ≠ WDone → w_mode w' ≠ WDone →
  (w_sys w' = w_sys w ∨ step (w_sys w) (w_sys w')) →
  ppc (w_sys w') = ppc (w_sys w) → pushed (w_sys w') = pushed (w_sys w) →
  popped (w_sys w') = popped (w_sys w) → w_st w' = w_st w →
  match w_mode w' with
  | WPop => True | WCheck => cpc (w_sys w') = CIdle | _ => flag m = true
  end →
  (length (popped (w_sys w)) ≠ length (pushed (w_sys w)) ∨ flag m = true → (work_rank w' < work_rank w)%nat) →
  minv (set_worker m i w') d ∧ effect (S i) m (set_worker m i w').
Proof using.
  intros Hm Ew Hmd Hmd' Hs Hpp Hpu Hpo Hst' Hmode Hrk.
  pose proof (mv_worker m d Hm _ _ Ew) as [Hr Hp Hst Hi _].
  assert (Hr' : ring_ok (w_sys w') ∧ cap_ (ring (w_sys w')) = cap_ (ring (w_sys w))).
  { destruct Hs as [->|Hs]; [done|by apply ring_ok_step]. }
  destruct Hr' as [Hr' Hcap]. split.
  - apply (set_worker_inv m d _ w); [done|done|]. split; rewrite ?Hpu, ?Hpo, ?Hpp, ?Hst'; try done.
    by destruct (w_mode w').
  - apply set_worker_quiet with w; try done.
    + unfold wev. by rewrite Hpu, Hpo, !decide_False.
    + intros k _ [Hf Hk]. split; [|by rewrite Hpp]. unfold full in *. by rewrite Hpu, Hpo, Hcap.
    + intros k _ (_ & He & Hk). exists (work_rank w'). split; [rewrite <- Hk; by apply Hrk|].
      unfold work_ready. by rewrite Hpu, Hpo.
    + by right.
Qed.

(** A popped item is applied. *)
Lemma pop_done m d i w s' x st :
  minv m d → workers m !! i = Some w → w_mode w ≠ WDone → step (w_sys w) s' → ppc s' = ppc (w_sys w) →
  pushed s' = pushed (w_sys w) → popped s' = popped (w_sys w) ++ [x] → app (w_st w) x = Some st →
  let m' := set_worker m i (mkWorker s' WPop st) in minv m' d ∧ effect (S i) m m'.
Proof using.
  intros Hm Ew Hmd Hs Hpp Hpu Hpo Ha. cbv zeta. pose proof (mv_worker m d Hm _ _ Ew) as [Hr Hp Hst Hi _].
  destruct (ring_ok_step _ _ Hr Hs) as [Hr' _]. split.
  - apply (set_worker_inv m d _ w); [done|done|]. split; simpl; rewrite ?Hpu, ?Hpo, ?Hpp; try done.
    rewrite foldM_app, Hst. cbn [mbind option_bind foldM]. by rewrite Ha.
  - left. unfold events. simpl. pose proof (sum_insert wev _ _ _ (mkWorker s' WPop st) Ew) as Hsum.
    unfold wev in Hsum at 2 4. simpl in Hsum. rewrite Hpu, Hpo, length_app, decide_False in Hsum by done.
    simpl in Hsum. apply inv_queue in Hr' as [_ Hd]. unfold zlen in Hd.
    rewrite Hpu, Hpo, length_app in Hd. simpl in Hd. lia.
Qed.

(** A worker that finds the ring empty in its second [pop] stops. *)
Lemma work_stops m d i w s' :
  minv m d → workers m !! i = Some w → w_mode w = WLast → step (w_sys w) s' → ppc s' = ppc (w_sys w) →
  pushed s' = pushed (w_sys w) → popped s' = popped (w_sys w) → pushed (w_sys w) = popped (w_sys w) →
  let m' := set_worker m i (mkWorker s' WDone (w_st w)) in minv m' d ∧ effect (S i) m m'.
Proof using.
  intros Hm Ew Hmd Hs Hpp Hpu Hpo He. cbv zeta. pose proof (mv_worker m d Hm _ _ Ew) as [Hr Hp Hst Hi Hmode].
  rewrite Hmd in Hmode. destruct (ring_ok_step _ _ Hr Hs) as [Hr' _]. split.
  - apply (set_worker_inv m d _ w); [done|done|]. split; simpl; rewrite ?Hpu, ?Hpo, ?Hpp; done.
  - left. unfold events. simpl. pose proof (sum_insert wev _ _ _ (mkWorker s' WDone (w_st w)) Ew) as Hsum.
    unfold wev in Hsum at 2 4. simpl in Hsum. rewrite Hpu, Hpo, Hmd in Hsum. simpl in Hsum. lia.
Qed.

(** The item popped next can be applied. *)
Lemma app_next m d i w s' x :
  minv m d → workers m !! i = Some w → step (w_sys w) s' → pushed s' = pushed (w_sys w) →
  popped s' = popped (w_sys w) ++ [x] → is_Some (app (w_st w) x).
Proof using Happ.
  intros Hm Ew Hs Hpu Hpo. pose proof (mv_worker m d Hm _ _ Ew) as [Hr Hp Hst _ _].
  destruct (ring_ok_step _ _ Hr Hs) as [Hr' _]. apply inv_queue in Hr' as [Hq _].
  assert (Hi : (i < W)%nat) by (rewrite <- (mv_len m d Hm); by eapply lookup_lt_Some).
  specialize (Happ i Hi). rewrite (mv_split m d Hm), filter_app in Happ.
  change (filter (λ y, shard y = i) d) with (sub i d) in Happ. rewrite <- Hp, <- Hpu, Hq, Hpo in Happ.
  rewrite <- !app_assoc, foldM_app, Hst in Happ. cbn [mbind option_bind] in Happ.
  rewrite foldM_app in Happ. cbn [foldM] in Happ. destruct (app (w_st w) x); [done|by destruct Happ].
Qed.

Lemma cpc_idle (pc : cons_pc (T:=T)) : pc = CIdle ∨ pc ≠ CIdle.
Proof using. by destruct pc; [left|right..]. Qed.

Lemma work_step_pop m i w r c res :
  workers m !! i = Some w → (w_mode w = WPop ∨ w_mode w = WLast) → cpc (w_sys w) ≠ CIdle →
  pop_step (ring (w_sys w)) (cpc (w_sys w)) = Some (r, c, res) →
  work_step app i m =
    let s := w_sys w in
    match res with
    | None => Some (set_worker m i (mkWorker (mkSys r (ppc s) c (pushed s) (popped s)) (w_mode w) (w_st w)))
    | Some None => Some (set_worker m i (mkWorker (mkSys r (ppc s) c (pushed s) (popped s))
        (if decide (w_mode w = WPop) then WCheck else WDone) (w_st w)))
    | Some (Some x) => st ← app (w_st w) x;
        Some (set_worker m i (mkWorker (mkSys r (ppc s) c (pushed s) (popped s ++ [x])) WPop st))
    end.
Proof using.
  intros Ew Hmd Hne E. unfold work_step. rewrite Ew. cbn [mbind option_bind]. cbv zeta.
  destruct Hmd as [-> | ->]; destruct (cpc (w_sys w)); try done; rewrite E; cbn [mbind option_bind]; done.
Qed.

Lemma work_effect m d i :
  minv m d →
  match work_step app i m with
  | None => ∀ w, workers m !! i = Some w → w_mode w = WDone
  | Some m' => minv m' d ∧ effect (S i) m m'
  end.
Proof using Happ.
  intros Hm. destruct (workers m !! i) as [w|] eqn:Ew; [|unfold work_step; by rewrite Ew].
  pose proof (mv_worker m d Hm _ _ Ew) as [Hr _ _ _ Hmode].
  destruct (decide (w_mode w = WDone)) as [Hd|Hd].
  { unfold work_step. rewrite Ew. cbn [mbind option_bind]. rewrite Hd. by intros ? [= <-]. }
  destruct (decide (w_mode w = WCheck)) as [Hc|Hc].
  { unfold work_step. rewrite Ew. cbn [mbind option_bind]. rewrite Hc. rewrite Hc in Hmode.
    apply (work_quiet m d i w); simpl; try done; auto.
    - by destruct (flag m).
    - by destruct (flag m).
    - intros He. unfold work_rank. simpl. rewrite Hc, Hmode. destruct (flag m); simpl; [lia|].
      rewrite decide_False; [lia|]. destruct He; [congruence|done]. }
  assert (Hmd : w_mode w = WPop ∨ w_mode w = WLast) by (destruct (w_mode w); auto; done).
  assert (Hfl : w_mode w = WLast → flag m = true) by (intros E; by rewrite E in Hmode).
  destruct (cpc_idle (cpc (w_sys w))) as [Hidle|Hne].
  - assert (E : work_step app i m = Some (set_worker m i (mkWorker
      (mkSys (ring (w_sys w)) (ppc (w_sys w)) CStart (pushed (w_sys w)) (popped (w_sys w))) (w_mode w) (w_st w)))).
    { unfold work_step. rewrite Ew. cbn [mbind option_bind]. rewrite Hidle. by destruct Hmd as [-> | ->]. }
    rewrite E. apply (work_quiet m d i w); simpl; try done.
    + right. destruct (w_sys w). simpl in *. subst. constructor.
    + destruct Hmd as [Hx|Hx]; rewrite Hx; auto.
    + intros _. unfold work_rank. simpl. rewrite Hidle. destruct Hmd as [-> | ->]; [case_decide|]; simpl; lia.
  - destruct (pop_access (w_sys w) Hr Hne) as (r & c & res & E & Hs & Hres & Hemp & Hnon & Hrk).
    rewrite (work_step_pop m i w r c res) by done. cbv zeta. destruct res as [[x|]|].
    + destruct (app_next m d i w _ x Hm Ew Hs) as [st Hst]; [done..|]. rewrite Hst. cbn [mbind option_bind].
      apply (pop_done m d i w _ x); done.
    + destruct Hmd as [Hx|Hx].
      * rewrite Hx, decide_True by done. apply (work_quiet m d i w); simpl; auto; try done; [by apply Hres|].
        intros _. unfold work_rank. simpl. rewrite Hx, Hemp, decide_True by done.
        destruct (cpc (w_sys w)); simpl in *; try done; try lia; inv_bind E; simplify_eq.
      * rewrite Hx, decide_False by done. apply (work_stops m d i w); auto.
    + apply (work_quiet m d i w); simpl; auto; try done.
      * destruct Hmd as [Hx|Hx]; rewrite Hx; auto.
      * intros _. specialize (Hrk eq_refl). unfold work_rank. simpl. destruct Hmd as [-> | ->]; [case_decide|]; lia.
Qed.

(** * Every thread, every schedule *)

(** Thread [t] has ended (or does not exist). *)

Definition ended (t : nat) (m : machine (T:=T) (St:=St)) : Prop :=
  match t with
  | O => flag m = true
  | S i => ∀ w, workers m !! i = Some w → w_mode w = WDone
  end.

Lemma thread_effect t m d :
  minv m d →
  match thread_step app shard t m with
  | None => ended t m
  | Some m' => (∃ d', minv m' d') ∧ effect t m m'
  end.
Proof using Happ Hshard.
  intros Hm. destruct t as [|i]; simpl; [by apply (prod_effect m d)|].
  pose proof (work_effect m d i Hm) as H. destruct (work_step app i m); [|done]. destruct H. eauto.
Qed.

Lemma run_inv sched m d : minv m d → ∃ d', minv (run app shard sched m) d'.
Proof using Happ Hshard.
  revert m d. induction sched as [|t sched IH]; intros m d Hm; simpl; [by exists d|].
  pose proof (thread_effect t m d Hm) as H. unfold sched_step.
  destruct (thread_step app shard t m) as [m'|]; simpl; [|by eapply IH].
  destruct H as [[d' Hm'] _]. by eapply IH.
Qed.

Lemma helps_enabled t k m d : minv m d → helps t k m → ¬ ended t m.
Proof using.
  intros Hm Hh He. destruct t as [|i]; simpl in *.
  - destruct (todo m) eqn:Et; [congruence|]. rewrite (mv_flag m d Hm He) in Et. done.
  - destruct Hh as (w & Ew & Hmd & _). by apply Hmd, He.
Qed.

(** Until all threads have ended, some thread makes progress. *)
Lemma some_helps m d : minv m d → all_done m = false → ∃ t k, (t ≤ W)%nat ∧ helps t k m.
Proof using Hshard.
  intros Hm Had. pose proof Hm as [Hsp _ Hfl Hle Hwk]. unfold all_done in Had.
  destruct (flag m) eqn:Ef; simpl in Had.
  - assert (Hw : ∃ i w, workers m !! i = Some w ∧ w_mode w ≠ WDone).
    { clear -Had. induction (workers m) as [|w l IH]; [done|]. simpl in Had.
      destruct (decide (w_mode w = WDone)) as [Hd|Hd]; [|by exists 0%nat, w].
      rewrite bool_decide_true in Had by done. destruct (IH Had) as (i & v & ? & ?). by exists (S i), v. }
    destruct Hw as (i & w & Ew & Hd). exists (S i), (work_rank w). split.
    + apply lookup_lt_Some in Ew. lia.
    + exists w. split; [done|]. split_and!; [done|by right|done].
  - destruct (todo m) as [|x rest] eqn:Et; [exists 0%nat, 0%nat; simpl; rewrite Et; split; [lia|done]|].
    destruct (lookup_lt_is_Some_2 (workers m) (shard x)) as [w Ew].
    { rewrite Hle. apply Hshard. rewrite Hsp. apply elem_of_app. right. by left. }
    destruct (decide (zlen (pushed (w_sys w)) - zlen (popped (w_sys w)) = cap_ (ring (w_sys w)))) as [Hf|Hf].
    + exists (S (shard x)), (work_rank w). split; [apply lookup_lt_Some in Ew; lia|]. exists w. split; [done|].
      pose proof (Hwk _ _ Ew) as [(tc & hc & [(Hc & _) _ _ _ _ _ _ _ _]) _ _ _ Hmode]. split_and!; [| |done].
      * intros Hd. rewrite Hd in Hmode. by destruct Hmode.
      * left. apply cap_ok_range in Hc. unfold zlen in Hf. lia.
    + exists 0%nat, (push_rank (ppc (w_sys w))). split; [lia|]. simpl. rewrite Et. by exists w.
Qed.

(** The state of an infinite schedule after [n] steps. *)

Definition state_at (sched : nat → nat) (m : machine (T:=T) (St:=St)) (n : nat) : machine (T:=T) (St:=St) :=
  run app shard (sched <$> seq 0 n) m.

(** Every thread is scheduled again and again. *)

Definition fair (sched : nat → nat) : Prop := ∀ t n, (t ≤ W)%nat → ∃ n', (n ≤ n')%nat ∧ sched n' = t.

Lemma state_at_S sched m n :
  state_at sched m (S n) = sched_step app shard (sched n) (state_at sched m n).
Proof using.
  unfold state_at, run. by rewrite seq_S, fmap_app, foldl_app.
Qed.

(** The rank of the helpful thread goes down until something is achieved. *)
Lemma fair_step sched m0 n t k gap :
  (∀ n, ∃ d, minv (state_at sched m0 n) d) → fair sched → (t ≤ W)%nat →
  helps t k (state_at sched m0 n) → sched (n + gap)%nat = t →
  ∃ n', (n ≤ n')%nat ∧ (events (state_at sched m0 n') < events (state_at sched m0 n))%nat.
Proof using Happ Hshard.
  intros Hinv Hfair Ht. revert n gap. induction (lt_wf k) as [k _ IHk]. intros n gap. revert n.
  induction gap as [|gap IHg]; intros n Hh Hg.
  all: destruct (Hinv n) as [d Hd]; pose proof (thread_effect (sched n) _ d Hd) as He;
    pose proof (state_at_S sched m0 n) as Hn; unfold sched_step in Hn;
    pose proof (helps_enabled t k _ d Hd Hh) as Hen.
  - rewrite Nat.add_0_r in Hg. rewrite Hg in He, Hn.
    destruct (thread_step app shard t (state_at sched m0 n)) as [m'|]; [|done]. simpl in Hn.
    destruct He as [_ [Hlt|[Heq Hq]]]; [exists (S n); rewrite Hn; split; [lia|done]|].
    specialize (Hq t k Hh). rewrite decide_True in Hq by done. destruct Hq as (k' & Hk' & Hh').
    destruct (Hfair t (S n) Ht) as (n1 & Hn1 & Hs1). rewrite <- Hn in Hh'.
    destruct (IHk k' Hk' (S n) (n1 - S n)%nat Hh') as (n' & ? & Hlt).
    { by replace (S n + (n1 - S n))%nat with n1 by lia. }
    exists n'. rewrite Hn in Hlt. split; lia.
  - assert (Hnext : helps t k (state_at sched m0 (S n)) → events (state_at sched m0 (S n)) = events (state_at sched m0 n) →
      ∃ n', (n ≤ n')%nat ∧ (events (state_at sched m0 n') < events (state_at sched m0 n))%nat).
    { intros Hh' Heq. destruct (IHg (S n) Hh') as (n' & ? & Hlt).
      { by replace (S n + gap)%nat with (n + S gap)%nat by lia. }
      exists n'. rewrite Heq in Hlt. split; lia. }
    destruct (thread_step app shard (sched n) (state_at sched m0 n)) as [m'|]; simpl in Hn.
    + destruct He as [_ [Hlt|[Heq Hq]]]; [exists (S n); rewrite Hn; split; [lia|done]|].
      specialize (Hq t k Hh). case_decide as Hts.
      * destruct Hq as (k' & Hk' & Hh'). destruct (Hfair t (S n) Ht) as (n1 & Hn1 & Hs1). rewrite <- Hn in Hh'.
        destruct (IHk k' Hk' (S n) (n1 - S n)%nat Hh') as (n' & ? & Hlt).
        { by replace (S n + (n1 - S n))%nat with n1 by lia. }
        exists n'. rewrite Hn in Hlt. split; lia.
      * rewrite Hn in Hnext. by apply Hnext.
    + rewrite Hn in Hnext. by apply Hnext.
Qed.

(** Under a fair schedule all threads end. *)
Lemma fair_terminates sched m0 d0 :
  minv m0 d0 → fair sched → ∃ n, all_done (state_at sched m0 n) = true.
Proof using Happ Hshard.
  intros Hm Hfair. assert (Hinv : ∀ n, ∃ d, minv (state_at sched m0 n) d) by (intros; by eapply run_inv).
  assert (H : ∀ e n, events (state_at sched m0 n) = e → ∃ n', all_done (state_at sched m0 n') = true);
    [|by eapply (H _ 0%nat)].
  intros e. induction (lt_wf e) as [e _ IH]. intros n He.
  destruct (all_done (state_at sched m0 n)) eqn:Had; [by exists n|].
  destruct (Hinv n) as [d Hd]. destruct (some_helps _ d Hd Had) as (t & k & Ht & Hh).
  destruct (Hfair t n Ht) as (n1 & Hn1 & Hs).
  destruct (fair_step sched m0 n t k (n1 - n) Hinv Hfair Ht Hh) as (n' & _ & Hlt).
  { by replace (n + (n1 - n))%nat with n1 by lia. }
  apply (IH (events (state_at sched m0 n'))) with n'; [lia|done].
Qed.

(** When all have ended, every worker has applied exactly the items of its shard. *)
Lemma done_result m d :
  minv m d → all_done m = true →
  sent m = u64 (zlen items) ∧ length (workers m) = W ∧
  ∀ i w, workers m !! i = Some w → foldM app st0 (sub i items) = Some (w_st w).
Proof using.
  intros [Hsp Hse Hfl Hle Hwk] Had. unfold all_done in Had. apply andb_prop in Had as [Hf Hd].
  rewrite (Hfl Hf), app_nil_r in Hsp. subst d. split_and!; [done|done|]. intros i w Ew.
  destruct (Hwk i w Ew) as [_ Hp Hst _ Hmd]. rewrite forallb_forall in Hd.
  specialize (Hd w (proj1 (list_elem_of_In _ _) (list_elem_of_lookup_2 _ _ _ Ew))).
  apply bool_decide_eq_true in Hd. rewrite Hd in Hmd. destruct Hmd as [_ Hpp]. by rewrite <- Hp, <- Hpp.
Qed.

Lemma machine0_inv (dflt : T) n rings :
  0 ≤ n ≤ 2 ^ 63 → length rings = W → Forall (λ r, make_ring dflt n = Some r) rings →
  minv (machine0 items rings st0) [].
Proof using.
  intros Hn Hl Hr. split; simpl; try done; [by rewrite length_fmap|].
  intros i w Ew. rewrite list_lookup_fmap_Some in Ew. destruct Ew as (r & -> & Er).
  rewrite Forall_lookup in Hr. destruct (make_ring_inv dflt n r Hn (Hr _ _ Er)) as [Hi _]. by split.
Qed.

End Correct.
