(* ===== verification/Pipeline.v ===== *)
(** The threaded replays: [replay_pipelined] (include/feed/pipeline.hpp), one producer and one
    consumer, and [replay_sharded] (include/feed/sharded_pipeline.hpp), one producer and a
    worker per shard.  Both are the machine of [Dispatch]; the items are the messages that
    [for_each_framed_message] hands to its callback, in order.  The deframer reads nothing
    but the input buffer, which no thread writes, so they are determined beforehand. *)
From S2P Require Export Replay Dispatch.

Definition sink_calls (buf : list Z) (len : Z) : option (list Message) :=
  r ← for_each_framed_message (λ ms m, Some (ms ++ [m])) buf len []; Some r.2.

(** * One consumer *)

Definition pipeline0 (buf : list Z) (len : Z) (b : OrderBook) (ring_capacity : Z) :
    option (machine (T:=Message) (St:=Z * OrderBook)) :=
  ms ← sink_calls buf len; r ← make_ring message0 ring_capacity;
  Some (machine0 ms [r] (0, b)).

(** One step of the producer (0) or the consumer (1). *)

Definition pipeline_step (t : nat) : machine → option (machine (T:=Message) (St:=Z * OrderBook)) :=
  thread_step replay_sink (λ _, 0%nat) t.

(** The threads run by a schedule; a result once both have ended. *)

Definition replay_pipelined (sched : list nat) (buf : list Z) (len : Z) (b : OrderBook)
    (ring_capacity : Z) : option (Z * OrderBook) :=
  m0 ← pipeline0 buf len b ring_capacity;
  let m := run replay_sink (λ _, 0%nat) sched m0 in
  if all_done m then w ← workers m !! 0%nat; Some (w_st w) else None.

(** * Shards *)

(** [(static_cast<unsigned>(m.stock_locate) * 2654435761u) % W]. *)

Definition shard_of (W locate : Z) : nat := Z.to_nat (u32 (u32 locate * 2654435761) `mod` W).

Definition sharded0 (buf : list Z) (len : Z) (W : Z) :
    option (machine (T:=Message) (St:=BookSet)) :=
  ms ← sink_calls buf len; r ← make_ring message0 4096;
  Some (machine0 ms (replicate (Z.to_nat W) r) set0).

Definition sharded_step (W : Z) (t : nat) : machine → option (machine (T:=Message) (St:=BookSet)) :=
  thread_step BookSet.apply (λ m, shard_of W (stock_locate m)) t.

(** [out.merge_from(shard_books[w])] for every worker; [iters] are the traversal orders of
    the shards' maps. *)

Definition merge_all (out : BookSet) (iters : list (list (Z * OrderBook) * list (Z * list Z))) : BookSet :=
  foldl (λ o it, (merge_from o it.1 it.2).1) out iters.

Definition traversal (bs : BookSet) (it : list (Z * OrderBook) * list (Z * list Z)) : Prop :=
  it.1 ≡ₚ map_to_list (books_ bs) ∧ it.2 ≡ₚ map_to_list (symbols_ bs).

Definition clamp_workers (n_workers : Z) : Z := if n_workers <? 1 then 1 else n_workers.

(** The shards once all threads have ended. *)

Definition sharded_shards (sched : list nat) (buf : list Z) (len : Z) (n_workers : Z) :
    option (Z * list BookSet) :=
  let W := clamp_workers n_workers in
  m0 ← sharded0 buf len W;
  let m := run BookSet.apply (λ m, shard_of W (stock_locate m)) sched m0 in
  if all_done m then Some (sent m, w_st <$> workers m) else None.

(** [replay_sharded] with the traversal orders that [orders] picks for the shards. *)

Definition replay_sharded (sched : list nat) (orders : BookSet → list (Z * OrderBook) * list (Z * list Z))
    (buf : list Z) (len : Z) (out : BookSet) (n_workers : Z) : option (Z * BookSet) :=
  r ← sharded_shards sched buf len n_workers; Some (r.1, merge_all out (orders <$> r.2)).

(** The single-threaded replay of the command-line tool (apps/obreplay.cpp):
    [book.apply(m); ++n;] for every message. *)

Definition set_sink (nb : Z * BookSet) (m : Message) : option (Z * BookSet) :=
  bs ← BookSet.apply nb.2 m; Some (u64 (nb.1 + 1), bs).

Definition replay_set (buf : list Z) (len : Z) : option (Z * BookSet) :=
  r ← for_each_framed_message set_sink buf len (0, set0); Some r.2.

(** * The messages of a buffer *)

Lemma frames_bytes_ok bs : bytes_ok (frames bs) → Forall bytes_ok bs.
Proof.
  induction bs as [|b bs IH]; [constructor|]. rewrite frames_cons. intros [Hb Hbs]%Forall_app.
  constructor; [|by apply IH]. unfold record in Hb. by do 2 (apply Forall_cons in Hb as [_ Hb]).
Qed.

Lemma decode_body_ok b m : bytes_ok b → decode_body b = Some m → msg_ok m ∧ 11 ≤ zlen b.
Proof.
  intros Hok E. unfold decode_body in E. destruct (decide (11 ≤ zlen b)) as [Hl|Hl].
  - destruct (decode_in_buf b (zlen b) message0) as (m' & t & _ & Ed & Hm & _); [done|lia|].
    rewrite Ed in E. split; [|done]. case_bool_decide; by simplify_eq.
  - exfalso. unfold Itch.decode in E. revert E. destruct (Z.ltb_spec (zlen b) 11); [done|lia].
Qed.

Lemma messages_ok bs :
  Forall bytes_ok bs → Forall msg_ok (messages bs) ∧ 13 * zlen (messages bs) ≤ zlen (frames bs).
Proof.
  induction 1 as [|b bs Hb _ [IH1 IH2]]; [split; [constructor|done]|].
  rewrite frames_cons, zlen_app, record_zlen. pose proof (zlen_nonneg b). unfold messages in *. cbn [omap list_omap].
  destruct (decode_body b) as [m|] eqn:E; [|split; [done|lia]].
  destruct (decode_body_ok b m Hb E). rewrite zlen_cons. split; [by constructor|lia].
Qed.

Lemma sink_calls_spec buf :
  bytes_ok buf → zlen buf < 2 ^ 63 →
  ∃ ms used, sink_calls buf (zlen buf) = Some ms ∧ Forall msg_ok ms ∧ 13 * zlen ms ≤ zlen buf ∧
    ∀ S (sink : S → Message → option S) s,
      for_each_framed_message sink buf (zlen buf) s = s' ← foldM sink s ms; Some (used, s').
Proof.
  intros Hok Hlen.
  destruct (framed_loop_spec (λ ms m, Some (ms ++ [m])) (Datatypes.S (length buf)) [] buf)
    as (bs & t & -> & Hb & Hs & _); [lia|done|done|].
  apply Forall_app in Hok as [Hok Htok]. pose proof (frames_bytes_ok bs Hok) as Hbok.
  assert (Hall : ∀ S (sink : S → Message → option S) s,
    for_each_framed_message sink (frames bs ++ t) (zlen (frames bs ++ t)) s =
      s' ← foldM sink s (messages bs); Some (zlen (frames bs), s')) by (intros; by apply framed_roundtrip).
  destruct (messages_ok bs Hbok). exists (messages bs), (zlen (frames bs)). split_and!; [|done| |done].
  - unfold sink_calls. by rewrite Hall, collect_fold.
  - rewrite zlen_app. pose proof (zlen_nonneg t). lia.
Qed.

(** * Properties *)

Section Pipelined.
Context (buf : list Z) (b : OrderBook) (ring_capacity n : Z) (b' : OrderBook).
Hypothesis Hok : bytes_ok buf.
Hypothesis Hlen : zlen buf < 2 ^ 63.
Hypothesis Hcap : 0 ≤ ring_capacity ≤ 2 ^ 63.
Hypothesis Hsingle : replay_single_threaded buf (zlen buf) b = Some (n, b').

(** The initial state satisfies the invariant, for the messages of the buffer. *)
Lemma pipeline0_inv :
  ∃ ms m0, pipeline0 buf (zlen buf) b ring_capacity = Some m0 ∧
    minv replay_sink (λ _, 0%nat) (0, b) ms 1 m0 [] ∧ foldM replay_sink (0, b) ms = Some (n, b').
Proof using Hok Hlen Hcap Hsingle.
  destruct (sink_calls_spec buf Hok Hlen) as (ms & used & Hms & _ & _ & Hall).
  assert (Hr : ∃ r, make_ring message0 ring_capacity = Some r).
  { unfold make_ring. destruct (round_up_pow2_spec ring_capacity Hcap) as (cap & -> & _). by eexists. }
  destruct Hr as [r Hr]. exists ms, (machine0 ms [r] (0, b)).
  unfold pipeline0. rewrite Hms, Hr. split_and!; [done| |].
  - apply (machine0_inv _ _ _ _ _ message0 ring_capacity); [done|done|by repeat constructor].
  - unfold replay_single_threaded in Hsingle. rewrite Hall in Hsingle.
    destruct (foldM replay_sink (0, b) ms) as [y|]; [|done]. simpl in Hsingle. by injection Hsingle as ->.
Qed.

Lemma one_shard (ms : list Message) : sub (λ _, 0%nat) 0 ms = ms.
Proof using. unfold sub. induction ms as [|m ms IH]; [done|]. by rewrite filter_cons_True, IH. Qed.

Lemma pipeline_app ms :
  foldM replay_sink (0, b) ms = Some (n, b') →
  ∀ i, (i < 1)%nat → is_Some (foldM replay_sink (0, b) (filter (λ _, 0%nat = i) ms)).
Proof using.
  intros E i Hi. replace i with 0%nat by lia. change (filter _ ms) with (sub (λ _, 0%nat) 0 ms).
  by rewrite one_shard, E.
Qed.

End Pipelined.

(** What the pipelined replay returns under a schedule: the result of the single thread once both
    threads have ended, and they end under every fair one. *)
Lemma pipelined_runs buf b ring_capacity n b' :
  bytes_ok buf → zlen buf < 2 ^ 63 → 0 ≤ ring_capacity ≤ 2 ^ 63 →
  replay_single_threaded buf (zlen buf) b = Some (n, b') →
  ∃ m0, pipeline0 buf (zlen buf) b ring_capacity = Some m0 ∧
    (∀ sched t, let m := run replay_sink (λ _, 0%nat) sched m0 in pipeline_step t m = None → ended t m) ∧
    (∀ sched, replay_pipelined sched buf (zlen buf) b ring_capacity =
       if all_done (run replay_sink (λ _, 0%nat) sched m0) then Some (n, b') else None) ∧
    (∀ sched, fair 1 sched → ∃ k, all_done (run replay_sink (λ _, 0%nat) (sched <$> seq 0 k) m0) = true).
Proof.
  intros Hok Hlen Hcap Hs. destruct (pipeline0_inv buf b ring_capacity n b' Hok Hlen Hcap Hs) as (ms & m0 & E & Hm & Hf).
  pose proof (pipeline_app b n b' ms Hf) as Happ.
  assert (Hsh : ∀ x : Message, x ∈ ms → (0 < 1)%nat) by lia.
  exists m0. split_and!; [done| | |].
  - intros sched t. cbv zeta. intros Ht. destruct (run_inv _ _ _ _ _ Hsh Happ sched m0 [] Hm) as [d Hd].
    pose proof (thread_effect _ _ _ _ _ Hsh Happ t _ d Hd) as He. unfold pipeline_step in Ht.
    by rewrite Ht in He.
  - intros sched. unfold replay_pipelined. rewrite E. cbn [mbind option_bind]. destruct (all_done _) eqn:Hd; [|done].
    destruct (run_inv _ _ _ _ _ Hsh Happ sched m0 [] Hm) as [d Hd'].
    destruct (done_result _ _ _ _ _ _ d Hd' Hd) as (_ & Hl & Hw).
    destruct (lookup_lt_is_Some_2 (workers (run replay_sink (λ _, 0%nat) sched m0)) 0) as [w Ew]; [rewrite Hl; lia|].
    rewrite Ew. apply Hw in Ew. rewrite one_shard, Hf in Ew. simpl. by injection Ew as ->.
  - intros sched Hfair. destruct (fair_terminates _ _ _ _ _ Hsh Happ sched m0 [] Hm Hfair) as [k Hk]. by exists k.
Qed.

(** C6: The two-thread replay is the single-threaded one.  For every buffer, every ring
    capacity and every interleaving: no step of a thread that is still running fails; when
    both threads have ended, the count and the book are those of the single-threaded replay;
    and under every fair schedule both threads do end. *)
Theorem pipelined_equals_single buf b ring_capacity n b' :
  bytes_ok buf → zlen buf < 2 ^ 63 → 0 ≤ ring_capacity ≤ 2 ^ 63 →
  replay_single_threaded buf (zlen buf) b = Some (n, b') →
  ∃ m0, pipeline0 buf (zlen buf) b ring_capacity = Some m0 ∧
    (∀ sched t, let m := run replay_sink (λ _, 0%nat) sched m0 in
       pipeline_step t m = None → ended t m) ∧
    (∀ sched r, replay_pipelined sched buf (zlen buf) b ring_capacity = Some r → r = (n, b')) ∧
    (∀ sched, fair 1 sched → ∃ k,
       replay_pipelined (sched <$> seq 0 k) buf (zlen buf) b ring_capacity = Some (n, b')).
Proof.
  intros Hok Hlen Hcap Hs. destruct (pipelined_runs buf b ring_capacity n b' Hok Hlen Hcap Hs) as (m0 & E & Hst & Hall & Hfair).
  exists m0. split_and!; [done|done| |].
  - intros sched r Hr. rewrite Hall in Hr. destruct (all_done _); congruence.
  - intros sched [k Hk]%Hfair. exists k. by rewrite Hall, Hk.
Qed.

(** Three records through a ring of two slots. *)

Definition demo_stream : list Z :=
  write_stream [WAdd 1 34200000000000 1 66 100 1000000; WAdd 2 34200000000001 2 83 50 1000200;
                WDelete 1 34200000000002 1].

Definition demo_book : Z * OrderBook :=
  default (0, book0) (replay_single_threaded demo_stream (zlen demo_stream) book0).

(** Producer and consumer in turn. *)
Lemma alternate_fair W : fair W (λ n, n `mod` S W)%nat.
Proof.
  intros t n Ht. exists (n * S W + t)%nat. split; [nia|].
  rewrite Nat.add_comm, Nat.Div0.mod_add. apply Nat.mod_small. lia.
Qed.

Lemma pipelined_equals_single_witness :
  bytes_ok demo_stream ∧ replay_single_threaded demo_stream (zlen demo_stream) book0 = Some demo_book ∧
  ∃ k, replay_pipelined ((λ n, n `mod` 2)%nat <$> seq 0 k) demo_stream (zlen demo_stream) book0 2 = Some demo_book.
Proof.
  assert (Hok : bytes_ok demo_stream) by (apply (bool_decide_unpack _); vm_compute; exact I).
  assert (Hs : replay_single_threaded demo_stream (zlen demo_stream) book0 = Some (demo_book.1, demo_book.2))
    by (vm_compute; reflexivity).
  split_and!; [exact Hok|rewrite Hs; reflexivity|].
  destruct (pipelined_equals_single demo_stream book0 2 demo_book.1 demo_book.2 Hok
    ltac:(vm_compute; reflexivity) ltac:(lia) Hs) as (m0 & _ & _ & _ & Hfair).
  exact (Hfair _ (alternate_fair 1)).
Defined.

(** * Shards *)

Lemma shard_of_lt W loc : 1 ≤ W → (shard_of W loc < Z.to_nat W)%nat.
Proof.
  intros HW. unfold shard_of. pose proof (Z.mod_pos_bound (u32 (u32 loc * 2654435761)) W). lia.
Qed.

Lemma part_none (keep : Z → Prop) `{∀ l, Decision (keep l)} ms : (∀ l, ¬ keep l) → part keep ms = [].
Proof. intros Hk. unfold part. induction ms as [|m ms IH]; [done|]. by rewrite filter_cons_False. Qed.

Lemma part_all (keep : Z → Prop) `{∀ l, Decision (keep l)} ms : (∀ l, keep l) → part keep ms = ms.
Proof. intros Hk. unfold part. induction ms as [|m ms IH]; [done|]. by rewrite filter_cons_True, IH. Qed.

Section Sharded.
Context (W : Z) (ms : list Message).
Hypothesis HW : 1 ≤ W.
Hypothesis Hms : Forall msg_ok ms.
Hypothesis Hlen : zlen ms ≤ 2 ^ 32.

Definition shard_msg (m : Message) : nat := shard_of W (stock_locate m).

Lemma sub_rep i : ∃ bs, foldM BookSet.apply set0 (sub shard_msg i ms) = Some bs ∧
  set_rep (part (λ l, shard_of W l = i) ms) bs.
Proof using Hms Hlen.
  apply apply_set_rep.
  - rewrite Forall_forall in *. intros m [_ Hin]%list_elem_of_filter. by apply Hms.
  - unfold part, zlen in *. pose proof (length_filter (λ m, shard_of W (stock_locate m) = i) ms). lia.
Qed.

(** Merging the first [k] shards gives the books of their locates. *)
Lemma merge_shards k shards iters :
  (k ≤ length shards)%nat → Forall2 traversal shards iters →
  (∀ i bs, shards !! i = Some bs → foldM BookSet.apply set0 (sub shard_msg i ms) = Some bs) →
  set_rep (part (λ l, (shard_of W l < k)%nat) ms) (merge_all set0 (take k iters)).
Proof using Hms Hlen.
  intros Hk Hit Hsh. induction k as [|k IH].
  - rewrite part_none by lia. apply set0_rep.
  - destruct (lookup_lt_is_Some_2 shards k) as [bs Ebs]; [lia|].
    destruct (Forall2_lookup_l _ _ _ _ _ Hit Ebs) as (it & Eit & Hb & Hs).
    rewrite (take_S_r _ _ it Eit). unfold merge_all. rewrite foldl_app. cbn [foldl].
    destruct (sub_rep k) as (bs' & E' & Hrep). rewrite (Hsh k bs Ebs) in E'. injection E' as <-.
    refine (merge_parts ms (λ l, (shard_of W l < k)%nat) (λ l, shard_of W l = k)
              (λ l, (shard_of W l < S k)%nat) _ bs _ _ _ _ _ Hrep Hb Hs); [lia|lia|apply IH; lia].
Qed.

End Sharded.

(** The count and the set of the single-threaded replay. *)
Lemma set_fold ms n bs :
  0 ≤ n → n + zlen ms < 2 ^ 64 →
  foldM set_sink (n, bs) ms = bs' ← foldM BookSet.apply bs ms; Some (n + zlen ms, bs').
Proof.
  revert n bs. induction ms as [|m ms IH]; intros n bs Hn Hlt.
  { simpl. unfold zlen. simpl. by rewrite Z.add_0_r. }
  rewrite zlen_cons in *. pose proof (zlen_nonneg ms). cbn [foldM]. unfold set_sink at 2.
  cbn [fst snd]. destruct (BookSet.apply bs m) as [bs1|]; [|done]. cbn [mbind option_bind].
  rewrite u64_small, IH by lia. by replace (n + 1 + zlen ms) with (n + (zlen ms + 1)) by lia.
Qed.

(** A book set replays a written feed to its end. *)
Lemma replay_set_written ws :
  Forall wire_ok ws → zlen ws ≤ 2 ^ 32 → ∃ bs, replay_set (write_stream ws) (zlen (write_stream ws)) = Some (zlen ws, bs).
Proof.
  intros Hw Hl. pose proof (write_stream_zlen ws Hw). pose proof (zlen_nonneg ws). unfold replay_set.
  rewrite replay_written by (done || lia). rewrite set_fold by (rewrite ?zlen_fmap; lia).
  destruct (apply_set_rep (wire_message <$> ws)) as (bs & Ebs & _); [by apply feed_msgs_ok|rewrite zlen_fmap; lia|].
  unfold apply_set in Ebs. rewrite Ebs. exists bs. by rewrite zlen_fmap.
Qed.

Section Buffer.
Context (buf : list Z) (n_workers : Z) (orders : BookSet → list (Z * OrderBook) * list (Z * list Z)).
Hypothesis Hok : bytes_ok buf.
Hypothesis Hlen : zlen buf ≤ 13 * 2 ^ 32.
Hypothesis Hord : ∀ bs, traversal bs (orders bs).

Definition nshards : Z := clamp_workers n_workers.

Lemma nshards_pos : 1 ≤ nshards.
Proof using. unfold nshards, clamp_workers. split_tests; lia. Qed.

Lemma sharded0_inv :
  ∃ ms m0 bs, sharded0 buf (zlen buf) nshards = Some m0 ∧
    minv BookSet.apply (shard_msg nshards) set0 ms (Z.to_nat nshards) m0 [] ∧
    Forall msg_ok ms ∧ zlen ms ≤ 2 ^ 32 ∧ set_rep ms bs ∧
    replay_set buf (zlen buf) = Some (zlen ms, bs).
Proof using Hok Hlen.
  destruct (sink_calls_spec buf Hok) as (ms & used & Hms & Hmok & Hz & Hall); [lia|].
  assert (Hl : zlen ms ≤ 2 ^ 32) by lia.
  destruct (round_up_pow2_spec 4096) as (cap & Ec & _); [lia|].
  destruct (apply_set_rep ms Hmok Hl) as (bs & Ebs & Hrep).
  eexists ms, _, bs. unfold sharded0. rewrite Hms. unfold make_ring. rewrite Ec. cbn [mbind option_bind].
  split_and!; [done| |done|done|done|].
  - apply (machine0_inv _ _ _ _ _ message0 4096); [lia|apply length_replicate|].
    apply Forall_replicate. unfold make_ring. by rewrite Ec.
  - unfold replay_set. rewrite Hall, set_fold by lia. unfold apply_set in Ebs. by rewrite Ebs.
Qed.

(** Shards that have applied their own messages merge into the set of all messages. *)
Lemma merged_shards ms (shards : list BookSet) bs :
  Forall msg_ok ms → zlen ms ≤ 2 ^ 32 → set_rep ms bs → length shards = Z.to_nat nshards →
  (∀ i x, shards !! i = Some x → foldM BookSet.apply set0 (sub (shard_msg nshards) i ms) = Some x) →
  merge_all set0 (orders <$> shards) = bs.
Proof using Hord.
  intros Hms Hl Hrep Hw Hsh. apply (set_rep_unique ms); [|done].
  pose proof (merge_shards nshards ms Hms Hl (Z.to_nat nshards) shards (orders <$> shards)) as H1.
  rewrite part_all in H1 by (intros; apply shard_of_lt, nshards_pos).
  rewrite take_ge in H1 by (rewrite length_fmap; lia). apply H1; [lia| |done].
  apply Forall2_fmap_r, Forall_Forall2_diag, Forall_true. apply Hord.
Qed.

(** The merged shards of a finished run are the set of all messages. *)
Lemma merged_result ms m d bs :
  minv BookSet.apply (shard_msg nshards) set0 ms (Z.to_nat nshards) m d → all_done m = true →
  Forall msg_ok ms → zlen ms ≤ 2 ^ 32 → set_rep ms bs →
  sent m = zlen ms ∧ merge_all set0 (orders <$> (w_st <$> workers m)) = bs.
Proof using Hord.
  intros Hm Hd Hms Hl Hrep. destruct (done_result _ _ _ _ _ _ d Hm Hd) as (Hs & Hw & Hsh).
  pose proof (zlen_nonneg ms). rewrite u64_small in Hs by lia. split; [done|].
  apply (merged_shards ms); [done..|by rewrite length_fmap|].
  intros i x Hx. rewrite list_lookup_fmap_Some in Hx. destruct Hx as (w & -> & Ew). by apply Hsh.
Qed.

End Buffer.

(** What the sharded replay returns under a schedule: the result of the single thread once the
    threads have ended, and they end under every fair one. *)
Lemma sharded_runs buf n_workers orders :
  bytes_ok buf → zlen buf ≤ 13 * 2 ^ 32 → (∀ bs, traversal bs (orders bs)) →
  let W := clamp_workers n_workers in
  ∃ m0 n bs, sharded0 buf (zlen buf) W = Some m0 ∧ replay_set buf (zlen buf) = Some (n, bs) ∧
    (∀ sched t, let m := run BookSet.apply (shard_msg W) sched m0 in sharded_step W t m = None → ended t m) ∧
    (∀ sched, replay_sharded sched orders buf (zlen buf) set0 n_workers =
       if all_done (run BookSet.apply (shard_msg W) sched m0) then Some (n, bs) else None) ∧
    (∀ sched, fair (Z.to_nat W) sched → ∃ k, all_done (run BookSet.apply (shard_msg W) (sched <$> seq 0 k) m0) = true).
Proof.
  intros Hok Hlen Hord. cbv zeta.
  destruct (sharded0_inv buf n_workers Hok Hlen) as (ms & m0 & bs & E & Hm & Hms & Hl & Hrep & Hset).
  unfold nshards in *. set (W := clamp_workers n_workers) in *.
  assert (Hsh : ∀ x : Message, x ∈ ms → (shard_msg W x < Z.to_nat W)%nat)
    by (intros; apply shard_of_lt, nshards_pos).
  assert (Happ : ∀ i, (i < Z.to_nat W)%nat → is_Some (foldM BookSet.apply set0 (filter (λ x, shard_msg W x = i) ms))).
  { intros i _. destruct (sub_rep W ms Hms Hl i) as (x & Ex & _). by exists x. }
  exists m0, (zlen ms), bs. split_and!; [done|done| | |].
  - intros sched t. cbv zeta. intros Ht. destruct (run_inv _ _ _ _ _ Hsh Happ sched m0 [] Hm) as [d Hd].
    pose proof (thread_effect _ _ _ _ _ Hsh Happ t _ d Hd) as He. unfold sharded_step in Ht.
    fold (shard_msg W) in Ht. by rewrite Ht in He.
  - intros sched. unfold replay_sharded, sharded_shards. fold W. rewrite E. cbn [mbind option_bind].
    fold (shard_msg W). destruct (all_done _) eqn:Hd; [|done]. cbn [mbind option_bind fst snd].
    destruct (run_inv _ _ _ _ _ Hsh Happ sched m0 [] Hm) as [d Hd'].
    destruct (merged_result n_workers orders Hord ms _ d bs Hd' Hd Hms Hl Hrep) as [-> ->]. done.
  - intros sched Hfair. destruct (fair_terminates _ _ _ _ _ Hsh Happ sched m0 [] Hm Hfair) as [k Hk]. by exists k.
Qed.

(** C7: The sharded replay is the single-threaded one.  For every buffer of up to 52 GB, any
    number of workers, every interleaving and every traversal order of the maps: no step of
    a thread that is still running fails; when all threads have ended, the count and the
    merged set are exactly those of the single-threaded replay into one [BookSet]; and under
    every fair schedule all threads do end. *)
Theorem sharded_equals_single buf n_workers orders :
  bytes_ok buf → zlen buf ≤ 13 * 2 ^ 32 → (∀ bs, traversal bs (orders bs)) →
  let W := clamp_workers n_workers in
  ∃ m0 n bs, sharded0 buf (zlen buf) W = Some m0 ∧ replay_set buf (zlen buf) = Some (n, bs) ∧
    (∀ sched t, let m := run BookSet.apply (shard_msg W) sched m0 in
       sharded_step W t m = None → ended t m) ∧
    (∀ sched r, replay_sharded sched orders buf (zlen buf) set0 n_workers = Some r → r = (n, bs)) ∧
    (∀ sched, fair (Z.to_nat W) sched → ∃ k,
       replay_sharded (sched <$> seq 0 k) orders buf (zlen buf) set0 n_workers = Some (n, bs)).
Proof.
  intros Hok Hlen Hord. cbv zeta. destruct (sharded_runs buf n_workers orders Hok Hlen Hord) as (m0 & n & bs & E & Es & Hst & Hall & Hfair).
  exists m0, n, bs. split_and!; [done|done|done| |].
  - intros sched r Hr. rewrite Hall in Hr. destruct (all_done _); congruence.
  - intros sched [k Hk]%Hfair. exists k. by rewrite Hall, Hk.
Qed.

Lemma sharded_equals_single_witness :
  bytes_ok demo_stream ∧
  ∃ n bs k, replay_set demo_stream (zlen demo_stream) = Some (n, bs) ∧
    replay_sharded ((λ n, n `mod` 4)%nat <$> seq 0 k)
      (λ bs, (map_to_list (books_ bs), map_to_list (symbols_ bs))) demo_stream (zlen demo_stream) set0 3 =
      Some (n, bs).
Proof.
  assert (Hok : bytes_ok demo_stream) by (apply (bool_decide_unpack _); vm_compute; exact I).
  split; [exact Hok|].
  destruct (sharded_equals_single demo_stream 3
    (λ bs, (map_to_list (books_ bs), map_to_list (symbols_ bs))) Hok
    ltac:(vm_compute; discriminate) ltac:(intros bs; split; reflexivity))
    as (m0 & n & bs & _ & Hset & _ & _ & Hfair).
  destruct (Hfair _ (alternate_fair 3)) as [k Hk]. exists n, bs, k. split; [exact Hset|exact Hk].
Defined.
