(* ===== verification/WeakPipeline.v ===== *)
(** The two-thread replay of include/feed/pipeline.hpp under the release/acquire memory model of
    [WeakRing]: the producer pushes the decoded messages and then clears [producing] with a
    release store; the consumer pops, and after an acquire load that finds the flag cleared
    pops once more before it stops. *)
From S2P Require Export Pipeline WeakRing.

(** Where the consumer's loop is: in its first pop, at the load of [producing], in the pop
    behind it, behind the loop. *)

Inductive cmode : Set := MPop | MCheck | MLast | MDone.

Section Machine.
Context {T St : Type} (sink : St → T → option St) (cap : Z).

Record wpipe := mkPipe {
  q_sys : wsys T;
  q_todo : list T;
  q_signalled : bool;
  q_mode : cmode;
  q_state : St;
}.

(** A step of the producer's thread: [while (!ring.push(m)) cpu_relax();] for every message,
    then the store of the flag. *)

Definition wproducer (q : wpipe) (i : Z) : option (outcome wpipe) :=
  let '(mkPipe (mkW m p ppc c cpc hi ho) todo sent mode st) := q in
  match ppc, todo, sent with
  | PIdle, x :: _, false => Some (Ret (mkPipe (mkW m p (PStart x) c cpc hi ho) todo sent mode st))
  | PIdle, [], false =>
      let '(m, v) := store Release Producer m LFlag (th_view p) 0 in
      Some (Ret (mkPipe (mkW m (mkTh v (th_cache p)) PIdle c cpc hi ho) [] true mode st))
  | PIdle, _, true => None
  | _, _, _ =>
      r ← wpush_step ring_orders cap m p ppc i;
      Some (match r with
            | UB => UB
            | Ret (m, p, pc, res) =>
                Ret (mkPipe (mkW m p pc c cpc (match res with Some true => hi ++ push_item ppc | _ => hi end) ho)
                       (match res with Some true => tail todo | _ => todo end) sent mode st)
            end)
  end.

(** A step of the consumer's loop. *)

Definition wconsumer (q : wpipe) (i : Z) : option (outcome wpipe) :=
  let '(mkPipe (mkW m p ppc c cpc hi ho) todo sent mode st) := q in
  match mode, cpc with
  | MDone, _ => None
  | MCheck, _ =>
      r ← load Acquire m LFlag (th_view c) i;
      Some (Ret (mkPipe (mkW m p ppc (mkTh r.2 (th_cache c)) cpc hi ho) todo sent (if r.1 =? 0 then MLast else MPop) st))
  | _, CIdle => Some (Ret (mkPipe (mkW m p ppc c CStart hi ho) todo sent mode st))
  | _, _ =>
      r ← wpop_step ring_orders cap m c cpc i;
      Some (match r with
            | UB => UB
            | Ret (m, c, pc, None) => Ret (mkPipe (mkW m p ppc c pc hi ho) todo sent mode st)
            | Ret (m, c, pc, Some None) =>
                Ret (mkPipe (mkW m p ppc c pc hi ho) todo sent (match mode with MLast => MDone | _ => MCheck end) st)
            | Ret (m, c, pc, Some (Some x)) =>
                match sink st x with
                | Some st => Ret (mkPipe (mkW m p ppc c pc hi (ho ++ [x])) todo sent MPop st)
                | None => UB
                end
            end)
  end.

Inductive pstep : wpipe → wpipe → Prop :=
  | pstep_prod i q q' : wproducer q i = Some (Ret q') → pstep q q'
  | pstep_cons i q q' : wconsumer q i = Some (Ret q') → pstep q q'.

Definition pundefined (q : wpipe) : Prop := ∃ i, wproducer q i = Some UB ∨ wconsumer q i = Some UB.

Definition wpipe0 (dflt : T) (items : list T) (st : St) : wpipe := mkPipe (wsys0 cap dflt) items false MPop st.

End Machine.

Arguments mkPipe {T St} _ _ _ _ _.
Arguments q_sys {T St} _.
Arguments q_todo {T St} _.
Arguments q_signalled {T St} _.
Arguments q_mode {T St} _.
Arguments q_state {T St} _.

(** * The invariant *)

Section Invariant.
Context {T St : Type} (sink : St → T → option St) (cap : Z) (items : list T) (st0 : St).

Definition pc_item (pc : prod_pc (T:=T)) : option T :=
  match pc with PIdle => None | PStart x | PReload x _ | PWrite x _ | PPublish x _ => Some x end.

(** [p0] is the producer's thread at the store of the flag; behind it the thread is idle. *)

Record pinv (q : wpipe (T:=T) (St:=St)) (p0 : wthread) (tc hc : Z) : Prop := {
  pi_ring : let s := q_sys q in
    winv cap (mkW (y_mem s) p0 (y_ppc s) (y_cons s) (y_cpc s) (y_pushed s) (y_popped s)) tc hc;
  pi_items : items = y_pushed (q_sys q) ++ q_todo q;
  pi_item : ∀ x, pc_item (y_ppc (q_sys q)) = Some x → head (q_todo q) = Some x;
  pi_flag : if q_signalled q
            then q_todo q = [] ∧ y_ppc (q_sys q) = PIdle ∧
              ∃ w, h_flag (y_mem (q_sys q)) = [(1, view0); (0, w)] ∧ v_head w = zlen items ∧
                   vbound (zlen items) (zlen (y_popped (q_sys q))) 1 w
            else y_prod (q_sys q) = p0 ∧ h_flag (y_mem (q_sys q)) = [(1, view0)];
  pi_mode : match q_mode q with
    | MPop => True
    | MCheck => y_cpc (q_sys q) = CIdle
    | MLast => zlen items ≤ v_head (th_view (y_cons (q_sys q)))
    | MDone => y_cpc (q_sys q) = CIdle ∧ y_popped (q_sys q) = items
    end;
  pi_state : foldM sink st0 (y_popped (q_sys q)) = Some (q_state q);
}.

(** A consumer that learns more about the producer. *)
Lemma winv_learns m p ppc c cpc (hi ho : list T) tc hc v :
  winv cap (mkW m p ppc c cpc hi ho) tc hc → vbound (zlen hi) (zlen ho) (signals m) v →
  v_cons v = v_cons (th_view c) → v_tail v = v_tail (th_view c) →
  v_prod (th_view c) ≤ v_prod v → v_head (th_view c) ≤ v_head v →
  winv cap (mkW m p ppc (mkTh v (th_cache c)) cpc hi ho) tc hc.
Proof.
  intros [? ? ? ? ? ? (Hb & Hq) ? ? ?] Hv E1 E2 L1 L2. simpl in *. split; simpl; try done. split; [done|].
  rewrite E1, E2. split_and!; try tauto; lia.
Qed.

(** More stores to the flag are none of the ring's business. *)
Lemma winv_flag m h p ppc c cpc (hi ho : list T) tc hc :
  winv cap (mkW m p ppc c cpc hi ho) tc hc → zlen (h_flag m) ≤ zlen h →
  winv cap (mkW (mkMem (cells m) (h_head m) (h_tail m) h) p ppc c cpc hi ho) tc hc.
Proof.
  intros [? Hh Ht ? ? (Hp & ?) (Hq & ?) ? ? ?] Hl. simpl in *. unfold signals in *. split; simpl; try done; unfold signals; simpl.
  - eapply hist_mono; [exact Hh|lia..].
  - eapply hist_mono; [exact Ht|lia..].
  - split; [|done]. eapply vbound_mono; [exact Hp|lia..].
  - split; [|done]. eapply vbound_mono; [exact Hq|lia..].
Qed.

Lemma load_view o (m : mem T) l v i r : load o m l v i = Some r → v_head v ≤ v_head r.2.
Proof.
  unfold load. destruct (Z.leb_spec (seen v l) i); [|done]. destruct ((stores m l).[i]) as [s|]; [|done]. simpl. intros [= <-]. simpl.
  destruct l, (decide (o = Acquire)); simpl in *; lia.
Qed.

(** What a pop does to the flag and to the consumer's knowledge, and when it finds nothing. *)
Lemma wpop_effect (m : mem T) c pc i m' c' pc' res :
  wpop_step ring_orders cap m c pc i = Some (Ret (m', c', pc', res)) →
  h_flag m' = h_flag m ∧ v_head (th_view c) ≤ v_head (th_view c') ∧ (is_Some res ↔ pc' = CIdle).
Proof.
  intros E. destruct pc as [| |tail|tail|tail out]; simpl in E; [done|..].
  - destruct (load _ _ _ _ _) as [r|] eqn:El; [|done]. simpl in E. simplify_eq. apply load_view in El.
    split_and!; [done|done|]. destruct (_ =? _); split; intros H; first [done|by destruct H].
  - destruct (load _ _ _ _ _) as [r|] eqn:El; [|done]. simpl in E. apply load_view in El.
    destruct (_ =? _); simplify_eq; (split_and!; [done|done|]); split; intros H; first [done|by eexists|by destruct H].
  - destruct (na_read _ _ _ _) as [[x m1]|] eqn:El; simplify_eq. split_and!; [|done|split; intros H; first [done|by destruct H]].
    unfold na_read in El. destruct ((cells m).[_]); [|done]. simpl in El. destruct (_ && _); [|done].
    destruct ((cells m).[_ <- _]); [|done]. simpl in El. by simplify_eq.
  - injection E as <- <- <- <-. simpl. split_and!; [done|done|]. split; [done|by eexists].
Qed.

Lemma wpop_empty m p ppc c pc (hi ho : list T) tc hc i m' c' pc' :
  winv cap (mkW m p ppc c pc hi ho) tc hc → wpop_step ring_orders cap m c pc i = Some (Ret (m', c', pc', Some None)) →
  v_head (th_view c) ≤ zlen ho.
Proof.
  intros Hi E. destruct Hi as [(Hc & _) Hh _ _ _ (_ & _ & _ & _ & Htc & Hle & _) (_ & _ & _ & _ & Hhc & _ & Hvh & _) _ _ Hpc].
  pose proof (cap_ok_range cap Hc). destruct pc as [| |tail|tail|tail out]; simpl in *; try done.
  - by destruct (load _ _ _ _ _).
  - destruct (load Acquire m LHead (th_view c) i) as [[x v]|] eqn:El; [|done]. simpl in E.
    destruct (load_hist _ m _ _ _ LHead _ _ _ _ _ Hh El) as (Hi & Ex & _). simpl in *. subst x tail.
    destruct (Z.eqb_spec (u64 (zlen ho)) (u64 i)) as [Eu|]; [|done]. apply u64_eq in Eu; lia.
  - by destruct (na_read _ _ _ _) as [[]|].
Qed.

Lemma wpush_effect (m : mem T) p pc i m' p' pc' res :
  wpush_step ring_orders cap m p pc i = Some (Ret (m', p', pc', res)) →
  h_flag m' = h_flag m ∧ (∀ x, pc_item pc' = Some x → pc_item pc = Some x) ∧
  (res = Some true → pc' = PIdle ∧ ∃ x, pc_item pc = Some x ∧ push_item pc = [x]).
Proof.
  intros E. destruct pc as [|item|item hd|item hd|item hd]; simpl in E; [done|..].
  - destruct (load _ _ _ _ _) as [r|] eqn:El; [|done]. simpl in E. simplify_eq. split_and!; [done|by destruct (w_full _ _ _)|done].
  - destruct (load _ _ _ _ _) as [r|] eqn:El; [|done]. simpl in E. by destruct (w_full _ _ _); simplify_eq.
  - destruct (na_write _ _ _ _ _) as [m1|] eqn:El; simplify_eq. split_and!; [|done|done].
    unfold na_write in El. destruct ((cells m).[_]); [|done]. simpl in El. destruct (_ && _); [|done].
    destruct ((cells m).[_ <- _]); [|done]. simpl in El. by simplify_eq.
  - injection E as <- <- <- <-. split_and!; [done|done|]. intros _. split; [done|]. by exists item.
Qed.

Lemma wproducer_inv q p0 tc hc i r :
  pinv q p0 tc hc → wproducer cap q i = Some r → ∃ q', r = Ret q' ∧ ∃ p0' tc' hc', pinv q' p0' tc' hc'.
Proof.
  destruct q as [[m p ppc c cpc hi ho] todo sent mode st]. intros [Hr Hit Hx Hf Hm Hs] E. simpl in *.
  assert (Hpush : sent = false → (∃ r1, wpush_step ring_orders cap m p ppc i = Some r1 ∧
    r = match r1 with
        | UB => UB
        | Ret (m1, p1, pc, res) =>
            Ret (mkPipe (mkW m1 p1 pc c cpc (match res with Some true => hi ++ push_item ppc | _ => hi end) ho)
                   (match res with Some true => tail todo | _ => todo end) sent mode st)
        end) → ∃ q', r = Ret q' ∧ ∃ p0' tc' hc', pinv q' p0' tc' hc').
  { intros -> (r1 & Ep & ->). destruct Hf as [<- Hf].
    destruct (wprod_inv _ _ _ _ _ _ _ _ _ _ _ _ Hr Ep) as (m1 & p1 & pc1 & res & -> & tc' & Hr').
    destruct (wpush_effect _ _ _ _ _ _ _ _ Ep) as (Ef & Hitem & Htrue). eexists. split; [done|]. exists p1, tc', hc.
    split; simpl; try done.
    - destruct res as [[]|]; [|done..]. destruct (Htrue eq_refl) as (-> & x & Ex & ->). specialize (Hx x Ex).
      destruct todo as [|y todo]; [done|]. injection Hx as ->. by rewrite Hit, <- app_assoc.
    - destruct res as [[]|]; [|by auto..]. destruct (Htrue eq_refl) as (-> & _). done.
    - by rewrite Ef. }
  destruct sent; simpl in Hf.
  - destruct Hf as (-> & -> & _). done.
  - destruct ppc as [|x|x hd|x hd|x hd].
    2-5: apply Hpush; [done|]; destruct (wpush_step _ _ _ _ _ _) as [r1|] eqn:Ep; [|done]; cbn [mbind option_bind] in E; injection E as <-; by exists r1.
    destruct todo as [|x todo]; injection E as <-; eexists; (split; [done|]).
    + destruct Hf as [<- Hf]. exists p, tc, hc. pose proof (wi_prod _ _ _ _ Hr) as (Hb & _ & Hvh & _). simpl in *.
      rewrite app_nil_r in Hit. split; simpl; try done; [apply winv_flag; [done|unfold zlen; rewrite length_app; lia]|by rewrite app_nil_r|].
      split; [done|]. split; [done|]. rewrite Hf. eexists. split; [done|]. subst hi. split; [by rewrite Hvh|]. unfold vbound in *. simpl in *. change (zlen [(1, view0)]) with 1. lia.
    + exists p0, tc, hc. split; simpl; try done. destruct Hr. by split.
Qed.

(** What the consumer learns from the flag. *)
Lemma flag_load m p0 ppc c cpc hi ho todo (sent : bool) tc hc i x v p :
  winv cap (mkW m p0 ppc c cpc hi ho) tc hc → items = hi ++ todo →
  (if sent
   then todo = [] ∧ ppc = PIdle ∧ ∃ w, h_flag m = [(1, view0); (0, w)] ∧ v_head w = zlen items ∧ vbound (zlen items) (zlen ho) 1 w
   else p = p0 ∧ h_flag m = [(1, view0)]) →
  load Acquire m LFlag (th_view c) i = Some (x, v) →
  winv cap (mkW m p0 ppc (mkTh v (th_cache c)) cpc hi ho) tc hc ∧ (x = 0 → zlen items ≤ v_head v).
Proof.
  intros Hr Hit Hf El. unfold load in El. cbn [seen stores] in El. destruct (Z.leb_spec (v_flag (th_view c)) i); [|done].
  destruct ((h_flag m).[i]) as [[y w]|] eqn:Ei; [|done]. simpl in El. injection El as <- <-.
  pose proof (wi_cons _ _ _ _ Hr) as (Hb & Hvc & Hvt & _ & Hhc & Hk1 & Hk2 & Hk3). simpl in *. pose proof (zlen_nonneg ho).
  assert (Hsig : signals m = if sent then 1 else 0) by (unfold signals; destruct sent; [destruct Hf as (_ & _ & ? & -> & _)|destruct Hf as [_ ->]]; done).
  assert (Hi : i ≤ signals m) by (apply vget_Some in Ei; unfold signals; lia).
  assert (Hw : (w = view0 ∧ y = 1) ∨ (y = 0 ∧ signals m = 1 ∧ v_head w = zlen items ∧ hi = items ∧ vbound (zlen items) (zlen ho) 1 w)).
  { destruct sent.
    - destruct Hf as (-> & _ & w' & Ef & Ehd & Hbw). rewrite app_nil_r in Hit. rewrite Ef in Ei. unfold vget in Ei. case_decide; [|done].
      destruct (Z.to_nat i) as [|[|[]]]; simplify_eq/=; [by left|by right].
    - destruct Hf as [_ Ef]. rewrite Ef in Ei. unfold vget in Ei. case_decide; [|done]. destruct (Z.to_nat i) as [|[]]; simplify_eq/=. by left. }
  split.
  - apply winv_learns; [done|..]; unfold vbound in *; destruct Hw as [[-> _]|(_ & Hs1 & ? & <- & ?)]; simpl in *; destruct sent; lia.
  - intros ->. destruct Hw as [[_ ?]|(_ & _ & ? & _)]; [done|]. simpl. lia.
Qed.

Lemma foldM_prefix {A B} (f : B → A → option B) s l k s' : l `prefix_of` k → foldM f s k = Some s' → is_Some (foldM f s l).
Proof. intros [j ->] E. rewrite foldM_app in E. destruct (foldM f s l); [by eexists|done]. Qed.

Lemma prefix_whole {A} (l k : list A) : l `prefix_of` k → zlen k ≤ zlen l → l = k.
Proof.
  intros [j ->] Hl. rewrite zlen_app in Hl. destruct j; [by rewrite app_nil_r|]. rewrite zlen_cons in Hl. pose proof (zlen_nonneg j). lia.
Qed.

Context (stN : St).
Hypothesis Hitems : foldM sink st0 items = Some stN.

Lemma wconsumer_pop m p ppc c cpc hi ho todo sent mode st p0 tc hc i r1 :
  pinv (mkPipe (mkW m p ppc c cpc hi ho) todo sent mode st) p0 tc hc → mode = MPop ∨ mode = MLast →
  wpop_step ring_orders cap m c cpc i = Some r1 →
  ∃ q', match r1 with
        | UB => UB
        | Ret (m1, c1, pc, None) => Ret (mkPipe (mkW m1 p ppc c1 pc hi ho) todo sent mode st)
        | Ret (m1, c1, pc, Some None) =>
            Ret (mkPipe (mkW m1 p ppc c1 pc hi ho) todo sent (match mode with MLast => MDone | _ => MCheck end) st)
        | Ret (m1, c1, pc, Some (Some x)) =>
            match sink st x with
            | Some st1 => Ret (mkPipe (mkW m1 p ppc c1 pc hi (ho ++ [x])) todo sent MPop st1)
            | None => UB
            end
        end = Ret q' ∧ ∃ p0' tc' hc', pinv q' p0' tc' hc'.
Proof using Hitems.
  intros [Hr Hit Hx Hf Hm Hs] Hmode Ep. simpl in *.
  destruct (wcons_inv _ _ _ _ _ _ _ _ _ _ _ _ Hr Ep) as (m1 & c1 & pc1 & res & -> & hc' & Hr').
  destruct (wpop_effect _ _ _ _ _ _ _ _ Ep) as (Ef & Hv & Hres).
  assert (Hflag : ∀ ho', ho `prefix_of` ho' → if sent
    then todo = [] ∧ ppc = PIdle ∧ ∃ w, h_flag m1 = [(1, view0); (0, w)] ∧ v_head w = zlen items ∧ vbound (zlen items) (zlen ho') 1 w
    else p = p0 ∧ h_flag m1 = [(1, view0)]).
  { intros ho' [k ->]. rewrite Ef. destruct sent; [|done]. destruct Hf as (? & ? & w & ? & ? & Hb). split_and!; [done..|].
    exists w. split_and!; [done..|]. eapply vbound_mono; [done|lia| |lia]. rewrite zlen_app. pose proof (zlen_nonneg k). lia. }
  pose proof (wi_fifo _ _ _ _ Hr') as Hfifo. simpl in Hfifo.
  destruct res as [[x|]|].
  - destruct (foldM_prefix sink st0 (ho ++ [x]) items stN) as [st1 E1]; [etrans; [exact Hfifo|rewrite Hit; by exists todo]|done|].
    rewrite foldM_app, Hs in E1. cbn [mbind option_bind foldM] in E1. destruct (sink st x) as [st2|] eqn:Esink; [|done].
    eexists. split; [done|]. exists p0, tc, hc'. split; simpl; try done; [by apply Hflag, prefix_app_r|].
    rewrite foldM_app, Hs. cbn [mbind option_bind foldM]. by rewrite Esink.
  - eexists. split; [done|]. exists p0, tc, hc'. pose proof (proj1 Hres ltac:(by eexists)) as ->. split; simpl; try done; [by apply Hflag|].
    destruct Hmode as [->| ->]; [done|]. split; [done|]. pose proof (wpop_empty _ _ _ _ _ _ _ _ _ _ _ _ _ Hr Ep).
    apply (prefix_whole ho items); [|lia]. etrans; [exact Hfifo|]. rewrite Hit. by exists todo.
  - eexists. split; [done|]. exists p0, tc, hc'. split; simpl; try done; [by apply Hflag|]. destruct Hmode as [->| ->]; [done|]. lia.
Qed.

Lemma wconsumer_inv q p0 tc hc i r :
  pinv q p0 tc hc → wconsumer sink cap q i = Some r → ∃ q', r = Ret q' ∧ ∃ p0' tc' hc', pinv q' p0' tc' hc'.
Proof using Hitems.
  destruct q as [[m p ppc c cpc hi ho] todo sent mode st]. intros Hq E. pose proof Hq as [Hr Hit Hx Hf Hm Hs]. simpl in *.
  assert (Hcheck : mode = MCheck → (∃ r1, load Acquire m LFlag (th_view c) i = Some r1 ∧
    r = Ret (mkPipe (mkW m p ppc (mkTh r1.2 (th_cache c)) cpc hi ho) todo sent (if r1.1 =? 0 then MLast else MPop) st)) →
    ∃ q', r = Ret q' ∧ ∃ p0' tc' hc', pinv q' p0' tc' hc').
  { intros -> ([x v] & El & ->). simpl in *. eexists. split; [done|]. exists p0, tc, hc.
    destruct (flag_load m p0 ppc c cpc hi ho todo sent tc hc i x v p) as (Hr' & Hx0); [done..|].
    split; simpl; try done. destruct (Z.eqb_spec x 0); [by apply Hx0|done]. }
  assert (Hcall : mode = MPop ∨ mode = MLast → cpc = CIdle → r = Ret (mkPipe (mkW m p ppc c CStart hi ho) todo sent mode st) →
    ∃ q', r = Ret q' ∧ ∃ p0' tc' hc', pinv q' p0' tc' hc').
  { intros Hmode -> ->. eexists. split; [done|]. exists p0, tc, hc. split; simpl; try done; [destruct Hr; by split|].
    by destruct Hmode as [->| ->]. }
  destruct mode; [| | |done].
  - destruct cpc; [apply Hcall; [by left|done|by simplify_eq]| | | |].
    all: destruct (wpop_step _ _ _ _ _ _) as [r1|] eqn:Ep; [|done]; cbn [mbind option_bind] in E; injection E as <-; eapply (wconsumer_pop _ _ _ _ _ _ _ _ _ MPop); eauto.
  - apply Hcheck; [done|]. destruct (load _ _ _ _ _) as [r1|] eqn:El; [|done]. cbn [mbind option_bind] in E. injection E as <-. by exists r1.
  - destruct cpc; [apply Hcall; [by right|done|by simplify_eq]| | | |].
    all: destruct (wpop_step _ _ _ _ _ _) as [r1|] eqn:Ep; [|done]; cbn [mbind option_bind] in E; injection E as <-; eapply (wconsumer_pop _ _ _ _ _ _ _ _ _ MLast); eauto.
Qed.

Lemma wpipe0_inv dflt : cap_ok cap → pinv (wpipe0 cap dflt items st0) (mkTh (tick Producer view0) 0) 0 0.
Proof. intros Hc. split; simpl; try done. by apply wsys0_inv. Qed.

Lemma pstep_inv q q' :
  (∃ p0 tc hc, pinv q p0 tc hc) → pstep sink cap q q' → ∃ p0 tc hc, pinv q' p0 tc hc.
Proof using Hitems.
  intros (p0 & tc & hc & Hi) Hs. inversion Hs as [i ? ? E|i ? ? E]; subst.
  - by destruct (wproducer_inv _ _ _ _ _ _ Hi E) as (? & [= <-] & ?).
  - by destruct (wconsumer_inv _ _ _ _ _ _ Hi E) as (? & [= <-] & ?).
Qed.

Lemma psteps_inv dflt q :
  cap_ok cap → rtc (pstep sink cap) (wpipe0 cap dflt items st0) q → ∃ p0 tc hc, pinv q p0 tc hc.
Proof using Hitems.
  intros Hc Hs. assert (H0 : ∃ p0 tc hc, pinv (wpipe0 cap dflt items st0) p0 tc hc) by (do 3 eexists; by apply wpipe0_inv).
  revert H0. induction Hs as [q|q1 q2 q3 H12 _ IH]; intros H0; [done|]. apply IH. by eapply pstep_inv.
Qed.

Lemma pinv_defined q p0 tc hc : pinv q p0 tc hc → ¬ pundefined sink cap q.
Proof using Hitems.
  intros Hi (i & [E|E]); [by destruct (wproducer_inv _ _ _ _ _ _ Hi E) as (? & ? & _)|by destruct (wconsumer_inv _ _ _ _ _ _ Hi E) as (? & ? & _)].
Qed.

(** Until it is done the consumer can go on. *)
Lemma wconsumer_progress q p0 tc hc :
  pinv q p0 tc hc → q_mode q ≠ MDone → ∃ i q', wconsumer sink cap q i = Some (Ret q').
Proof using Hitems.
  intros Hi Hm. assert (E : ∃ i r, wconsumer sink cap q i = Some r).
  { pose proof Hi as [Hr _ _ Hf _ _]. destruct (wprogress _ _ _ _ Hr) as [_ Hp]. destruct (wi_cons _ _ _ _ Hr) as ((_ & _ & _ & _ & Hv) & _).
    destruct q as [[m p ppc c cpc hi ho] todo sent mode st]. simpl in *.
    assert (Hpop : cpc ≠ CIdle → ∃ i r, wpop_step ring_orders cap m c cpc i = Some r) by done.
    destruct mode; [| | |done].
    - destruct cpc; [exists 0; by eexists|..]; (destruct Hpop as (i & r & Er); [done|]; exists i; rewrite Er; by eexists).
    - unfold signals in Hv. destruct (vget_is_Some (h_flag m) (zlen (h_flag m) - 1)) as [x Ex].
      { destruct sent; [destruct Hf as (_ & _ & w & -> & _)|destruct Hf as [_ ->]]; unfold zlen; simpl; lia. }
      exists (zlen (h_flag m) - 1). unfold load. cbn [seen stores]. rewrite (proj2 (Z.leb_le _ _)) by done. rewrite Ex. by eexists.
    - destruct cpc; [exists 0; by eexists|..]; (destruct Hpop as (i & r & Er); [done|]; exists i; rewrite Er; by eexists). }
  destruct E as (i & r & E). destruct (wconsumer_inv _ _ _ _ _ _ Hi E) as (q' & -> & _). by exists i, q'.
Qed.

(** Until it has signalled the producer can go on. *)
Lemma wproducer_progress q p0 tc hc :
  pinv q p0 tc hc → q_signalled q = false → ∃ i q', wproducer cap q i = Some (Ret q').
Proof using.
  intros Hi Hf. assert (E : ∃ i r, wproducer cap q i = Some r).
  { pose proof Hi as [Hr _ _ Hp _ _]. destruct (wprogress _ _ _ _ Hr) as [Hpush _].
    destruct q as [[m p ppc c cpc hi ho] todo sent mode st]. simpl in *. subst sent. destruct Hp as [-> _].
    destruct ppc; [exists 0; destruct todo; by eexists|..]; (destruct Hpush as (i & r & Er); [done|]; exists i; simpl in *; try rewrite Er; by eexists). }
  destruct E as (i & r & E). destruct (wproducer_inv _ _ _ _ _ _ Hi E) as (q' & -> & _). by exists i, q'.
Qed.

End Invariant.

(** C9: The two-thread replay is right under the release/acquire memory model too: with every
    choice of stale values that the memory orders allow there is no data race and no access out
    of bounds; neither thread waits for the other to be able to take its next step, the producer
    until it has set [done] and the consumer until it has left its loop; and when the consumer
    stops it has applied exactly the messages of the capture in order, so count and book are those
    of the single-threaded replay. *)
Theorem weak_pipelined_equals_single buf b ring_capacity n b' :
  bytes_ok buf → zlen buf < 2 ^ 63 → 0 ≤ ring_capacity ≤ 2 ^ 63 →
  replay_single_threaded buf (zlen buf) b = Some (n, b') →
  ∃ ms cap, sink_calls buf (zlen buf) = Some ms ∧ round_up_pow2 ring_capacity = Some cap ∧
    ∀ q, rtc (pstep replay_sink cap) (wpipe0 cap message0 ms (0, b)) q →
      ¬ pundefined replay_sink cap q ∧ y_popped (q_sys q) `prefix_of` ms ∧
      (q_signalled q = false → ∃ i q', wproducer cap q i = Some (Ret q')) ∧
      (q_mode q ≠ MDone → ∃ i q', wconsumer replay_sink cap q i = Some (Ret q')) ∧
      (q_mode q = MDone → q_state q = (n, b')).
Proof.
  intros Hok Hlen Hcap Hs. destruct (sink_calls_spec buf Hok Hlen) as (ms & used & Ems & _ & _ & Hall).
  destruct (round_up_pow2_spec ring_capacity Hcap) as (cap & Ec & Hc & _). exists ms, cap. split; [done|]. split; [done|].
  unfold replay_single_threaded in Hs. rewrite Hall in Hs. destruct (foldM replay_sink (0, b) ms) as [r|] eqn:Ef; [|done].
  cbn [mbind option_bind snd] in Hs. injection Hs as ->. intros q Hq.
  destruct (psteps_inv replay_sink cap ms (0, b) (n, b') Ef message0 q Hc Hq) as (p0 & tc & hc & Hi). split_and!.
  - by eapply pinv_defined.
  - etrans; [apply (wi_fifo _ _ _ _ (pi_ring _ _ _ _ _ _ _ _ Hi))|]. exists (q_todo q). exact (pi_items _ _ _ _ _ _ _ _ Hi).
  - intros Hm. by eapply wproducer_progress.
  - intros Hm. by eapply (wconsumer_progress _ _ _ _ _ Ef).
  - intros Hm. pose proof (pi_mode _ _ _ _ _ _ _ _ Hi) as Hd. rewrite Hm in Hd. destruct Hd as [_ Hd].
    pose proof (pi_state _ _ _ _ _ _ _ _ Hi) as Hst. rewrite Hd, Ef in Hst. by injection Hst as <-.
Qed.

(** Steps by a script: the thread (the producer's if true) and the store its load returns. *)

Fixpoint pacts {T St} (sink : St → T → option St) (cap : Z) (l : list (bool * Z)) (q : wpipe) : option wpipe :=
  match l with
  | [] => Some q
  | (who, i) :: l =>
      match (if who : bool then wproducer cap q i else wconsumer sink cap q i) with
      | Some (Ret q) => pacts sink cap l q
      | _ => None
      end
  end.

Lemma pacts_steps {T St} (sink : St → T → option St) cap l q q' : pacts sink cap l q = Some q' → rtc (pstep sink cap) q q'.
Proof.
  revert q. induction l as [|[[] i] l IH]; intros q E; simpl in E; [by simplify_eq|..].
  - destruct (wproducer cap q i) as [[|q1]|] eqn:E1; [done| |done]. econstructor; [by eapply pstep_prod|by apply IH].
  - destruct (wconsumer sink cap q i) as [[|q1]|] eqn:E1; [done| |done]. econstructor; [by eapply pstep_cons|by apply IH].
Qed.

(** Two messages are pushed before the consumer looks; it reads a stale [head_] in its first pop
    and a stale flag once. *)

Definition demo_script : list (bool * Z) :=
  [(true, 0); (true, 0); (true, 0); (true, 0); (true, 0); (true, 1); (true, 0); (true, 0);
   (false, 0); (false, 0); (false, 1); (false, 0); (false, 0);
   (false, 0); (false, 1); (false, 1); (false, 0);
   (true, 0); (true, 2); (true, 0); (true, 0); (true, 0);
   (false, 0); (false, 1); (false, 2); (false, 0); (false, 0);
   (false, 0); (false, 2); (false, 2); (false, 1);
   (false, 0); (false, 2); (false, 3); (false, 0); (false, 0);
   (false, 0); (false, 3); (false, 3); (false, 1); (false, 0); (false, 3); (false, 3)].

Definition demo_end : wpipe (T:=Message) (St:=Z * OrderBook) :=
  default (wpipe0 4 message0 [] (0, book0))
    (ms ← sink_calls demo_stream (zlen demo_stream); pacts replay_sink 4 demo_script (wpipe0 4 message0 ms (0, book0))).

Lemma weak_pipelined_equals_single_witness : q_mode demo_end = MDone ∧ q_state demo_end = demo_book.
Proof.
  assert (Hd : q_mode demo_end = MDone) by (vm_compute; reflexivity). split; [exact Hd|].
  destruct (weak_pipelined_equals_single demo_stream book0 3 demo_book.1 demo_book.2) as (ms & cap & Ems & Ec & H).
  - apply (bool_decide_unpack _). vm_compute. exact I.
  - vm_compute. reflexivity.
  - lia.
  - vm_compute. reflexivity.
  - assert (cap = 4) as -> by (injection Ec as <-; reflexivity).
    assert (Hq : pacts replay_sink 4 demo_script (wpipe0 4 message0 ms (0, book0)) = Some demo_end).
    { assert (E : (ms ← sink_calls demo_stream (zlen demo_stream); pacts replay_sink 4 demo_script (wpipe0 4 message0 ms (0, book0))) = Some demo_end)
        by (vm_compute; reflexivity). by rewrite Ems in E. }
    destruct (H demo_end (pacts_steps _ _ _ _ _ Hq)) as (_ & _ & _ & _ & Hres). rewrite (Hres Hd). by destruct demo_book.
Defined.
