(* ===== verification/WeakSharded.v ===== *)
(** The sharded replay of include/feed/sharded_pipeline.hpp under the release/acquire memory model
    of [WeakRing]: one producer, and a worker with a ring of its own per shard.

    Ring [w] and its worker are a [wpipe]; what the producer knows of ring [w] is the producer's
    part of it, since the knowledge that counts for a slot or a counter is the knowledge about
    its own ring.  [done] is one atomic that every worker reads.  Its stores are kept with each
    ring, each with the part of the producer's knowledge that is about that ring, and the store
    that sets it goes to all rings in one step; as in [WeakPipeline], its value is 1 while
    messages come and 0 behind them. *)
From S2P Require Export WeakPipeline.

Section Machine.
Context {T St : Type} (sink : St → T → option St) (shard : T → nat) (cap : Z).

Record wshards := mkShards {
  g_todo : list T;
  g_count : Z;
  g_done : bool;
  g_pipes : list (wpipe (T:=T) (St:=St));
}.

Definition with_todo (l : list T) (q : wpipe) : wpipe (T:=T) (St:=St) :=
  mkPipe (q_sys q) l (q_signalled q) (q_mode q) (q_state q).

(** [done.store(true, std::memory_order_release);] as ring [q] sees it. *)

Definition raise_flag (q : wpipe) : wpipe (T:=T) (St:=St) :=
  let '(mkPipe (mkW m p ppc c cpc hi ho) todo _ mode st) := q in
  let '(m, v) := store Release Producer m LFlag (th_view p) 0 in
  mkPipe (mkW m (mkTh v (th_cache p)) ppc c cpc hi ho) [] true mode st.

(** A step of the producer: [while (!rings[shard]->push(m)) yield(); ++n;] for every message, then
    the store of [done]. *)

Definition gproducer (g : wshards) (i : Z) : option (outcome wshards) :=
  match g_todo g with
  | x :: todo =>
      match g_pipes g !! shard x with
      | None => Some UB
      | Some q =>
          r ← wproducer cap (with_todo [x] q) i;
          Some (match r with
                | UB => UB
                | Ret q =>
                    let pushed := match q_todo q with [] => true | _ => false end in
                    Ret (mkShards (if pushed then todo else x :: todo) (if pushed then u64 (g_count g + 1) else g_count g)
                           (g_done g) (<[shard x := q]> (g_pipes g)))
                end)
      end
  | [] =>
      if g_done g then None else Some (Ret (mkShards [] (g_count g) true (raise_flag <$> g_pipes g)))
  end.

(** A step of worker [w]. *)

Definition gworker (w : nat) (g : wshards) (i : Z) : option (outcome wshards) :=
  q ← g_pipes g !! w;
  r ← wconsumer sink cap q i;
  Some (match r with UB => UB | Ret q => Ret (mkShards (g_todo g) (g_count g) (g_done g) (<[w := q]> (g_pipes g))) end).

Inductive gstep : wshards → wshards → Prop :=
  | gstep_prod i g g' : gproducer g i = Some (Ret g') → gstep g g'
  | gstep_work w i g g' : gworker w g i = Some (Ret g') → gstep g g'.

Definition gundefined (g : wshards) : Prop := ∃ i, gproducer g i = Some UB ∨ ∃ w, gworker w g i = Some UB.

Definition gshards0 (W : nat) (dflt : T) (items : list T) (st : St) : wshards :=
  mkShards items 0 false (replicate W (wpipe0 cap dflt [] st)).

(** What [join] waits for: the producer has set [done] and every worker has left its loop. *)

Definition gjoined (g : wshards) : bool :=
  g_done g && forallb (λ q, match q_mode q with MDone => true | _ => false end) (g_pipes g).

End Machine.

Arguments mkShards {T St} _ _ _ _.
Arguments g_todo {T St} _.
Arguments g_count {T St} _.
Arguments g_done {T St} _.
Arguments g_pipes {T St} _.

(** The count and the merged shards behind the joins. *)

Definition gresult (orders : BookSet → list (Z * OrderBook) * list (Z * list Z)) (out : BookSet)
    (g : wshards (T:=Message) (St:=BookSet)) : option (Z * BookSet) :=
  if gjoined g then Some (g_count g, merge_all out (orders <$> (q_state <$> g_pipes g))) else None.

(** * The invariant *)

Section Invariant.
Context {T St : Type} (sink : St → T → option St) (shard : T → nat) (cap : Z) (items : list T) (st0 : St) (W : nat).
#[local] Abbreviation pipe := (wpipe (T:=T) (St:=St)).

(** Every ring with its share of the messages is a pipeline of [WeakPipeline]. *)

Definition ring_ok (todo : list T) (done : bool) (w : nat) (q : pipe) : Prop :=
  q_signalled q = done ∧
  ∃ p0 tc hc, pinv sink cap (sub shard w items) st0 (with_todo (sub shard w todo) q) p0 tc hc.

Record ginv (g : wshards (T:=T) (St:=St)) : Prop := {
  gi_items : ∃ d, items = d ++ g_todo g ∧ g_count g = u64 (zlen d);
  gi_done : g_done g = true → g_todo g = [];
  gi_len : length (g_pipes g) = W;
  gi_pipes : ∀ w q, g_pipes g !! w = Some q → ring_ok (g_todo g) (g_done g) w q;
}.

Hypothesis Hshard : ∀ x, x ∈ items → (shard x < W)%nat.
Hypothesis Hsink : ∀ w, (w < W)%nat → is_Some (foldM sink st0 (sub shard w items)).

(** The producer looks at the head of its list only, and the consumer at none of it. *)
Lemma wproducer_head (x : T) l (q : pipe) i :
  wproducer cap (with_todo (x :: l) q) i =
  r ← wproducer cap (with_todo [x] q) i;
  Some (match r with UB => UB | Ret q' => Ret (with_todo (match q_todo q' with [] => l | _ => x :: l end) q') end).
Proof using.
  destruct q as [[m p ppc c cpc hi ho] todo sent mode st]. cbn. destruct ppc; [by destruct sent|..];
    (destruct (wpush_step _ _ _ _ _ _) as [[|[[[m1 p1] pc] [[]|]]]|]; done).
Qed.

Lemma wproducer_todo (x : T) (q q' : pipe) i :
  wproducer cap (with_todo [x] q) i = Some (Ret q') → q_todo q' = [] ∨ q_todo q' = [x].
Proof using.
  destruct q as [[m p ppc c cpc hi ho] todo sent mode st]. cbn. intros E. destruct ppc; [destruct sent; simplify_eq; by right|..];
    (destruct (wpush_step _ _ _ _ _ _) as [[|[[[m1 p1] pc] [[]|]]]|]; simplify_eq/=; auto).
Qed.

Lemma wproducer_signalled (x : T) (q q' : pipe) i :
  wproducer cap (with_todo [x] q) i = Some (Ret q') → q_signalled q' = q_signalled q.
Proof using.
  destruct q as [[m p ppc c cpc hi ho] todo sent mode st]. cbn. intros E. destruct ppc; [by destruct sent; simplify_eq|..];
    (destruct (wpush_step _ _ _ _ _ _) as [[|[[[m1 p1] pc] [[]|]]]|]; by simplify_eq/=).
Qed.

Lemma wconsumer_todo l (q : pipe) i :
  wconsumer sink cap (with_todo l q) i =
  r ← wconsumer sink cap q i; Some (match r with UB => UB | Ret q' => Ret (with_todo l q') end).
Proof using.
  destruct q as [[m p ppc c cpc hi ho] todo sent mode st]. unfold with_todo at 1. cbn [q_sys q_signalled q_mode q_state wconsumer].
  destruct mode; [destruct cpc; [done|..]|by destruct (load _ _ _ _ _)|destruct cpc; [done|..]|done];
    (destruct (wpop_step _ _ _ _ _ _) as [[|[[[m1 c1] pc1] [[x|]|]]]|]; try done; cbn [mbind option_bind]; by destruct (sink st x)).
Qed.

Lemma wconsumer_signalled (q q' : pipe) i : wconsumer sink cap q i = Some (Ret q') → q_signalled q' = q_signalled q.
Proof using.
  destruct q as [[m p ppc c cpc hi ho] todo sent mode st]. cbn. intros E.
  destruct mode; [destruct cpc; [by simplify_eq|..]|destruct (load _ _ _ _ _); by simplify_eq/=|destruct cpc; [by simplify_eq|..]|done];
    (destruct (wpop_step _ _ _ _ _ _) as [[|[[[m1 c1] pc1] [[x|]|]]]|]; simplify_eq/=; try done; destruct (sink st x); by simplify_eq/=).
Qed.

(** A message leaves the list of its own shard. *)
Lemma sub_cons w x todo : sub shard w (x :: todo) = if decide (shard x = w) then x :: sub shard w todo else sub shard w todo.
Proof using. unfold sub. by rewrite filter_cons. Qed.

Lemma gpush_inv (g : wshards (T:=T) (St:=St)) x todo q i r :
  ginv g → g_todo g = x :: todo → g_pipes g !! shard x = Some q → wproducer cap (with_todo [x] q) i = Some r →
  ∃ q', r = Ret q' ∧ ring_ok (match q_todo q' with [] => todo | _ => x :: todo end) (g_done g) (shard x) q' ∧
    (q_todo q' = [] ∨ q_todo q' = [x]).
Proof using.
  intros Hg Et Eq E. destruct (gi_pipes g Hg _ _ Eq) as (Es & p0 & tc & hc & Hq).
  rewrite Et, sub_cons, decide_True in Hq by done.
  pose proof (wproducer_head x (sub shard (shard x) todo) q i) as Eh. rewrite E in Eh. cbn [mbind option_bind] in Eh.
  destruct (wproducer_inv _ _ _ _ _ _ _ _ _ _ Hq Eh) as (q1 & E1 & Hq1). destruct r as [|q']; [done|]. injection E1 as <-.
  exists q'. split; [done|]. split; [|by eapply wproducer_todo]. split; [rewrite <- Es; by eapply wproducer_signalled|].
  destruct (q_todo q'); [done|]. by rewrite sub_cons, decide_True.
Qed.

Lemma raise_flag_step (q : pipe) :
  q_signalled q = false → y_ppc (q_sys q) = PIdle → wproducer cap (with_todo [] q) 0 = Some (Ret (raise_flag q)).
Proof using. destruct q as [[m p ppc c cpc hi ho] todo sent mode st]. simpl. by intros -> ->. Qed.

Lemma raise_flag_fields (q : pipe) : q_signalled (raise_flag q) = true ∧ with_todo [] (raise_flag q) = raise_flag q.
Proof using. by destruct q as [[m p ppc c cpc hi ho] todo sent mode st]. Qed.

Lemma gproducer_inv g i r : ginv g → gproducer shard cap g i = Some r → ∃ g', r = Ret g' ∧ ginv g'.
Proof using Hshard Hsink.
  intros Hg E. pose proof Hg as [(d & Ed & Ec) Hdn Hl Hp]. unfold gproducer in E. destruct (g_todo g) as [|x todo] eqn:Et.
  - destruct (g_done g) eqn:Ef; [done|]. injection E as <-. eexists. split; [done|]. split; simpl; [by exists d|done|by rewrite length_fmap|].
    intros w q' Eq. rewrite list_lookup_fmap_Some in Eq. destruct Eq as (q & -> & Eq). destruct (Hp w q Eq) as (Es & p0 & tc & hc & Hq).
    change (sub shard w []) with (@nil T) in Hq. destruct (raise_flag_fields q) as [Hs Hw]. split; [done|]. change (sub shard w []) with (@nil T). rewrite Hw.
    assert (Hidle : y_ppc (q_sys q) = PIdle).
    { pose proof (pi_item _ _ _ _ _ _ _ _ Hq) as Hi. simpl in Hi. destruct (y_ppc (q_sys q)); [done|..]; by discriminate (Hi _ eq_refl). }
    by destruct (wproducer_inv _ _ _ _ _ _ _ _ _ _ Hq (raise_flag_step q Es Hidle)) as (? & [= <-] & ?).
  - destruct (lookup_lt_is_Some_2 (g_pipes g) (shard x)) as [q Eq]; [rewrite Hl; apply Hshard; rewrite Ed; set_solver|].
    rewrite Eq in E. destruct (wproducer cap (with_todo [x] q) i) as [r'|] eqn:Er; [|done]. cbn [mbind option_bind] in E.
    destruct (gpush_inv g x todo q i r' Hg Et Eq Er) as (q' & -> & Hr & Hq'). injection E as <-. eexists. split; [done|].
    assert (Hw : ∀ w q0, w ≠ shard x → g_pipes g !! w = Some q0 → ring_ok todo (g_done g) w q0).
    { intros w q0 Hne E0. destruct (Hp w q0 E0) as (? & H). rewrite sub_cons, decide_False in H by done. by split. }
    split; simpl; [|by intros ?%Hdn|by rewrite length_insert|].
    + destruct Hq' as [-> | ->]; [|by exists d]. exists (d ++ [x]). rewrite <- app_assoc. split; [done|].
      rewrite Ec, zlen_app. change (zlen [x]) with 1. unfold u64, wrap. by rewrite Zplus_mod_idemp_l.
    + intros w q0 E0. destruct (decide (w = shard x)) as [->|Hne].
      * rewrite list_lookup_insert_eq in E0 by (by eapply lookup_lt_Some). injection E0 as <-. by destruct Hq' as [Hq' | Hq']; rewrite Hq' in *.
      * rewrite list_lookup_insert_ne in E0 by done. destruct Hq' as [-> | ->]; [by apply Hw|by apply Hp].
Qed.

Lemma gworker_inv w g i r : ginv g → gworker sink cap w g i = Some r → ∃ g', r = Ret g' ∧ ginv g'.
Proof using Hsink.
  intros [Hd Hdn Hl Hp] E. unfold gworker in E. destruct (g_pipes g !! w) as [q|] eqn:Eq; [|done]. cbn [mbind option_bind] in E.
  destruct (wconsumer sink cap q i) as [r'|] eqn:Er; [|done]. cbn [mbind option_bind] in E. destruct (Hp w q Eq) as (Es & p0 & tc & hc & Hq).
  pose proof (wconsumer_todo (sub shard w (g_todo g)) q i) as Ew. rewrite Er in Ew. cbn [mbind option_bind] in Ew.
  destruct (Hsink w) as [stN HstN]; [rewrite <- Hl; by eapply lookup_lt_Some|].
  destruct (wconsumer_inv _ _ _ _ _ HstN _ _ _ _ _ _ Hq Ew) as (q1 & E1 & Hq1). destruct r' as [|q']; [done|]. injection E1 as <-.
  injection E as <-. eexists. split; [done|]. split; simpl; [done|done|by rewrite length_insert|]. intros v q0 E0.
  destruct (decide (v = w)) as [->|Hne]; [|rewrite list_lookup_insert_ne in E0 by done; by apply Hp].
  rewrite list_lookup_insert_eq in E0 by (by eapply lookup_lt_Some). injection E0 as <-. split; [|done].
  rewrite <- Es. by eapply wconsumer_signalled.
Qed.

Lemma gshards0_inv dflt : cap_ok cap → ginv (gshards0 cap W dflt items st0).
Proof using.
  intros Hc. split; simpl; [by exists []|done|apply length_replicate|]. intros w q [-> _]%lookup_replicate. split; [done|].
  do 3 eexists. exact (wpipe0_inv sink cap (sub shard w items) st0 dflt Hc).
Qed.

Lemma gsteps_inv dflt g : cap_ok cap → rtc (gstep sink shard cap) (gshards0 cap W dflt items st0) g → ginv g.
Proof using Hshard Hsink.
  intros Hc Hs. pose proof (gshards0_inv dflt Hc) as H0. induction Hs as [|g1 g2 g3 H12 _ IH]; [done|]. apply IH.
  inversion H12 as [i ? ? E|w i ? ? E]; subst; [by destruct (gproducer_inv _ _ _ H0 E) as (? & [= <-] & ?)|].
  by destruct (gworker_inv _ _ _ _ H0 E) as (? & [= <-] & ?).
Qed.

Lemma ginv_defined g : ginv g → ¬ gundefined sink shard cap g.
Proof using Hshard Hsink.
  intros Hg (i & [E|[w E]]); [by destruct (gproducer_inv _ _ _ Hg E) as (? & ? & _)|by destruct (gworker_inv _ _ _ _ Hg E) as (? & ? & _)].
Qed.

(** No thread is stuck before its end. *)
Lemma ginv_progress g :
  ginv g →
  (g_done g = false → ∃ i g', gproducer shard cap g i = Some (Ret g')) ∧
  (∀ w q, g_pipes g !! w = Some q → q_mode q ≠ MDone → ∃ i g', gworker sink cap w g i = Some (Ret g')).
Proof using Hshard Hsink.
  intros Hg. pose proof Hg as [(d & Ed & _) _ Hl Hp]. split.
  - intros Hd. assert (E : ∃ i r, gproducer shard cap g i = Some r).
    { unfold gproducer. destruct (g_todo g) as [|x todo] eqn:Et; [rewrite Hd; exists 0; by eexists|].
      destruct (lookup_lt_is_Some_2 (g_pipes g) (shard x)) as [q Eq]; [rewrite Hl; apply Hshard; rewrite Ed; set_solver|].
      rewrite Eq. destruct (Hp _ _ Eq) as (Es & p0 & tc & hc & Hq). rewrite sub_cons, decide_True in Hq by done.
      destruct (wproducer_progress _ _ _ _ _ _ _ _ Hq) as (i & q' & E); [simpl; congruence|]. exists i. rewrite wproducer_head in E.
      destruct (wproducer cap (with_todo [x] q) i); [by eexists|done]. }
    destruct E as (i & r & E). destruct (gproducer_inv _ _ _ Hg E) as (g' & -> & _). by exists i, g'.
  - intros w q Eq Hm. destruct (Hp _ _ Eq) as (Es & p0 & tc & hc & Hq). destruct (Hsink w) as [stN HstN]; [rewrite <- Hl; by eapply lookup_lt_Some|].
    destruct (wconsumer_progress _ _ _ _ _ HstN _ _ _ _ Hq Hm) as (i & q' & E). exists i. unfold gworker. rewrite Eq. cbn [mbind option_bind].
    rewrite wconsumer_todo in E. destruct (wconsumer sink cap q i) as [[|q1]|]; [done| |done]. by eexists.
Qed.

(** Behind the joins every worker has applied the messages of its shard. *)
Lemma ginv_joined g :
  ginv g → gjoined g = true →
  g_count g = u64 (zlen items) ∧
  ∀ w st, (q_state <$> g_pipes g) !! w = Some st → foldM sink st0 (sub shard w items) = Some st.
Proof using.
  intros [(d & Ed & Ec) Hdn _ Hp] [Hd Hall]%andb_true_iff. rewrite (Hdn Hd), app_nil_r in Ed. subst d. split; [done|].
  intros w st Ew. rewrite list_lookup_fmap_Some in Ew. destruct Ew as (q & -> & Eq). destruct (Hp w q Eq) as (_ & p0 & tc & hc & Hq).
  rewrite forallb_forall in Hall. specialize (Hall q). rewrite <- list_elem_of_In in Hall. specialize (Hall (list_elem_of_lookup_2 _ _ _ Eq)).
  pose proof (pi_mode _ _ _ _ _ _ _ _ Hq) as Hm. pose proof (pi_state _ _ _ _ _ _ _ _ Hq) as Hs. simpl in *.
  destruct (q_mode q); try done. destruct Hm as [_ <-]. done.
Qed.

End Invariant.

(** C10: The sharded replay is right under the release/acquire memory model too.  For every buffer of
    up to 52 GB, any number of workers and every choice of stale values that the memory orders
    allow: there is no data race, no access out of bounds and no failing update; the producer is
    never stuck before it sets [done] and no worker before it leaves its loop; and behind the
    joins the count and the merged set, whatever the traversal order of the maps, are exactly
    those of the single-threaded replay into one [BookSet]. *)
Theorem weak_sharded_equals_single buf n_workers orders :
  bytes_ok buf → zlen buf ≤ 13 * 2 ^ 32 → (∀ bs, traversal bs (orders bs)) →
  let W := clamp_workers n_workers in
  ∃ ms cap n bs, sink_calls buf (zlen buf) = Some ms ∧ round_up_pow2 4096 = Some cap ∧ replay_set buf (zlen buf) = Some (n, bs) ∧
    ∀ g, rtc (gstep BookSet.apply (shard_msg W) cap) (gshards0 cap (Z.to_nat W) message0 ms set0) g →
      ¬ gundefined BookSet.apply (shard_msg W) cap g ∧
      (g_done g = false → ∃ i g', gproducer (shard_msg W) cap g i = Some (Ret g')) ∧
      (∀ w q, g_pipes g !! w = Some q → q_mode q ≠ MDone → ∃ i g', gworker BookSet.apply cap w g i = Some (Ret g')) ∧
      (gjoined g = true → gresult orders set0 g = Some (n, bs)).
Proof.
  intros Hok Hlen Hord. cbv zeta. destruct (sink_calls_spec buf Hok) as (ms & used & Ems & Hms & Hz & Hall); [lia|].
  assert (Hl : zlen ms ≤ 2 ^ 32) by lia. pose proof (zlen_nonneg ms). destruct (round_up_pow2_spec 4096) as (cap & Ec & Hc & _); [lia|].
  destruct (apply_set_rep ms Hms Hl) as (bs & Ebs & Hrep). exists ms, cap, (zlen ms), bs. split_and!; [done|done| |].
  { unfold replay_set. rewrite Hall, Pipeline.set_fold by lia. unfold apply_set in Ebs. by rewrite Ebs. }
  set (W := clamp_workers n_workers). intros g Hg.
  assert (Hsh : ∀ x : Message, x ∈ ms → (shard_msg W x < Z.to_nat W)%nat) by (intros; apply shard_of_lt, nshards_pos).
  assert (Happ : ∀ w, (w < Z.to_nat W)%nat → is_Some (foldM BookSet.apply set0 (sub (shard_msg W) w ms))).
  { intros w _. destruct (sub_rep W ms Hms Hl w) as (x & Ex & _). by exists x. }
  pose proof (gsteps_inv _ _ _ _ _ _ Hsh Happ _ _ Hc Hg) as Hi. destruct (ginv_progress _ _ _ _ _ _ Hsh Happ _ Hi) as [Hprod Hwork].
  split_and!; [by eapply ginv_defined|done|done|]. intros Hj. unfold gresult. rewrite Hj.
  destruct (ginv_joined _ _ _ _ _ _ _ Hi Hj) as [-> Hst]. rewrite u64_small by lia.
  rewrite (merged_shards n_workers orders Hord ms (q_state <$> g_pipes g) bs); try done. rewrite length_fmap. apply (gi_len _ _ _ _ _ _ _ Hi).
Qed.

(** Steps by a script: the thread (0 the producer, [w + 1] worker [w]) and the store its load
    returns. *)

Fixpoint gacts {T St} (sink : St → T → option St) (shard : T → nat) (cap : Z) (l : list (nat * Z)) (g : wshards) : option wshards :=
  match l with
  | [] => Some g
  | (t, i) :: l =>
      match (match t with 0%nat => gproducer shard cap g i | S w => gworker sink cap w g i end) with
      | Some (Ret g) => gacts sink shard cap l g
      | _ => None
      end
  end.

Lemma gacts_steps {T St} (sink : St → T → option St) shard cap l g g' :
  gacts sink shard cap l g = Some g' → rtc (gstep sink shard cap) g g'.
Proof.
  revert g. induction l as [|[[|w] i] l IH]; intros g E; simpl in E; [by simplify_eq|..].
  - destruct (gproducer shard cap g i) as [[|g1]|] eqn:E1; [done| |done]. econstructor; [by eapply gstep_prod|by apply IH].
  - destruct (gworker sink cap w g i) as [[|g1]|] eqn:E1; [done| |done]. econstructor; [by eapply gstep_work|by apply IH].
Qed.

(** Two workers for three messages; the second worker first reads a stale [head_] and a stale
    [done]. *)

Definition demo_shards : list (nat * Z) :=
  prod_map id Z.of_nat <$>
  [(0, 0); (0, 0); (0, 0); (0, 0); (2, 0); (2, 0); (2, 0); (2, 0);
   (0, 0); (0, 0); (0, 0); (0, 0); (0, 0); (0, 1); (0, 0); (0, 0); (0, 0);
   (2, 0); (2, 0); (2, 2); (2, 0); (2, 0); (1, 0); (1, 0); (1, 1); (1, 0); (1, 0);
   (2, 0); (2, 1); (2, 0); (2, 0); (2, 0); (2, 2); (2, 2); (2, 1); (2, 0); (2, 2); (2, 2);
   (1, 0); (1, 1); (1, 1); (1, 1); (1, 0); (1, 1); (1, 1)]%nat.

Definition demo_joined : wshards (T:=Message) (St:=BookSet) :=
  default (gshards0 2 0 message0 [] set0)
    (ms ← sink_calls demo_stream (zlen demo_stream);
     gacts BookSet.apply (shard_msg 2) 4096 demo_shards (gshards0 4096 2 message0 ms set0)).

Lemma weak_sharded_equals_single_witness :
  bytes_ok demo_stream ∧ gjoined demo_joined = true ∧
  ∃ n bs, replay_set demo_stream (zlen demo_stream) = Some (n, bs) ∧
    gresult (λ bs, (map_to_list (books_ bs), map_to_list (symbols_ bs))) set0 demo_joined = Some (n, bs).
Proof.
  assert (Hok : bytes_ok demo_stream) by (apply (bool_decide_unpack _); vm_compute; exact I).
  assert (Hj : gjoined demo_joined = true) by (vm_compute; reflexivity). split; [exact Hok|]. split; [exact Hj|].
  destruct (weak_sharded_equals_single demo_stream 2 (λ bs, (map_to_list (books_ bs), map_to_list (symbols_ bs))) Hok
    ltac:(vm_compute; discriminate) ltac:(intros bs; split; reflexivity)) as (ms & cap & n & bs & Ems & Ec & Es & H).
  exists n, bs. split; [exact Es|]. assert (cap = 4096) as -> by (injection Ec as <-; reflexivity).
  apply (H demo_joined); [|exact Hj]. apply (gacts_steps _ _ _ demo_shards).
  assert (E : (ms ← sink_calls demo_stream (zlen demo_stream);
    gacts BookSet.apply (shard_msg 2) 4096 demo_shards (gshards0 4096 2 message0 ms set0)) = Some demo_joined) by (vm_compute; reflexivity).
  rewrite Ems in E. exact E.
Defined.
