(* ===== verification/Tape.v ===== *)
(** The trade tape (include/book/tape.hpp): last price, cumulative volume and OHLCV bars over
    fixed time buckets.  Integers wrap at 64 bits.  The volume-weighted prices are computed
    in floating point; the operations they use are the record [floats], so the theorems hold
    for every floating-point format; [Averages] has those of the program's formats. *)
From S2P Require Export Types.

(** [long double] and [double] with the operations of the tape: zero, the product of a price
    and a quantity, addition, division by a volume, and the conversion to dollars. *)

Record floats := mkFloats {
  LD : Type;
  D : Type;
  ld_zero : LD;
  ld_mul : Z → Z → LD;
  ld_add : LD → LD → LD;
  ld_div : LD → Z → LD;
  to_double : LD → D;
  d_scale : D → Z → D;
  d_zero : D;
}.

Section Tape.
Context (fl : floats).

Record Bar := mkBar {
  start_ns : Z;
  open : Z;
  high : Z;
  low : Z;
  close : Z;
  volume : Z;
  vwap : D fl;
}.

Definition bar0 : Bar := mkBar 0 0 0 0 0 0 (d_zero fl).

Record Tape := mkTape {
  interval_ : Z;
  has_last_ : bool;
  last_px_ : Z;
  last_ts_ : Z;
  cum_vol_ : Z;
  cum_notional_ : LD fl;
  bars_ : list Bar;
  cur_ : Bar;
  cur_open_ : bool;
  cur_bucket_ : Z;
  cur_notional_ : LD fl;
}.

Definition make_tape (bar_interval_ns : Z) : Tape :=
  mkTape (if bar_interval_ns =? 0 then 1 else bar_interval_ns) false 0 0 0 (ld_zero fl) [] bar0
    false 0 (ld_zero fl).

(** [b.volume ? (notional / b.volume) / kPriceScale : 0.0]. *)

Definition average (vol : Z) (notional : LD fl) : D fl :=
  if vol =? 0 then d_zero fl else d_scale fl (to_double fl (ld_div fl notional vol)) kPriceScale.

Definition finalize (b : Bar) (notional : LD fl) : Bar :=
  mkBar (start_ns b) (open b) (high b) (low b) (close b) (volume b) (average (volume b) notional).

Definition start_bar (px bucket : Z) (t : Tape) : Tape :=
  mkTape (interval_ t) (has_last_ t) (last_px_ t) (last_ts_ t) (cum_vol_ t) (cum_notional_ t)
    (bars_ t) (mkBar (u64 (bucket * interval_ t)) px px px px 0 (d_zero fl)) true bucket (ld_zero fl).

Definition close_bar (t : Tape) : Tape :=
  mkTape (interval_ t) (has_last_ t) (last_px_ t) (last_ts_ t) (cum_vol_ t) (cum_notional_ t)
    (bars_ t ++ [finalize (cur_ t) (cur_notional_ t)]) (cur_ t) false (cur_bucket_ t) (cur_notional_ t).

(** The last lines of [on_trade]: the current bar takes the trade. *)

Definition take_trade (px qty : Z) (t : Tape) : Tape :=
  let b := cur_ t in
  mkTape (interval_ t) (has_last_ t) (last_px_ t) (last_ts_ t) (cum_vol_ t) (cum_notional_ t) (bars_ t)
    (mkBar (start_ns b) (open b) (if high b <? px then px else high b)
       (if px <? low b then px else low b) px (u64 (volume b + qty)) (vwap b))
    (cur_open_ t) (cur_bucket_ t) (ld_add fl (cur_notional_ t) (ld_mul fl px qty)).

Definition on_trade (t : Tape) (px qty ts : Z) : Tape :=
  let t := mkTape (interval_ t) true px ts (u64 (cum_vol_ t + qty))
             (ld_add fl (cum_notional_ t) (ld_mul fl px qty))
             (bars_ t) (cur_ t) (cur_open_ t) (cur_bucket_ t) (cur_notional_ t) in
  let bucket := ts / interval_ t in
  let t := if negb (cur_open_ t) then start_bar px bucket t
           else if bucket =? cur_bucket_ t then t
           else start_bar px bucket (close_bar t) in
  take_trade px qty t.

Definition has_last (t : Tape) : bool := has_last_ t.

Definition last_ (t : Tape) : Z := last_px_ t.

Definition last_ts (t : Tape) : Z := last_ts_ t.

Definition volume_ (t : Tape) : Z := cum_vol_ t.

Definition vwap_ (t : Tape) : D fl := average (cum_vol_ t) (cum_notional_ t).

Definition bars (t : Tape) (include_current : bool) : list Bar :=
  bars_ t ++ (if include_current && cur_open_ t then [finalize (cur_ t) (cur_notional_ t)] else []).

Definition bar_count (t : Tape) : Z := u64 (zlen (bars_ t) + (if cur_open_ t then 1 else 0)).

(** * The specification: trades grouped by bucket *)

(** A trade: price, quantity, timestamp. *)

Record trade := mkTrade { t_px : Z; t_qty : Z; t_ts : Z }.

Definition on_trades (t : Tape) (l : list trade) : Tape :=
  foldl (λ t x, on_trade t (t_px x) (t_qty x) (t_ts x)) t l.

(** Maximal runs of consecutive trades in the same bucket, the newest run last. *)

Definition bucket_of (iv : Z) (x : trade) : Z := t_ts x / iv.

Definition add_run (iv : Z) (rs : list (list trade)) (x : trade) : list (list trade) :=
  match last rs with
  | Some r =>
      match last r with
      | Some y => if bucket_of iv y =? bucket_of iv x then removelast rs ++ [r ++ [x]] else rs ++ [[x]]
      | None => rs ++ [[x]]
      end
  | None => rs ++ [[x]]
  end.

Definition runs (iv : Z) (l : list trade) : list (list trade) := foldl (add_run iv) [] l.

Definition total_qty (l : list trade) : Z := foldr (λ x n, t_qty x + n) 0 l.

Definition notional (l : list trade) : LD fl :=
  foldl (λ n x, ld_add fl n (ld_mul fl (t_px x) (t_qty x))) (ld_zero fl) l.

(** The bar of a run that starts with the trade [x]. *)

Definition bar_of (iv : Z) (x : trade) (l : list trade) : Bar :=
  let r := x :: l in
  mkBar (u64 (bucket_of iv x * iv)) (t_px x)
    (foldr Z.max (t_px x) (t_px <$> l)) (foldr Z.min (t_px x) (t_px <$> l))
    (t_px (default x (last r))) (u64 (total_qty r)) (average (u64 (total_qty r)) (notional r)).

Definition run_bar (iv : Z) (r : list trade) : Bar :=
  match r with x :: l => bar_of iv x l | [] => bar0 end.

(** * The tape computes the bars of the runs *)

(** The state after the trades [l], of which [x :: k] is the run under way. *)

Record tape_rep (iv : Z) (l : list trade) (t : Tape) : Prop := {
  tr_interval : interval_ t = iv;
  tr_volume : cum_vol_ t = u64 (total_qty l);
  tr_notional : cum_notional_ t = notional l;
  tr_last : match last l with
    | Some x => has_last_ t = true ∧ last_px_ t = t_px x ∧ last_ts_ t = t_ts x
    | None => has_last_ t = false
    end;
  tr_current : match runs iv l with
    | [] => bars_ t = [] ∧ cur_open_ t = false
    | _ => ∃ done x k, runs iv l = done ++ [x :: k] ∧ bars_ t = run_bar iv <$> done ∧ cur_open_ t = true ∧
        cur_bucket_ t = bucket_of iv x ∧ bucket_of iv (default x (last k)) = bucket_of iv x ∧
        finalize (cur_ t) (cur_notional_ t) = bar_of iv x k ∧ cur_notional_ t = notional (x :: k)
    end;
}.

Lemma total_qty_snoc l x : total_qty (l ++ [x]) = total_qty l + t_qty x.
Proof. induction l as [|y l IH]; simpl; [lia|]. rewrite IH. lia. Qed.

Lemma notional_snoc l x : notional (l ++ [x]) = ld_add fl (notional l) (ld_mul fl (t_px x) (t_qty x)).
Proof. unfold notional. by rewrite foldl_snoc. Qed.

Lemma foldr_max_snoc a l y : foldr Z.max a (l ++ [y]) = Z.max y (foldr Z.max a l).
Proof. induction l as [|z l IH]; simpl; [done|]. rewrite IH. lia. Qed.

Lemma foldr_min_snoc a l y : foldr Z.min a (l ++ [y]) = Z.min y (foldr Z.min a l).
Proof. induction l as [|z l IH]; simpl; [done|]. rewrite IH. lia. Qed.

Lemma runs_snoc iv l x : runs iv (l ++ [x]) = add_run iv (runs iv l) x.
Proof. unfold runs. by rewrite foldl_snoc. Qed.

(** A trade in the bucket of the current run extends it. *)
Lemma bar_of_snoc iv x k (b : Bar) n y :
  finalize b n = bar_of iv x k → n = notional (x :: k) →
  finalize
    (mkBar (start_ns b) (open b) (if high b <? t_px y then t_px y else high b)
       (if t_px y <? low b then t_px y else low b) (t_px y) (u64 (volume b + t_qty y)) (vwap b))
    (ld_add fl n (ld_mul fl (t_px y) (t_qty y))) = bar_of iv x (k ++ [y]).
Proof.
  intros Hb Hn. unfold finalize, bar_of in *. injection Hb as E1 E2 E3 E4 E5 E6 _. simpl.
  change (x :: k ++ [y]) with ((x :: k) ++ [y]). rewrite fmap_app.
  change (t_px <$> [y]) with [t_px y]. rewrite foldr_max_snoc, foldr_min_snoc.
  rewrite last_snoc, notional_snoc, E1, E2, E3, E4, E6, <- Hn. simpl.
  change (t_qty x + total_qty (k ++ [y])) with (total_qty ((x :: k) ++ [y])). rewrite total_qty_snoc. simpl.
  rewrite u64_add_l. f_equal; split_tests; lia.
Qed.

(** The first trade of a bucket. *)
Lemma bar_of_start iv x :
  finalize
    (mkBar (u64 (bucket_of iv x * iv)) (t_px x) (if t_px x <? t_px x then t_px x else t_px x)
       (if t_px x <? t_px x then t_px x else t_px x) (t_px x) (u64 (0 + t_qty x)) (d_zero fl))
    (ld_add fl (ld_zero fl) (ld_mul fl (t_px x) (t_qty x))) = bar_of iv x [].
Proof. unfold finalize, bar_of. simpl. rewrite Z.ltb_irrefl, Z.add_0_r. done. Qed.

Lemma on_trade_rep iv l t x :
  tape_rep iv l t → tape_rep iv (l ++ [x]) (on_trade t (t_px x) (t_qty x) (t_ts x)).
Proof.
  intros [Hiv Hvol Hnot Hlast Hcur].
  assert (Hv : u64 (cum_vol_ t + t_qty x) = u64 (total_qty (l ++ [x])))
    by (by rewrite total_qty_snoc, Hvol, u64_add_l).
  assert (Hn : ld_add fl (cum_notional_ t) (ld_mul fl (t_px x) (t_qty x)) = notional (l ++ [x]))
    by (by rewrite notional_snoc, Hnot).
  unfold on_trade. simpl. rewrite Hiv. fold (bucket_of iv x). set (bk := bucket_of iv x).
  destruct (runs iv l) as [|r rs] eqn:Er.
  - destruct Hcur as [Hb Ho]. rewrite Ho. split; simpl; rewrite ?last_snoc; try done.
    rewrite runs_snoc, Er. simpl. exists [], x, []. rewrite Hb. simpl. split_and!; try done.
    apply bar_of_start.
  - destruct Hcur as (done & y & k & E & Hb & Ho & Hbk & Hlk & Hfin & Hnk). rewrite Ho, Hbk. simpl.
    assert (Hrun : runs iv (l ++ [x]) = if bucket_of iv y =? bk then done ++ [(y :: k) ++ [x]] else (done ++ [y :: k]) ++ [[x]]).
    { rewrite runs_snoc, Er, E. unfold add_run. rewrite last_snoc.
      assert (Hl : last (y :: k) = Some (default y (last k))) by (rewrite last_cons; by destruct (last k)).
      rewrite Hl, Hlk. fold bk. destruct (_ =? bk); [|done]. by rewrite removelast_last. }
    rewrite (Z.eqb_sym bk). destruct (Z.eqb_spec (bucket_of iv y) bk) as [Heq|Hne].
    + split; simpl; rewrite ?last_snoc; try done. rewrite Hrun.
      destruct (done ++ [(y :: k) ++ [x]]) eqn:Ed; [by destruct done|]. rewrite <- Ed. clear Ed.
      exists done, y, (k ++ [x]). rewrite last_snoc. split_and!; try done.
      * by apply bar_of_snoc.
      * by rewrite Hnk, <- notional_snoc.
    + split; simpl; rewrite ?last_snoc; try done. rewrite Hrun.
      destruct ((done ++ [y :: k]) ++ [[x]]) eqn:Ed; [by destruct done|]. rewrite <- Ed. clear Ed.
      exists (done ++ [y :: k]), x, []. split_and!; try done.
      * rewrite fmap_app, Hb. by rewrite Hfin.
      * apply bar_of_start.
Qed.

Lemma on_trades_rep iv0 l :
  let iv := if iv0 =? 0 then 1 else iv0 in tape_rep iv l (on_trades (make_tape iv0) l).
Proof.
  cbv zeta. set (iv := if iv0 =? 0 then 1 else iv0). induction l as [|x l IH] using rev_ind.
  - split; done.
  - unfold on_trades in *. rewrite foldl_snoc. by apply on_trade_rep.
Qed.

(** The runs are the trades, in order, and no run is empty. *)
Lemma runs_partition iv l : mjoin (runs iv l) = l ∧ Forall (λ r, r ≠ []) (runs iv l).
Proof.
  induction l as [|x l [IHj IHn]] using rev_ind; [split; [done|constructor]|]. rewrite runs_snoc. unfold add_run.
  assert (Hnew : mjoin (runs iv l ++ [[x]]) = l ++ [x] ∧ Forall (λ r, r ≠ []) (runs iv l ++ [[x]])).
  { rewrite join_app, IHj. split; [done|]. apply Forall_app. split; [done|by constructor]. }
  destruct (runs iv l) as [|r rs _] using rev_ind; [done|]. rewrite last_snoc.
  destruct (last r) as [y|] eqn:Ey; [|done]. destruct (_ =? _); [|done]. rewrite removelast_last.
  rewrite join_app in *. simpl in *. rewrite app_nil_r in *. split; [by rewrite app_assoc, IHj|].
  apply Forall_app in IHn as [? _]. apply Forall_app. split; [done|]. constructor; [by destruct r|done].
Qed.

Lemma runs_length iv l : (length (runs iv l) ≤ length l)%nat.
Proof.
  pose proof (runs_partition iv l) as [Hj Hn]. rewrite <- Hj at 2. clear Hj.
  induction Hn as [|r rs Hr _ IH]; simpl; [lia|]. rewrite length_app. destruct r; [done|]. simpl. lia.
Qed.

Lemma bar_of_wf iv x k :
  let b := bar_of iv x k in low b ≤ open b ≤ high b ∧ low b ≤ close b ≤ high b.
Proof.
  cbv zeta. unfold bar_of. cbn [low open high close].
  assert (Hx : foldr Z.min (t_px x) (t_px <$> k) ≤ t_px x ≤ foldr Z.max (t_px x) (t_px <$> k))
    by (induction k as [|y k IH]; [simpl; lia|]; cbn [fmap list_fmap foldr] in *; lia).
  split; [done|]. rewrite last_cons. destruct (last k) as [y|] eqn:Ey; [|done]. simpl.
  apply last_Some in Ey as [k' ->]. rewrite fmap_app. change (t_px <$> [y]) with [t_px y].
  rewrite foldr_max_snoc, foldr_min_snoc. lia.
Qed.

Lemma total_qty_app l k : total_qty (l ++ k) = total_qty l + total_qty k.
Proof. induction l as [|x l IH]; simpl; [done|]. rewrite IH. lia. Qed.

Lemma runs_volume iv rs :
  Forall (λ r, r ≠ []) rs →
  u64 (foldr (λ b n, volume b + n) 0 (run_bar iv <$> rs)) = u64 (total_qty (mjoin rs)).
Proof.
  induction 1 as [|r rs Hr _ IH]; [done|]. destruct r as [|x k]; [done|].
  change (mjoin ((x :: k) :: rs)) with ((x :: k) ++ mjoin rs).
  rewrite total_qty_app, fmap_cons. cbn [foldr]. unfold run_bar at 1, bar_of. cbn [volume].
  rewrite u64_add_l, Z.add_comm, <- u64_add_l, IH, u64_add_l, Z.add_comm. done.
Qed.

(** The bars of a tape, with and without the current one. *)
Lemma bars_of_runs iv0 l :
  let iv := if iv0 =? 0 then 1 else iv0 in
  let t := on_trades (make_tape iv0) l in
  bars t true = run_bar iv <$> runs iv l ∧ bars t false = run_bar iv <$> removelast (runs iv l) ∧
  zlen (bars_ t) + (if cur_open_ t then 1 else 0) = zlen (runs iv l).
Proof.
  cbv zeta. destruct (on_trades_rep iv0 l) as [_ _ _ _ Hc]. set (iv := if iv0 =? 0 then 1 else iv0) in *. unfold bars.
  destruct (runs iv l) as [|r rs] eqn:Er; [by destruct Hc as [-> ->]|].
  destruct Hc as (done & x & k & E & -> & -> & _ & _ & Hf & _). rewrite E. cbn [andb].
  by rewrite removelast_last, !fmap_app, app_nil_r, Hf, zlen_fmap, zlen_app.
Qed.

End Tape.

(** * Properties *)

(** C39: The tape's bars are the trades grouped by time bucket.  After any sequence of trades,
    with [iv] the effective interval: the bars, current one included, are those of the maximal
    runs of consecutive trades in one bucket, which together are all the trades in order; each
    bar has the first price as open, the last as close, the extremes as high and low, the sum
    of the quantities as volume and the volume-weighted price of its run; without the current
    bar the last one is missing; and the cumulative volume, the average price and the last
    price are those of all trades. *)
Theorem tape_bars_are_runs (fl : floats) iv0 l :
  let iv := if iv0 =? 0 then 1 else iv0 in
  let t := on_trades fl (make_tape fl iv0) l in
  bars fl t true = run_bar fl iv <$> runs iv l ∧
  bars fl t false = run_bar fl iv <$> removelast (runs iv l) ∧
  mjoin (runs iv l) = l ∧
  volume_ fl t = u64 (total_qty l) ∧ vwap_ fl t = average fl (u64 (total_qty l)) (notional fl l) ∧
  match last l with
  | Some x => has_last fl t = true ∧ last_ fl t = t_px x ∧ last_ts fl t = t_ts x
  | None => has_last fl t = false
  end.
Proof.
  cbv zeta. destruct (on_trades_rep fl iv0 l) as [_ Hv Hn Hl _]. destruct (bars_of_runs fl iv0 l) as (H1 & H2 & _).
  split; [done|]. split; [done|]. split; [apply runs_partition|]. unfold volume_, vwap_. by rewrite Hv, Hn.
Qed.

(** Every bar is well formed and no volume is lost: low and high enclose open and close,
    the volumes of the bars add up to the cumulative volume (modulo 2^64, where the counters
    wrap), and [bar_count] is the number of bars. *)
Theorem tape_bars_well_formed (fl : floats) iv0 l :
  zlen l < 2 ^ 64 →
  let t := on_trades fl (make_tape fl iv0) l in
  Forall (λ b, low fl b ≤ open fl b ≤ high fl b ∧ low fl b ≤ close fl b ≤ high fl b) (bars fl t true) ∧
  u64 (foldr (λ b n, volume fl b + n) 0 (bars fl t true)) = volume_ fl t ∧
  bar_count fl t = zlen (bars fl t true).
Proof.
  intros Hlen. cbv zeta. destruct (on_trades_rep fl iv0 l) as [_ Hv _ _ _]. destruct (bars_of_runs fl iv0 l) as (-> & _ & Hcnt).
  set (iv := if iv0 =? 0 then 1 else iv0) in *. set (t := on_trades fl (make_tape fl iv0) l) in *.
  pose proof (runs_partition iv l) as [Hj Hne]. pose proof (runs_length iv l) as Hrl.
  unfold bar_count. rewrite Hcnt, zlen_fmap. split_and!.
  - apply Forall_fmap. eapply Forall_impl; [exact Hne|]. intros [|x k] Hr; [done|]. apply bar_of_wf.
  - unfold volume_. rewrite Hv, runs_volume by done. by rewrite Hj.
  - rewrite u64_small; [done|]. pose proof (zlen_nonneg (runs iv l)). unfold zlen in *. lia.
Qed.

(** Three trades in two buckets of a microsecond, with integers in place of floats. *)

Definition exact_floats : floats := mkFloats Z Z 0 Z.mul Z.add Z.div id Z.div 0.

Lemma tape_bars_well_formed_witness :
  let t := on_trades exact_floats (make_tape exact_floats 1000)
             [mkTrade 10050 7 2100; mkTrade 10020 3 2900; mkTrade 10060 5 3000] in
  bars exact_floats t true =
    [mkBar exact_floats 2000 10050 10050 10020 10020 10 1; mkBar exact_floats 3000 10060 10060 10060 10060 5 1] ∧
  bar_count exact_floats t = 2 ∧
  u64 (foldr (λ b n, volume exact_floats b + n) 0 (bars exact_floats t true)) = volume_ exact_floats t.
Proof.
  cbv zeta. split_and!; [vm_compute; reflexivity|vm_compute; reflexivity|].
  apply (tape_bars_well_formed exact_floats 1000
    [mkTrade 10050 7 2100; mkTrade 10020 3 2900; mkTrade 10060 5 3000]).
  vm_compute. reflexivity.
Defined.
