(* ===== verification/Text.v ===== *)
(** Byte strings as the text parts of the program use them: literals, [std::to_string],
    [std::atoi], [find], [rfind] and [substr] of [std::string].  A string is the list of its
    bytes; [None] stands for undefined behaviour or an exception. *)
From S2P Require Export Types.
From stdpp Require Import strings.

#[local] Open Scope list_scope.
#[local] Open Scope Z_scope.

(** The bytes of a literal. *)

Fixpoint lit (s : string) : list Z :=
  match s with
  | EmptyString => []
  | String a s => Z.of_N (Ascii.N_of_ascii a) :: lit s
  end.

(** A literal in which the apostrophe stands for the quotation mark. *)

Definition jlit (s : string) : list Z := (λ c, if c =? 39 then 34 else c) <$> lit s.

(** [substr(pos, n)], which throws when [pos > size()]. *)

Definition substr (s : list Z) (pos n : Z) : option (list Z) :=
  if zlen s <? pos then None else Some (take (Z.to_nat n) (drop (Z.to_nat pos) s)).

(** [find(c, pos)]: [None] is [npos]. *)

Fixpoint index_of (c : Z) (s : list Z) : option Z :=
  match s with
  | [] => None
  | x :: s => if x =? c then Some 0 else i ← index_of c s; Some (i + 1)
  end.

Definition find (c : Z) (s : list Z) (pos : Z) : option Z :=
  i ← index_of c (drop (Z.to_nat pos) s); Some (pos + i).

(** [rfind(pat)]: the last position at which [pat] occurs. *)

Fixpoint rfind_loop (pat s : list Z) (k : nat) : option Z :=
  if decide (take (length pat) (drop k s) = pat) then Some (Z.of_nat k)
  else match k with O => None | S k => rfind_loop pat s k end.

Definition rfind (pat s : list Z) : option Z := rfind_loop pat s (length s).

(** [std::to_string] of an integer. *)

Fixpoint dec_loop (fuel : nat) (n : Z) (acc : list Z) : list Z :=
  match fuel with
  | O => acc
  | S fuel => if n <? 10 then (48 + n) :: acc else dec_loop fuel (n / 10) ((48 + n `mod` 10) :: acc)
  end.

Definition dec_digits (n : Z) : list Z := dec_loop (S (Z.to_nat (Z.log2 n))) n [].

Definition to_string (n : Z) : list Z := if n <? 0 then 45 :: dec_digits (- n) else dec_digits n.

(** [std::atoi]: blanks, a sign, digits; undefined when the value is not an [int]. *)

Definition is_digit (c : Z) : bool := (48 <=? c) && (c <=? 57).

Definition is_space (c : Z) : bool := (c =? 32) || ((9 <=? c) && (c <=? 13)).

Fixpoint dec_value (s : list Z) (v : Z) : Z :=
  match s with
  | c :: s => if is_digit c then dec_value s (v * 10 + (c - 48)) else v
  | [] => v
  end.

Fixpoint skip_space (s : list Z) : list Z :=
  match s with
  | c :: s' => if is_space c then skip_space s' else s
  | [] => []
  end.

Definition signed_value (s : list Z) : Z :=
  match s with
  | c :: s' => if c =? 45 then - dec_value s' 0 else if c =? 43 then dec_value s' 0 else dec_value s 0
  | [] => 0
  end.

Definition int_range (v : Z) : Prop := - 2 ^ 31 ≤ v < 2 ^ 31.

Definition atoi (s : list Z) : option Z :=
  let v := signed_value (skip_space s) in if decide (- 2 ^ 31 ≤ v < 2 ^ 31) then Some v else None.

(** * Facts *)

Lemma dec_loop_value fuel n acc :
  0 ≤ n < 2 ^ Z.of_nat fuel → (1 ≤ fuel)%nat → dec_value (dec_loop fuel n acc) 0 = dec_value acc n.
Proof.
  revert n acc. induction fuel as [|fuel IH]; intros n acc Hn Hf; [lia|]. cbn [dec_loop].
  destruct (Z.ltb_spec n 10) as [Hlt|Hge].
  - cbn [dec_value]. unfold is_digit. rewrite (proj2 (Z.leb_le 48 (48 + n))), (proj2 (Z.leb_le (48 + n) 57)) by lia.
    cbn [andb]. by replace (0 * 10 + (48 + n - 48)) with n by lia.
  - pose proof (Z.mod_pos_bound n 10 ltac:(lia)) as Hm. pose proof (Z.div_mod n 10 ltac:(lia)) as Hd.
    rewrite Nat2Z.inj_succ, Z.pow_succ_r in Hn by lia.
    rewrite IH.
    + cbn [dec_value]. unfold is_digit.
      rewrite (proj2 (Z.leb_le 48 (48 + n `mod` 10))), (proj2 (Z.leb_le (48 + n `mod` 10) 57)) by lia.
      cbn [andb]. f_equal. lia.
    + lia.
    + destruct fuel; [simpl in Hn; lia|lia].
Qed.

Lemma dec_loop_digits fuel n acc :
  0 ≤ n → Forall (λ c, is_digit c = true) acc → Forall (λ c, is_digit c = true) (dec_loop fuel n acc).
Proof.
  assert (Hd : ∀ d, 0 ≤ d < 10 → is_digit (48 + d) = true) by (intros d ?; unfold is_digit; lia).
  revert n acc. induction fuel as [|fuel IH]; intros n acc Hn Ha; cbn [dec_loop]; [done|].
  destruct (Z.ltb_spec n 10); [constructor; [apply Hd; lia|done]|].
  apply IH; [apply Z.div_pos; lia|]. constructor; [apply Hd, Z.mod_pos_bound; lia|done].
Qed.

Lemma dec_fuel n : 0 ≤ n → n < 2 ^ Z.of_nat (S (Z.to_nat (Z.log2 n))).
Proof.
  intros Hn. rewrite Nat2Z.inj_succ, Z2Nat.id by apply Z.log2_nonneg.
  destruct (decide (n = 0)) as [->|]; [done|]. apply Z.log2_spec. lia.
Qed.

Lemma dec_digits_value n : 0 ≤ n → dec_value (dec_digits n) 0 = n.
Proof. intros Hn. unfold dec_digits. rewrite dec_loop_value; [done|split; [done|by apply dec_fuel]|lia]. Qed.

Lemma dec_digits_ok n : 0 ≤ n → Forall (λ c, is_digit c = true) (dec_digits n).
Proof. intros Hn. by apply dec_loop_digits. Qed.

(** The characters of a printed integer. *)
Lemma to_string_chars n c : c ∈ to_string n → c = 45 ∨ is_digit c = true.
Proof.
  unfold to_string. destruct (Z.ltb_spec n 0) as [Hn|Hn].
  - intros [->|Hc]%elem_of_cons; [by left|]. right.
    pose proof (dec_digits_ok (- n) ltac:(lia)) as Hf. rewrite Forall_forall in Hf. by apply Hf.
  - intros Hc. right. pose proof (dec_digits_ok n Hn) as Hf. rewrite Forall_forall in Hf. by apply Hf.
Qed.

Lemma digits_no_sign s : Forall (λ c, is_digit c = true) s → signed_value (skip_space s) = dec_value s 0.
Proof.
  destruct s as [|c s]; [done|]. intros [Hc _]%Forall_cons. cbn [skip_space].
  assert (Hs : is_space c = false) by (unfold is_digit, is_space in *; lia). rewrite Hs.
  unfold is_digit in Hc. unfold signed_value. destruct (Z.eqb_spec c 45); [lia|].
  destruct (Z.eqb_spec c 43); [lia|done].
Qed.

(** Printing an [int] and reading it back is the identity. *)
Lemma atoi_to_string n : int_range n → atoi (to_string n) = Some n.
Proof.
  unfold int_range. intros Hn. unfold atoi.
  assert (E : signed_value (skip_space (to_string n)) = n).
  { unfold to_string. destruct (Z.ltb_spec n 0).
    - change (- dec_value (dec_digits (- n)) 0 = n). rewrite dec_digits_value by lia. lia.
    - rewrite digits_no_sign by (by apply dec_digits_ok). by apply dec_digits_value. }
  rewrite E. by rewrite decide_True.
Qed.

(** * Searching *)

Lemma index_of_app c a b : c ∉ a → index_of c (a ++ c :: b) = Some (zlen a).
Proof.
  induction a as [|x a IH]; intros Hn; simpl; [by rewrite Z.eqb_refl|].
  apply not_elem_of_cons in Hn as [Hx Ha]. destruct (Z.eqb_spec x c); [congruence|].
  rewrite IH by done. simpl. by rewrite zlen_cons.
Qed.

Lemma drop_zlen {A} (a b : list A) : drop (Z.to_nat (zlen a)) (a ++ b) = b.
Proof. unfold zlen. by rewrite Nat2Z.id, drop_app_length. Qed.

Lemma find_app c pre a b : c ∉ a → find c (pre ++ a ++ c :: b) (zlen pre) = Some (zlen pre + zlen a).
Proof. intros Hn. unfold find. by rewrite drop_zlen, index_of_app. Qed.

Lemma substr_app pre a b : substr (pre ++ a ++ b) (zlen pre) (zlen a) = Some a.
Proof.
  unfold substr. pose proof (zlen_nonneg a). pose proof (zlen_nonneg b). rewrite !zlen_app.
  destruct (Z.ltb_spec (zlen pre + (zlen a + zlen b)) (zlen pre)); [lia|].
  rewrite drop_zlen. unfold zlen. by rewrite Nat2Z.id, take_app_length.
Qed.

(** The last occurrence: found at [k] and nowhere behind it. *)
Lemma rfind_loop_at pat s k n :
  (k ≤ n)%nat → take (length pat) (drop k s) = pat →
  (∀ j, (k < j ≤ n)%nat → take (length pat) (drop j s) ≠ pat) → rfind_loop pat s n = Some (Z.of_nat k).
Proof.
  intros Hk Hp Hn. induction n as [|n IH].
  - replace k with 0%nat in * by lia. simpl. by rewrite decide_True.
  - cbn [rfind_loop]. destruct (decide (k = S n)) as [->|Hne]; [by rewrite decide_True|].
    rewrite decide_False by (apply Hn; lia). apply IH; [lia|]. intros j Hj. apply Hn. lia.
Qed.
