(* ===== verification/Fix.v ===== *)
(** The FIX 4.4 codec (include/fix/fields.hpp, include/fix/message.hpp): messages as ordered
    fields, encoding with BodyLength and CheckSum, parsing, checksum validation and the two
    order-entry builders.  The text of a price
    is an argument of the builders; [price_str] itself is in [Printf]. *)
From stdpp Require Import strings.
From S2P Require Export Text.

#[local] Open Scope list_scope.
#[local] Open Scope Z_scope.

Definition SOH : Z := 1.

(** The tags ([namespace tag]). *)

Definition tag_BeginString : Z := 8.
Definition tag_BodyLength : Z := 9.
Definition tag_CheckSum : Z := 10.
Definition tag_MsgType : Z := 35.
Definition tag_SenderCompID : Z := 49.
Definition tag_TargetCompID : Z := 56.
Definition tag_MsgSeqNum : Z := 34.
Definition tag_SendingTime : Z := 52.
Definition tag_ClOrdID : Z := 11.
Definition tag_OrderID : Z := 37.
Definition tag_ExecID : Z := 17.
Definition tag_Symbol : Z := 55.
Definition tag_Side : Z := 54.
Definition tag_OrderQty : Z := 38.
Definition tag_OrdType : Z := 40.
Definition tag_Price : Z := 44.
Definition tag_TimeInForce : Z := 59.
Definition tag_TransactTime : Z := 60.
Definition tag_ExecType : Z := 150.
Definition tag_OrdStatus : Z := 39.
Definition tag_LeavesQty : Z := 151.
Definition tag_CumQty : Z := 14.
Definition tag_AvgPx : Z := 6.
Definition tag_LastPx : Z := 31.
Definition tag_LastQty : Z := 32.
Definition tag_Text : Z := 58.

(** The characters of the enumerations on the wire. *)

Inductive FixSide : Set := FixBuy | FixSell.

Definition fix_side_char (s : FixSide) : Z := match s with FixBuy => 49 | FixSell => 50 end.

Inductive OrdType : Set := Market | Limit.

Definition ord_type_char (t : OrdType) : Z := match t with Market => 49 | Limit => 50 end.

Inductive TimeInForce : Set := Day | IOC | FOK | GTC.

Definition time_in_force_char (t : TimeInForce) : Z := match t with Day => 48 | IOC => 51 | FOK => 52 | GTC => 49 end.

Inductive ExecType : Set := ExecNew | ExecPartialFill | ExecFill | ExecCanceled | ExecRejected.

Definition exec_type_char (t : ExecType) : Z :=
  match t with
  | ExecNew => 48 | ExecPartialFill => 49 | ExecFill => 50 | ExecCanceled => 52 | ExecRejected => 56
  end.

Inductive OrdStatus : Set :=
  StatusNew | StatusPartiallyFilled | StatusFilled | StatusCanceled | StatusRejected.

Definition ord_status_char (t : OrdStatus) : Z :=
  match t with
  | StatusNew => 48 | StatusPartiallyFilled => 49 | StatusFilled => 50 | StatusCanceled => 52
  | StatusRejected => 56
  end.

(** * Messages *)

Definition FixMessage : Type := list (Z * list Z).

Definition set_str (m : FixMessage) (t : Z) (v : list Z) : FixMessage := m ++ [(t, v)].

Definition set_int (m : FixMessage) (t v : Z) : FixMessage := m ++ [(t, to_string v)].

Definition set_char (m : FixMessage) (t c : Z) : FixMessage := m ++ [(t, [c])].

Fixpoint get (m : FixMessage) (t : Z) : option (list Z) :=
  match m with
  | [] => None
  | (t', v) :: m => if t' =? t then Some v else get m t
  end.

Definition get_or (m : FixMessage) (t : Z) (dflt : list Z) : list Z := default dflt (get m t).

(** The sum of all bytes, in an [unsigned], modulo 256. *)

Definition checksum (s : list Z) : Z := foldl (λ sum c, u32 (sum + c)) 0 s `mod` 256.

(** ["%03u"] of a checksum. *)

Definition three_digits (c : Z) : list Z := [48 + c / 100; 48 + (c / 10) `mod` 10; 48 + c `mod` 10].

Definition field_text (f : Z * list Z) : list Z := to_string f.1 ++ lit "=" ++ f.2 ++ [SOH].

Definition encode_body (msg_type : list Z) (body : FixMessage) : list Z :=
  foldl (λ b f, b ++ field_text f) (lit "35=" ++ msg_type ++ [SOH]) body.

Definition encode (begin_string msg_type : list Z) (body : FixMessage) : list Z :=
  let b := encode_body msg_type body in
  let head := lit "8=" ++ begin_string ++ [SOH] ++ lit "9=" ++ to_string (zlen b) ++ [SOH] in
  let m := head ++ b in
  m ++ lit "10=" ++ three_digits (checksum m) ++ [SOH].

(** * Parsing *)

Fixpoint parse_loop (fuel : nat) (s : list Z) (i : Z) (fields : FixMessage) : option FixMessage :=
  match fuel with
  | O => None
  | S fuel =>
      if i <? zlen s then
        match find 61 s i with
        | None => Some fields
        | Some eq =>
            match find SOH s (eq + 1) with
            | None => Some fields
            | Some soh =>
                name ← substr s i (eq - i);
                t ← atoi name;
                v ← substr s (eq + 1) (soh - eq - 1);
                parse_loop fuel s (soh + 1) (fields ++ [(t, v)])
            end
        end
      else Some fields
  end.

(** Returns whether any field was found, and the fields. *)

Definition parse (s : list Z) : option (bool * FixMessage) :=
  fields ← parse_loop (S (length s)) s 0 [];
  Some (negb (bool_decide (fields = [])), fields).

Definition valid_checksum (s : list Z) : option bool :=
  match rfind (SOH :: lit "10=") s with
  | None => Some false
  | Some p =>
      got ← substr s (p + 1 + 3) 3;
      v ← atoi got;
      Some (v =? checksum (take (Z.to_nat (p + 1)) s))
  end.

(** * Order-entry messages *)

Section Builders.
Context {Double : Type} (price_str : Double → list Z).

Definition new_order_single (sender target : list Z) (seq : Z) (clordid symbol : list Z)
    (side : FixSide) (qty : Z) (type : OrdType) (price : Double) : list Z :=
  let m := set_str [] tag_SenderCompID sender in
  let m := set_str m tag_TargetCompID target in
  let m := set_int m tag_MsgSeqNum seq in
  let m := set_str m tag_ClOrdID clordid in
  let m := set_str m tag_Symbol symbol in
  let m := set_char m tag_Side (fix_side_char side) in
  let m := set_int m tag_OrderQty qty in
  let m := set_char m tag_OrdType (ord_type_char type) in
  let m := match type with Limit => set_str m tag_Price (price_str price) | Market => m end in
  encode (lit "FIX.4.4") (lit "D") m.

Definition execution_report (sender target : list Z) (seq : Z) (orderid clordid symbol : list Z)
    (side : FixSide) (et : ExecType) (os : OrdStatus) (cumqty leavesqty : Z) (avgpx : Double) :
    list Z :=
  let m := set_str [] tag_SenderCompID sender in
  let m := set_str m tag_TargetCompID target in
  let m := set_int m tag_MsgSeqNum seq in
  let m := set_str m tag_OrderID orderid in
  let m := set_str m tag_ClOrdID clordid in
  let m := set_str m tag_Symbol symbol in
  let m := set_char m tag_Side (fix_side_char side) in
  let m := set_char m tag_ExecType (exec_type_char et) in
  let m := set_char m tag_OrdStatus (ord_status_char os) in
  let m := set_int m tag_CumQty cumqty in
  let m := set_int m tag_LeavesQty leavesqty in
  let m := set_str m tag_AvgPx (price_str avgpx) in
  encode (lit "FIX.4.4") (lit "8") m.

End Builders.

(** * Facts *)

(** What can be sent as a field: the value holds no delimiter, the tag is an [int]. *)

Definition field_ok (f : Z * list Z) : Prop := (SOH ∉ (f.2)) ∧ int_range f.1.

Definition texts (fs : FixMessage) : list Z := mjoin (field_text <$> fs).

(** All fields of an encoded message. *)

Definition all_fields (begin_string msg_type : list Z) (body : FixMessage) : FixMessage :=
  let b := encode_body msg_type body in
  let fs := [(8, begin_string); (9, to_string (zlen b)); (35, msg_type)] ++ body in
  fs ++ [(10, three_digits (checksum (texts fs)))].

Lemma texts_app fs gs : texts (fs ++ gs) = texts fs ++ texts gs.
Proof. unfold texts. by rewrite fmap_app, join_app. Qed.

Lemma encode_body_texts mt body : encode_body mt body = texts ((35, mt) :: body).
Proof.
  unfold encode_body. change (lit "35=" ++ mt ++ [SOH]) with (field_text (35, mt)).
  change (texts ((35, mt) :: body)) with (field_text (35, mt) ++ texts body).
  generalize (field_text (35, mt)). intros b. revert b.
  induction body as [|f body IH]; intros b; simpl; [by rewrite app_nil_r|].
  rewrite IH. change (texts (f :: body)) with (field_text f ++ texts body). by rewrite app_assoc.
Qed.

Lemma encode_texts bs mt body : encode bs mt body = texts (all_fields bs mt body).
Proof.
  unfold encode, all_fields. cbv zeta. rewrite texts_app.
  set (b := encode_body mt body). set (n := to_string (zlen b)).
  assert (E : (lit "8=" ++ bs ++ [SOH] ++ lit "9=" ++ n ++ [SOH]) ++ b = texts ([(8, bs); (9, n); (35, mt)] ++ body)).
  { unfold b. rewrite encode_body_texts.
    change (texts ([(8, bs); (9, n); (35, mt)] ++ body)) with
      (field_text (8, bs) ++ field_text (9, n) ++ texts ((35, mt) :: body)).
    unfold field_text at 1 2. cbn [fst snd]. rewrite <- !app_assoc. done. }
  rewrite E. f_equal.
Qed.

Lemma no_delim n c : is_digit c = false → c ≠ 45 → c ∉ to_string n.
Proof. intros Hd Hc Hin. destruct (to_string_chars n c Hin); congruence. Qed.

Lemma parse_field fuel pre f rest acc :
  field_ok f →
  parse_loop (S fuel) (pre ++ field_text f ++ rest) (zlen pre) acc =
    parse_loop fuel (pre ++ field_text f ++ rest) (zlen (pre ++ field_text f)) (acc ++ [f]).
Proof.
  intros [Hv Ht]. destruct f as [t v]. simpl in Hv, Ht. unfold field_text. cbn [fst snd].
  set (name := to_string t). change (lit "=") with [61].
  set (s := pre ++ (name ++ [61] ++ v ++ [SOH]) ++ rest).
  assert (E1 : s = pre ++ name ++ 61 :: (v ++ SOH :: rest)).
  { unfold s. rewrite <- !app_assoc. done. }
  assert (E2 : s = (pre ++ name ++ [61]) ++ v ++ SOH :: rest).
  { rewrite E1, <- !app_assoc. done. }
  assert (Hz : zlen (pre ++ name ++ [61]) = zlen pre + zlen name + 1) by (rewrite !zlen_app; change (zlen [61]) with 1; lia).
  assert (Hz2 : zlen (pre ++ name ++ [61] ++ v ++ [SOH]) = zlen pre + zlen name + 1 + zlen v + 1).
  { rewrite !zlen_app. change (zlen [61]) with 1. change (zlen [SOH]) with 1. lia. }
  cbn [parse_loop]. rewrite Hz2.
  assert (Hlt : (zlen pre <? zlen s) = true).
  { apply Z.ltb_lt. rewrite E1, !zlen_app, zlen_cons. pose proof (zlen_nonneg name).
    pose proof (zlen_nonneg (v ++ SOH :: rest)). lia. }
  rewrite Hlt. rewrite E1 at 1. rewrite find_app by (by apply no_delim).
  rewrite E2 at 1. rewrite <- Hz, find_app by done. rewrite Hz.
  replace (zlen pre + zlen name - zlen pre) with (zlen name) by lia.
  rewrite E1 at 1. rewrite substr_app. cbn [mbind option_bind]. 
  assert (Ha : atoi name = Some t) by (by apply atoi_to_string). rewrite Ha.
  cbn [mbind option_bind].
  replace (zlen pre + zlen name + 1 + zlen v - (zlen pre + zlen name) - 1) with (zlen v) by lia.
  rewrite E2 at 1. rewrite <- Hz, substr_app. cbn [mbind option_bind]. by rewrite Hz.
Qed.

Lemma parse_texts fs : ∀ fuel pre acc,
  Forall field_ok fs → (length fs < fuel)%nat →
  parse_loop fuel (pre ++ texts fs) (zlen pre) acc = Some (acc ++ fs).
Proof.
  induction fs as [|f fs IH]; intros fuel pre acc Hf Hl; (destruct fuel as [|fuel]; [simpl in Hl; lia|]).
  - unfold texts. simpl. rewrite !app_nil_r. destruct (Z.ltb_spec (zlen pre) (zlen pre)); [lia|done].
  - apply Forall_cons in Hf as [Hf Hfs]. change (texts (f :: fs)) with (field_text f ++ texts fs).
    rewrite parse_field by done. rewrite app_assoc, IH by (done || simpl in Hl; lia).
    by rewrite <- app_assoc.
Qed.

Lemma texts_length fs : (length fs ≤ length (texts fs))%nat.
Proof.
  induction fs as [|f fs IH]; [simpl; lia|]. change (texts (f :: fs)) with (field_text f ++ texts fs).
  unfold field_text. rewrite !length_app. simpl. lia.
Qed.

(** The checksum is the sum of the bytes modulo 256, the 32-bit wrap notwithstanding. *)

Definition byte_sum (s : list Z) : Z := foldr Z.add 0 s.

Lemma checksum_sum s : checksum s = byte_sum s `mod` 256.
Proof.
  unfold checksum.
  assert (H : ∀ a, foldl (λ sum c, u32 (sum + c)) a s `mod` 256 = (a + byte_sum s) `mod` 256).
  { induction s as [|c s IH]; intros a; simpl; [by rewrite Z.add_0_r|]. rewrite IH. unfold u32, wrap.
    rewrite <- Zplus_mod_idemp_l, (Z.mod_mod_divide (a + c) (2 ^ 32) 256) by (by exists (2 ^ 24)).
    rewrite Zplus_mod_idemp_l. f_equal. unfold byte_sum. lia. }
  apply H.
Qed.

Lemma byte_sum_app a b : byte_sum (a ++ b) = byte_sum a + byte_sum b.
Proof. induction a as [|x a IH]; simpl; [done|]. rewrite IH. lia. Qed.

Lemma checksum_range s : 0 ≤ checksum s < 256.
Proof. rewrite checksum_sum. apply Z.mod_pos_bound. lia. Qed.

Lemma atoi_three_digits c : 0 ≤ c < 256 → atoi (three_digits c) = Some c.
Proof.
  intros Hc. assert (H : Forall (λ c, atoi (three_digits c) = Some c) (seqZ 0 256))
    by (apply (bool_decide_unpack _); vm_compute; exact I).
  rewrite Forall_forall in H. apply H, elem_of_seqZ. lia.
Qed.

Lemma three_digits_ok c x : 0 ≤ c < 256 → x ∈ three_digits c → 48 ≤ x ≤ 57.
Proof.
  intros Hc Hx. unfold three_digits in Hx. pose proof (Z.mod_pos_bound (c / 10) 10). pose proof (Z.mod_pos_bound c 10).
  assert (0 ≤ c / 100 < 10) by (split; [apply Z.div_pos; lia|apply Z.div_lt_upper_bound; lia]).
  set_unfold. lia.
Qed.

(** The trailer, behind the text [m], whatever [m] holds. *)

Definition trailer (c : Z) : list Z := SOH :: lit "10=" ++ three_digits c ++ [SOH].

Lemma rfind_trailer m c :
  0 ≤ c < 256 → rfind (SOH :: lit "10=") (m ++ trailer c) = Some (zlen m).
Proof.
  intros Hc. unfold rfind, zlen. apply rfind_loop_at.
  - rewrite length_app. lia.
  - by rewrite drop_app_length.
  - intros j Hj. rewrite drop_app_ge by lia. remember (j - length m)%nat as i eqn:Ei.
    assert (Hi : (1 ≤ i)%nat) by lia.
    assert (Hd : ∀ x, x ∈ three_digits c → x ≠ SOH) by (intros x Hx; pose proof (three_digits_ok c x Hc Hx); unfold SOH; lia).
    unfold trailer, three_digits in *. unfold SOH in *. simpl in *.
    destruct i as [|[|[|[|[|[|[|[|i]]]]]]]]; [lia|..]; simpl; rewrite ?drop_nil; try done; intros E;
      apply (f_equal head) in E; simpl in E; injection E as E; (eapply Hd; [|exact E]); set_solver.
Qed.

Lemma valid_trailer m c :
  0 ≤ c < 256 → valid_checksum (m ++ trailer c) = Some (c =? checksum (m ++ [SOH])).
Proof.
  intros Hc. unfold valid_checksum. rewrite rfind_trailer by done.
  assert (E : m ++ trailer c = (m ++ SOH :: lit "10=") ++ three_digits c ++ [SOH])
    by (unfold trailer; by rewrite <- app_assoc).
  assert (Hs : substr (m ++ trailer c) (zlen m + 1 + 3) 3 = Some (three_digits c)).
  { rewrite E. replace (zlen m + 1 + 3) with (zlen (m ++ SOH :: lit "10="));
      [exact (substr_app _ (three_digits c) [SOH])|]. rewrite zlen_app. change (zlen (SOH :: lit "10=")) with 4. lia. }
  rewrite Hs. cbn [mbind option_bind]. rewrite atoi_three_digits by done. cbn [mbind option_bind].
  do 3 f_equal. unfold trailer. rewrite cons_middle, app_assoc.
  replace (Z.to_nat (zlen m + 1)) with (length (m ++ [SOH])); [by rewrite take_app_length|].
  rewrite length_app. unfold zlen. simpl. lia.
Qed.

(** An encoded message is a text and its trailer. *)
Lemma encode_trailer bs mt body :
  ∃ m, encode bs mt body = m ++ trailer (checksum (m ++ [SOH])) ∧
       m ++ [SOH] = texts ([(8, bs); (9, to_string (zlen (encode_body mt body))); (35, mt)] ++ body).
Proof.
  rewrite encode_texts. unfold all_fields. cbv zeta.
  set (fs := [(8, bs); (9, to_string (zlen (encode_body mt body))); (35, mt)] ++ body).
  assert (Hm : ∃ m, texts fs = m ++ [SOH]).
  { destruct fs as [|f gs _] eqn:Ef using rev_ind; [done|]. rewrite texts_app. unfold texts at 2. simpl.
    rewrite app_nil_r. unfold field_text. rewrite !app_assoc. eauto. }
  destruct Hm as [m Hm]. exists m. rewrite texts_app, Hm. split; [|done].
  unfold trailer, texts. simpl. rewrite <- app_assoc. done.
Qed.

(** Changing one byte changes the sum. *)
Lemma byte_sum_insert s j c c' :
  s !! j = Some c → byte_sum (<[j := c']> s) = byte_sum s + c' - c.
Proof.
  revert j. induction s as [|x s IH]; intros [|j] E; simpl in *; [done|done|injection E as ->; lia|].
  rewrite (IH j E). lia.
Qed.

Lemma all_fields_ok bs mt body :
  SOH ∉ bs → SOH ∉ mt → Forall field_ok body → Forall field_ok (all_fields bs mt body).
Proof.
  intros Hb Hm Hf. unfold all_fields, field_ok. cbv zeta.
  set (c := checksum _). assert (Hc : 0 ≤ c < 256) by apply checksum_range.
  apply Forall_app. split; [repeat constructor; simpl; try done; try (by apply no_delim)|].
  constructor; [|constructor]. simpl. split; [|done].
  intros Hx. pose proof (three_digits_ok c SOH Hc Hx) as H. unfold SOH in H. lia.
Qed.

(** Parsing an encoded message. *)
Lemma parse_encode bs mt body :
  SOH ∉ bs → SOH ∉ mt → Forall field_ok body →
  parse (encode bs mt body) = Some (true, all_fields bs mt body).
Proof.
  intros Hb Hm Hf. rewrite encode_texts. unfold parse.
  assert (Hne : all_fields bs mt body ≠ []) by (unfold all_fields; by destruct body).
  pose proof (all_fields_ok bs mt body Hb Hm Hf) as Hok. revert Hok Hne. generalize (all_fields bs mt body).
  intros fs Hok Hne. pose proof (texts_length fs).
  assert (E : parse_loop (S (length (texts fs))) (texts fs) 0 [] = Some fs)
    by (apply (parse_texts fs _ [] []); [done|lia]).
  rewrite E. cbn [mbind option_bind]. by rewrite bool_decide_false.
Qed.

Lemma valid_encode bs mt body : valid_checksum (encode bs mt body) = Some true.
Proof.
  destruct (encode_trailer bs mt body) as (m & -> & _). rewrite valid_trailer by apply checksum_range. by rewrite Z.eqb_refl.
Qed.

(** * Properties *)

(** C38: FIX messages survive the wire.  For strings without the delimiter and [int] tags
    (values may contain [=]), parsing an encoded message succeeds and gives back every field
    in order, framed by BeginString, the BodyLength that counts the bytes between its own
    field and the trailer, MsgType and CheckSum. *)
Theorem fix_roundtrip begin_string msg_type body :
  SOH ∉ begin_string → SOH ∉ msg_type → Forall field_ok body →
  ∃ cs : list Z,
    parse (encode begin_string msg_type body) =
      Some (true, [(8, begin_string); (9, to_string (zlen (encode_body msg_type body))); (35, msg_type)] ++
                  body ++ [(10, cs)]) ∧
    encode begin_string msg_type body =
      texts [(8, begin_string); (9, to_string (zlen (encode_body msg_type body)))] ++
      encode_body msg_type body ++ field_text (10, cs).
Proof.
  intros Hb Hm Hf. eexists. rewrite parse_encode by done. unfold all_fields. cbv zeta.
  rewrite app_assoc. split; [done|]. rewrite encode_texts, encode_body_texts. unfold all_fields. cbv zeta.
  rewrite texts_app, encode_body_texts. cbn [app]. rewrite app_assoc. f_equal.
  change ((8, begin_string) :: (9, to_string (zlen (texts ((35, msg_type) :: body)))) :: (35, msg_type) :: body)
    with ([(8, begin_string); (9, to_string (zlen (texts ((35, msg_type) :: body))))] ++ (35, msg_type) :: body).
  by rewrite texts_app.
Qed.

Lemma fix_roundtrip_witness :
  ∃ cs : list Z,
    parse (encode (lit "FIX.4.4") (lit "D") [(55, lit "AAPL"); (58, lit "a=b")]) =
      Some (true, [(8, lit "FIX.4.4"); (9, lit "20"); (35, lit "D")] ++
                  [(55, lit "AAPL"); (58, lit "a=b")] ++ [(10, cs)]).
Proof.
  destruct (fix_roundtrip (lit "FIX.4.4") (lit "D") [(55, lit "AAPL"); (58, lit "a=b")]) as (cs & E & _).
  - apply (bool_decide_unpack _). vm_compute. exact I.
  - apply (bool_decide_unpack _). vm_compute. exact I.
  - repeat constructor; apply (bool_decide_unpack _); vm_compute; exact I.
  - exists cs. exact E.
Defined.

(** The checksum is right and it detects damage: an encoded message always validates, and
    after changing any one byte in front of the trailer it does not. *)
Theorem fix_checksum_detects begin_string msg_type body :
  let s := encode begin_string msg_type body in
  valid_checksum s = Some true ∧
  ∀ j c c', 0 ≤ j < zlen s - 8 → s !! Z.to_nat j = Some c → byte_ok c → byte_ok c' → c ≠ c' →
    valid_checksum (<[Z.to_nat j := c']> s) = Some false.
Proof.
  cbv zeta. split; [apply valid_encode|]. destruct (encode_trailer begin_string msg_type body) as (m & -> & _).
  pose proof (checksum_range (m ++ [SOH])) as Hr.
  intros j c c' Hj Hc Hb Hb' Hne. rewrite zlen_app in Hj. change (zlen (trailer (checksum (m ++ [SOH])))) with 8 in Hj.
  assert (Hlt : (Z.to_nat j < length m)%nat) by (unfold zlen in Hj; lia).
  rewrite lookup_app_l in Hc by done. rewrite insert_app_l by done. rewrite valid_trailer by done. f_equal.
  apply Z.eqb_neq. rewrite !checksum_sum, !byte_sum_app, (byte_sum_insert _ _ c) by done.
  unfold byte_ok in *. intros E. set (x := byte_sum m + byte_sum [SOH]) in E.
  replace (byte_sum m + c' - c + byte_sum [SOH]) with (x + (c' - c)) in E by (unfold x; lia).
  pose proof (Z.div_mod x 256) as D1. pose proof (Z.div_mod (x + (c' - c)) 256) as D2. lia.
Qed.

(** Damaging the symbol of an order. *)
Lemma fix_checksum_detects_witness :
  valid_checksum (<[20%nat := 66]> (encode (lit "FIX.4.4") (lit "D") [(55, lit "AAPL")])) = Some false.
Proof.
  apply (proj2 (fix_checksum_detects (lit "FIX.4.4") (lit "D") [(55, lit "AAPL")]) 20 53 66);
    [split; [lia|vm_compute; reflexivity]|vm_compute; reflexivity|split; lia|split; lia|lia].
Defined.

(** A new order can be read back by the venue: for identifiers without the delimiter, the
    parsed message has the sender, target, order id and symbol sent, the side and order type
    characters, the quantity as a decimal, and a price exactly when the order is a limit
    order. *)
Theorem new_order_readable {Double} (price_str : Double → list Z) sender target seq clordid symbol
    side qty type price :
  (∀ x, SOH ∉ price_str x) → Forall (λ s, SOH ∉ s) [sender; target; clordid; symbol] →
  ∃ m, parse (new_order_single price_str sender target seq clordid symbol side qty type price) = Some (true, m) ∧
    get m tag_BeginString = Some (lit "FIX.4.4") ∧ get m tag_MsgType = Some (lit "D") ∧
    get m tag_SenderCompID = Some sender ∧ get m tag_TargetCompID = Some target ∧ get m tag_MsgSeqNum = Some (to_string seq) ∧
    get m tag_ClOrdID = Some clordid ∧ get m tag_Symbol = Some symbol ∧ get m tag_Side = Some [fix_side_char side] ∧
    get m tag_OrderQty = Some (to_string qty) ∧ get m tag_OrdType = Some [ord_type_char type] ∧
    get m tag_Price = match type with Limit => Some (price_str price) | Market => None end.
Proof.
  intros Hp Hs. repeat (apply Forall_cons in Hs as [? Hs]). eexists. unfold new_order_single.
  split.
  - apply parse_encode; [by apply (bool_decide_unpack _)|by apply (bool_decide_unpack _)|].
    assert (Hi : ∀ n, SOH ∉ to_string n) by (intros; by apply no_delim).
    assert (Hc : (SOH ∉ [fix_side_char side]) ∧ (SOH ∉ [ord_type_char type]))
      by (split; [destruct side|destruct type]; by apply (bool_decide_unpack _)).
    destruct Hc. unfold set_str, set_int, set_char.
    destruct type; repeat (apply Forall_app; split); repeat constructor; simpl; done || auto.
  - destruct type; cbn; split_and!; done.
Qed.

Lemma new_order_readable_witness :
  ∃ m, parse (new_order_single (λ px : Z, to_string px) (lit "DESK") (lit "VENUE") 7 (lit "A1") (lit "MSFT")
                FixSell 250 Limit 4000000) = Some (true, m) ∧
    get m tag_Symbol = Some (lit "MSFT") ∧ get m tag_OrderQty = Some (lit "250") ∧ get m tag_Price = Some (lit "4000000").
Proof.
  destruct (new_order_readable (λ px : Z, to_string px) (lit "DESK") (lit "VENUE") 7 (lit "A1") (lit "MSFT")
    FixSell 250 Limit 4000000) as (m & E & H).
  - intros x. by apply no_delim.
  - apply (bool_decide_unpack _). vm_compute. exact I.
  - exists m. split; [exact E|]. split_and!; apply H.
Defined.
