(* ===== verification/Sha1.v ===== *)
(** SHA-1 and base64 (include/core/sha1.hpp), and the WebSocket accept key that uses them
    (include/feed/websocket.hpp).  Array accesses are checked ([None] is an access outside),
    words are 32 bits wide. *)
From stdpp Require Import strings.
From S2P Require Export Text.

#[local] Open Scope list_scope.
#[local] Open Scope Z_scope.

(** * SHA-1 *)

(** [while (total % 64 != 56) ++total;] *)

Fixpoint pad_loop (fuel : nat) (total : Z) : option Z :=
  match fuel with
  | O => None
  | S fuel => if total `mod` 64 =? 56 then Some total else pad_loop fuel (u64 (total + 1))
  end.

(** Storing the bit length in the last 8 bytes, [i] from 0. *)

Fixpoint length_loop (n : nat) (i : Z) (ml total : Z) (msg : list Z) : option (list Z) :=
  match n with
  | O => Some msg
  | S n => msg ← msg.[total - 1 - i <- Z.land (Z.shiftr ml (8 * i)) 255];
           length_loop n (i + 1) ml total msg
  end.

Definition pad (data : list Z) : option (list Z) :=
  let len := zlen data in
  let ml := u64 (len * 8) in
  total ← pad_loop 64 (u64 (len + 1));
  let total := u64 (total + 8) in
  let msg := data ++ replicate (Z.to_nat (total - len)) 0 in
  msg ← msg.[len <- 128];
  length_loop 8 0 ml total msg.

Definition rol (x c : Z) : Z := u32 (Z.lor (u32 (Z.shiftl x c)) (Z.shiftr x (32 - c))).

(** The 16 words of a chunk. *)

Fixpoint load_loop (n : nat) (i : Z) (msg : list Z) (chunk : Z) (w : list Z) : option (list Z) :=
  match n with
  | O => Some w
  | S n =>
      let o := chunk + 4 * i in
      b0 ← msg.[o]; b1 ← msg.[o + 1]; b2 ← msg.[o + 2]; b3 ← msg.[o + 3];
      load_loop n (i + 1) msg chunk
        (w ++ [Z.lor (Z.lor (Z.lor (Z.shiftl b0 24) (Z.shiftl b1 16)) (Z.shiftl b2 8)) b3])
  end.

(** The other 64 words. *)

Fixpoint expand_loop (n : nat) (i : Z) (w : list Z) : option (list Z) :=
  match n with
  | O => Some w
  | S n =>
      w3 ← w.[i - 3]; w8 ← w.[i - 8]; w14 ← w.[i - 14]; w16 ← w.[i - 16];
      expand_loop n (i + 1) (w ++ [rol (Z.lxor (Z.lxor (Z.lxor w3 w8) w14) w16) 1])
  end.

Record words5 := mkWords { wa : Z; wb : Z; wc : Z; wd : Z; we : Z }.

(** [~b] of a 32-bit word. *)

Definition not32 (b : Z) : Z := 2 ^ 32 - 1 - b.

Definition round_f (i b c d : Z) : Z :=
  if i <? 20 then Z.lor (Z.land b c) (Z.land (not32 b) d)
  else if i <? 40 then Z.lxor (Z.lxor b c) d
  else if i <? 60 then Z.lor (Z.lor (Z.land b c) (Z.land b d)) (Z.land c d)
  else Z.lxor (Z.lxor b c) d.

Definition round_k (i : Z) : Z :=
  if i <? 20 then 0x5A827999 else if i <? 40 then 0x6ED9EBA1
  else if i <? 60 then 0x8F1BBCDC else 0xCA62C1D6.

Fixpoint rounds (n : nat) (i : Z) (w : list Z) (s : words5) : option words5 :=
  match n with
  | O => Some s
  | S n =>
      wi ← w.[i];
      let tmp := u32 (rol (wa s) 5 + round_f i (wb s) (wc s) (wd s) + we s + round_k i + wi) in
      rounds n (i + 1) w (mkWords tmp (wa s) (rol (wb s) 30) (wc s) (wd s))
  end.

Definition chunk_step (msg : list Z) (chunk : Z) (h : words5) : option words5 :=
  w ← load_loop 16 0 msg chunk [];
  w ← expand_loop 64 16 w;
  s ← rounds 80 0 w h;
  Some (mkWords (u32 (wa h + wa s)) (u32 (wb h + wb s)) (u32 (wc h + wc s)) (u32 (wd h + wd s))
          (u32 (we h + we s))).

Fixpoint chunks_loop (fuel : nat) (msg : list Z) (chunk : Z) (h : words5) : option words5 :=
  match fuel with
  | O => None
  | S fuel =>
      if chunk <? zlen msg then h ← chunk_step msg chunk h; chunks_loop fuel msg (chunk + 64) h
      else Some h
  end.

Definition word_bytes (h : Z) : list Z :=
  [Z.land (Z.shiftr h 24) 255; Z.land (Z.shiftr h 16) 255; Z.land (Z.shiftr h 8) 255; Z.land h 255].

Definition sha1_init : words5 := mkWords 0x67452301 0xEFCDAB89 0x98BADCFE 0x10325476 0xC3D2E1F0.

Definition sha1 (data : list Z) : option (list Z) :=
  msg ← pad data;
  h ← chunks_loop (S (length msg)) msg 0 sha1_init;
  Some (word_bytes (wa h) ++ word_bytes (wb h) ++ word_bytes (wc h) ++ word_bytes (wd h) ++
        word_bytes (we h)).

(** * base64 *)

Definition T : list Z := lit "ABCDEFGHIJKLMNOPQRSTUVWXYZabcdefghijklmnopqrstuvwxyz0123456789+/".

Definition sextet (n k : Z) : option Z := T.[Z.land (Z.shiftr n k) 63].

Fixpoint base64_loop (fuel : nat) (data : list Z) (i : Z) (out : list Z) : option (Z * list Z) :=
  match fuel with
  | O => None
  | S fuel =>
      if i + 3 <=? zlen data then
        b0 ← data.[i]; b1 ← data.[i + 1]; b2 ← data.[i + 2];
        let n := Z.lor (Z.lor (Z.shiftl b0 16) (Z.shiftl b1 8)) b2 in
        c0 ← sextet n 18; c1 ← sextet n 12; c2 ← sextet n 6; c3 ← T.[Z.land n 63];
        base64_loop fuel data (i + 3) (out ++ [c0; c1; c2; c3])
      else Some (i, out)
  end.

Definition base64 (data : list Z) : option (list Z) :=
  r ← base64_loop (S (length data)) data 0 [];
  let '(i, out) := r in
  let rem := zlen data - i in
  if rem =? 1 then
    b0 ← data.[i];
    let n := Z.shiftl b0 16 in
    c0 ← sextet n 18; c1 ← sextet n 12;
    Some (out ++ [c0; c1; 61; 61])
  else if rem =? 2 then
    b0 ← data.[i]; b1 ← data.[i + 1];
    let n := Z.lor (Z.shiftl b0 16) (Z.shiftl b1 8) in
    c0 ← sextet n 18; c1 ← sextet n 12; c2 ← sextet n 6;
    Some (out ++ [c0; c1; c2; 61])
  else Some out.

(** [Sec-WebSocket-Accept]. *)

Definition kGuid : list Z := lit "258EAFA5-E914-47DA-95CA-C5AB0DC85B11".

Definition accept_key (client_key : list Z) : option (list Z) :=
  d ← sha1 (client_key ++ kGuid); base64 d.

(** * The padding *)

(** Byte [i] of the bit length, counted from the end. *)

Definition length_byte (ml i : Z) : Z := Z.land (Z.shiftr ml (8 * i)) 255.

(** Bytes [i + n - 1], ..., [i]. *)

Fixpoint length_bytes (n : nat) (i ml : Z) : list Z :=
  match n with
  | O => []
  | S n => length_byte ml (i + Z.of_nat n) :: length_bytes n i ml
  end.

Lemma pad_loop_spec fuel total :
  0 ≤ total → total + Z.of_nat fuel < 2 ^ 64 → (56 - total) `mod` 64 < Z.of_nat fuel →
  ∃ z, pad_loop fuel total = Some (total + z) ∧ 0 ≤ z < 64 ∧ (total + z) `mod` 64 = 56.
Proof.
  revert total. induction fuel as [|fuel IH]; intros total H0 Hlt Hf.
  { pose proof (Z.mod_pos_bound (56 - total) 64). lia. }
  cbn [pad_loop]. destruct (Z.eqb_spec (total `mod` 64) 56) as [E|Hne].
  - exists 0. rewrite Z.add_0_r. split_and!; [done|lia|lia|done].
  - rewrite u64_small by lia.
    assert (Hm : (56 - (total + 1)) `mod` 64 = (56 - total) `mod` 64 - 1).
    { pose proof (Z.div_mod total 64). pose proof (Z.mod_pos_bound total 64).
      pose proof (Z.div_mod (56 - total) 64). pose proof (Z.mod_pos_bound (56 - total) 64).
      pose proof (Z.div_mod (56 - (total + 1)) 64). pose proof (Z.mod_pos_bound (56 - (total + 1)) 64). lia. }
    destruct (IH (total + 1)) as (z & -> & Hz & Ez); [lia|lia|lia|].
    exists (z + 1). replace (total + (z + 1)) with (total + 1 + z) by lia. split_and!; [done|lia| |done].
    destruct (decide (z = 63)) as [->|]; [|lia]. exfalso. replace (total + 1 + 63) with (total + 1 * 64) in Ez by lia.
    rewrite Z.mod_add in Ez by lia. done.
Qed.

Lemma vset_app {A} (a b : list A) x y : (a ++ x :: b).[zlen a <- y] = Some (a ++ y :: b).
Proof.
  unfold vset. rewrite decide_True by (rewrite length_app; unfold zlen; simpl; lia).
  f_equal. unfold zlen. rewrite Nat2Z.id, insert_app_r_alt by lia. by rewrite Nat.sub_diag.
Qed.

Lemma length_bytes_snoc n i ml :
  length_bytes (S n) i ml = length_bytes n (i + 1) ml ++ [length_byte ml i].
Proof.
  induction n as [|n IH]; [simpl; by rewrite Z.add_0_r|]. cbn [length_bytes] in *.
  rewrite IH. cbn [app]. do 2 f_equal. lia.
Qed.

Lemma length_loop_spec n i ml a suf :
  zlen suf = i →
  length_loop n i ml (zlen (a ++ replicate n 0 ++ suf)) (a ++ replicate n 0 ++ suf) =
    Some (a ++ length_bytes n i ml ++ suf).
Proof.
  revert i suf. induction n as [|n IH]; intros i suf Hs; [done|].
  rewrite replicate_S_end, <- (app_assoc (replicate n 0)), !app_assoc, <- (app_assoc _ [0]). cbn [length_loop app].
  set (pre := a ++ replicate n 0). assert (Hz : zlen (pre ++ 0 :: suf) - 1 - i = zlen pre) by (rewrite zlen_app, zlen_cons; lia).
  rewrite Hz, vset_app. cbn [mbind option_bind].
  assert (E : zlen (pre ++ 0 :: suf) = zlen (a ++ replicate n 0 ++ length_byte ml i :: suf)).
  { unfold pre. rewrite !zlen_app, !zlen_cons. lia. }
  rewrite E. unfold pre. rewrite <- app_assoc. fold (length_byte ml i). rewrite IH by (rewrite zlen_cons; lia).
  rewrite length_bytes_snoc, <- !app_assoc. done.
Qed.

(** The padded message: the data, a one bit, zeros, and the length in bits. *)
Lemma pad_spec data :
  zlen data < 2 ^ 60 →
  ∃ k : nat, pad data = Some (data ++ [128] ++ replicate k 0 ++ length_bytes 8 0 (zlen data * 8)) ∧
    (zlen data + 1 + Z.of_nat k + 8) `mod` 64 = 0 ∧ (k < 64)%nat.
Proof.
  intros Hl. pose proof (zlen_nonneg data). unfold pad. rewrite !u64_small by lia.
  destruct (pad_loop_spec 64 (zlen data + 1)) as (z & -> & Hz & Ez);
    [lia|lia|pose proof (Z.mod_pos_bound (56 - (zlen data + 1)) 64); lia|].
  cbn [mbind option_bind]. rewrite u64_small by lia. exists (Z.to_nat z). split_and!; [| |lia].
  - replace (Z.to_nat (zlen data + 1 + z + 8 - zlen data)) with (S (Z.to_nat z + 8)) by lia.
    cbn [replicate]. rewrite vset_app. cbn [mbind option_bind].
    assert (Hlen : zlen data + 1 + z + 8 = zlen ((data ++ 128 :: replicate (Z.to_nat z) 0) ++ replicate 8 0 ++ [])).
    { rewrite !zlen_app, zlen_cons. unfold zlen. rewrite !length_replicate. simpl. lia. }
    rewrite Hlen. rewrite replicate_add.
    assert (E : data ++ 128 :: replicate (Z.to_nat z) 0 ++ replicate 8 0 =
      (data ++ 128 :: replicate (Z.to_nat z) 0) ++ replicate 8 0 ++ [])
      by (rewrite app_nil_r, <- app_assoc; done).
    rewrite E, length_loop_spec by done. rewrite app_nil_r, <- app_assoc. done.
  - rewrite Z2Nat.id by lia.
    replace (zlen data + 1 + z + 8) with (zlen data + 1 + z + 8) by lia.
    rewrite Z.add_mod, Ez by lia. done.
Qed.

(** * The loops stay inside their arrays *)

Lemma load_loop_total n i msg chunk w :
  0 ≤ chunk → 0 ≤ i → chunk + 4 * (i + Z.of_nat n) ≤ zlen msg →
  ∃ w', load_loop n i msg chunk w = Some w' ∧ zlen w' = zlen w + Z.of_nat n.
Proof.
  revert i w. induction n as [|n IH]; intros i w Hc Hi Hl; [exists w; split; [done|lia]|]. cbn [load_loop].
  destruct (vget_is_Some msg (chunk + 4 * i)) as [b0 ->]; [lia|].
  destruct (vget_is_Some msg (chunk + 4 * i + 1)) as [b1 ->]; [lia|].
  destruct (vget_is_Some msg (chunk + 4 * i + 2)) as [b2 ->]; [lia|].
  destruct (vget_is_Some msg (chunk + 4 * i + 3)) as [b3 ->]; [lia|]. cbn [mbind option_bind].
  edestruct (IH (i + 1)) as (w' & E & Hw); [lia|lia|lia|]. rewrite E. exists w'. split; [done|].
  rewrite Hw, zlen_app. change (zlen [_]) with 1. lia.
Qed.

Lemma expand_loop_total n i w :
  16 ≤ i → zlen w = i → ∃ w', expand_loop n i w = Some w' ∧ zlen w' = i + Z.of_nat n.
Proof.
  revert i w. induction n as [|n IH]; intros i w Hi Hw; [exists w; split; [done|lia]|]. cbn [expand_loop].
  destruct (vget_is_Some w (i - 3)) as [w3 ->]; [lia|]. destruct (vget_is_Some w (i - 8)) as [w8 ->]; [lia|].
  destruct (vget_is_Some w (i - 14)) as [w14 ->]; [lia|]. destruct (vget_is_Some w (i - 16)) as [w16 ->]; [lia|].
  cbn [mbind option_bind]. edestruct (IH (i + 1)) as (w' & E & Hw'); [lia| |rewrite E; exists w'; split; [done|lia]].
  rewrite zlen_app. change (zlen [_]) with 1. lia.
Qed.

Lemma rounds_total n i w s : 0 ≤ i → i + Z.of_nat n ≤ zlen w → is_Some (rounds n i w s).
Proof.
  revert i s. induction n as [|n IH]; intros i s Hi Hl; [done|]. cbn [rounds].
  destruct (vget_is_Some w i) as [x ->]; [lia|]. cbn [mbind option_bind]. apply IH; lia.
Qed.

Lemma bind_total {A B} (m : option A) (f : A → option B) x :
  m = Some x → is_Some (f x) → is_Some (m ≫= f).
Proof. by intros ->. Qed.

Lemma chunk_step_total msg chunk h : 0 ≤ chunk → chunk + 64 ≤ zlen msg → is_Some (chunk_step msg chunk h).
Proof.
  intros Hc Hl. destruct (load_loop_total 16 0 msg chunk []) as (w & Ew & Hw); [lia..|].
  destruct (expand_loop_total 64 16 w) as (w' & Ew' & Hw'); [lia|rewrite Hw; reflexivity|].
  destruct (rounds_total 80 0 w' h) as [s Es]; [lia|lia|].
  unfold chunk_step. eapply bind_total; [exact Ew|]. eapply bind_total; [exact Ew'|].
  eapply bind_total; [exact Es|]. by eexists.
Qed.

Lemma chunks_loop_total fuel msg chunk h :
  0 ≤ chunk ≤ zlen msg → chunk `mod` 64 = 0 → zlen msg `mod` 64 = 0 → zlen msg - chunk < 64 * Z.of_nat fuel →
  is_Some (chunks_loop fuel msg chunk h).
Proof.
  revert chunk h. induction fuel as [|fuel IH]; intros chunk h Hc Em El Hf; [lia|].
  cbn [chunks_loop]. destruct (Z.ltb_spec chunk (zlen msg)) as [Hlt|]; [|done].
  assert (Hle : chunk + 64 ≤ zlen msg).
  { pose proof (Z.div_mod chunk 64). pose proof (Z.div_mod (zlen msg) 64). lia. }
  destruct (chunk_step_total msg chunk h) as [h' ->]; [lia|lia|]. cbn [mbind option_bind].
  apply IH; [lia| |done|lia]. replace (chunk + 64) with (chunk + 1 * 64) by lia. by rewrite Z.mod_add.
Qed.

(** * base64 decoding, the reference *)

(** RFC 4648: four characters give up to three bytes; [=] pads the last group. *)

Fixpoint decode64 (s : list Z) : option (list Z) :=
  match s with
  | [] => Some []
  | c0 :: c1 :: c2 :: c3 :: s =>
      v0 ← index_of c0 T; v1 ← index_of c1 T;
      if c2 =? 61 then
        if (c3 =? 61) && bool_decide (s = []) then Some [v0 * 4 + v1 / 16] else None
      else
        v2 ← index_of c2 T;
        if c3 =? 61 then
          if bool_decide (s = []) then Some [v0 * 4 + v1 / 16; v1 `mod` 16 * 16 + v2 / 4] else None
        else
          v3 ← index_of c3 T;
          r ← decode64 s;
          Some (v0 * 4 + v1 / 16 :: v1 `mod` 16 * 16 + v2 / 4 :: v2 `mod` 4 * 64 + v3 :: r)
  | _ => None
  end.

Lemma T_get v : 0 ≤ v < 64 → ∃ c, T.[v] = Some c ∧ index_of c T = Some v ∧ (c =? 61) = false.
Proof.
  intros Hv.
  assert (H : Forall (λ v, ∃ c, T.[v] = Some c ∧ index_of c T = Some v ∧ (c =? 61) = false) (seqZ 0 64)).
  { eapply Forall_impl with (P := λ v, match T.[v] with
      | Some c => index_of c T = Some v ∧ (c =? 61) = false | None => False end).
    - repeat (apply Forall_cons; split; [by split|]). constructor.
    - intros x Hx. destruct (T.[x]) as [c|]; [by exists c|done]. }
  rewrite Forall_forall in H. apply H, elem_of_seqZ. lia.
Qed.

(** The four 6-bit groups of three bytes. *)
Lemma sextets b0 b1 b2 :
  byte_ok b0 → byte_ok b1 → byte_ok b2 →
  let n := Z.lor (Z.lor (Z.shiftl b0 16) (Z.shiftl b1 8)) b2 in
  Z.land (Z.shiftr n 18) 63 = b0 / 4 ∧ Z.land (Z.shiftr n 12) 63 = b0 `mod` 4 * 16 + b1 / 16 ∧
  Z.land (Z.shiftr n 6) 63 = b1 `mod` 16 * 4 + b2 / 64 ∧ Z.land n 63 = b2 `mod` 64.
Proof.
  intros H0 H1 H2. cbv zeta. set (n := Z.lor _ _).
  assert (Hn : n = b0 * 65536 + b1 * 256 + b2).
  { unfold n. replace (Z.shiftl b0 16) with (Z.shiftl (Z.shiftl b0 8) 8) by (by rewrite Z.shiftl_shiftl by lia).
    unfold byte_ok in *. rewrite <- Z.shiftl_lor, (lor_shift8 b0 b1), lor_shift8 by (unfold byte_ok; lia). lia. }
  change 63 with (Z.ones 6). rewrite !Z.land_ones, !Z.shiftr_div_pow2, Hn by lia.
  change (2 ^ 6) with 64. change (2 ^ 12) with 4096. change (2 ^ 18) with 262144. unfold byte_ok in *.
  split_and!; Z.to_euclidean_division_equations; lia.
Qed.

(** The loop, from the bytes behind [pre]. *)
Lemma base64_tail fuel pre rest out :
  bytes_ok rest → (length rest < fuel)%nat →
  ∃ trip tail s, rest = trip ++ tail ∧ (length tail < 3)%nat ∧
    base64_loop fuel (pre ++ rest) (zlen pre) out = Some (zlen pre + zlen trip, out ++ s) ∧
    zlen s * 3 = zlen trip * 4 ∧
    ∀ s' r, decode64 s' = Some r → decode64 (s ++ s') = Some (trip ++ r).
Proof.
  revert pre rest out. induction fuel as [|fuel IH]; intros pre rest out Hok Hf; [lia|]. cbn [base64_loop].
  rewrite zlen_app. destruct (Z.leb_spec (zlen pre + 3) (zlen pre + zlen rest)) as [Hl|Hl].
  2: { exists [], rest, []. unfold zlen in Hl. split_and!; [done|lia|by rewrite Z.add_0_r, app_nil_r|done|done]. }
  destruct rest as [|b0 [|b1 [|b2 rest]]]; [unfold zlen in Hl; simpl in Hl; lia..|].
  apply Forall_cons in Hok as [H0 [H1 [H2 Hok]%Forall_cons]%Forall_cons].
  assert (G : (pre ++ b0 :: b1 :: b2 :: rest).[zlen pre] = Some b0 ∧
    (pre ++ b0 :: b1 :: b2 :: rest).[zlen pre + 1] = Some b1 ∧ (pre ++ b0 :: b1 :: b2 :: rest).[zlen pre + 2] = Some b2).
  { rewrite <- (Z.add_0_r (zlen pre)) at 1. by rewrite !vget_app_r by lia. }
  destruct G as (-> & -> & ->). cbn [mbind option_bind].
  destruct (sextets b0 b1 b2 H0 H1 H2) as (S0 & S1 & S2 & S3). unfold sextet. rewrite S0, S1, S2, S3.
  unfold byte_ok in *.
  destruct (T_get (b0 / 4)) as (c0 & -> & I0 & N0); [Z.to_euclidean_division_equations; lia|].
  destruct (T_get (b0 `mod` 4 * 16 + b1 / 16)) as (c1 & -> & I1 & N1); [Z.to_euclidean_division_equations; lia|].
  destruct (T_get (b1 `mod` 16 * 4 + b2 / 64)) as (c2 & -> & I2 & N2); [Z.to_euclidean_division_equations; lia|].
  destruct (T_get (b2 `mod` 64)) as (c3 & -> & I3 & N3); [Z.to_euclidean_division_equations; lia|].
  cbn [mbind option_bind].
  destruct (IH (pre ++ [b0; b1; b2]) rest (out ++ [c0; c1; c2; c3])) as (trip & tail & s & -> & Ht & E & Hz & Hd);
    [done|simpl in Hf; lia|].
  exists (b0 :: b1 :: b2 :: trip), tail, ([c0; c1; c2; c3] ++ s). split_and!; [done|done| | |].
  - rewrite <- app_assoc in E. cbn [app] in E. rewrite zlen_app in E. change (zlen [b0; b1; b2]) with 3 in E.
    rewrite E, !zlen_cons, <- app_assoc. do 2 f_equal. lia.
  - rewrite zlen_app, !zlen_cons. change (zlen (@nil Z)) with 0. lia.
  - intros s' r Hr. cbn [app decode64]. rewrite I0, I1, N2, I2, N3, I3, (Hd s' r Hr). cbn [mbind option_bind].
    do 2 f_equal; [Z.to_euclidean_division_equations; lia|]. f_equal; [Z.to_euclidean_division_equations; lia|].
    f_equal. Z.to_euclidean_division_equations; lia.
Qed.

(** A last group of one or two bytes. *)
Lemma group_one b0 :
  byte_ok b0 → ∃ c0 c1, sextet (Z.shiftl b0 16) 18 = Some c0 ∧ sextet (Z.shiftl b0 16) 12 = Some c1 ∧
    decode64 [c0; c1; 61; 61] = Some [b0].
Proof.
  intros H0. destruct (sextets b0 0 0 H0) as (S0 & S1 & _); [done|done|]. rewrite Z.shiftl_0_l, !Z.lor_0_r in S0, S1.
  unfold sextet. rewrite S0, S1. unfold byte_ok in *.
  destruct (T_get (b0 / 4)) as (c0 & -> & I0 & _); [Z.to_euclidean_division_equations; lia|].
  destruct (T_get (b0 `mod` 4 * 16 + 0 / 16)) as (c1 & -> & I1 & _); [Z.to_euclidean_division_equations; lia|].
  exists c0, c1. split_and!; [done|done|]. cbn [decode64]. rewrite I0, I1. cbn. do 2 f_equal.
  Z.to_euclidean_division_equations; lia.
Qed.

Lemma group_two b0 b1 :
  byte_ok b0 → byte_ok b1 →
  let n := Z.lor (Z.shiftl b0 16) (Z.shiftl b1 8) in
  ∃ c0 c1 c2, sextet n 18 = Some c0 ∧ sextet n 12 = Some c1 ∧ sextet n 6 = Some c2 ∧
    decode64 [c0; c1; c2; 61] = Some [b0; b1].
Proof.
  intros H0 H1. cbv zeta. destruct (sextets b0 b1 0 H0 H1) as (S0 & S1 & S2 & _); [done|]. rewrite !Z.lor_0_r in S0, S1, S2.
  unfold sextet. rewrite S0, S1, S2. unfold byte_ok in *.
  destruct (T_get (b0 / 4)) as (c0 & -> & I0 & _); [Z.to_euclidean_division_equations; lia|].
  destruct (T_get (b0 `mod` 4 * 16 + b1 / 16)) as (c1 & -> & I1 & _); [Z.to_euclidean_division_equations; lia|].
  destruct (T_get (b1 `mod` 16 * 4 + 0 / 64)) as (c2 & -> & I2 & N2); [Z.to_euclidean_division_equations; lia|].
  exists c0, c1, c2. split_and!; [done|done|done|]. cbn [decode64]. rewrite I0, I1, N2, I2. cbn. do 2 f_equal.
  - Z.to_euclidean_division_equations; lia.
  - f_equal. Z.to_euclidean_division_equations; lia.
Qed.

(** * Properties *)

(** The encoder, its length and its decoder. *)
Lemma base64_spec data :
  bytes_ok data →
  ∃ s, base64 data = Some s ∧ zlen s = 4 * ((zlen data + 2) / 3) ∧ decode64 s = Some data.
Proof.
  intros Hok. destruct (base64_tail (S (length data)) [] data []) as (trip & tail & s & E & Ht & El & Hz & Hd);
    [done|lia|]. cbn [app] in El. change (zlen (@nil Z)) with 0 in El. rewrite Z.add_0_l in El.
  subst data. unfold base64. rewrite El. cbn [mbind option_bind]. cbv zeta.
  replace (zlen (trip ++ tail) - zlen trip) with (zlen tail) by (rewrite zlen_app; lia).
  assert (Htok : bytes_ok tail) by (by apply Forall_app in Hok as [_ ?]). rewrite zlen_app.
  assert (G : ∀ i, 0 ≤ i → (trip ++ tail).[zlen trip + i] = tail.[i]) by (intros; by apply vget_app_r).
  pose proof (G 0 ltac:(lia)) as G0. rewrite Z.add_0_r in G0. pose proof (G 1 ltac:(lia)) as G1.
  destruct tail as [|b0 [|b1 [|b2 tail]]]; [..|simpl in Ht; lia].
  - exists s. split_and!; [done| |].
    + change (zlen (@nil Z)) with 0. Z.to_euclidean_division_equations; lia.
    + rewrite <- (app_nil_r s). by apply Hd.
  - apply Forall_cons in Htok as [H0 _]. destruct (group_one b0 H0) as (c0 & c1 & E0 & E1 & D).
    change (zlen [b0]) with 1. cbn [Z.eqb Pos.eqb]. rewrite G0. change ([b0].[0]) with (Some b0).
    cbn [mbind option_bind]. rewrite E0, E1. eexists. split_and!; [done| |by apply Hd].
    rewrite zlen_app. change (zlen [c0; c1; 61; 61]) with 4. Z.to_euclidean_division_equations; lia.
  - apply Forall_cons in Htok as [H0 [H1 _]%Forall_cons].
    destruct (group_two b0 b1 H0 H1) as (c0 & c1 & c2 & E0 & E1 & E2 & D).
    change (zlen [b0; b1]) with 2. cbn [Z.eqb Pos.eqb]. rewrite G0, G1.
    change ([b0; b1].[0]) with (Some b0). change ([b0; b1].[1]) with (Some b1).
    cbn [mbind option_bind]. rewrite E0, E1, E2. eexists. split_and!; [done| |by apply Hd].
    rewrite zlen_app. change (zlen [c0; c1; c2; 61]) with 4. Z.to_euclidean_division_equations; lia.
Qed.

(** base64 is a faithful encoding: for every byte string the routine stays inside its
    arrays, its output has four characters for every started group of three bytes, and the
    decoder of RFC 4648 gives the bytes back. *)
Theorem base64_roundtrip data :
  bytes_ok data →
  ∃ s, base64 data = Some s ∧ zlen s = 4 * ((zlen data + 2) / 3) ∧ decode64 s = Some data.
Proof. apply base64_spec. Qed.

Lemma base64_roundtrip_witness :
  base64 (lit "hello") = Some (lit "aGVsbG8=") ∧
  ∃ s, base64 (lit "hello") = Some s ∧ zlen s = 4 * ((zlen (lit "hello") + 2) / 3) ∧
       decode64 s = Some (lit "hello").
Proof.
  split; [vm_compute; reflexivity|].
  apply (base64_roundtrip (lit "hello")). apply (bool_decide_unpack _). vm_compute. exact I.
Defined.

Lemma word_bytes_ok h : bytes_ok (word_bytes h) ∧ zlen (word_bytes h) = 4.
Proof.
  split; [|done]. unfold word_bytes. change 255 with (Z.ones 8).
  repeat constructor; rewrite Z.land_ones by lia; by apply Z.mod_pos_bound.
Qed.

(** Padding and digest. *)
Lemma sha1_spec data :
  zlen data < 2 ^ 60 →
  (∃ k : nat, pad data = Some (data ++ [128] ++ replicate k 0 ++ length_bytes 8 0 (zlen data * 8)) ∧
     (zlen data + 1 + Z.of_nat k + 8) `mod` 64 = 0 ∧ (k < 64)%nat) ∧
  ∃ d, sha1 data = Some d ∧ zlen d = 20 ∧ bytes_ok d.
Proof.
  intros Hl. destruct (pad_spec data Hl) as (k & Ep & Hm & Hk). split; [by exists k|].
  assert (Hz : zlen (data ++ [128] ++ replicate k 0 ++ length_bytes 8 0 (zlen data * 8)) =
               zlen data + 1 + Z.of_nat k + 8).
  { rewrite !zlen_app. unfold zlen at 3. rewrite length_replicate. change (zlen [128]) with 1.
    change (zlen (length_bytes 8 0 (zlen data * 8))) with 8. lia. }
  unfold sha1. rewrite Ep. cbn [mbind option_bind]. set (msg := data ++ _) in *.
  pose proof (zlen_nonneg msg).
  destruct (chunks_loop_total (S (length msg)) msg 0 sha1_init) as [h Eh].
  { lia. } { done. } { by rewrite Hz. } { unfold zlen. lia. }
  rewrite Eh. cbn [mbind option_bind]. eexists. split; [done|].
  pose proof word_bytes_ok as Hw. split.
  - rewrite !zlen_app. by rewrite !(proj2 (Hw _)).
  - repeat (apply Forall_app; split); apply Hw.
Qed.

(** The hash routine is total and pads as RFC 3174 asks: for every input of fewer than
    2^60 bytes the padded message is the input, a byte 0x80, fewer than 64 zero bytes and the
    length in bits as 64-bit big-endian, filling whole chunks of 64 bytes; all chunks are
    processed inside the arrays, and the digest has 20 bytes. *)
Theorem sha1_total data :
  zlen data < 2 ^ 60 →
  (∃ k : nat, pad data = Some (data ++ [128] ++ replicate k 0 ++ length_bytes 8 0 (zlen data * 8)) ∧
     (zlen data + 1 + Z.of_nat k + 8) `mod` 64 = 0 ∧ (k < 64)%nat) ∧
  ∃ d, sha1 data = Some d ∧ zlen d = 20 ∧ bytes_ok d.
Proof. apply sha1_spec. Qed.

(** The digest of the RFC 3174 test, and the handshake example of RFC 6455. *)
Lemma sha1_total_witness :
  sha1 (lit "abc") = Some [0xA9; 0x99; 0x3E; 0x36; 0x47; 0x06; 0x81; 0x6A; 0xBA; 0x3E;
                           0x25; 0x71; 0x78; 0x50; 0xC2; 0x6C; 0x9C; 0xD0; 0xD8; 0x9D] ∧
  accept_key (lit "dGhlIHNhbXBsZSBub25jZQ==") = Some (lit "s3pPLMBiTxaQ9kYGzzhZRbK+xOo=") ∧
  ∃ d, sha1 (lit "abc") = Some d ∧ zlen d = 20 ∧ bytes_ok d.
Proof.
  split; [vm_compute; reflexivity|]. split; [vm_compute; reflexivity|].
  apply (proj2 (sha1_total (lit "abc") ltac:(vm_compute; reflexivity))).
Defined.

Lemma accept_key_total key : zlen key < 2 ^ 59 → is_Some (accept_key key).
Proof.
  intros Hk. unfold accept_key. destruct (sha1_spec (key ++ kGuid)) as (_ & d & Ed & _ & Hd).
  { rewrite zlen_app. change (zlen kGuid) with 36. lia. }
  destruct (base64_spec d Hd) as (s & Es & _). rewrite Ed. exists s. exact Es.
Qed.
