(* ===== verification/Tcp.v ===== *)
(** The line socket (include/mt5/tcp.hpp, LineSocket).  The operating system and the peer are
    inputs: [incoming] lists what the next calls of [recv] find, a run of bytes or a timeout,
    and ends where the peer closes; [accepts] lists what the kernel answers to the next calls of
    [send]: the number of bytes it takes at most or, not positive, the negated error number; behind
    its end [send] takes everything.  [sent_] collects the bytes given to the system.  The code
    calls [send] without MSG_NOSIGNAL and never changes the action of SIGPIPE, so EPIPE does not
    come back to the caller: the process is killed.  [killed_] records this; a killed process sends
    nothing more, and the programs stop there ([Servers]).  The descriptor, its options and the
    calls that open and close it are in [Sockets]. *)
From S2P Require Export Text.

Inductive recv_event : Set :=
  | Chunk (d : list Z)
  | WouldBlock.

Record LineSocket := mkSocket {
  buf_ : list Z;
  last_timed_out_ : bool;
  incoming : list recv_event;
  accepts : list Z;
  sent_ : list Z;
  killed_ : bool;
}.

Definition connection (incoming : list recv_event) (accepts : list Z) : LineSocket :=
  mkSocket [] false incoming accepts [] false.

(** One call of [recv] with room for [n] bytes; a result of 0 means that the peer closed. *)

Inductive recv_result : Set :=
  | Got (d : list Z)
  | TimedOut
  | Closed.

Definition recv (n : Z) (inc : list recv_event) : recv_result * list recv_event :=
  match inc with
  | [] => (Closed, [])
  | WouldBlock :: inc => (TimedOut, inc)
  | Chunk d :: inc =>
      if decide (d = []) then (Closed, inc)
      else if zlen d <=? n then (Got d, inc)
      else (Got (take (Z.to_nat n) d), Chunk (drop (Z.to_nat n) d) :: inc)
  end.

(** The bytes still to come. *)

Fixpoint stream (inc : list recv_event) : list Z :=
  match inc with
  | [] => []
  | Chunk d :: inc => d ++ stream inc
  | WouldBlock :: inc => stream inc
  end.

(** * Receiving lines *)

Fixpoint recv_line_loop (fuel : nat) (s : LineSocket) : option (list Z) * LineSocket :=
  match fuel with
  | O => (None, s)
  | S fuel =>
      match index_of 10 (buf_ s) with
      | Some nl =>
          (Some (take (Z.to_nat nl) (buf_ s)),
           mkSocket (drop (Z.to_nat (nl + 1)) (buf_ s)) (last_timed_out_ s) (incoming s) (accepts s) (sent_ s) (killed_ s))
      | None =>
          match recv 4096 (incoming s) with
          | (Got d, inc) => recv_line_loop fuel (mkSocket (buf_ s ++ d) (last_timed_out_ s) inc (accepts s) (sent_ s) (killed_ s))
          | (TimedOut, inc) => (None, mkSocket (buf_ s) true inc (accepts s) (sent_ s) (killed_ s))
          | (Closed, inc) =>
              if decide (buf_ s = []) then (None, mkSocket (buf_ s) (last_timed_out_ s) inc (accepts s) (sent_ s) (killed_ s))
              else (Some (buf_ s), mkSocket [] (last_timed_out_ s) inc (accepts s) (sent_ s) (killed_ s))
          end
      end
  end.

(** Every round but the last receives a byte. *)

Definition recv_line (s : LineSocket) : option (list Z) * LineSocket :=
  recv_line_loop (S (length (stream (incoming s))))
    (mkSocket (buf_ s) false (incoming s) (accepts s) (sent_ s) (killed_ s)).

Definition timed_out (s : LineSocket) : bool := last_timed_out_ s.

(** * Sending *)

(** The error of a connection whose peer has closed, which comes with SIGPIPE. *)

Definition EPIPE : Z := 32.

(** One call of [send] with no flags: the result and the socket. *)

Definition send (data : list Z) (s : LineSocket) : Z * LineSocket :=
  if killed_ s then (-1, s)
  else
    match accepts s with
    | [] => (zlen data, mkSocket (buf_ s) (last_timed_out_ s) (incoming s) [] (sent_ s ++ data) false)
    | k :: ks =>
        if k =? - EPIPE then (-1, mkSocket (buf_ s) (last_timed_out_ s) (incoming s) ks (sent_ s) true)
        else
          let n := Z.min k (zlen data) in
          (n, mkSocket (buf_ s) (last_timed_out_ s) (incoming s) ks (sent_ s ++ take (Z.to_nat n) data) false)
    end.

Fixpoint send_loop (fuel : nat) (data : list Z) (sent : Z) (s : LineSocket) : bool * LineSocket :=
  match fuel with
  | O => (false, s)
  | S fuel =>
      if sent <? zlen data then
        let '(n, s) := send (drop (Z.to_nat sent) data) s in
        if n <=? 0 then (false, s) else send_loop fuel data (sent + n) s
      else (true, s)
  end.

Definition send_line (line : list Z) (s : LineSocket) : bool * LineSocket :=
  send_loop (S (length line)) line 0 s.

Definition send_all (data : list Z) (s : LineSocket) : bool * LineSocket :=
  send_loop (S (length data)) data 0 s.

(** * Receiving a fixed number of bytes *)

Fixpoint exact_loop (fuel : nat) (n : Z) (out : list Z) (s : LineSocket) : option (list Z) * LineSocket :=
  match fuel with
  | O => (None, s)
  | S fuel =>
      if zlen out <? n then
        match recv (n - zlen out) (incoming s) with
        | (Got d, inc) =>
            exact_loop fuel n (out ++ d) (mkSocket (buf_ s) (last_timed_out_ s) inc (accepts s) (sent_ s) (killed_ s))
        | (_, inc) => (None, mkSocket (buf_ s) (last_timed_out_ s) inc (accepts s) (sent_ s) (killed_ s))
        end
      else (Some out, s)
  end.

(** The bytes of a failed call are lost with the caller's array. *)

Definition recv_exact (n : Z) (s : LineSocket) : option (list Z) * LineSocket :=
  let k := Z.to_nat (if n <? zlen (buf_ s) then n else zlen (buf_ s)) in
  exact_loop (S (length (stream (incoming s)))) n (take k (buf_ s))
    (mkSocket (drop k (buf_ s)) (last_timed_out_ s) (incoming s) (accepts s) (sent_ s) (killed_ s)).

(** * Facts about receiving *)

(** A run of bytes is not empty. *)

Definition chunks_ok (inc : list recv_event) : Prop := Forall (λ e, e ≠ Chunk []) inc.

Fixpoint timeouts (inc : list recv_event) : nat :=
  match inc with
  | [] => O
  | Chunk _ :: inc => timeouts inc
  | WouldBlock :: inc => S (timeouts inc)
  end.

(** What the reader of the socket has not seen yet. *)

Definition content (s : LineSocket) : list Z := buf_ s ++ stream (incoming s).

Lemma recv_got n inc d inc' :
  0 < n → chunks_ok inc → recv n inc = (Got d, inc') →
  d ≠ [] ∧ zlen d ≤ n ∧ stream inc = d ++ stream inc' ∧ timeouts inc' = timeouts inc ∧ chunks_ok inc'.
Proof.
  intros Hn Hc E. destruct inc as [|[c|] inc]; simpl in E; try done. apply Forall_cons in Hc as [Hne Hc].
  destruct (decide (c = [])) as [->|Hc0]; [done|]. destruct (Z.leb_spec (zlen c) n) as [Hle|Hgt]; injection E as <- <-.
  - done.
  - split_and!.
    + destruct c; [done|]. destruct (Z.to_nat n) eqn:En; [lia|done].
    + rewrite zlen_take; lia.
    + simpl. by rewrite app_assoc, take_drop.
    + done.
    + constructor; [|done]. intros [= Ed]. apply (f_equal zlen) in Ed. rewrite zlen_drop in Ed by lia.
      change (zlen (@nil Z)) with 0 in Ed. lia.
Qed.

Lemma recv_timed_out n inc inc' : recv n inc = (TimedOut, inc') → inc = WouldBlock :: inc'.
Proof. destruct inc as [|[c|] inc]; simpl; intros E; repeat case_match; simplify_eq; done. Qed.

Lemma recv_closed n inc inc' : chunks_ok inc → recv n inc = (Closed, inc') → inc = [] ∧ inc' = [].
Proof.
  intros Hc E. destruct inc as [|[c|] inc]; simpl in E; [by simplify_eq| |done].
  apply Forall_cons in Hc as [Hne _]. destruct (decide (c = [])) as [->|]; [done|]. by case_match.
Qed.

(** * Lines of a stream *)

Fixpoint lines_from (cur s : list Z) : list (list Z) :=
  match s with
  | [] => match cur with [] => [] | _ => [cur] end
  | c :: s => if c =? 10 then cur :: lines_from [] s else lines_from (cur ++ [c]) s
  end.

(** The lines of a text: a last line without newline counts when it is not empty. *)

Definition lines (s : list Z) : list (list Z) := lines_from [] s.

Lemma lines_from_newline cur s nl :
  index_of 10 s = Some nl →
  lines_from cur s = (cur ++ take (Z.to_nat nl) s) :: lines (drop (Z.to_nat (nl + 1)) s) ∧ 0 ≤ nl.
Proof.
  revert cur nl. induction s as [|c s IH]; intros cur nl E; [done|]. simpl in *.
  destruct (c =? 10) eqn:Ec.
  - injection E as <-. simpl. by rewrite app_nil_r.
  - destruct (index_of 10 s) as [j|] eqn:Ej; [|done]. injection E as <-.
    destruct (IH (cur ++ [c]) j eq_refl) as [-> Hj]. split; [|lia].
    replace (Z.to_nat (j + 1)) with (S (Z.to_nat j)) by lia.
    replace (Z.to_nat (j + 1 + 1)) with (S (S (Z.to_nat j))) by lia. simpl. by rewrite <- app_assoc.
Qed.

Lemma lines_from_none cur s :
  index_of 10 s = None → lines_from cur s = match cur ++ s with [] => [] | l => [l] end.
Proof.
  revert cur. induction s as [|c s IH]; intros cur E; simpl in *; [rewrite app_nil_r; by destruct cur|].
  destruct (c =? 10); [done|]. destruct (index_of 10 s); [done|]. rewrite IH by done. by rewrite <- app_assoc.
Qed.

Lemma index_of_take s k nl : index_of 10 s = Some nl → index_of 10 (s ++ k) = Some nl ∧ 0 ≤ nl < zlen s.
Proof.
  revert nl. induction s as [|c s IH]; intros nl E; [done|]. simpl in *. rewrite zlen_cons. pose proof (zlen_nonneg s).
  destruct (c =? 10); [injection E as <-; split; [done|lia]|]. destruct (index_of 10 s) as [j|]; [|done].
  injection E as <-. destruct (IH j eq_refl) as [-> Hj]. split; [done|lia].
Qed.

(** A line in the buffer is the first line of everything behind it. *)
Lemma lines_buffered b k nl :
  index_of 10 b = Some nl →
  lines (b ++ k) = take (Z.to_nat nl) b :: lines (drop (Z.to_nat (nl + 1)) b ++ k).
Proof.
  intros E. destruct (index_of_take b k nl E) as [E' Hnl]. unfold lines at 1.
  destruct (lines_from_newline [] (b ++ k) nl E') as [-> _]. unfold zlen in Hnl.
  rewrite take_app_le, drop_app_le by lia. done.
Qed.

(** * [recv_line] *)

Definition same_output (s s' : LineSocket) : Prop := accepts s' = accepts s ∧ sent_ s' = sent_ s ∧ killed_ s' = killed_ s.

Definition line_step (s : LineSocket) (r : option (list Z)) (s' : LineSocket) : Prop :=
  chunks_ok (incoming s') ∧ same_output s s' ∧
  match r with
  | Some l => lines (content s) = l :: lines (content s') ∧ timeouts (incoming s') = timeouts (incoming s)
  | None => content s' = content s ∧
      if timed_out s' then timeouts (incoming s) = S (timeouts (incoming s')) else content s = [] ∧ incoming s' = []
  end.

Lemma recv_line_loop_spec fuel s :
  chunks_ok (incoming s) → last_timed_out_ s = false → (length (stream (incoming s)) < fuel)%nat →
  line_step s (recv_line_loop fuel s).1 (recv_line_loop fuel s).2.
Proof.
  revert s. induction fuel as [|fuel IH]; intros s Hc Ht Hf; [lia|]. cbn [recv_line_loop].
  destruct (index_of 10 (buf_ s)) as [nl|] eqn:En.
  - repeat split; [done|]. simpl. unfold content. by rewrite (lines_buffered _ _ nl En).
  - destruct (recv 4096 (incoming s)) as [[d| |] inc] eqn:Er.
    + apply recv_got in Er as (Hne & _ & Es & Et & Hc'); [|lia|done].
      destruct (IH (mkSocket (buf_ s ++ d) (last_timed_out_ s) inc (accepts s) (sent_ s) (killed_ s))) as (H1 & H2 & H3); [done|done| |].
      { simpl. rewrite Es, length_app in Hf. destruct d; [done|]. simpl in Hf. lia. }
      split; [done|]. split; [done|]. unfold content in H3 |- *. simpl in H3. rewrite Es, app_assoc, <- Et. done.
    + apply recv_timed_out in Er. simpl. unfold line_step, content. simpl. rewrite Er in *.
      apply Forall_cons in Hc as [_ Hc]. done.
    + apply recv_closed in Er as [E ->]; [|done]. unfold line_step, content. rewrite E. simpl. rewrite app_nil_r.
      destruct (decide (buf_ s = [])) as [Eb|Eb]; simpl; (split; [constructor|]); (split; [done|]).
      * rewrite app_nil_r. split; [done|]. unfold timed_out. simpl. by rewrite Ht.
      * split; [|done]. unfold lines. rewrite lines_from_none by done. simpl. by destruct (buf_ s).
Qed.

Lemma recv_line_spec s : chunks_ok (incoming s) → line_step s (recv_line s).1 (recv_line s).2.
Proof. intros Hc. unfold recv_line. by apply (recv_line_loop_spec _ (mkSocket _ _ _ _ _ _)); [|done|simpl; lia]. Qed.

(** A reader that calls [recv_line] until the peer has closed, going on after timeouts. *)

Fixpoint read_all (fuel : nat) (s : LineSocket) : option (list (list Z)) :=
  match fuel with
  | O => None
  | S fuel =>
      match recv_line s with
      | (Some l, s) => ls ← read_all fuel s; Some (l :: ls)
      | (None, s) => if timed_out s then read_all fuel s else Some []
      end
  end.

(** The lines received are the lines of the byte stream: however the network cuts the stream
    into runs and wherever timeouts fall, between lines or inside one, reading until the peer
    closes ends and returns each line of the stream once, in order, the unterminated last
    one included. *)
Theorem recv_lines_of_stream s fuel :
  chunks_ok (incoming s) → (length (lines (content s)) + timeouts (incoming s) < fuel)%nat →
  read_all fuel s = Some (lines (content s)).
Proof.
  revert s. induction fuel as [|fuel IH]; intros s Hc Hf; [lia|]. cbn [read_all].
  pose proof (recv_line_spec s Hc) as (Hc' & _ & Hs). destruct (recv_line s) as [[l|] s']; simpl in *.
  - destruct Hs as [El Et]. rewrite El in Hf |- *. simpl in Hf. rewrite IH; [done|done|lia].
  - destruct Hs as [Ec Et]. destruct (timed_out s'); [rewrite <- Ec in Hf |- *; apply IH; [done|lia]|].
    destruct Et as [-> _]. done.
Qed.

Lemma recv_lines_of_stream_witness :
  read_all 9 (connection [Chunk [97; 10; 98]; WouldBlock; Chunk [99]; Chunk [10; 10]; WouldBlock; Chunk [100]] [])
  = Some [[97]; [98; 99]; []; [100]].
Proof. rewrite recv_lines_of_stream; [done|by repeat constructor|vm_compute; lia]. Defined.

(** * Sending *)

(** No call of [send] will fail; none will find the peer gone. *)

Definition sends_ok (s : LineSocket) : Prop := killed_ s = false ∧ Forall (λ n, 0 < n) (accepts s).

Definition unbroken (s : LineSocket) : Prop := killed_ s = false ∧ Forall (λ n, n ≠ - EPIPE) (accepts s).

Lemma sends_ok_unbroken s : sends_ok s → unbroken s.
Proof. intros [Hk Ha]. split; [done|]. eapply Forall_impl; [exact Ha|]. cbv beta. unfold EPIPE. lia. Qed.

Lemma sends_ok_same s s' : same_output s s' → sends_ok s → sends_ok s'.
Proof. intros (E1 & _ & E3) [Hk Ha]. unfold sends_ok. by rewrite E1, E3. Qed.

Lemma unbroken_same s s' : same_output s s' → unbroken s → unbroken s'.
Proof. intros (E1 & _ & E3) [Hk Ha]. unfold unbroken. by rewrite E1, E3. Qed.

(** Receiving is the same before and after. *)

Definition same_input (s s' : LineSocket) : Prop :=
  incoming s' = incoming s ∧ buf_ s' = buf_ s ∧ last_timed_out_ s' = last_timed_out_ s.

Lemma send_one rest s :
  let r := send rest s in
  r.1 ≤ zlen rest ∧ sent_ r.2 = sent_ s ++ take (Z.to_nat r.1) rest ∧ same_input s r.2 ∧
  (sends_ok s → rest ≠ [] → 0 < r.1 ∧ sends_ok r.2) ∧ (unbroken s → unbroken r.2).
Proof.
  cbv zeta. pose proof (zlen_nonneg rest) as Hz. unfold send, sends_ok, unbroken. destruct (killed_ s) eqn:Ek.
  { simpl. rewrite app_nil_r, Ek. split_and!; (lia || done || by intros [? _]). }
  assert (Hpos : rest ≠ [] → 0 < zlen rest) by (destruct rest; [done|]; rewrite zlen_cons; pose proof (zlen_nonneg rest); lia).
  destruct (accepts s) as [|k ks].
  - simpl. replace (take (Z.to_nat (zlen rest)) rest) with rest by (unfold zlen; by rewrite Nat2Z.id, firstn_all).
    split_and!; try done. intros _ Hne. split; [by apply Hpos|done].
  - destruct (Z.eqb_spec k (- EPIPE)) as [->|Hk]; simpl.
    + rewrite app_nil_r. split_and!; try done; [lia| |].
      * intros [_ [H _]%Forall_cons]. unfold EPIPE in H. lia.
      * by intros [_ [H _]%Forall_cons].
    + split_and!; try done; [lia| |].
      * intros [_ [H Ha]%Forall_cons] Hne. specialize (Hpos Hne). split; [lia|done].
      * by intros [_ [H Ha]%Forall_cons].
Qed.

(** The pieces handed to [send] are a prefix of the data, all of it exactly on success. *)
Lemma send_loop_spec fuel data sent s :
  0 ≤ sent ≤ zlen data → zlen data - sent < Z.of_nat fuel →
  ∃ k, sent_ (send_loop fuel data sent s).2 = sent_ s ++ take k (drop (Z.to_nat sent) data)
    ∧ same_input s (send_loop fuel data sent s).2
    ∧ ((send_loop fuel data sent s).1 = true ↔ zlen data - sent ≤ Z.of_nat k)
    ∧ (sends_ok s → (send_loop fuel data sent s).1 = true ∧ sends_ok (send_loop fuel data sent s).2)
    ∧ (unbroken s → unbroken (send_loop fuel data sent s).2).
Proof.
  revert sent s. induction fuel as [|fuel IH]; intros sent s Hs Hf; [lia|]. cbn [send_loop].
  destruct (Z.ltb_spec sent (zlen data)) as [Hlt|Hge].
  2: { exists 0%nat. simpl. rewrite app_nil_r. split_and!; try done. split; [lia|done]. }
  set (rest := drop (Z.to_nat sent) data).
  assert (Hrest : zlen rest = zlen data - sent) by (unfold rest; rewrite zlen_drop; lia).
  assert (Hne : rest ≠ []) by (intros E; rewrite E in Hrest; change (zlen (@nil Z)) with 0 in Hrest; lia).
  destruct (send_one rest s) as (Hle & Esent & (Ei & Eb & El) & Hacc & Hunb). destruct (send rest s) as [n s']; simpl in *.
  destruct (Z.leb_spec n 0) as [Hn|Hn].
  - exists 0%nat. cbn [fst snd]. rewrite Esent. replace (Z.to_nat n) with 0%nat by lia. simpl. split_and!; try done.
    + split; [done|lia].
    + intros Ha. apply Hacc in Ha; [lia|done].
  - destruct (IH (sent + n) s') as (k & H1 & (H2 & H3 & H4) & H5 & H6 & H7); [lia|lia|].
    exists (Z.to_nat n + k)%nat. rewrite H1, Esent. split_and!.
    + rewrite <- app_assoc. f_equal. unfold rest. rewrite Z2Nat.inj_add, <- drop_drop by lia.
      set (r := drop (Z.to_nat sent) data). by rewrite <- (take_take_drop r (Z.to_nat n) k).
    + unfold same_input. by rewrite H2, H3, H4.
    + rewrite H5. lia.
    + intros Ha. apply Hacc in Ha as [_ Ha]; [|done]. by apply H6.
    + auto.
Qed.

Lemma send_spec data s :
  let r := send_loop (S (length data)) data 0 s in
  ∃ k, sent_ r.2 = sent_ s ++ take k data ∧ same_input s r.2 ∧ (r.1 = true ↔ take k data = data)
    ∧ (sends_ok s → r.1 = true ∧ sends_ok r.2) ∧ (unbroken s → unbroken r.2).
Proof.
  pose proof (zlen_nonneg data). destruct (send_loop_spec (S (length data)) data 0 s) as (k & H1 & H2 & H3 & H4 & H5);
    [lia|unfold zlen; lia|]. exists k. simpl in H1. unfold zlen in H3. split_and!; try done. rewrite H3. split.
  - intros ?. apply firstn_all2. lia.
  - intros E. apply (f_equal length) in E. rewrite length_take in E. lia.
Qed.

(** Without failing calls the whole text is handed over. *)
Lemma send_line_all line s :
  sends_ok s →
  (send_line line s).1 = true ∧ sent_ (send_line line s).2 = sent_ s ++ line
  ∧ incoming (send_line line s).2 = incoming s ∧ buf_ (send_line line s).2 = buf_ s
  ∧ last_timed_out_ (send_line line s).2 = last_timed_out_ s ∧ sends_ok (send_line line s).2.
Proof.
  intros Ha. unfold send_line. destruct (send_spec line s) as (k & H1 & (H2 & H3 & H4) & H5 & H6 & _).
  destruct (H6 Ha) as [Ht Ha']. rewrite H1. apply H5 in Ht as E. by rewrite E.
Qed.

(** What is sent does not depend on what was received. *)
Lemma send_loop_output fuel data sent s s' :
  same_output s s' →
  (send_loop fuel data sent s').1 = (send_loop fuel data sent s).1 ∧
  same_output (send_loop fuel data sent s).2 (send_loop fuel data sent s').2.
Proof.
  revert sent s s'. induction fuel as [|fuel IH]; intros sent s s' Hso; [done|]. cbn [send_loop].
  destruct (sent <? zlen data); [|done]. set (rest := drop (Z.to_nat sent) data).
  assert (Hs : (send rest s').1 = (send rest s).1 ∧ same_output (send rest s).2 (send rest s').2).
  { pose proof Hso as (E1 & E2 & E3). unfold send. rewrite E1, E2, E3. destruct (killed_ s); [done|].
    destruct (accepts s) as [|k ks]; [done|]. by destruct (k =? - EPIPE). }
  destruct Hs as [En Ho]. destruct (send rest s) as [n s1], (send rest s') as [n' s1']; simpl in *. subst n'.
  destruct (n <=? 0); [done|]. by apply IH.
Qed.

Lemma same_output_refl s : same_output s s.
Proof. done. Qed.

Lemma same_output_trans s1 s2 s3 : same_output s1 s2 → same_output s2 s3 → same_output s1 s3.
Proof. intros (E1 & E2 & E3) (E4 & E5 & E6). unfold same_output. split_and!; congruence. Qed.

(** What a message encoder promises the line socket: one line, and its newline. *)

Definition one_line (msg line : list Z) : Prop := msg = line ++ [10] ∧ 10 ∉ line.

Fixpoint send_lines (msgs : list (list Z)) (s : LineSocket) : bool * LineSocket :=
  match msgs with
  | [] => (true, s)
  | m :: msgs => let '(ok, s) := send_line m s in if ok then send_lines msgs s else (false, s)
  end.

Lemma lines_concat msgs ls : Forall2 one_line msgs ls → lines (concat msgs) = ls.
Proof.
  induction 1 as [|m l msgs ls [-> Hn] _ IH]; [done|]. cbn [concat].
  rewrite (lines_buffered (l ++ [10]) _ (zlen l)) by (by apply index_of_app).
  unfold zlen. rewrite Nat2Z.id, take_app_length. f_equal. rewrite drop_ge; [done|]. rewrite length_app. simpl. lia.
Qed.

Lemma send_lines_all msgs s :
  sends_ok s →
  (send_lines msgs s).1 = true ∧ sent_ (send_lines msgs s).2 = sent_ s ++ concat msgs.
Proof.
  revert s. induction msgs as [|m msgs IH]; intros s Ha; cbn [send_lines concat]; [by rewrite app_nil_r|].
  destruct (send_line_all m s Ha) as (Hok & Hsent & _ & _ & _ & Ha'). destruct (send_line m s) as [ok s']; simpl in *. subst ok.
  destruct (IH s' Ha') as [-> ->]. by rewrite Hsent, app_assoc.
Qed.

(** Messages go through a connection unchanged: when [send] never fails, however few bytes
    each call takes, and the peer receives the bytes sent in any pieces and with any
    timeouts in between, the peer reads exactly the lines of the messages, in order. *)
Theorem line_transport msgs ls ks inc fuel :
  Forall2 one_line msgs ls → Forall (λ n, 0 < n) ks → chunks_ok inc →
  stream inc = sent_ (send_lines msgs (connection [] ks)).2 → (length ls + timeouts inc < fuel)%nat →
  (send_lines msgs (connection [] ks)).1 = true ∧ read_all fuel (connection inc []) = Some ls.
Proof.
  intros Hm Hk Hc Es Hf. destruct (send_lines_all msgs (connection [] ks) (conj eq_refl Hk)) as [Hok Hsent]. split; [done|].
  assert (El : lines (content (connection inc [])) = ls).
  { unfold content. simpl. rewrite Es, Hsent. by apply lines_concat. }
  rewrite recv_lines_of_stream; [by rewrite El|done|by rewrite El].
Qed.

Lemma line_transport_witness :
  (send_lines [[97; 10]; [98; 99; 10]] (connection [] [1; 3; 1])).1 = true
  ∧ read_all 5 (connection [Chunk [97]; WouldBlock; Chunk [10; 98]; Chunk [99; 10]] []) = Some [[97]; [98; 99]].
Proof.
  apply (line_transport _ _ [1; 3; 1]); [|by repeat constructor|by repeat constructor|done|simpl; lia].
  repeat apply Forall2_cons_2; [split; [done|set_solver]..|done].
Defined.

(** * [recv_exact] *)

(** The connection will not time out. *)

Definition steady (s : LineSocket) : Prop := chunks_ok (incoming s) ∧ timeouts (incoming s) = 0%nat.

Lemma exact_loop_spec fuel n out s :
  steady s → buf_ s = [] ∨ zlen out = n → zlen out ≤ n → (length (stream (incoming s)) < fuel)%nat →
  n - zlen out ≤ zlen (content s) →
  ∃ s', exact_loop fuel n out s = (Some (out ++ take (Z.to_nat (n - zlen out)) (content s)), s')
    ∧ content s' = drop (Z.to_nat (n - zlen out)) (content s) ∧ steady s' ∧ same_output s s'.
Proof.
  revert out s. induction fuel as [|fuel IH]; intros out s [Hc Ht] Hb Hle Hf Hen; [lia|]. cbn [exact_loop].
  destruct (Z.ltb_spec (zlen out) n) as [Hlt|Hge].
  2: { exists s. replace (n - zlen out) with 0 by lia. simpl. rewrite app_nil_r. split_and!; done. }
  destruct Hb as [Hb|Hb]; [|lia]. unfold content in *. rewrite Hb in *. cbn [app] in *.
  destruct (recv (n - zlen out) (incoming s)) as [[d| |] inc] eqn:Er.
  - apply recv_got in Er as (Hne & Hd & Es & Et & Hc'); [|lia|done].
    assert (1 ≤ length d)%nat by (destruct d; [done|simpl; lia]).
    destruct (IH (out ++ d) (mkSocket [] (last_timed_out_ s) inc (accepts s) (sent_ s) (killed_ s))) as (s' & E1 & E2 & E3 & E4).
    + split; [done|]. simpl. lia.
    + by left.
    + rewrite zlen_app. lia.
    + rewrite Es, length_app in Hf. simpl. lia.
    + simpl. rewrite Es, !zlen_app in *. lia.
    + exists s'. rewrite E1, E2, Es. simpl. rewrite zlen_app.
      replace (Z.to_nat (n - zlen out)) with (length d + Z.to_nat (n - (zlen out + zlen d)))%nat by (unfold zlen in *; lia).
      rewrite take_app_add, drop_app_add, <- app_assoc. done.
  - apply recv_timed_out in Er. rewrite Er in Ht. done.
  - apply recv_closed in Er as [E _]; [|done]. rewrite E in Hen. change (zlen (stream [])) with 0 in Hen. lia.
Qed.

(** [recv_exact] takes the next [n] bytes, buffered ones first. *)
Lemma recv_exact_spec n s :
  steady s → 0 ≤ n ≤ zlen (content s) →
  ∃ s', recv_exact n s = (Some (take (Z.to_nat n) (content s)), s')
    ∧ content s' = drop (Z.to_nat n) (content s) ∧ steady s' ∧ same_output s s'.
Proof.
  intros Hs Hn. unfold recv_exact. pose proof (zlen_nonneg (buf_ s)).
  set (k := Z.to_nat (if n <? zlen (buf_ s) then n else zlen (buf_ s))).
  assert (Hk : k = Nat.min (Z.to_nat n) (length (buf_ s))) by (unfold k, zlen in *; destruct (Z.ltb_spec n (Z.of_nat (length (buf_ s)))); lia).
  set (s1 := mkSocket (drop k (buf_ s)) (last_timed_out_ s) (incoming s) (accepts s) (sent_ s) (killed_ s)).
  assert (Hlen : zlen (take k (buf_ s)) = Z.min n (zlen (buf_ s))) by (unfold zlen; rewrite length_take; lia).
  assert (Ec : content s = take k (buf_ s) ++ content s1)
    by (unfold content; simpl; by rewrite app_assoc, take_drop).
  destruct (exact_loop_spec (S (length (stream (incoming s)))) n (take k (buf_ s)) s1) as (s' & E1 & E2 & E3 & E4).
  - done.
  - simpl. destruct (decide (n ≤ zlen (buf_ s))); [right; lia|left]. apply drop_ge. unfold zlen in *. lia.
  - lia.
  - simpl. lia.
  - rewrite Ec, zlen_app in Hn. lia.
  - assert (Hsub : (Z.to_nat n - k)%nat = Z.to_nat (n - zlen (take k (buf_ s)))) by (unfold zlen in *; lia).
    assert (Hlk : length (take k (buf_ s)) = k) by (rewrite length_take; lia).
    exists s'. rewrite E1, E2. split_and!; try done.
    + rewrite Ec, take_app, Hlk, Hsub, (take_ge (take k _)) by lia. done.
    + rewrite Ec, drop_app, Hlk, Hsub, (drop_ge (take k _)) by lia. done.
Qed.
