(* ===== verification/Sockets.v ===== *)
(** The descriptors behind the socket classes (include/mt5/tcp.hpp: [LineSocket], [Listener];
    include/feed/udp.hpp: [UdpSocket]): who owns which descriptor, and what the constructors do
    when a system call fails.  The system calls are not part of the sources: which descriptor the
    kernel picks is a parameter, with what [socket] and [accept] promise of it as the class
    [Allocator]; whether a call fails and which port it reports is a script.  An exception leaves
    no object behind. *)
From stdpp Require Import strings.
From S2P Require Export Text.

#[local] Open Scope list_scope.
#[local] Open Scope Z_scope.

(** * The kernel *)

(** [live]: the open descriptors; [bad_close]: a descriptor was closed that was not open. *)

Record kernel := mkKernel {
  live : gset Z;
  bad_close : bool;
  fails : list bool;
  ports : list Z;
}.

(** The outcome of the next call that may fail; behind the script calls succeed. *)

Definition try_call (k : kernel) : bool * kernel :=
  match fails k with
  | [] => (true, k)
  | f :: fs => (negb f, mkKernel (live k) (bad_close k) fs (ports k))
  end.

(** What the kernel promises of the descriptor it picks, given the open ones: it was not open. *)

Class Allocator (pick : gset Z → Z) : Prop := {
  pick_nonneg used : 0 ≤ pick used;
  pick_fresh used : pick used ∉ used;
}.

(** [socket] and [accept]: a new descriptor, or -1. *)

Definition new_fd (pick : gset Z → Z) (k : kernel) : Z * kernel :=
  let '(ok, k) := try_call k in
  if ok then
    let fd := pick (live k) in (fd, mkKernel ({[fd]} ∪ live k) (bad_close k) (fails k) (ports k))
  else (-1, k).

Definition close (fd : Z) (k : kernel) : kernel :=
  if decide (fd ∈ live k) then mkKernel (live k ∖ {[fd]}) (bad_close k) (fails k) (ports k)
  else mkKernel (live k) true (fails k) (ports k).

(** [getsockname], if the call succeeds: the port the socket was bound to, in network byte order;
    one the system picks (the script says which) when that was 0. *)

Definition getsockname (bound : Z) (k : kernel) : option Z * kernel :=
  let '(ok, k) := try_call k in
  if ok then
    if bound =? 0 then
      match ports k with
      | p :: ps => (Some p, mkKernel (live k) (bad_close k) (fails k) ps)
      | [] => (Some 0, k)
      end
    else (Some bound, k)
  else (None, k).

(** [htons] and [ntohs] on a little-endian machine. *)

Definition bswap16 (x : Z) : Z := u16 (Z.lor (Z.shiftl x 8) (Z.shiftr x 8)).

(** A constructor or factory returns or throws. *)

Inductive result (A : Type) : Type := Throw (what : list Z) | Return (a : A).

Arguments Throw {A} _.
Arguments Return {A} _.

(** * LineSocket *)

Record line_socket := mkLine { fd_ : Z; timed_out_ : bool; unread_ : list Z }.

Definition line_default : line_socket := mkLine (-1) false [].

Definition line_from (fd : Z) : line_socket := mkLine fd false [].

Definition close_ (s : line_socket) (k : kernel) : line_socket * kernel :=
  if 0 <=? fd_ s then (mkLine (-1) (timed_out_ s) (unread_ s), close (fd_ s) k) else (s, k).

(** The move constructor: the new object and the source; [junk] is what the library leaves in a
    string that was moved from. *)

Definition move_construct (junk : list Z) (o : line_socket) : line_socket * line_socket :=
  (mkLine (fd_ o) false (unread_ o), mkLine (-1) (timed_out_ o) junk).

(** Move assignment from another object. *)

Definition move_assign (junk : list Z) (self o : line_socket) (k : kernel) : line_socket * line_socket * kernel :=
  let '(self, k) := close_ self k in
  (mkLine (fd_ o) (timed_out_ self) (unread_ o), mkLine (-1) (timed_out_ o) junk, k).

Definition destroy (s : line_socket) (k : kernel) : kernel := (close_ s k).2.

Definition valid (s : line_socket) : bool := 0 <=? fd_ s.

Definition connect (pick : gset Z → Z) (host : list Z) (k : kernel) : result line_socket * kernel :=
  let '(fd, k) := new_fd pick k in
  if fd <? 0 then (Throw (lit "socket() failed"), k)
  else
    let '(parsed, k) := try_call k in
    if negb parsed then (Throw (lit "inet_pton() failed for " ++ host), close fd k)
    else
      let '(connected, k) := try_call k in
      if negb connected then (Throw (lit "connect() failed"), close fd k) else (Return (line_from fd), k).

(** [timeval] of a timeout in milliseconds. *)

Definition timeval_of (ms : Z) : Z * Z := (Z.quot ms 1000, Z.rem ms 1000 * 1000).

(** What SO_RCVTIMEO promises: [expires tv] says whether a [recv] that finds nothing gives up once
    [tv] was set.  A zero timeout means none; a valid positive one expires; the kernel is free to
    refuse or to interpret the others. *)

Class RecvTimeout (expires : Z * Z → bool) : Prop := {
  zero_never_expires : expires (0, 0) = false;
  positive_expires sec usec : 0 ≤ sec → 0 ≤ usec < 1000000 → 0 < sec + usec → expires (sec, usec) = true;
}.

(** Linux: microseconds out of range are refused and leave the socket without a timeout, negative
    seconds expire at once. *)

Definition linux_expires (tv : Z * Z) : bool :=
  (0 <=? tv.2) && (tv.2 <? 1000000) && negb ((tv.1 =? 0) && (tv.2 =? 0)).

#[global] Instance linux_timeout : RecvTimeout linux_expires.
Proof. split; [done|]. intros sec usec Hs Hu Hp. unfold linux_expires. simpl. lia. Qed.

(** * Listener *)

Record listener := mkListener { l_fd : Z; port_ : Z }.

Definition make_listener (pick : gset Z → Z) (port : Z) (k : kernel) : result listener * kernel :=
  let '(fd, k) := new_fd pick k in
  if fd <? 0 then (Throw (lit "socket() failed"), k)
  else
    let '(bound, k) := try_call k in
    if negb bound then (Throw (lit "bind() failed"), close fd k)
    else
      let '(listening, k) := try_call k in
      if negb listening then (Throw (lit "listen() failed"), close fd k)
      else
        let '(name, k) := getsockname (bswap16 port) k in
        (Return (mkListener fd (match name with Some p => bswap16 p | None => 0 end)), k).

Definition listener_destroy (l : listener) (k : kernel) : kernel := if 0 <=? l_fd l then close (l_fd l) k else k.

Definition accept (pick : gset Z → Z) (l : listener) (k : kernel) : result line_socket * kernel :=
  let '(c, k) := new_fd pick k in if c <? 0 then (Throw (lit "accept() failed"), k) else (Return (line_from c), k).

(** * UdpSocket *)

Definition make_udp (pick : gset Z → Z) (k : kernel) : result Z * kernel :=
  let '(fd, k) := new_fd pick k in if fd <? 0 then (Throw (lit "udp socket() failed"), k) else (Return fd, k).

Definition udp_destroy (fd : Z) (k : kernel) : kernel := if 0 <=? fd then close fd k else k.

Definition bind_loopback (port : Z) (k : kernel) : result Z * kernel :=
  let '(bound, k) := try_call k in
  if negb bound then (Throw (lit "udp bind() failed"), k)
  else let '(name, k) := getsockname (bswap16 port) k in (Return (match name with Some p => bswap16 p | None => port end), k).

(** [sendto] returns [sent]. *)

Definition send_to (n sent : Z) : bool := sent =? n.

(** * Programs over the objects *)

Inductive obj : Type := OLine (s : line_socket) | OListener (l : listener) | OUdp (fd : Z).

Inductive cmd : Type :=
  | NewLine (x : nat)
  | Connect (x : nat) (host : list Z)
  | Listen (x : nat) (port : Z)
  | Accept (l x : nat)
  | MoveTo (x y : nat) (junk : list Z)
  | Assign (x y : nat) (junk : list Z)
  | NewUdp (x : nat)
  | Bind (x : nat) (port : Z)
  | Destroy (x : nat).

Abbreviation store := (gmap nat obj) (only parsing).

(** A new object under a fresh name, unless its constructor throws. *)

Definition construct {A} (x : nat) (wrap : A → obj) (st : store) (r : result A * kernel) : option (store * kernel) :=
  match st !! x with
  | Some _ => None
  | None => Some (match r with (Return a, k) => (<[x := wrap a]> st, k) | (Throw _, k) => (st, k) end)
  end.

Definition obj_destroy (o : obj) (k : kernel) : kernel :=
  match o with OLine s => destroy s k | OListener l => listener_destroy l k | OUdp fd => udp_destroy fd k end.

(** [None]: the command does not fit the objects there are. *)

Definition exec (pick : gset Z → Z) (c : cmd) (sk : store * kernel) : option (store * kernel) :=
  let '(st, k) := sk in
  match c with
  | NewLine x => construct x OLine st (Return line_default, k)
  | Connect x host => construct x OLine st (connect pick host k)
  | Listen x port => construct x OListener st (make_listener pick port k)
  | Accept l x => match st !! l with Some (OListener li) => construct x OLine st (accept pick li k) | _ => None end
  | MoveTo x y junk =>
      match st !! x, st !! y with
      | Some (OLine o), None => let '(n, o) := move_construct junk o in Some (<[y := OLine n]> (<[x := OLine o]> st), k)
      | _, _ => None
      end
  | Assign x y junk =>
      match st !! x, st !! y with
      | Some (OLine self), Some (OLine o) =>
          if decide (x = y) then Some (st, k)
          else let '(self, o, k) := move_assign junk self o k in Some (<[y := OLine o]> (<[x := OLine self]> st), k)
      | _, _ => None
      end
  | NewUdp x => construct x OUdp st (make_udp pick k)
  | Bind x port => match st !! x with Some (OUdp fd) => Some (st, (bind_loopback port k).2) | _ => None end
  | Destroy x => match st !! x with Some o => Some (delete x st, obj_destroy o k) | None => None end
  end.

Fixpoint exec_all (pick : gset Z → Z) (cs : list cmd) (sk : store * kernel) : option (store * kernel) :=
  match cs with [] => Some sk | c :: cs => sk ← exec pick c sk; exec_all pick cs sk end.

(** * The lowest free descriptor *)

Fixpoint first_free (fuel : nat) (used : gset Z) (n : Z) : Z :=
  match fuel with
  | O => n
  | S fuel => if decide (n ∈ used) then first_free fuel used (n + 1) else n
  end.

Definition lowest_free (used : gset Z) : Z := first_free (S (size used)) used 0.

(** * System calls *)

Lemma try_call_keeps k : live ((try_call k).2) = live k ∧ bad_close ((try_call k).2) = bad_close k.
Proof. unfold try_call. by destruct (fails k). Qed.

Lemma getsockname_keeps bound k : live ((getsockname bound k).2) = live k ∧ bad_close ((getsockname bound k).2) = bad_close k.
Proof.
  unfold getsockname. pose proof (try_call_keeps k). destruct (try_call k) as [[] k']; [|done].
  destruct (bound =? 0); [by destruct (ports k')|done].
Qed.

(** The search passes over used descriptors only. *)
Lemma first_free_spec fuel used n :
  n ≤ first_free fuel used n ≤ n + Z.of_nat fuel ∧ (∀ i, n ≤ i < first_free fuel used n → i ∈ used) ∧
  (first_free fuel used n < n + Z.of_nat fuel → first_free fuel used n ∉ used).
Proof.
  revert n. induction fuel as [|fuel IH]; intros n; cbn [first_free]; [split_and!; intros; lia|].
  destruct (decide (n ∈ used)) as [Hin|]; [|split_and!; intros; lia || done].
  destruct (IH (n + 1)) as (H1 & H2 & H3). split_and!; [lia|lia| |intros; apply H3; lia].
  intros i Hi. destruct (decide (i = n)) as [->|]; [done|]. apply H2. lia.
Qed.

Lemma lowest_free_spec used : 0 ≤ lowest_free used ∧ (lowest_free used ∉ used) ∧ ∀ i, 0 ≤ i < lowest_free used → i ∈ used.
Proof.
  unfold lowest_free. destruct (first_free_spec (S (size used)) used 0) as (H1 & H2 & H3). split; [lia|]. split; [|done].
  apply H3. set (n := first_free _ _ _) in *. destruct (decide (n < 0 + Z.of_nat (S (size used)))); [done|].
  assert (Hsub : list_to_set (seqZ 0 n) ⊆ used) by (intros i; rewrite elem_of_list_to_set, elem_of_seqZ; intros; apply H2; lia).
  apply subseteq_size in Hsub. rewrite size_list_to_set in Hsub by apply NoDup_seqZ. rewrite length_seqZ in Hsub. lia.
Qed.

#[export] Instance lowest_free_allocator : Allocator lowest_free.
Proof. split; intros used; apply lowest_free_spec. Qed.

Ltac call k := pose proof (try_call_keeps k) as [? ?]; destruct (try_call k) as [[] ?]; simpl in *.

(** A call that returns a new descriptor or, when it throws, leaves none open. *)

Definition acquires {A} (fd : A → Z) (k : kernel) (r : result A * kernel) : Prop :=
  bad_close (r.2) = bad_close k ∧
  match r.1 with
  | Throw _ => live (r.2) = live k
  | Return a => 0 ≤ fd a ∧ (fd a ∉ live k) ∧ live (r.2) = {[fd a]} ∪ live k
  end.

(** Closing the descriptor that was just opened. *)
Lemma close_new fd k k' L :
  live k' = live k → live k = {[fd]} ∪ L → fd ∉ L → live (close fd k') = L ∧ bad_close (close fd k') = bad_close k'.
Proof.
  intros E1 E2 Hn. unfold close. rewrite decide_True by (rewrite E1, E2; set_solver). simpl. rewrite E1, E2. split; [set_solver|done].
Qed.

Section Calls.

Context (pick : gset Z → Z) `{!Allocator pick}.

Lemma new_fd_spec k :
  bad_close ((new_fd pick k).2) = bad_close k ∧
  (if (new_fd pick k).1 <? 0 then live ((new_fd pick k).2) = live k
   else 0 ≤ (new_fd pick k).1 ∧ ((new_fd pick k).1 ∉ live k) ∧ live ((new_fd pick k).2) = {[(new_fd pick k).1]} ∪ live k).
Proof.
  unfold new_fd. pose proof (try_call_keeps k) as [E1 E2]. destruct (try_call k) as [[] k']; simpl in *; [|done].
  pose proof (pick_nonneg (live k')). pose proof (pick_fresh (live k')).
  split; [done|]. destruct (Z.ltb_spec (pick (live k')) 0); [lia|].
  rewrite <- E1. done.
Qed.

Lemma connect_acquires host k : acquires fd_ k (connect pick host k).
Proof.
  unfold acquires, connect. pose proof (new_fd_spec k) as [Eb Hl]. destruct (new_fd pick k) as [fd k1]; simpl in *.
  destruct (Z.ltb_spec fd 0); simpl; [done|]. destruct Hl as (H1 & H2 & H3). call k1.
  - call k0; [by split_and!; congruence|]. destruct (close_new fd k1 k2 (live k)) as [-> ->]; [congruence|done|done|]. split; congruence.
  - destruct (close_new fd k1 k0 (live k)) as [-> ->]; [done|done|done|]. split; congruence.
Qed.

Lemma listener_acquires port k : acquires l_fd k (make_listener pick port k).
Proof.
  unfold acquires, make_listener. pose proof (new_fd_spec k) as [Eb Hl]. destruct (new_fd pick k) as [fd k1]; simpl in *.
  destruct (Z.ltb_spec fd 0); simpl; [done|]. destruct Hl as (H1 & H2 & H3). call k1.
  - call k0.
    + pose proof (getsockname_keeps (bswap16 port) k2) as [? ?]. destruct (getsockname (bswap16 port) k2) as [name k3]; simpl in *. by split_and!; congruence.
    + destruct (close_new fd k1 k2 (live k)) as [-> ->]; [congruence|done|done|]. split; congruence.
  - destruct (close_new fd k1 k0 (live k)) as [-> ->]; [done|done|done|]. split; congruence.
Qed.

Lemma accept_acquires l k : acquires fd_ k (accept pick l k).
Proof.
  unfold acquires, accept. pose proof (new_fd_spec k) as [Eb Hl]. destruct (new_fd pick k) as [fd k1]; simpl in *. by destruct (Z.ltb_spec fd 0).
Qed.

Lemma udp_acquires k : acquires id k (make_udp pick k).
Proof.
  unfold acquires, make_udp. pose proof (new_fd_spec k) as [Eb Hl]. destruct (new_fd pick k) as [fd k1]; simpl in *. by destruct (Z.ltb_spec fd 0).
Qed.

End Calls.

Lemma bind_keeps port k : live ((bind_loopback port k).2) = live k ∧ bad_close ((bind_loopback port k).2) = bad_close k.
Proof.
  unfold bind_loopback. call k; [|done]. pose proof (getsockname_keeps (bswap16 port) k0) as [? ?]. destruct (getsockname (bswap16 port) k0) as [name k3]; simpl in *.
  split; congruence.
Qed.

(** * Ownership *)

Definition fd_of (o : obj) : Z := match o with OLine s => fd_ s | OListener l => l_fd l | OUdp fd => fd end.

(** The object [x] holds the descriptor [fd]. *)

Definition holds (st : store) (x : nat) (fd : Z) : Prop := ∃ o, st !! x = Some o ∧ fd_of o = fd ∧ 0 ≤ fd.

(** Beyond the descriptors [base] that were open before, exactly those are open that an object
    holds, each is held by one object, and none was closed twice. *)

Definition owned (base : gset Z) (st : store) (k : kernel) : Prop :=
  bad_close k = false ∧
  (∀ fd, fd ∈ live k ↔ fd ∈ base ∨ ∃ x, holds st x fd) ∧
  (∀ x fd, holds st x fd → fd ∉ base) ∧
  (∀ x y fd, holds st x fd → holds st y fd → x = y).

Lemma holds_insert st x o y fd :
  holds (<[x := o]> st) y fd ↔ (y = x ∧ fd_of o = fd ∧ 0 ≤ fd) ∨ (y ≠ x ∧ holds st y fd).
Proof.
  unfold holds. destruct (decide (y = x)) as [->|Hn].
  - rewrite lookup_insert_eq. naive_solver.
  - rewrite lookup_insert_ne by done. naive_solver.
Qed.

Lemma holds_delete st x y fd : holds (delete x st) y fd ↔ y ≠ x ∧ holds st y fd.
Proof.
  unfold holds. destruct (decide (y = x)) as [->|Hn].
  - rewrite lookup_delete_eq. naive_solver.
  - rewrite lookup_delete_ne by done. naive_solver.
Qed.

Lemma holds_None st x fd : st !! x = None → ¬ holds st x fd.
Proof. intros E (o & Ho & _). congruence. Qed.

(** Ownership depends on the held descriptors only. *)
Lemma owned_proper base st st' k k' :
  (∀ x fd, holds st' x fd ↔ holds st x fd) → live k' = live k → bad_close k' = bad_close k →
  owned base st k → owned base st' k'.
Proof.
  intros Hh El Eb (H1 & H2 & H3 & H4). split_and!; [congruence| |intros x fd|intros x y fd].
  - intros fd. rewrite El, H2. by setoid_rewrite Hh.
  - rewrite Hh. apply H3.
  - rewrite !Hh. apply H4.
Qed.

(** An object that holds nothing changes nothing. *)
Lemma owned_empty base st k x o : (∀ fd, ¬ holds st x fd) → fd_of o < 0 → owned base st k → owned base (<[x := o]> st) k.
Proof.
  intros Hx Ho. apply owned_proper; [|done|done]. intros y fd. rewrite holds_insert. split; [intros [?|?]; [lia|tauto]|].
  intros Hy. right. split; [|done]. intros ->. by apply (Hx fd).
Qed.

Lemma owned_add base st k k' x o :
  st !! x = None → 0 ≤ fd_of o → fd_of o ∉ live k → live k' = {[fd_of o]} ∪ live k → bad_close k' = bad_close k →
  owned base st k → owned base (<[x := o]> st) k'.
Proof.
  intros Hx Ho Hn El Eb (H1 & H2 & H3 & H4). rewrite H2 in Hn. split_and!; [congruence| |intros y fd|intros y z fd].
  - intros fd. rewrite El, elem_of_union, elem_of_singleton, H2. setoid_rewrite holds_insert. split.
    + intros [->|[?|[y Hy]]]; [right; exists x; auto|auto|right; exists y]. right. split; [|done]. intros ->. by apply holds_None in Hy.
    + intros [?|[y [(-> & <- & _)|[_ Hy]]]]; eauto.
  - rewrite holds_insert. intros [(-> & <- & _)|[_ Hy]]; [tauto|eauto].
  - rewrite !holds_insert. intros [(-> & E & _)|[? Hy]] [(-> & E' & _)|[? Hz]]; subst; eauto; exfalso; eauto.
Qed.

Lemma obj_destroy_eq o k : obj_destroy o k = if 0 <=? fd_of o then close (fd_of o) k else k.
Proof. destruct o as [s| |]; [|done|done]. simpl. unfold destroy, close_. by destruct (0 <=? fd_ s). Qed.

(** An object's end: the descriptor it holds is closed. *)
Lemma owned_destroy base st k x o : st !! x = Some o → owned base st k → owned base (delete x st) (obj_destroy o k).
Proof.
  intros Hx Hown. rewrite obj_destroy_eq. destruct (Z.leb_spec 0 (fd_of o)) as [Hp|Hp].
  - destruct Hown as (H1 & H2 & H3 & H4). assert (Hh : holds st x (fd_of o)) by (exists o; auto).
    assert (Hl : fd_of o ∈ live k) by (apply H2; eauto). unfold close. rewrite decide_True by done.
    split_and!; simpl; [done| |intros y fd|intros y z fd].
    + intros fd. rewrite elem_of_difference, elem_of_singleton, H2. setoid_rewrite holds_delete. split.
      * intros [[?|[y Hy]] Hne]; [auto|]. right. exists y. split; [|done]. intros ->. destruct Hy as (o' & E & ? & ?). congruence.
      * intros [Hb|[y [Hy Hz]]]; (split; [eauto|intros ->]); [by apply (H3 x (fd_of o))|eauto].
    + rewrite holds_delete. intros [_ Hy]. eauto.
    + rewrite !holds_delete. intros [_ Hy] [_ Hz]. eauto.
  - revert Hown. apply owned_proper; [|done|done]. intros y fd. rewrite holds_delete. split; [tauto|]. intros Hy. split; [|done].
    intros ->. destruct Hy as (o' & E & ? & ?). assert (o' = o) by congruence. subst. lia.
Qed.

(** A descriptor handed from one object to another. *)
Lemma owned_transfer base st k x y o n :
  st !! x = Some o → st !! y = None → fd_of n = fd_of o → owned base st k → owned base (<[y := n]> (delete x st)) k.
Proof.
  intros Hx Hy En (H1 & H2 & H3 & H4).
  assert (Hh : ∀ z fd, holds (<[y := n]> (delete x st)) z fd ↔ (z = y ∧ holds st x fd) ∨ (z ≠ y ∧ z ≠ x ∧ holds st z fd)).
  { intros z fd. rewrite holds_insert, holds_delete. assert (holds st x fd ↔ fd_of n = fd ∧ 0 ≤ fd); [|naive_solver].
    unfold holds. rewrite Hx. naive_solver. }
  split_and!; [done| |intros z fd|intros z w fd].
  - intros fd. rewrite H2. setoid_rewrite Hh. split; [|naive_solver].
    intros [?|[z Hz]]; [auto|right]. destruct (decide (z = x)) as [->|]; [by exists y; auto|]. exists z. right.
    split; [|done]. intros ->. by apply holds_None in Hz.
  - rewrite Hh. naive_solver.
  - rewrite !Hh. naive_solver.
Qed.

(** * Programs *)

Section Programs.

Context (pick : gset Z → Z) `{!Allocator pick} (base : gset Z).

Lemma owned_construct {A} (fd : A → Z) (wrap : A → obj) x st k (r : result A * kernel) s :
  (∀ a, fd_of (wrap a) = fd a) → acquires fd k r → owned base st k → construct x wrap st r = Some s → owned base s.1 s.2.
Proof.
  unfold acquires, construct. intros Hw [Hb Hr] Hown. destruct (st !! x) eqn:Hx; [done|]. destruct r as [[what|a] k']; simpl in *.
  - intros [= <-]. simpl. revert Hown. by apply owned_proper.
  - intros [= <-]. simpl. destruct Hr as (H1 & H2 & H3). rewrite <- Hw in *. by apply (owned_add _ _ k).
Qed.

Lemma owned_move st k x y o junk :
  st !! x = Some (OLine o) → st !! y = None → owned base st k →
  owned base (<[y := OLine (move_construct junk o).1]> (<[x := OLine (move_construct junk o).2]> st)) k.
Proof.
  intros Hx Hy Hown. assert (x ≠ y) by congruence. rewrite <- (insert_delete_eq st x), insert_insert_ne by done.
  apply owned_empty; [|done|by eapply owned_transfer]. intros fd. rewrite holds_insert, holds_delete. naive_solver.
Qed.

Lemma owned_assign st k x y self o junk s :
  st !! x = Some (OLine self) → st !! y = Some (OLine o) → x ≠ y → move_assign junk self o k = s → owned base st k →
  owned base (<[y := OLine s.1.2]> (<[x := OLine s.1.1]> st)) s.2.
Proof.
  intros Hx Hy Hxy <- Hown. apply (owned_destroy _ _ _ x (OLine self)) in Hown; [|done]. unfold move_assign. simpl in *.
  unfold destroy in Hown. destruct (close_ self k) as [self' k']. simpl in *.
  rewrite <- (insert_delete_eq st x), insert_insert_ne by done. rewrite <- (insert_delete_eq (delete x st) y).
  rewrite insert_insert_ne by done. apply owned_empty; [|done|].
  - intros fd. rewrite holds_insert, !holds_delete. naive_solver.
  - eapply owned_transfer; [by rewrite lookup_delete_ne|by rewrite lookup_delete_eq|done|done].
Qed.

Lemma owned_exec c st k s : exec pick c (st, k) = Some s → owned base st k → owned base s.1 s.2.
Proof.
  intros He Hown. destruct c as [x|x host|x port|l x|x y junk|x y junk|x|x port'|x]; simpl in He.
  - unfold construct in He. destruct (st !! x) eqn:Hx; [done|]. simplify_eq. apply owned_empty; [|done|done]. intros fd. by apply holds_None.
  - by eapply (owned_construct fd_ OLine); [|apply (connect_acquires pick)| |].
  - by eapply (owned_construct l_fd OListener); [|apply (listener_acquires pick)| |].
  - destruct (st !! l) as [[]|]; try done. by eapply (owned_construct fd_ OLine); [|apply (accept_acquires pick)| |].
  - destruct (st !! x) as [[o| |]|] eqn:Hx; try done. destruct (st !! y) eqn:Hy; [done|]. simplify_eq. by apply (owned_move _ _ x y o junk).
  - destruct (st !! x) as [[self| |]|] eqn:Hx; try done. destruct (st !! y) as [[o| |]|] eqn:Hy; try done.
    destruct (decide (x = y)); [by simplify_eq|]. pose proof (owned_assign st k x y self o junk _ Hx Hy ltac:(done) eq_refl Hown) as H.
    destruct (move_assign junk self o k) as [[s1 s2] k']. by simplify_eq.
  - by eapply (owned_construct id OUdp); [|apply (udp_acquires pick)| |].
  - destruct (st !! x) as [[]|]; try done. destruct (bind_keeps port' k) as [? ?]. simplify_eq. simpl. revert Hown. by apply owned_proper.
  - destruct (st !! x) as [o|] eqn:Hx; [|done]. simplify_eq. by apply owned_destroy.
Qed.

Lemma owned_exec_all cs st k s : exec_all pick cs (st, k) = Some s → owned base st k → owned base s.1 s.2.
Proof.
  revert st k. induction cs as [|c cs IH]; intros st k; cbn [exec_all]; [by intros [= <-]|].
  destruct (exec pick c (st, k)) as [[st1 k1]|] eqn:E; [|done]. cbn [mbind option_bind]. intros Hs Hown. apply (IH st1 k1); [done|]. by apply owned_exec in E.
Qed.

End Programs.

(** C21: whatever a program does with line sockets, listeners and UDP sockets (connecting,
    accepting, moving, assigning, destroying them, in any order and with any system call
    failing), a descriptor is closed once and by its one owner: no close hits a descriptor that
    is not open, the open descriptors are those open before and those an object holds, no two
    objects hold the same one, and when every object is gone nothing has leaked and nothing of
    the rest of the process was closed. *)
Theorem descriptors_owned (pick : gset Z → Z) (cs : list cmd) (base : gset Z) (script : list bool) (names : list Z) st k :
  Allocator pick → exec_all pick cs (∅, mkKernel base false script names) = Some (st, k) →
  bad_close k = false ∧
  (∀ fd, fd ∈ live k ↔ fd ∈ base ∨ ∃ x, holds st x fd) ∧
  (∀ x y fd, holds st x fd → holds st y fd → x = y) ∧
  (st = ∅ → live k = base).
Proof.
  intros Ha He. apply (owned_exec_all pick base) in He.
  - destruct He as (H1 & H2 & _ & H4). split_and!; [done|done|done|]. intros ->. apply set_eq. intros fd. simpl in H2. rewrite H2.
    split; [|auto]. intros [?|[x Hx]]; [done|]. by apply holds_None in Hx; [|apply lookup_empty].
  - assert (Hn : ∀ x fd, ¬ holds ∅ x fd) by (intros x fd; apply holds_None, lookup_empty).
    split_and!; simpl; [done| |intros x fd Hx; by apply Hn in Hx|intros x y fd Hx; by apply Hn in Hx].
    intros fd. split; [auto|]. intros [?|[x Hx]]; [done|by apply Hn in Hx].
Qed.

(** A session with a refused connection, an accepted one that is moved and assigned over, and
    the end of every object. *)

Definition demo_cmds : list cmd :=
  [Listen 0 0; Connect 1 (lit "127.0.0.1"); Accept 0 2; NewLine 3; MoveTo 2 4 []; Assign 3 4 []; Connect 5 (lit "::1"); Assign 3 5 [];
   Destroy 3; Destroy 4; Destroy 2; Destroy 5; Destroy 0].

Definition demo_fails : list bool := [false; false; false; false; false; false; true].

Lemma descriptors_owned_witness :
  ∃ k, exec_all lowest_free demo_cmds (∅, mkKernel {[0; 1; 2]} false demo_fails [0x901F]) = Some (∅, k) ∧ live k = {[0; 1; 2]}.
Proof.
  assert (E : exec_all lowest_free demo_cmds (∅, mkKernel {[0; 1; 2]} false demo_fails [0x901F])
    = Some (∅, mkKernel {[0; 1; 2]} false [] [])) by (vm_compute; reflexivity).
  exists (mkKernel {[0; 1; 2]} false [] []). split; [exact E|].
  exact (proj2 (proj2 (proj2 (descriptors_owned lowest_free demo_cmds {[0; 1; 2]} demo_fails [0x901F] _ _
    lowest_free_allocator E))) eq_refl).
Defined.

(** * Options and addresses *)

(** A timeout becomes a normalised [timeval] of the same length. *)
Lemma timeval_of_spec ms : 0 ≤ ms → let '(s, us) := timeval_of ms in 0 ≤ us < 1000000 ∧ s * 1000000 + us = ms * 1000.
Proof.
  intros H. cbn [timeval_of]. rewrite (Z.quot_div_nonneg ms 1000), (Z.rem_mod_nonneg ms 1000) by lia.
  pose proof (Z.mod_pos_bound ms 1000). pose proof (Z.div_mod ms 1000). lia.
Qed.

Lemma timeout_expires expires `{!RecvTimeout expires} ms : 0 < ms → expires (timeval_of ms) = true.
Proof.
  intros Hms. pose proof (timeval_of_spec ms ltac:(lia)) as Ht. destruct (timeval_of ms) as [sec usec].
  apply positive_expires; lia.
Qed.

(** The port passed through [htons] comes back from [ntohs]. *)
Lemma bswap16_eq x : 0 ≤ x < 65536 → bswap16 x = (x mod 256) * 256 + x / 256.
Proof.
  intros H. pose proof (Z.div_mod x 256 ltac:(lia)). pose proof (Z.mod_pos_bound x 256 ltac:(lia)).
  unfold bswap16. rewrite Z.shiftr_div_pow2 by lia. change (2 ^ 8) with 256.
  rewrite lor_shift8 by (unfold byte_ok; lia). unfold u16, wrap. change (2 ^ 16) with 65536.
  replace (x * 256 + x / 256) with (x mod 256 * 256 + x / 256 + x / 256 * 65536) by lia.
  rewrite Z.mod_add by lia. apply Z.mod_small. lia.
Qed.

Lemma bswap16_involutive x : 0 ≤ x < 65536 → bswap16 (bswap16 x) = x.
Proof.
  intros H. pose proof (Z.div_mod x 256 ltac:(lia)). pose proof (Z.mod_pos_bound x 256 ltac:(lia)).
  rewrite (bswap16_eq x) by lia. rewrite bswap16_eq by lia.
  rewrite Z.div_add_l by lia. rewrite (Z.add_comm (x mod 256 * 256) (x / 256)), Z.mod_add by lia.
  rewrite (Z.div_small (x / 256)), (Z.mod_small (x / 256)) by lia. lia.
Qed.

Lemma bswap16_range x : 0 ≤ bswap16 x < 65536.
Proof. apply u16_range. Qed.

Lemma getsockname_bound bound k : bound ≠ 0 → (getsockname bound k).1 = Some bound ∨ (getsockname bound k).1 = None.
Proof.
  intros Hb. unfold getsockname. destruct (try_call k) as [[] k']; [|by right]. destruct (Z.eqb_spec bound 0); [done|by left].
Qed.

(** A port asked for is the port reported, unless the name cannot be read. *)
Lemma listener_port pick port k l k' :
  0 < port < 65536 → make_listener pick port k = (Return l, k') → port_ l = port ∨ port_ l = 0.
Proof.
  intros Hp. pose proof (bswap16_involutive port ltac:(lia)) as Ei.
  assert (Hb : bswap16 port ≠ 0) by (intros E; rewrite E in Ei; vm_compute in Ei; lia).
  unfold make_listener. destruct (new_fd pick k) as [fd k1]. destruct (fd <? 0); [done|]. destruct (try_call k1) as [[] k2]; [|done].
  destruct (try_call k2) as [[] k3]; [|done]. cbn [negb]. destruct (getsockname_bound (bswap16 port) k3 Hb) as [E|E];
    destruct (getsockname (bswap16 port) k3) as [name k4]; simpl in E; subst name; intros [= <- _]; cbn [port_]; auto.
Qed.
