(* ===== verification/Json.v ===== *)
(** The flat JSON text of the MetaTrader bridge (include/mt5/protocol.hpp, lines 57-154):
    [value_pos], escaping and the four field readers, translated with their loops; then the
    objects the encoders write, as lists of typed fields, and the proof that on the text of
    such an object each reader returns the field of the object it is asked for, whatever the
    strings in it contain.  ["%.10g"] and [strtod] are the class [DoubleText],
    with an instance for binary64 in [Printf]. *)
From stdpp Require Import strings.
From S2P Require Export Text.

#[local] Open Scope list_scope.
#[local] Open Scope Z_scope.

(** * Reading fields *)

(** The [double] 0.0 and the two conversions between a [double] and text.  [strtod] returns the
    value and the text at its end pointer, [None] when it converted nothing. *)

Class DoubleText (D : Type) := {
  dbl_zero : D;
  fmt_double : D → list Z;
  strtod : list Z → option (D * list Z);
}.

(** [std::string::find(pat, from)]. *)

Fixpoint search (pat s : list Z) (k : nat) : option nat :=
  if decide (take (length pat) s = pat) then Some k
  else match s with [] => None | _ :: s => search pat s (S k) end.

Definition find_str (pat s : list Z) (from : nat) : option nat := search pat (drop from s) from.

Definition is_blank (c : Z) : bool := (c =? 32) || (c =? 9).

(** [i < s.size() && s[i] == c]. *)

Definition char_is (s : list Z) (i : nat) (c : Z) : bool :=
  match s !! i with Some x => x =? c | None => false end.

(** [while (p > 0 && blank(s[p - 1])) --p]. *)

Fixpoint back_blanks (s : list Z) (p : nat) : nat :=
  match p with
  | O => O
  | S q => if char_is s q 32 || char_is s q 9 then back_blanks s q else p
  end.

Fixpoint blanks (s : list Z) : nat :=
  match s with
  | c :: s => if is_blank c then S (blanks s) else O
  | [] => O
  end.

(** [while (c < s.size() && blank(s[c])) ++c]. *)

Definition skip_blanks (s : list Z) (c : nat) : nat := (c + blanks (drop c s))%nat.

Fixpoint value_pos_loop (fuel : nat) (s pat : list Z) (from : nat) : option nat :=
  match fuel with
  | O => None
  | S fuel =>
      match find_str pat s from with
      | None => None
      | Some k =>
          let p := back_blanks s k in
          let at_key := bool_decide (p = 0%nat) || char_is s (p - 1) 123 || char_is s (p - 1) 44 in
          let c := skip_blanks s (k + length pat) in
          if at_key && char_is s c 58 then Some (skip_blanks s (c + 1))
          else value_pos_loop fuel s pat (k + 1)
      end
  end.

(** [from] grows in every round, so a round per character is enough. *)

Definition value_pos (s key : list Z) : option nat :=
  value_pos_loop (S (length s)) s (34 :: key ++ [34]) 0.

Fixpoint esc (s : list Z) : list Z :=
  match s with
  | [] => []
  | c :: s =>
      (if (c =? 34) || (c =? 92) then [92; c]
       else if c =? 10 then [92; 110]
       else if c =? 9 then [92; 116]
       else [c]) ++ esc s
  end.

(** The loop of [json_get_str] behind the opening quote. *)

Fixpoint read_str (s r : list Z) : option (list Z) :=
  match s with
  | [] => None
  | ch :: s1 =>
      if ch =? 92 then
        match s1 with
        | nx :: s2 =>
            if (nx =? 34) || (nx =? 92) || (nx =? 47) then read_str s2 (r ++ [nx])
            else if nx =? 110 then read_str s2 (r ++ [10])
            else if nx =? 116 then read_str s2 (r ++ [9])
            else read_str s1 (r ++ [ch])
        | [] => read_str s1 (r ++ [ch])
        end
      else if ch =? 34 then Some r else read_str s1 (r ++ [ch])
  end.

Definition json_get_str (s key : list Z) : option (list Z) :=
  i ← value_pos s key;
  match drop i s with
  | c :: s => if c =? 34 then read_str s [] else None
  | [] => None
  end.

(** [strtoll] in base 10: blanks, a sign, digits; the value saturates at the ends of
    [long long].  The text at the end pointer is returned too. *)

Fixpoint skip_digits (s : list Z) : list Z :=
  match s with
  | c :: s' => if is_digit c then skip_digits s' else s
  | [] => []
  end.

Definition clamp64 (v : Z) : Z := Z.max (- 2 ^ 63) (Z.min (2 ^ 63 - 1) v).

Definition strtoll (s : list Z) : option (Z * list Z) :=
  let s1 := skip_space s in
  let '(neg, s2) :=
    match s1 with
    | c :: s' => if c =? 45 then (true, s') else if c =? 43 then (false, s') else (false, s1)
    | [] => (false, [])
    end in
  match s2 with
  | c :: _ =>
      if is_digit c then
        let v := dec_value s2 0 in Some (clamp64 (if neg : bool then - v else v), skip_digits s2)
      else None
  | [] => None
  end.

Definition json_get_int (s key : list Z) : option Z :=
  i ← value_pos s key; fst <$> strtoll (drop i s).

Definition json_get_double {D} `{DoubleText D} (s key : list Z) : option D :=
  i ← value_pos s key; fst <$> strtod (drop i s).

Definition starts_with (pat s : list Z) : bool := bool_decide (take (length pat) s = pat).

Definition json_get_bool (s key : list Z) : option bool :=
  i ← value_pos s key;
  if starts_with (lit "true") (drop i s) then Some true
  else if starts_with (lit "false") (drop i s) then Some false
  else None.

(** * [value_pos] as one pass over the text

    [scan] looks at every position once: the text before it, reversed, and the text from it
    on.  It returns the text at the value. *)

Definition drop_blanks (s : list Z) : list Z := drop (blanks s) s.

Definition key_place (before : list Z) : bool :=
  match drop_blanks before with [] => true | c :: _ => (c =? 123) || (c =? 44) end.

Definition colon_next (s : list Z) : bool :=
  match drop_blanks s with c :: _ => c =? 58 | [] => false end.

Definition hit (pat before s : list Z) : bool :=
  starts_with pat s && key_place before && colon_next (drop (length pat) s).

Fixpoint scan (pat before s : list Z) : option (list Z) :=
  if hit pat before s then Some (drop_blanks (drop 1 (drop_blanks (drop (length pat) s))))
  else match s with [] => None | c :: s => scan pat (c :: before) s end.

Lemma back_blanks_take s p :
  (p ≤ length s)%nat → drop_blanks (rev (take p s)) = rev (take (back_blanks s p) s).
Proof.
  induction p as [|p IH]; intros Hp; [done|]. cbn [back_blanks].
  destruct (lookup_lt_is_Some_2 s p) as [c Hc]; [lia|].
  rewrite (take_S_r _ _ c Hc), rev_app_distr. simpl. unfold drop_blanks, char_is in *. rewrite Hc. simpl.
  unfold is_blank. destruct ((c =? 32) || (c =? 9)) eqn:E; simpl; [apply IH; lia|].
  by rewrite (take_S_r _ _ c Hc), rev_app_distr.
Qed.

Lemma back_blanks_le s p : (back_blanks s p ≤ p)%nat.
Proof. induction p as [|p IH]; simpl; [done|]. destruct (_ || _); lia. Qed.

Lemma key_place_back s k :
  (k ≤ length s)%nat →
  let p := back_blanks s k in
  bool_decide (p = 0%nat) || char_is s (p - 1) 123 || char_is s (p - 1) 44 = key_place (rev (take k s)).
Proof.
  intros Hk p. unfold key_place. rewrite back_blanks_take by done. fold p.
  pose proof (back_blanks_le s k) as Hp. fold p in Hp. destruct p as [|p]; [done|].
  destruct (lookup_lt_is_Some_2 s p) as [c Hc]; [lia|].
  rewrite (take_S_r _ _ c Hc), rev_app_distr. simpl. unfold char_is. rewrite Nat.sub_0_r, Hc. done.
Qed.

Lemma skip_blanks_drop s c : drop (skip_blanks s c) s = drop_blanks (drop c s).
Proof. unfold skip_blanks, drop_blanks. by rewrite drop_drop. Qed.

Lemma char_is_drop s i c : char_is s i c = match drop i s with x :: _ => x =? c | [] => false end.
Proof.
  unfold char_is. replace (s !! i) with (drop i s !! 0%nat) by (by rewrite lookup_drop, Nat.add_0_r).
  by destruct (drop i s).
Qed.

Lemma scan_unmatched pat before s :
  starts_with pat s = false →
  scan pat before s = match s with [] => None | c :: s => scan pat (c :: before) s end.
Proof. intros H. destruct s; simpl; unfold hit; by rewrite H. Qed.

Lemma scan_hit pat before s :
  hit pat before s = true →
  scan pat before s = Some (drop_blanks (drop 1 (drop_blanks (drop (length pat) s)))).
Proof. intros Hh. destruct s; cbn [scan]; by rewrite Hh. Qed.

(** [find] skips only positions [scan] rejects. *)
Lemma scan_search pat before s k :
  match search pat s k with
  | Some j => ∃ n, j = (k + n)%nat ∧ (n ≤ length s)%nat ∧ starts_with pat (drop n s) = true
      ∧ scan pat before s = scan pat (rev (take n s) ++ before) (drop n s)
  | None => scan pat before s = None
  end.
Proof.
  revert before k. induction s as [|c s IH]; intros before k; cbn [search]; destruct (decide _) as [Hm|Hm].
  - exists 0%nat. simpl. split; [lia|]. split; [lia|]. split; [by apply bool_decide_eq_true_2|done].
  - rewrite scan_unmatched; [done|by apply bool_decide_eq_false_2].
  - exists 0%nat. simpl. split; [lia|]. split; [lia|]. split; [by apply bool_decide_eq_true_2|done].
  - rewrite scan_unmatched by (by apply bool_decide_eq_false_2). specialize (IH (c :: before) (S k)).
    destruct (search pat s (S k)) as [j|]; [|done]. destruct IH as (n & -> & Hn & Hs & Hscan).
    exists (S n). split; [lia|]. simpl. split; [lia|]. split; [done|]. by rewrite <- app_assoc.
Qed.

Lemma value_pos_loop_scan fuel s pat from :
  pat ≠ [] → (from ≤ length s)%nat → (length s - from < fuel)%nat →
  (λ i, drop i s) <$> value_pos_loop fuel s pat from = scan pat (rev (take from s)) (drop from s).
Proof.
  intros Hpat. revert from. induction fuel as [|fuel IH]; intros from Hf Hfuel; [lia|].
  cbn [value_pos_loop]. unfold find_str.
  pose proof (scan_search pat (rev (take from s)) (drop from s) from) as Hs.
  destruct (search pat (drop from s) from) as [k|]; [|done].
  destruct Hs as (n & -> & Hn & Hst & ->). rewrite length_drop in Hn. rewrite drop_drop in Hst |- *.
  rewrite <- rev_app_distr, take_take_drop in *. rewrite key_place_back by lia.
  rewrite char_is_drop, skip_blanks_drop.
  assert (Hlt : (from + n < length s)%nat).
  { apply bool_decide_eq_true_1 in Hst. destruct pat as [|q pat]; [done|].
    destruct (drop (from + n) s) eqn:E; [done|]. apply (f_equal length) in E. rewrite length_drop in E. simpl in E. lia. }
  destruct (lookup_lt_is_Some_2 s (from + n)) as [x Hx]; [done|].
  assert (Hscan : scan pat (rev (take (from + n) s)) (drop (from + n) s) =
    if key_place (rev (take (from + n) s)) && colon_next (drop (from + n + length pat) s)
    then Some (drop_blanks (drop 1 (drop_blanks (drop (from + n + length pat) s))))
    else scan pat (rev (take (from + n + 1) s)) (drop (from + n + 1) s)).
  { rewrite (drop_S _ _ _ Hx) in Hst |- *. cbn [scan]. unfold hit. rewrite Hst. cbn [andb].
    rewrite <- (drop_S _ _ _ Hx), drop_drop, Nat.add_1_r, (take_S_r _ _ _ Hx), rev_app_distr. done. }
  rewrite Hscan. fold (colon_next (drop (from + n + length pat) s)).
  destruct (_ && _); [|apply IH; lia]. simpl. f_equal.
  rewrite skip_blanks_drop, <- drop_drop, skip_blanks_drop. done.
Qed.

(** The loop of [value_pos], which restarts [find] behind every false match, is the single
    pass, and the fuel is enough. *)
Lemma value_pos_scan s key : (λ i, drop i s) <$> value_pos s key = scan (34 :: key ++ [34]) [] s.
Proof. unfold value_pos. rewrite value_pos_loop_scan; [done|done|lia|lia]. Qed.

(** * Objects

    What the encoders write: an object is a list of named values; a double is written with
    ["%.10g"], an integer with [std::to_string], a ladder as an array of pairs. *)

Section Objects.
Context {D : Type} `{DoubleText D}.

Inductive JVal : Type :=
  | JStr (s : list Z)
  | JInt (z : Z)
  | JBool (b : bool)
  | JNum (d : D)
  | JLadder (l : list (Z * Z)).

Definition pair_text (pq : Z * Z) : list Z :=
  lit "[" ++ to_string pq.1 ++ lit "," ++ to_string pq.2 ++ lit "]".

Definition ladder_text (l : list (Z * Z)) : list Z :=
  lit "[" ++ match l with
             | [] => []
             | x :: l => pair_text x ++ concat ((λ y, lit "," ++ pair_text y) <$> l)
             end ++ lit "]".

Definition text_of (v : JVal) : list Z :=
  match v with
  | JStr s => 34 :: esc s ++ [34]
  | JInt z => to_string z
  | JBool b => lit (if b then "true" else "false")
  | JNum d => fmt_double d
  | JLadder l => ladder_text l
  end.

Definition field_json (f : string * JVal) : list Z := 34 :: lit f.1 ++ [34; 58] ++ text_of f.2.

Definition fields_json (fs : list (string * JVal)) : list Z := concat ((λ g, 44 :: field_json g) <$> fs).

(** The object, and [tail], the newline or nothing, behind it. *)

Definition render (tail : list Z) (fs : list (string * JVal)) : list Z :=
  123 :: drop 1 (fields_json fs) ++ 125 :: tail.

Fixpoint field (k : string) (fs : list (string * JVal)) : option JVal :=
  match fs with
  | [] => None
  | (k', v) :: fs => if decide (k' = k) then Some v else field k fs
  end.

(** Keys are words: letters, digits and underscores. *)

Definition word_char (c : Z) : bool :=
  is_digit c || ((97 <=? c) && (c <=? 122)) || ((65 <=? c) && (c <=? 90)) || (c =? 95).

Definition word (k : string) : bool := negb (bool_decide (lit k = [])) && forallb word_char (lit k).

Definition words (fs : list (string * JVal)) : bool := forallb (λ f, word f.1) fs.

End Objects.

Arguments JVal D : clear implicits.

(** What the readers rely on: a printed double has no quote and no newline and does not start
    with a blank, and [strtod] reads it up to the comma or brace behind it; [round10] is the double
    that comes back. *)

Class DoubleTextLaws (D : Type) `{DoubleText D} := {
  round10 : D → D;
  fmt_no_quote d : 34 ∉ fmt_double d;
  fmt_no_newline d : 10 ∉ fmt_double d;
  fmt_starts d : ∃ c s, fmt_double d = c :: s ∧ is_blank c = false;
  strtod_fmt d c s : c = 44 ∨ c = 125 → strtod (fmt_double d ++ c :: s) = Some (round10 d, c :: s);
}.

(** * The readers on objects *)

Definition ends_value (c : Z) : Prop := c = 44 ∨ c = 125.

Lemma lit_inj a b : lit a = lit b → a = b.
Proof.
  revert b. induction a as [|x a IH]; intros [|y b] E; try done. simpl in E. injection E as Hc Hs.
  apply N2Z.inj in Hc. apply (f_equal Ascii.ascii_of_N) in Hc. rewrite !Ascii.ascii_N_embedding in Hc.
  by rewrite Hc, (IH _ Hs).
Qed.

Lemma word_inv k : word k = true → ∃ c s, lit k = c :: s ∧ Forall (λ c, word_char c = true) (c :: s).
Proof.
  unfold word. intros [H1 H2]%andb_prop. destruct (lit k) as [|c s]; [done|]. exists c, s. split; [done|].
  rewrite Forall_forall. rewrite forallb_forall in H2. intros x Hx. apply H2. by apply list_elem_of_In.
Qed.

Lemma word_no_quote k : word k = true → 34 ∉ lit k.
Proof.
  intros (c & s & -> & Hf)%word_inv Hin. rewrite Forall_forall in Hf. by specialize (Hf _ Hin).
Qed.

(** A quote is passed when the pattern does not continue, or when no key can stand there. *)
Lemma scan_plain k before s rest :
  34 ∉ s → scan (34 :: k) before (s ++ rest) = scan (34 :: k) (rev s ++ before) rest.
Proof.
  revert before. induction s as [|c s IH]; intros before Hn; [done|].
  apply not_elem_of_cons in Hn as [Hc Hs]. cbn [app]. rewrite scan_unmatched.
  - rewrite IH by done. simpl. by rewrite <- app_assoc.
  - apply bool_decide_eq_false_2. simpl. congruence.
Qed.

Lemma scan_no_place k c before s :
  is_blank c = false → c ≠ 123 → c ≠ 44 →
  scan (34 :: k) (c :: before) (34 :: s) = scan (34 :: k) (34 :: c :: before) s.
Proof.
  intros Hb H1 H2. cbn [scan]. unfold hit. replace (key_place (c :: before)) with false; [by rewrite andb_false_r|].
  unfold key_place, drop_blanks. simpl. rewrite Hb. simpl. symmetry. apply orb_false_intro; by apply Z.eqb_neq.
Qed.

Lemma scan_mismatch k x before c s :
  x ≠ c → scan (34 :: x :: k) before (34 :: c :: s) = scan (34 :: x :: k) (34 :: before) (c :: s).
Proof.
  intros Hx. rewrite (scan_unmatched _ _ (34 :: c :: s)); [done|]. apply bool_decide_eq_false_2. simpl. congruence.
Qed.

Lemma scan_esc k before s rest :
  scan (34 :: k) before (esc s ++ rest) = scan (34 :: k) (rev (esc s) ++ before) rest.
Proof.
  revert before. induction s as [|c s IH]; intros before; [done|]. cbn [esc]. rewrite <- !app_assoc, rev_app_distr, <- app_assoc, <- IH.
  destruct ((c =? 34) || (c =? 92)) eqn:E1.
  - apply orb_prop in E1 as [->%Z.eqb_eq| ->%Z.eqb_eq].
    + change ([92; 34] ++ esc s ++ rest) with ([92] ++ 34 :: esc s ++ rest). rewrite scan_plain by set_solver.
      simpl rev. cbn [app]. by rewrite scan_no_place.
    + apply scan_plain. set_solver.
  - apply orb_false_elim in E1 as [H1%Z.eqb_neq H2].
    destruct (c =? 10); [|destruct (c =? 9)]; apply scan_plain; set_solver.
Qed.

Lemma dec_loop_nonempty fuel n acc : fuel ≠ O ∨ acc ≠ [] → dec_loop fuel n acc ≠ [].
Proof.
  revert n acc. induction fuel as [|fuel IH]; intros n acc Hf; cbn [dec_loop]; [by destruct Hf|].
  destruct (n <? 10); [done|]. apply IH. by right.
Qed.

Lemma to_string_nonempty z : to_string z ≠ [].
Proof. unfold to_string. destruct (z <? 0); [done|]. apply dec_loop_nonempty. by left. Qed.

(** Printed integers in front of a character that is no digit. *)

Lemma digits_end ds v c rest :
  Forall (λ c, is_digit c = true) ds → is_digit c = false →
  dec_value (ds ++ c :: rest) v = dec_value ds v ∧ skip_digits (ds ++ c :: rest) = c :: rest.
Proof.
  intros Hf Hc. revert v. induction Hf as [|d ds Hd _ IH]; intros v; simpl; [by rewrite Hc|]. by rewrite Hd.
Qed.

Lemma strtoll_digits ds c rest :
  Forall (λ c, is_digit c = true) ds → ds ≠ [] → is_digit c = false →
  strtoll (ds ++ c :: rest) = Some (clamp64 (dec_value ds 0), c :: rest).
Proof.
  intros Hf Hne Hc. destruct (digits_end ds 0 c rest Hf Hc) as [Ev Es]. destruct ds as [|d ds]; [done|].
  apply Forall_cons in Hf as [Hd _]. unfold strtoll. cbn [app] in *. cbn [skip_space].
  assert (is_space d = false ∧ (d =? 45) = false ∧ (d =? 43) = false) as (-> & E1 & E2)
    by (unfold is_digit, is_space in *; lia).
  rewrite E1, E2, Hd. by rewrite Ev, Es.
Qed.

Lemma strtoll_to_string z c rest :
  is_digit c = false → strtoll (to_string z ++ c :: rest) = Some (clamp64 z, c :: rest).
Proof.
  intros Hc. unfold to_string. destruct (Z.ltb_spec z 0) as [Hz|Hz].
  - assert (Hne : dec_digits (- z) ≠ []) by (apply dec_loop_nonempty; by left).
    pose proof (dec_digits_ok (- z) ltac:(lia)) as Hf. pose proof (dec_digits_value (- z) ltac:(lia)) as Ev.
    destruct (digits_end _ 0 c rest Hf Hc) as [Ev' Es]. destruct (dec_digits (- z)) as [|d ds]; [done|].
    apply Forall_cons in Hf as [Hd _]. unfold strtoll. cbn [app skip_space] in *. cbn [is_space Z.eqb Z.leb Z.compare andb orb Pos.eqb Pos.compare Pos.compare_cont].
    rewrite Hd, Ev', Es, Ev. by rewrite Z.opp_involutive.
  - rewrite strtoll_digits; [by rewrite dec_digits_value|by apply dec_digits_ok|apply dec_loop_nonempty; by left|done].
Qed.

Lemma clamp64_id z : - 2 ^ 63 ≤ z < 2 ^ 63 → clamp64 z = z.
Proof. unfold clamp64. lia. Qed.

Lemma ends_value_no_digit c : ends_value c → is_digit c = false.
Proof. by intros [->| ->]. Qed.

Section Lookup.
Context {D : Type} `{DoubleTextLaws D}.
Context (tail : list Z) (tail_no_quote : 34 ∉ tail).
Implicit Types (v : JVal D) (fs : list (string * JVal D)).

Lemma to_string_no_quote z : 34 ∉ to_string z.
Proof. intros [?|?]%to_string_chars; done. Qed.

Lemma pair_no_quote (pq : Z * Z) : 34 ∉ pair_text pq.
Proof. unfold pair_text. pose proof (to_string_no_quote pq.1). pose proof (to_string_no_quote pq.2). set_solver. Qed.

Lemma ladder_no_quote l : 34 ∉ ladder_text l.
Proof.
  unfold ladder_text. destruct l as [|x l]; [set_solver|].
  assert (34 ∉ concat ((λ y, lit "," ++ pair_text y) <$> l)).
  { induction l as [|y l IH]; [set_solver|]. cbn. pose proof (pair_no_quote y). set_solver. }
  pose proof (pair_no_quote x). set_solver.
Qed.

Lemma text_cases v :
  (∃ s, v = JStr s) ∨ ((34 ∉ text_of v) ∧ ∃ c s, text_of v = c :: s ∧ is_blank c = false).
Proof.
  destruct v as [s|z|b|d|l]; [left; by exists s|right..].
  - split; [apply to_string_no_quote|]. simpl. destruct (to_string z) as [|c s] eqn:E.
    + destruct (to_string_nonempty z). done.
    + exists c, s. split; [done|]. destruct (to_string_chars z c) as [->|Hd]; [rewrite E; by left|done|].
      unfold is_digit, is_blank in *. lia.
  - destruct b; (split; [set_solver|by repeat eexists]).
  - split; [apply fmt_no_quote|apply fmt_starts].
  - split; [apply ladder_no_quote|]. by repeat eexists.
Qed.

(** No key is found inside a value. *)
Lemma scan_value k x before v c rest :
  word_char x = true → ends_value c →
  scan (34 :: x :: k) (58 :: before) (text_of v ++ c :: rest) =
  scan (34 :: x :: k) (rev (text_of v) ++ 58 :: before) (c :: rest).
Proof.
  intros Hx Hc. destruct (text_cases v) as [[s ->]|[Hq _]]; [|by apply scan_plain]. cbn [text_of app].
  rewrite scan_no_place by done. rewrite <- app_assoc, scan_esc. cbn [app]. rewrite scan_mismatch.
  - simpl rev. rewrite rev_app_distr, <- app_assoc. done.
  - destruct Hc; subst; intros ->; done.
Qed.

Lemma scan_other_key k k' before c rest :
  word k = true → word k' = true → k ≠ k' → c ∈ [123; 44] →
  scan (34 :: lit k ++ [34]) before (c :: 34 :: lit k' ++ 34 :: 58 :: rest) =
  scan (34 :: lit k ++ [34]) (58 :: 34 :: rev (lit k') ++ 34 :: c :: before) rest.
Proof.
  intros Hk Hk' Hne Hc. pose proof (word_no_quote _ Hk) as Hq. pose proof (word_no_quote _ Hk') as Hq'.
  change (c :: 34 :: lit k' ++ 34 :: 58 :: rest) with ([c] ++ 34 :: lit k' ++ 34 :: 58 :: rest).
  rewrite scan_plain by set_solver. cbn [rev app]. rewrite scan_unmatched.
  - rewrite scan_plain by done. pose proof (word_inv _ Hk) as (x & s & E & Hf).
    rewrite E. cbn [app]. rewrite scan_mismatch; [|by intros ->; inversion Hf].
    change (58 :: rest) with ([58] ++ rest). rewrite scan_plain by set_solver. done.
  - apply bool_decide_eq_false_2. cbn [length take]. intros [= E]. apply Hne, lit_inj. clear -E Hq Hq'.
    revert E Hq Hq'. generalize (lit k) (lit k'). intros a. induction a as [|x a IH]; intros [|y b] E Hq Hq'; try done; simpl in *.
    + injection E as ->. set_solver.
    + injection E as <- _. set_solver.
    + injection E as -> E. f_equal. apply (IH b E); set_solver.
Qed.

Lemma scan_own_key k before c v rest :
  word k = true → c ∈ [123; 44] →
  scan (34 :: lit k ++ [34]) before (c :: field_json (k, v) ++ rest) = Some (text_of v ++ rest).
Proof.
  intros Hk Hc. change (c :: field_json (k, v) ++ rest) with ([c] ++ field_json (k, v) ++ rest).
  rewrite scan_plain by set_solver. unfold field_json. cbn [fst snd rev app]. rewrite <- !app_assoc. cbn [app].
  set (pat := 34 :: lit k ++ [34]).
  assert (Ep : 34 :: lit k ++ 34 :: 58 :: text_of v ++ rest = pat ++ 58 :: text_of v ++ rest)
    by (unfold pat; simpl; by rewrite <- app_assoc).
  assert (Hh : hit pat (c :: before) (pat ++ 58 :: text_of v ++ rest) = true).
  { unfold hit, starts_with. rewrite drop_app_length, take_app_length, bool_decide_eq_true_2 by done.
    unfold key_place, drop_blanks. apply elem_of_cons in Hc as [->|Hc%list_elem_of_singleton]; [done|by subst c]. }
  rewrite Ep. rewrite scan_hit by done. rewrite drop_app_length. f_equal. unfold drop_blanks. cbn [blanks is_blank drop].
  destruct (text_cases v) as [[s ->]|(_ & y & s & -> & Hb)]; [done|]. cbn [app blanks]. rewrite Hb. simpl. by rewrite Hb.
Qed.

(** * Lookup *)

(** The text of a non-empty list of fields, with the first separator [sep]. *)

Definition from_sep (sep : Z) (fs : list (string * JVal D)) : list Z :=
  sep :: drop 1 (fields_json fs) ++ 125 :: tail.

Lemma scan_fields k before sep fs :
  word k = true → words fs = true → sep ∈ [123; 44] → fs ≠ [] →
  match field k fs with
  | Some v => ∃ c rest, ends_value c ∧ scan (34 :: lit k ++ [34]) before (from_sep sep fs) = Some (text_of v ++ c :: rest)
  | None => scan (34 :: lit k ++ [34]) before (from_sep sep fs) = None
  end.
Proof.
  intros Hk. revert before sep. induction fs as [|[k' v] fs IH]; intros before sep Hw Hsep Hne; [done|].
  apply andb_prop in Hw as [Hk' Hw]. simpl in Hk'. cbn [field].
  assert (Hsplit : ∃ c rest, ends_value c ∧ (fields_json fs ++ 125 :: tail = c :: rest) ∧ (fs ≠ [] → c :: rest = from_sep 44 fs)).
  { destruct fs; repeat eexists; [by right|done|by left]. }
  destruct Hsplit as (c & rest & Hc & E & Hfrom).
  assert (Eb : from_sep sep ((k', v) :: fs) = sep :: field_json (k', v) ++ c :: rest).
  { unfold from_sep. cbn. rewrite <- E, <- !app_assoc. done. }
  rewrite Eb. destruct (decide (k' = k)) as [->|Hkk]; [exists c, rest; split; [done|by apply scan_own_key]|].
  unfold field_json. cbn [fst snd app]. rewrite <- !app_assoc. cbn [app]. rewrite scan_other_key by done.
  pose proof (word_inv _ Hk) as (x & s & Ex & Hf). inversion Hf as [|? ? Hx _]. rewrite Ex in *. cbn [app] in *.
  rewrite scan_value by done. destruct fs as [|f fs]; [|rewrite Hfrom by done; apply IH; [done|set_solver|done]].
  cbn [field]. simpl in E. rewrite <- E. rewrite <- (app_nil_r (125 :: tail)), scan_plain by set_solver. done.
Qed.

(** In the text of an object, the value of a key is found where the first field of that name
    was written, and a key the object does not have is not found. *)
Lemma value_pos_render k fs :
  word k = true → words fs = true → fs ≠ [] →
  match field k fs with
  | Some v => ∃ i c rest, ends_value c ∧ value_pos (render tail fs) (lit k) = Some i
      ∧ drop i (render tail fs) = text_of v ++ c :: rest
  | None => value_pos (render tail fs) (lit k) = None
  end.
Proof.
  intros Hk Hw Hne. pose proof (scan_fields k [] 123 fs Hk Hw ltac:(set_solver) Hne) as Hs.
  pose proof (value_pos_scan (render tail fs) (lit k)) as Hp. change (from_sep 123 fs) with (render tail fs) in Hs.
  destruct (field k fs) as [v|].
  - destruct Hs as (c & rest & Hc & Hs). rewrite Hs in Hp. apply fmap_Some in Hp as (i & Hi & Ht). eauto 7.
  - rewrite Hs in Hp. by apply fmap_None in Hp.
Qed.

Lemma read_str_esc s r rest : read_str (esc s ++ 34 :: rest) r = Some (r ++ s).
Proof.
  revert r. induction s as [|c s IH]; intros r; simpl; [by rewrite app_nil_r|]. rewrite <- app_assoc.
  destruct ((c =? 34) || (c =? 92)) eqn:E1; [|destruct (Z.eqb_spec c 10); [|destruct (Z.eqb_spec c 9)]];
    cbn [app read_str].
  - rewrite E1. cbn [orb Z.eqb Pos.eqb]. by rewrite IH, <- app_assoc.
  - subst. cbn [orb Z.eqb Pos.eqb]. by rewrite IH, <- app_assoc.
  - subst. cbn [orb Z.eqb Pos.eqb]. by rewrite IH, <- app_assoc.
  - apply orb_false_elim in E1 as [-> ->]. by rewrite IH, <- app_assoc.
Qed.

Lemma json_get_str_render k fs :
  word k = true → words fs = true → fs ≠ [] →
  json_get_str (render tail fs) (lit k) = match field k fs with Some (JStr s) => Some s | _ => None end.
Proof.
  intros Hk Hw Hne. pose proof (value_pos_render k fs Hk Hw Hne) as Hp. unfold json_get_str.
  destruct (field k fs) as [v|]; [|by rewrite Hp]. destruct Hp as (i & c & rest & Hc & -> & Hd). simpl.
  rewrite Hd. destruct (text_cases v) as [[s ->]|(Hq & x & s & E & Hb)].
  - cbn [text_of app Z.eqb Pos.eqb]. rewrite <- app_assoc. cbn [app]. by rewrite read_str_esc.
  - rewrite E in *. cbn [app]. destruct (Z.eqb_spec x 34) as [->|]; [set_solver|]. destruct v; try done.
    cbn in E. injection E as <- _. done.
Qed.

(** The value of a key behind [value_pos], for the readers that go on from there. *)
Lemma value_text_render k fs v :
  word k = true → words fs = true → field k fs = Some v →
  ∃ i c rest, ends_value c ∧ value_pos (render tail fs) (lit k) = Some i ∧ drop i (render tail fs) = text_of v ++ c :: rest.
Proof.
  intros Hk Hw Hf. pose proof (value_pos_render k fs Hk Hw) as Hp. rewrite Hf in Hp. apply Hp. by intros ->.
Qed.

Lemma json_get_int_render k fs z :
  word k = true → words fs = true → field k fs = Some (JInt z) → json_get_int (render tail fs) (lit k) = Some (clamp64 z).
Proof.
  intros Hk Hw Hf. destruct (value_text_render _ _ _ Hk Hw Hf) as (i & c & rest & Hc & Hp & Hd).
  unfold json_get_int. rewrite Hp. simpl. rewrite Hd. cbn [text_of].
  rewrite strtoll_to_string; [done|by apply ends_value_no_digit].
Qed.

Lemma json_get_double_render k fs d :
  word k = true → words fs = true → field k fs = Some (JNum d) → json_get_double (render tail fs) (lit k) = Some (round10 d).
Proof.
  intros Hk Hw Hf. destruct (value_text_render _ _ _ Hk Hw Hf) as (i & c & rest & Hc & Hp & Hd).
  unfold json_get_double. rewrite Hp. simpl. rewrite Hd. cbn [text_of]. by rewrite strtod_fmt.
Qed.

Lemma json_get_bool_render k fs b :
  word k = true → words fs = true → field k fs = Some (JBool b) → json_get_bool (render tail fs) (lit k) = Some b.
Proof.
  intros Hk Hw Hf. destruct (value_text_render _ _ _ Hk Hw Hf) as (i & c & rest & Hc & Hp & Hd).
  unfold json_get_bool. rewrite Hp. simpl. rewrite Hd. by destruct b.
Qed.

Lemma json_get_absent k fs :
  word k = true → words fs = true → fs ≠ [] → field k fs = None →
  json_get_int (render tail fs) (lit k) = None ∧ json_get_double (D := D) (render tail fs) (lit k) = None
  ∧ json_get_bool (render tail fs) (lit k) = None.
Proof.
  intros Hk Hw Hne Hf. pose proof (value_pos_render k fs Hk Hw Hne) as Hp. rewrite Hf in Hp.
  unfold json_get_int, json_get_double, json_get_bool. by rewrite Hp.
Qed.
End Lookup.

(** * Objects and lines *)

Section Lines.
Context {D : Type} `{DoubleTextLaws D}.
Implicit Types (v : JVal D) (fs : list (string * JVal D)).

Lemma esc_no_newline s : 10 ∉ esc s.
Proof.
  induction s as [|c s IH]; [set_solver|]. cbn [esc].
  destruct ((c =? 34) || (c =? 92)) eqn:E; [|destruct (Z.eqb_spec c 10); [|destruct (Z.eqb_spec c 9)]]; set_solver.
Qed.

Lemma to_string_no_newline z : 10 ∉ to_string z.
Proof. intros [?|?]%to_string_chars; done. Qed.

Lemma pair_no_newline (pq : Z * Z) : 10 ∉ pair_text pq.
Proof. unfold pair_text. pose proof (to_string_no_newline pq.1). pose proof (to_string_no_newline pq.2). set_solver. Qed.

Lemma text_no_newline v : 10 ∉ text_of v.
Proof.
  destruct v as [s|z|b|d|l]; simpl.
  - pose proof (esc_no_newline s). set_solver.
  - apply to_string_no_newline.
  - destruct b; set_solver.
  - apply fmt_no_newline.
  - unfold ladder_text. destruct l as [|x l]; [set_solver|].
    assert (10 ∉ concat ((λ y, lit "," ++ pair_text y) <$> l)).
    { induction l as [|y l IH]; [set_solver|]. cbn. pose proof (pair_no_newline y). set_solver. }
    pose proof (pair_no_newline x). set_solver.
Qed.

Lemma word_no_newline k : word k = true → 10 ∉ lit k.
Proof. intros (c & s & -> & Hf)%word_inv Hin. rewrite Forall_forall in Hf. by specialize (Hf _ Hin). Qed.

Lemma fields_no_newline fs : words fs = true → 10 ∉ fields_json fs.
Proof.
  induction fs as [|[k v] fs IH]; [set_solver|]. intros [Hk Hw]%andb_prop. specialize (IH Hw).
  pose proof (text_no_newline v). pose proof (word_no_newline _ Hk). unfold fields_json, field_json in *. simpl in *. set_solver.
Qed.

(** An object is one line. *)
Lemma render_line fs :
  words fs = true → (10 ∉ render [] fs) ∧ render [10] fs = render [] fs ++ [10].
Proof.
  intros Hw. unfold render. split; [|cbn [app]; by rewrite <- app_assoc].
  assert (10 ∉ drop 1 (fields_json fs)); [|set_solver].
  intros Hin. apply (fields_no_newline fs Hw). rewrite <- (take_drop 1 (fields_json fs)). set_solver.
Qed.
End Lines.
