(* ===== verification/Printf.v ===== *)
(** The texts of floating-point numbers: [snprintf] with "%.10g", "%.5g" and "%.4f", the output of
    a [double] to a stream, and [strtod], on the numbers of [Float].  Printing rounds the exact
    value to the decimal digits asked for, ties to even; reading rounds the exact decimal value to
    binary64.  With them [double] is an instance of the class [DoubleText] of the JSON code. *)
From stdpp Require Import strings.
From S2P Require Export Float Json.

#[local] Open Scope list_scope.
#[local] Open Scope Z_scope.

(** * Decimal digits *)

Definition pow10 (e : Z) : Q := (10 ^ e)%Q.

(** The number of digits less one; one round per digit. *)

Fixpoint log10_loop (fuel : nat) (n : Z) : Z :=
  match fuel with
  | O => 0
  | S fuel => if n <? 10 then 0 else 1 + log10_loop fuel (n / 10)
  end.

Definition log10 (n : Z) : Z := log10_loop (Z.to_nat (Z.log2 n)) n.

Definition log10Q (x : Q) : Z :=
  let k := log10 (Qnum x) - log10 (Z.pos (Qden x)) in
  if Qle_bool (pow10 k) x then k else k - 1.

(** The first [p] significant digits of a positive rational as a number, and its exponent. *)

Definition significant (p : Z) (x : Q) : Z * Z :=
  let k := log10Q x in
  let n := rne (x * pow10 (p - 1 - k)) in
  if n =? 10 ^ p then (10 ^ (p - 1), k + 1) else (n, k).

(** The last [k] digits. *)

Fixpoint fixed_digits (k : nat) (n : Z) : list Z :=
  match k with
  | O => []
  | S k => fixed_digits k (n / 10) ++ [48 + n `mod` 10]
  end.

Fixpoint strip_zeros (l : list Z) : list Z :=
  match l with
  | [] => []
  | c :: l => match strip_zeros l with [] => if c =? 48 then [] else [c] | l' => c :: l' end
  end.

Definition zeros (k : Z) : list Z := replicate (Z.to_nat k) 48.

Definition fraction (l : list Z) : list Z := match l with [] => [] | _ => 46 :: l end.

(** The exponent has at least two digits. *)

Definition exponent_text (x : Z) : list Z :=
  101 :: (if x <? 0 then 45 else 43) :: (if Z.abs x <? 10 then [48] else []) ++ dec_digits (Z.abs x).

(** * Printing *)

(** "%.*g" of a positive number: without an exponent when that is between -4 and the precision. *)

Definition general (p : Z) (x : Q) : list Z :=
  let '(n, e) := significant p x in
  let ds := fixed_digits (Z.to_nat p) n in
  if (-4 <=? e) && (e <? p) then
    if 0 <=? e then take (Z.to_nat (e + 1)) ds ++ fraction (strip_zeros (drop (Z.to_nat (e + 1)) ds))
    else [48] ++ fraction (strip_zeros (zeros (- e - 1) ++ ds))
  else take 1 ds ++ fraction (strip_zeros (drop 1 ds)) ++ exponent_text e.

Definition minus_sign (s : bool) : list Z := if s then [45] else [].

Definition magnitude (x : fl) : Q := Qabs (val x).

Definition printf_g (p : Z) (x : fl) : list Z :=
  minus_sign (sign x) ++
  match x with
  | Zero _ => [48]
  | Inf _ => lit "inf"
  | NaN _ => lit "nan"
  | Fin _ _ _ => general p (magnitude x)
  end.

(** "%.4f" *)

Definition printf_f4 (x : fl) : list Z :=
  minus_sign (sign x) ++
  match x with
  | Inf _ => lit "inf"
  | NaN _ => lit "nan"
  | _ => let n := rne (magnitude x * pow10 4) in dec_digits (n / 10000) ++ 46 :: fixed_digits 4 (n `mod` 10000)
  end.

(** [snprintf] into a buffer of 32 characters keeps 31, which is enough for every "%.10g" and
    "%.5g" of a double. *)

Definition in_buffer (s : list Z) : list Z := take 31 s.

Definition fmt_double64 (v : fl) : list Z := printf_g 10 v.

Definition price_str (px : fl) : list Z := in_buffer (printf_f4 px).

Definition fmt (v : fl) : list Z := printf_g 5 v.

(** [os << v] with the default precision. *)

Definition show_double (v : fl) : list Z := printf_g 6 v.

(** * Reading *)

Fixpoint span (p : Z → bool) (s : list Z) : list Z * list Z :=
  match s with
  | c :: s' => if p c then let '(a, b) := span p s' in (c :: a, b) else ([], s)
  | [] => ([], [])
  end.

Definition lower (c : Z) : Z := if (65 <=? c) && (c <=? 90) then c + 32 else c.

(** What is behind a word, in any case of its letters. *)

Definition after_word (w : string) (s : list Z) : option (list Z) :=
  let w := lit w in if decide (lower <$> take (length w) s = w) then Some (drop (length w) s) else None.

(** A sign in front of digits. *)

Definition read_sign (s : list Z) : bool * list Z :=
  match s with
  | c :: s' => if c =? 45 then (true, s') else if c =? 43 then (false, s') else (false, s)
  | [] => (false, [])
  end.

(** An exponent behind the letter [mark], which counts only with digits behind it. *)

Definition read_exponent (mark : Z) (s : list Z) : Z * list Z :=
  match s with
  | c :: s' =>
      if lower c =? mark then
        let '(neg, s2) := read_sign s' in
        match span is_digit s2 with
        | ([], _) => (0, s)
        | (ds, rest) => ((if neg : bool then - dec_value ds 0 else dec_value ds 0), rest)
        end
      else (0, s)
  | [] => (0, [])
  end.

(** The digits in front of and behind the point, and the rest. *)

Definition read_digits (p : Z → bool) (s : list Z) : list Z * list Z * list Z :=
  let '(i, s1) := span p s in
  match s1 with
  | c :: s' => if c =? 46 then let '(fr, s2) := span p s' in (i, fr, s2) else (i, [], s1)
  | [] => (i, [], [])
  end.

Definition read_decimal (s : list Z) : option (Q * list Z) :=
  let '(i, fr, s2) := read_digits is_digit s in
  if bool_decide (i ++ fr = []) then None
  else
    let '(e, s3) := read_exponent 101 s2 in
    Some ((inject_Z (dec_value (i ++ fr) 0) * pow10 (e - zlen fr))%Q, s3).

Definition hex_digit (c : Z) : bool := is_digit c || ((97 <=? lower c) && (lower c <=? 102)).

Definition hex_value (s : list Z) : Z := foldl (λ v c, v * 16 + (if is_digit c then c - 48 else lower c - 87)) 0 s.

Definition read_hex (s : list Z) : option (Q * list Z) :=
  let '(i, fr, s2) := read_digits hex_digit s in
  if bool_decide (i ++ fr = []) then None
  else
    let '(e, s3) := read_exponent 112 s2 in
    Some ((inject_Z (hex_value (i ++ fr)) * pow2 (e - 4 * zlen fr))%Q, s3).

(** The letters, digits and underscores in brackets that may follow [nan]. *)

Definition skip_nan (s : list Z) : list Z :=
  match s with
  | c :: s' =>
      if c =? 40 then
        match span (λ c, is_digit c || (c =? 95) || ((97 <=? lower c) && (lower c <=? 122))) s' with
        | (_, d :: rest) => if d =? 41 then rest else s
        | (_, []) => s
        end
      else s
  | [] => []
  end.

Definition rounded (neg : bool) (q : Q) : fl := round binary64 neg (if neg then - q else q)%Q.

Definition read_finite (neg : bool) (s : list Z) : option (fl * list Z) :=
  match (match s with
         | a :: b :: s' => if (a =? 48) && (lower b =? 120) then read_hex s' else None
         | _ => None
         end) with
  | Some (q, rest) => Some (rounded neg q, rest)
  | None => '(q, rest) ← read_decimal s; Some (rounded neg q, rest)
  end.

Definition strtod64 (s : list Z) : option (fl * list Z) :=
  let '(neg, s) := read_sign (skip_space s) in
  match after_word "infinity" s, after_word "inf" s, after_word "nan" s with
  | Some rest, _, _ | None, Some rest, _ => Some (Inf neg, rest)
  | None, None, Some rest => Some (NaN neg, skip_nan rest)
  | None, None, None => read_finite neg s
  end.

#[export] Instance double_text : DoubleText fl := {| dbl_zero := Zero false; fmt_double := fmt_double64; strtod := strtod64 |}.

(** * Known texts *)

Definition dbl (q : Q) : fl := round binary64 false q.

Lemma printed_texts :
  fmt_double64 (dbl (1 # 10)) = lit "0.1" ∧ fmt_double64 (dbl (-1 # 3)) = lit "-0.3333333333" ∧
  fmt_double64 (dbl (123456789012 # 1)) = lit "1.23456789e+11" ∧ fmt_double64 (dbl (1 # 100000)) = lit "1e-05" ∧
  fmt_double64 (dbl (99999999999 # 10)) = lit "1e+10" ∧ fmt_double64 (dbl (10835 # 10000)) = lit "1.0835" ∧
  fmt_double64 (Zero true) = lit "-0" ∧ fmt_double64 (dbl 1200) = lit "1200" ∧
  price_str (dbl (15025 # 100)) = lit "150.2500" ∧ price_str (dbl (1 # 32)) = lit "0.0312" ∧ price_str (dbl (-2 # 1)) = lit "-2.0000" ∧
  show_double (dbl (314159265 # 100000000)) = lit "3.14159" ∧ fmt (dbl (1234567 # 10)) = lit "1.2346e+05".
Proof. vm_compute. done. Qed.

Lemma read_texts :
  strtod64 (lit "0.1,") = Some (dbl (1 # 10), lit ",") ∧ strtod64 (lit "  -12.5e2}") = Some (dbl (-1250 # 1), lit "}") ∧
  strtod64 (lit "0x1.8p1 ") = Some (dbl 3, lit " ") ∧ strtod64 (lit "1e") = Some (dbl 1, lit "e") ∧
  strtod64 (lit "5.e1x") = Some (dbl 50, lit "x") ∧ strtod64 (lit ".5") = Some (dbl (1 # 2), []) ∧ strtod64 (lit ".") = None ∧
  strtod64 (lit "-Infinity,") = Some (Inf true, lit ",") ∧ strtod64 (lit "nan(x1)") = Some (NaN false, []) ∧
  strtod64 (lit "1e999") = Some (Inf false, []) ∧ strtod64 (lit "-0") = Some (Zero true, []) ∧ strtod64 (lit "abc") = None ∧
  strtod64 (lit "0xg") = Some (Zero false, lit "xg").
Proof. vm_compute. done. Qed.

(** * Decimal facts *)

Section Powers.
#[local] Open Scope Q_scope.

Lemma pow10_pos e : 0 < pow10 e.
Proof. apply Qpower_0_lt. lra. Qed.

Lemma pow10_add a b : pow10 (a + b) == pow10 a * pow10 b.
Proof. apply Qpower_plus. lra. Qed.

Lemma pow10_Z n : (0 ≤ n)%Z → pow10 n == inject_Z (10 ^ n).
Proof. intros. by rewrite Zpower_Qpower. Qed.

Lemma pow10_succ e : pow10 (e + 1) == 10 * pow10 e.
Proof. rewrite pow10_add. change (pow10 1) with 10. ring. Qed.

Lemma pow10_le a b : (a ≤ b)%Z → pow10 a <= pow10 b.
Proof. intros. apply Qpower_le_compat_l; [done|lra]. Qed.

Lemma log10_loop_spec fuel n :
  (0 < n < 2 ^ (Z.of_nat fuel + 1))%Z →
  (0 ≤ log10_loop fuel n ∧ 10 ^ log10_loop fuel n ≤ n < 10 ^ (log10_loop fuel n + 1))%Z.
Proof.
  revert n. induction fuel as [|fuel IH]; intros n Hn; cbn [log10_loop]; [simpl in *; lia|].
  destruct (Z.ltb_spec n 10); [simpl; lia|]. rewrite Nat2Z.inj_succ in Hn.
  assert (Hp : (2 ^ (Z.succ (Z.of_nat fuel) + 1) = 2 * 2 ^ (Z.of_nat fuel + 1))%Z) by (rewrite <- Z.pow_succ_r by lia; f_equal; lia).
  pose proof (Z.div_mod n 10 ltac:(lia)). pose proof (Z.mod_pos_bound n 10 ltac:(lia)).
  destruct (IH (n / 10)%Z) as (L0 & L1 & L2); [lia|]. set (k := log10_loop fuel (n / 10)) in *.
  replace (1 + k)%Z with (Z.succ k) by lia. replace (Z.succ k + 1)%Z with (Z.succ (k + 1)) by lia. rewrite !Z.pow_succ_r by lia. lia.
Qed.

Lemma log10_spec n : (0 < n)%Z → (0 ≤ log10 n ∧ 10 ^ log10 n ≤ n < 10 ^ (log10 n + 1))%Z.
Proof.
  intros Hn. apply log10_loop_spec. pose proof (Z.log2_nonneg n). rewrite Z2Nat.id by done. pose proof (Z.log2_spec n Hn). rewrite Z.add_1_r. lia.
Qed.

Lemma log10Q_spec x : 0 < x → pow10 (log10Q x) <= x < pow10 (log10Q x + 1).
Proof.
  intros Hx. unfold log10Q. destruct x as [n d]. assert (Hn : (0 < n)%Z) by (unfold Qlt in Hx; simpl in Hx; lia). cbn [Qnum Qden].
  pose proof (log10_spec n Hn) as (A0 & N1 & N2). pose proof (log10_spec (Z.pos d) ltac:(lia)) as (B0 & D1 & D2).
  set (a := log10 n) in *. set (b := log10 (Z.pos d)) in *.
  assert (Ex : n # d == inject_Z n / inject_Z (Z.pos d)) by (by rewrite <- Qmake_Qdiv).
  assert (Hd : 0 < inject_Z (Z.pos d)) by done.
  apply injZ_le in N1, D1. apply injZ_lt in N2, D2. rewrite <- pow10_Z in N1, N2, D1, D2 by lia. rewrite pow10_succ in N2, D2.
  pose proof (pow10_pos a). pose proof (pow10_pos b). pose proof (pow10_pos (a - b)).
  assert (Eab : pow10 a == pow10 (a - b) * pow10 b) by (rewrite <- pow10_add; by replace (a - b + b)%Z with a by lia).
  assert (Hup : n # d < 10 * pow10 (a - b)) by (rewrite Ex; apply Qlt_shift_div_r; [done|nra]).
  assert (Hlow : pow10 (a - b) < 10 * (n # d)).
  { setoid_replace (10 * (n # d)) with (10 * inject_Z n / inject_Z (Z.pos d)) using relation Qeq by (rewrite Ex; field; lra). apply Qlt_shift_div_l; [done|nra]. }
  destruct (Qle_bool (pow10 (a - b)) (n # d)) eqn:El.
  - apply Qle_bool_iff in El. by rewrite pow10_succ.
  - assert (Hlt : n # d < pow10 (a - b)) by (apply Qnot_le_lt; intros Hle; apply Qle_bool_iff in Hle; congruence).
    replace (a - b - 1 + 1)%Z with (a - b)%Z by lia. split; [|done].
    assert (E2 : pow10 (a - b) == 10 * pow10 (a - b - 1)) by (rewrite <- pow10_succ; by replace (a - b - 1 + 1)%Z with (a - b)%Z by lia). lra.
Qed.

Lemma log10Q_unique x k : pow10 k <= x < pow10 (k + 1) → log10Q x = k.
Proof.
  intros [H1 H2]. assert (Hx : 0 < x) by (pose proof (pow10_pos k); lra). destruct (log10Q_spec x Hx) as [L1 L2].
  destruct (Z.lt_trichotomy (log10Q x) k) as [Hlt|[|Hlt]]; [|done|].
  - pose proof (pow10_le (log10Q x + 1) k ltac:(lia)). lra.
  - pose proof (pow10_le (k + 1) (log10Q x) ltac:(lia)). lra.
Qed.

(** The decimal a number is printed as. *)

Definition decimal (p : Z) (x : Q) : Q := inject_Z (significant p x).1 * pow10 ((significant p x).2 - p + 1).

(** It has [p] digits and is off by at most half a unit of the last one. *)
Lemma significant_spec p x :
  (1 ≤ p)%Z → 0 < x →
  (10 ^ (p - 1) ≤ (significant p x).1 < 10 ^ p)%Z ∧ Qabs (decimal p x - x) <= (1 # 2) * pow10 (log10Q x - p + 1).
Proof.
  intros Hp Hx. destruct (log10Q_spec x Hx) as [L1 L2]. unfold decimal, significant. set (k := log10Q x) in *.
  assert (Es : pow10 (p - 1 - k) * pow10 (k - p + 1) == 1) by (rewrite <- pow10_add; by replace (p - 1 - k + (k - p + 1))%Z with 0%Z by lia).
  pose proof (pow10_pos (p - 1 - k)) as P1. pose proof (pow10_pos (k - p + 1)) as P2. set (y := x * pow10 (p - 1 - k)).
  assert (Ex : x == y * pow10 (k - p + 1)) by (unfold y; rewrite <- Qmult_assoc, Es; ring).
  assert (Y1 : inject_Z (10 ^ (p - 1)) <= y).
  { rewrite <- pow10_Z by lia. assert (E : pow10 (p - 1) == pow10 k * pow10 (p - 1 - k)) by (rewrite <- pow10_add; by replace (k + (p - 1 - k))%Z with (p - 1)%Z by lia).
    rewrite E. apply Qmult_le_compat_r; lra. }
  assert (Y2 : y <= inject_Z (10 ^ p)).
  { rewrite <- pow10_Z by lia. assert (E : pow10 p == pow10 (k + 1) * pow10 (p - 1 - k)) by (rewrite <- pow10_add; by replace (k + 1 + (p - 1 - k))%Z with p by lia).
    rewrite E. apply Qmult_le_compat_r; lra. }
  apply rne_ge in Y1. apply rne_le in Y2. pose proof (rne_half y) as Hh.
  assert (Herr : Qabs (inject_Z (rne y) * pow10 (k - p + 1) - x) <= (1 # 2) * pow10 (k - p + 1)).
  { setoid_replace (inject_Z (rne y) * pow10 (k - p + 1) - x) with ((inject_Z (rne y) - y) * pow10 (k - p + 1)) using relation Qeq by (rewrite Ex at 1; ring).
    rewrite Qabs_Qmult, (Qabs_pos (pow10 _)) by lra. apply Qmult_le_compat_r; [done|lra]. }
  destruct (Z.eqb_spec (rne y) (10 ^ p)) as [E|E]; cbn [fst snd]; [|split; [lia|done]].
  assert (Hpp : (10 ^ p = 10 * 10 ^ (p - 1))%Z) by (rewrite <- Z.pow_succ_r by lia; f_equal; lia).
  split; [lia|]. rewrite E, Hpp, inject_Z_mult in Herr. replace (k + 1 - p + 1)%Z with (k - p + 1 + 1)%Z by lia. rewrite pow10_succ.
  setoid_replace (inject_Z (10 ^ (p - 1)) * (10 * pow10 (k - p + 1)) - x)
    with (inject_Z 10 * inject_Z (10 ^ (p - 1)) * pow10 (k - p + 1) - x) using relation Qeq by (change (inject_Z 10) with 10; ring). done.
Qed.

(** The digits of a number that is close to a decimal. *)
Lemma significant_near p x k n :
  (n < 10 ^ p)%Z → pow10 k <= x < pow10 (k + 1) → Qabs (inject_Z n - x * pow10 (p - 1 - k)) < 1 # 2 → significant p x = (n, k).
Proof.
  intros Hn Hk Hx. unfold significant. rewrite (log10Q_unique x k Hk), (rne_near _ n Hx). by destruct (Z.eqb_spec n (10 ^ p)); [lia|].
Qed.

End Powers.
