(* ===== verification/Mt5Protocol.v ===== *)
(** The messages of the MetaTrader bridge (include/mt5/protocol.hpp): the structures, the
    encoders and the parsers, over the field readers of [Json].  Parsers write into an output
    object, also when they give up half-way, so they return the flag and the object. *)
From stdpp Require Import strings.
From S2P Require Export Tcp Json.

#[local] Open Scope list_scope.
#[local] Open Scope Z_scope.

Definition kProtocolVersion : Z := 1.

Inductive MsgKind : Set :=
  Unknown | Hello | Subscribe | KTick | KOrder | KAck | Nop | Bye | Heartbeat | Depth | Signal.

#[global] Instance MsgKind_eq_dec : EqDecision MsgKind.
Proof. solve_decision. Defined.

Definition bool_text (b : bool) : list Z := lit (if b then "true" else "false").

Definition kind_of (line : list Z) : MsgKind :=
  match json_get_str line (lit "t") with
  | None => Unknown
  | Some t =>
      if decide (t = lit "hello") then Hello
      else if decide (t = lit "subscribe") then Subscribe
      else if decide (t = lit "tick") then KTick
      else if decide (t = lit "order") then KOrder
      else if decide (t = lit "ack") then KAck
      else if decide (t = lit "nop") then Nop
      else if decide (t = lit "bye") then Bye
      else if decide (t = lit "heartbeat") then Heartbeat
      else if decide (t = lit "depth") then Depth
      else if decide (t = lit "signal") then Signal
      else Unknown
  end.

Section Protocol.
Context {D : Type} `{DoubleText D}.

Record Tick := mkTick {
  t_symbol : list Z;
  t_time : Z;
  t_bid : D;
  t_ask : D;
  t_last : D;
  t_volume : Z;
}.

Definition tick0 : Tick := mkTick [] 0 dbl_zero dbl_zero dbl_zero 0.

Record Order := mkOrder {
  o_id : Z;
  o_symbol : list Z;
  o_side : Side;
  o_volume : D;
  o_price : D;
  o_kind : list Z;
}.

Definition order0 : Order := mkOrder 0 [] SideNone dbl_zero dbl_zero (lit "market").

Record Ack := mkAck {
  a_id : Z;
  a_ok : bool;
  a_retcode : Z;
  a_message : list Z;
}.

Definition ack0 : Ack := mkAck 0 false 0 [].

(** * Encoders *)

Definition encode_hello (client : list Z) (account : Z) : list Z :=
  jlit "{'t':'hello','v':" ++ to_string kProtocolVersion ++ jlit ",'client':'" ++ esc client
    ++ jlit "','account':" ++ to_string account ++ lit "}" ++ [10].

Definition encode_hello_reply (server : list Z) (ok : bool) : list Z :=
  jlit "{'t':'hello','v':" ++ to_string kProtocolVersion ++ jlit ",'server':'" ++ esc server
    ++ jlit "','ok':" ++ bool_text ok ++ lit "}" ++ [10].

Definition encode_subscribe (symbol : list Z) : list Z :=
  jlit "{'t':'subscribe','v':" ++ to_string kProtocolVersion ++ jlit ",'symbol':'" ++ esc symbol
    ++ jlit "'}" ++ [10].

Definition encode_tick (t : Tick) : list Z :=
  jlit "{'t':'tick','v':" ++ to_string kProtocolVersion
    ++ jlit ",'symbol':'" ++ esc (t_symbol t) ++ jlit "'"
    ++ jlit ",'time':" ++ to_string (t_time t)
    ++ jlit ",'bid':" ++ fmt_double (t_bid t)
    ++ jlit ",'ask':" ++ fmt_double (t_ask t)
    ++ jlit ",'last':" ++ fmt_double (t_last t)
    ++ jlit ",'volume':" ++ to_string (t_volume t) ++ lit "}" ++ [10].

Definition encode_order (o : Order) : list Z :=
  let side := if decide (o_side o = Buy) then 66 else 83 in
  jlit "{'t':'order','v':" ++ to_string kProtocolVersion
    ++ jlit ",'id':" ++ to_string (o_id o)
    ++ jlit ",'symbol':'" ++ esc (o_symbol o) ++ jlit "'"
    ++ jlit ",'side':'" ++ [side] ++ jlit "'"
    ++ jlit ",'volume':" ++ fmt_double (o_volume o)
    ++ jlit ",'price':" ++ fmt_double (o_price o)
    ++ jlit ",'kind':'" ++ esc (o_kind o) ++ jlit "'}" ++ [10].

Definition encode_ack (a : Ack) : list Z :=
  jlit "{'t':'ack','v':" ++ to_string kProtocolVersion
    ++ jlit ",'id':" ++ to_string (a_id a)
    ++ jlit ",'ok':" ++ bool_text (a_ok a)
    ++ jlit ",'retcode':" ++ to_string (a_retcode a)
    ++ jlit ",'message':'" ++ esc (a_message a) ++ jlit "'}" ++ [10].

Definition encode_nop : list Z := jlit "{'t':'nop','v':1}" ++ [10].

Definition encode_bye : list Z := jlit "{'t':'bye','v':1}" ++ [10].

Definition encode_heartbeat (time : Z) : list Z :=
  jlit "{'t':'heartbeat','v':1,'time':" ++ to_string time ++ lit "}" ++ [10].

(** The loop over the levels of one side, at index [i]. *)

Fixpoint push_levels (i : Z) (s : list Z) (levels : list (Price * Qty)) : list Z :=
  match levels with
  | [] => s
  | (p, q) :: levels =>
      let s := if i =? 0 then s else s ++ lit "," in
      push_levels (i + 1) (s ++ lit "[" ++ to_string p ++ lit "," ++ to_string q ++ lit "]") levels
  end.

Definition encode_depth (symbol : list Z) (bids asks : list (Price * Qty)) : list Z :=
  let s := jlit "{'t':'depth','v':" ++ to_string kProtocolVersion
             ++ jlit ",'symbol':'" ++ esc symbol ++ jlit "','bids':[" in
  let s := push_levels 0 s bids in
  let s := s ++ jlit "],'asks':[" in
  push_levels 0 s asks ++ lit "]}" ++ [10].

Definition encode_signal (symbol : list Z) (mid microprice imbalance spread_bps : D) : list Z :=
  jlit "{'t':'signal','v':" ++ to_string kProtocolVersion
    ++ jlit ",'symbol':'" ++ esc symbol ++ jlit "'"
    ++ jlit ",'mid':" ++ fmt_double mid
    ++ jlit ",'microprice':" ++ fmt_double microprice
    ++ jlit ",'imbalance':" ++ fmt_double imbalance
    ++ jlit ",'spread_bps':" ++ fmt_double spread_bps ++ lit "}" ++ [10].

(** * Parsers *)

Definition parse_tick (line : list Z) (out : Tick) : bool * Tick :=
  match json_get_str line (lit "symbol") with
  | None => (false, out)
  | Some symbol =>
      match json_get_double line (lit "bid") with
      | None => (false, mkTick symbol (t_time out) (t_bid out) (t_ask out) (t_last out) (t_volume out))
      | Some bid =>
          match json_get_double line (lit "ask") with
          | None => (false, mkTick symbol (t_time out) bid (t_ask out) (t_last out) (t_volume out))
          | Some ask =>
              let last := default (t_last out) (json_get_double line (lit "last")) in
              let time := default (t_time out) (u64 <$> json_get_int line (lit "time")) in
              let volume := default (t_volume out) (u64 <$> json_get_int line (lit "volume")) in
              (true, mkTick symbol time bid ask last volume)
          end
      end
  end.

Definition parse_order (line : list Z) (out : Order) : bool * Order :=
  match json_get_int line (lit "id") with
  | None => (false, out)
  | Some id =>
      let id := u64 id in
      match json_get_str line (lit "symbol") with
      | None => (false, mkOrder id (o_symbol out) (o_side out) (o_volume out) (o_price out) (o_kind out))
      | Some symbol =>
          match json_get_str line (lit "side") with
          | Some (c :: _) =>
              let side := if c =? 66 then Buy else Sell in
              let volume := default (o_volume out) (json_get_double line (lit "volume")) in
              let price := default (o_price out) (json_get_double line (lit "price")) in
              let kind := default (o_kind out) (json_get_str line (lit "kind")) in
              (true, mkOrder id symbol side volume price kind)
          | _ => (false, mkOrder id symbol (o_side out) (o_volume out) (o_price out) (o_kind out))
          end
      end
  end.

Definition parse_ack (line : list Z) (out : Ack) : bool * Ack :=
  match json_get_int line (lit "id") with
  | None => (false, out)
  | Some id =>
      let ok := default (a_ok out) (json_get_bool line (lit "ok")) in
      let retcode := default (a_retcode out) (to_int <$> json_get_int line (lit "retcode")) in
      let message := default (a_message out) (json_get_str line (lit "message")) in
      (true, mkAck (u64 id) ok retcode message)
  end.

Fixpoint skip_separators (s : list Z) : list Z :=
  match s with
  | c :: s' => if (c =? 44) || (c =? 32) then skip_separators s' else s
  | [] => []
  end.

Fixpoint to_bracket (s : list Z) : list Z :=
  match s with
  | c :: s' => if c =? 93 then s else to_bracket s'
  | [] => []
  end.

(** The loop of [parse_levels] on the rest of the line. *)

Fixpoint levels_loop (fuel : nat) (s : list Z) (out : list (Price * Qty)) : bool * list (Price * Qty) :=
  match fuel with
  | O => (false, out)
  | S fuel =>
      match s with
      | [] => (true, out)
      | c :: s =>
          if c =? 93 then (true, out)
          else if negb (c =? 91) then levels_loop fuel s out
          else
            match strtoll s with
            | None => (false, out)
            | Some (p, s) =>
                match strtoll (skip_separators s) with
                | None => (false, out)
                | Some (q, s) => levels_loop fuel (drop 1 (to_bracket s)) (out ++ [(p, u32 q)])
                end
            end
      end
  end.

(** Every round consumes a character. *)

Definition parse_levels (line key : list Z) (out : list (Price * Qty)) : bool * list (Price * Qty) :=
  match value_pos line key with
  | None => (false, out)
  | Some i =>
      match drop i line with
      | c :: s => if c =? 91 then levels_loop (S (length s)) s [] else (false, out)
      | [] => (false, out)
      end
  end.

Definition parse_depth (line symbol : list Z) (bids asks : list (Price * Qty)) :
    bool * (list Z * list (Price * Qty) * list (Price * Qty)) :=
  match json_get_str line (lit "symbol") with
  | None => (false, (symbol, bids, asks))
  | Some symbol =>
      (true, (symbol, (parse_levels line (lit "bids") bids).2, (parse_levels line (lit "asks") asks).2))
  end.

Definition parse_signal (line symbol : list Z) (mid microprice imbalance spread_bps : D) :
    bool * (list Z * D * D * D * D) :=
  match json_get_str line (lit "symbol") with
  | None => (false, (symbol, mid, microprice, imbalance, spread_bps))
  | Some symbol =>
      (true, (symbol, default mid (json_get_double line (lit "mid")),
              default microprice (json_get_double line (lit "microprice")),
              default imbalance (json_get_double line (lit "imbalance")),
              default spread_bps (json_get_double line (lit "spread_bps"))))
  end.

End Protocol.

Arguments Tick D : clear implicits.
Arguments Order D : clear implicits.

(** * The messages as objects *)

Section Objects.
Context {D : Type} `{DoubleText D}.
#[local] Open Scope string_scope.

Definition head_fields (t : string) : list (string * JVal D) :=
  [("t", JStr (lit t)); ("v", JInt kProtocolVersion)].

Definition tick_fields (t : Tick D) : list (string * JVal D) :=
  head_fields "tick" ++
  [("symbol", JStr (t_symbol t)); ("time", JInt (t_time t)); ("bid", JNum (t_bid t));
   ("ask", JNum (t_ask t)); ("last", JNum (t_last t)); ("volume", JInt (t_volume t))].

Definition order_fields (o : Order D) : list (string * JVal D) :=
  head_fields "order" ++
  [("id", JInt (o_id o)); ("symbol", JStr (o_symbol o));
   ("side", JStr [if decide (o_side o = Buy) then 66 else 83]); ("volume", JNum (o_volume o));
   ("price", JNum (o_price o)); ("kind", JStr (o_kind o))].

Definition ack_fields (a : Ack) : list (string * JVal D) :=
  head_fields "ack" ++
  [("id", JInt (a_id a)); ("ok", JBool (a_ok a)); ("retcode", JInt (a_retcode a));
   ("message", JStr (a_message a))].

Definition depth_fields (symbol : list Z) (bids asks : list (Price * Qty)) : list (string * JVal D) :=
  head_fields "depth" ++ [("symbol", JStr symbol); ("bids", JLadder bids); ("asks", JLadder asks)].

Definition signal_fields (symbol : list Z) (mid microprice imbalance spread_bps : D) : list (string * JVal D) :=
  head_fields "signal" ++
  [("symbol", JStr symbol); ("mid", JNum mid); ("microprice", JNum microprice);
   ("imbalance", JNum imbalance); ("spread_bps", JNum spread_bps)].

#[local] Close Scope string_scope.

(** Evaluate the literals, then compare the concatenations. *)
#[local] Ltac as_object :=
  unfold render, fields_json, field_json; cbn [fmap list_fmap concat app drop fst snd text_of];
  repeat match goal with
    | |- context [lit ?s] => let v := eval vm_compute in (lit s) in change (lit s) with v
    | |- context [jlit ?s] => let v := eval vm_compute in (jlit s) in change (jlit s) with v
    end;
  repeat (cbn [app esc orb Z.eqb Pos.eqb]; rewrite <- ?app_assoc); try done.

Lemma encode_tick_render t : encode_tick t = render [10] (tick_fields t).
Proof. unfold encode_tick, tick_fields, head_fields. as_object. Qed.

Lemma encode_order_render o : encode_order o = render [10] (order_fields o).
Proof. unfold encode_order, order_fields, head_fields. destruct (decide _); as_object. Qed.

Lemma encode_ack_render a : encode_ack a = render [10] (ack_fields a).
Proof. unfold encode_ack, ack_fields, head_fields, bool_text. as_object. Qed.

Lemma encode_signal_render symbol m p i b :
  encode_signal symbol m p i b = render [10] (signal_fields symbol m p i b).
Proof. unfold encode_signal, signal_fields, head_fields. as_object. Qed.

Lemma encode_hello_render client account :
  encode_hello client account = render [10] (head_fields "hello" ++ [("client"%string, JStr client); ("account"%string, JInt account)]).
Proof. unfold encode_hello, head_fields. as_object. Qed.

Lemma encode_hello_reply_render server ok :
  encode_hello_reply server ok = render [10] (head_fields "hello" ++ [("server"%string, JStr server); ("ok"%string, JBool ok)]).
Proof. unfold encode_hello_reply, head_fields, bool_text. as_object. Qed.

Lemma encode_subscribe_render symbol :
  encode_subscribe symbol = render [10] (head_fields "subscribe" ++ [("symbol"%string, JStr symbol)]).
Proof. unfold encode_subscribe, head_fields. as_object. Qed.

Lemma encode_heartbeat_render time :
  encode_heartbeat time = render [10] (head_fields "heartbeat" ++ [("time"%string, JInt time)]).
Proof. unfold encode_heartbeat, head_fields. change (to_string kProtocolVersion) with [49]. as_object. Qed.

Lemma push_levels_text i s l :
  0 ≤ i →
  push_levels i s l =
  s ++ match l with
       | [] => []
       | x :: l => (if i =? 0 then [] else lit ",") ++ pair_text x ++ concat ((λ y, lit "," ++ pair_text y) <$> l)
       end.
Proof.
  revert i s. induction l as [|[p q] l IH]; intros i s Hi; cbn [push_levels]; [by rewrite app_nil_r|].
  rewrite IH by lia. replace (i + 1 =? 0) with false by lia. unfold pair_text. cbn [fst snd].
  destruct (i =? 0), l; cbn [fmap list_fmap concat]; repeat (cbn [lit app]; rewrite <- ?app_assoc); done.
Qed.

Lemma encode_depth_render symbol bids asks :
  encode_depth symbol bids asks = render [10] (depth_fields symbol bids asks).
Proof.
  unfold encode_depth, depth_fields, head_fields. rewrite !push_levels_text by done.
  unfold render, fields_json, field_json. cbn [fmap list_fmap concat app drop fst snd text_of].
  unfold ladder_text. destruct bids, asks; as_object.
Qed.

End Objects.

(** * Ladders *)

Definition level_ok (pq : Z * Z) : Prop := - 2 ^ 63 ≤ pq.1 < 2 ^ 63 ∧ 0 ≤ pq.2 < 2 ^ 32.

Lemma skip_separators_digits s rest :
  (∀ c, c ∈ s → c = 45 ∨ is_digit c = true) → s ≠ [] → skip_separators (44 :: s ++ rest) = s ++ rest.
Proof.
  intros Hs Hne. destruct s as [|c s]; [done|]. cbn. destruct (Hs c) as [->|Hc]; [by left|done|].
  replace ((c =? 44) || (c =? 32)) with false; [done|]. unfold is_digit in Hc. lia.
Qed.

Lemma pair_text_eq (pq : Z * Z) : pair_text pq = 91 :: to_string pq.1 ++ 44 :: to_string pq.2 ++ [93].
Proof. done. Qed.

Lemma levels_loop_pair fuel pq rest out :
  level_ok pq → levels_loop (S fuel) (pair_text pq ++ rest) out = levels_loop fuel rest (out ++ [pq]).
Proof.
  destruct pq as [p q]. intros [Hp Hq]. rewrite pair_text_eq. cbn [fst snd] in *.
  cbn [levels_loop app Z.eqb Pos.eqb negb]. rewrite <- !app_assoc. cbn [app]. rewrite <- !app_assoc.
  rewrite strtoll_to_string by done. rewrite clamp64_id by done.
  rewrite skip_separators_digits; [|apply to_string_chars|apply to_string_nonempty].
  cbn [app].  rewrite strtoll_to_string by done. rewrite clamp64_id by lia. cbn [to_bracket Z.eqb Pos.eqb drop].
  by rewrite u32_small.
Qed.

Lemma levels_loop_ladder fuel x l rest out :
  level_ok x → Forall level_ok l → (2 * length l + 2 ≤ fuel)%nat →
  levels_loop fuel (pair_text x ++ concat ((λ y, lit "," ++ pair_text y) <$> l) ++ 93 :: rest) out
  = (true, out ++ x :: l).
Proof.
  revert fuel x out. induction l as [|y l IH]; intros fuel x out Hx Hl Hf.
  - destruct fuel as [|[|fuel]]; simpl in Hf; [lia..|]. cbn [fmap list_fmap concat app]. by rewrite levels_loop_pair.
  - apply Forall_cons in Hl as [Hy Hl]. destruct fuel as [|[|fuel]]; simpl in Hf; [lia..|].
    rewrite levels_loop_pair by done. cbn [fmap list_fmap concat]. rewrite <- !app_assoc.
    change (lit "," ++ pair_text y ++ concat ((λ y, lit "," ++ pair_text y) <$> l) ++ 93 :: rest)
      with (44 :: pair_text y ++ concat ((λ y, lit "," ++ pair_text y) <$> l) ++ 93 :: rest).
    cbn [levels_loop Z.eqb Pos.eqb negb]. rewrite IH by (done || lia). by rewrite <- app_assoc.
Qed.

Lemma pair_text_long pq : (2 ≤ length (pair_text pq))%nat.
Proof. unfold pair_text. rewrite !length_app. simpl. lia. Qed.

Lemma levels_loop_parse l rest :
  Forall level_ok l →
  (match ladder_text l ++ rest with
   | c :: s => if c =? 91 then levels_loop (S (length s)) s [] else (false, [])
   | [] => (false, []) end) = (true, l).
Proof.
  intros Hl. unfold ladder_text. change (lit "[") with [91]. change (lit "]") with [93]. cbn [app Z.eqb Pos.eqb].
  destruct l as [|x l]; [done|]. apply Forall_cons in Hl as [Hx Hl]. rewrite <- !app_assoc.
  apply (levels_loop_ladder _ x l rest []); [done|done|]. rewrite !length_app.
  pose proof (pair_text_long x).
  assert (length l * 2 ≤ length (concat ((λ y, lit "," ++ pair_text y) <$> l)))%nat; [|cbn [length]; lia].
  clear. induction l as [|y l IH]; [simpl; lia|]. cbn [fmap list_fmap concat]. rewrite length_app.
  pose proof (pair_text_long y). simpl in *. lia.
Qed.

Section RoundTrips.
Context {D : Type} `{DoubleTextLaws D}.

Lemma nil_no_quote : 34 ∉ ([] : list Z).
Proof. apply not_elem_of_nil. Qed.
#[local] Hint Resolve nil_no_quote : core.

Lemma parse_levels_render k (fs : list (string * JVal D)) l out :
  word k = true → words fs = true → field k fs = Some (JLadder l) → Forall level_ok l →
  parse_levels (render [] fs) (lit k) out = (true, l).
Proof.
  intros Hk Hw Hf Hl. destruct (value_text_render [] (not_elem_of_nil _) _ _ _ Hk Hw Hf) as (i & c & rest & Hc & Hp & Hd).
  unfold parse_levels. rewrite Hp, Hd. pose proof (levels_loop_parse l (c :: rest) Hl) as Hr. cbn [text_of] in *.
  destruct (ladder_text l ++ c :: rest) as [|x s]; [done|]. by destruct (x =? 91).
Qed.

(** What an unsigned 64-bit field becomes on its way through [to_string] and [strtoll]. *)
Lemma u64_clamp z : 0 ≤ z < 2 ^ 64 → u64 (clamp64 z) = Z.min z (2 ^ 63 - 1).
Proof. intros Hz. unfold clamp64. rewrite u64_small; lia. Qed.

(** Read the fields of a rendered object, one per step. *)
#[local] Ltac read_fields :=
  repeat first
    [ rewrite json_get_str_render by done
    | erewrite json_get_int_render by (reflexivity || done)
    | erewrite json_get_double_render by (reflexivity || done)
    | erewrite json_get_bool_render by (reflexivity || done)
    | progress cbn [default from_option fmap option_fmap option_map id] ].

Lemma kind_of_render (fs : list (string * JVal D)) t k :
  words fs = true → field "t" fs = Some (JStr t) →
  (∀ line, json_get_str line (lit "t") = Some t → kind_of line = k) → kind_of (render [] fs) = k.
Proof.
  intros Hw Hf Hk. apply Hk. rewrite json_get_str_render; [by rewrite Hf|done|done|done|by intros ->].
Qed.

#[local] Ltac kind_tac := eapply kind_of_render; [done|reflexivity|intros line E; unfold kind_of; by rewrite E].

Lemma one_line_render (fs : list (string * JVal D)) : words fs = true → one_line (render [10] fs) (render [] fs).
Proof. intros Hw. destruct (render_line fs Hw) as [Hn E]. by split. Qed.

Lemma tick_roundtrip (t t0 : Tick D) :
  0 ≤ t_time t < 2 ^ 64 → 0 ≤ t_volume t < 2 ^ 64 →
  ∃ line, one_line (encode_tick t) line ∧ kind_of line = KTick ∧
  parse_tick line t0 =
    (true, mkTick (t_symbol t) (Z.min (t_time t) (2 ^ 63 - 1)) (round10 (t_bid t)) (round10 (t_ask t))
             (round10 (t_last t)) (Z.min (t_volume t) (2 ^ 63 - 1))).
Proof.
  intros Ht Hv. exists (render [] (tick_fields t)). rewrite encode_tick_render.
  split; [by apply one_line_render|]. split; [kind_tac|]. unfold parse_tick. read_fields.
  cbn [field tick_fields head_fields app]. by rewrite !u64_clamp.
Qed.

Lemma order_roundtrip (o o0 : Order D) :
  0 ≤ o_id o < 2 ^ 64 → o_side o = Buy ∨ o_side o = Sell →
  ∃ line, one_line (encode_order o) line ∧ kind_of line = KOrder ∧
  parse_order line o0 =
    (true, mkOrder (Z.min (o_id o) (2 ^ 63 - 1)) (o_symbol o) (o_side o) (round10 (o_volume o))
             (round10 (o_price o)) (o_kind o)).
Proof.
  intros Ho Hs. exists (render [] (order_fields o)). rewrite encode_order_render.
  split; [by apply one_line_render|]. split; [kind_tac|]. unfold parse_order. read_fields.
  cbn [field order_fields head_fields app]. rewrite u64_clamp by done. by destruct Hs as [-> | ->].
Qed.

Lemma ack_roundtrip (a a0 : Ack) :
  0 ≤ a_id a < 2 ^ 64 → - 2 ^ 31 ≤ a_retcode a < 2 ^ 31 →
  ∃ line, one_line (encode_ack a) line ∧ kind_of line = KAck ∧
  parse_ack line a0 = (true, mkAck (Z.min (a_id a) (2 ^ 63 - 1)) (a_ok a) (a_retcode a) (a_message a)).
Proof.
  intros Ha Hr. exists (render [] (ack_fields (D := D) a)). rewrite (encode_ack_render (D := D)).
  split; [by apply one_line_render|]. split; [kind_tac|]. unfold parse_ack. read_fields.
  cbn [field ack_fields head_fields app]. rewrite u64_clamp, clamp64_id, to_int_small by lia. done.
Qed.

Lemma depth_roundtrip symbol bids asks symbol0 bids0 asks0 :
  Forall level_ok bids → Forall level_ok asks →
  ∃ line, one_line (encode_depth symbol bids asks) line ∧ kind_of line = Depth ∧
  parse_depth line symbol0 bids0 asks0 = (true, (symbol, bids, asks)).
Proof.
  intros Hb Ha. exists (render [] (depth_fields (D := D) symbol bids asks)). rewrite (encode_depth_render (D := D)).
  split; [by apply one_line_render|]. split; [kind_tac|]. unfold parse_depth. read_fields.
  erewrite !parse_levels_render by (done || reflexivity). done.
Qed.

Lemma signal_roundtrip symbol (m p i b : D) symbol0 m0 p0 i0 b0 :
  ∃ line, one_line (encode_signal symbol m p i b) line ∧ kind_of line = Signal ∧
  parse_signal line symbol0 m0 p0 i0 b0 = (true, (symbol, round10 m, round10 p, round10 i, round10 b)).
Proof.
  exists (render [] (signal_fields symbol m p i b)). rewrite encode_signal_render.
  split; [by apply one_line_render|]. split; [kind_tac|]. unfold parse_signal. read_fields. done.
Qed.

(** The lines of session control. *)
Lemma session_kinds client account server ok symbol time :
  Forall2 (λ msg k, ∃ line, one_line msg line ∧ kind_of line = k)
    [encode_hello client account; encode_hello_reply server ok; encode_subscribe symbol;
     encode_heartbeat time; encode_nop; encode_bye]
    [Hello; Hello; Subscribe; Heartbeat; Nop; Bye].
Proof.
  rewrite (encode_hello_render (D := D)), (encode_hello_reply_render (D := D)),
    (encode_subscribe_render (D := D)), (encode_heartbeat_render (D := D)).
  repeat apply Forall2_cons_2; [eexists; split; [by apply one_line_render|kind_tac]..| | |done].
  - exists (jlit "{'t':'nop','v':1}"). split; [split; [done|set_solver]|done].
  - exists (jlit "{'t':'bye','v':1}"). split; [split; [done|set_solver]|done].
Qed.

(** C29: A tick, an order and an acknowledgement survive the way through their encoder and the
    field scanner, whatever characters the symbol, the order kind or the message hold: each
    is one line, recognised as its kind, and the parser returns true and every field: strings,
    sides (buy or sell), the flag and the return code unchanged, doubles as they are read back from
    ten significant digits, and unsigned 64-bit fields saturated at 2^63 - 1. *)
Theorem mt5_message_roundtrip (t t0 : Tick D) (o o0 : Order D) (a a0 : Ack) :
  0 ≤ t_time t < 2 ^ 64 → 0 ≤ t_volume t < 2 ^ 64 → 0 ≤ o_id o < 2 ^ 64 → o_side o = Buy ∨ o_side o = Sell →
  0 ≤ a_id a < 2 ^ 64 → - 2 ^ 31 ≤ a_retcode a < 2 ^ 31 →
  (∃ line, one_line (encode_tick t) line ∧ kind_of line = KTick ∧
   parse_tick line t0 =
     (true, mkTick (t_symbol t) (Z.min (t_time t) (2 ^ 63 - 1)) (round10 (t_bid t)) (round10 (t_ask t))
              (round10 (t_last t)) (Z.min (t_volume t) (2 ^ 63 - 1)))) ∧
  (∃ line, one_line (encode_order o) line ∧ kind_of line = KOrder ∧
   parse_order line o0 =
     (true, mkOrder (Z.min (o_id o) (2 ^ 63 - 1)) (o_symbol o) (o_side o) (round10 (o_volume o))
              (round10 (o_price o)) (o_kind o))) ∧
  (∃ line, one_line (encode_ack a) line ∧ kind_of line = KAck ∧
   parse_ack line a0 = (true, mkAck (Z.min (a_id a) (2 ^ 63 - 1)) (a_ok a) (a_retcode a) (a_message a))).
Proof.
  intros Ht Hv Ho Hs Ha Hr. split; [by apply tick_roundtrip|]. split; [by apply order_roundtrip|by apply ack_roundtrip].
Qed.

(** A published depth snapshot reaches the subscriber exactly: for every symbol and every
    pair of ladders with 64-bit prices and 32-bit quantities, empty ones included, the
    message is one line, recognised as a depth message, and the parser returns the symbol and
    both ladders; a signal message returns its four doubles as printed and read back. *)
Theorem mt5_publish_roundtrip symbol bids asks symbol0 bids0 asks0 (m p i b m0 p0 i0 b0 : D) :
  Forall level_ok bids → Forall level_ok asks →
  (∃ line, one_line (encode_depth symbol bids asks) line ∧ kind_of line = Depth ∧
   parse_depth line symbol0 bids0 asks0 = (true, (symbol, bids, asks))) ∧
  (∃ line, one_line (encode_signal symbol m p i b) line ∧ kind_of line = Signal ∧
   parse_signal line symbol0 m0 p0 i0 b0 = (true, (symbol, round10 m, round10 p, round10 i, round10 b))).
Proof. intros Hb Ha. split; [by apply depth_roundtrip|apply signal_roundtrip]. Qed.

(** On the text of any object whose keys are words, whatever its values contain, the
    parsers ask for their required fields only: a tick with a symbol string and bid and ask
    numbers is accepted and one without any of them rejected, likewise an order for id,
    symbol and side and an acknowledgement for id; a line without a tag is of unknown kind. *)
Theorem mt5_required_fields (fs : list (string * JVal D)) (t0 : Tick D) (o0 : Order D) (a0 : Ack) :
  words fs = true → fs ≠ [] →
  (∀ s b a, field "symbol" fs = Some (JStr s) → field "bid" fs = Some (JNum b) → field "ask" fs = Some (JNum a) →
     (parse_tick (render [] fs) t0).1 = true) ∧
  (∀ i s c r, field "id" fs = Some (JInt i) → field "symbol" fs = Some (JStr s) → field "side" fs = Some (JStr (c :: r)) →
     (parse_order (render [] fs) o0).1 = true) ∧
  (∀ i, field "id" fs = Some (JInt i) → (parse_ack (render [] fs) a0).1 = true) ∧
  (field "symbol" fs = None ∨ field "bid" fs = None ∨ field "ask" fs = None → (parse_tick (render [] fs) t0).1 = false) ∧
  (field "id" fs = None ∨ field "symbol" fs = None ∨ field "side" fs = None → (parse_order (render [] fs) o0).1 = false) ∧
  (field "id" fs = None → (parse_ack (render [] fs) a0).1 = false) ∧
  (field "t" fs = None → kind_of (render [] fs) = Unknown).
Proof.
  intros Hw Hne.
  assert (Hget : ∀ k, word k = true → field k fs = None →
    json_get_str (render [] fs) (lit k) = None ∧ json_get_int (render [] fs) (lit k) = None
    ∧ json_get_double (D := D) (render [] fs) (lit k) = None).
  { intros k Hk Hf. rewrite json_get_str_render by done. rewrite Hf. by destruct (json_get_absent [] (not_elem_of_nil _) k fs) as (? & ? & _). }
  unfold parse_tick, parse_order, parse_ack, kind_of. split_and!.
  - intros s b a Hs Hb Ha. rewrite json_get_str_render, Hs by done. by erewrite !json_get_double_render by done.
  - intros i s c r Hi Hs Hd. erewrite json_get_int_render by done. rewrite !json_get_str_render by done.
    by rewrite Hs, Hd.
  - intros i Hi. by erewrite json_get_int_render by done.
  - intros [Hf|[Hf|Hf]]; apply Hget in Hf as (E1 & _ & E2); try done; rewrite ?E1, ?E2; by repeat case_match.
  - intros [Hf|[Hf|Hf]]; apply Hget in Hf as (E1 & E2 & _); try done; rewrite ?E1, ?E2; by repeat case_match.
  - intros Hf. by apply Hget in Hf as (_ & -> & _).
  - intros Hf. by apply Hget in Hf as (-> & _ & _).
Qed.
End RoundTrips.

(** The encoder writes the whole unsigned range, the parser stops at 2^63 - 1. *)
Lemma large_id_saturates :
  parse_ack (encode_ack (mkAck (2 ^ 63) true 0 [])) ack0 = (true, mkAck (2 ^ 63 - 1) true 0 []).
Proof. vm_compute. reflexivity. Qed.

(** * An instance of the conversions: whole numbers *)

Module WholeDoubles.

#[export] Instance whole_text : DoubleText Z := {| dbl_zero := 0; fmt_double := to_string; strtod := strtoll |}.

#[export] Instance whole_laws : DoubleTextLaws Z.
Proof.
  refine {| round10 := clamp64 |}.
  - apply to_string_no_quote.
  - apply to_string_no_newline.
  - intros d. pose proof (to_string_chars d) as Hc. pose proof (to_string_nonempty d). cbn [fmt_double whole_text].
    destruct (to_string d) as [|c s]; [done|]. exists c, s. split; [done|].
    destruct (Hc c) as [->|Hd]; [by left|done|]. unfold is_digit, is_blank in *. lia.
  - intros d c s Hc. apply strtoll_to_string. by apply ends_value_no_digit.
Defined.

Lemma mt5_message_roundtrip_witness :
  let sym := jlit ",'bid':7,'" in
  ∃ line, one_line (encode_tick (mkTick sym 5 12 13 0 (2 ^ 64 - 1))) line ∧ kind_of line = KTick ∧
  parse_tick line tick0 = (true, mkTick sym 5 12 13 0 (2 ^ 63 - 1)).
Proof.
  intros sym. destruct (mt5_message_roundtrip (D := Z) (mkTick sym 5 12 13 0 (2 ^ 64 - 1)) tick0
    (mkOrder 1 sym Buy 1 0 (lit "market")) order0 (mkAck 1 true 10009 sym) ack0) as (Ht & _);
    [done|done|done|by left|done|done|exact Ht].
Defined.

Lemma mt5_publish_roundtrip_witness :
  ∃ line, one_line (encode_depth (lit "AAPL") [(1000, 5); (-3, 7)] []) line ∧ kind_of line = Depth ∧
  parse_depth line [] [] [(1, 1)] = (true, (lit "AAPL", [(1000, 5); (-3, 7)], [])).
Proof.
  destruct (mt5_publish_roundtrip (D := Z) (lit "AAPL") [(1000, 5); (-3, 7)] [] [] [] [(1, 1)] 1 2 3 4 0 0 0 0)
    as (Hd & _); [by repeat constructor; vm_compute|by constructor|exact Hd].
Defined.

Lemma mt5_required_fields_witness :
  (parse_tick (render [] [("t", JStr (lit "tick")); ("symbol", JStr (jlit "x','bid':1,'ask':2")); ("bid", JNum 3)]%string) tick0).1 = false.
Proof.
  destruct (mt5_required_fields (D := Z)
    [("t", JStr (lit "tick")); ("symbol", JStr (jlit "x','bid':1,'ask':2")); ("bid", JNum 3)]%string tick0 order0 ack0)
    as (_ & _ & _ & Ht & _); [done|done|]. apply Ht. right. right. done.
Defined.

End WholeDoubles.
