(* ===== verification/Metrics.v ===== *)
(** Book metrics (include/book/metrics.hpp): the signals computed from the top and the depth of
    a book.  Floating point is the class [FloatOps], so the flags, prices, sizes and depth sums
    are exact facts for every format; the bounds on the ratios are proved for exact rationals. *)
From S2P Require Export BookTheorems.
From Stdlib Require Import QArith Lqa.

#[local] Open Scope Z_scope.

(** [double] ([D]) and [long double] ([LD]) with the operations the code uses. *)

Class FloatOps (D LD : Type) := {
  d_zero : D;
  d_of_int : Z → D;
  d_half : D → D;
  d_add : D → D → D;
  d_sub : D → D → D;
  d_mul : D → D → D;
  d_div : D → D → D;
  d_pos : D → bool;
  d_1e4 : D;
  ld_zero : LD;
  ld_of_int : Z → LD;
  ld_of_double : D → LD;
  ld_add : LD → LD → LD;
  ld_mul : LD → LD → LD;
  ld_div : LD → LD → LD;
  ld_pos : LD → bool;
  ld_to_double : LD → D;
}.

Record BookMetrics (D : Type) := mkMetrics {
  has_bid : bool;
  has_ask : bool;
  two_sided : bool;
  bid_px : Price;
  ask_px : Price;
  bid_qty : Qty;
  ask_qty : Qty;
  mid : D;
  microprice : D;
  weighted_mid : D;
  spread_ticks : Price;
  spread_bps : D;
  imbalance_top : D;
  imbalance_n : D;
  bid_depth_n : Z;
  ask_depth_n : Z;
}.

Arguments mkMetrics {D} _ _ _ _ _ _ _ _ _ _ _ _ _ _ _ _.
Arguments has_bid {D} _.
Arguments has_ask {D} _.
Arguments two_sided {D} _.
Arguments bid_px {D} _.
Arguments ask_px {D} _.
Arguments bid_qty {D} _.
Arguments ask_qty {D} _.
Arguments mid {D} _.
Arguments microprice {D} _.
Arguments weighted_mid {D} _.
Arguments spread_ticks {D} _.
Arguments spread_bps {D} _.
Arguments imbalance_top {D} _.
Arguments imbalance_n {D} _.
Arguments bid_depth_n {D} _.
Arguments ask_depth_n {D} _.

Section Metrics.
Context {D LD : Type} `{FloatOps D LD}.
Context {F : Compare → Type} `{LevelStore F}.

Definition to_dollars (p : Price) : D := d_div (d_of_int p) (d_of_int kPriceScale).

(** One level of the depth loops: the weighted sum, the weights and the side's size. *)

Definition depth_step (acc : LD * LD * Z) (lv : Price * Qty) : LD * LD * Z :=
  let '(num, den, sum) := acc in
  (ld_add num (ld_mul (ld_of_double (to_dollars lv.1)) (ld_of_int lv.2)), ld_add den (ld_of_int lv.2), u64 (sum + lv.2)).

Definition two_sided_metrics (bp bq ap aq : Z) (bids asks : list (Price * Qty)) : BookMetrics D :=
  let bidd := to_dollars bp in
  let askd := to_dollars ap in
  let mid := d_half (d_add bidd askd) in
  let spread := ap - bp in
  let bps := if d_pos mid then d_mul (d_div (to_dollars spread) mid) d_1e4 else d_zero in
  let top := d_add (d_of_int bq) (d_of_int aq) in
  let micro := if d_pos top
               then d_div (d_add (d_mul bidd (d_of_int aq)) (d_mul askd (d_of_int bq))) top else mid in
  let imb := if d_pos top then d_div (d_sub (d_of_int bq) (d_of_int aq)) top else d_zero in
  let '(num, den, bsum) := foldl depth_step (ld_zero, ld_zero, 0) bids in
  let '(num, den, asum) := foldl depth_step (num, den, 0) asks in
  let wmid := if ld_pos den then ld_to_double (ld_div num den) else mid in
  let dn := d_add (d_of_int bsum) (d_of_int asum) in
  let imbn := if d_pos dn then d_div (d_sub (d_of_int bsum) (d_of_int asum)) dn else d_zero in
  mkMetrics true true true bp ap bq aq mid micro wmid spread bps imb imbn bsum asum.

Definition one_sided_metrics (bb ba : option (Price * Qty)) : BookMetrics D :=
  mkMetrics (bool_decide (is_Some bb)) (bool_decide (is_Some ba)) false
    (default 0 (fst <$> bb)) (default 0 (fst <$> ba)) (default 0 (snd <$> bb)) (default 0 (snd <$> ba))
    d_zero d_zero d_zero 0 d_zero d_zero d_zero 0 0.

Definition compute_metrics (book : BasicOrderBook F) (n_levels : nat) : option (BookMetrics D) :=
  bb ← best_bid book;
  ba ← best_ask book;
  match bb, ba with
  | Some (bp, bq), Some (ap, aq) =>
      bs ← bids book n_levels;
      as_ ← asks book n_levels;
      Some (two_sided_metrics bp bq ap aq bs as_)
  | _, _ => Some (one_sided_metrics bb ba)
  end.

End Metrics.

(** * Integer parts *)

Definition depth_size (l : list (Price * Qty)) : Z := foldr (λ lv n, lv.2 + n) 0 l.

Definition sizes_ok (l : list (Price * Qty)) : Prop := Forall (λ lv, 0 < lv.2 < 2 ^ 32) l.

Section IntegerFacts.
Context {D LD : Type} `{FloatOps D LD}.

Lemma depth_sum num den s l :
  (foldl depth_step (num, den, s) l).2 = (if decide (l = []) then s else u64 (s + depth_size l)).
Proof.
  revert num den s. induction l as [|lv l IH]; intros num den s; [done|]. cbn [foldl depth_step depth_size foldr].
  rewrite IH. rewrite (decide_False (P := lv :: l = [])) by done. fold (depth_size l). destruct (decide (l = [])) as [->|].
  - simpl. by rewrite Z.add_0_r.
  - rewrite u64_add_l. f_equal. lia.
Qed.

Lemma depth_size_bound l : sizes_ok l → 0 ≤ depth_size l ≤ zlen l * (2 ^ 32 - 1).
Proof.
  induction 1 as [|lv l Hlv _ IH]; [done|]. cbn [depth_size foldr]. fold (depth_size l). rewrite zlen_cons. lia.
Qed.

Lemma depth_sum_exact num den l :
  sizes_ok l → zlen l ≤ 2 ^ 32 → (foldl depth_step (num, den, 0) l).2 = depth_size l.
Proof.
  intros Hl Hn. rewrite depth_sum. pose proof (depth_size_bound l Hl). destruct (decide (l = [])) as [->|]; [done|].
  rewrite Z.add_0_l. apply u64_small. pose proof (zlen_nonneg l). nia.
Qed.

Lemma two_sided_fields bp bq ap aq bs as_ :
  sizes_ok bs → sizes_ok as_ → zlen bs ≤ 2 ^ 32 → zlen as_ ≤ 2 ^ 32 →
  let m := two_sided_metrics (D := D) bp bq ap aq bs as_ in
  has_bid m = true ∧ has_ask m = true ∧ two_sided m = true ∧ bid_px m = bp ∧ ask_px m = ap ∧ bid_qty m = bq
  ∧ ask_qty m = aq ∧ spread_ticks m = ap - bp ∧ bid_depth_n m = depth_size bs ∧ ask_depth_n m = depth_size as_.
Proof.
  intros Hb Ha Hnb Hna m. unfold m, two_sided_metrics.
  pose proof (depth_sum_exact ld_zero ld_zero bs Hb Hnb) as Eb. destruct (foldl depth_step _ bs) as [[num den] bsum].
  pose proof (depth_sum_exact num den as_ Ha Hna) as Ea. destruct (foldl depth_step _ as_) as [[num' den'] asum].
  simpl in *. by subst.
Qed.
End IntegerFacts.

Section OnBooks.
Context {D LD : Type} `{FloatOps D LD}.
Context {F : Compare → Type} `{LevelStoreSpec F}.

Lemma ladder_sizes c m n : levels_ok m → sizes_ok (take n (ladder c m)) .
Proof.
  intros Hok. apply Forall_take, Forall_forall. intros [p q] Hin. apply ladder_elem in Hin. by destruct (Hok _ _ Hin).
Qed.

(** The best level bounds the levels behind it. *)
Lemma ladder_top_bound c m n p q :
  levels_ok m → head (ladder c m) = Some (p, q) →
  price_ok p ∧ 0 < q < 2 ^ 32 ∧
  Forall (λ lv, price_ok lv.1 ∧ (lv.1 = p ∨ cmp c p lv.1 = true)) (take n (ladder c m)).
Proof.
  intros Hok Eh. pose proof (ladder_best c m Hok) as Hbest. rewrite Eh in Hbest. destruct Hbest as (_ & _ & Hbest).
  assert (Hin : (p, q) ∈ ladder c m) by (by apply head_Some_elem_of). apply ladder_elem in Hin.
  destruct (Hok _ _ Hin) as [Hp Hq]. split; [done|]. split; [done|].
  apply Forall_take, Forall_forall. intros [p' q'] Hin'. apply ladder_elem in Hin'. destruct (Hok _ _ Hin') as [Hp' Hq'].
  split; [done|]. apply Hbest. unfold lv_at. cbn [fst]. rewrite Hin'. simpl. lia.
Qed.

Lemma zlen_take_le {A} n (l : list A) : zlen (take n l) ≤ Z.of_nat n.
Proof. unfold zlen. rewrite length_take. lia. Qed.

Lemma take_head {A} n (l : list A) x : head l = Some x → n ≠ 0%nat → take n l ≠ [].
Proof. by destruct l, n. Qed.

(** What the metrics of a reconstructed book are computed from. *)
Lemma metrics_cases ms (b : BasicOrderBook F) n :
  stream_ok ms → apply_all book0 ms = Some b →
  ∃ bb ba bs as_, best_bid b = Some bb ∧ best_ask b = Some ba ∧ bids b n = Some bs ∧ asks b n = Some as_
    ∧ sizes_ok bs ∧ sizes_ok as_ ∧ zlen bs ≤ Z.of_nat n ∧ zlen as_ ≤ Z.of_nat n
    ∧ (∀ p q, bb = Some (p, q) → 0 ≤ p < 2 ^ 32 ∧ 0 < q < 2 ^ 32 ∧ Forall (λ lv, 0 ≤ lv.1 ≤ p) bs ∧ (n ≠ 0%nat → bs ≠ []))
    ∧ (∀ p q, ba = Some (p, q) → 0 ≤ p < 2 ^ 32 ∧ 0 < q < 2 ^ 32 ∧ Forall (λ lv, p ≤ lv.1 < 2 ^ 32) as_ ∧ (n ≠ 0%nat → as_ ≠ []))
    ∧ compute_metrics b n = Some (match bb, ba with
                                  | Some (bp, bq), Some (ap, aq) => two_sided_metrics bp bq ap aq bs as_
                                  | _, _ => one_sided_metrics (D := D) bb ba
                                  end).
Proof.
  intros Hs Hb. destruct (run_rep_inv ms b Hs Hb) as [Hr Hi]. set (a := ab_run ab0 ms) in *.
  assert (Hob : levels_ok (ab_bids a)) by exact (ao_lvl a (ai_ok a Hi) true).
  assert (Hoa : levels_ok (ab_asks a)) by exact (ao_lvl a (ai_ok a Hi) false).
  destruct (query_rep b a Hr) as (E1 & E2 & _ & _ & _ & _ & E3 & E4).
  exists (head (ladder Greater (ab_bids a))), (head (ladder Less (ab_asks a))),
    (take n (ladder Greater (ab_bids a))), (take n (ladder Less (ab_asks a))).
  split_and!; try done; [by apply ladder_sizes|by apply ladder_sizes|apply zlen_take_le|apply zlen_take_le|..].
  - intros p q Eh. destruct (ladder_top_bound Greater _ n p q Hob Eh) as (Hp & Hq & Hall). split; [done|]. split; [done|].
    split; [|by eapply take_head]. eapply Forall_impl; [exact Hall|]. intros [p' q'] [Hp' [->|Hlt]]; unfold price_ok, fits, cmp in *; simpl in *; lia.
  - intros p q Eh. destruct (ladder_top_bound Less _ n p q Hoa Eh) as (Hp & Hq & Hall). split; [done|]. split; [done|].
    split; [|by eapply take_head]. eapply Forall_impl; [exact Hall|]. intros [p' q'] [Hp' [->|Hlt]]; unfold price_ok, fits, cmp in *; simpl in *; lia.
  - unfold compute_metrics. rewrite E1, E2. simpl.
    destruct (head (ladder Greater _)) as [[bp bq]|], (head (ladder Less _)) as [[ap aq]|]; try done.
    by rewrite E3, E4.
Qed.
End OnBooks.

(** With [std::map] levels the metrics of any book can be computed. *)
Lemma map_metrics_total {D LD} `{FloatOps D LD} (b : BasicOrderBook MapLevels) n : is_Some (compute_metrics (D := D) b n).
Proof.
  unfold compute_metrics, bids, asks, best_bid, best_ask, ls_top, ls_best. cbn.
  destruct (MapLevels.best _) as [[? ?]|], (MapLevels.best _) as [[? ?]|]; cbn; by eexists.
Qed.

(** Whole numbers in place of floating point, for evaluation. *)

Module WholeFloats.

#[export] Instance whole_ops : FloatOps Z Z := {|
  d_zero := 0; d_of_int := id; d_half := λ x, x / 2; d_add := Z.add; d_sub := Z.sub; d_mul := Z.mul; d_div := Z.div;
  d_pos := Z.ltb 0; d_1e4 := 10000; ld_zero := 0; ld_of_int := id; ld_of_double := id; ld_add := Z.add; ld_mul := Z.mul;
  ld_div := Z.div; ld_pos := Z.ltb 0; ld_to_double := id |}.

End WholeFloats.

(** * Exact arithmetic *)

#[global] Instance exact_ops : FloatOps Q Q := {|
  d_zero := 0%Q;
  d_of_int := inject_Z;
  d_half := λ x, ((1 # 2) * x)%Q;
  d_add := Qplus;
  d_sub := Qminus;
  d_mul := Qmult;
  d_div := Qdiv;
  d_pos := λ x, negb (Qle_bool x 0);
  d_1e4 := 10000%Q;
  ld_zero := 0%Q;
  ld_of_int := inject_Z;
  ld_of_double := λ x, x;
  ld_add := Qplus;
  ld_mul := Qmult;
  ld_div := Qdiv;
  ld_pos := λ x, negb (Qle_bool x 0);
  ld_to_double := λ x, x;
|}.

Section Exact.
#[local] Open Scope Q_scope.

Definition dollars (p : Z) : Q := to_dollars (D := Q) p.

Lemma pos_true x : 0 < x → negb (Qle_bool x 0) = true.
Proof. intros Hx. apply negb_true_iff. destruct (Qle_bool x 0) eqn:E; [|done]. apply Qle_bool_imp_le in E. lra. Qed.

Lemma inject_pos q : (0 < q)%Z → 0 < inject_Z q.
Proof. intros Hq. change 0 with (inject_Z 0). by rewrite <- Zlt_Qlt. Qed.

Lemma dollars_eq p : dollars p == inject_Z p / 10000.
Proof. done. Qed.

Lemma dollars_le p q : (p ≤ q)%Z → dollars p <= dollars q.
Proof. intros Hpq. rewrite !dollars_eq. apply Qmult_le_compat_r; [by rewrite <- Zle_Qle|by vm_compute]. Qed.

Lemma dollars_nonneg p : (0 ≤ p)%Z → 0 <= dollars p.
Proof. intros Hp. rewrite <- (Qmult_0_l (/ 10000)). by apply (dollars_le 0 p). Qed.

(** A ratio whose numerator is between multiples of a positive denominator. *)
Lemma ratio_bounds lo hi num den : 0 < den → lo * den <= num <= hi * den → lo <= num / den <= hi.
Proof. intros Hd [Hl Hh]. split; [by apply Qle_shift_div_l|by apply Qle_shift_div_r]. Qed.

(** The sums of the depth loops stay between multiples of the weight. *)
Lemma depth_bounds lo hi l num den s :
  Forall (λ lv, (0 < lv.2)%Z ∧ lo <= dollars lv.1 <= hi) l → 0 <= den → lo * den <= num <= hi * den →
  let '(num', den', _) := foldl depth_step (num, den, s) l in
  lo * den' <= num' <= hi * den' ∧ den <= den' ∧ (l ≠ [] → den < den').
Proof.
  intros Hl. revert num den s. induction Hl as [|lv l [Hq Hp] _ IH]; intros num den s Hd Hn; [simpl; split; [done|]; split; [lra|done]|].
  cbn [foldl depth_step]. pose proof (inject_pos _ Hq) as Hw. change (to_dollars lv.1) with (dollars lv.1).
  set (w := inject_Z lv.2) in *. set (d := dollars lv.1) in *.
  specialize (IH (num + d * w) (den + w) (u64 (s + lv.2))). unfold ld_add, ld_mul, ld_of_double, ld_of_int, exact_ops. fold w.
  destruct (foldl depth_step _ l) as [[num' den'] s']. destruct IH as (H1 & H2 & _); [lra|nra|].
  split; [done|]. split; [lra|]. intros _. lra.
Qed.

Lemma imbalance_bounds x y : (0 ≤ x)%Z → (0 ≤ y)%Z →
  -(1) <= (if negb (Qle_bool (inject_Z x + inject_Z y) 0)
           then (inject_Z x - inject_Z y) / (inject_Z x + inject_Z y) else 0) <= 1.
Proof.
  intros Hx Hy. rewrite Zle_Qle in Hx, Hy. change (inject_Z 0) with 0 in *.
  destruct (Qle_bool (inject_Z x + inject_Z y) 0) eqn:E; cbn [negb]; [lra|].
  assert (0 < inject_Z x + inject_Z y).
  { destruct (Qlt_le_dec 0 (inject_Z x + inject_Z y)) as [|Hle]; [done|]. apply Qle_bool_iff in Hle. congruence. }
  apply ratio_bounds; [done|lra].
Qed.

(** The ratios of a two-sided, uncrossed top of book. *)
Lemma exact_top bp bq ap aq bs as_ :
  (0 < bq)%Z → (0 < aq)%Z → (0 ≤ bp ≤ ap)%Z →
  let m := two_sided_metrics (D := Q) (LD := Q) bp bq ap aq bs as_ in
  dollars bp <= mid m <= dollars ap ∧ dollars bp <= microprice m <= dollars ap
  ∧ ((bp < ap)%Z → (mid m <= microprice m ↔ (aq ≤ bq)%Z)) ∧ 0 <= spread_bps m ∧ -(1) <= imbalance_top m <= 1.
Proof.
  intros Hbq Haq [Hbp Hap] m. unfold m, two_sided_metrics.
  destruct (foldl depth_step _ bs) as [[num den] bsum]. destruct (foldl depth_step _ as_) as [[num' den'] asum].
  cbn [mid microprice spread_bps imbalance_top]. unfold d_half, d_add, d_mul, d_sub, d_of_int, d_div, d_pos, d_zero, d_1e4, exact_ops.
  change (to_dollars bp) with (dollars bp). change (to_dollars ap) with (dollars ap). change (to_dollars (ap - bp)) with (dollars (ap - bp)).
  pose proof (inject_pos _ Hbq) as Wb. pose proof (inject_pos _ Haq) as Wa. pose proof (dollars_le _ _ Hap) as Hd.
  rewrite pos_true by lra. set (B := dollars bp) in *. set (A := dollars ap) in *.
  set (x := inject_Z bq) in *. set (y := inject_Z aq) in *.
  assert (Hm : B <= (B * y + A * x) / (x + y) <= A) by (apply ratio_bounds; [lra|nra]).
  split; [lra|]. split; [done|]. split; [|split].
  - intros Hlt. assert (HAB : B < A).
    { unfold A, B. rewrite !dollars_eq. apply Qmult_lt_compat_r; [by vm_compute|by rewrite <- Zlt_Qlt]. }
    rewrite Zle_Qle. fold x y. split.
    + intros Hle. apply Qnot_lt_le. intros Hxy.
      assert ((B * y + A * x) / (x + y) < (1 # 2) * (B + A)) by (apply Qlt_shift_div_r; [lra|nra]). lra.
    + intros Hyx. apply Qle_shift_div_l; [lra|nra].
  - destruct (negb _) eqn:E; [|lra]. apply negb_true_iff in E.
    assert (0 < (1 # 2) * (B + A)).
    { destruct (Qlt_le_dec 0 ((1 # 2) * (B + A))) as [|Hle]; [done|]. apply Qle_bool_iff in Hle. congruence. }
    assert (Hs : 0 <= dollars (ap - bp)) by (apply dollars_nonneg; lia).
    assert (0 <= dollars (ap - bp) / ((1 # 2) * (B + A))) by (apply Qle_shift_div_l; [done|lra]). lra.
  - apply ratio_bounds; [lra|lra].
Qed.

Lemma exact_depth bp bq ap aq bs as_ lo hi :
  sizes_ok bs → sizes_ok as_ → (zlen bs ≤ 2 ^ 32)%Z → (zlen as_ ≤ 2 ^ 32)%Z →
  Forall (λ lv, (lo ≤ lv.1 ≤ hi)%Z) bs → Forall (λ lv, (lo ≤ lv.1 ≤ hi)%Z) as_ → bs ≠ [] →
  let m := two_sided_metrics (D := Q) (LD := Q) bp bq ap aq bs as_ in
  dollars lo <= weighted_mid m <= dollars hi ∧ -(1) <= imbalance_n m <= 1.
Proof.
  intros Hsb Hsa Hnb Hna Hb Ha Hne m. unfold m, two_sided_metrics.
  assert (Hpt : ∀ l, sizes_ok l → Forall (λ lv, (lo ≤ lv.1 ≤ hi)%Z) l →
    Forall (λ lv, (0 < lv.2)%Z ∧ dollars lo <= dollars lv.1 <= dollars hi) l).
  { intros l Hs Hl. unfold sizes_ok in Hs. rewrite Forall_forall in *. intros lv Hin.
    destruct (Hs lv Hin) as [Hq _]. destruct (Hl lv Hin) as [H1 H2]. split; [done|]. split; by apply dollars_le. }
  pose proof (depth_sum_exact ld_zero ld_zero bs Hsb Hnb) as Eb.
  pose proof (depth_bounds (dollars lo) (dollars hi) bs ld_zero ld_zero 0 (Hpt _ Hsb Hb)) as Bb.
  destruct (foldl depth_step (ld_zero, ld_zero, 0%Z) bs) as [[num den] bsum].
  change (@ld_zero Q Q exact_ops) with 0 in Bb. destruct Bb as (H1 & H2 & H3); [lra|lra|]. specialize (H3 Hne).
  pose proof (depth_sum_exact num den as_ Hsa Hna) as Ea.
  pose proof (depth_bounds (dollars lo) (dollars hi) as_ num den 0 (Hpt _ Hsa Ha)) as Ba.
  destruct (foldl depth_step (num, den, 0%Z) as_) as [[num' den'] asum].
  destruct Ba as (G1 & G2 & _); [lra|done|]. cbn [weighted_mid imbalance_n snd] in *.
  unfold ld_pos, ld_div, ld_to_double, d_add, d_sub, d_div, d_pos, d_of_int, d_zero, exact_ops. rewrite (pos_true den') by lra.
  split; [apply ratio_bounds; [lra|done]|]. subst. apply imbalance_bounds; by apply depth_size_bound.
Qed.
End Exact.

(** * Metrics of a reconstructed book *)

(** For every floating-point format, computing the metrics of a book built from a valid
    stream succeeds; the flags say which sides have orders, top prices and sizes are those of
    the book, and on a two-sided book the spread is the difference of the best prices and
    both depth figures are the exact sums of the first [n] levels of their side. *)
Theorem metrics_describe_book {D LD} `{FloatOps D LD} {F : Compare → Type} `{LevelStoreSpec F} ms
    (b : BasicOrderBook F) n :
  stream_ok ms → apply_all book0 ms = Some b → Z.of_nat n ≤ 2 ^ 32 →
  ∃ bb ba bs as_ (m : BookMetrics D),
    best_bid b = Some bb ∧ best_ask b = Some ba ∧ bids b n = Some bs ∧ asks b n = Some as_ ∧
    compute_metrics b n = Some m ∧
    has_bid m = bool_decide (is_Some bb) ∧ has_ask m = bool_decide (is_Some ba) ∧ two_sided m = has_bid m && has_ask m ∧
    (bid_px m, bid_qty m) = default (0, 0) bb ∧ (ask_px m, ask_qty m) = default (0, 0) ba ∧
    (two_sided m = true →
       spread_ticks m = ask_px m - bid_px m ∧ bid_depth_n m = depth_size bs ∧ ask_depth_n m = depth_size as_).
Proof.
  intros Hs Hb Hn. destruct (metrics_cases ms b n Hs Hb) as (bb & ba & bs & as_ & E1 & E2 & E3 & E4 & S1 & S2 & L1 & L2 & _ & _ & Em).
  exists bb, ba, bs, as_. eexists. do 4 (split; [done|]). split; [exact Em|].
  destruct bb as [[bp bq]|], ba as [[ap aq]|]; [|by split_and!..].
  destruct (two_sided_fields (D := D) bp bq ap aq bs as_) as (-> & -> & -> & -> & -> & -> & -> & -> & -> & ->); [done..|lia|lia|].
  by split_and!.
Qed.

(** In exact arithmetic, on an uncrossed two-sided book the mid price and the micro-price lie
    between the best prices, the micro-price is on the ask's side of the mid exactly when the
    bid is at least as large as the ask, the spread in basis points is not negative, both
    imbalances lie in [-1, 1] and the depth-weighted price lies between any bounds of the
    first [n] levels. *)
Theorem metrics_exact_bounds {F : Compare → Type} `{LevelStoreSpec F} ms (b : BasicOrderBook F) n bp bq ap aq :
  stream_ok ms → apply_all book0 ms = Some b → (0 < n)%nat → Z.of_nat n ≤ 2 ^ 32 →
  best_bid b = Some (Some (bp, bq)) → best_ask b = Some (Some (ap, aq)) → bp ≤ ap →
  ∃ (m : BookMetrics Q) bs as_, compute_metrics b n = Some m ∧ bids b n = Some bs ∧ asks b n = Some as_ ∧
    (dollars bp <= mid m <= dollars ap)%Q ∧ (dollars bp <= microprice m <= dollars ap)%Q ∧
    (bp < ap → (mid m <= microprice m)%Q ↔ aq ≤ bq) ∧ (0 <= spread_bps m)%Q ∧
    (-(1) <= imbalance_top m <= 1)%Q ∧ (-(1) <= imbalance_n m <= 1)%Q ∧
    (∀ lo hi, Forall (λ lv, lo ≤ lv.1) bs → Forall (λ lv, lv.1 ≤ hi) as_ → (dollars lo <= weighted_mid m <= dollars hi)%Q).
Proof.
  intros Hs Hb Hn0 Hn Eb Ea Hle.
  destruct (metrics_cases (D := Q) (LD := Q) ms b n Hs Hb)
    as (bb & ba & bs & as_ & E1 & E2 & E3 & E4 & S1 & S2 & L1 & L2 & Hbb & Hba & Em).
  rewrite Eb in E1. rewrite Ea in E2. injection E1 as <-. injection E2 as <-.
  destruct (Hbb _ _ eq_refl) as (Hbp & Hbq & Pb & Nb). destruct (Hba _ _ eq_refl) as (Hap & Haq & Pa & Na).
  specialize (Nb ltac:(lia)). specialize (Na ltac:(lia)).
  destruct (exact_top bp bq ap aq bs as_) as (T1 & T2 & T3 & T4 & T5); [lia..|].
  exists (two_sided_metrics bp bq ap aq bs as_), bs, as_. do 8 (split; [done|]). split.
  - apply (exact_depth bp bq ap aq bs as_ 0 (2 ^ 32)); try (done || lia);
      (eapply Forall_impl; [eassumption|]; intros lv ?; simpl in *; lia).
  - intros lo hi Hlo Hhi. apply (exact_depth bp bq ap aq bs as_ lo hi); try (done || lia);
      rewrite Forall_forall in *; intros lv Hin.
    + destruct as_ as [|x as_]; [done|]. specialize (Hhi x ltac:(left)). specialize (Pa x ltac:(left)).
      specialize (Hlo lv Hin). specialize (Pb lv Hin). simpl in *. lia.
    + destruct bs as [|x bs]; [done|]. specialize (Hlo x ltac:(left)). specialize (Pb x ltac:(left)).
      specialize (Hhi lv Hin). specialize (Pa lv Hin). simpl in *. lia.
Qed.

Lemma book_session_ok : stream_ok session.
Proof. apply (bool_decide_unpack _). vm_compute. exact I. Qed.

Lemma metrics_describe_book_witness :
  ∃ (b : BasicOrderBook FlatLevels) (m : BookMetrics Q), apply_all book0 session = Some b ∧ compute_metrics b 5 = Some m
    ∧ two_sided m = has_bid m && has_ask m.
Proof.
  destruct (run_rep (F := FlatLevels) session book_session_ok) as (b & Hb & _).
  destruct (metrics_describe_book (D := Q) (LD := Q) session b 5 book_session_ok Hb) as (bb & ba & bs & as_ & m & _ & _ & _ & _ & Em & _ & _ & E & _);
    [vm_compute; discriminate|].
  exists b, m. split; [exact Hb|]. split; [exact Em|exact E].
Defined.

Lemma metrics_exact_bounds_witness :
  ∃ (b : BasicOrderBook FlatLevels) (m : BookMetrics Q), apply_all book0 session = Some b ∧ compute_metrics b 5 = Some m
    ∧ (dollars 1000000 <= microprice m <= dollars 1009900)%Q.
Proof.
  destruct (run_rep (F := FlatLevels) session book_session_ok) as (b & Hb & _).
  assert (Eb : (b ← apply_all (book0 (F := FlatLevels)) session; best_bid b) = Some (Some (1000000, 80))) by (vm_compute; reflexivity).
  assert (Ea : (b ← apply_all (book0 (F := FlatLevels)) session; best_ask b) = Some (Some (1009900, 50))) by (vm_compute; reflexivity).
  rewrite Hb in Eb, Ea. cbn [mbind option_bind] in Eb, Ea.
  destruct (metrics_exact_bounds session b 5 1000000 80 1009900 50 book_session_ok Hb) as (m & bs & as_ & Em & _ & _ & _ & Hm & _);
    [lia|vm_compute; discriminate|exact Eb|exact Ea|lia|].
  exists b, m. split; [exact Hb|]. split; [exact Em|exact Hm].
Defined.

(** A crossed book is two-sided like any other: the flags do not tell it, only the negative
    spread does. *)
Lemma crossed_book_flags :
  (λ m : BookMetrics Q, (two_sided m, spread_ticks m)) <$>
    (b ← apply_all (book0 (F := FlatLevels)) [msg_add 1 Buy 10 1000100; msg_add 2 Sell 10 1000000]; compute_metrics b 5)
  = Some (true, -100).
Proof. vm_compute. reflexivity. Qed.
