(* ===== verification/IeeeMetrics.v ===== *)
(** The metrics of include/book/metrics.hpp in the arithmetic they are computed in: binary64 for
    [double] and the extended format for [long double].  What holds of the exact ratios survives
    rounding, with the price-weighted average off by at most three roundings. *)
From S2P Require Export Rounding Metrics.

#[local] Open Scope Q_scope.

Definition double_half : fl := round binary64 false (1 # 2).

#[export] Instance ieee_ops : FloatOps fl fl := {|
  d_zero := Zero false;
  d_of_int := of_Z binary64;
  d_half := fmul binary64 double_half;
  d_add := fadd binary64;
  d_sub := fsub binary64;
  d_mul := fmul binary64;
  d_div := fdiv binary64;
  d_pos := flt (Zero false);
  d_1e4 := of_Z binary64 10000;
  ld_zero := Zero false;
  ld_of_int := of_Z x87_extended;
  ld_of_double := convert x87_extended;
  ld_add := fadd x87_extended;
  ld_mul := fmul x87_extended;
  ld_div := fdiv x87_extended;
  ld_pos := flt (Zero false);
  ld_to_double := convert binary64;
|}.

(** * Prices in dollars *)

Definition price_range (p : Z) : Prop := (0 ≤ p < 2 ^ 32)%Z.

Definition dollars64 (p : Z) : fl := to_dollars (D := fl) p.

Lemma dollars64_round p : price_range p → dollars64 p = round binary64 false (val (of_Z binary64 p) / val (of_Z binary64 10000)).
Proof.
  intros Hp. unfold dollars64, to_dollars. unfold d_div, d_of_int, ieee_ops, kPriceScale. destruct (int_exact p) as [Fp Ep]; [unfold price_range in *; lia|].
  rewrite fdiv_round; [|done|done|]. 2:{ vm_compute. discriminate. }
  f_equal. unfold of_Z at 1. rewrite round_nonneg_sign; [done|]. apply (injZ_le 0). unfold price_range in *. lia.
Qed.

Lemma tenk : val (of_Z binary64 10000) == 10000.
Proof. vm_compute. reflexivity. Qed.

Lemma dollars64_exact p : price_range p → dollars64 p = round binary64 false (inject_Z p / 10000).
Proof.
  intros Hp. rewrite dollars64_round by done. destruct (int_exact p) as [_ Ep]; [unfold price_range in *; lia|]. by rewrite Ep, tenk.
Qed.

(** A price in dollars is the number nearest to the exact quotient. *)
Lemma dollars64_spec p :
  price_range p → finite (dollars64 p) = true ∧ num64 (val (dollars64 p)) ∧
  (1 - ulp) * (inject_Z p / 10000) <= val (dollars64 p) <= (1 + ulp) * (inject_Z p / 10000).
Proof.
  intros Hp. rewrite dollars64_round by done. destruct (int_exact p) as [_ Ep]; [unfold price_range in *; lia|].
  pose proof Hp as [Hz _]. destruct Hp as [Hp0 Hp1]. apply injZ_le in Hp0. apply injZ_lt in Hp1. change (inject_Z 0) with 0 in Hp0.
  assert (Ex : val (of_Z binary64 p) / val (of_Z binary64 10000) == inject_Z p / 10000) by (by rewrite Ep, tenk).
  destruct (round_small false (val (of_Z binary64 p) / val (of_Z binary64 10000))) as [Hfin Hv].
  - rewrite Ex. destruct (Z.eq_dec p 0) as [->|Hne]; [left; reflexivity|right]. assert (H1 : 1 <= inject_Z p) by (apply (injZ_le 1); lia).
    apply Qle_trans with (1 / 10000); [by vm_compute|]. apply Qmult_le_compat_r; [done|by vm_compute].
  - rewrite Ex. apply Qle_shift_div_r; [done|]. change (inject_Z (2 ^ 53) * 10000) with (inject_Z (2 ^ 53 * 10000)). change (2 ^ 32)%Z with 4294967296%Z in Hp1.
    apply Qlt_le_weak, Qlt_trans with (inject_Z 4294967296); [done|by vm_compute].
  - split; [done|]. split; [apply num_val|]. set (r := round binary64 false _) in *. by rewrite Ex in Hv.
Qed.

Lemma dollars64_mono p q : price_range p → price_range q → (p ≤ q)%Z → val (dollars64 p) <= val (dollars64 q).
Proof.
  intros Hp Hq Hle. pose proof (dollars64_spec p Hp) as (Fp & _). pose proof (dollars64_spec q Hq) as (Fq & _).
  rewrite (dollars64_round p) in Fp |- * by done. rewrite (dollars64_round q) in Fq |- * by done. apply round_mono; [done| |done|done]. destruct (int_exact p) as [_ ->]; [unfold price_range in *; lia|].
  destruct (int_exact q) as [_ ->]; [unfold price_range in *; lia|]. rewrite tenk. apply Qmult_le_compat_r; [by apply injZ_le|by vm_compute].
Qed.

(** Zero, or neither tiny nor huge. *)

Definition moderate (x : Q) : Prop := x == 0 ∨ pow2 (-900) <= x <= pow2 900.

Lemma moderate_nonneg x : moderate x → 0 <= x.
Proof. pose proof (pow2_pos (-900)). intros [E|E]; lra. Qed.

Lemma num_moderate y k : num64 y → moderate y → (Z.abs k ≤ 1)%Z → num64 (pow2 k * y).
Proof.
  intros Hy [E|Hm] Hk; [apply (number_comp binary64 0); [rewrite E; ring|by apply (num_Z 0)]|].
  apply num_scale; [done| |done]. pose proof (pow2_pos (-900)). by rewrite Qabs_pos by lra.
Qed.

Lemma dollars64_moderate p : price_range p → moderate (val (dollars64 p)) ∧ val (dollars64 p) <= inject_Z (2 ^ 19).
Proof.
  intros Hp. destruct (dollars64_spec p Hp) as (_ & _ & Hl & Hh). destruct Hp as [H0 H1].
  assert (Hq : inject_Z p / 10000 <= inject_Z (2 ^ 32) / 10000) by (apply Qmult_le_compat_r; [apply injZ_le; lia|by vm_compute]).
  assert (Hu : (1 + ulp) * (inject_Z p / 10000) <= inject_Z (2 ^ 19)).
  { apply Qle_trans with ((1 + ulp) * (inject_Z (2 ^ 32) / 10000)); [|by vm_compute]. rewrite !(Qmult_comm (1 + ulp)). apply Qmult_le_compat_r; [done|by vm_compute]. }
  split; [|lra]. destruct (Z.eq_dec p 0) as [->|Hne]; [left|right].
  - assert (E0 : inject_Z 0 / 10000 == 0) by reflexivity. rewrite E0 in Hl, Hh. lra.
  - assert (Hp1 : 1 / 10000 <= inject_Z p / 10000) by (apply Qmult_le_compat_r; [apply (injZ_le 1); lia|by vm_compute]).
    assert (Hlow : (1 - ulp) * (1 / 10000) <= (1 - ulp) * (inject_Z p / 10000)).
    { rewrite !(Qmult_comm (1 - ulp)). apply Qmult_le_compat_r; [done|by vm_compute]. }
    split; [apply Qle_trans with ((1 - ulp) * (1 / 10000)); [by vm_compute|lra]|].
    apply Qle_trans with (inject_Z (2 ^ 19)); [lra|by vm_compute].
Qed.

(** * Mid price and spread *)

(** The mean of two numbers lies between them and is at least half of the greater. *)
Lemma mid_between b a :
  finite b = true → finite a = true → num64 (val b) → num64 (val a) → moderate (val b) → moderate (val a) → val b <= val a →
  let m := fmul binary64 double_half (fadd binary64 b a) in
  finite m = true ∧ val b <= val m <= val a ∧ val a <= 2 * val m.
Proof.
  intros Fb Fa Nb Na Mb Ma Hle m. pose proof (moderate_nonneg _ Mb). pose proof (num_moderate _ 1 Nb Mb ltac:(done)) as N2b. pose proof (num_moderate _ 1 Na Ma ltac:(done)) as N2a.
  pose proof (num_moderate _ (-1) Na Ma ltac:(done)) as Nha. change (pow2 1) with 2 in *. change (pow2 (-1)) with (1 # 2) in *.
  destruct (fadd_between binary64 binary64_ok b a (2 * val b) (2 * val a) Fb Fa N2b N2a ltac:(lra)) as [Fs Hs].
  destruct (fadd_between binary64 binary64_ok b a (val a) (2 * val a) Fb Fa Na N2a ltac:(lra)) as [_ Hs'].
  assert (Eh : val double_half == 1 # 2) by (vm_compute; reflexivity).
  destruct (fmul_between binary64 binary64_ok double_half _ (val b) (val a) ltac:(done) Fs Nb Na) as [Fm Hm]; [rewrite Eh; lra|].
  destruct (fmul_between binary64 binary64_ok double_half _ ((1 # 2) * val a) (val a) ltac:(done) Fs Nha Na) as [_ Hm']; [rewrite Eh; lra|].
  split; [done|]. unfold m. lra.
Qed.

Definition bps64 (sp m : fl) : fl := fmul binary64 (fdiv binary64 sp m) (of_Z binary64 10000).

(** The spread is at most the ask, which is at most twice the mid. *)
Lemma bps_between sp m :
  finite sp = true → finite m = true → 0 < val m → 0 <= val sp <= 2 * val m →
  finite (bps64 sp m) = true ∧ 0 <= val (bps64 sp m) <= 20000.
Proof.
  intros Fs Fm Hm Hs. destruct (fdiv_between binary64 binary64_ok sp m 0 2 Fs Fm) as [Fq Hq]; [lra|by apply (num_Z 0)|by apply (num_Z 2)| |].
  { split; [apply Qle_shift_div_l; lra|apply Qle_shift_div_r; lra]. }
  apply (fmul_between binary64 binary64_ok); [done|done|by apply (num_Z 0)|by apply (num_Z 20000)|]. rewrite tenk. lra.
Qed.

(** * Imbalances *)

Lemma num_pow2 e : (-1074 ≤ e ≤ 971)%Z → num64 (pow2 e).
Proof. intros He. exists 1%Z, e. split; [done|]. split; [done|]. change (inject_Z 1) with 1. ring. Qed.

Lemma u64_double x : (0 ≤ x < 2 ^ 64)%Z → finite (of_Z binary64 x) = true ∧ 0 <= val (of_Z binary64 x) <= pow2 64.
Proof.
  intros [H0 H1]. apply (round_between binary64 binary64_ok); [by apply (num_Z 0)|by apply num_pow2|].
  split; [by apply (injZ_le 0)|]. rewrite (pow2_Z 64) by done. apply injZ_le. lia.
Qed.

Definition imbalance64 (x y : fl) : fl :=
  let top := fadd binary64 x y in
  if flt (Zero false) top then fdiv binary64 (fsub binary64 x y) top else Zero false.

(** The difference of two quantities is never rounded beyond their sum. *)
Lemma diff_le_sum x y :
  finite x = true → finite y = true → 0 <= val x <= pow2 64 → 0 <= val y <= pow2 64 →
  finite (fsub binary64 x y) = true ∧ finite (fadd binary64 x y) = true ∧
  - val (fadd binary64 x y) <= val (fsub binary64 x y) <= val (fadd binary64 x y).
Proof.
  intros Fx Fy Hx Hy. pose proof (num_pow2 65 ltac:(done)) as N. pose proof (number_opp _ _ N) as N'.
  assert (E65 : pow2 65 == 2 * pow2 64) by (apply (pow2_succ 64)).
  destruct (fsub_between binary64 binary64_ok x y _ _ Fx Fy N' N) as [Fs _]; [lra|].
  destruct (fadd_between binary64 binary64_ok x y _ _ Fx Fy N' N) as [Ft _]; [lra|].
  destruct (round_between binary64 binary64_ok false (- (val x + val y)) _ _ N' N) as [Fo _]; [lra|].
  split; [done|]. split; [done|]. pose proof (val_fneg y) as En. rewrite fsub_round in Fs |- * by done. rewrite fadd_round in Ft |- * by done.
  split; [|apply round_mono; [done|lra|done..]]. rewrite <- (round_opp binary64 binary64_ok false) by done.
  apply round_mono; [done|lra|done..].
Qed.

Lemma imbalance_between x y :
  finite x = true → finite y = true → 0 <= val x <= pow2 64 → 0 <= val y <= pow2 64 →
  finite (imbalance64 x y) = true ∧ -(1) <= val (imbalance64 x y) <= 1.
Proof.
  intros Fx Fy Hx Hy. destruct (diff_le_sum x y Fx Fy Hx Hy) as (Fs & Ft & Hst). unfold imbalance64.
  destruct (flt (Zero false) (fadd binary64 x y)) eqn:E; [|simpl; split; [done|lra]]. apply flt_pos in E; [|done].
  apply (fdiv_between binary64 binary64_ok); [done|done|lra|apply (number_opp _ 1), (num_Z 1); done|by apply (num_Z 1)|].
  split; [apply Qle_shift_div_l; lra|apply Qle_shift_div_r; lra].
Qed.

(** * The micro-price *)

Definition micro64 (b a : fl) (bq aq : Z) : fl :=
  fdiv binary64 (fadd binary64 (fmul binary64 b (of_Z binary64 aq)) (fmul binary64 a (of_Z binary64 bq)))
    (fadd binary64 (of_Z binary64 bq) (of_Z binary64 aq)).

Definition quantity (q : Z) : Prop := (0 < q < 2 ^ 32)%Z.

Lemma quantity_double q :
  quantity q → finite (of_Z binary64 q) = true ∧ val (of_Z binary64 q) == inject_Z q ∧ 1 <= inject_Z q <= inject_Z (2 ^ 32).
Proof.
  intros [H0 H1]. destruct (int_exact q) as [? ?]; [lia|]. split; [done|]. split; [done|]. split; [apply (injZ_le 1); lia|apply injZ_le; lia].
Qed.

(** A price times a quantity, up to one rounding. *)
Lemma weighted x q :
  finite x = true → moderate (val x) → val x <= inject_Z (2 ^ 19) → quantity q →
  let p := fmul binary64 x (of_Z binary64 q) in
  finite p = true ∧ (1 - ulp) * (val x * inject_Z q) <= val p <= (1 + ulp) * (val x * inject_Z q).
Proof.
  intros Fx Mx Hx Hq p. destruct (quantity_double q Hq) as (Fq & Eq & Hq1 & Hq2). pose proof (moderate_nonneg _ Mx). unfold p. rewrite fmul_round by done.
  assert (Ex : val x * val (of_Z binary64 q) == val x * inject_Z q) by (by rewrite Eq).
  assert (Hge : val x <= val x * inject_Z q) by (pose proof (mult_le_l (val x) 1 (inject_Z q) ltac:(done) Hq1); lra).
  destruct (round_small (xorb (sign x) (sign (of_Z binary64 q))) (val x * val (of_Z binary64 q))) as [Hfin Hv].
  - rewrite Ex. destruct Mx as [E|[Hm _]]; [left; rewrite E; ring|right]. apply Qle_trans with (pow2 (-900)); [by vm_compute|lra].
  - rewrite Ex. apply Qle_trans with (inject_Z (2 ^ 19) * inject_Z (2 ^ 32)); [|by vm_compute].
    apply Qle_trans with (val x * inject_Z (2 ^ 32)); [by apply mult_le_l|apply Qmult_le_compat_r; [done|by vm_compute]].
  - split; [done|]. set (r := round binary64 _ _) in *. by rewrite Ex in Hv.
Qed.

Lemma total_exact bq aq :
  quantity bq → quantity aq →
  let t := fadd binary64 (of_Z binary64 bq) (of_Z binary64 aq) in
  finite t = true ∧ val t == inject_Z bq + inject_Z aq.
Proof.
  intros Hb Ha t. destruct (quantity_double bq Hb) as (Fb & Eb & _), (quantity_double aq Ha) as (Fa & Ea & _).
  destruct Hb, Ha. unfold t. rewrite fadd_round by done. destruct (round_exact binary64 binary64_ok (sign (of_Z binary64 bq) && sign (of_Z binary64 aq))
    (val (of_Z binary64 bq) + val (of_Z binary64 aq))) as [Hfin Hv]; [|split; [done|]; set (r := round binary64 _ _) in *; lra].
  apply (number_comp binary64 (inject_Z (bq + aq))); [rewrite inject_Z_plus; lra|]. apply num_Z. lia.
Qed.

(** The sum of both products, up to two roundings. *)
Lemma weighted_sum b a bq aq :
  finite b = true → finite a = true → moderate (val b) → moderate (val a) → val b <= val a → val a <= inject_Z (2 ^ 19) →
  quantity bq → quantity aq →
  let s := fadd binary64 (fmul binary64 b (of_Z binary64 aq)) (fmul binary64 a (of_Z binary64 bq)) in
  let t := inject_Z bq + inject_Z aq in
  finite s = true ∧ (val s == 0 ∨ pow2 (-902) <= val s) ∧
  (1 - ulp) * ((1 - ulp) * (val b * t)) <= val s <= (1 + ulp) * ((1 + ulp) * (val a * t)).
Proof.
  intros Fb Fa Mb Ma Hba Hmax Hb Ha s t. pose proof ulp_range as Hu. pose proof (moderate_nonneg _ Mb).
  destruct (quantity_double bq Hb) as (_ & _ & X1 & X2), (quantity_double aq Ha) as (_ & _ & Y1 & Y2).
  destruct (weighted b aq Fb Mb ltac:(lra) Ha) as [F1 H1]. destruct (weighted a bq Fa Ma Hmax Hb) as [F2 H2].
  unfold s, t. rewrite fadd_round by done. set (p1 := fmul binary64 b _) in *. set (p2 := fmul binary64 a _) in *.
  set (B := val b) in *. set (A := val a) in *. set (x := inject_Z bq) in *. set (y := inject_Z aq) in *.
  assert (Hay : B * y <= A * y) by (apply Qmult_le_compat_r; lra). assert (Hbx : B * x <= A * x) by (apply Qmult_le_compat_r; lra).
  assert (Hby : 0 <= B * y) by (apply Qmult_le_0_compat; lra). assert (Hbx0 : 0 <= B * x) by (apply Qmult_le_0_compat; lra).
  assert (Hax : A <= A * x) by (pose proof (mult_le_l A 1 x ltac:(lra) X1); lra).
  assert (Hlow : (1 - ulp) * (B * (x + y)) <= val p1 + val p2).
  { pose proof (mult_le_l (1 - ulp) (B * (x + y)) (B * y + A * x) ltac:(lra) ltac:(lra)). lra. }
  assert (Hup : val p1 + val p2 <= (1 + ulp) * (A * (x + y))).
  { pose proof (mult_le_l (1 + ulp) (B * y + A * x) (A * (x + y)) ltac:(lra) ltac:(lra)). lra. }
  assert (Hfull : A * (x + y) <= inject_Z (2 ^ 19) * inject_Z (2 ^ 33)).
  { apply Qle_trans with (A * inject_Z (2 ^ 33)); [apply mult_le_l; [lra|change (inject_Z (2 ^ 33)) with (inject_Z (2 ^ 32) + inject_Z (2 ^ 32)); lra]|].
    apply Qmult_le_compat_r; [done|by vm_compute]. }
  assert (Hpos : 0 <= (1 - ulp) * (B * (x + y))) by (apply Qmult_le_0_compat; lra).
  assert (Hzero : val p1 + val p2 == 0 ∨ pow2 (-901) <= val p1 + val p2).
  { destruct Ma as [E|[Hm _]]; [left|right].
    - assert ((1 + ulp) * (A * (x + y)) == 0) by (rewrite E; ring). lra.
    - apply Qle_trans with ((1 - ulp) * pow2 (-900)); [by vm_compute|].
      pose proof (mult_le_l (1 - ulp) (pow2 (-900)) (A * x) ltac:(lra) ltac:(lra)). pose proof (mult_le_l (1 - ulp) 0 (B * y) ltac:(lra) Hby). lra. }
  destruct (round_small (sign p1 && sign p2) (val p1 + val p2)) as [Hfin Hv].
  - destruct Hzero as [|Hz]; [by left|right]. apply Qle_trans with (pow2 (-901)); [by vm_compute|done].
  - apply Qle_trans with ((1 + ulp) * (inject_Z (2 ^ 19) * inject_Z (2 ^ 33))); [|by vm_compute].
    pose proof (mult_le_l (1 + ulp) _ _ ltac:(lra) Hfull). lra.
  - set (r := round binary64 _ _) in *. set (P := val p1 + val p2) in *. split; [done|].
    pose proof (mult_le_l (1 - ulp) _ _ ltac:(lra) Hlow). pose proof (mult_le_l (1 + ulp) _ _ ltac:(lra) Hup). split; [|lra].
    destruct Hzero as [E|Hz]; [left|right].
    + assert ((1 - ulp) * P == 0) by (rewrite E; ring). assert ((1 + ulp) * P == 0) by (rewrite E; ring). lra.
    + pose proof (mult_le_l (1 - ulp) _ _ ltac:(lra) Hz). apply Qle_trans with ((1 - ulp) * pow2 (-901)); [by vm_compute|lra].
Qed.

(** Three roundings around the weighted mean. *)
Lemma micro_between b a bq aq :
  finite b = true → finite a = true → moderate (val b) → moderate (val a) → val b <= val a → val a <= inject_Z (2 ^ 19) →
  quantity bq → quantity aq →
  finite (micro64 b a bq aq) = true ∧ (1 - pow2 (-51)) * val b <= val (micro64 b a bq aq) <= (1 + pow2 (-51)) * val a.
Proof.
  intros Fb Fa Mb Ma Hba Hmax Hb Ha. unfold micro64. pose proof ulp_range as Hu. pose proof (moderate_nonneg _ Mb).
  destruct (weighted_sum b a bq aq Fb Fa Mb Ma Hba Hmax Hb Ha) as (Fs & Hs0 & Hs). destruct (total_exact bq aq Hb Ha) as [Ft Et].
  destruct (quantity_double bq Hb) as (_ & _ & X1 & X2), (quantity_double aq Ha) as (_ & _ & Y1 & Y2).
  rewrite fdiv_round; [|done|done|rewrite Et; lra]. set (s := fadd binary64 (fmul _ _ _) _) in *. set (t := fadd binary64 (of_Z _ _) _) in *.
  set (B := val b) in *. set (A := val a) in *. set (T := inject_Z bq + inject_Z aq) in *.
  assert (HT : 0 < T <= inject_Z (2 ^ 33)) by (change (inject_Z (2 ^ 33)) with (inject_Z (2 ^ 32) + inject_Z (2 ^ 32)); unfold T; lra).
  assert (Eq : val s / val t == val s / T) by (by rewrite Et).
  assert (Hlow : (1 - ulp) * ((1 - ulp) * B) <= val s / T) by (apply Qle_shift_div_l; lra).
  assert (Hup : val s / T <= (1 + ulp) * ((1 + ulp) * A)) by (apply Qle_shift_div_r; lra).
  assert (HA2 : (1 + ulp) * ((1 + ulp) * A) <= inject_Z (2 ^ 53)).
  { apply Qle_trans with ((1 + ulp) * ((1 + ulp) * inject_Z (2 ^ 19))); [|by vm_compute]. do 2 (apply mult_le_l; [lra|]). done. }
  destruct (round_small (xorb (sign s) (sign t)) (val s / val t)) as [Hfin Hv].
  - rewrite Eq. destruct Hs0 as [E|Hs0]; [left; rewrite E; unfold Qdiv; ring|right]. apply Qle_shift_div_l; [lra|].
    apply Qle_trans with (pow2 (-1022) * inject_Z (2 ^ 33)); [apply mult_le_l; [by vm_compute|lra]|]. apply Qle_trans with (pow2 (-902)); [by vm_compute|done].
  - rewrite Eq. lra.
  - set (r := round binary64 _ _) in *. rewrite Eq in Hv. split; [done|].
    pose proof (mult_le_l (1 - ulp) _ _ ltac:(lra) Hlow). pose proof (mult_le_l (1 + ulp) _ _ ltac:(lra) Hup).
    pose proof (Qmult_le_compat_r (1 - pow2 (-51)) ((1 - ulp) * (1 - ulp) * (1 - ulp)) B ltac:(by vm_compute) ltac:(done)).
    pose proof (Qmult_le_compat_r ((1 + ulp) * (1 + ulp) * (1 + ulp)) (1 + pow2 (-51)) A ltac:(by vm_compute) ltac:(lra)). lra.
Qed.

(** The allowance is needed: of a locked book at $100.0001 the micro-price is above both prices. *)
Lemma micro_above_locked : flt (dollars64 1000001) (micro64 (dollars64 1000001) (dollars64 1000001) 1 2) = true.
Proof. vm_compute. done. Qed.

(** * Metrics of a reconstructed book *)

Lemma ieee_top bp bq ap aq bs as_ :
  price_range bp → price_range ap → quantity bq → quantity aq → (bp ≤ ap)%Z →
  let m := two_sided_metrics (D := fl) (LD := fl) bp bq ap aq bs as_ in
  (finite (mid m) = true ∧ val (dollars64 bp) <= val (mid m) <= val (dollars64 ap)) ∧
  (finite (microprice m) = true ∧ (1 - pow2 (-51)) * val (dollars64 bp) <= val (microprice m) <= (1 + pow2 (-51)) * val (dollars64 ap)) ∧
  (finite (spread_bps m) = true ∧ 0 <= val (spread_bps m) <= 20000) ∧
  (finite (imbalance_top m) = true ∧ -(1) <= val (imbalance_top m) <= 1).
Proof.
  intros Hbp Hap Hbq Haq Hle m. unfold m, two_sided_metrics.
  destruct (foldl depth_step _ bs) as [[num den] bsum]. destruct (foldl depth_step _ as_) as [[num' den'] asum].
  cbn [mid microprice spread_bps imbalance_top]. unfold d_half, d_add, d_mul, d_sub, d_of_int, d_div, d_pos, d_zero, d_1e4, ieee_ops.
  change (to_dollars bp) with (dollars64 bp). change (to_dollars ap) with (dollars64 ap). change (to_dollars (ap - bp)) with (dollars64 (ap - bp)).
  destruct (dollars64_spec bp Hbp) as (Fb & Nb & _), (dollars64_spec ap Hap) as (Fa & Na & _).
  destruct (dollars64_moderate bp Hbp) as [Mb _], (dollars64_moderate ap Hap) as [Ma Ua]. pose proof (dollars64_mono bp ap Hbp Hap Hle) as Hd.
  destruct (mid_between _ _ Fb Fa Nb Na Mb Ma Hd) as (Fm & Hm & Hm2). destruct (total_exact bq aq Hbq Haq) as [Ft Et].
  destruct (quantity_double bq Hbq) as (Fbq & Ebq & X1 & X2), (quantity_double aq Haq) as (Faq & Eaq & Y1 & Y2).
  assert (Hsp : price_range (ap - bp)) by (unfold price_range in *; lia). destruct (dollars64_spec _ Hsp) as (Fs & _).
  pose proof (moderate_nonneg _ (proj1 (dollars64_moderate _ Hsp))).
  pose proof (dollars64_mono _ _ Hsp Hap ltac:(unfold price_range in *; lia)) as Hsa.
  assert (Et' : flt (Zero false) (fadd binary64 (of_Z binary64 bq) (of_Z binary64 aq)) = true) by (apply flt_pos; [done|rewrite Et; lra]).
  split; [by split|]. split; [|split].
  - rewrite Et'. by apply micro_between.
  - destruct (flt (Zero false) (fmul binary64 _ _)) eqn:E; [|simpl; split; [done|lra]]. apply flt_pos in E; [|done]. apply bps_between; [done|done|done|lra].
  - rewrite Et'. pose proof (imbalance_between (of_Z binary64 bq) (of_Z binary64 aq) Fbq Faq) as Hi. unfold imbalance64 in Hi. rewrite Et' in Hi.
    assert (H64 : inject_Z (2 ^ 32) <= pow2 64) by (by vm_compute). apply Hi; lra.
Qed.

Lemma ieee_depth bp bq ap aq bs as_ :
  sizes_ok bs → sizes_ok as_ → (zlen bs ≤ 2 ^ 32)%Z → (zlen as_ ≤ 2 ^ 32)%Z →
  let m := two_sided_metrics (D := fl) (LD := fl) bp bq ap aq bs as_ in
  finite (imbalance_n m) = true ∧ -(1) <= val (imbalance_n m) <= 1.
Proof.
  intros Hsb Hsa Hnb Hna m. unfold m, two_sided_metrics.
  pose proof (depth_sum_exact ld_zero ld_zero bs Hsb Hnb) as Eb. destruct (foldl depth_step _ bs) as [[num den] bsum].
  pose proof (depth_sum_exact num den as_ Hsa Hna) as Ea. destruct (foldl depth_step _ as_) as [[num' den'] asum]. simpl in Eb, Ea. subst.
  cbn [imbalance_n]. unfold d_add, d_sub, d_of_int, d_div, d_pos, d_zero, ieee_ops.
  assert (Hr : ∀ l, sizes_ok l → (zlen l ≤ 2 ^ 32)%Z → (0 ≤ depth_size l < 2 ^ 64)%Z).
  { intros l Hl Hz. pose proof (depth_size_bound l Hl). pose proof (zlen_nonneg l). nia. }
  destruct (u64_double _ (Hr bs Hsb Hnb)) as [F1 H1], (u64_double _ (Hr as_ Hsa Hna)) as [F2 H2]. by apply imbalance_between.
Qed.

(** * The depth-weighted mid *)

Definition level_range (lv : Price * Qty) : Prop := price_range lv.1 ∧ quantity lv.2.

(** The sum of price times size over the levels, and the relative error of the sum the program has
    after [k] levels: one rounding for each product and each addition. *)

Definition exact_depth (l : list (Price * Qty)) : Q := foldr (λ lv q, val (dollars64 lv.1) * inject_Z lv.2 + q) 0 l.

Definition sum_err (k : Z) : Q := inject_Z (2 * k + 1) * pow2 (-64).

Lemma exact_depth_snoc l lv : exact_depth (l ++ [lv]) == exact_depth l + val (dollars64 lv.1) * inject_Z lv.2.
Proof. unfold exact_depth. induction l as [|x l IH]; cbn [app foldr]; [ring|]. rewrite IH. ring. Qed.

Lemma depth_size_snoc l lv : depth_size (l ++ [lv]) = (depth_size l + lv.2)%Z.
Proof. unfold depth_size. induction l as [|x l IH]; simpl in *; lia. Qed.

Lemma product_range lv :
  level_range lv → at_least 14 (val (dollars64 lv.1) * inject_Z lv.2) ∧ 0 <= val (dollars64 lv.1) * inject_Z lv.2 <= inject_Z (2 ^ 19) * inject_Z lv.2.
Proof.
  intros [Hp Hq]. destruct (dollars64_moderate _ Hp) as [Hm Hmax]. pose proof (moderate_nonneg _ Hm) as H0. destruct (dollars64_spec _ Hp) as (_ & _ & Hl & _).
  assert (Hq1 : 1 <= inject_Z lv.2) by (apply (injZ_le 1); unfold quantity in Hq; lia).
  split; [|split; [apply Qmult_le_0_compat; lra|apply Qmult_le_compat_r; lra]].
  destruct (Z.eq_dec lv.1 0) as [E|Hne]; [left; rewrite E; change (val (dollars64 0)) with 0; ring|right].
  assert (Hp1 : 1 <= inject_Z lv.1) by (apply (injZ_le 1); unfold price_range in Hp; lia).
  pose proof (mult_le_l ((1 - ulp) * (1 # 10000)) 1 (inject_Z lv.1) ltac:(by vm_compute) Hp1) as H1.
  assert (pow2 (-14) <= (1 - ulp) * (1 # 10000) * 1) by (by vm_compute). pose proof (mult_le_l (val (dollars64 lv.1)) 1 _ H0 Hq1).
  unfold Qdiv in Hl. change (/ 10000) with (1 # 10000) in Hl. change (- (14))%Z with (-14)%Z. lra.
Qed.

Lemma at_least_add k x y : 0 <= x → 0 <= y → at_least k x → at_least k y → at_least k (x + y).
Proof. intros Hx Hy [E|H1] [E'|H2]; [left|right|right|right]; lra. Qed.

Lemma exact_depth_range l :
  Forall level_range l → at_least 14 (exact_depth l) ∧ 0 <= exact_depth l <= inject_Z (2 ^ 19) * inject_Z (depth_size l).
Proof.
  induction 1 as [|lv l Hlv _ [IH1 IH2]]; [split; [by left|by vm_compute]|]. destruct (product_range lv Hlv) as [H1 H2].
  change (exact_depth (lv :: l)) with (val (dollars64 lv.1) * inject_Z lv.2 + exact_depth l). change (depth_size (lv :: l)) with (lv.2 + depth_size l)%Z.
  rewrite inject_Z_plus. split; [apply at_least_add; (done || lra)|]. lra.
Qed.

(** The accumulators behind the levels [l]. *)

Definition depth_state (l : list (Price * Qty)) (num den : fl) : Prop :=
  finite num = true ∧ within (sum_err (zlen l)) (exact_depth l) (val num) ∧ finite den = true ∧ val den == inject_Z (depth_size l).

Lemma sum_err_range k : (0 ≤ k ≤ 2 ^ 33)%Z → pow2 (-64) <= sum_err k <= pow2 (-29).
Proof.
  intros Hk. unfold sum_err. assert (H1 : inject_Z 1 <= inject_Z (2 * k + 1)) by (apply injZ_le; lia). change (inject_Z 1) with 1 in H1.
  assert (H2 : inject_Z (2 * k + 1) <= inject_Z (2 ^ 35)) by (apply injZ_le; lia). pose proof (pow2_pos (-64)).
  pose proof (Qmult_le_compat_r _ _ (pow2 (-64)) H1 ltac:(lra)). pose proof (Qmult_le_compat_r _ _ (pow2 (-64)) H2 ltac:(lra)).
  assert (inject_Z (2 ^ 35) * pow2 (-64) <= pow2 (-29)) by (by vm_compute). lra.
Qed.

Lemma sum_err_succ k : sum_err (k + 1) == sum_err k + 2 * pow2 (-64).
Proof.
  unfold sum_err. replace (2 * (k + 1) + 1)%Z with ((2 * k + 1) + 2)%Z by lia. rewrite inject_Z_plus. change (inject_Z 2) with 2. ring.
Qed.

Lemma depth_size_nonneg l : Forall level_range l → (0 ≤ depth_size l)%Z.
Proof. unfold depth_size. induction 1 as [|lv l [_ Hq] _ IH]; simpl; unfold quantity in *; lia. Qed.

(** One product, rounded once: the conversion of the price to [long double] is exact. *)
Lemma ext_product lv :
  level_range lv →
  let x := fmul x87_extended (convert x87_extended (dollars64 lv.1)) (of_Z x87_extended lv.2) in
  finite x = true ∧ within (pow2 (-64)) (val (dollars64 lv.1) * inject_Z lv.2) (val x).
Proof.
  intros Hlv. pose proof Hlv as [Hp Hq]. unfold quantity in Hq. destruct (dollars64_spec _ Hp) as (Fd & Nd & _). destruct (ext_exact lv.2) as [Fq Eq]; [lia|].
  destruct (round_exact x87_extended x87_ok (sign (dollars64 lv.1)) _ (num_widen _ Nd)) as [Fc Ec]. rewrite <- convert_round in Fc, Ec by done.
  destruct (product_range lv Hlv) as [H1 H2]. cbv zeta. rewrite fmul_round by done.
  rewrite (round_proper x87_extended _ _ (val (dollars64 lv.1) * inject_Z lv.2)) by (by rewrite Ec, Eq). apply ext_round.
  - destruct H1 as [?|H1]; [by left|right]. apply Qle_trans with (pow2 (-14)); [by vm_compute|done].
  - apply Qle_trans with (inject_Z (2 ^ 19) * inject_Z (2 ^ 32)); [|by vm_compute].
    pose proof (mult_le_l (inject_Z (2 ^ 19)) (inject_Z lv.2) (inject_Z (2 ^ 32)) ltac:(by vm_compute) ltac:(apply injZ_le; lia)). lra.
Qed.

Lemma depth_state_step l lv num den s :
  Forall level_range (l ++ [lv]) → (zlen l < 2 ^ 33)%Z → (depth_size (l ++ [lv]) ≤ 2 ^ 64)%Z → depth_state l num den →
  ∃ num' den' s', depth_step (num, den, s) lv = (num', den', s') ∧ depth_state (l ++ [lv]) num' den'.
Proof.
  intros [Hl Hv]%Forall_app Hk Hsz (Fn & Wn & Fd & Ed). apply Forall_cons in Hv as [Hv _]. rewrite depth_size_snoc in Hsz.
  eexists _, _, _. split; [done|]. unfold ld_add, ld_mul, ld_of_double, ld_of_int, ieee_ops. change (to_dollars lv.1) with (dollars64 lv.1).
  destruct (ext_product lv Hv) as [Fp Wp]. set (x := fmul x87_extended _ _) in *. destruct (exact_depth_range l Hl) as [Ha [H0 Hmax]].
  destruct (product_range lv Hv) as [Pa [P0 Pmax]]. pose proof (zlen_nonneg l) as Hz. destruct (sum_err_range (zlen l) ltac:(lia)) as [E1 E2].
  assert (Hsmall : pow2 (-29) <= 1 # 1000) by (by vm_compute).
  set (W := exact_depth l) in *. set (P := val (dollars64 lv.1) * inject_Z lv.2) in *. set (e := sum_err (zlen l)) in *.
  assert (Wp' : within e P (val x)) by (by apply within_mono with (pow2 (-64))).
  assert (Ws : within e (W + P) (val num + val x)) by (destruct Wn, Wp'; split; lra).
  pose proof (pow2_pos (-64)) as Hu. assert (Hpos : 0 <= W + P) by lra. assert (0 <= e * (W + P)) by (apply Qmult_le_0_compat; [lra|done]).
  assert (Hsum : W + P <= inject_Z (2 ^ 19) * inject_Z (2 ^ 64)).
  { apply Qle_trans with (inject_Z (2 ^ 19) * inject_Z (depth_size l + lv.2)); [rewrite inject_Z_plus; lra|apply mult_le_l; [by vm_compute|by apply injZ_le]]. }
  assert (He : e * (W + P) <= (1 # 1000) * (W + P)) by (apply Qmult_le_compat_r; lra).
  assert (Hs : 0 <= val num + val x <= pow2 100).
  { destruct Ws as [W1 W2]. split; [lra|]. apply Qle_trans with (2 * (inject_Z (2 ^ 19) * inject_Z (2 ^ 64))); [lra|by vm_compute]. }
  destruct (ext_round (sign num && sign x) (val num + val x)) as [Fs Wr]; [|lra|].
  { destruct (at_least_within e 14 (W + P) (val num + val x)) as [?|Hlo]; [lra|done|lra|by apply at_least_add|by left|right].
    apply Qle_trans with (pow2 (- (14 + 1))); [by vm_compute|done]. }
  rewrite <- fadd_round in Fs, Wr by done.
  destruct (ext_exact lv.2) as [Fq Eq]; [destruct Hv as [_ Hq]; unfold quantity in Hq; lia|].
  pose proof (depth_size_nonneg l Hl) as Hd0. destruct Hv as [_ Hq]. unfold quantity in Hq.
  destruct (fadd_between x87_extended x87_ok den (of_Z x87_extended lv.2) (inject_Z (depth_size l + lv.2)) (inject_Z (depth_size l + lv.2)) Fd Fq) as [Fd' Hd'];
    [apply num_ext; lia..|rewrite Ed, Eq, inject_Z_plus; lra|].
  split; [done|]. split; [|split; [done|rewrite depth_size_snoc; lra]].
  unfold within. rewrite exact_depth_snoc. fold W P. apply (within_mono (e + pow2 (-64) + e * pow2 (-64))); [done| |by apply within_trans with (val num + val x); [|lra|by vm_compute| |]].
  rewrite zlen_app. change (zlen [lv]) with 1%Z. rewrite sum_err_succ. fold e. pose proof (Qmult_le_compat_r e 1 (pow2 (-64)) ltac:(lra) ltac:(by vm_compute)). lra.
Qed.

Lemma depth_size_app l k : depth_size (l ++ k) = (depth_size l + depth_size k)%Z.
Proof. unfold depth_size. induction l as [|x l IH]; simpl in *; lia. Qed.

Lemma depth_state_run l : ∀ l0 num den s,
  Forall level_range (l0 ++ l) → (zlen (l0 ++ l) ≤ 2 ^ 33)%Z → (depth_size (l0 ++ l) ≤ 2 ^ 64)%Z → depth_state l0 num den →
  ∃ num' den' s', foldl depth_step (num, den, s) l = (num', den', s') ∧ depth_state (l0 ++ l) num' den'.
Proof.
  induction l as [|lv l IH]; intros l0 num den s Hr Hz Hs Hst; [exists num, den, s; rewrite app_nil_r; by split|].
  rewrite (cons_middle lv l0 l), app_assoc in *. pose proof Hr as Hr'. apply Forall_app in Hr' as [Hr1 Hr2].
  rewrite zlen_app in Hz. pose proof (zlen_nonneg l). rewrite (zlen_app l0) in Hz. change (zlen [lv]) with 1%Z in Hz.
  pose proof Hs as Hs'. rewrite depth_size_app in Hs'. pose proof (depth_size_nonneg l Hr2).
  destruct (depth_state_step l0 lv num den s) as (n' & d' & s' & E & Hst'); [done|lia|lia|done|].
  cbn [foldl]. rewrite E. apply IH; [done| |done|done]. rewrite zlen_app, (zlen_app l0). change (zlen [lv]) with 1%Z. lia.
Qed.

(** The relative error of the average over [k] levels: two more roundings in the extended format and
    one to [double]. *)

Definition mean_err (k : Z) : Q := inject_Z (2 * k + 4) * pow2 (-64) + pow2 (-53).

Lemma mean_err_bound k e : (0 ≤ k ≤ 2 ^ 33)%Z → e == sum_err k →
  (e + pow2 (-64) + e * pow2 (-64)) + ulp + (e + pow2 (-64) + e * pow2 (-64)) * ulp <= mean_err k.
Proof.
  intros Hk E. destruct (sum_err_range k Hk) as [E1 E2]. rewrite <- E in E1, E2. unfold mean_err. replace (2 * k + 4)%Z with ((2 * k + 1) + 3)%Z by lia.
  rewrite inject_Z_plus. change (inject_Z 3) with 3. assert (Es : inject_Z (2 * k + 1) * pow2 (-64) == e) by (by rewrite E).
  pose proof (pow2_pos (-64)) as Hu. change ulp with (pow2 (-53)). assert (pow2 (-29) <= 1 # 1000) by (by vm_compute).
  pose proof (Qmult_le_compat_r e 1 (pow2 (-64)) ltac:(lra) ltac:(lra)) as H1.
  assert (H2 : (e + pow2 (-64) + e * pow2 (-64)) * pow2 (-53) <= (pow2 (-29) + 2 * pow2 (-64)) * pow2 (-53)) by (apply Qmult_le_compat_r; [lra|by vm_compute]).
  assert (H3 : (pow2 (-29) + 2 * pow2 (-64)) * pow2 (-53) <= pow2 (-64)) by (by vm_compute). lra.
Qed.

Lemma at_least_div k x y j : at_least k x → 0 < y <= pow2 j → at_least (k + j) (x / y).
Proof.
  intros [E|Hx] [Hy Hj]; [left; rewrite E; unfold Qdiv; apply Qmult_0_l|right]. apply Qle_shift_div_l; [done|].
  replace (- k)%Z with (- (k + j) + j)%Z in Hx by lia. rewrite pow2_add in Hx. pose proof (pow2_pos (- (k + j))).
  pose proof (mult_le_l (pow2 (- (k + j))) _ _ ltac:(lra) Hj). lra.
Qed.

Lemma within_div d x y z : 0 < z → within d x y → within d (x / z) (y / z).
Proof.
  intros Hz [H1 H2]. assert (Hi : 0 <= / z) by (apply Qlt_le_weak, Qinv_lt_0_compat, Hz).
  pose proof (Qmult_le_compat_r _ _ _ H1 Hi). pose proof (Qmult_le_compat_r _ _ _ H2 Hi). unfold within, Qdiv. split; lra.
Qed.

Lemma depth_mean l num den :
  Forall level_range l → l ≠ [] → (zlen l ≤ 2 ^ 33)%Z → (depth_size l ≤ 2 ^ 64)%Z → depth_state l num den →
  let w := convert binary64 (fdiv x87_extended num den) in
  flt (Zero false) den = true ∧ finite w = true ∧ within (mean_err (zlen l)) (exact_depth l / inject_Z (depth_size l)) (val w).
Proof.
  intros Hl Hne Hz Hs (Fn & Wn & Fd & Ed). cbv zeta. assert (Hpos : (0 < depth_size l)%Z).
  { destruct l as [|lv l]; [done|]. apply Forall_cons in Hl as [[_ Hq] Hl]. pose proof (depth_size_nonneg l Hl). change (depth_size (lv :: l)) with (lv.2 + depth_size l)%Z. unfold quantity in Hq. lia. }
  assert (HT : 0 < inject_Z (depth_size l) <= pow2 64) by (split; [by apply (injZ_lt 0)|change (pow2 64) with (inject_Z (2 ^ 64)); by apply injZ_le]).
  destruct (exact_depth_range l Hl) as [Ha [H0 Hmax]]. pose proof (zlen_nonneg l). destruct (sum_err_range (zlen l) ltac:(lia)) as [E1 E2].
  assert (Hsmall : pow2 (-29) <= 1 # 1000) by (by vm_compute). pose proof (pow2_pos (-64)) as Hu.
  set (T := inject_Z (depth_size l)) in *. set (e := sum_err (zlen l)) in *. set (X := exact_depth l / T) in *.
  split; [apply flt_pos; [done|lra]|].
  assert (HX : 0 <= X <= inject_Z (2 ^ 19)) by (split; [apply Qle_shift_div_l; lra|apply Qle_shift_div_r; lra]).
  assert (W1 : within e X (val num / T)) by (apply within_div; [lra|done]). pose proof (at_least_div _ _ T 64 Ha HT) as AX. fold X in AX.
  assert (He : 0 <= e * X <= (1 # 1000) * X) by (split; [apply Qmult_le_0_compat; lra|apply Qmult_le_compat_r; lra]).
  assert (Hq : 0 <= val num / T <= inject_Z (2 ^ 20)).
  { destruct W1. change (inject_Z (2 ^ 20)) with (2 * inject_Z (2 ^ 19)). lra. }
  pose proof (at_least_within e (14 + 64) X (val num / T) ltac:(lra) W1 ltac:(lra) AX) as A1.
  assert (Hr : fdiv x87_extended num den = round x87_extended (xorb (sign num) (sign den)) (val num / T)).
  { rewrite fdiv_round; [|done|done|lra]. apply round_proper. by rewrite Ed. }
  destruct (ext_round (xorb (sign num) (sign den)) (val num / T)) as [F2 W2].
  { destruct A1 as [?|A1]; [by left|right]. eapply Qle_trans; [|exact A1]. by vm_compute. }
  { apply Qle_trans with (inject_Z (2 ^ 20)); [lra|by vm_compute]. }
  rewrite <- Hr in F2, W2. set (r := fdiv x87_extended num den) in *.
  assert (Hr2 : 0 <= pow2 (-64) * (val num / T) <= (1 # 1000) * (val num / T)) by (split; [apply Qmult_le_0_compat; lra|apply Qmult_le_compat_r; lra]).
  assert (Hrb : 0 <= val r <= inject_Z (2 ^ 21)) by (destruct W2; change (inject_Z (2 ^ 21)) with (2 * inject_Z (2 ^ 20)); lra).
  pose proof (at_least_within (pow2 (-64)) _ _ _ ltac:(lra) W2 (proj1 Hrb) A1) as A2. rewrite convert_round by done.
  destruct (double_stage (sign r) (val r) _ A2) as (F3 & W3 & _); [done|apply Qle_trans with (inject_Z (2 ^ 21)); [lra|by vm_compute]|].
  split; [done|]. apply within_mono with ((e + pow2 (-64) + e * pow2 (-64)) + ulp + (e + pow2 (-64) + e * pow2 (-64)) * ulp); [lra|by apply mean_err_bound; [lia|]|].
  assert (0 <= e * pow2 (-64)) by (apply Qmult_le_0_compat; lra).
  apply within_trans with (val r); [lra|lra|by vm_compute|by apply within_trans with (val num / T); [lra|lra|by vm_compute| |]|done].
Qed.

Lemma levels_in_range l : sizes_ok l → Forall (λ lv, price_range lv.1) l → Forall level_range l.
Proof. intros Hs Hp. unfold sizes_ok in Hs. induction Hp as [|lv l Hlv _ IH]; [constructor|]. apply Forall_cons in Hs as [? ?]. constructor; [by split|by apply IH]. Qed.

Lemma ieee_weighted bp bq ap aq bs as_ :
  Forall level_range (bs ++ as_) → (zlen (bs ++ as_) ≤ 2 ^ 33)%Z → (depth_size (bs ++ as_) ≤ 2 ^ 64)%Z → bs ++ as_ ≠ [] →
  let m := two_sided_metrics (D := fl) (LD := fl) bp bq ap aq bs as_ in
  finite (weighted_mid m) = true ∧
  within (mean_err (zlen (bs ++ as_))) (exact_depth (bs ++ as_) / inject_Z (depth_size (bs ++ as_))) (val (weighted_mid m)).
Proof.
  intros Hl Hz Hs Hne m. assert (Hst : depth_state [] (Zero false) (Zero false)) by (unfold depth_state, within; by vm_compute).
  pose proof Hl as [Hb Ha]%Forall_app. pose proof Hz as Hz'. pose proof Hs as Hs'. rewrite zlen_app in Hz'. rewrite depth_size_app in Hs'.
  pose proof (zlen_nonneg as_). pose proof (depth_size_nonneg as_ Ha).
  destruct (depth_state_run bs [] (Zero false) (Zero false) 0%Z) as (num & den & bsum & E1 & S1); [done|simpl; lia|simpl; lia|done|].
  destruct (depth_state_run as_ bs num den 0%Z) as (num' & den' & asum & E2 & S2); [done..|].
  destruct (depth_mean _ num' den' Hl Hne Hz Hs S2) as (Hd & Hw).
  assert (Em : weighted_mid m = convert binary64 (fdiv x87_extended num' den')).
  { unfold m, two_sided_metrics. change (ld_zero : fl) with (Zero false). rewrite E1, E2. cbn [weighted_mid]. unfold ld_pos, ieee_ops. by rewrite Hd. }
  by rewrite Em.
Qed.

(** C26: The metrics as the program computes them, in binary64 and the extended format.  On an
    uncrossed two-sided book, with at least one level and at most 2^31 levels of depth asked for, every figure is a finite
    number; the best prices in dollars are the exact ones up to half a unit in the last place; the
    mid price lies between them without any allowance for rounding, the micro-price up to a
    relative error of 2^-51; the spread is between 0 and 20000 basis points and both imbalances
    are between -1 and 1, again without allowance; and the depth-weighted mid of [k] levels is the
    average of their prices in dollars, weighted by size, up to a relative error of
    2^-53 + (2 k + 4) 2^-64. *)
Theorem metrics_ieee_bounds {F : Compare → Type} `{LevelStoreSpec F} ms (b : BasicOrderBook F) n bp bq ap aq :
  stream_ok ms → apply_all book0 ms = Some b → (1 ≤ Z.of_nat n ≤ 2 ^ 31)%Z →
  best_bid b = Some (Some (bp, bq)) → best_ask b = Some (Some (ap, aq)) → (bp ≤ ap)%Z →
  ∃ (m : BookMetrics fl) bs as_, compute_metrics b n = Some m ∧ bids b n = Some bs ∧ asks b n = Some as_ ∧
    let bid := val (dollars64 bp) in let ask := val (dollars64 ap) in let depth := bs ++ as_ in
    (1 - pow2 (-53)) * (inject_Z bp / 10000) <= bid <= (1 + pow2 (-53)) * (inject_Z bp / 10000) ∧
    (1 - pow2 (-53)) * (inject_Z ap / 10000) <= ask <= (1 + pow2 (-53)) * (inject_Z ap / 10000) ∧
    Forall (λ x, finite x = true) [mid m; microprice m; weighted_mid m; spread_bps m; imbalance_top m; imbalance_n m] ∧
    bid <= val (mid m) <= ask ∧ (1 - pow2 (-51)) * bid <= val (microprice m) <= (1 + pow2 (-51)) * ask ∧
    0 <= val (spread_bps m) <= 20000 ∧ -(1) <= val (imbalance_top m) <= 1 ∧ -(1) <= val (imbalance_n m) <= 1 ∧
    within (mean_err (zlen depth)) (exact_depth depth / inject_Z (depth_size depth)) (val (weighted_mid m)).
Proof.
  intros Hs Hb Hn Eb Ea Hle.
  destruct (metrics_cases (D := fl) (LD := fl) ms b n Hs Hb)
    as (bb & ba & bs & as_ & E1 & E2 & E3 & E4 & S1 & S2 & L1 & L2 & Hbb & Hba & Em).
  rewrite Eb in E1. rewrite Ea in E2. injection E1 as <-. injection E2 as <-.
  destruct (Hbb _ _ eq_refl) as (Hbp & Hbq & Hbl & Hbn). destruct (Hba _ _ eq_refl) as (Hap & Haq & Hal & _).
  destruct (ieee_top bp bq ap aq bs as_ Hbp Hap Hbq Haq Hle) as ((F1 & H1) & (F2 & H2) & (F3 & H3) & F4 & H4).
  destruct (ieee_depth bp bq ap aq bs as_ S1 S2 ltac:(lia) ltac:(lia)) as (F5 & H5).
  destruct (ieee_weighted bp bq ap aq bs as_) as (F6 & H6).
  { apply Forall_app. split; (apply levels_in_range; [done|]).
    - eapply Forall_impl; [exact Hbl|]. cbv beta. unfold price_range. lia.
    - eapply Forall_impl; [exact Hal|]. cbv beta. unfold price_range. lia. }
  { rewrite zlen_app. lia. }
  { rewrite depth_size_app. pose proof (depth_size_bound bs S1). pose proof (depth_size_bound as_ S2). lia. }
  { intros [E _]%app_eq_nil. apply Hbn in E; [done|lia]. }
  eexists _, bs, as_. split; [exact Em|]. do 2 (split; [done|]). cbv zeta. split; [apply (dollars64_spec bp Hbp)|]. split; [apply (dollars64_spec ap Hap)|].
  split; [by repeat constructor|]. done.
Qed.

Lemma metrics_ieee_bounds_witness :
  ∃ (b : BasicOrderBook MapLevels) (m : BookMetrics fl), apply_all book0 session = Some b ∧ compute_metrics b 5 = Some m ∧
    -(1) <= val (imbalance_n m) <= 1.
Proof.
  assert (Hs : stream_ok session) by (apply (bool_decide_unpack _); vm_compute; exact I).
  destruct (apply_all (F := MapLevels) book0 session) as [b|] eqn:Eb; [|exfalso; vm_compute in Eb; discriminate].
  assert (Etop : ∃ bp bq ap aq, best_bid b = Some (Some (bp, bq)) ∧ best_ask b = Some (Some (ap, aq)) ∧ (bp ≤ ap)%Z).
  { vm_compute in Eb. injection Eb as <-. do 4 eexists. vm_compute. split_and!; [reflexivity|reflexivity|discriminate]. }
  destruct Etop as (bp & bq & ap & aq & E1 & E2 & Hle).
  destruct (metrics_ieee_bounds session b 5 bp bq ap aq Hs Eb ltac:(lia) E1 E2 Hle) as (m & bs & as_ & Em & _ & _ & Hm).
  exists b, m. split; [reflexivity|]. split; [exact Em|]. cbv zeta in Hm. tauto.
Defined.
