(* ===== verification/PrintfFacts.v ===== *)
(** What is printed is read back: the printed text of a double is the nearest decimal of the digits
    asked for, [strtod] reads it up to the character behind it, and the value is the double nearest
    to that decimal.  This makes [double] an instance of the laws that the JSON code relies on, and
    prices of 32 bits survive printing and reading exactly. *)
From stdpp Require Import strings.
From S2P Require Export Printf IeeeMetrics.

#[local] Open Scope list_scope.
#[local] Open Scope Z_scope.

(** * Lists of digits *)

Definition digits (l : list Z) : Prop := Forall (λ c, is_digit c = true) l.

Lemma dec_value_app a b v : digits a → dec_value (a ++ b) v = dec_value b (dec_value a v).
Proof. intros Ha. revert v. induction Ha as [|c a Hc _ IH]; intros v; [done|]. simpl. by rewrite Hc, IH. Qed.

Lemma dec_value_acc l v : digits l → dec_value l v = v * 10 ^ zlen l + dec_value l 0.
Proof.
  intros Hl. revert v. induction Hl as [|c l Hc _ IH]; intros v; [unfold zlen; simpl; lia|]. cbn [dec_value]. rewrite Hc, IH, (IH (0 * 10 + (c - 48))), zlen_cons.
  pose proof (zlen_nonneg l). rewrite Z.pow_add_r by lia. lia.
Qed.

Lemma zeros_digits k : digits (replicate k 48).
Proof. by apply Forall_replicate. Qed.

Lemma zeros_before k l : dec_value (replicate k 48 ++ l) 0 = dec_value l 0.
Proof. induction k as [|k IH]; [done|]. simpl. exact IH. Qed.

Lemma zeros_behind l k : digits l → dec_value (l ++ replicate k 48) 0 = dec_value l 0 * 10 ^ Z.of_nat k.
Proof.
  intros Hl. rewrite dec_value_app, dec_value_acc by (done || apply zeros_digits).
  rewrite <- (app_nil_r (replicate k 48)) at 2. rewrite zeros_before. unfold zlen. rewrite length_replicate. simpl. lia.
Qed.

Lemma digit_char d : 0 ≤ d < 10 → is_digit (48 + d) = true.
Proof. unfold is_digit. lia. Qed.

Lemma fixed_digits_ok k n : digits (fixed_digits k n) ∧ length (fixed_digits k n) = k.
Proof.
  revert n. induction k as [|k IH]; intros n; [by split; [constructor|]|]. simpl. destruct (IH (n / 10)) as [H1 H2]. split.
  - apply Forall_app. split; [done|]. constructor; [|constructor]. apply digit_char, Z.mod_pos_bound. lia.
  - rewrite length_app. simpl. lia.
Qed.

Lemma fixed_digits_value k n : 0 ≤ n < 10 ^ Z.of_nat k → dec_value (fixed_digits k n) 0 = n.
Proof.
  revert n. induction k as [|k IH]; intros n Hn; [simpl in *; lia|]. cbn [fixed_digits]. rewrite Nat2Z.inj_succ, Z.pow_succ_r in Hn by lia.
  pose proof (Z.div_mod n 10 ltac:(lia)). pose proof (Z.mod_pos_bound n 10 ltac:(lia)) as Hm.
  rewrite dec_value_app by apply fixed_digits_ok. rewrite IH by lia. simpl. rewrite digit_char by done. lia.
Qed.

Lemma strip_zeros_spec l : ∃ k, l = strip_zeros l ++ replicate k 48.
Proof.
  induction l as [|c l [k IH]]; [by exists 0%nat|]. simpl. destruct (strip_zeros l) as [|d l'] eqn:E; [|exists k; by rewrite IH at 1].
  destruct (Z.eqb_spec c 48) as [->|]; [exists (S k)|exists k]; by rewrite IH at 1.
Qed.

Lemma strip_zeros_digits l : digits l → digits (strip_zeros l).
Proof. intros Hl. destruct (strip_zeros_spec l) as [k E]. unfold digits in *. rewrite E in Hl. by apply Forall_app in Hl as [? _]. Qed.

(** * The shape of a printed number *)

(** Digits, perhaps a point with digits, perhaps an exponent [x]; [q] is the value. *)

Definition text_shape (t : list Z) (q : Q) : Prop :=
  ∃ i fr ex x, t = i ++ fraction fr ++ ex ∧ i ≠ [] ∧ digits i ∧ digits fr ∧
    (ex = [] ∧ x = 0 ∨ ex = exponent_text x) ∧ (q == inject_Z (dec_value (i ++ fr) 0) * pow10 (x - zlen fr))%Q.

(** Cutting zeros off the digits behind the point. *)
Lemma strip_value i l x :
  digits i → digits l →
  (inject_Z (dec_value (i ++ strip_zeros l) 0) * pow10 (x - zlen (strip_zeros l)) ==
   inject_Z (dec_value (i ++ l) 0) * pow10 (x - zlen l))%Q.
Proof.
  intros Hi Hl. destruct (strip_zeros_spec l) as [k E]. pose proof (strip_zeros_digits l Hl) as Hs. set (s := strip_zeros l) in *. rewrite E.
  rewrite app_assoc, zeros_behind by (by apply Forall_app). rewrite inject_Z_mult, <- pow10_Z, <- Qmult_assoc, <- pow10_add by lia.
  rewrite zlen_app. unfold zlen at 3. rewrite length_replicate. by replace (Z.of_nat k + (x - (zlen s + Z.of_nat k))) with (x - zlen s) by lia.
Qed.

Lemma take_digits l k : digits l → digits (take k l) ∧ digits (drop k l).
Proof. intros Hl. split; [by apply Forall_take|by apply Forall_drop]. Qed.

Lemma general_shape p x : 1 ≤ p → (0 < x)%Q → text_shape (general p x) (decimal p x).
Proof.
  intros Hp Hx. destruct (significant_spec p x Hp Hx) as [Hn _]. unfold general, decimal. destruct (significant p x) as [n e]. cbn [fst snd] in *.
  assert (Hv : dec_value (fixed_digits (Z.to_nat p) n) 0 = n) by (apply fixed_digits_value; rewrite Z2Nat.id by lia; lia).
  destruct (fixed_digits_ok (Z.to_nat p) n) as [Hd Hl]. set (ds := fixed_digits (Z.to_nat p) n) in *.
  assert (Hzl : zlen ds = p) by (unfold zlen; lia).
  assert (Hcut : ∀ k, (1 ≤ k)%nat → take k ds ≠ []) by (intros k Hk E; apply (f_equal length) in E; rewrite length_take in E; simpl in E; lia).
  destruct ((-4 <=? e) && (e <? p)) eqn:Er; [destruct (Z.leb_spec 0 e)|].
  - destruct (take_digits ds (Z.to_nat (e + 1)) Hd) as [D1 D2].
    exists (take (Z.to_nat (e + 1)) ds), (strip_zeros (drop (Z.to_nat (e + 1)) ds)), [], 0. rewrite app_nil_r.
    split_and!; [done|apply Hcut; lia|done|by apply strip_zeros_digits|by left|]. rewrite strip_value by done. rewrite take_drop, Hv.
    unfold zlen. rewrite length_drop, Hl. f_equiv. f_equiv. lia.
  - assert (D2 : digits (zeros (- e - 1) ++ ds)) by (apply Forall_app; split; [apply zeros_digits|done]).
    exists [48], (strip_zeros (zeros (- e - 1) ++ ds)), [], 0. rewrite app_nil_r.
    split_and!; [done|done|by repeat constructor|by apply strip_zeros_digits|by left|]. rewrite strip_value by (done || by repeat constructor).
    change ([48] ++ zeros (- e - 1) ++ ds) with (replicate 1 48 ++ zeros (- e - 1) ++ ds). unfold zeros. rewrite !zeros_before, Hv, zlen_app, Hzl.
    unfold zlen. rewrite length_replicate. f_equiv. f_equiv. lia.
  - destruct (take_digits ds 1 Hd) as [D1 D2]. exists (take 1 ds), (strip_zeros (drop 1 ds)), (exponent_text e), e.
    split_and!; [done|by apply Hcut|done|by apply strip_zeros_digits|by right|]. rewrite strip_value by done. rewrite take_drop, Hv.
    unfold zlen. rewrite length_drop, Hl. f_equiv. f_equiv. lia.
Qed.

(** * Reading it *)

Lemma span_digits a c s : digits a → is_digit c = false → span is_digit (a ++ c :: s) = (a, c :: s).
Proof. intros Ha Hc. induction Ha as [|d a Hd _ IH]; simpl; [by rewrite Hc|]. by rewrite Hd, IH. Qed.

Lemma exponent_digits x : digits ((if Z.abs x <? 10 then [48] else []) ++ dec_digits (Z.abs x)).
Proof. apply Forall_app. split; [destruct (Z.abs x <? 10); by repeat constructor|apply dec_digits_ok; lia]. Qed.

Lemma read_exponent_text x c s : is_digit c = false → read_exponent 101 (exponent_text x ++ c :: s) = (x, c :: s).
Proof.
  intros Hc. unfold exponent_text. cbn [app read_exponent]. change (lower 101 =? 101) with true. cbn iota.
  set (ds := (if Z.abs x <? 10 then [48] else []) ++ dec_digits (Z.abs x)).
  assert (Hd : digits ds) by apply exponent_digits.
  assert (Hv : dec_value ds 0 = Z.abs x).
  { unfold ds. pose proof (dec_digits_value (Z.abs x) ltac:(lia)). destruct (_ <? _); [|done]. exact H. }
  assert (Hne : ds ≠ []) by (unfold ds; intros E; apply app_eq_nil in E as [_ E]; revert E; apply dec_loop_nonempty; by left).
  assert (Hs : read_sign ((if x <? 0 then 45 else 43) :: ds ++ c :: s) = (x <? 0, ds ++ c :: s)) by (by destruct (x <? 0)).
  rewrite Hs, span_digits by done. destruct ds as [|d ds]; [done|]. rewrite Hv. destruct (Z.ltb_spec x 0); f_equal; lia.
Qed.

Lemma read_shape t q c s :
  text_shape t q → ends_value c → ∃ q', read_decimal (t ++ c :: s) = Some (q', c :: s) ∧ (q' == q)%Q.
Proof.
  intros (i & fr & ex & x & -> & Hne & Di & Df & Hex & Eq) Hc. pose proof (ends_value_no_digit c Hc) as Hcd.
  assert (Hexp : read_exponent 101 (ex ++ c :: s) = (x, c :: s)).
  { destruct Hex as [[-> ->]| ->]; [|by apply read_exponent_text]. by destruct Hc as [->| ->]. }
  assert (Hh : ∃ h tl, ex ++ c :: s = h :: tl ∧ is_digit h = false ∧ (h =? 46) = false).
  { destruct Hex as [[-> _]| ->]; [exists c, s; split; [done|]; by destruct Hc as [->| ->]|]. by eexists _, _. }
  destruct Hh as (h & tl & Eh & Hhd & Hhp). exists (inject_Z (dec_value (i ++ fr) 0) * pow10 (x - zlen fr))%Q. split; [|by symmetry].
  assert (Hrd : read_digits is_digit ((i ++ fraction fr ++ ex) ++ c :: s) = (i, fr, ex ++ c :: s)).
  { rewrite <- !app_assoc. unfold read_digits. destruct fr as [|d fr].
    - cbn [fraction app]. rewrite Eh, span_digits by done. by rewrite Hhp.
    - unfold fraction. rewrite <- app_comm_cons, span_digits by done. change (46 =? 46) with true. cbn iota. by rewrite Eh, span_digits. }
  unfold read_decimal. rewrite Hrd, bool_decide_eq_false_2; [by rewrite Hexp|]. by intros [? _]%app_eq_nil.
Qed.

(** * [strtod] on printed doubles *)

Lemma digit_start d t : is_digit d = true → skip_space (d :: t) = d :: t ∧ read_sign (d :: t) = (false, d :: t).
Proof.
  intros Hd. assert (is_space d = false ∧ (d =? 45) = false ∧ (d =? 43) = false) as (E1 & E2 & E3) by (unfold is_digit, is_space in *; lia).
  simpl. by rewrite E1, E2, E3.
Qed.

Lemma digit_no_word d t w a l : is_digit d = true → lit w = a :: l → 97 ≤ a → after_word w (d :: t) = None.
Proof.
  intros Hd Hw Ha. unfold after_word. rewrite Hw. cbn [length take fmap list_fmap]. rewrite decide_False; [done|].
  intros [= E _]. revert E. unfold lower, is_digit in *. destruct ((65 <=? d) && (d <=? 90)); lia.
Qed.

(** No printed number looks hexadecimal. *)
Lemma shape_no_hex t q c s a b l : text_shape t q → ends_value c → t ++ c :: s = a :: b :: l → lower b ≠ 120.
Proof.
  intros (i & fr & ex & x & -> & Hne & Di & Df & Hex & _) Hc E.
  assert (Hb : b ∈ (i ++ fraction fr ++ ex) ++ [c]).
  { destruct (i ++ fraction fr ++ ex) as [|y [|z r]] eqn:Et; [by destruct i| |]; simpl in E; simplify_eq; set_solver. }
  assert (Hdig : ∀ l, digits l → b ∈ l → lower b ≠ 120).
  { intros k Hk Hin. unfold digits in Hk. rewrite Forall_forall in Hk. specialize (Hk b Hin). cbv beta in Hk. unfold is_digit, lower in *. destruct ((65 <=? b) && (b <=? 90)); lia. }
  apply elem_of_app in Hb as [[Hb|[Hb|Hb]%elem_of_app]%elem_of_app|Hb]; [by apply (Hdig i)| | |].
  - destruct fr as [|d fr]; [by apply not_elem_of_nil in Hb|]. unfold fraction in Hb. apply elem_of_cons in Hb as [->|Hb]; [done|by apply (Hdig (d :: fr))].
  - destruct Hex as [[-> _]| ->]; [by apply not_elem_of_nil in Hb|]. unfold exponent_text in Hb.
    apply elem_of_cons in Hb as [->|Hb]; [done|]. apply elem_of_cons in Hb as [->|Hb]; [by destruct (x <? 0)|].
    exact (Hdig _ (exponent_digits x) Hb).
  - apply list_elem_of_singleton in Hb as ->. by destruct Hc as [->| ->].
Qed.

Lemma strtod_shape (neg : bool) t q c s :
  text_shape t q → ends_value c → strtod64 (minus_sign neg ++ t ++ c :: s) = Some (rounded neg q, c :: s).
Proof.
  intros Ht Hc. destruct (read_shape t q c s Ht Hc) as (q' & Er & Eq). pose proof Ht as (i & fr & ex & x & Et & Hne & Di & _).
  assert (Hs : ∃ d r, t ++ c :: s = d :: r ∧ is_digit d = true).
  { destruct i as [|d i]; [done|]. apply Forall_cons in Di as [Hd _]. rewrite Et. by eexists _, _. }
  destruct Hs as (d & r & Es & Hd). destruct (digit_start d r Hd) as [H1 H2].
  assert (Hsign : read_sign (skip_space (minus_sign neg ++ t ++ c :: s)) = (neg, d :: r)).
  { rewrite Es. destruct neg; [done|]. cbn [minus_sign app]. by rewrite H1, H2. }
  unfold strtod64. rewrite Hsign.
  rewrite (digit_no_word d r "infinity" 105 (lit "nfinity") Hd eq_refl ltac:(lia)), (digit_no_word d r "inf" 105 (lit "nf") Hd eq_refl ltac:(lia)),
    (digit_no_word d r "nan" 110 (lit "an") Hd eq_refl ltac:(lia)). unfold read_finite.
  assert (Hx : match d :: r with a :: b :: s' => if (a =? 48) && (lower b =? 120) then read_hex s' else None | _ => None end = None).
  { destruct r as [|b r]; [done|]. pose proof (shape_no_hex t q c s d b r Ht Hc Es). destruct (Z.eqb_spec (lower b) 120); [done|]. by rewrite andb_false_r. }
  rewrite Hx, <- Es, Er. cbn [mbind option_bind]. unfold rounded. do 2 f_equal. destruct neg; by rewrite Eq.
Qed.

(** The double that a printed double is read as. *)

Definition reread (v : fl) : fl := match v with Fin s _ _ => rounded s (decimal 10 (magnitude v)) | _ => v end.

Lemma fin_magnitude s m e : (magnitude (Fin s m e) == inject_Z (Z.pos m) * pow2 e)%Q ∧ (0 < magnitude (Fin s m e))%Q.
Proof.
  assert (E : (magnitude (Fin s m e) == inject_Z (Z.pos m) * pow2 e)%Q).
  { unfold magnitude, val. rewrite Qabs_Qmult, (Qabs_pos (pow2 e)) by (apply Qlt_le_weak, pow2_pos). by destruct s. }
  split; [done|]. rewrite E. apply Qmult_lt_0_compat; [done|apply pow2_pos].
Qed.

(** What is printed ends at the comma or brace behind it, and reading gives the number nearest to
    the decimal that was printed. *)
Lemma strtod_printed v c s : ends_value c → strtod64 (fmt_double64 v ++ c :: s) = Some (reread v, c :: s).
Proof.
  intros Hc. unfold fmt_double64, printf_g. rewrite <- app_assoc. destruct v as [sg|sg|sg|sg m e].
  1-3: destruct sg, Hc as [->| ->]; reflexivity.
  cbn [sign]. apply strtod_shape; [|done]. apply general_shape; [done|]. apply fin_magnitude.
Qed.

(** The characters of a printed double. *)

Definition number_char (c : Z) : bool := is_digit c || bool_decide (c ∈ [45; 46; 101; 43; 105; 110; 102; 97]).

Lemma printed_chars v : Forall (λ c, number_char c = true) (fmt_double64 v).
Proof.
  assert (Hd : ∀ l, digits l → Forall (λ c, number_char c = true) l).
  { intros l Hl. eapply Forall_impl; [exact Hl|]. intros c Hc. unfold number_char. by rewrite Hc. }
  unfold fmt_double64, printf_g. apply Forall_app. split; [destruct (sign v); by repeat constructor|].
  destruct v as [s|s|s|s m e]; [by repeat constructor..|]. destruct (general_shape 10 _ ltac:(done) (proj2 (fin_magnitude s m e)))
    as (i & fr & ex & x & -> & _ & Di & Df & Hex & _).
  apply Forall_app. split; [by apply Hd|]. apply Forall_app. split.
  - destruct fr; [constructor|]. constructor; [done|by apply Hd].
  - destruct Hex as [[-> _]| ->]; [constructor|]. constructor; [done|]. constructor; [by destruct (x <? 0)|]. apply Hd, exponent_digits.
Qed.

Lemma printed_nonempty v : fmt_double64 v ≠ [].
Proof.
  unfold fmt_double64, printf_g. intros [_ E]%app_eq_nil. destruct v as [s|s|s|s m e]; [done..|].
  destruct (general_shape 10 _ ltac:(done) (proj2 (fin_magnitude s m e))) as (i & fr & ex & x & Et & Hne & _). rewrite Et in E.
  by apply app_eq_nil in E as [? _].
Qed.

#[export] Instance double_laws : DoubleTextLaws fl.
Proof.
  refine {| round10 := reread |}.
  1,2: intros d Hin; pose proof (printed_chars d) as Hf; rewrite Forall_forall in Hf; specialize (Hf _ Hin); by vm_compute in Hf.
  - intros d. pose proof (printed_chars d) as Hf. pose proof (printed_nonempty d). change (fmt_double d) with (fmt_double64 d).
    destruct (fmt_double64 d) as [|c s]; [done|]. exists c, s. split; [done|]. apply Forall_cons in Hf as [Hc _].
    unfold is_blank. destruct (Z.eqb_spec c 32) as [->|]; [by vm_compute in Hc|]. destruct (Z.eqb_spec c 9) as [->|]; [by vm_compute in Hc|done].
  - intros d c s Hc. by apply strtod_printed.
Qed.

(** * Prices *)

Lemma dec_loop_length fuel n acc k : 0 ≤ n < 10 ^ Z.of_nat k → (1 ≤ k)%nat → (length (dec_loop fuel n acc) ≤ k + length acc)%nat.
Proof.
  revert n acc k. induction fuel as [|fuel IH]; intros n acc k Hn Hk; cbn [dec_loop]; [lia|]. destruct (Z.ltb_spec n 10); [simpl; lia|].
  destruct k as [|[|k]]; [lia|simpl in Hn; lia|]. rewrite Nat2Z.inj_succ, Z.pow_succ_r in Hn by lia.
  pose proof (Z.div_mod n 10 ltac:(lia)). pose proof (Z.mod_pos_bound n 10 ltac:(lia)).
  specialize (IH (n / 10) ((48 + n `mod` 10) :: acc) (S k)). simpl in IH. lia.
Qed.

(** The characters of a price. *)
Lemma price_chars x : Forall (λ c, 45 ≤ c) (price_str x).
Proof.
  apply Forall_take. unfold printf_f4. apply Forall_app. split; [destruct (sign x); repeat constructor; lia|].
  assert (Hd : ∀ l, digits l → Forall (λ c, 45 ≤ c) l).
  { intros l Hl. eapply Forall_impl; [exact Hl|]. cbv beta. intros c. unfold is_digit. rewrite andb_true_iff, !Z.leb_le. lia. }
  assert (Hf : ∀ q, (0 <= q)%Q → let n := rne (q * pow10 4) in Forall (λ c, 45 ≤ c) (dec_digits (n / 10000) ++ 46 :: fixed_digits 4 (n `mod` 10000))).
  { intros q Hq n. assert (0 ≤ n) by (apply rne_ge, Qmult_le_0_compat; [done|by vm_compute]).
    apply Forall_app. split; [apply Hd, dec_digits_ok, Z.div_pos; lia|]. constructor; [lia|]. apply Hd, fixed_digits_ok. }
  destruct x as [s|s|s|s m e]; [exact (Hf _ (Qabs_nonneg (val (Zero s))))|apply (bool_decide_unpack _); by vm_compute..|exact (Hf _ (Qabs_nonneg (val (Fin s m e))))].
Qed.

Lemma Qabs_same x : (0 <= x)%Q → Qabs x = x.
Proof. destruct x as [n d]. unfold Qle. simpl. intros Hn. by rewrite Z.abs_eq by lia. Qed.

Lemma dollars64_close p :
  price_range p → (Qabs (inject_Z p - val (dollars64 p) * pow10 4) <= ulp * inject_Z p)%Q ∧ sign (dollars64 p) = false ∧ (0 <= val (dollars64 p))%Q.
Proof.
  intros Hp. destruct (dollars64_spec p Hp) as (_ & _ & Hl & Hh). assert (H0 : (0 <= inject_Z p)%Q) by (apply (injZ_le 0), Hp).
  change (pow10 4) with 10000%Q. assert (Ed : (inject_Z p / 10000 * 10000 == inject_Z p)%Q) by (field; lra).
  assert (Eu : (ulp * inject_Z p == ulp * (inject_Z p / 10000) * 10000)%Q) by (field; lra).
  split; [apply Qabs_Qle_condition; lra|]. split; [|exact (moderate_nonneg _ (proj1 (dollars64_moderate p Hp)))].
  rewrite dollars64_exact by done. apply round_nonneg_sign. apply Qle_shift_div_l; [done|]. by rewrite Qmult_0_l.
Qed.

(** A price in ticks is printed with its four decimals, exactly. *)
Lemma price_text p : price_range p → price_str (dollars64 p) = dec_digits (p / 10000) ++ 46 :: fixed_digits 4 (p `mod` 10000).
Proof.
  intros Hp. destruct (dollars64_close p Hp) as (Hc & Hs & H0). destruct (dollars64_spec p Hp) as (Hfin & _).
  assert (Hm : (magnitude (dollars64 p) == val (dollars64 p))%Q) by (by apply Qabs_pos).
  assert (Hn : rne (magnitude (dollars64 p) * pow10 4) = p).
  { rewrite Hm. apply rne_near. eapply Qle_lt_trans; [exact Hc|]. destruct Hp as [Hp0 Hp1].
    apply Qle_lt_trans with (ulp * inject_Z (2 ^ 32))%Q; [apply mult_le_l; [by vm_compute|apply injZ_le; lia]|by vm_compute]. }
  assert (Ht : printf_f4 (dollars64 p) = dec_digits (p / 10000) ++ 46 :: fixed_digits 4 (p `mod` 10000)).
  { unfold printf_f4. rewrite Hs, Hn. by destruct (dollars64 p). }
  unfold price_str, in_buffer. rewrite Ht. apply take_ge. rewrite length_app. cbn [length]. rewrite (proj2 (fixed_digits_ok 4 _)).
  destruct Hp as [Hp0 Hp1]. pose proof (Z.div_mod p 10000 ltac:(lia)). pose proof (Z.mod_pos_bound p 10000 ltac:(lia)).
  pose proof (dec_loop_length (S (Z.to_nat (Z.log2 (p / 10000)))) (p / 10000) [] 6 ltac:(simpl; lia) ltac:(lia)) as Hl. unfold dec_digits. cbn [length] in Hl. lia.
Qed.

(** Rounding does not push a price below the power of ten that it starts at. *)
Lemma powers_of_ten j : 0 ≤ j ≤ 9 → (pow10 (j - 4) <= val (dollars64 (10 ^ j)))%Q.
Proof.
  intros Hj. assert (Hall : forallb (λ j, Qle_bool (pow10 (Z.of_nat j - 4)) (val (dollars64 (10 ^ Z.of_nat j)))) (seq 0 10) = true) by (vm_compute; reflexivity).
  rewrite forallb_forall in Hall. specialize (Hall (Z.to_nat j)). rewrite Z2Nat.id in Hall by lia. apply Qle_bool_iff, Hall, in_seq. lia.
Qed.

Lemma price_decimal p : 0 < p < 2 ^ 32 → (decimal 10 (val (dollars64 p)) == inject_Z p / 10000)%Q.
Proof.
  intros Hp. assert (Hr : price_range p) by (unfold price_range; lia). destruct (log10_spec p ltac:(lia)) as (J0 & J1 & J2). set (j := log10 p) in *.
  assert (Hj : j ≤ 9).
  { destruct (Z.le_gt_cases j 9) as [|Hgt]; [done|]. pose proof (Z.pow_le_mono_r 10 10 j ltac:(lia) ltac:(lia)). lia. }
  destruct (dollars64_close p Hr) as (Hc & _ & _). apply Qabs_Qle_condition in Hc. pose proof (powers_of_ten j ltac:(lia)) as Hten.
  pose proof (dollars64_mono (10 ^ j) p ltac:(unfold price_range; lia) Hr J1) as Hmono. set (v := val (dollars64 p)) in *.
  assert (Hu : (ulp * inject_Z p < 1 # 1000000)%Q).
  { apply Qle_lt_trans with (ulp * inject_Z (2 ^ 32))%Q; [apply mult_le_l; [by vm_compute|apply injZ_le; lia]|by vm_compute]. }
  assert (E4 : (pow10 (j - 4 + 1) * pow10 4 == inject_Z (10 ^ (j + 1)))%Q).
  { rewrite <- pow10_add, <- pow10_Z by lia. by replace (j - 4 + 1 + 4) with (j + 1) by lia. }
  assert (Hup : (v < pow10 (j - 4 + 1))%Q).
  { assert (Hp1 : (inject_Z p + 1 <= inject_Z (10 ^ (j + 1)))%Q) by (change 1%Q with (inject_Z 1); rewrite <- inject_Z_plus; apply injZ_le; lia).
    change (pow10 4) with 10000%Q in *. lra. }
  assert (E10 : 10 ^ 10 = 10 ^ (j + 1) * 10 ^ (9 - j)) by (rewrite <- Z.pow_add_r by lia; f_equal; lia).
  assert (Hs : significant 10 v = (p * 10 ^ (9 - j), j - 4)).
  { apply significant_near; [|split; [lra|done]|].
    - rewrite E10. apply Z.mul_lt_mono_pos_r; lia.
    - rewrite inject_Z_mult, <- (pow10_Z (9 - j)) by lia. pose proof (pow10_pos (9 - j)) as Hpos.
      assert (Ee : (pow10 (10 - 1 - (j - 4)) == pow10 4 * pow10 (9 - j))%Q) by (rewrite <- pow10_add; by replace (4 + (9 - j)) with (10 - 1 - (j - 4)) by lia).
      assert (Hsc : (inject_Z p * pow10 (9 - j) - v * pow10 (10 - 1 - (j - 4)) == (inject_Z p - v * pow10 4) * pow10 (9 - j))%Q) by (rewrite Ee; ring).
      rewrite Hsc, Qabs_Qmult, (Qabs_pos (pow10 (9 - j))) by lra.
      apply Qle_lt_trans with (ulp * inject_Z p * pow10 (9 - j))%Q; [apply Qmult_le_compat_r; [by apply Qabs_Qle_condition|lra]|].
      apply Qle_lt_trans with (ulp * inject_Z (10 ^ 10))%Q; [|by vm_compute]. rewrite <- Qmult_assoc. apply mult_le_l; [by vm_compute|].
      rewrite (pow10_Z (9 - j)), <- inject_Z_mult by lia. apply injZ_le. rewrite E10. apply Z.mul_le_mono_nonneg_r; lia. }
  unfold decimal. rewrite Hs. cbn [fst snd]. rewrite inject_Z_mult, <- (pow10_Z (9 - j)), <- Qmult_assoc, <- pow10_add by lia.
  by replace (9 - j + (j - 4 - 10 + 1)) with (-4) by lia.
Qed.

(** Reading a printed price gives the same double. *)
Lemma price_reread p : price_range p → reread (dollars64 p) = dollars64 p.
Proof.
  intros Hp. destruct (dollars64_close p Hp) as (_ & Hs & H0). destruct (Z.eq_dec p 0) as [->|Hne]; [by vm_compute|].
  pose proof (Qabs_same _ H0) as Hm. fold (magnitude (dollars64 p)) in Hm.
  pose proof (price_decimal p ltac:(unfold price_range in *; lia)) as Hd. rewrite <- Hm in Hd. pose proof (dollars64_exact p Hp) as Hx.
  unfold reread. destruct (dollars64 p) as [s|s|s|s m e] eqn:E; [done..|]. cbn [sign] in Hs. subst s. unfold rounded. by rewrite Hd.
Qed.

(** * The buffer *)

Lemma strip_zeros_length l : (length (strip_zeros l) ≤ length l)%nat.
Proof. destruct (strip_zeros_spec l) as [k E]. apply (f_equal length) in E. rewrite length_app in E. lia. Qed.

Lemma fraction_length l : (length (fraction l) ≤ S (length l))%nat.
Proof. by destruct l; simpl; lia. Qed.

Lemma double_exponent v : canonical binary64 v → (0 < magnitude v)%Q → -324 ≤ log10Q (magnitude v) ≤ 308.
Proof.
  destruct v as [s|s|s|s m e]; [intros _ Hm; by apply Qlt_irrefl in Hm..|]. intros [Hm He] Hpos. change (-1074 ≤ e ≤ 971) in He.
  destruct (fin_magnitude s m e) as [E _]. destruct (log10Q_spec _ Hpos) as [L1 L2]. set (x := magnitude _) in *. set (k := log10Q x) in *.
  assert (H1 : (1 <= inject_Z (Z.pos m))%Q) by (apply (injZ_le 1); lia).
  assert (H2 : (inject_Z (Z.pos m) <= pow2 53)%Q) by (rewrite (pow2_Z 53) by lia; apply injZ_le; cbn in Hm; lia).
  pose proof (pow2_le (-1074) e ltac:(lia)) as He1. pose proof (pow2_le (53 + e) 1024 ltac:(lia)) as He2. rewrite pow2_add in He2. pose proof (pow2_pos e) as Hp.
  assert (Hlow : (pow10 (-324) <= x)%Q).
  { apply Qle_trans with (pow2 (-1074)); [by vm_compute|]. rewrite E. pose proof (Qmult_le_compat_r _ _ (pow2 e) H1 ltac:(lra)). lra. }
  assert (Hup : (x <= pow10 309)%Q).
  { apply Qle_trans with (pow2 1024); [|by vm_compute]. rewrite E. pose proof (Qmult_le_compat_r _ _ (pow2 e) H2 ltac:(lra)). lra. }
  split; [destruct (Z.le_gt_cases (-324) k) as [|Hgt]|destruct (Z.le_gt_cases k 308) as [|Hgt]]; try done; exfalso.
  - pose proof (pow10_le (k + 1) (-324) ltac:(lia)). lra.
  - assert (k = 309 ∨ 310 ≤ k) as [->|Hk] by lia.
    + assert ((pow2 1024 < pow10 309)%Q) by (by vm_compute). rewrite E in L1.
      pose proof (Qmult_le_compat_r _ _ (pow2 e) H2 ltac:(lra)). lra.
    + pose proof (pow10_le 310 k Hk). assert ((pow10 309 < pow10 310)%Q) by (by vm_compute). lra.
Qed.

(** No "%.10g" or shorter of a double fills the buffer of 32 characters. *)
Lemma printf_fits p v : 1 ≤ p ≤ 10 → canonical binary64 v → in_buffer (printf_g p v) = printf_g p v.
Proof.
  intros Hp Hv. apply take_ge. unfold printf_g. rewrite length_app. assert (length (minus_sign (sign v)) ≤ 1)%nat by (by destruct (sign v); simpl; lia).
  destruct v as [s|s|s|s m e]; [simpl in *; lia..|]. pose proof (double_exponent _ Hv (proj2 (fin_magnitude s m e))) as He.
  unfold general. assert (Hx : -324 ≤ (significant p (magnitude (Fin s m e))).2 ≤ 309).
  { unfold significant. destruct (_ =? _); cbn [snd]; lia. }
  destruct (significant p _) as [n x]. cbn [snd] in Hx. pose proof (proj2 (fixed_digits_ok (Z.to_nat p) n)) as Hl. set (ds := fixed_digits _ n) in *.
  destruct ((-4 <=? x) && (x <? p)) eqn:Er; [destruct (0 <=? x)|].
  - pose proof (fraction_length (strip_zeros (drop (Z.to_nat (x + 1)) ds))). pose proof (strip_zeros_length (drop (Z.to_nat (x + 1)) ds)).
    rewrite length_app, length_take. rewrite length_drop in *. lia.
  - pose proof (fraction_length (strip_zeros (zeros (- x - 1) ++ ds))). pose proof (strip_zeros_length (zeros (- x - 1) ++ ds)) as Hs.
    rewrite length_app in Hs. unfold zeros in Hs at 2. rewrite length_replicate in Hs. apply andb_true_iff in Er as [E1 _]. rewrite length_app. cbn [length]. lia.
  - pose proof (fraction_length (strip_zeros (drop 1 ds))). pose proof (strip_zeros_length (drop 1 ds)). rewrite length_drop in *.
    pose proof (dec_loop_length (S (Z.to_nat (Z.log2 (Z.abs x)))) (Z.abs x) [] 3 ltac:(simpl; lia) ltac:(lia)) as Hd.
    rewrite !length_app, length_take. unfold exponent_text. cbn [length]. rewrite length_app. fold (dec_digits (Z.abs x)) in Hd. cbn [length] in Hd.
    destruct (Z.abs x <? 10); cbn [length]; lia.
Qed.

(** Numbers as text.  Every finite non-zero double is printed by [fmt_double] as a decimal of ten
    significant digits that is off by at most half a unit of the last digit, inside the buffer;
    [strtod] in front of a comma or brace reads all of that text, and the double it returns is one
    that no other double is nearer to the printed decimal than; zeros, infinities and NaNs come
    back as they were. *)
Theorem printed_doubles_reread v c s :
  canonical binary64 v → ends_value c →
  in_buffer (fmt_double v) = fmt_double v ∧
  ∃ w, strtod (fmt_double v ++ c :: s) = Some (w, c :: s) ∧
    match v with
    | Fin sg _ _ =>
        let x := magnitude v in
        (10 ^ 9 ≤ (significant 10 x).1 < 10 ^ 10) ∧ (Qabs (decimal 10 x - x) <= (1 # 2) * pow10 (log10Q x - 9))%Q ∧
        (finite w = true → ∀ u, canonical binary64 u → finite u = true →
           (Qabs (val w - signed sg (decimal 10 x)) <= Qabs (val u - signed sg (decimal 10 x)))%Q)
    | _ => w = v
    end.
Proof.
  intros Hv Hc. split; [by apply printf_fits|]. exists (reread v). split; [by apply strtod_printed|]. destruct v as [sg|sg|sg|sg m e]; [done..|]. cbv zeta.
  destruct (significant_spec 10 _ ltac:(lia) (proj2 (fin_magnitude sg m e))) as [H1 H2]. split; [done|]. split.
  - by replace (log10Q (magnitude (Fin sg m e)) - 9) with (log10Q (magnitude (Fin sg m e)) - 10 + 1) by lia.
  - intros Hw u Hu _. unfold reread, rounded in *. unfold signed. destruct sg; (apply round_near; [done|done|by apply number_val]).
Qed.

Lemma printed_doubles_reread_witness :
  strtod (lit "1.0835" ++ [44]) = Some (dbl (10835 # 10000), [44]).
Proof.
  destruct (printed_doubles_reread (dbl (10835 # 10000)) 44 []) as (_ & w & E & _); [vm_compute; done|by left|].
  assert (Et : fmt_double (dbl (10835 # 10000)) = lit "1.0835") by (vm_compute; reflexivity). rewrite Et in E. rewrite E. vm_compute in E. vm_compute. congruence.
Defined.

(** C28: Prices survive text.  A price of 32 bits in ticks, converted to dollars as the program does
    it, is printed by the FIX code with exactly its four decimals, and the JSON code reads back the
    very double that it printed: the ten digits of [fmt_double] are enough for every price. *)
Theorem prices_survive_text p c s :
  price_range p → ends_value c →
  price_str (to_dollars p) = dec_digits (p / 10000) ++ 46 :: fixed_digits 4 (p `mod` 10000) ∧
  strtod (fmt_double (to_dollars p) ++ c :: s) = Some (to_dollars p, c :: s).
Proof.
  intros Hp Hc. change (to_dollars p) with (dollars64 p). split; [by apply price_text|].
  change (strtod64 (fmt_double64 (dollars64 p) ++ c :: s) = Some (dollars64 p, c :: s)). by rewrite strtod_printed, price_reread.
Qed.

Lemma prices_survive_text_witness :
  price_str (to_dollars 1502500) = lit "150.2500" ∧ strtod (fmt_double (to_dollars (D := fl) 1502500) ++ [125]) = Some (to_dollars 1502500, [125]).
Proof.
  destruct (prices_survive_text 1502500 125 []) as [E1 E2]; [by unfold price_range|by right|]. split; [rewrite E1; vm_compute; reflexivity|exact E2].
Defined.
