(* ===== verification/Bridge.v ===== *)
(** The bridge session (include/mt5/server.hpp, run_bridge) over the line socket and the
    protocol, and the example strategy (include/mt5/strategy.hpp).  A strategy is its state
    and [on_tick]; the arithmetic of the example is the class [DoubleArith].  The receive
    timeout is a socket option: whether and when calls time out is part of the input. *)
From stdpp Require Import strings.
From S2P Require Export Mt5Protocol.

#[local] Open Scope list_scope.
#[local] Open Scope Z_scope.

Record BridgeStats := mkStats {
  ticks : Z;
  orders : Z;
  acks : Z;
  nops : Z;
}.

Definition stats0 : BridgeStats := mkStats 0 0 0 0.

(** [bool on_tick(const Tick&, Order&)]. *)

Class Strategy (D St : Type) := on_tick : St → Tick D → Order D → bool * Order D * St.

Section Bridge.
Context {D St : Type} `{DoubleText D} `{Strategy D St}.

Definition set_id (o : Order D) (id : Z) : Order D :=
  mkOrder id (o_symbol o) (o_side o) (o_volume o) (o_price o) (o_kind o).

(** The loop of [run_bridge]; [None] is lack of fuel. *)

Fixpoint bridge_loop (fuel : nat) (max_idle_intervals idle next_id : Z) (st : BridgeStats) (strat : St)
    (sock : LineSocket) : option (BridgeStats * St * LineSocket) :=
  match fuel with
  | O => None
  | S fuel =>
      match recv_line sock with
      | (None, sock) =>
          if timed_out sock && (0 <? max_idle_intervals) then
            if max_idle_intervals <=? idle + 1 then Some (st, strat, sock)
            else bridge_loop fuel max_idle_intervals (idle + 1) next_id st strat sock
          else Some (st, strat, sock)
      | (Some line, sock) =>
          match kind_of line with
          | Hello =>
              let sock := (send_line (encode_hello_reply (lit "mt5d") true) sock).2 in
              bridge_loop fuel max_idle_intervals 0 next_id st strat sock
          | KTick =>
              match parse_tick line tick0 with
              | (false, _) => bridge_loop fuel max_idle_intervals 0 next_id st strat sock
              | (true, t) =>
                  let tk := u64 (ticks st + 1) in
                  match on_tick strat t order0 with
                  | (true, ord, strat) =>
                      let sock := (send_line (encode_order (set_id ord next_id)) sock).2 in
                      let st := mkStats tk (u64 (orders st + 1)) (acks st) (nops st) in
                      bridge_loop fuel max_idle_intervals 0 (u64 (next_id + 1)) st strat sock
                  | (false, _, strat) =>
                      let sock := (send_line encode_nop sock).2 in
                      let st := mkStats tk (orders st) (acks st) (u64 (nops st + 1)) in
                      bridge_loop fuel max_idle_intervals 0 next_id st strat sock
                  end
              end
          | KAck =>
              let st := mkStats (ticks st) (orders st) (u64 (acks st + 1)) (nops st) in
              bridge_loop fuel max_idle_intervals 0 next_id st strat sock
          | Bye => Some (st, strat, sock)
          | Subscribe | Heartbeat | KOrder | Nop | Depth | Signal | Unknown =>
              bridge_loop fuel max_idle_intervals 0 next_id st strat sock
          end
      end
  end.

(** Every round takes a line or a timeout off the connection. *)

Definition run_bridge (sock : LineSocket) (strat : St) (max_idle_intervals : Z) :
    option (BridgeStats * St * LineSocket) :=
  bridge_loop (S (length (lines (content sock)) + timeouts (incoming sock))) max_idle_intervals 0 1 stats0 strat sock.

End Bridge.

(** * The example strategy *)

Class DoubleArith (D : Type) := {
  d_add : D → D → D;
  d_sub : D → D → D;
  d_half : D → D;
  d_ge : D → D → bool;
}.

Section Example.
Context {D : Type} `{DoubleText D} `{DoubleArith D}.

Record ExampleStrategy := mkStrategy {
  prev_mid_ : D;
  primed_ : bool;
  step_ : D;
  lots_ : D;
}.

Definition example_strategy (step lots : D) : ExampleStrategy := mkStrategy dbl_zero false step lots.

Definition make (s : ExampleStrategy) (symbol : list Z) (side : Side) : Order D :=
  mkOrder 0 symbol side (lots_ s) dbl_zero (lit "market").

Definition example_on_tick (s : ExampleStrategy) (t : Tick D) (out : Order D) : bool * Order D * ExampleStrategy :=
  let mid := d_half (d_add (t_bid t) (t_ask t)) in
  let '(out, fire) :=
    if primed_ s then
      if d_ge (d_sub mid (prev_mid_ s)) (step_ s) then (make s (t_symbol t) Buy, true)
      else if d_ge (d_sub (prev_mid_ s) mid) (step_ s) then (make s (t_symbol t) Sell, true)
      else (out, false)
    else (out, false) in
  (fire, out, mkStrategy mid true (step_ s) (lots_ s)).

#[global] Instance example_strategy_instance : Strategy D ExampleStrategy := example_on_tick.

End Example.

Arguments ExampleStrategy D : clear implicits.

(** * What a connection brings

    The script of a connection as a sequence of lines and timeouts: bytes ([Some]) and
    timeouts ([None]) are taken one by one, and a line begun before a timeout goes on after
    it. *)

Inductive arrival : Set :=
  | Line (l : list Z)
  | Idle.

Fixpoint signals (inc : list recv_event) : list (option Z) :=
  match inc with
  | [] => []
  | Chunk d :: inc => (Some <$> d) ++ signals inc
  | WouldBlock :: inc => None :: signals inc
  end.

Fixpoint arrivals_from (cur : list Z) (f : list (option Z)) : list arrival :=
  match f with
  | [] => match cur with [] => [] | _ => [Line cur] end
  | None :: f => Idle :: arrivals_from cur f
  | Some c :: f => if c =? 10 then Line cur :: arrivals_from [] f else arrivals_from (cur ++ [c]) f
  end.

Definition arrivals (s : LineSocket) : list arrival :=
  arrivals_from [] ((Some <$> buf_ s) ++ signals (incoming s)).

Lemma arrivals_newline cur b f nl :
  index_of 10 b = Some nl →
  arrivals_from cur ((Some <$> b) ++ f) =
  Line (cur ++ take (Z.to_nat nl) b) :: arrivals_from [] ((Some <$> drop (Z.to_nat (nl + 1)) b) ++ f) ∧ 0 ≤ nl.
Proof.
  revert cur nl. induction b as [|c b IH]; intros cur nl E; [done|]. rewrite fmap_cons. cbn [index_of app arrivals_from] in *.
  destruct (c =? 10).
  - injection E as <-. simpl. by rewrite app_nil_r.
  - destruct (index_of 10 b) as [j|]; [|done]. injection E as <-. destruct (IH (cur ++ [c]) j eq_refl) as [-> Hj].
    split; [|lia]. replace (Z.to_nat (j + 1)) with (S (Z.to_nat j)) by lia.
    replace (Z.to_nat (j + 1 + 1)) with (S (S (Z.to_nat j))) by lia. cbn [take drop]. by rewrite <- app_assoc.
Qed.

Lemma arrivals_none cur b f :
  index_of 10 b = None → arrivals_from cur ((Some <$> b) ++ f) = arrivals_from (cur ++ b) f.
Proof.
  revert cur. induction b as [|c b IH]; intros cur E; [by rewrite app_nil_r|].
  rewrite fmap_cons. cbn [index_of app arrivals_from] in *.
  destruct (c =? 10); [done|]. destruct (index_of 10 b); [done|]. rewrite IH by done. by rewrite <- app_assoc.
Qed.

Lemma recv_signals n inc d inc' :
  chunks_ok inc → recv n inc = (Got d, inc') → signals inc = (Some <$> d) ++ signals inc'.
Proof.
  intros Hc E. destruct inc as [|[c|] inc]; simpl in E; try done.
  destruct (decide (c = [])); [done|]. destruct (_ <=? _); injection E as <- <-; [done|].
  simpl. rewrite app_assoc, <- fmap_app. by rewrite take_drop.
Qed.

(** [recv_line] takes the next arrival. *)
Lemma recv_line_arrival s :
  chunks_ok (incoming s) →
  arrivals s = match recv_line s with
               | (Some l, s') => Line l :: arrivals s'
               | (None, s') => if timed_out s' then Idle :: arrivals s' else []
               end.
Proof.
  intros Hc. unfold recv_line. set (s0 := mkSocket _ _ _ _ _ _). change (arrivals s) with (arrivals s0).
  assert (Ht : last_timed_out_ s0 = false) by done. assert (Hf : (length (stream (incoming s0)) < S (length (stream (incoming s))))%nat) by (simpl; lia).
  assert (Hc0 : chunks_ok (incoming s0)) by done. revert Ht Hf Hc0. generalize s0. generalize (S (length (stream (incoming s)))).
  clear. intros fuel. induction fuel as [|fuel IH]; intros s Ht Hf Hc; [lia|]. cbn [recv_line_loop].
  destruct (index_of 10 (buf_ s)) as [nl|] eqn:En; [unfold arrivals; by rewrite (proj1 (arrivals_newline [] _ _ nl En))|].
  destruct (recv 4096 (incoming s)) as [[d| |] inc] eqn:Er.
  - pose proof (recv_signals _ _ _ _ Hc Er) as Esig. apply recv_got in Er as (Hne & _ & Es & _ & Hc'); [|lia|done].
    rewrite <- IH; [|done|simpl; rewrite Es, length_app in Hf; destruct d; [done|simpl in Hf; lia]|done].
    unfold arrivals. simpl. by rewrite Esig, fmap_app, app_assoc.
  - apply recv_timed_out in Er. unfold arrivals. rewrite Er. simpl. by rewrite !arrivals_none.
  - apply recv_closed in Er as [E ->]; [|done]. unfold arrivals. rewrite E. simpl. rewrite arrivals_none by done. simpl.
    destruct (buf_ s); [simpl; unfold timed_out; simpl; by rewrite Ht|done].
Qed.

Lemma arrivals_bytes b f k n :
  (∀ cur, length (arrivals_from cur f) = (length (lines_from cur k) + n)%nat) →
  ∀ cur, length (arrivals_from cur ((Some <$> b) ++ f)) = (length (lines_from cur (b ++ k)) + n)%nat.
Proof.
  intros Hf. induction b as [|c b IH]; intros cur; [by apply Hf|]. rewrite fmap_cons.
  cbn [app arrivals_from lines_from]. destruct (c =? 10); [cbn [length]; rewrite IH; lia|apply IH].
Qed.

Lemma arrivals_length s : length (arrivals s) = (length (lines (content s)) + timeouts (incoming s))%nat.
Proof.
  unfold arrivals, lines, content. apply arrivals_bytes. induction (incoming s) as [|[d|] inc IH]; intros cur.
  - simpl. by destruct cur.
  - cbn [signals stream timeouts]. by apply arrivals_bytes.
  - cbn [signals stream timeouts arrivals_from length]. rewrite IH. lia.
Qed.

(** * The session *)

Section Session.
Context {D St : Type} `{DoubleText D} `{Strategy D St}.

(** The next correlation id, the counters and the strategy. *)

Definition engine : Type := Z * BridgeStats * St.

(** What one line is answered with, [None] for the line that ends the session. *)

Definition respond (line : list Z) (e : engine) : option (list (list Z) * engine) :=
  let '(next_id, st, strat) := e in
  match kind_of line with
  | Hello => Some ([encode_hello_reply (lit "mt5d") true], e)
  | KTick =>
      match parse_tick line tick0 with
      | (false, _) => Some ([], e)
      | (true, t) =>
          let tk := u64 (ticks st + 1) in
          match on_tick strat t order0 with
          | (true, ord, strat) =>
              Some ([encode_order (set_id ord next_id)],
                    (u64 (next_id + 1), mkStats tk (u64 (orders st + 1)) (acks st) (nops st), strat))
          | (false, _, strat) =>
              Some ([encode_nop], (next_id, mkStats tk (orders st) (acks st) (u64 (nops st + 1)), strat))
          end
      end
  | KAck => Some ([], (next_id, mkStats (ticks st) (orders st) (u64 (acks st + 1)) (nops st), strat))
  | Bye => None
  | _ => Some ([], e)
  end.

(** The session on a sequence of arrivals: the replies in order, the engine at the end, and
    the arrivals it has not taken. *)

Fixpoint session (max_idle idle : Z) (e : engine) (l : list arrival) : list (list Z) * engine * list arrival :=
  match l with
  | [] => ([], e, [])
  | Idle :: l =>
      if 0 <? max_idle then if max_idle <=? idle + 1 then ([], e, l) else session max_idle (idle + 1) e l
      else ([], e, l)
  | Line x :: l =>
      match respond x e with
      | None => ([], e, l)
      | Some (out, e) => let '(outs, e, l) := session max_idle 0 e l in (out ++ outs, e, l)
      end
  end.

Definition send_replies (outs : list (list Z)) (sock : LineSocket) : LineSocket :=
  foldl (λ s m, (send_line m s).2) sock outs.

Lemma bridge_loop_line fuel max_idle idle next_id st strat sock line sock' :
  recv_line sock = (Some line, sock') →
  bridge_loop (S fuel) max_idle idle next_id st strat sock =
  match respond line (next_id, st, strat) with
  | None => Some (st, strat, sock')
  | Some (outs, (next_id, st, strat)) => bridge_loop fuel max_idle 0 next_id st strat (send_replies outs sock')
  end.
Proof.
  intros E. cbn [bridge_loop]. rewrite E. unfold respond. destruct (kind_of line); try done.
  destruct (parse_tick line tick0) as [[|] t]; [|done]. by destruct (on_tick strat t order0) as [[[|] ord] strat'].
Qed.

Lemma send_replies_input outs sock :
  arrivals (send_replies outs sock) = arrivals sock ∧ incoming (send_replies outs sock) = incoming sock ∧
  (unbroken sock → unbroken (send_replies outs sock)).
Proof.
  revert sock. induction outs as [|m outs IH]; intros sock; [done|]. cbn [send_replies foldl].
  destruct (send_spec m sock) as (k & _ & (Hi & Hb & _) & _ & _ & Hu). fold (send_line m sock) in *.
  destruct (IH (send_line m sock).2) as (H2 & H3 & H4). unfold send_replies in *. rewrite H2, H3. unfold arrivals. rewrite Hi, Hb. auto.
Qed.

Lemma send_replies_output outs sock sock' : same_output sock sock' → same_output (send_replies outs sock) (send_replies outs sock').
Proof.
  revert sock sock'. induction outs as [|m outs IH]; intros sock sock' Ho; [done|]. cbn [send_replies foldl]. apply IH.
  by apply send_loop_output.
Qed.

(** Without failing calls the replies are sent. *)
Lemma send_replies_all outs sock :
  sends_ok sock → sent_ (send_replies outs sock) = sent_ sock ++ concat outs ∧ sends_ok (send_replies outs sock).
Proof.
  revert sock. induction outs as [|m outs IH]; intros sock Ha; [simpl; by rewrite app_nil_r|].
  destruct (send_line_all m sock Ha) as (_ & Hsent & _ & _ & _ & Ha'). cbn [send_replies foldl concat].
  destruct (IH _ Ha') as [H1 H2]. unfold send_replies in *. by rewrite H1, Hsent, app_assoc.
Qed.

(** The loop over the socket is the session on its arrivals, with its replies sent as far as the
    kernel takes them, and its fuel is enough. *)
Lemma bridge_loop_session fuel max_idle idle next_id st strat sock :
  chunks_ok (incoming sock) → (length (arrivals sock) < fuel)%nat →
  ∃ next_id' st' strat' sock', bridge_loop fuel max_idle idle next_id st strat sock = Some (st', strat', sock') ∧
    ∃ outs, session max_idle idle (next_id, st, strat) (arrivals sock) = (outs, (next_id', st', strat'), arrivals sock')
    ∧ same_output (send_replies outs sock) sock'.
Proof.
  revert idle next_id st strat sock. induction fuel as [|fuel IH]; intros idle next_id st strat sock Hc Hf; [lia|].
  pose proof (recv_line_arrival sock Hc) as Harr. pose proof (recv_line_spec sock Hc) as (Hc' & Ho & _).
  destruct (recv_line sock) as [[line|] s1] eqn:Er; cbn [fst snd] in *.
  - rewrite (bridge_loop_line _ _ _ _ _ _ _ _ _ Er), Harr. rewrite Harr in Hf. cbn [session length] in *.
    destruct (respond line (next_id, st, strat)) as [[outs [[n' st'] strat']]|].
    + destruct (send_replies_input outs s1) as (Har & Hi & _).
      destruct (IH 0 n' st' strat' (send_replies outs s1)) as (n'' & st'' & strat'' & sock'' & E1 & outs' & E2 & E3);
        [by rewrite Hi|rewrite Har; lia|].
      rewrite Har in E2. exists n'', st'', strat'', sock''. split; [done|]. exists (outs ++ outs'). rewrite E2. split; [done|].
      eapply same_output_trans; [|exact E3]. unfold send_replies at 1. rewrite foldl_app. by apply send_replies_output, send_replies_output.
    + exists next_id, st, strat, s1. split; [done|]. by exists [].
  - cbn [bridge_loop]. rewrite Er. destruct (timed_out s1) eqn:Et; rewrite Harr in *; cbn [andb session length] in *.
    + assert (Hstop : ∃ outs, ([] : list (list Z), (next_id, st, strat), arrivals s1) = (outs, (next_id, st, strat), arrivals s1)
        ∧ same_output (send_replies outs sock) s1) by (by exists []).
      destruct (0 <? max_idle); [destruct (max_idle <=? idle + 1)|]; [by (do 4 eexists; split; [reflexivity|exact Hstop])| |by (do 4 eexists; split; [reflexivity|exact Hstop])].
      destruct (IH (idle + 1) next_id st strat s1) as (n'' & st'' & strat'' & sock'' & E1 & outs' & E2 & E3); [done|lia|].
      exists n'', st'', strat'', sock''. split; [done|]. exists outs'. split; [done|]. eapply same_output_trans; [|exact E3]. by apply send_replies_output.
    + exists next_id, st, strat, s1. split; [done|]. exists []. split; [|done].
      assert (Hx : arrivals s1 = []); [|by rewrite Hx].
      pose proof (recv_line_spec sock Hc) as (_ & _ & Hstep). rewrite Er in Hstep. cbn [fst snd] in Hstep.
      rewrite Et in Hstep. destruct Hstep as (E1 & E2 & E3). rewrite E2 in E1. unfold content, arrivals in *.
      rewrite E3 in *. simpl in *. rewrite app_nil_r in E1. by rewrite E1.
Qed.

Lemma run_bridge_session max_idle strat sock :
  chunks_ok (incoming sock) →
  ∃ next_id st strat' sock' outs, run_bridge sock strat max_idle = Some (st, strat', sock') ∧
    session max_idle 0 (1, stats0, strat) (arrivals sock) = (outs, (next_id, st, strat'), arrivals sock')
    ∧ same_output (send_replies outs sock) sock' ∧ (sends_ok sock → sent_ sock' = sent_ sock ++ concat outs).
Proof.
  intros Hc. unfold run_bridge. rewrite <- arrivals_length.
  destruct (bridge_loop_session (S (length (arrivals sock))) max_idle 0 1 stats0 strat sock Hc)
    as (n & st & strat' & sock' & E1 & outs & E2 & E3); [lia|]. exists n, st, strat', sock', outs. split_and!; try done.
  intros Ha. destruct E3 as (_ & -> & _). by apply send_replies_all.
Qed.

(** ** Counters *)

Definition engine_ok (bound : Z) (e : engine) : Prop :=
  let '(next_id, st, _) := e in
  ticks st = orders st + nops st ∧ next_id = orders st + 1 ∧ 0 ≤ orders st ∧ 0 ≤ nops st ∧ ticks st ≤ bound.

(** The replies to a line: at most one, and one exactly when the line is a greeting or counts
    as a tick. *)
Lemma respond_ok line e outs e' bound :
  engine_ok bound e → 0 ≤ bound < 2 ^ 64 - 2 → respond line e = Some (outs, e') →
  engine_ok (bound + 1) e' ∧
  zlen outs = ticks e'.1.2 - ticks e.1.2 + (if decide (kind_of line = Hello) then 1 else 0).
Proof.
  destruct e as [[n st] strat]. intros (H1 & H2 & H3 & H4 & H5) Hb E. unfold respond in E.
  assert (Hsame : engine_ok (bound + 1) (n, st, strat)) by (unfold engine_ok; lia).
  destruct (kind_of line); simplify_eq; try (split; [first [done|unfold engine_ok; simpl; lia]|unfold zlen; simpl; lia]).
  destruct (parse_tick line tick0) as [[|] t]; simplify_eq; [|split; [done|unfold zlen; simpl; lia]].
  destruct (on_tick strat t order0) as [[[|] ord] strat']; simplify_eq; (split; [unfold engine_ok|]); unfold zlen; simpl;
    rewrite !u64_small; lia.
Qed.

Fixpoint hellos (l : list arrival) : Z :=
  match l with
  | [] => 0
  | Line x :: l => (if decide (kind_of x = Hello) then 1 else 0) + hellos l
  | Idle :: l => hellos l
  end.

Lemma session_ok max_idle idle e l bound :
  engine_ok bound e → 0 ≤ bound → bound + zlen l < 2 ^ 64 - 2 →
  let '(outs, e', rest) := session max_idle idle e l in
  engine_ok (bound + zlen l) e' ∧ (∃ taken, l = taken ++ rest ∧ zlen outs = ticks e'.1.2 - ticks e.1.2 + hellos taken).
Proof.
  revert idle e bound. induction l as [|[x|] l IH]; intros idle e bound He Hb Hl.
  - simpl. rewrite Z.add_0_r. split; [done|]. exists []. split; [done|]. simpl. unfold zlen. simpl. lia.
  - cbn [session]. rewrite zlen_cons in *. pose proof (zlen_nonneg l). destruct (respond x e) as [[outs e1]|] eqn:Er.
    + destruct (respond_ok _ _ _ _ bound He ltac:(lia) Er) as [He1 Ho].
      specialize (IH 0 e1 (bound + 1) He1 ltac:(lia) ltac:(lia)). destruct (session max_idle 0 e1 l) as [[outs' e'] rest].
      destruct IH as (He' & taken & -> & Hn). split; [by replace (bound + (zlen (taken ++ rest) + 1)) with (bound + 1 + zlen (taken ++ rest)) by lia|].
      exists (Line x :: taken). split; [done|]. rewrite zlen_app. cbn [hellos]. lia.
    + split; [destruct e as [[n st] strat]; unfold engine_ok in *; lia|]. exists [Line x]. split; [done|].
      cbn [hellos]. unfold respond in Er. destruct e as [[n st] strat]. change (zlen (@nil (list Z))) with 0.
      destruct (kind_of x) eqn:Ek; try done; [by repeat case_match|]. rewrite decide_False by done. simpl. lia.
  - cbn [session]. rewrite zlen_cons in *. pose proof (zlen_nonneg l).
    assert (Hstop : engine_ok (bound + (zlen l + 1)) e ∧
      ∃ taken, Idle :: l = taken ++ l ∧ zlen ([] : list (list Z)) = ticks e.1.2 - ticks e.1.2 + hellos taken).
    { split; [destruct e as [[n st] strat]; unfold engine_ok in *; lia|]. exists [Idle]. split; [done|]. simpl. unfold zlen. simpl. lia. }
    destruct (0 <? max_idle); [|done]. destruct (max_idle <=? idle + 1); [done|].
    specialize (IH (idle + 1) e bound He Hb ltac:(lia)). destruct (session max_idle (idle + 1) e l) as [[outs' e'] rest].
    destruct IH as (He' & taken & -> & Hn). split; [destruct e' as [[n st] strat]; unfold engine_ok in *; lia|].
    exists (Idle :: taken). by split.
Qed.

Lemma replies_unbroken outs sock sock' : unbroken sock → same_output (send_replies outs sock) sock' → killed_ sock' = false.
Proof. intros Hu (_ & _ & ->). by apply send_replies_input. Qed.

(** C22: On a connection where no send finds the peer gone (which would kill the process), a bridge
    session ends and is the request-reply session on what arrives: whatever the chunking of the
    connection, the counters, the strategy and the unread rest are those of the abstract session;
    its replies are handed to [send] in order, a failed send being ignored, so that without a
    failing send the bytes sent are exactly the replies; every tick that parses is counted once, as
    an order or as a nop; and there is one reply for each greeting and each counted tick, and none
    for any other line. *)
Theorem bridge_session max_idle strat sock :
  chunks_ok (incoming sock) → unbroken sock → zlen (arrivals sock) < 2 ^ 63 →
  ∃ next_id st strat' sock' taken outs,
    run_bridge sock strat max_idle = Some (st, strat', sock') ∧ killed_ sock' = false ∧
    arrivals sock = taken ++ arrivals sock' ∧
    session max_idle 0 (1, stats0, strat) (arrivals sock) = (outs, (next_id, st, strat'), arrivals sock') ∧
    same_output (send_replies outs sock) sock' ∧ (sends_ok sock → sent_ sock' = sent_ sock ++ concat outs) ∧
    ticks st = orders st + nops st ∧ next_id = orders st + 1 ∧ zlen outs = ticks st + hellos taken.
Proof.
  intros Hc Hu Hl. destruct (run_bridge_session max_idle strat sock Hc) as (n & st & strat' & sock' & outs & E1 & E2 & E3 & E4).
  pose proof (session_ok max_idle 0 (1, stats0, strat) (arrivals sock) 0) as Hs. rewrite E2 in Hs. destruct Hs as [He (taken & El & Hn)].
  - unfold engine_ok. simpl. lia.
  - lia.
  - lia.
  - destruct He as (H1 & H2 & _). exists n, st, strat', sock', taken, outs.
    split_and!; try done; [by eapply replies_unbroken|simpl in Hn; lia].
Qed.

(** ** Silence *)

(** A peer that keeps a session alive: never [max_idle] timeouts in a row, counted from [idle], no
    goodbye, and a line at the end. *)

Fixpoint attentive (max_idle idle : Z) (l : list arrival) : bool :=
  match l with
  | [] => idle =? 0
  | Idle :: l => (idle + 1 <? max_idle) && attentive max_idle (idle + 1) l
  | Line x :: l => negb (bool_decide (kind_of x = Bye)) && attentive max_idle 0 l
  end.

Lemma respond_goes_on line e : kind_of line ≠ Bye → is_Some (respond line e).
Proof. destruct e as [[n st] strat]. intros Hk. unfold respond. destruct (kind_of line); try done; repeat case_match; by eexists. Qed.

Lemma session_idle_run max_idle idle e (n : nat) post :
  0 < max_idle → max_idle = idle + Z.of_nat n → (0 < n)%nat →
  session max_idle idle e (replicate n Idle ++ post) = ([], e, post).
Proof.
  revert idle. induction n as [|n IH]; intros idle Hm Hn Hpos; [lia|]. cbn [replicate app session].
  replace (0 <? max_idle) with true by lia. destruct (Z.leb_spec max_idle (idle + 1)) as [Hle|Hgt].
  - by replace n with 0%nat by lia.
  - apply IH; lia.
Qed.

Lemma session_silence max_idle idle e pre post :
  0 < max_idle → attentive max_idle idle pre = true →
  ∃ outs e', session max_idle idle e pre = (outs, e', []) ∧
    session max_idle idle e (pre ++ replicate (Z.to_nat max_idle) Idle ++ post) = (outs, e', post).
Proof.
  intros Hm. revert idle e. induction pre as [|[x|] pre IH]; intros idle e Ha; cbn [app session attentive] in *.
  - apply Z.eqb_eq in Ha as ->. exists [], e. split; [done|]. apply session_idle_run; lia.
  - apply andb_true_iff in Ha as [Hk Ha]. apply negb_true_iff, bool_decide_eq_false in Hk.
    destruct (respond_goes_on x e Hk) as [[outs e1] ->]. destruct (IH 0 e1 Ha) as (outs' & e' & -> & ->). by exists (outs ++ outs'), e'.
  - apply andb_true_iff in Ha as [Hi Ha]. replace (0 <? max_idle) with true by lia. replace (max_idle <=? idle + 1) with false by lia.
    by apply IH.
Qed.

(** C23: A silent peer is dropped, exactly when its time is up.  Let the peer first keep the session
    alive: never as many timeouts in a row as the limit, however many in all, no goodbye, and a
    line at the end, and let no send find it gone.  Then let it be silent for the limit.  The session has taken everything up
    to the last of these timeouts and nothing behind it, not even what has already arrived, and
    its counters, strategy and replies are those of the traffic in front of the silence. *)
Theorem bridge_drops_silent_peer max_idle strat sock pre post :
  chunks_ok (incoming sock) → unbroken sock → 0 < max_idle → attentive max_idle 0 pre = true →
  arrivals sock = pre ++ replicate (Z.to_nat max_idle) Idle ++ post →
  ∃ next_id st strat' sock' outs, run_bridge sock strat max_idle = Some (st, strat', sock') ∧ killed_ sock' = false ∧ arrivals sock' = post ∧
    session max_idle 0 (1, stats0, strat) pre = (outs, (next_id, st, strat'), []) ∧
    same_output (send_replies outs sock) sock' ∧ (sends_ok sock → sent_ sock' = sent_ sock ++ concat outs).
Proof.
  intros Hc Hu Hm Ha E. destruct (run_bridge_session max_idle strat sock Hc) as (n & st & strat' & sock' & outs & E1 & E2 & E3 & E4).
  destruct (session_silence max_idle 0 (1, stats0, strat) pre post Hm Ha) as (outs' & e' & S1 & S2). rewrite E, S2 in E2. injection E2 as <- -> Ep.
  exists n, st, strat', sock', outs'. split_and!; try done. by eapply replies_unbroken.
Qed.

(** ** Traffic *)

(** Timeouts below the limit do not change what a session does. *)

Definition line_of (a : arrival) : option (list Z) := match a with Line l => Some l | Idle => None end.

Fixpoint idles (l : list arrival) : nat :=
  match l with [] => O | Idle :: l => S (idles l) | Line _ :: l => idles l end.

Lemma session_lines max_idle idle idle' e l :
  0 ≤ idle → idle + Z.of_nat (idles l) < max_idle ∨ idles l = 0%nat →
  (session max_idle idle e l).1 = (session max_idle idle' e (Line <$> omap line_of l)).1.
Proof.
  revert idle idle' e. induction l as [|[x|] l IH]; intros idle idle' e Hi Hl; [done| |].
  - change (Line <$> omap line_of (Line x :: l)) with (Line x :: (Line <$> omap line_of l)). cbn [session idles] in *.
    destruct (respond x e) as [[outs e']|]; [|done]. specialize (IH 0 0 e' ltac:(lia) ltac:(lia)).
    destruct (session max_idle 0 e' l) as [[? ?] ?], (session max_idle 0 e' (Line <$> omap line_of l)) as [[? ?] ?].
    simpl in *. by simplify_eq.
  - cbn [session idles] in *. destruct Hl as [Hl|]; [|done]. replace (0 <? max_idle) with true by lia.
    replace (max_idle <=? idle + 1) with false by lia. apply IH; lia.
Qed.

Lemma arrivals_lines_from b f k :
  (∀ cur, omap line_of (arrivals_from cur f) = lines_from cur k) →
  ∀ cur, omap line_of (arrivals_from cur ((Some <$> b) ++ f)) = lines_from cur (b ++ k).
Proof.
  intros Hf. induction b as [|c b IH]; intros cur; [by apply Hf|]. rewrite fmap_cons.
  cbn [app arrivals_from lines_from]. destruct (c =? 10); [|apply IH].
  change (omap line_of (Line cur :: ?l)) with (cur :: omap line_of l). by rewrite IH.
Qed.

Lemma arrivals_lines s : omap line_of (arrivals s) = lines (content s).
Proof.
  unfold arrivals, lines, content. apply arrivals_lines_from. induction (incoming s) as [|[d|] inc IH]; intros cur.
  - simpl. by destruct cur.
  - cbn [signals stream]. by apply arrivals_lines_from.
  - cbn [signals stream arrivals_from]. apply IH.
Qed.

Lemma arrivals_idles s : idles (arrivals s) = timeouts (incoming s).
Proof.
  pose proof (arrivals_length s) as Hl. rewrite <- arrivals_lines in Hl.
  assert (Hc : ∀ l, length l = (length (omap line_of l) + idles l)%nat); [|specialize (Hc (arrivals s)); lia].
  clear. induction l as [|[x|] l IH]; [done| |].
  - change (omap line_of (Line x :: l)) with (x :: omap line_of l). cbn [length idles]. lia.
  - change (omap line_of (Idle :: l)) with (omap line_of l). cbn [length idles]. lia.
Qed.
End Session.

(** * A trading session, end to end *)

Section EndToEnd.
Context {D St : Type} `{DoubleTextLaws D} `{Strategy D St}.

Definition tick_ok (t : Tick D) : Prop := 0 ≤ t_time t < 2 ^ 63 ∧ 0 ≤ t_volume t < 2 ^ 63.

(** What the other side of the connection sees of a tick or an order. *)

Definition received (t : Tick D) : Tick D :=
  mkTick (t_symbol t) (t_time t) (round10 (t_bid t)) (round10 (t_ask t)) (round10 (t_last t)) (t_volume t).

Definition received_order (o : Order D) : Order D :=
  mkOrder (o_id o) (o_symbol o) (o_side o) (round10 (o_volume o)) (round10 (o_price o)) (o_kind o).

(** The strategy's decisions on a sequence of ticks, orders numbered from [next_id]. *)

Fixpoint decisions (next_id : Z) (strat : St) (ts : list (Tick D)) : list (option (Order D)) :=
  match ts with
  | [] => []
  | t :: ts =>
      match on_tick strat (received t) order0 with
      | (true, o, strat) => Some (set_id o next_id) :: decisions (next_id + 1) strat ts
      | (false, _, strat) => None :: decisions next_id strat ts
      end
  end.

Definition answered (d : option (Order D)) (line : list Z) : Prop :=
  match d with
  | Some o => kind_of line = KOrder ∧ parse_order line order0 = (true, received_order o)
  | None => kind_of line = Nop
  end.

Definition two_sided_strategy : Prop :=
  ∀ strat t o strat', on_tick strat t order0 = (true, o, strat') → o_side o = Buy ∨ o_side o = Sell.

Lemma one_line_unique m l l' : one_line m l → one_line m l' → l = l'.
Proof. intros [-> _] [E _]. by apply app_inj_tail in E as [-> _]. Qed.

Lemma tick_line t line :
  tick_ok t → one_line (encode_tick t) line → kind_of line = KTick ∧ parse_tick line tick0 = (true, received t).
Proof.
  intros [Ht Hv] Hl. destruct (tick_roundtrip t tick0) as (l & Hl' & Hk & Hp); [lia..|].
  rewrite (one_line_unique _ _ _ Hl Hl'). split; [done|]. rewrite Hp. unfold received. by rewrite !Z.min_l by lia.
Qed.

Lemma order_reply o next_id :
  0 ≤ next_id < 2 ^ 63 → o_side o = Buy ∨ o_side o = Sell →
  ∃ line, one_line (encode_order (set_id o next_id)) line ∧ answered (Some (set_id o next_id)) line.
Proof.
  intros Hn Hs. destruct (order_roundtrip (set_id o next_id) order0) as (l & Hl & Hk & Hp); [simpl; lia|done|].
  exists l. split; [done|]. split; [done|]. rewrite Hp. unfold received_order. simpl. by rewrite Z.min_l by lia.
Qed.

Lemma bye_line : one_line encode_bye (jlit "{'t':'bye','v':1}") ∧ kind_of (jlit "{'t':'bye','v':1}") = Bye.
Proof. split; [split; [done|set_solver]|done]. Qed.

Lemma nop_line : one_line encode_nop (jlit "{'t':'nop','v':1}") ∧ kind_of (jlit "{'t':'nop','v':1}") = Nop.
Proof. split; [split; [done|set_solver]|done]. Qed.

Lemma session_ticks max_idle next_id st strat ts ls :
  two_sided_strategy → Forall tick_ok ts → Forall2 one_line (encode_tick <$> ts) ls →
  0 ≤ ticks st → ticks st + zlen ts < 2 ^ 63 → 0 ≤ next_id → next_id + zlen ts < 2 ^ 63 →
  ∃ outs n' st' strat' rest,
    session max_idle 0 (next_id, st, strat) (Line <$> ls ++ [jlit "{'t':'bye','v':1}"]) = (outs, (n', st', strat'), rest)
    ∧ ticks st' = ticks st + zlen ts
    ∧ Forall2 (λ d m, ∃ line, one_line m line ∧ answered d line) (decisions next_id strat ts) outs.
Proof.
  intros Hside. revert next_id st strat ls. induction ts as [|t ts IH]; intros next_id st strat ls Hok Hls Hst Hb Hn Hnb.
  - apply Forall2_nil_inv_l in Hls as ->. cbn [app fmap list_fmap session]. unfold respond. rewrite (proj2 bye_line).
    do 5 eexists. split; [done|]. split; [change (zlen (@nil (Tick D))) with 0; lia|constructor].
  - rewrite fmap_cons in Hls. apply Forall2_cons_inv_l in Hls as (l & ls' & Hl & Hls & ->).
    apply Forall_cons in Hok as [Ht Hok]. destruct (tick_line t l Ht Hl) as [Hk Hp]. rewrite zlen_cons in *.
    pose proof (zlen_nonneg ts). rewrite <- app_comm_cons, fmap_cons. cbn [session decisions]. unfold respond.
    rewrite Hk, Hp, (u64_small (ticks st + 1)) by lia.
    destruct (on_tick strat (received t) order0) as [[[|] o] strat'] eqn:Eo.
    + rewrite (u64_small (next_id + 1)) by lia.
      destruct (IH (next_id + 1) (mkStats (ticks st + 1) (u64 (orders st + 1)) (acks st) (nops st)) strat' ls')
        as (outs & n' & st' & strat'' & rest & E1 & E2 & E3); [done|done|simpl; lia..|].
      rewrite E1. do 5 eexists. split; [done|]. split; [simpl in E2; lia|].
      cbn [app]. constructor; [|done]. apply order_reply; [lia|by eapply Hside].
    + destruct (IH next_id (mkStats (ticks st + 1) (orders st) (acks st) (u64 (nops st + 1))) strat' ls')
        as (outs & n' & st' & strat'' & rest & E1 & E2 & E3); [done|done|simpl; lia..|].
      rewrite E1. do 5 eexists. split; [done|]. split; [simpl in E2; lia|].
      cbn [app]. constructor; [|done]. exists (jlit "{'t':'nop','v':1}"). split; apply nop_line.
Qed.

Lemma tick_lines (ts : list (Tick D)) : Forall tick_ok ts → ∃ ls, Forall2 one_line (encode_tick <$> ts) ls.
Proof.
  induction 1 as [|t ts [Ht Hv] _ [ls IH]]; [by exists []|].
  destruct (tick_roundtrip t tick0) as (l & Hl & _); [lia..|]. exists (l :: ls). rewrite fmap_cons. by constructor.
Qed.

Lemma reply_lines ds outs :
  Forall2 (λ d m, ∃ line, one_line m line ∧ answered d line) ds outs → ∃ ls, Forall2 one_line outs ls ∧ Forall2 answered ds ls.
Proof.
  induction 1 as [|d m ds outs (l & Hl & Ha) _ (ls & IH1 & IH2)]; [by exists []|]. exists (l :: ls). split; by constructor.
Qed.

(** C24: The whole exchange with a trading terminal, for a strategy that only buys or sells and
    connections without failing sends: the terminal sends ticks with times and volumes below 2^63
    and a goodbye, the bytes cut in any way and with fewer timeouts than the idle limit; the
    session ends having counted every tick, and the terminal, receiving the bytes sent back in any
    pieces, reads exactly one line per tick, in order: a nop, or the order that the strategy decided
    on from the tick as it was read, numbered from 1, with its strings and side unchanged and its
    volume and price as they are read back from ten significant digits. *)
Theorem bridge_answers_ticks ts max_idle strat inc ks :
  two_sided_strategy → Forall tick_ok ts → zlen ts < 2 ^ 63 - 1 → chunks_ok inc → Forall (λ n, 0 < n) ks →
  stream inc = concat (encode_tick <$> ts) ++ encode_bye →
  Z.of_nat (timeouts inc) < max_idle ∨ timeouts inc = 0%nat →
  ∃ st strat' sock', run_bridge (connection inc ks) strat max_idle = Some (st, strat', sock') ∧ ticks st = zlen ts ∧
    ∀ inc' fuel, chunks_ok inc' → stream inc' = sent_ sock' → (length ts + timeouts inc' < fuel)%nat →
      ∃ replies, read_all fuel (connection inc' []) = Some replies ∧ Forall2 answered (decisions 1 strat ts) replies.
Proof.
  intros Hside Hok Hlen Hc Hk Es Hto. pose proof (zlen_nonneg ts).
  destruct (tick_lines ts Hok) as [ls Hls].
  destruct (run_bridge_session max_idle strat (connection inc ks) Hc) as (n & st & strat' & sock' & outs & E1 & E2 & _ & E3). specialize (E3 (conj eq_refl Hk)).
  destruct (session_ticks max_idle 1 stats0 strat ts ls) as (outs' & n' & st' & strat'' & rest & S1 & S2 & S3); [done|done|done|simpl; lia..|].
  assert (Hcontent : lines (content (connection inc ks)) = ls ++ [jlit "{'t':'bye','v':1}"]).
  { unfold content. simpl. rewrite Es. replace (concat (encode_tick <$> ts) ++ encode_bye) with
      (concat ((encode_tick <$> ts) ++ [encode_bye])) by (rewrite concat_app; cbn [concat]; by rewrite app_nil_r).
    apply lines_concat, Forall2_app; [done|]. constructor; [apply bye_line|constructor]. }
  pose proof (session_lines max_idle 0 0 (1, stats0, strat) (arrivals (connection inc ks))) as Heq.
  rewrite arrivals_idles, arrivals_lines, Hcontent, E2, S1 in Heq. simpl in Heq.
  specialize (Heq ltac:(lia) ltac:(simpl; lia)). injection Heq as -> -> -> ->.
  exists st', strat'', sock'. split; [done|]. split; [simpl in S2; lia|]. intros inc' fuel Hc' Es' Hf.
  destruct (reply_lines _ _ S3) as (replies & Hr1 & Hr2). exists replies. split; [|done].
  assert (El : lines (content (connection inc' [])) = replies).
  { unfold content. simpl. rewrite Es', E3. simpl. by apply lines_concat. }
  assert (Hn : length replies = length ts).
  { rewrite <- (Forall2_length _ _ _ Hr2). clear. generalize 1 strat. induction ts as [|t ts IH]; intros k s; simpl; [done|].
    destruct (on_tick s (received t) order0) as [[[|] o] s']; simpl; by rewrite IH. }
  rewrite recv_lines_of_stream; [by rewrite El|done|rewrite El; simpl; lia].
Qed.
End EndToEnd.

(** * The example strategy *)

Section ExampleFacts.
Context {D : Type} `{DoubleTextLaws D} `{DoubleArith D}.

Definition mid (t : Tick D) : D := d_half (d_add (t_bid t) (t_ask t)).

(** The side a move of the mid price from [m] to [m'] calls for. *)

Definition move (step m m' : D) : option Side :=
  if d_ge (d_sub m' m) step then Some Buy else if d_ge (d_sub m m') step then Some Sell else None.

(** The market order on a move from one tick to the next. *)

Definition trade_on (step lots : D) (t t' : Tick D) : option (Order D) :=
  (λ side, mkOrder 0 (t_symbol t') side lots dbl_zero (lit "market")) <$> move step (mid (received t)) (mid (received t')).

Definition unnumbered (d : option (Order D)) : option (Order D) := (λ o, set_id o 0) <$> d.

Lemma example_two_sided : two_sided_strategy (D := D) (St := ExampleStrategy D).
Proof.
  intros s t o s' E. unfold on_tick, example_strategy_instance, example_on_tick in E.
  destruct (primed_ s); [|done]. destruct (d_ge _ _); [injection E as <- _; by left|].
  destruct (d_ge _ _); [injection E as <- _; by right|done].
Qed.

Lemma example_decisions n s t ts :
  primed_ s = true → prev_mid_ s = mid (received t) →
  unnumbered <$> decisions n s ts = zip_with (trade_on (step_ s) (lots_ s)) (t :: ts) ts.
Proof.
  revert n s t. induction ts as [|t' ts IH]; intros n s t Hp Hm; [done|]. cbn [decisions zip_with].
  unfold on_tick at 1, example_strategy_instance at 1, example_on_tick at 1. rewrite Hp, Hm.
  fold (mid (received t')). unfold trade_on at 1, move.
  destruct (d_ge (d_sub (mid (received t')) (mid (received t))) (step_ s));
    [|destruct (d_ge (d_sub (mid (received t)) (mid (received t'))) (step_ s))]; cbn [fmap list_fmap option_fmap option_map];
    f_equal; by apply (IH _ (mkStrategy (mid (received t')) true (step_ s) (lots_ s)) t').
Qed.

(** The example strategy never trades on the first tick, and on every later one exactly when
    the mid price moved by at least the step against the previous tick: a market order for the
    tick's symbol and the configured lots, to buy on a rise and to sell on a fall. *)
Theorem example_strategy_rule step lots t ts :
  unnumbered <$> decisions 1 (example_strategy step lots) (t :: ts)
  = None :: zip_with (trade_on step lots) (t :: ts) ts.
Proof.
  cbn [decisions]. unfold on_tick at 1, example_strategy_instance at 1, example_on_tick at 1. simpl primed_. cbv iota.
  cbn [fmap list_fmap option_fmap option_map]. f_equal. by apply (example_decisions 1 (mkStrategy _ true step lots) t).
Qed.

End ExampleFacts.

(** A line with the tag of a tick that the parser rejects is not answered. *)
Lemma malformed_tick_unanswered {D St} `{DoubleTextLaws D} `{Strategy D St} (fs : list (string * JVal D)) (e : engine) :
  words fs = true → fs ≠ [] → field "t" fs = Some (JStr (lit "tick")) → field "bid" fs = None →
  respond (render [] fs) e = Some ([], e).
Proof.
  intros Hw Hne Ht Hb. destruct e as [[n st] strat]. unfold respond, kind_of.
  rewrite json_get_str_render, Ht by (done || apply not_elem_of_nil). cbn [decide].
  assert (Hp : (parse_tick (render [] fs) (tick0 (D := D))).1 = false).
  { unfold parse_tick. destruct (json_get_absent [] (not_elem_of_nil _) "bid" fs) as (_ & E & _); [done..|].
    rewrite E. by case_match. }
  destruct (parse_tick (render [] fs) tick0) as [ok t]. simpl in Hp. by rewrite Hp.
Qed.

Module BridgeWitness.
Import WholeDoubles.

#[local] Instance whole_arith : DoubleArith Z :=
  {| d_add := Z.add; d_sub := Z.sub; d_half := λ x, x / 2; d_ge := λ a b, b <=? a |}.

Definition tick (p : Z) : Tick Z := mkTick (lit "EURUSD") 1 p p p 5.

Definition ticks3 : list (Tick Z) := [tick 100; tick 120; tick 119].

Definition wire : list Z := concat (encode_tick <$> ticks3) ++ encode_bye.

(** The bytes in three runs with timeouts between them; the sends take few bytes each. *)

Definition script : list recv_event :=
  [Chunk (take 17 wire); WouldBlock; Chunk (take 200 (drop 17 wire)); WouldBlock; Chunk (drop 217 wire)].

Lemma script_ok : chunks_ok script ∧ stream script = wire.
Proof. split; [repeat constructor; discriminate|by vm_compute]. Qed.

Lemma ticks3_ok : Forall tick_ok ticks3.
Proof. by repeat constructor. Qed.

Lemma bridge_session_witness :
  ∃ st sock', (∃ strat', run_bridge (connection script [3; 0; 5]) (example_strategy 10 1) 9 = Some (st, strat', sock')) ∧
    ticks st = orders st + nops st.
Proof.
  destruct (bridge_session 9 (example_strategy 10 1) (connection script [3; 0; 5])) as (n & st & strat' & sock' & tk & outs & E & _ & _ & _ & _ & _ & Hs & _).
  - apply script_ok.
  - split; [done|by repeat constructor].
  - by vm_compute.
  - exists st, sock'. split; [by exists strat'|done].
Defined.

(** Two timeouts, a line that keeps the session alive, and three timeouts in a row. *)

Definition silence : list recv_event := [WouldBlock; WouldBlock; Chunk [97; 10]; WouldBlock; WouldBlock; WouldBlock; Chunk [98; 10]].

Lemma bridge_drops_silent_peer_witness :
  ∃ st strat' sock', run_bridge (connection silence []) (example_strategy 10 1) 3 = Some (st, strat', sock') ∧ arrivals sock' = [Line [98]].
Proof.
  destruct (bridge_drops_silent_peer 3 (example_strategy 10 1) (connection silence []) [Idle; Idle; Line [97]] [Line [98]])
    as (n & st & strat' & sock' & outs & E & _ & Ea & _); [by repeat constructor|by split|lia|vm_compute; reflexivity|reflexivity|].
  exists st, strat', sock'. split; [exact E|exact Ea].
Defined.

Lemma bridge_answers_ticks_witness :
  ∃ st strat' sock', run_bridge (connection script [3; 5]) (example_strategy 10 1) 9 = Some (st, strat', sock') ∧ ticks st = 3 ∧
    ∀ inc' fuel, chunks_ok inc' → stream inc' = sent_ sock' → (3 + timeouts inc' < fuel)%nat →
      ∃ replies, read_all fuel (connection inc' []) = Some replies ∧
        Forall2 answered (decisions 1 (example_strategy 10 1) ticks3) replies.
Proof.
  apply (bridge_answers_ticks ticks3 9 (example_strategy 10 1) script [3; 5]).
  - apply example_two_sided.
  - apply ticks3_ok.
  - by vm_compute.
  - apply script_ok.
  - by repeat constructor.
  - apply script_ok.
  - left. by vm_compute.
Defined.

End BridgeWitness.
