(* ===== verification/Publish.v ===== *)
(** Publishing a reconstructed book to a subscriber (include/mt5/server.hpp, publish_depth and
    publish_signal): the book, its metrics, the protocol and the line socket together. *)
From stdpp Require Import strings.
From S2P Require Export Bridge Metrics.

#[local] Open Scope list_scope.
#[local] Open Scope Z_scope.

Section Publish.
Context {D LD : Type} `{DoubleTextLaws D} `{FloatOps D LD}.
Context {F : Compare → Type} `{LevelStoreSpec F}.

Definition publish_depth (sock : LineSocket) (symbol : list Z) (book : BasicOrderBook F) (n : nat) :
    option (bool * LineSocket) :=
  bs ← bids book n;
  as_ ← asks book n;
  Some (send_line (encode_depth symbol bs as_) sock).

Definition publish_signal (sock : LineSocket) (symbol : list Z) (book : BasicOrderBook F) (n : nat) :
    option (bool * LineSocket) :=
  m ← compute_metrics (D := D) book n;
  Some (send_line (encode_signal symbol (Metrics.mid m) (microprice m) (imbalance_top m) (spread_bps m)) sock).

Lemma ladder_level_ok c m n : levels_ok m → Forall level_ok (take n (ladder c m)).
Proof.
  intros Hok. apply Forall_take, Forall_forall. intros [p q] Hin. apply ladder_elem in Hin.
  destruct (Hok _ _ Hin) as [Hp Hq]. unfold level_ok, price_ok, fits in *. simpl. lia.
Qed.

(** A message of one line that [send_line] took. *)

Definition published (sock sock' : LineSocket) (line : list Z) : Prop :=
  sent_ sock' = sent_ sock ++ line ++ [10] ∧ 10 ∉ line.

Lemma send_published msg line sock :
  sends_ok sock → one_line msg line →
  ∃ sock', send_line msg sock = (true, sock') ∧ published sock sock' line.
Proof.
  intros Ha [-> Hn]. destruct (send_line_all (line ++ [10]) sock Ha) as (Hok & Hsent & _).
  destruct (send_line (line ++ [10]) sock) as [ok sock']. simpl in *. subst ok. by exists sock'.
Qed.

(** A subscriber sees the reconstructed book: for every valid message stream, symbol and
    connection whose sends do not fail, publishing sends one line each, which the parsers of
    the protocol read back as exactly the first [n] bids and asks of the book, best first, and
    as the signals computed from it, printed and read back. *)
Theorem publish_reaches_subscriber ms (b : BasicOrderBook F) n symbol sock symbol0 bids0 asks0 (m0 p0 i0 b0 : D) :
  stream_ok ms → apply_all book0 ms = Some b → sends_ok sock →
  (∃ sock' line bs as_, publish_depth sock symbol b n = Some (true, sock') ∧ published sock sock' line ∧
     bids b n = Some bs ∧ asks b n = Some as_ ∧ kind_of line = Depth ∧
     parse_depth line symbol0 bids0 asks0 = (true, (symbol, bs, as_))) ∧
  (∃ sock' line m, publish_signal sock symbol b n = Some (true, sock') ∧ published sock sock' line ∧
     compute_metrics b n = Some m ∧ kind_of line = Signal ∧
     parse_signal line symbol0 m0 p0 i0 b0 =
       (true, (symbol, round10 (Metrics.mid m), round10 (microprice m), round10 (imbalance_top m), round10 (spread_bps m)))).
Proof.
  intros Hs Hb Ha. destruct (run_rep_inv ms b Hs Hb) as [Hr Hi]. set (a := ab_run ab0 ms) in *.
  destruct (query_rep b a Hr) as (_ & _ & _ & _ & _ & _ & E3 & E4).
  assert (Hob : levels_ok (ab_bids a)) by exact (ao_lvl a (ai_ok a Hi) true).
  assert (Hoa : levels_ok (ab_asks a)) by exact (ao_lvl a (ai_ok a Hi) false).
  split.
  - unfold publish_depth. rewrite E3, E4. cbn [mbind option_bind].
    destruct (depth_roundtrip (D := D) symbol _ _ symbol0 bids0 asks0 (ladder_level_ok Greater _ n Hob)
      (ladder_level_ok Less _ n Hoa)) as (line & Hl & Hk & Hp).
    destruct (send_published _ _ sock Ha Hl) as (sock' & -> & Hpub). by eauto 10.
  - destruct (metrics_cases (D := D) (LD := LD) ms b n Hs Hb) as (bb & ba & bs & as_ & _ & _ & _ & _ & _ & _ & _ & _ & _ & _ & Em).
    unfold publish_signal. rewrite Em. cbn [mbind option_bind]. set (m := match bb with Some _ => _ | None => _ end).
    destruct (signal_roundtrip symbol (Metrics.mid m) (microprice m) (imbalance_top m) (spread_bps m) symbol0 m0 p0 i0 b0)
      as (line & Hl & Hk & Hp).
    destruct (send_published _ _ sock Ha Hl) as (sock' & Hsend & Hpub). exists sock', line, m. by rewrite Hsend.
Qed.
End Publish.

Module PublishWitness.
Import WholeDoubles WholeFloats.

Lemma publish_reaches_subscriber_witness :
  ∃ (b : BasicOrderBook FlatLevels) sock' line bs as_, apply_all book0 session = Some b ∧
    publish_depth (connection [] [7]) (lit "AAPL") b 3 = Some (true, sock') ∧ bids b 3 = Some bs ∧ asks b 3 = Some as_ ∧
    parse_depth line [] [] [] = (true, (lit "AAPL", bs, as_)).
Proof.
  destruct (run_rep (F := FlatLevels) session book_session_ok) as (b & Hb & _).
  destruct (publish_reaches_subscriber (D := Z) (LD := Z) session b 3 (lit "AAPL") (connection [] [7]) [] [] [] 0 0 0 0
    book_session_ok Hb) as ((sock' & line & bs & as_ & H1 & _ & H2 & H3 & _ & H4) & _); [by repeat constructor|].
  exists b, sock', line, bs, as_. split; [exact Hb|]. split; [exact H1|]. split; [exact H2|]. split; [exact H3|exact H4].
Defined.

End PublishWitness.
