(* ===== verification/WebSocket.v ===== *)
(** The WebSocket layer (include/feed/websocket.hpp) over the line socket: the HTTP upgrade on
    both sides, text frames and the frame reader.  [accept_key] is in [Sha1]. *)
From stdpp Require Import strings.
From S2P Require Export Tcp Json Sha1.

#[local] Open Scope list_scope.
#[local] Open Scope Z_scope.

(** * Header lines *)

(** [if (!line.empty() && line.back() == '\r') line.pop_back();] *)

Definition pop_cr (line : list Z) : list Z :=
  match rev line with
  | c :: l => if c =? 13 then rev l else line
  | [] => line
  end.

(** [std::tolower] of the C locale. *)

Definition tolower (c : Z) : Z := if (65 <=? c) && (c <=? 90) then c + 32 else c.

(** [find_first_not_of] and [find_last_not_of] of blank and tab. *)

Fixpoint first_not_blank (v : list Z) : option nat :=
  match v with
  | [] => None
  | c :: v => if is_blank c then S <$> first_not_blank v else Some O
  end.

Definition last_not_blank (v : list Z) : option nat := (λ i, length v - 1 - i)%nat <$> first_not_blank (rev v).

(** The value of a header line named [h], given in lower case with its colon; [old] when the
    line is another one or has no value. *)

Definition header_value (h line old : list Z) : list Z :=
  if zlen h <=? zlen line then
    if decide (tolower <$> take (length h) line = h) then
      match find 58 line 0 with
      | Some i =>
          let v := drop (Z.to_nat (i + 1)) line in
          match first_not_blank v, last_not_blank v with
          | Some a, Some b => take (b - a + 1) (drop a v)
          | _, _ => old
          end
      | None => old
      end
    else old
  else old.

(** A line of HTTP. *)

Definition crlf (s : list Z) : list Z := s ++ [13; 10].

(** * The server's side *)

Fixpoint read_headers (fuel : nat) (sock : LineSocket) (key : list Z) : option (list Z) * LineSocket :=
  match fuel with
  | O => (None, sock)
  | S fuel =>
      match recv_line sock with
      | (None, sock) => (None, sock)
      | (Some line, sock) =>
          let line := pop_cr line in
          if decide (line = []) then (Some key, sock)
          else read_headers fuel sock (header_value (lit "sec-websocket-key:") line key)
      end
  end.

Definition response (accept : list Z) : list Z :=
  crlf (lit "HTTP/1.1 101 Switching Protocols") ++ crlf (lit "Upgrade: websocket") ++ crlf (lit "Connection: Upgrade")
    ++ lit "Sec-WebSocket-Accept: " ++ accept ++ [13; 10; 13; 10].

(** [None] is an access outside an array in the hash. *)

Definition handshake (sock : LineSocket) : option (bool * LineSocket) :=
  match read_headers (S (length (lines (content sock)))) sock [] with
  | (None, sock) => Some (false, sock)
  | (Some key, sock) =>
      if decide (key = []) then Some (false, sock)
      else accept ← accept_key key; Some (send_all (response accept) sock)
  end.

(** * Frames *)

(** Byte [i] of a length, counted from the end. *)

Definition len_byte (n i : Z) : Z := Z.land (Z.shiftr n (8 * i)) 255.

Definition frame_text (payload : list Z) : list Z :=
  let n := zlen payload in
  [129] ++ (if n <? 126 then [n]
            else if n <=? 65535 then [126; len_byte n 1; len_byte n 0]
            else [127; len_byte n 7; len_byte n 6; len_byte n 5; len_byte n 4; len_byte n 3; len_byte n 2;
                  len_byte n 1; len_byte n 0]) ++ payload.

Definition send_text (sock : LineSocket) (payload : list Z) : bool * LineSocket := send_all (frame_text payload) sock.

(** [len = (len << 8) | byte] over the bytes of an extended length, in 64 bits. *)

Definition be_len (e : list Z) : Z := foldl (λ len b, Z.lor (u64 (Z.shiftl len 8)) b) 0 e.

(** [payload[i] ^ mask[i & 3]] *)

Definition unmask (mask payload : list Z) : list Z :=
  imap (λ i c, Z.lxor c (default 0 (mask !! Z.to_nat (Z.land (Z.of_nat i) 3)))) payload.

(** The outcome of [read_frame]: a frame, [false], or the exception of a string longer than
    [max_size()].  The output arguments after [false] are not modelled. *)

Inductive frame_result : Set :=
  | Frame (payload : list Z) (opcode : Z)
  | NoFrame
  | LengthError.

Definition max_size : Z := 2 ^ 63 - 1.

Definition read_frame (sock : LineSocket) : frame_result * LineSocket :=
  match recv_exact 2 sock with
  | (Some [h0; h1], sock) =>
      let opcode := Z.land h0 15 in
      let masked := negb (Z.land h1 128 =? 0) in
      let len := Z.land h1 127 in
      match (if len =? 126 then
               let '(e, sock) := recv_exact 2 sock in (be_len <$> e, sock)
             else if len =? 127 then
               let '(e, sock) := recv_exact 8 sock in (be_len <$> e, sock)
             else (Some len, sock)) with
      | (None, sock) => (NoFrame, sock)
      | (Some len, sock) =>
          match (if masked then recv_exact 4 sock else (Some [0; 0; 0; 0], sock)) with
          | (None, sock) => (NoFrame, sock)
          | (Some mask, sock) =>
              if max_size <? len then (LengthError, sock)
              else
                match (if len =? 0 then (Some [], sock) else recv_exact len sock) with
                | (None, sock) => (NoFrame, sock)
                | (Some payload, sock) => (Frame (if masked then unmask mask payload else payload) opcode, sock)
                end
          end
      end
  | (_, sock) => (NoFrame, sock)
  end.

(** * The client's side *)

Definition kKey : list Z := lit "dGhlIHNhbXBsZSBub25jZQ==".

Definition request (path : list Z) : list Z :=
  lit "GET " ++ path ++ lit " HTTP/1.1" ++ [13; 10] ++ crlf (lit "Host: localhost") ++ crlf (lit "Upgrade: websocket")
    ++ crlf (lit "Connection: Upgrade") ++ lit "Sec-WebSocket-Key: " ++ kKey ++ [13; 10]
    ++ crlf (lit "Sec-WebSocket-Version: 13") ++ [13; 10].

Fixpoint read_response (fuel : nat) (sock : LineSocket) (ok : bool) (accept : list Z) :
    option (bool * list Z) * LineSocket :=
  match fuel with
  | O => (None, sock)
  | S fuel =>
      match recv_line sock with
      | (None, sock) => (None, sock)
      | (Some line, sock) =>
          let line := pop_cr line in
          if decide (line = []) then (Some (ok, accept), sock)
          else
            let ok := if decide (is_Some (find_str (lit "101") line 0)) then true else ok in
            read_response fuel sock ok (header_value (lit "sec-websocket-accept:") line accept)
      end
  end.

Definition client_open (sock : LineSocket) (path : list Z) : option (bool * LineSocket) :=
  let '(sent, sock) := send_all (request path) sock in
  if sent then
    match read_response (S (length (lines (content sock)))) sock false [] with
    | (None, sock) => Some (false, sock)
    | (Some (ok, accept), sock) =>
        expected ← accept_key kKey; Some (ok && bool_decide (accept = expected), sock)
    end
  else Some (false, sock).

(** * Frames on the wire

    A frame of RFC 6455 with first byte [b0], masked when a key is given. *)

Definition len_bytes (bit n : Z) : list Z :=
  if n <? 126 then [bit + n]
  else if n <=? 65535 then [bit + 126; len_byte n 1; len_byte n 0]
  else [bit + 127; len_byte n 7; len_byte n 6; len_byte n 5; len_byte n 4; len_byte n 3; len_byte n 2; len_byte n 1;
        len_byte n 0].

Definition wire_frame (b0 : Z) (mask : option (list Z)) (payload : list Z) : list Z :=
  match mask with
  | None => [b0] ++ len_bytes 0 (zlen payload) ++ payload
  | Some k => [b0] ++ len_bytes 128 (zlen payload) ++ k ++ unmask k payload
  end.

Lemma frame_text_wire p : frame_text p = wire_frame 129 None p.
Proof. unfold frame_text, wire_frame, len_bytes. repeat case_match; done. Qed.

Lemma len_byte_div n i : 0 ≤ i → len_byte n i = (n / 256 ^ i) `mod` 256.
Proof.
  intros Hi. unfold len_byte. change 255 with (Z.ones 8). rewrite Z.land_ones by lia.
  rewrite Z.shiftr_div_pow2 by lia. change 256 with (2 ^ 8) at 1. by rewrite <- Z.pow_mul_r by lia.
Qed.

(** One more byte of the length: the prefix read so far is the quotient. *)
Lemma be_step n i j :
  0 ≤ i ≤ 7 → j = i + 1 → 0 ≤ n < 2 ^ 64 →
  Z.lor (u64 (Z.shiftl (n / 256 ^ j) 8)) (len_byte n i) = n / 256 ^ i.
Proof.
  intros Hi -> Hn. rewrite len_byte_div by lia.
  assert (Hp : 0 < 256 ^ i) by (apply Z.pow_pos_nonneg; lia).
  assert (E : n / 256 ^ (i + 1) = n / 256 ^ i / 256).
  { rewrite Z.div_div by lia. by rewrite Z.pow_add_r by lia. }
  pose proof (Z.div_pos n (256 ^ i) ltac:(lia) Hp) as Hq.
  assert (Hle : n / 256 ^ i ≤ n) by (apply Z.div_le_upper_bound; nia).
  pose proof (Z.mod_pos_bound (n / 256 ^ i) 256 ltac:(lia)) as Hm.
  pose proof (Z.div_mod (n / 256 ^ i) 256 ltac:(lia)) as Hd.
  rewrite E. set (q := n / 256 ^ i) in *. rewrite Z.shiftl_mul_pow2 by lia. change (2 ^ 8) with 256.
  rewrite u64_small by lia. change 256 with (2 ^ 8) at 2. rewrite <- Z.shiftl_mul_pow2 by lia.
  rewrite lor_shift8; [lia|apply Z.div_pos; lia|unfold byte_ok; lia].
Qed.

Lemma be_len_two n : 0 ≤ n ≤ 65535 → be_len [len_byte n 1; len_byte n 0] = n.
Proof.
  intros Hn. unfold be_len. cbn [foldl]. pose proof (be_step n 1 2 ltac:(lia) ltac:(lia) ltac:(lia)) as E1.
  replace (n / 256 ^ 2) with 0 in E1 by (symmetry; apply Z.div_small; simpl; lia).
  rewrite E1, (be_step n 0 1) by lia. by rewrite Z.pow_0_r, Z.div_1_r.
Qed.

Lemma be_len_eight n :
  0 ≤ n < 2 ^ 64 →
  be_len [len_byte n 7; len_byte n 6; len_byte n 5; len_byte n 4; len_byte n 3; len_byte n 2; len_byte n 1; len_byte n 0] = n.
Proof.
  intros Hn. unfold be_len. cbn [foldl].
  pose proof (be_step n 7 8 ltac:(lia) ltac:(lia) Hn) as E7.
  replace (n / 256 ^ 8) with 0 in E7 by (symmetry; apply Z.div_small; simpl; lia). rewrite E7.
  rewrite (be_step n 6 7), (be_step n 5 6), (be_step n 4 5), (be_step n 3 4), (be_step n 2 3), (be_step n 1 2), (be_step n 0 1) by lia.
  by rewrite Z.pow_0_r, Z.div_1_r.
Qed.

(** The second header byte: mask bit and length. *)
Lemma header_byte n :
  0 ≤ n < 128 →
  (Z.land (0 + n) 128 =? 0) = true ∧ Z.land (0 + n) 127 = n ∧ (Z.land (128 + n) 128 =? 0) = false ∧ Z.land (128 + n) 127 = n.
Proof.
  intros Hn.
  assert (Hall : forallb (λ k, let n := Z.of_nat k in
    (Z.land (0 + n) 128 =? 0) && (Z.land (0 + n) 127 =? n) && negb (Z.land (128 + n) 128 =? 0) && (Z.land (128 + n) 127 =? n))
    (seq 0 128) = true) by (vm_compute; reflexivity).
  rewrite forallb_forall in Hall. specialize (Hall (Z.to_nat n)). rewrite Z2Nat.id in Hall by lia.
  destruct (proj1 (andb_true_iff _ _) (Hall ltac:(apply in_seq; lia))) as [[[H1 H2]%andb_prop H3]%andb_prop H4].
  apply negb_true_iff in H3. lia.
Qed.

Lemma unmask_involutive k p : unmask k (unmask k p) = p.
Proof.
  apply list_eq. intros i. unfold unmask. rewrite !list_lookup_imap. destruct (p !! i); simpl; [|done].
  by rewrite Z.lxor_assoc, Z.lxor_nilpotent, Z.lxor_0_r.
Qed.

Lemma zlen_unmask k p : zlen (unmask k p) = zlen p.
Proof. unfold zlen, unmask. by rewrite length_imap. Qed.

(** * Reading frames *)

Lemma recv_exact_app n a rest sock :
  steady sock → content sock = a ++ rest → zlen a = n →
  ∃ sock', recv_exact n sock = (Some a, sock') ∧ content sock' = rest ∧ steady sock' ∧ same_output sock sock'.
Proof.
  intros Hs Ec <-. pose proof (zlen_nonneg a). pose proof (zlen_nonneg rest).
  destruct (recv_exact_spec (zlen a) sock Hs) as (sock' & E1 & E2 & H1 & H2); [rewrite Ec, zlen_app; lia|].
  exists sock'. rewrite E1, E2, Ec. unfold zlen. by rewrite Nat2Z.id, take_app_length, drop_app_length.
Qed.

(** The header of a frame, up to its length. *)
Lemma read_length bit n h1 ext tail sock rest :
  bit = 0 ∨ bit = 128 → 0 ≤ n < 2 ^ 63 → len_bytes bit n = h1 :: ext → steady sock → content sock = ext ++ tail ++ rest →
  negb (Z.land h1 128 =? 0) = (bit =? 128) ∧
  ∃ sock', (let len := Z.land h1 127 in
            if len =? 126 then let '(e, sock) := recv_exact 2 sock in (be_len <$> e, sock)
            else if len =? 127 then let '(e, sock) := recv_exact 8 sock in (be_len <$> e, sock)
            else (Some len, sock)) = (Some n, sock')
    ∧ content sock' = tail ++ rest ∧ steady sock' ∧ same_output sock sock'.
Proof.
  intros Hbit Hn El Hs Ec. unfold len_bytes in El.
  assert (Hh : ∀ k, 0 ≤ k < 128 → negb (Z.land (bit + k) 128 =? 0) = (bit =? 128) ∧ Z.land (bit + k) 127 = k).
  { intros k Hk. destruct (header_byte k Hk) as (H1 & H2 & H3 & H4). destruct Hbit as [->| ->]; [by rewrite H1, H2|by rewrite H3, H4]. }
  destruct (Z.ltb_spec n 126); [|destruct (Z.leb_spec n 65535)]; injection El as <- <-.
  - destruct (Hh n ltac:(lia)) as [-> ->]. split; [done|]. cbv zeta. replace (n =? 126) with false by lia.
    replace (n =? 127) with false by lia. by exists sock.
  - destruct (Hh 126 ltac:(lia)) as [-> ->]. split; [done|]. cbv zeta. cbn [Z.eqb Pos.eqb].
    destruct (recv_exact_app 2 _ _ sock Hs Ec eq_refl) as (sock' & -> & H1). exists sock'. cbn [fmap option_fmap option_map]. by rewrite be_len_two by lia.
  - destruct (Hh 127 ltac:(lia)) as [-> ->]. split; [done|]. cbv zeta. cbn [Z.eqb Pos.eqb].
    destruct (recv_exact_app 8 _ _ sock Hs Ec eq_refl) as (sock' & -> & H1). exists sock'. cbn [fmap option_fmap option_map].
    rewrite be_len_eight by lia. done.
Qed.

Lemma read_frame_wire b0 mask payload rest sock :
  steady sock → zlen payload < 2 ^ 63 → (∀ k, mask = Some k → zlen k = 4) →
  content sock = wire_frame b0 mask payload ++ rest →
  ∃ sock', read_frame sock = (Frame payload (Z.land b0 15), sock') ∧ content sock' = rest ∧ steady sock' ∧ same_output sock sock'.
Proof.
  intros Hs Hp Hk Ec. pose proof (zlen_nonneg payload) as Hp0.
  set (bit := match mask with None => 0 | Some _ => 128 end).
  set (tail := match mask with None => payload | Some k => k ++ unmask k payload end).
  assert (Ew : wire_frame b0 mask payload = b0 :: len_bytes bit (zlen payload) ++ tail) by (by destruct mask).
  assert (Hne : ∃ h1 ext, len_bytes bit (zlen payload) = h1 :: ext) by (unfold len_bytes; repeat case_match; eauto).
  destruct Hne as (h1 & ext & El). rewrite Ew, El in Ec. change ((b0 :: (h1 :: ext) ++ tail) ++ rest) with ([b0; h1] ++ (ext ++ tail) ++ rest) in Ec.
  unfold read_frame. destruct (recv_exact_app 2 _ _ sock Hs Ec eq_refl) as (s1 & -> & Ec1 & Hs1 & Ho1).
  rewrite <- app_assoc in Ec1.
  destruct (read_length bit (zlen payload) h1 ext tail s1 rest) as [-> (s2 & E2 & Ec2 & Hs2 & Ho2)];
    [destruct mask; auto|lia|done|done|done|]. cbv zeta in E2 |- *. rewrite E2. clear E2.
  assert (Hmax : (max_size <? zlen payload) = false) by (unfold max_size; lia).
  assert (Hbody : ∀ s p, steady s → content s = p ++ rest → zlen p = zlen payload →
    ∃ s', (if zlen payload =? 0 then (Some [], s) else recv_exact (zlen payload) s) = (Some p, s')
      ∧ content s' = rest ∧ steady s' ∧ same_output s s').
  { intros s p Hss Ecs Hzl. destruct (Z.eqb_spec (zlen payload) 0) as [E0|_].
    - exists s. rewrite E0 in Hzl. apply zlen_nil_inv in Hzl as ->. by rewrite Ecs.
    - by apply recv_exact_app. }
  destruct mask as [k|]; subst bit tail.
  - change (128 =? 128) with true. cbv iota. rewrite <- app_assoc in Ec2.
    destruct (recv_exact_app 4 _ _ s2 Hs2 Ec2 (Hk k eq_refl)) as (s3 & -> & Ec3 & Hs3 & Ho3). rewrite Hmax.
    destruct (Hbody s3 _ Hs3 Ec3 (zlen_unmask k payload)) as (s4 & -> & Ec4 & Hs4 & Ho4). exists s4.
    rewrite unmask_involutive. eauto 10 using same_output_trans.
  - change (0 =? 128) with false. cbv iota. rewrite Hmax.
    destruct (Hbody s2 _ Hs2 Ec2 eq_refl) as (s4 & -> & Ec4 & Hs4 & Ho4). exists s4. eauto 10 using same_output_trans.
Qed.

Fixpoint read_frames (k : nat) (sock : LineSocket) : list frame_result * LineSocket :=
  match k with
  | O => ([], sock)
  | S k => let '(f, sock) := read_frame sock in let '(fs, sock) := read_frames k sock in (f :: fs, sock)
  end.

(** First byte, mask and payload of a frame. *)

Definition wframe : Type := Z * option (list Z) * list Z.

Definition wframe_ok (f : wframe) : Prop :=
  zlen f.2 < 2 ^ 63 ∧ match f.1.2 with Some k => zlen k = 4 | None => True end.

Definition wframe_bytes (f : wframe) : list Z := wire_frame f.1.1 f.1.2 f.2.

Lemma read_frames_wire (fs : list wframe) sock rest :
  steady sock → Forall wframe_ok fs → content sock = concat (wframe_bytes <$> fs) ++ rest →
  ∃ sock', read_frames (length fs) sock = ((λ f : wframe, Frame f.2 (Z.land f.1.1 15)) <$> fs, sock') ∧ content sock' = rest.
Proof.
  intros Hs Hf. revert sock Hs. induction Hf as [|[[b0 k] p] fs [Hp Hk] _ IH]; intros sock Hs Ec; [by exists sock|].
  cbn [length read_frames]. rewrite fmap_cons in Ec. cbn [concat] in Ec. rewrite <- app_assoc in Ec.
  destruct (read_frame_wire b0 k p (concat (wframe_bytes <$> fs) ++ rest) sock Hs Hp) as (s1 & -> & Ec1 & Hs1 & _); [by intros ? ->|done|].
  destruct (IH s1 Hs1 Ec1) as (s2 & -> & Ec2). exists s2. by split.
Qed.

(** C40: The frame reader inverts the framing of RFC 6455: for every sequence of frames, masked
    with any key or not, of any opcode and any payload length, arriving in any pieces, reading
    as many frames returns exactly the payloads and opcodes, and leaves the bytes behind them;
    and what [send_text] hands over is the unmasked text frame of its payload. *)
Theorem ws_frames_roundtrip (fs : list wframe) sock rest payload out :
  steady sock → Forall wframe_ok fs → content sock = concat (wframe_bytes <$> fs) ++ rest →
  sends_ok out →
  (∃ sock', read_frames (length fs) sock = ((λ f : wframe, Frame f.2 (Z.land f.1.1 15)) <$> fs, sock') ∧ content sock' = rest) ∧
  (send_text out payload).1 = true ∧ sent_ (send_text out payload).2 = sent_ out ++ wframe_bytes (129, None, payload).
Proof.
  intros Hs Hf Ec Ha. split; [by apply read_frames_wire|]. unfold send_text. change send_all with send_line.
  destruct (send_line_all (frame_text payload) out Ha) as (-> & -> & _). by rewrite frame_text_wire.
Qed.

Lemma ws_frames_roundtrip_witness :
  ∃ sock', read_frames 2 (connection [Chunk [129; 2; 104]; Chunk [105; 129; 130; 1; 2]; Chunk [3; 4; 105; 107; 7]] [])
    = ([Frame [104; 105] 1; Frame [104; 105] 1], sock') ∧ content sock' = [7].
Proof.
  apply (proj1 (ws_frames_roundtrip [(129, None, [104; 105]); (129, Some [1; 2; 3; 4], [104; 105])]
    (connection [Chunk [129; 2; 104]; Chunk [105; 129; 130; 1; 2]; Chunk [3; 4; 105; 107; 7]] []) [7] [] (connection [] [])
    ltac:(split; [by repeat constructor|done]) ltac:(by repeat constructor) eq_refl ltac:(split; [done|constructor]))).
Defined.

(** * The upgrade *)

Lemma recv_line_next s l ls :
  steady s → lines (content s) = l :: ls →
  ∃ s', recv_line s = (Some l, s') ∧ lines (content s') = ls ∧ steady s' ∧ same_output s s'.
Proof.
  intros [Hc Ht] El. pose proof (recv_line_spec s Hc) as (Hc' & Ho & Hs). destruct (recv_line s) as [[l'|] s']; simpl in *.
  - destruct Hs as [E Et]. rewrite El in E. injection E as -> ->. exists s'. split; [done|]. split; [done|]. split; [|done]. split; [done|congruence].
  - destruct Hs as [E Hto]. destruct (timed_out s'); [congruence|]. destruct Hto as [E0 _]. by rewrite E0 in El.
Qed.

Definition is_blank_line (l : list Z) : Prop := pop_cr l = [].

Lemma read_headers_spec hs blank more s key fuel :
  steady s → lines (content s) = hs ++ blank :: more → Forall (λ h, ¬ is_blank_line h) hs → is_blank_line blank →
  (length hs < fuel)%nat →
  ∃ s', read_headers fuel s key = (Some (foldl (λ k h, header_value (lit "sec-websocket-key:") (pop_cr h) k) key hs), s')
    ∧ lines (content s') = more ∧ steady s' ∧ same_output s s'.
Proof.
  intros Hs El Hf Hb. revert s key fuel Hs El. induction Hf as [|h hs Hh _ IH]; intros s key fuel Hs El Hfuel;
    destruct fuel as [|fuel]; try (simpl in Hfuel; lia); cbn [read_headers].
  - destruct (recv_line_next s _ _ Hs El) as (s' & -> & El' & Hs' & Ho). rewrite decide_True by done. by exists s'.
  - destruct (recv_line_next s _ _ Hs El) as (s1 & -> & El1 & Hs1 & Ho1). rewrite decide_False by done.
    destruct (IH s1 (header_value (lit "sec-websocket-key:") (pop_cr h) key) fuel Hs1 El1) as (s2 & -> & El2 & Hs2 & Ho2); [simpl in Hfuel; lia|].
    exists s2. eauto using same_output_trans.
Qed.

(** The key is a part of one line, so it is no longer than the longest. *)
Lemma header_value_zlen h line old B : zlen line ≤ B → zlen old ≤ B → zlen (header_value h line old) ≤ B.
Proof.
  intros Hl Ho. unfold header_value. repeat case_match; try done. unfold zlen in *. rewrite length_take, !length_drop. lia.
Qed.

Lemma read_headers_key fuel s key B :
  chunks_ok (incoming s) → Forall (λ l, zlen l ≤ B) (lines (content s)) → zlen key ≤ B →
  match (read_headers fuel s key).1 with Some k => zlen k ≤ B | None => True end.
Proof.
  revert s key. induction fuel as [|fuel IH]; intros s key Hc Hl Hk; [done|]. cbn [read_headers].
  pose proof (recv_line_spec s Hc) as (Hc' & _ & Hs). destruct (recv_line s) as [[l|] s']; simpl in *; [|done].
  destruct Hs as [E _]. rewrite E in Hl. apply Forall_cons in Hl as [Hl Hls].
  destruct (decide (pop_cr l = [])); [done|]. apply IH; [done|done|]. apply header_value_zlen; [|done].
  trans (zlen l); [|done]. unfold pop_cr, zlen. destruct (rev l) as [|c r] eqn:Er; [done|]. destruct (c =? 13); [|done].
  rewrite length_rev, <- (length_rev l), Er. simpl. lia.
Qed.

(** Reading headers sends nothing. *)
Lemma read_headers_output fuel s key : chunks_ok (incoming s) → same_output s (read_headers fuel s key).2.
Proof.
  revert s key. induction fuel as [|fuel IH]; intros s key Hc; [done|]. cbn [read_headers].
  pose proof (recv_line_spec s Hc) as (Hc' & Ho & _). destruct (recv_line s) as [[l|] s']; simpl in *; [|done].
  destruct (decide (pop_cr l = [])); [done|]. eapply same_output_trans; [exact Ho|]. by apply IH.
Qed.

Lemma handshake_unbroken s r : chunks_ok (incoming s) → unbroken s → handshake s = Some r → unbroken r.2.
Proof.
  intros Hc Hu E. unfold handshake in E. pose proof (read_headers_output (S (length (lines (content s)))) s [] Hc) as Ho.
  apply (unbroken_same _ _ Ho) in Hu. destruct (read_headers _ s []) as [[key|] s1]; simpl in *; [|by simplify_eq].
  destruct (decide (key = [])); [by simplify_eq|]. destruct (accept_key key) as [accept|]; [|done]. cbn [mbind option_bind] in E.
  injection E as <-. destruct (send_spec (response accept) s1) as (k & _ & _ & _ & _ & H). by apply H.
Qed.

(** The server's side of the upgrade is defined whatever the peer sends. *)
Lemma handshake_total s :
  chunks_ok (incoming s) → Forall (λ l, zlen l ≤ 2 ^ 58) (lines (content s)) → is_Some (handshake s).
Proof.
  intros Hc Hl. unfold handshake. pose proof (read_headers_key (S (length (lines (content s)))) s [] (2 ^ 58) Hc Hl) as Hk.
  destruct (read_headers _ s []) as [[key|] s1]; [|by eexists]. simpl in Hk. destruct (decide (key = [])); [by eexists|].
  destruct (accept_key_total key) as [accept ->]; [specialize (Hk ltac:(done)); lia|]. by eexists.
Qed.

(** The key of a request: the value of its last key header. *)

Definition request_key (hs : list (list Z)) : list Z :=
  foldl (λ k h, header_value (lit "sec-websocket-key:") (pop_cr h) k) [] hs.

Lemma handshake_spec hs blank more s :
  steady s → lines (content s) = hs ++ blank :: more → Forall (λ h, ¬ is_blank_line h) hs → is_blank_line blank →
  sends_ok s → zlen (request_key hs) < 2 ^ 59 →
  ∃ s', (lines (content s') = more ∧ sends_ok s') ∧
    if decide (request_key hs = []) then handshake s = Some (false, s') ∧ sent_ s' = sent_ s
    else ∃ accept, accept_key (request_key hs) = Some accept ∧ handshake s = Some (true, s') ∧ sent_ s' = sent_ s ++ response accept.
Proof.
  intros Hs El Hf Hb Ha Hz. unfold handshake.
  destruct (read_headers_spec hs blank more s [] (S (length (lines (content s)))) Hs El Hf Hb) as (s1 & -> & El1 & Hs1 & Ho1).
  { rewrite El, length_app. lia. }
  pose proof Ho1 as (_ & Eo2 & _).
  change (foldl _ [] hs) with (request_key hs). destruct (decide (request_key hs = [])) as [E|E].
  - exists s1. split; [split; [done|by eapply sends_ok_same]|done].
  - destruct (accept_key_total (request_key hs) Hz) as [accept Eacc]. rewrite Eacc. cbn [mbind option_bind].
    apply (sends_ok_same _ _ Ho1) in Ha. change send_all with send_line. destruct (send_line_all (response accept) s1 Ha) as (Hok & Hsent & Hi & Hbuf & _ & Hacc).
    destruct (send_line (response accept) s1) as [ok s2]. simpl in *. subst ok. exists s2.
    split; [split; [unfold content; by rewrite Hi, Hbuf|done]|]. exists accept. by rewrite Hsent, Eo2.
Qed.

Lemma first_not_blank_app b c r :
  Forall (λ x, is_blank x = true) b → is_blank c = false → first_not_blank (b ++ c :: r) = Some (length b).
Proof.
  intros Hb Hc. induction Hb as [|x b Hx _ IH]; simpl; [by rewrite Hc|]. by rewrite Hx, IH.
Qed.

Lemma last_not_blank_app b c r :
  Forall (λ x, is_blank x = true) b → is_blank c = false → last_not_blank (r ++ c :: b) = Some (length r).
Proof.
  intros Hb Hc. unfold last_not_blank. rewrite rev_app_distr. cbn [rev]. rewrite <- app_assoc. cbn [app].
  rewrite first_not_blank_app; [|by apply Forall_rev|done]. cbn [fmap option_fmap option_map]. f_equal.
  rewrite length_app, length_rev. simpl. lia.
Qed.

(** A header value: the text between its outermost characters that are no blanks. *)

Definition solid (v : list Z) : Prop :=
  ∃ c d, head v = Some c ∧ last v = Some d ∧ is_blank c = false ∧ is_blank d = false.

Lemma header_value_match name b1 v b2 old :
  58 ∉ name → Forall (λ x, is_blank x = true) b1 → Forall (λ x, is_blank x = true) b2 → solid v →
  header_value ((tolower <$> name) ++ [58]) (name ++ [58] ++ b1 ++ v ++ b2) old = v.
Proof.
  intros Hn Hb1 Hb2 (c & d & Hc & Hd & Hcb & Hdb). unfold header_value.
  assert (Hlen : length ((tolower <$> name) ++ [58]) = length (name ++ [58])) by (rewrite !length_app, length_fmap; done).
  destruct (Z.leb_spec (zlen ((tolower <$> name) ++ [58])) (zlen (name ++ [58] ++ b1 ++ v ++ b2))) as [_|Hlt].
  2: { rewrite app_assoc, zlen_app in Hlt. unfold zlen in Hlt. rewrite Hlen in Hlt. lia. }
  rewrite Hlen, (app_assoc name), take_app_length, fmap_app. rewrite decide_True by done.
  unfold find. rewrite <- (app_assoc name). cbn [app]. simpl drop at 1. rewrite drop_0, index_of_app by done.
  cbn [mbind option_bind]. rewrite Z.add_0_l.
  replace (drop (Z.to_nat (zlen name + 1)) (name ++ 58 :: b1 ++ v ++ b2)) with (b1 ++ v ++ b2).
  2: { replace (Z.to_nat (zlen name + 1)) with (length (name ++ [58])) by (rewrite length_app; unfold zlen; simpl; lia).
       change (58 :: b1 ++ v ++ b2) with ([58] ++ b1 ++ v ++ b2). by rewrite (app_assoc name), drop_app_length. }
  destruct v as [|c' v']; [done|]. injection Hc as ->.
  cbn [app]. rewrite first_not_blank_app by done.
  destruct (last_Some (c :: v') d) as [[r Er] _]; [done|]. rewrite app_comm_cons, Er.
  rewrite <- (app_assoc r [d] b2). cbn [app]. rewrite (app_assoc b1), last_not_blank_app by done.
  rewrite <- (app_assoc b1), drop_app_length, length_app.
  replace (length b1 + length r - length b1 + 1)%nat with (length (r ++ [d])) by (rewrite length_app; simpl; lia).
  change (d :: b2) with ([d] ++ b2). by rewrite app_assoc, take_app_length.
Qed.

Definition key_header (h : list Z) : Prop :=
  tolower <$> take 18 (pop_cr h) = lit "sec-websocket-key:".

Lemma header_value_other h old : ¬ key_header h → header_value (lit "sec-websocket-key:") (pop_cr h) old = old.
Proof. intros Hk. unfold header_value. case_match; [|done]. by rewrite decide_False. Qed.

Lemma request_key_other hs key :
  Forall (λ h, ¬ key_header h) hs →
  foldl (λ k h, header_value (lit "sec-websocket-key:") (pop_cr h) k) key hs = key.
Proof. intros Hf. induction Hf as [|h hs Hh _ IH] in key |- *; [done|]. cbn [foldl]. by rewrite header_value_other, IH. Qed.

Lemma pop_cr_snoc l : pop_cr (l ++ [13]) = l.
Proof. unfold pop_cr. rewrite rev_app_distr. simpl. by rewrite rev_involutive. Qed.

(** A request that carries the key [v]: a key header, its name in any case and its value between
    blanks, no key header behind it, and no blank line among the headers. *)

Definition carries_key (hs : list (list Z)) (v : list Z) : Prop :=
  ∃ pre name b1 b2 post,
    hs = pre ++ (name ++ [58] ++ b1 ++ v ++ b2 ++ [13]) :: post ∧ tolower <$> name = lit "sec-websocket-key" ∧
    Forall (λ x, is_blank x = true) b1 ∧ Forall (λ x, is_blank x = true) b2 ∧ solid v ∧
    Forall (λ h, ¬ key_header h) post ∧ Forall (λ h, ¬ is_blank_line h) hs.

Lemma carries_key_value hs v : carries_key hs v → request_key hs = v ∧ v ≠ [] ∧ Forall (λ h, ¬ is_blank_line h) hs.
Proof.
  intros (pre & name & b1 & b2 & post & Ehs & Hname & Hb1 & Hb2 & Hv & Hpost & Hnb). split_and!; [|by intros ->; destruct Hv as (? & ? & ? & _)|done].
  assert (Hcol : 58 ∉ name).
  { intros Hin. apply (list_elem_of_fmap_2 tolower) in Hin. rewrite Hname in Hin. revert Hin. apply (bool_decide_unpack _). vm_compute. exact I. }
  unfold request_key. rewrite Ehs, foldl_app. cbn [foldl]. rewrite request_key_other by done.
  replace (name ++ [58] ++ b1 ++ v ++ b2 ++ [13]) with ((name ++ [58] ++ b1 ++ v ++ b2) ++ [13]) by (by rewrite <- !app_assoc).
  rewrite pop_cr_snoc. change (lit "sec-websocket-key:") with (lit "sec-websocket-key" ++ [58]).
  rewrite <- Hname. by apply header_value_match.
Qed.

(** An upgrade with a key is answered with the accept key of its value, however it is cut into
    pieces. *)
Lemma handshake_upgrades s hs v blank more :
  steady s → sends_ok s → carries_key hs v → zlen v < 2 ^ 59 → is_blank_line blank → lines (content s) = hs ++ blank :: more →
  ∃ accept s', accept_key v = Some accept ∧ handshake s = Some (true, s') ∧ sent_ s' = sent_ s ++ response accept ∧ sends_ok s'.
Proof.
  intros Hs Ha Hk Hz Hb El. destruct (carries_key_value hs v Hk) as (Ek & Hne & Hnb).
  destruct (handshake_spec hs blank more s) as (s' & [_ Ha'] & Hh); [done..|by rewrite Ek|].
  rewrite Ek, decide_False in Hh by done. destruct Hh as (accept & H1 & H2 & H3). by exists accept, s'.
Qed.

(** The server accepts exactly the upgrades that carry a key, however the request is cut
    into pieces: the reply to a request that carries one is the 101 response with the accept key
    of its value; a request without a key header is refused and nothing is sent. *)
Theorem ws_handshake_key s v hs blank more :
  steady s → sends_ok s → is_blank_line blank → lines (content s) = hs ++ blank :: more →
  (carries_key hs v → zlen v < 2 ^ 59 →
   ∃ accept s', accept_key v = Some accept ∧ handshake s = Some (true, s') ∧ sent_ s' = sent_ s ++ response accept) ∧
  (Forall (λ h, ¬ is_blank_line h) hs → Forall (λ h, ¬ key_header h) hs → ∃ s', handshake s = Some (false, s') ∧ sent_ s' = sent_ s).
Proof.
  intros Hs Ha Hb El. split.
  - intros Hk Hz. destruct (handshake_upgrades s hs v blank more) as (accept & s' & H1 & H2 & H3 & _); [done..|]. by exists accept, s'.
  - intros Hnb Hnone. destruct (handshake_spec hs blank more s) as (s' & _ & Hh); [done..| |].
    + unfold request_key. by rewrite request_key_other.
    + unfold request_key in Hh. rewrite request_key_other in Hh by done. rewrite decide_True in Hh by done. by exists s'.
Qed.

(** ** Both ends together *)

Definition response_step (acc : bool * list Z) (h : list Z) : bool * list Z :=
  ((if decide (is_Some (find_str (lit "101") (pop_cr h) 0)) then true else acc.1),
   header_value (lit "sec-websocket-accept:") (pop_cr h) acc.2).

Lemma read_response_spec hs blank more s ok accept fuel :
  steady s → lines (content s) = hs ++ blank :: more → Forall (λ h, ¬ is_blank_line h) hs → is_blank_line blank →
  (length hs < fuel)%nat →
  ∃ s', read_response fuel s ok accept = (Some (foldl response_step (ok, accept) hs), s') ∧ same_output s s'.
Proof.
  intros Hs El Hf Hb. revert s ok accept fuel Hs El. induction Hf as [|h hs Hh _ IH]; intros s ok accept fuel Hs El Hfuel;
    destruct fuel as [|fuel]; try (simpl in Hfuel; lia); cbn [read_response].
  - destruct (recv_line_next s _ _ Hs El) as (s' & -> & _ & _ & Ho). rewrite decide_True by done. by exists s'.
  - destruct (recv_line_next s _ _ Hs El) as (s1 & -> & El1 & Hs1 & Ho1). rewrite (decide_False (P := pop_cr h = [])) by done.
    edestruct (IH s1) as (s2 & E2 & Ho2); [done|done| |exists s2; rewrite E2; split; [reflexivity|by eapply same_output_trans]].
    simpl in Hfuel. lia.
Qed.

Definition sample_accept : list Z := lit "s3pPLMBiTxaQ9kYGzzhZRbK+xOo=".

Lemma sample_accept_ok : accept_key kKey = Some sample_accept.
Proof. vm_compute. reflexivity. Qed.

Definition request_lines (path : list Z) : list (list Z) :=
  [lit "GET " ++ path ++ lit " HTTP/1.1" ++ [13]; lit "Host: localhost" ++ [13]; lit "Upgrade: websocket" ++ [13];
   lit "Connection: Upgrade" ++ [13]; lit "Sec-WebSocket-Key: " ++ kKey ++ [13]; lit "Sec-WebSocket-Version: 13" ++ [13]].

Definition response_lines : list (list Z) :=
  [lit "HTTP/1.1 101 Switching Protocols" ++ [13]; lit "Upgrade: websocket" ++ [13]; lit "Connection: Upgrade" ++ [13];
   lit "Sec-WebSocket-Accept: " ++ sample_accept ++ [13]].

Lemma lines_of ls : Forall (λ l, 10 ∉ l) ls → lines (concat ((λ l, l ++ [10]) <$> ls)) = ls.
Proof.
  intros Hf. apply lines_concat. induction Hf as [|l ls Hl _ IH]; [constructor|]. rewrite fmap_cons. by constructor.
Qed.

Lemma request_lines_eq path : 10 ∉ path → lines (request path) = request_lines path ++ [[13]].
Proof.
  intros Hp. replace (request path) with (concat ((λ l, l ++ [10]) <$> (request_lines path ++ [[13]]))).
  - apply lines_of. repeat (constructor; [|try apply Forall_nil]); set_solver.
  - unfold request, request_lines, crlf. cbn [fmap list_fmap app concat]. by rewrite <- !app_assoc.
Qed.

Lemma response_lines_eq : lines (response sample_accept) = response_lines ++ [[13]].
Proof. vm_compute. reflexivity. Qed.

Lemma get_line_plain path : ¬ is_blank_line (lit "GET " ++ path ++ lit " HTTP/1.1" ++ [13])
  ∧ ¬ key_header (lit "GET " ++ path ++ lit " HTTP/1.1" ++ [13]).
Proof.
  unfold is_blank_line, key_header.
  replace (lit "GET " ++ path ++ lit " HTTP/1.1" ++ [13]) with ((lit "GET " ++ path ++ lit " HTTP/1.1") ++ [13]) by (by rewrite <- !app_assoc).
  rewrite pop_cr_snoc. split; [done|]. intros E. apply (f_equal (λ l, l !! 0%nat)) in E. vm_compute in E. discriminate.
Qed.

Lemma request_carries_key path : carries_key (request_lines path) kKey.
Proof.
  exists (take 4 (request_lines path)), (lit "Sec-WebSocket-Key"), [32], [], (drop 5 (request_lines path)).
  split_and!; try done.
  - by repeat constructor.
  - exists 100, 61. by repeat split.
  - repeat constructor. intros E. vm_compute in E. discriminate.
  - constructor; [apply get_line_plain|]. repeat constructor; intros E; vm_compute in E; discriminate.
Qed.

Lemma upgrade_server path inc ks :
  10 ∉ path → chunks_ok inc → timeouts inc = 0%nat → Forall (λ n, 0 < n) ks → stream inc = request path →
  ∃ s', handshake (connection inc ks) = Some (true, s') ∧ sent_ s' = response sample_accept ∧ sends_ok s'.
Proof.
  intros Hpath Hc Ht Hk Es.
  destruct (handshake_upgrades (connection inc ks) (request_lines path) kKey [13] []) as (accept & s' & Ea & Eh & Esent & Ha).
  - by split.
  - by split.
  - apply request_carries_key.
  - vm_compute. reflexivity.
  - done.
  - unfold content. simpl. rewrite Es. by apply request_lines_eq.
  - rewrite sample_accept_ok in Ea. injection Ea as <-. by exists s'.
Qed.

(** The upgrade works between the two ends: for every path of one line and any chunking of
    both directions, the server that receives the client's request sends a response and
    reports success, and the client that receives this response accepts it. *)
Theorem ws_upgrade_end_to_end path inc_s ks_s inc_c ks_c :
  10 ∉ path → chunks_ok inc_s → timeouts inc_s = 0%nat → Forall (λ n, 0 < n) ks_s →
  chunks_ok inc_c → timeouts inc_c = 0%nat → Forall (λ n, 0 < n) ks_c →
  stream inc_s = request path →
  ∃ s', handshake (connection inc_s ks_s) = Some (true, s') ∧
    (stream inc_c = sent_ s' →
     ∃ c', client_open (connection inc_c ks_c) path = Some (true, c') ∧ sent_ c' = stream inc_s).
Proof.
  intros Hpath Hcs Hts Hks Hcc Htc Hkc Es.
  destruct (upgrade_server path inc_s ks_s) as (s' & Eh & Esent & _); [done..|]. exists s'. split; [done|]. intros Ec.
  unfold client_open. change send_all with send_line.
  destruct (send_line_all (request path) (connection inc_c ks_c) (conj eq_refl Hkc)) as (Hok & Hsent & Hi & Hbuf & _).
  destruct (send_line (request path) (connection inc_c ks_c)) as [ok c1]. cbn [fst snd] in *. subst ok.
  assert (Hcont : lines (content c1) = response_lines ++ [[13]]).
  { unfold content. rewrite Hi, Hbuf. cbn [incoming buf_ connection app]. rewrite Ec, Esent. apply response_lines_eq. }
  destruct (read_response_spec response_lines [13] [] c1 false [] (S (length (lines (content c1))))) as (c2 & E2 & Ho).
  - unfold steady. rewrite Hi. by split.
  - exact Hcont.
  - repeat constructor; intros E; vm_compute in E; discriminate.
  - done.
  - rewrite Hcont, length_app. lia.
  - rewrite E2. replace (foldl response_step (false, []) response_lines) with (true, sample_accept) by (vm_compute; reflexivity).
    rewrite sample_accept_ok. cbn [mbind option_bind]. exists c2. rewrite bool_decide_eq_true_2 by done.
    split; [done|]. destruct Ho as (_ & -> & _). rewrite Hsent. by rewrite Es.
Qed.

(** A request with the key header in capitals, its value between blanks. *)

Definition odd_request : list (list Z) :=
  [lit "GET / HTTP/1.1" ++ [13]; lit "SEC-WEBSOCKET-KEY" ++ [58] ++ [32; 9] ++ kKey ++ [32] ++ [13]].

Lemma odd_request_carries_key : carries_key odd_request kKey.
Proof.
  exists [lit "GET / HTTP/1.1" ++ [13]], (lit "SEC-WEBSOCKET-KEY"), [32; 9], [32], []. split_and!; try done.
  - by repeat constructor.
  - by repeat constructor.
  - exists 100, 61. by repeat split.
  - repeat constructor; intros E; vm_compute in E; discriminate.
Qed.

Lemma ws_handshake_key_witness :
  ∃ accept s', accept_key kKey = Some accept ∧
    handshake (connection [Chunk (concat ((λ l, l ++ [10]) <$> (odd_request ++ [[13]])))] [9]) = Some (true, s') ∧
    sent_ s' = response accept.
Proof.
  apply (proj1 (ws_handshake_key (connection [Chunk (concat ((λ l, l ++ [10]) <$> (odd_request ++ [[13]])))] [9])
    kKey odd_request [13] []
    ltac:(split; [constructor; [discriminate|constructor]|reflexivity]) ltac:(split; [reflexivity|by repeat constructor])
    ltac:(reflexivity) ltac:(vm_compute; reflexivity))).
  - apply odd_request_carries_key.
  - vm_compute. reflexivity.
Defined.

Lemma ws_upgrade_end_to_end_witness :
  ∃ s', handshake (connection [Chunk (take 30 (request (lit "/book"))); Chunk (drop 30 (request (lit "/book")))] [5]) = Some (true, s').
Proof.
  destruct (ws_upgrade_end_to_end (lit "/book") [Chunk (take 30 (request (lit "/book"))); Chunk (drop 30 (request (lit "/book")))] [5]
    [] []) as (s' & Hs & _); [| | | | | | |reflexivity|exists s'; exact Hs].
  - apply (bool_decide_unpack _). vm_compute. exact I.
  - repeat constructor; discriminate.
  - reflexivity.
  - repeat constructor.
  - constructor.
  - reflexivity.
  - constructor.
Defined.

(** A frame that announces more than [max_size()] bytes raises [std::length_error] after its ten
    header bytes. *)
Lemma oversized_frame_throws :
  (read_frame (connection [Chunk [129; 127; 255; 255; 255; 255; 255; 255; 255; 255]] [])).1 = LengthError.
Proof. vm_compute. reflexivity. Qed.
