(* ===== verification/LatencyHist.v ===== *)
(** Latency statistics (include/core/latency_hist.hpp): samples, percentiles by sorting a copy,
    maximum, mean and the logarithmic histogram with its printed rows.  The floating-point
    index of [percentile] and the division of [mean] are arguments, given by [Doubles] and
    [Averages]. *)
From stdpp Require Import strings sorting.
From S2P Require Export Text.

#[local] Open Scope list_scope.
#[local] Open Scope Z_scope.

Definition LatencyHist : Type := list Z.

Definition add (h : LatencyHist) (ns : Z) : LatencyHist := h ++ [ns].

Definition count (h : LatencyHist) : Z := zlen h.

(** [std::sort] of a copy. *)

Definition sorted (h : LatencyHist) : list Z := merge_sort Z.le h.

(** [idx] is [static_cast<std::size_t>(p / 100.0 * (s.size() - 1) + 0.5)]. *)

Definition percentile (idx : Z → Z) (h : LatencyHist) : option Z :=
  match h with
  | [] => Some 0
  | _ =>
      let s := sorted h in
      let i := idx (zlen s) in
      s.[if zlen s <=? i then zlen s - 1 else i]
  end.

(** [*std::max_element]. *)

Definition max (h : LatencyHist) : Z :=
  match h with [] => 0 | x :: h => foldl (λ m v, if m <? v then v else m) x h end.

Section Mean.
Context {LD D : Type} (ld_zero : LD) (ld_add : LD → Z → LD) (ld_div : LD → Z → LD) (to_double : LD → D) (d_zero : D).

Definition mean (h : LatencyHist) : D :=
  match h with [] => d_zero | _ => to_double (ld_div (foldl ld_add ld_zero h) (zlen h)) end.

End Mean.

(** * The histogram *)

Definition kBuckets : Z := 21.

(** [while (b < kBuckets - 1 && v >= hi) { hi <<= 1; ++b; }] *)

Fixpoint bucket_loop (fuel : nat) (v b hi : Z) : Z :=
  match fuel with
  | O => b
  | S fuel => if (b <? kBuckets - 1) && (hi <=? v) then bucket_loop fuel v (b + 1) (u64 (Z.shiftl hi 1)) else b
  end.

(** The bucket index is bounded, so that many rounds are enough. *)

Definition bucket (v : Z) : Z := bucket_loop (Z.to_nat kBuckets) v 0 1.

Fixpoint fill (h : LatencyHist) (hist : list Z) (peak : Z) : option (list Z * Z) :=
  match h with
  | [] => Some (hist, peak)
  | v :: h =>
      let b := bucket v in
      n ← hist.[b];
      hist ← hist.[b <- n + 1];
      fill h hist (if peak <? n + 1 then n + 1 else peak)
  end.

Definition row (hist : list Z) (peak b : Z) : option (list Z) :=
  n ← hist.[b];
  if n =? 0 then Some []
  else
    let lo := if b =? 0 then 0 else Z.shiftl 1 (b - 1) in
    let hi := Z.shiftl 1 b in
    let bars := if peak =? 0 then 0 else u64 (n * 40) / peak in
    Some (lit "    [" ++ to_string lo ++ lit "," ++ to_string hi ++ lit ")  " ++ replicate (Z.to_nat bars) 35
            ++ lit "  " ++ to_string n ++ [10]).

Fixpoint rows (fuel : nat) (hist : list Z) (peak b : Z) : option (list Z) :=
  match fuel with
  | O => Some []
  | S fuel => r ← row hist peak b; rs ← rows fuel hist peak (b + 1); Some (r ++ rs)
  end.

Definition print_histogram (h : LatencyHist) : option (list Z) :=
  match h with
  | [] => Some []
  | _ =>
      hp ← fill h (replicate (Z.to_nat kBuckets) 0) 0;
      rs ← rows (Z.to_nat kBuckets) hp.1 hp.2 0;
      Some (lit "  distribution (ns, log2 buckets):" ++ [10] ++ rs)
  end.

(** The report: [fmt] is the output of a [double]. *)

Definition print {D} (fmt : D → list Z) (mean_ : D) (i50 i99 i999 : Z → Z) (h : LatencyHist) (label : list Z) :
    option (list Z) :=
  p50 ← percentile i50 h;
  p99 ← percentile i99 h;
  p999 ← percentile i999 h;
  hist ← print_histogram h;
  Some (label ++ lit "  (n=" ++ to_string (zlen h) ++ lit ")" ++ [10]
          ++ lit "  mean   " ++ fmt mean_ ++ lit " ns" ++ [10]
          ++ lit "  p50    " ++ to_string p50 ++ lit " ns" ++ [10]
          ++ lit "  p99    " ++ to_string p99 ++ lit " ns" ++ [10]
          ++ lit "  p99.9  " ++ to_string p999 ++ lit " ns" ++ [10]
          ++ lit "  max    " ++ to_string (max h) ++ lit " ns" ++ [10] ++ hist).

(** * Percentiles *)

Lemma sorted_perm h : sorted h ≡ₚ h.
Proof. apply merge_sort_Permutation. Qed.

Lemma sorted_sorted h : StronglySorted Z.le (sorted h).
Proof. apply (StronglySorted_merge_sort Z.le). Qed.

Lemma sorted_split s i (r : Z) :
  StronglySorted Z.le s → s !! i = Some r →
  Forall (λ v, v ≤ r) (take i s) ∧ Forall (λ v, r ≤ v) (drop (S i) s) ∧ s = take i s ++ r :: drop (S i) s.
Proof.
  intros Hs. revert i. induction Hs as [|x s Hs IH Hall]; intros [|i] Hi; try done.
  - injection Hi as ->. simpl. by rewrite drop_0.
  - simpl in Hi. destruct (IH i Hi) as (H1 & H2 & H3). cbn [take drop app]. split_and!.
    + constructor; [|done]. rewrite Forall_forall in Hall. apply Hall. by eapply list_elem_of_lookup_2.
    + done.
    + by f_equal.
Qed.

Definition below (r : Z) (h : list Z) : Z := zlen (filter (λ v, v < r) h).

Definition up_to (r : Z) (h : list Z) : Z := zlen (filter (λ v, v ≤ r) h).

Lemma filter_none {A} (P : A → Prop) `{!∀ x, Decision (P x)} l : Forall (λ x, ¬ P x) l → filter P l = [].
Proof. induction 1 as [|x l Hx _ IH]; [done|]. by rewrite filter_cons_False. Qed.

Lemma filter_all {A} (P : A → Prop) `{!∀ x, Decision (P x)} l : Forall P l → filter P l = l.
Proof. induction 1 as [|x l Hx _ IH]; [done|]. rewrite filter_cons_True by done. by rewrite IH. Qed.

Lemma zlen_filter_le {A} (P : A → Prop) `{!∀ x, Decision (P x)} l : zlen (filter P l) ≤ zlen l.
Proof. unfold zlen. pose proof (length_filter P l). lia. Qed.

Lemma zlen_perm {A} (l k : list A) : l ≡ₚ k → zlen l = zlen k.
Proof. intros E. unfold zlen. by rewrite E. Qed.

(** The element at rank [i] of the samples. *)
Lemma rank_spec h i r :
  (sorted h).[i] = Some r → r ∈ h ∧ below r h ≤ i < up_to r h.
Proof.
  intros Hi. pose proof (vget_Some _ _ _ Hi) as Hr. rewrite <- (Z2Nat.id i) in Hi |- * by lia. rewrite vget_nat in Hi.
  set (k := Z.to_nat i) in *. destruct (sorted_split _ _ _ (sorted_sorted h) Hi) as (H1 & H2 & H3).
  assert (Hk : zlen (take k (sorted h)) = Z.of_nat k) by (unfold zlen; rewrite length_take; unfold zlen in Hr; lia).
  split; [|split].
  - rewrite <- (sorted_perm h). by eapply list_elem_of_lookup_2.
  - unfold below. rewrite <- (zlen_perm _ _ (filter_Permutation (λ v, v < r) _ _ (sorted_perm h))). rewrite H3, filter_app, filter_cons_False by lia.
    rewrite (filter_none _ (drop _ _)) by (eapply Forall_impl; [exact H2|]; simpl; lia).
    rewrite app_nil_r. pose proof (zlen_filter_le (λ v, v < r) (take k (sorted h))). lia.
  - unfold up_to. rewrite <- (zlen_perm _ _ (filter_Permutation (λ v, v ≤ r) _ _ (sorted_perm h))). rewrite H3, filter_app, filter_cons_True by lia.
    rewrite (filter_all _ (take _ _)) by done. rewrite zlen_app, zlen_cons.
    pose proof (zlen_nonneg (filter (λ v, v ≤ r) (drop (S k) (sorted h)))). lia.
Qed.

Lemma max_loop x h : foldl (λ m v, if m <? v then v else m) x h ∈ x :: h ∧
  Forall (λ v, v ≤ foldl (λ m v, if m <? v then v else m) x h) (x :: h).
Proof.
  revert x. induction h as [|y h IH]; intros x; [split; [by left|by repeat constructor]|]. cbn [foldl].
  destruct (IH (if x <? y then y else x)) as [H1 H2]. apply Forall_cons in H2 as [H2 H3]. split.
  - destruct (x <? y); set_solver.
  - destruct (Z.ltb_spec x y); repeat (constructor; [lia|]); done.
Qed.

Lemma percentile_at idx h :
  h ≠ [] → 0 ≤ idx (zlen h) →
  percentile idx h = (sorted h).[Z.min (idx (zlen h)) (zlen h - 1)] ∧ 0 ≤ Z.min (idx (zlen h)) (zlen h - 1) < zlen (sorted h).
Proof.
  intros Hne Hi. pose proof (zlen_perm _ _ (sorted_perm h)) as El.
  assert (0 < zlen h) by (destruct h; [done|]; rewrite zlen_cons; pose proof (zlen_nonneg h); lia).
  split; [|rewrite El; lia]. destruct h as [|x h]; [done|]. unfold percentile. rewrite El. f_equal.
  destruct (Z.leb_spec (zlen (x :: h)) (idx (zlen (x :: h)))); lia.
Qed.

Lemma up_to_below r r' h : r < r' → up_to r h ≤ below r' h.
Proof.
  intros Hlt. unfold up_to, below. induction h as [|x h IH]; [done|]. destruct (decide (x ≤ r)).
  - rewrite (filter_cons_True (λ v, v ≤ r)), filter_cons_True, !zlen_cons by lia. lia.
  - rewrite (filter_cons_False (λ v, v ≤ r)) by lia. destruct (decide (x < r')).
    + rewrite filter_cons_True, zlen_cons by lia. lia.
    + by rewrite filter_cons_False by lia.
Qed.

Lemma up_to_less r m h : m ∈ h → r < m → up_to r h < zlen h.
Proof.
  intros Hm Hlt. unfold up_to. induction h as [|x h IH]; [set_solver|]. rewrite zlen_cons.
  pose proof (zlen_filter_le (λ v, v ≤ r) h). apply elem_of_cons in Hm as [<-|Hm].
  - rewrite filter_cons_False by lia. lia.
  - specialize (IH Hm). destruct (decide (x ≤ r)).
    + rewrite filter_cons_True, zlen_cons by lia. lia.
    + rewrite filter_cons_False by lia. lia.
Qed.

(** A percentile is an order statistic, taken inside the sorted copy: of no samples it is 0;
    otherwise it is a sample whose rank is the requested index, clamped to the last one: at
    most that many samples are smaller and more than that many are not larger.  Percentiles
    grow with the index, and none exceeds the maximum, which the last index reaches. *)
Theorem percentile_order_statistic idx idx' h :
  0 ≤ idx (zlen h) ≤ idx' (zlen h) →
  percentile idx [] = Some 0 ∧
  (h ≠ [] →
   ∃ r r', percentile idx h = Some r ∧ percentile idx' h = Some r' ∧ r ≤ r' ≤ max h ∧ r ∈ h ∧
     below r h ≤ Z.min (idx (zlen h)) (zlen h - 1) < up_to r h ∧
     (zlen h - 1 ≤ idx' (zlen h) → r' = max h)).
Proof.
  intros Hi. split; [done|]. intros Hne.
  destruct (percentile_at idx h Hne ltac:(lia)) as [-> Hr]. destruct (percentile_at idx' h Hne ltac:(lia)) as [-> Hr'].
  set (i := Z.min (idx (zlen h)) (zlen h - 1)) in *. set (i' := Z.min (idx' (zlen h)) (zlen h - 1)) in *.
  destruct (vget_is_Some (sorted h) i Hr) as [r Er]. destruct (vget_is_Some (sorted h) i' Hr') as [r' Er'].
  destruct (rank_spec h i r Er) as [Hin Hrank]. destruct (rank_spec h i' r' Er') as [Hin' Hrank'].
  assert (Hmax : max h ∈ h ∧ Forall (λ v, v ≤ max h) h) by (destruct h; [done|apply max_loop]).
  destruct Hmax as [Hm1 Hm2]. rewrite Forall_forall in Hm2.
  assert (Hle : r ≤ r').
  { destruct (Z.le_gt_cases r r') as [|Hlt]; [done|].
    pose proof (up_to_below r' r h Hlt). unfold i, i' in *. lia. }
  exists r, r'. split; [done|]. split; [done|]. split; [split; [done|by apply Hm2]|]. split; [done|]. split; [done|].
  intros Hlast. assert (E : r' = max h); [|done]. assert (i' = zlen h - 1) by lia.
  destruct (Z.le_gt_cases (max h) r'); [specialize (Hm2 r' Hin'); lia|].
  pose proof (up_to_less r' _ h Hm1 ltac:(lia)). lia.
Qed.

Lemma percentile_order_statistic_witness :
  percentile (λ n, n / 2) [30; 10; 20] = Some 20 ∧ percentile (λ n, n) [30; 10; 20] = Some 30 ∧
  ∃ r r', percentile (λ n, Z.abs n / 2) [30; 10; 20] = Some r ∧ percentile Z.abs [30; 10; 20] = Some r' ∧ r ≤ r'.
Proof.
  split; [vm_compute; reflexivity|]. split; [vm_compute; reflexivity|].
  destruct (proj2 (percentile_order_statistic (λ n, Z.abs n / 2) Z.abs [30; 10; 20]
    ltac:(vm_compute; split; discriminate))) as (r & r' & H1 & H2 & H3 & _);
    [discriminate|]. exists r, r'. split; [exact H1|]. split; [exact H2|]. lia.
Defined.

(** * Buckets *)

Lemma bucket_loop_spec fuel v b :
  0 ≤ b ≤ 20 → 20 - b < Z.of_nat fuel → (b = 0 ∨ 2 ^ (b - 1) ≤ v) →
  let r := bucket_loop fuel v b (2 ^ b) in
  b ≤ r ≤ 20 ∧ (r = 0 ∨ 2 ^ (r - 1) ≤ v) ∧ (r < 20 → v < 2 ^ r).
Proof.
  revert b. induction fuel as [|fuel IH]; intros b Hb Hf Hlo; [lia|]. cbn [bucket_loop]. unfold kBuckets.
  destruct (Z.ltb_spec b (21 - 1)) as [Hlt|Hge]; cbn [andb]; [|split_and!; [lia|lia|done|lia]].
  destruct (Z.leb_spec (2 ^ b) v) as [Hle|Hgt]; [|split_and!; [lia|lia|done|lia]].
  assert (E : u64 (Z.shiftl (2 ^ b) 1) = 2 ^ (b + 1)).
  { rewrite Z.shiftl_mul_pow2, Z.pow_1_r, Z.pow_add_r, Z.pow_1_r by lia. apply u64_small.
    assert (2 ^ b ≤ 2 ^ 20) by (apply Z.pow_le_mono_r; lia). assert (0 < 2 ^ b) by (apply Z.pow_pos_nonneg; lia). lia. }
  rewrite E. destruct (IH (b + 1)) as (H1 & H2 & H3); [lia|lia|right; by replace (b + 1 - 1) with b by lia|].
  split; [lia|done].
Qed.

(** The bucket of a sample: [b] holds [2^(b-1) <= v < 2^b], the first one 0, and the last one
    everything from 2^19 on. *)
Lemma bucket_spec v :
  0 ≤ bucket v ≤ 20 ∧ (bucket v = 0 ∨ 2 ^ (bucket v - 1) ≤ v) ∧ (bucket v < 20 → v < 2 ^ bucket v).
Proof. apply (bucket_loop_spec (Z.to_nat kBuckets) v 0); [lia|done|by left]. Qed.

(** Between two powers of two lies one bucket only. *)
Lemma bucket_unique v b :
  0 < b ≤ 20 → 2 ^ (b - 1) ≤ v → (b < 20 → v < 2 ^ b) → bucket v = b.
Proof.
  intros Hb Hlo Hhi. destruct (bucket_spec v) as (Hr & Hlo' & Hhi'). set (r := bucket v) in *.
  destruct (Z.lt_trichotomy r b) as [Hlt|[->|Hgt]]; [|done|].
  - specialize (Hhi' ltac:(lia)). assert (2 ^ r ≤ 2 ^ (b - 1)) by (apply Z.pow_le_mono_r; lia). lia.
  - specialize (Hhi ltac:(lia)). destruct Hlo' as [|Hlo']; [lia|]. assert (2 ^ b ≤ 2 ^ (r - 1)) by (apply Z.pow_le_mono_r; lia). lia.
Qed.

Lemma bucket_iff v :
  0 ≤ v →
  (bucket v = 0 ↔ v = 0) ∧ (∀ b, 0 < b < 20 → bucket v = b ↔ 2 ^ (b - 1) ≤ v < 2 ^ b) ∧ (bucket v = 20 ↔ 2 ^ 19 ≤ v).
Proof.
  intros Hv. destruct (bucket_spec v) as (Hr & Hlo & Hhi). split; [|split].
  - split; [|by intros ->]. intros E. rewrite E in Hhi. specialize (Hhi ltac:(lia)). simpl in Hhi. lia.
  - intros b Hb. split; [intros <-; destruct Hlo; [lia|]; split; [done|apply Hhi; lia]|].
    intros [H1 H2]. apply bucket_unique; [lia|done|done].
  - split; [intros E; rewrite E in Hlo; destruct Hlo; [lia|done]|]. intros H1. apply bucket_unique; [lia|done|lia].
Qed.

Definition in_bucket (b : Z) (h : list Z) : Z := zlen (filter (λ v, bucket v = b) h).

Lemma in_bucket_cons b v h : in_bucket b (v :: h) = (if decide (bucket v = b) then 1 else 0) + in_bucket b h.
Proof. unfold in_bucket. rewrite filter_cons. case_decide; [rewrite zlen_cons; lia|done]. Qed.

(** The counters are bounded by the peak, and one of them reaches it. *)

Definition peak_ok (hist : list Z) (peak : Z) : Prop :=
  0 ≤ peak ∧ (∀ b n, hist.[b] = Some n → 0 ≤ n ≤ peak) ∧ (peak = 0 ∨ ∃ b, hist.[b] = Some peak).

Lemma fill_spec h hist peak :
  zlen hist = 21 → peak_ok hist peak →
  ∃ hist' peak', fill h hist peak = Some (hist', peak') ∧ zlen hist' = 21 ∧ peak_ok hist' peak'
    ∧ ∀ b n, hist.[b] = Some n → hist'.[b] = Some (n + in_bucket b h).
Proof.
  revert hist peak. induction h as [|v h IH]; intros hist peak Hz Hp.
  - exists hist, peak. split_and!; try done. intros b n ->. f_equal. unfold in_bucket, zlen. simpl. lia.
  - cbn [fill]. destruct (bucket_spec v) as (Hb & _). destruct (vget_is_Some hist (bucket v)) as [n En]; [lia|].
    rewrite En. cbn [mbind option_bind]. destruct (hist.[bucket v <- n + 1]) as [hist1|] eqn:E1; [|rewrite vset_Some in E1; [done|lia]].
    cbn [mbind option_bind]. pose proof (vset_get _ _ _ (bucket v) _ E1) as Eself. rewrite decide_True in Eself by done.
    destruct (IH hist1 (if peak <? n + 1 then n + 1 else peak)) as (hist' & peak' & E & Hz' & Hp' & Hget).
    + by rewrite (vset_length _ _ _ _ E1).
    + destruct Hp as (H0 & H1 & H2). pose proof (H1 _ _ En). split_and!.
      * destruct (Z.ltb_spec peak (n + 1)); lia.
      * intros b m Hm. rewrite (vset_get _ _ _ b _ E1) in Hm. case_decide; [simplify_eq|apply H1 in Hm];
          destruct (Z.ltb_spec peak (n + 1)); lia.
      * destruct (Z.ltb_spec peak (n + 1)); [right; by exists (bucket v)|]. destruct H2 as [->|[b Hbp]]; [lia|].
        right. exists b. rewrite (vset_get _ _ _ b _ E1). case_decide; [simplify_eq; lia|done].
    + exists hist', peak'. split_and!; try done. intros b m Hm. rewrite in_bucket_cons.
      destruct (decide (bucket v = b)) as [<-|Hne].
      * rewrite En in Hm. injection Hm as <-. rewrite (Hget _ _ Eself). f_equal. lia.
      * rewrite Z.add_0_l. apply Hget. rewrite (vset_get _ _ _ b _ E1). by rewrite decide_False.
Qed.

Lemma start_ok : zlen (replicate (Z.to_nat kBuckets) 0) = 21 ∧ peak_ok (replicate (Z.to_nat kBuckets) 0) 0.
Proof.
  split; [done|]. split_and!; [done| |by left]. intros b n Hn. unfold vget in Hn. case_decide; [|done].
  apply lookup_replicate in Hn as [-> _]. done.
Qed.

Lemma rows_total fuel hist peak b :
  zlen hist = 21 → 0 ≤ b → b + Z.of_nat fuel ≤ 21 → is_Some (rows fuel hist peak b).
Proof.
  intros Hz. revert b. induction fuel as [|fuel IH]; intros b Hb Hf; [done|]. cbn [rows]. unfold row.
  destruct (vget_is_Some hist b) as [n En]; [lia|]. rewrite En. cbn [mbind option_bind].
  destruct (IH (b + 1)) as [rs ->]; [lia..|]. destruct (n =? 0); cbn [mbind option_bind]; by eexists.
Qed.

Lemma print_histogram_total h : is_Some (print_histogram h).
Proof.
  destruct h as [|v h]; [by eexists|]. destruct (fill_spec (v :: h) _ _ (proj1 start_ok) (proj2 start_ok)) as (hist & peak & E & Hz & _).
  unfold print_histogram. rewrite E. cbn [mbind option_bind fst snd].
  destruct (rows_total (Z.to_nat kBuckets) hist peak 0 Hz) as [rs ->]; [lia|done|]. by eexists.
Qed.

Lemma percentile_total idx h : (∀ n, 0 ≤ idx n) → is_Some (percentile idx h).
Proof.
  intros Hi. destruct (decide (h = [])) as [->|Hne]; [by eexists|]. destruct (percentile_at idx h Hne (Hi _)) as [-> Hr]. by apply vget_is_Some.
Qed.

(** The report is printed to its end whatever the samples. *)
Lemma print_total {D} (fmt : D → list Z) mean_ i50 i99 i999 h label :
  (∀ n, 0 ≤ i50 n ∧ 0 ≤ i99 n ∧ 0 ≤ i999 n) → is_Some (print fmt mean_ i50 i99 i999 h label).
Proof.
  intros Hi. unfold print. destruct (percentile_total i50 h) as [? ->]; [apply Hi|]. destruct (percentile_total i99 h) as [? ->]; [apply Hi|].
  destruct (percentile_total i999 h) as [? ->]; [apply Hi|]. destruct (print_histogram_total h) as [? ->]. by eexists.
Qed.

(** The histogram counts every sample once, inside its arrays: the counter of bucket [b] is the
    number of samples in it, where bucket 0 holds the zeros, bucket [b] below 20 the samples
    from 2^(b-1) to 2^b - 1, and bucket 20 all from 2^19 on; the peak is the largest counter,
    so for fewer than 2^58 samples no bar is longer than 40 and the fullest bucket's is 40. *)
Theorem histogram_counts h :
  h ≠ [] →
  ∃ hist peak, fill h (replicate (Z.to_nat kBuckets) 0) 0 = Some (hist, peak) ∧ is_Some (print_histogram h) ∧
    (∀ b, 0 ≤ b ≤ 20 → hist.[b] = Some (in_bucket b h)) ∧
    (∀ v, v ∈ h → 0 ≤ v → (bucket v = 0 ↔ v = 0) ∧ (∀ b, 0 < b < 20 → bucket v = b ↔ 2 ^ (b - 1) ≤ v < 2 ^ b)
       ∧ (bucket v = 20 ↔ 2 ^ 19 ≤ v)) ∧
    (∀ b, 0 ≤ b ≤ 20 → in_bucket b h ≤ peak) ∧ (∃ b, 0 ≤ b ≤ 20 ∧ in_bucket b h = peak) ∧
    (peak < 2 ^ 58 → 0 < peak → ∀ b, 0 ≤ b ≤ 20 → u64 (in_bucket b h * 40) / peak ≤ 40 ∧
       (in_bucket b h = peak → u64 (in_bucket b h * 40) / peak = 40)).
Proof.
  intros Hne. destruct (fill_spec h _ _ (proj1 start_ok) (proj2 start_ok)) as (hist & peak & E & Hz & (Hp0 & Hp1 & Hp2) & Hget).
  assert (Hcount : ∀ b, 0 ≤ b ≤ 20 → hist.[b] = Some (in_bucket b h)).
  { intros b Hb. rewrite (Hget b 0); [done|]. unfold vget. rewrite decide_True by lia.
    apply lookup_replicate. change (Z.to_nat kBuckets) with 21%nat. lia. }
  exists hist, peak. split; [done|]. split; [apply print_histogram_total|]. split; [done|]. split.
  { intros v _ Hv. apply bucket_iff. done. }
  assert (Hle : ∀ b, 0 ≤ b ≤ 20 → 0 ≤ in_bucket b h ≤ peak) by (intros b Hb; by apply (Hp1 b), Hcount).
  split; [intros b Hb; by apply Hle|]. split.
  { destruct Hp2 as [->|[b Hb]].
    - exists 0. split; [lia|]. specialize (Hle 0). lia.
    - pose proof (vget_Some _ _ _ Hb). exists b. split; [lia|]. rewrite Hcount in Hb by lia. congruence. }
  intros Hpk Hpos b Hb. specialize (Hle b Hb). rewrite u64_small by lia. split.
  - apply Z.div_le_upper_bound; lia.
  - intros ->. rewrite Z.mul_comm. by apply Z.div_mul; lia.
Qed.

Lemma histogram_counts_witness :
  ∃ hist peak, fill [0; 3; 2; 1000000000] (replicate (Z.to_nat kBuckets) 0) 0 = Some (hist, peak) ∧ hist.[2] = Some 2.
Proof.
  destruct (histogram_counts [0; 3; 2; 1000000000]) as (hist & peak & E & _ & Hc & _); [discriminate|].
  exists hist, peak. split; [exact E|]. rewrite Hc by lia. vm_compute. reflexivity.
Defined.

(** A sample of a second is printed in the row of the last bucket, labelled [524288,1048576). *)
Lemma last_row_label :
  print_histogram [1000000000] =
  Some (lit "  distribution (ns, log2 buckets):" ++ [10] ++ lit "    [524288,1048576)  " ++ replicate 40 35 ++ lit "  1" ++ [10]).
Proof. vm_compute. reflexivity. Qed.
