(* ===== verification/Doubles.v ===== *)
(** The floating-point arithmetic of the program, put in place of the parameters of the other
    files: the tape and the strategy over binary64 and the extended format, and the rank that
    [percentile] (include/core/latency_hist.hpp) computes in floating point. *)
From stdpp Require Import strings.
From S2P Require Export PrintfFacts Tape LatencyHist.
From S2P Require Import Bridge.

#[local] Open Scope Q_scope.

(** * Instances *)

(** The operations of include/book/tape.hpp: [static_cast<long double>(px) * qty], sums, the
    division by a volume, and the division by the price scale. *)

Definition ieee_floats : floats := {|
  Tape.LD := fl;
  Tape.D := fl;
  Tape.ld_zero := Zero false;
  Tape.ld_mul := λ px qty, fmul x87_extended (of_Z x87_extended px) (of_Z x87_extended qty);
  Tape.ld_add := fadd x87_extended;
  Tape.ld_div := λ x n, fdiv x87_extended x (of_Z x87_extended n);
  Tape.to_double := convert binary64;
  Tape.d_scale := λ x n, fdiv binary64 x (of_Z binary64 n);
  Tape.d_zero := Zero false;
|}.

#[export] Instance ieee_floats_ops : FloatOps (Tape.D ieee_floats) (Tape.LD ieee_floats) := ieee_ops.

(** [x >= y], false for a NaN. *)

Definition fge (x y : fl) : bool :=
  match x, y with NaN _, _ | _, NaN _ => false | _, _ => negb (flt x y) end.

#[export] Instance double_arith : DoubleArith fl :=
  {| Bridge.d_add := fadd binary64; Bridge.d_sub := fsub binary64; Bridge.d_half := fmul binary64 double_half; Bridge.d_ge := fge |}.

(** * The rank of a percentile *)

(** [static_cast<std::size_t>(p / 100.0 * (s.size() - 1) + 0.5)]; [None] is undefined behaviour. *)

Definition rank (p : fl) (n : Z) : option Z :=
  to_size_t (fadd binary64 (fmul binary64 (fdiv binary64 p (of_Z binary64 100)) (of_Z binary64 (n - 1))) double_half).

Definition rank_index (p : fl) (n : Z) : Z := default 0%Z (rank p n).

(** The arguments 50, 99 and 99.9. *)

Definition p50 : fl := of_Z binary64 50.
Definition p99 : fl := of_Z binary64 99.
Definition p999 : fl := dbl (999 # 10).

Lemma half_val : val double_half == 1 # 2.
Proof. by vm_compute. Qed.

Lemma hundred_val : val (of_Z binary64 100) == 100.
Proof. by vm_compute. Qed.

(** A fraction of the last index, before and after the half is added. *)

Definition scaled (p : fl) (n : Z) : fl := fmul binary64 (fdiv binary64 p (of_Z binary64 100)) (of_Z binary64 (n - 1)).

Definition percent (p : fl) : Prop := finite p = true ∧ 0 <= val p <= 100.

Definition samples_ok (n : Z) : Prop := (1 ≤ n ≤ 2 ^ 52)%Z.

Lemma percent_fraction p :
  percent p → finite (fdiv binary64 p (of_Z binary64 100)) = true ∧ 0 <= val (fdiv binary64 p (of_Z binary64 100)) <= 1 ∧
  fdiv binary64 p (of_Z binary64 100) = round binary64 (xorb (sign p) false) (val p / 100).
Proof.
  intros [Fp Hp]. pose proof hundred_val as Eh. assert (H100 : ~ val (of_Z binary64 100) == 0) by lra.
  destruct (fdiv_between binary64 binary64_ok p (of_Z binary64 100) 0 1 Fp ltac:(done) H100) as [F H]; [by apply (num_Z 0)|by apply (num_Z 1)| |].
  { rewrite Eh. split; [apply Qle_shift_div_l|apply Qle_shift_div_r]; lra. }
  split; [done|]. split; [done|]. rewrite fdiv_round by done. by rewrite Eh.
Qed.

Lemma last_index n : samples_ok n → finite (of_Z binary64 (n - 1)) = true ∧ val (of_Z binary64 (n - 1)) == inject_Z (n - 1) ∧ 0 <= inject_Z (n - 1).
Proof. intros Hn. unfold samples_ok in *. destruct (int_exact (n - 1)) as [? ?]; [lia|]. split; [done|]. split; [done|]. apply (injZ_le 0). lia. Qed.

Lemma scaled_between p n : percent p → samples_ok n → finite (scaled p n) = true ∧ 0 <= val (scaled p n) <= inject_Z (n - 1).
Proof.
  intros Hp Hn. destruct (percent_fraction p Hp) as (Fq & Hq & _). destruct (last_index n Hn) as (Fn & En & Hn0). unfold samples_ok in *.
  apply (fmul_between binary64 binary64_ok); [done|done|by apply (num_Z 0)|apply num_Z; lia|]. rewrite En.
  pose proof (Qmult_le_compat_r _ _ (inject_Z (n - 1)) (proj2 Hq) Hn0). pose proof (Qmult_le_0_compat _ _ (proj1 Hq) Hn0). lra.
Qed.

Definition position (p : fl) (n : Z) : fl := fadd binary64 (scaled p n) double_half.

(** The position stays below the number of samples, so that the cast is defined and the clamp
    behind it is never needed. *)
Lemma position_between p n :
  percent p → samples_ok n → finite (position p n) = true ∧ 1 # 2 <= val (position p n) <= inject_Z (n - 1) + (1 # 2).
Proof.
  intros Hp Hn. destruct (scaled_between p n Hp Hn) as [Fs Hs].
  apply (fadd_between binary64 binary64_ok); [done|done| | |rewrite half_val; lra].
  - exists 1%Z, (-1)%Z. by vm_compute.
  - exists (2 * n - 1)%Z, (-1)%Z. unfold samples_ok in *. split; [cbn; lia|]. split; [done|].
    change (pow2 (-1)) with (1 # 2). setoid_replace (inject_Z (2 * n - 1)) with (2 * inject_Z (n - 1) + 1) using relation Qeq; [ring|].
    change 2 with (inject_Z 2). change 1 with (inject_Z 1). rewrite <- inject_Z_mult, <- inject_Z_plus. f_equiv. lia.
Qed.

Lemma position_sign p n : percent p → samples_ok n → sign (position p n) = false.
Proof.
  intros Hp Hn. destruct (scaled_between p n Hp Hn) as [Fs Hs]. unfold position. rewrite fadd_round by done.
  rewrite andb_false_r. apply round_nonneg_sign. pose proof half_val. lra.
Qed.

Lemma rank_defined p n :
  percent p → samples_ok n → rank p n = Some (Qfloor (val (position p n))) ∧ (0 ≤ Qfloor (val (position p n)) ≤ n - 1)%Z.
Proof.
  intros Hp Hn. destruct (position_between p n Hp Hn) as [Ff [Hl Hh]]. change (rank p n) with (to_size_t (position p n)).
  assert (H0 : (0 ≤ Qfloor (val (position p n)))%Z) by (apply (Qfloor_resp_le 0); lra).
  assert (H1 : (Qfloor (val (position p n)) ≤ n - 1)%Z).
  { pose proof (Qfloor_le (val (position p n))) as Hf. destruct (Z.le_gt_cases (Qfloor (val (position p n))) (n - 1)) as [|Hgt]; [done|exfalso].
    assert (Hc : (n - 1 + 1 ≤ Qfloor (val (position p n)))%Z) by lia. apply injZ_le in Hc. rewrite inject_Z_plus in Hc. change (inject_Z 1) with 1 in Hc. lra. }
  split; [|done]. unfold to_size_t. rewrite Ff, (position_sign p n Hp Hn). unfold samples_ok in *.
  rewrite (proj2 (Z.leb_le _ _)), (proj2 (Z.ltb_lt _ _)) by lia. done.
Qed.

(** A greater percentage does not give a smaller rank. *)
Lemma position_mono p q n : percent p → percent q → samples_ok n → val p <= val q → val (position p n) <= val (position q n).
Proof.
  intros Hp Hq Hn Hle. destruct (percent_fraction p Hp) as (F1 & H1 & E1), (percent_fraction q Hq) as (F2 & H2 & E2).
  destruct (last_index n Hn) as (Fn & En & Hn0). destruct (scaled_between p n Hp Hn) as [Fs _], (scaled_between q n Hq Hn) as [Ft _].
  destruct (position_between p n Hp Hn) as [Fu _], (position_between q n Hq Hn) as [Fv _].
  assert (A1 : val (fdiv binary64 p (of_Z binary64 100)) <= val (fdiv binary64 q (of_Z binary64 100))).
  { rewrite E1 in F1 |- *. rewrite E2 in F2 |- *. apply round_mono; [done| |done|done]. apply Qmult_le_compat_r; [done|by vm_compute]. }
  assert (A2 : val (scaled p n) <= val (scaled q n)).
  { unfold scaled in *. rewrite fmul_round in Fs |- * by done. rewrite fmul_round in Ft |- * by done. apply round_mono; [done| |done|done].
    apply Qmult_le_compat_r; [done|]. rewrite En. done. }
  unfold position in *. rewrite fadd_round in Fu |- * by done. rewrite fadd_round in Fv |- * by done. apply round_mono; [done|lra|done|done].
Qed.

(** For up to 2^32 samples the rank is the exact one, rounded to the nearest integer, but for an
    error below 2^-16. *)
Lemma rank_close p n :
  percent p → 1 <= val p → (1 ≤ n ≤ 2 ^ 32)%Z →
  Qabs (inject_Z (Qfloor (val (position p n))) - val p / 100 * inject_Z (n - 1)) <= (1 # 2) + pow2 (-16).
Proof.
  intros Hp Hp1 Hn. assert (Hs : samples_ok n) by (unfold samples_ok; lia). pose proof ulp_range as Hu.
  destruct (percent_fraction p Hp) as (Fq & Hq & Eq). destruct (last_index n Hs) as (Fn & En & Hn0). destruct Hp as [Fp Hpv].
  assert (HP : 1 # 100 <= val p / 100 <= 1) by (split; [apply Qle_shift_div_l|apply Qle_shift_div_r]; lra). set (P := val p / 100) in *.
  destruct (round_small (xorb (sign p) false) P) as [_ H1]; [right; apply Qle_trans with (1 # 100); [by vm_compute|lra]|apply Qle_trans with 1; [lra|by vm_compute]|].
  rewrite <- Eq in H1. set (q := fdiv binary64 p (of_Z binary64 100)) in *. set (N := inject_Z (n - 1)) in *.
  assert (HN : N <= inject_Z (2 ^ 32)) by (apply injZ_le; lia). assert (HN1 : N == 0 ∨ 1 <= N).
  { unfold N. destruct (Z.eq_dec n 1) as [->|]; [by left|right; apply (injZ_le 1); lia]. }
  assert (HPN : 0 <= P * N <= inject_Z (2 ^ 32)).
  { split; [apply Qmult_le_0_compat; lra|]. pose proof (Qmult_le_compat_r P 1 N ltac:(lra) Hn0). lra. }
  assert (Hqn : (1 - ulp) * (P * N) <= val q * N <= (1 + ulp) * (P * N)).
  { pose proof (Qmult_le_compat_r _ _ N (proj1 H1) Hn0). pose proof (Qmult_le_compat_r _ _ N (proj2 H1) Hn0). lra. }
  assert (HuN : 0 <= ulp * (P * N) <= pow2 (-20)).
  { split; [apply Qmult_le_0_compat; lra|]. apply Qle_trans with (ulp * inject_Z (2 ^ 32)); [apply mult_le_l; lra|by vm_compute]. }
  assert (Eqn : val q * val (of_Z binary64 (n - 1)) == val q * N) by (by rewrite En).
  destruct (round_small (xorb (sign q) (sign (of_Z binary64 (n - 1)))) (val q * val (of_Z binary64 (n - 1)))) as [_ H2].
  { rewrite Eqn. destruct HN1 as [E0|HN1]; [left; rewrite E0; ring|right]. apply Qle_trans with ((1 - ulp) * (1 # 100)); [by vm_compute|].
    pose proof (mult_le_l (val q) 1 N ltac:(lra) HN1). pose proof (mult_le_l (1 - ulp) (1 # 100) P ltac:(lra) ltac:(lra)). lra. }
  { rewrite Eqn. apply Qle_trans with (inject_Z (2 ^ 32) + pow2 (-20)); [lra|by vm_compute]. }
  rewrite <- fmul_round, Eqn in H2 by done. change (fmul binary64 q (of_Z binary64 (n - 1))) with (scaled p n) in H2.
  assert (HuX : 0 <= ulp * (val q * N) <= pow2 (-19)).
  { split; [apply Qmult_le_0_compat; [lra|apply Qmult_le_0_compat; lra]|].
    apply Qle_trans with (ulp * (inject_Z (2 ^ 32) + pow2 (-20))); [apply mult_le_l; lra|by vm_compute]. }
  assert (HX : - pow2 (-18) <= val (scaled p n) - P * N <= pow2 (-18)).
  { assert (pow2 (-20) + pow2 (-19) <= pow2 (-18)) by (by vm_compute). lra. }
  destruct (scaled_between p n (conj Fp Hpv) Hs) as [Fs Hsc]. fold N in Hsc. pose proof half_val as Eh.
  destruct (round_small (sign (scaled p n) && sign double_half) (val (scaled p n) + val double_half)) as [_ H3].
  { right. rewrite Eh. apply Qle_trans with (1 # 2); [by vm_compute|lra]. }
  { rewrite Eh. apply Qle_trans with (inject_Z (2 ^ 32) + (1 # 2)); [lra|by vm_compute]. }
  rewrite <- fadd_round, Eh in H3 by done. fold (position p n) in H3.
  assert (HuY : 0 <= ulp * (val (scaled p n) + (1 # 2)) <= pow2 (-18)).
  { split; [apply Qmult_le_0_compat; lra|]. apply Qle_trans with (ulp * (inject_Z (2 ^ 32) + (1 # 2))); [apply mult_le_l; lra|by vm_compute]. }
  pose proof (Qfloor_le (val (position p n))) as L1. pose proof (Qlt_floor (val (position p n))) as L2. rewrite inject_Z_plus in L2. change (inject_Z 1) with 1 in L2.
  assert (pow2 (-18) + pow2 (-18) <= pow2 (-16)) by (by vm_compute). apply Qabs_Qle_condition. lra.
Qed.

(** * Reported percentiles *)

Lemma percents_ok : percent p50 ∧ percent p99 ∧ percent p999 ∧ val p50 <= val p99 ∧ val p99 <= val p999.
Proof. unfold percent. by vm_compute. Qed.

#[local] Close Scope Q_scope.
#[local] Open Scope Z_scope.

Lemma rank_index_bounds p n : percent p → samples_ok n → 0 ≤ rank_index p n ≤ n - 1.
Proof. intros Hp Hn. unfold rank_index. destruct (rank_defined p n Hp Hn) as [-> H]. done. Qed.

Lemma rank_index_nonneg p n : 0 ≤ rank_index p n.
Proof.
  unfold rank_index, rank, to_size_t. destruct (finite _); [|done]. cbv zeta. case_match eqn:E; [|done].
  apply andb_true_iff in E as [E _]. by apply Z.leb_le in E.
Qed.

Lemma rank_index_mono p q n : percent p → percent q → samples_ok n → (val p <= val q)%Q → rank_index p n ≤ rank_index q n.
Proof.
  intros Hp Hq Hn Hle. unfold rank_index. destruct (rank_defined p n Hp Hn) as [-> _], (rank_defined q n Hq Hn) as [-> _].
  by apply Qfloor_resp_le, position_mono.
Qed.

(** C27: The percentiles that are reported, with the rank computed in binary64.  For up to 2^52 samples
    the cast of the rank to an index is defined and gives an index of a sample, so that the clamp
    behind it is never used; p50, p99 and p99.9 are samples in this order, not above the maximum;
    each has at most as many samples below it as its rank says, and more that are not above it; and
    up to 2^32 samples that rank is the exact percentage of the last index, rounded to the nearest
    integer up to 2^-16. *)
Theorem percentiles_ieee (h : LatencyHist) :
  h ≠ [] → zlen h ≤ 2 ^ 52 →
  ∃ a b c, percentile (rank_index p50) h = Some a ∧ percentile (rank_index p99) h = Some b ∧ percentile (rank_index p999) h = Some c ∧
    a ≤ b ≤ c ∧ c ≤ LatencyHist.max h ∧
    Forall (λ pr : fl * Z, ∃ i, rank pr.1 (zlen h) = Some i ∧ 0 ≤ i < zlen h ∧ pr.2 ∈ h ∧ below pr.2 h ≤ i < up_to pr.2 h ∧
      (zlen h ≤ 2 ^ 32 → (Qabs (inject_Z i - val pr.1 / 100 * inject_Z (zlen h - 1)) <= (1 # 2) + pow2 (-16))%Q)) [(p50, a); (p99, b); (p999, c)].
Proof.
  intros Hne Hl. assert (Hn : samples_ok (zlen h)).
  { split; [|done]. destruct h as [|x h]; [done|]. rewrite zlen_cons. pose proof (zlen_nonneg h). lia. }
  destruct percents_ok as (P1 & P2 & P3 & L1 & L2).
  assert (Hat : ∀ p q, percent p → percent q → (val p <= val q)%Q → ∃ r r', percentile (rank_index p) h = Some r ∧ percentile (rank_index q) h = Some r' ∧
    r ≤ r' ≤ LatencyHist.max h ∧ r ∈ h ∧ below r h ≤ rank_index p (zlen h) < up_to r h).
  { intros p q Hp Hq Hpq. pose proof (rank_index_bounds p _ Hp Hn). pose proof (rank_index_mono p q _ Hp Hq Hn Hpq).
    destruct (proj2 (percentile_order_statistic (rank_index p) (rank_index q) h ltac:(lia)) Hne) as (r & r' & E1 & E2 & Hr & Hin & Hb & _).
    rewrite Z.min_l in Hb by lia. by exists r, r'. }
  destruct (Hat p50 p99 P1 P2 L1) as (a & b & Ea & Eb & Hab & Ia & Ba). destruct (Hat p99 p999 P2 P3 L2) as (b' & c & Eb' & Ec & Hbc & Ib & Bb).
  destruct (Hat p999 p999 P3 P3 ltac:(apply Qle_refl)) as (c' & ? & Ec' & _ & _ & Ic & Bc). rewrite Eb in Eb'. injection Eb' as <-. rewrite Ec in Ec'. injection Ec' as <-.
  exists a, b, c. split_and!; [done..|lia|lia|lia|].
  assert (Hone : ∀ p r, percent p → (1 <= val p)%Q → r ∈ h → below r h ≤ rank_index p (zlen h) < up_to r h → ∃ i, rank p (zlen h) = Some i ∧ 0 ≤ i < zlen h ∧ r ∈ h ∧ below r h ≤ i < up_to r h ∧
      (zlen h ≤ 2 ^ 32 → (Qabs (inject_Z i - val p / 100 * inject_Z (zlen h - 1)) <= (1 # 2) + pow2 (-16))%Q)).
  { intros p r Hp Hp1 Hin Hb. unfold rank_index in Hb. destruct (rank_defined p _ Hp Hn) as [Er Hr]. rewrite Er in Hb |- *. eexists. split; [done|].
    split; [lia|]. split; [done|]. split; [done|]. intros Hz. apply rank_close; [done|done|]. unfold samples_ok in Hn. lia. }
  repeat (apply Forall_cons; split; [apply Hone; [done|by vm_compute|done|done]|]). by apply Forall_nil.
Qed.

Lemma percentiles_ieee_witness :
  percentile (rank_index p50) [30; 10; 20; 40] = Some 30 ∧ ∃ b, percentile (rank_index p99) [30; 10; 20; 40] = Some b ∧ 30 ≤ b ≤ 40.
Proof.
  destruct (percentiles_ieee [30; 10; 20; 40]) as (a & b & c & Ea & Eb & _ & H1 & H2 & _); [discriminate|vm_compute; discriminate|].
  assert (Ha : percentile (rank_index p50) [30; 10; 20; 40] = Some 30) by (vm_compute; reflexivity). split; [exact Ha|]. rewrite Ha in Ea. injection Ea as <-.
  exists b. split; [exact Eb|]. assert (LatencyHist.max [30; 10; 20; 40] = 40) by (vm_compute; reflexivity). lia.
Defined.
