(* ===== verification/Averages.v ===== *)
(** The volume-weighted prices of the trade tape (include/book/tape.hpp) and the mean of a histogram
    (include/core/latency_hist.hpp) in the arithmetic they are computed in.  The sums are in the
    extended format, where they are exact up to 2^64; the quotient, its conversion to [double] and
    the division by the price scale round once each. *)
From stdpp Require Import strings.
From S2P Require Export Doubles.

#[local] Open Scope Q_scope.

(** * Notionals *)

#[local] Close Scope Q_scope.
#[local] Open Scope Z_scope.

Definition trade_ok (x : trade) : Prop := 0 ≤ t_px x < 2 ^ 32 ∧ 0 ≤ t_qty x < 2 ^ 32.

Definition exact_notional (l : list trade) : Z := foldr (λ x n, t_px x * t_qty x + n) 0 l.

Lemma exact_notional_snoc l x : exact_notional (l ++ [x]) = exact_notional l + t_px x * t_qty x.
Proof. unfold exact_notional. induction l as [|y l IH]; simpl in *; lia. Qed.

Lemma exact_notional_nonneg l : Forall trade_ok l → 0 ≤ exact_notional l.
Proof. unfold exact_notional. induction 1 as [|x l [? ?] _ IH]; simpl; nia. Qed.

Lemma exact_notional_app l k : exact_notional (l ++ k) = exact_notional l + exact_notional k.
Proof. unfold exact_notional. induction l as [|y l IH]; simpl in *; lia. Qed.

Lemma total_qty_nonneg l : Forall trade_ok l → 0 ≤ total_qty l.
Proof. induction 1 as [|x l [_ ?] _ IH]; simpl; lia. Qed.

Lemma notional_between lo hi l :
  Forall trade_ok l → Forall (λ x, lo ≤ t_px x ≤ hi) l → lo * total_qty l ≤ exact_notional l ≤ hi * total_qty l.
Proof. unfold exact_notional. intros Hl. induction Hl as [|x l [? ?] _ IH]; intros Hb; simpl; [lia|]. apply Forall_cons in Hb as [? ?]. specialize (IH ltac:(done)). nia. Qed.

(** The sum is exact while it fits 64 bits. *)
Lemma notional_exact l :
  Forall trade_ok l → exact_notional l ≤ 2 ^ 64 →
  finite (notional ieee_floats l) = true ∧ (val (notional ieee_floats l) == inject_Z (exact_notional l))%Q.
Proof.
  induction l as [|x l IH] using rev_ind; [by split|]. intros [Hl Hx]%Forall_app Hn. apply Forall_singleton in Hx as [Hp Hq].
  rewrite exact_notional_snoc in Hn |- *. pose proof (exact_notional_nonneg l Hl). destruct IH as [Fn En]; [done|nia|]. rewrite notional_snoc.
  destruct (ext_exact (t_px x)) as [F1 E1]; [lia|]. destruct (ext_exact (t_qty x)) as [F2 E2]; [lia|].
  assert (Hm : finite (fmul x87_extended (of_Z x87_extended (t_px x)) (of_Z x87_extended (t_qty x))) = true ∧
    (val (fmul x87_extended (of_Z x87_extended (t_px x)) (of_Z x87_extended (t_qty x))) == inject_Z (t_px x * t_qty x))%Q).
  { destruct (fmul_between x87_extended x87_ok _ _ (inject_Z (t_px x * t_qty x)) (inject_Z (t_px x * t_qty x)) F1 F2) as [F E]; [apply num_ext; nia..| |].
    - rewrite E1, E2, inject_Z_mult. lra.
    - split; [done|lra]. }
  destruct Hm as [Fm Em]. set (m := fmul x87_extended _ _) in *.
  destruct (fadd_between x87_extended x87_ok (notional ieee_floats l) m (inject_Z (exact_notional l + t_px x * t_qty x))
    (inject_Z (exact_notional l + t_px x * t_qty x)) Fn Fm) as [F E]; [apply num_ext; nia..| |].
  - rewrite En, Em, inject_Z_plus. lra.
  - split; [done|]. cbn [ld_add ld_mul ieee_floats Tape.ld_add Tape.ld_mul]. fold m. lra.
Qed.

(** * Averages *)

#[local] Close Scope Z_scope.
#[local] Open Scope Q_scope.

(** The relative distance by which an average may miss: three roundings. *)

Definition slack : Q := pow2 (-52) + pow2 (-63).

Section Average.
Context (n : fl) (N V lo hi : Z).
Hypotheses (Fn : finite n = true) (En : val n == inject_Z N).
Hypotheses (Hb : (lo * V ≤ N ≤ hi * V)%Z) (HV : (0 < V < 2 ^ 64)%Z) (Hlo : (0 ≤ lo)%Z) (Hhi : (hi ≤ 2 ^ 53)%Z).

Let mean : Q := inject_Z N / inject_Z V.

Lemma mean_range : inject_Z lo <= mean <= inject_Z hi ∧ at_least 64 mean.
Proof using Hb HV Hlo.
  assert (H0 : (0 ≤ N)%Z) by (clear - Hb HV Hlo; nia). destruct Hb as [H1 H2]. assert (Hv : 0 < inject_Z V) by (apply (injZ_lt 0), HV).
  unfold mean. apply injZ_le in H1, H2. rewrite inject_Z_mult in H1, H2. split; [split; [by apply Qle_shift_div_l|by apply Qle_shift_div_r]|].
  destruct (Z.eq_dec N 0) as [E0|Hne]; [left; rewrite E0; unfold Qdiv; apply Qmult_0_l|right].
  apply Qle_shift_div_l; [done|]. apply Qle_trans with (pow2 (-64) * inject_Z (2 ^ 64)); [apply mult_le_l; [by vm_compute|apply injZ_le; lia]|].
  apply Qle_trans with 1; [by vm_compute|]. apply (injZ_le 1). lia.
Qed.

Lemma bounds_ordered : (0 ≤ lo ≤ hi)%Z ∧ 0 <= inject_Z lo.
Proof using Hb HV Hlo. split; [clear - Hb HV Hlo; nia|]. by apply (injZ_le 0). Qed.

(** The quotient in the extended format, and as a [double]. *)

Lemma quotient_ext :
  let r := fdiv x87_extended n (of_Z x87_extended V) in
  finite r = true ∧ inject_Z lo <= val r <= inject_Z hi ∧ within (pow2 (-64)) mean (val r).
Proof using All.
  cbv zeta. destruct (ext_exact V) as [Fv Ev]; [lia|]. destruct mean_range as [Hm Hz]. destruct bounds_ordered as [Hlh _].
  assert (H0 : ~ val (of_Z x87_extended V) == 0).
  { rewrite Ev. pose proof (injZ_lt 0 V ltac:(lia)) as H. change (inject_Z 0) with 0 in H. lra. }
  assert (Ex : val n / val (of_Z x87_extended V) == mean) by (unfold mean; by rewrite En, Ev).
  destruct (fdiv_between x87_extended x87_ok _ _ (inject_Z lo) (inject_Z hi) Fn Fv H0) as [F Hr]; [apply num_ext; lia..|by rewrite Ex|].
  split; [done|]. split; [done|]. rewrite fdiv_round by done. rewrite (round_proper x87_extended _ _ _ Ex).
  apply ext_round; [|apply Qle_trans with (inject_Z (2 ^ 53)); [apply Qle_trans with (inject_Z hi); [lra|by apply injZ_le]|by vm_compute]].
  destruct Hz as [?|Hz]; [by left|right]. apply Qle_trans with (pow2 (-64)); [by vm_compute|done].
Qed.

Lemma quotient_double :
  let d := convert binary64 (fdiv x87_extended n (of_Z x87_extended V)) in
  finite d = true ∧ inject_Z lo <= val d <= inject_Z hi ∧ within (pow2 (-64) + ulp + pow2 (-64) * ulp) mean (val d) ∧ at_least 66 (val d).
Proof using All.
  cbv zeta. destruct quotient_ext as (F1 & H1 & W1). destruct mean_range as [Hm Hz]. destruct bounds_ordered as [Hlh Hl0].
  set (r := fdiv x87_extended _ _) in *. assert (Hh : inject_Z hi <= inject_Z (2 ^ 53)) by (apply injZ_le; lia). rewrite convert_round by done.
  destruct (double_stage (sign r) (val r) 65) as (F2 & W2 & K2); [apply (at_least_within (pow2 (-64)) 64 mean); [by vm_compute|done|lra|done]|lia|lra|].
  destruct (round_between binary64 binary64_ok (sign r) (val r) (inject_Z lo) (inject_Z hi)) as [_ H2]; [apply num_Z; lia..|done|].
  split; [done|]. split; [done|]. split; [|done]. apply within_trans with (val r); [lra|by vm_compute|by vm_compute|done|done].
Qed.

(** Divided by the price scale: between the two prices in dollars, and three roundings away from the
    exact average. *)
Lemma quotient_dollars :
  (hi < 2 ^ 32)%Z →
  let a := fdiv binary64 (convert binary64 (fdiv x87_extended n (of_Z x87_extended V))) (of_Z binary64 kPriceScale) in
  finite a = true ∧ val (dollars64 lo) <= val a <= val (dollars64 hi) ∧ within slack (mean / 10000) (val a).
Proof using All.
  intros Hp. cbv zeta. destruct quotient_double as (F2 & H2 & W2 & K2). destruct mean_range as [Hm Hz]. destruct bounds_ordered as [Hlh Hl0].
  set (d := convert binary64 _) in *. change kPriceScale with 10000%Z. assert (Hh : inject_Z hi <= inject_Z (2 ^ 53)) by (apply injZ_le; lia).
  rewrite fdiv_round; [|done|done|by rewrite tenk]. set (sg := xorb _ _).
  rewrite (round_proper binary64 sg (val d / val (of_Z binary64 10000)) (val d / 10000)) by (by rewrite tenk).
  assert (Hs : ∀ x y, x <= y → x / 10000 <= y / 10000) by (intros; apply Qmult_le_compat_r; [done|by vm_compute]).
  destruct (double_stage sg (val d / 10000) 80) as (F3 & W3 & _); [by apply (at_least_scaled 66)|lia| |].
  { apply Qle_trans with (val d); [|lra]. apply Qle_shift_div_r; [done|]. lra. }
  assert (Plo : price_range lo) by (unfold price_range; lia). assert (Phi : price_range hi) by (unfold price_range; lia).
  destruct (dollars64_spec lo Plo) as (Fl & _). destruct (dollars64_spec hi Phi) as (Fh & _). rewrite !dollars64_exact in * by done.
  split; [done|]. split; [split; apply round_mono; try done; by apply Hs, H2|]. destruct W2 as [W4 W5]. apply Hs in W4, W5.
  apply within_mono with ((pow2 (-64) + ulp + pow2 (-64) * ulp) + ulp + (pow2 (-64) + ulp + pow2 (-64) * ulp) * ulp); [apply Qle_shift_div_l; lra|by vm_compute|].
  apply within_trans with (val d / 10000); [apply Qle_shift_div_l; lra|by vm_compute|by vm_compute| |done]. unfold Qdiv in *. split; lra.
Qed.
End Average.

(** The average price of some trades, all between [lo] and [hi]. *)
Lemma average_ieee l lo hi :
  Forall trade_ok l → Forall (λ x, lo ≤ t_px x ≤ hi)%Z l → (0 ≤ lo)%Z → (hi < 2 ^ 32)%Z → (0 < total_qty l < 2 ^ 64)%Z → (exact_notional l ≤ 2 ^ 64)%Z →
  let a := average ieee_floats (total_qty l) (notional ieee_floats l) in
  finite a = true ∧ val (dollars64 lo) <= val a <= val (dollars64 hi) ∧
  within slack (inject_Z (exact_notional l) / inject_Z (total_qty l) / 10000) (val a).
Proof.
  intros Hok Hin Hlo Hhi Hq Hn. cbv zeta. unfold average. destruct (Z.eqb_spec (total_qty l) 0); [lia|]. destruct (notional_exact l Hok Hn) as [Fn En].
  apply quotient_dollars; try done; [by apply notional_between|lia].
Qed.

(** * The mean of a histogram *)

#[local] Close Scope Q_scope.
#[local] Open Scope Z_scope.

(** [LatencyHist::mean], with the sum in the extended format. *)

Definition mean64 (h : LatencyHist) : fl :=
  LatencyHist.mean (Zero false) (λ s v, fadd x87_extended s (of_Z x87_extended v)) (λ s n, fdiv x87_extended s (of_Z x87_extended n))
    (convert binary64) (Zero false) h.

Definition sum_of (h : LatencyHist) : Z := foldr Z.add 0 h.

Lemma sum_exact h :
  Forall (Z.le 0) h → sum_of h ≤ 2 ^ 64 →
  let s := foldl (λ s v, fadd x87_extended s (of_Z x87_extended v)) (Zero false) h in finite s = true ∧ (val s == inject_Z (sum_of h))%Q.
Proof.
  cbv zeta. induction h as [|v h IH] using rev_ind; [by split|]. intros [Hh Hv]%Forall_app Hs. apply Forall_cons in Hv as [Hv _].
  assert (E : sum_of (h ++ [v]) = sum_of h + v) by (clear; unfold sum_of; induction h as [|x h IH]; simpl in *; lia). rewrite E in Hs |- *.
  assert (H0 : 0 ≤ sum_of h) by (clear - Hh; unfold sum_of; induction Hh; simpl in *; lia). destruct IH as [F1 E1]; [done|lia|]. rewrite foldl_snoc.
  set (s := foldl _ _ h) in *. destruct (ext_exact v) as [F2 E2]; [lia|].
  destruct (fadd_between x87_extended x87_ok s (of_Z x87_extended v) (inject_Z (sum_of h + v)) (inject_Z (sum_of h + v)) F1 F2) as [F H]; [apply num_ext; lia..| |].
  - rewrite E1, E2, inject_Z_plus. lra.
  - split; [done|lra].
Qed.

(** The reported mean lies between the smallest and the largest sample, and misses the exact mean by
    two roundings; 2^53 nanoseconds are a hundred days. *)
Lemma mean_ieee h lo hi :
  h ≠ [] → 0 ≤ lo → hi ≤ 2 ^ 53 → Forall (λ v, lo ≤ v ≤ hi) h → zlen h < 2 ^ 64 → sum_of h ≤ 2 ^ 64 →
  finite (mean64 h) = true ∧ (inject_Z lo <= val (mean64 h) <= inject_Z hi)%Q ∧
  within (pow2 (-52)) (inject_Z (sum_of h) / inject_Z (zlen h))%Q (val (mean64 h)).
Proof.
  intros Hne Hlo Hhi Hh Hz Hs. destruct (sum_exact h) as [F E]; [eapply Forall_impl; [exact Hh|]; cbv beta; lia|done|].
  assert (Hb : lo * zlen h ≤ sum_of h ≤ hi * zlen h).
  { clear - Hh. unfold sum_of. induction Hh as [|v h Hv _ IH]; [change (zlen (@nil Z)) with 0; simpl; lia|]. rewrite zlen_cons. simpl. lia. }
  assert (Hp : 0 < zlen h) by (destruct h; [done|]; rewrite zlen_cons; pose proof (zlen_nonneg h); lia).
  destruct (quotient_double _ _ (zlen h) lo hi F E Hb ltac:(lia) Hlo Hhi) as (H1 & H2 & H3 & _).
  assert (Em : mean64 h = convert binary64 (fdiv x87_extended (foldl (λ s v, fadd x87_extended s (of_Z x87_extended v)) (Zero false) h) (of_Z x87_extended (zlen h))))
    by (by destruct h). rewrite Em. split; [done|]. split; [done|]. eapply within_mono; [| |exact H3]; [|by vm_compute].
  apply Qle_shift_div_l; [by apply (injZ_lt 0)|]. rewrite Qmult_0_l. apply (injZ_le 0). nia.
Qed.

(** * Runs *)

Lemma run_totals r rs :
  r ∈ rs → Forall trade_ok (mjoin rs) →
  Forall trade_ok r ∧ total_qty r ≤ total_qty (mjoin rs) ∧ exact_notional r ≤ exact_notional (mjoin rs).
Proof.
  induction rs as [|r' rs IH]; [by intros ?%elem_of_nil|]. change (mjoin (r' :: rs)) with (r' ++ mjoin rs). rewrite total_qty_app, exact_notional_app.
  intros [->|Hr]%elem_of_cons [H1 H2]%Forall_app.
  - pose proof (total_qty_nonneg _ H2). pose proof (exact_notional_nonneg _ H2). split; [done|lia].
  - pose proof (total_qty_nonneg _ H1). pose proof (exact_notional_nonneg _ H1). destruct (IH Hr H2) as (? & ? & ?). split; [done|lia].
Qed.

Lemma extremes_bound x k : Forall (λ y, foldr Z.min (t_px x) (t_px <$> k) ≤ t_px y ≤ foldr Z.max (t_px x) (t_px <$> k)) (x :: k).
Proof.
  assert (Hx : foldr Z.min (t_px x) (t_px <$> k) ≤ t_px x ≤ foldr Z.max (t_px x) (t_px <$> k))
    by (induction k as [|y k IH]; [simpl; lia|]; cbn [fmap list_fmap foldr] in *; lia).
  constructor; [done|]. clear Hx. induction k as [|y k IH]; [constructor|]. cbn [fmap list_fmap foldr]. constructor; [lia|].
  eapply Forall_impl; [exact IH|]. cbv beta. lia.
Qed.

Lemma extremes_range x k :
  Forall trade_ok (x :: k) → 0 ≤ foldr Z.min (t_px x) (t_px <$> k) ∧ foldr Z.max (t_px x) (t_px <$> k) < 2 ^ 32.
Proof.
  intros [[Hx _] Hk]%Forall_cons. induction Hk as [|y k [Hy _] _ IH]; [done|]. cbn [fmap list_fmap foldr]. lia.
Qed.

(** The average of some trades as the program reports it. *)

Definition good_average (r : list trade) (lo hi : Z) (a : fl) : Prop :=
  finite a = true ∧ (val (to_dollars lo) <= val a <= val (to_dollars hi))%Q ∧
  within slack (inject_Z (exact_notional r) / inject_Z (total_qty r) / 10000)%Q (val a).

(** C25: The volume-weighted prices of the tape in the program's arithmetic.  For any trades with
    32-bit prices and quantities whose notional and volume stay below 2^64: the cumulative average
    is a finite double, never below the lowest price traded in dollars nor above the highest, and
    off the exact average by a relative error of at most 2^-52 + 2^-63; it is zero if nothing was traded; and the same
    holds of every bar, with the low and the high of the bar, for the trades of its bucket. *)
Theorem tape_vwap_ieee iv0 l :
  Forall trade_ok l → exact_notional l ≤ 2 ^ 64 → total_qty l < 2 ^ 64 →
  let iv := if iv0 =? 0 then 1 else iv0 in
  let t := on_trades ieee_floats (make_tape ieee_floats iv0) l in
  (total_qty l = 0 → vwap_ ieee_floats t = Zero false) ∧
  (0 < total_qty l → ∀ lo hi, 0 ≤ lo → hi < 2 ^ 32 → Forall (λ x, lo ≤ t_px x ≤ hi) l → good_average l lo hi (vwap_ ieee_floats t)) ∧
  Forall2 (λ r b, (total_qty r = 0 → vwap ieee_floats b = Zero false) ∧
      (0 < total_qty r → good_average r (low ieee_floats b) (high ieee_floats b) (vwap ieee_floats b)))
    (runs iv l) (bars ieee_floats t true).
Proof.
  intros Hok Hn Hq iv t. destruct (on_trades_rep ieee_floats iv0 l) as [_ Hv Ht _ _]. fold t in Hv, Ht. pose proof (total_qty_nonneg l Hok) as H0.
  unfold vwap_. rewrite Hv, Ht. rewrite (u64_small (total_qty l)) by lia.
  split; [intros ->; done|]. split; [intros Hp lo hi Hlo Hhi Hin; by apply average_ieee|].
  destruct (bars_of_runs ieee_floats iv0 l) as (Eb & _ & _). fold iv t in Eb. rewrite Eb. destruct (runs_partition iv l) as [Hj Hne].
  apply Forall2_fmap_r, Forall_Forall2_diag, Forall_forall. intros r Hr. rewrite <- Hj in Hok, Hn, Hq. destruct (run_totals r _ Hr Hok) as (Hr1 & Hr2 & Hr3).
  rewrite Forall_forall in Hne. specialize (Hne r Hr). destruct r as [|x k]; [done|]. pose proof (total_qty_nonneg _ Hr1). unfold run_bar, bar_of, compose.
  cbn [vwap low high]. rewrite u64_small by lia. split; [intros ->; done|]. intros Hp. destruct (extremes_range x k Hr1). apply average_ieee; [done|apply extremes_bound|done|done|lia|lia].
Qed.

(** A price that ends in a third of a cent. *)
Lemma tape_vwap_ieee_witness :
  let t := on_trades ieee_floats (make_tape ieee_floats 1000) [mkTrade 1000000 1 10; mkTrade 1000001 2 20; mkTrade 999999 5 3000] in
  good_average [mkTrade 1000000 1 10; mkTrade 1000001 2 20; mkTrade 999999 5 3000] 999999 1000001 (vwap_ ieee_floats t) ∧
  length (bars ieee_floats t true) = 2%nat.
Proof.
  destruct (tape_vwap_ieee 1000 [mkTrade 1000000 1 10; mkTrade 1000001 2 20; mkTrade 999999 5 3000]) as (_ & H & Hb).
  - repeat constructor; cbn; lia.
  - vm_compute. discriminate.
  - vm_compute. reflexivity.
  - split; [apply H; [vm_compute; reflexivity|lia|lia|repeat constructor; cbn; lia]|vm_compute; reflexivity].
Defined.
