(* ===== verification/Quotes.v ===== *)
(** The example strategy (include/mt5/strategy.hpp) on quotes in binary64: it follows its rule except
    within the rounding errors of two mid prices and their difference around the step, and a move
    of exactly the default step can go unnoticed. *)
From stdpp Require Import strings.
From S2P Require Export Doubles Bridge.

#[local] Open Scope Q_scope.

(** * Absolute errors *)

Definition close (d x y : Q) : Prop := - d <= y - x <= d.

Lemma round_close s x M d :
  - M <= x <= M → M <= inject_Z (2 ^ 53) → ulp * M + pow2 (-1022) <= d →
  finite (round binary64 s x) = true ∧ close d x (val (round binary64 s x)).
Proof.
  intros Hx HM Hd. pose proof ulp_range as Hu. pose proof (pow2_pos (-1022)) as Hp.
  assert (F : ∀ t y, - M <= y <= M → finite (round binary64 t y) = true).
  { intros t y Hy. apply (round_finite binary64 binary64_ok t y (- inject_Z (2 ^ 53)) (inject_Z (2 ^ 53))); [|by apply num_Z|lra].
    apply number_opp; by apply num_Z. }
  assert (Hrel : ∀ t y, pow2 (-1022) <= y → y <= M → close d y (val (round binary64 t y))).
  { intros t y Hy HyM. pose proof (round_rel binary64 binary64_ok t y Hy (F t y ltac:(lra))) as Hr. change (pow2 (- prec binary64)) with ulp in Hr.
    pose proof (mult_le_l ulp y M ltac:(lra) HyM). unfold close. lra. }
  split; [by apply F|]. destruct (Qlt_le_dec x (pow2 (-1022))) as [H1|H1]; [|apply Hrel; [done|lra]].
  destruct (Qlt_le_dec (- pow2 (-1022)) x) as [H2|H2].
  - pose proof (round_near binary64 binary64_ok s x 0 (F s x Hx) ltac:(by apply (num_Z 0))) as Hn. unfold close.
    assert (Ha : Qabs (0 - x) <= pow2 (-1022)) by (apply Qabs_Qle_condition; lra). assert (0 <= ulp * M) by (apply Qmult_le_0_compat; lra).
    assert (Hb : Qabs (val (round binary64 s x) - x) <= d) by lra. by apply Qabs_Qle_condition in Hb.
  - pose proof (Hrel false (- x) ltac:(lra) ltac:(lra)) as Hc. unfold close in *.
    rewrite (round_opp binary64 binary64_ok false s x) in Hc by (apply F; lra). lra.
Qed.

Lemma fge_val x y : finite x = true → finite y = true → fge x y = true ↔ val y <= val x.
Proof.
  intros Hx Hy. assert (E : fge x y = negb match Qcompare (val x) (val y) with Lt => true | _ => false end) by (by destruct x, y).
  rewrite E. destruct (Qcompare_spec (val x) (val y)); split; (done || lra).
Qed.

(** * Mid prices *)

Definition max_quote : Q := inject_Z (2 ^ 20).

Definition quote_ok (t : Tick fl) : Prop :=
  finite (t_bid t) = true ∧ finite (t_ask t) = true ∧ 0 <= val (t_bid t) <= max_quote ∧ 0 <= val (t_ask t) <= max_quote.

Definition exact_mid (t : Tick fl) : Q := (1 # 2) * (val (t_bid t) + val (t_ask t)).

Definition mid64 (t : Tick fl) : fl := fmul binary64 double_half (fadd binary64 (t_bid t) (t_ask t)).

Lemma mid64_close t : quote_ok t → finite (mid64 t) = true ∧ close (pow2 (-30)) (exact_mid t) (val (mid64 t)) ∧ 0 <= exact_mid t <= max_quote.
Proof.
  intros (Fb & Fa & Hb & Ha). unfold mid64, exact_mid.
  destruct (round_close (sign (t_bid t) && sign (t_ask t)) (val (t_bid t) + val (t_ask t)) (inject_Z (2 ^ 21)) (pow2 (-31))) as [Fs Cs];
    [change (inject_Z (2 ^ 21)) with (max_quote + max_quote); lra|by vm_compute|by vm_compute|].
  rewrite <- fadd_round in Fs, Cs by done. set (s := fadd binary64 _ _) in *. unfold close in Cs.
  assert (Hs : pow2 (-31) <= 1) by (by vm_compute). pose proof half_val as Eh.
  assert (Hm : max_quote + 1 <= inject_Z (2 ^ 21)) by (by vm_compute).
  destruct (round_close (xorb (sign double_half) (sign s)) (val double_half * val s) (inject_Z (2 ^ 21)) (pow2 (-32) + pow2 (-1022))) as [Fm Cm];
    [rewrite Eh; lra|by vm_compute|by vm_compute|].
  rewrite <- fmul_round in Fm, Cm by done. split; [done|]. split; [|lra]. unfold close in *. rewrite Eh in Cm.
  assert ((1 # 2) * pow2 (-31) + (pow2 (-32) + pow2 (-1022)) <= pow2 (-30)) by (by vm_compute). lra.
Qed.

(** The difference of two mids, off by less than a hundred-millionth. *)

Definition tolerance : Q := pow2 (-28).

Lemma move_close t t' :
  quote_ok t → quote_ok t' →
  let d := fsub binary64 (mid64 t') (mid64 t) in finite d = true ∧ close tolerance (exact_mid t' - exact_mid t) (val d).
Proof.
  intros Ht Ht'. destruct (mid64_close t Ht) as (F & C & B), (mid64_close t' Ht') as (F' & C' & B'). unfold close in *. cbv zeta.
  assert (Hm : max_quote + pow2 (-30) + pow2 (-30) <= inject_Z (2 ^ 21)) by (by vm_compute). assert (Hp : 0 < pow2 (-30)) by apply pow2_pos.
  rewrite fsub_round by done. rewrite (round_proper binary64 _ (val (mid64 t') + val (fneg (mid64 t))) (val (mid64 t') - val (mid64 t))) by (by rewrite val_fneg).
  destruct (round_close (sign (mid64 t') && negb (sign (mid64 t))) (val (mid64 t') - val (mid64 t)) (inject_Z (2 ^ 21)) (pow2 (-30))) as [Fd Cd];
    [lra|by vm_compute|by vm_compute|].
  split; [done|]. unfold close in Cd. assert (3 * pow2 (-30) <= tolerance) by (by vm_compute). lra.
Qed.

(** * The rule *)

(** Once primed by a quote, the strategy buys on a rise of the exact mid by the step and sells on a
    fall by the step, up to the tolerance, and otherwise leaves the order alone. *)
Theorem strategy_follows_rule (s : ExampleStrategy fl) (t t' : Tick fl) (out out' : Order fl) :
  quote_ok t → quote_ok t' → finite (step_ s) = true → 0 < val (step_ s) →
  let s1 := (example_on_tick s t out).2 in
  let r := example_on_tick s1 t' out' in
  let rise := exact_mid t' - exact_mid t in
  (val (step_ s) + tolerance <= rise → r.1 = (true, make s (t_symbol t') Buy)) ∧
  (val (step_ s) + tolerance <= - rise → r.1 = (true, make s (t_symbol t') Sell)) ∧
  (Qabs rise + tolerance < val (step_ s) → r.1 = (false, out')).
Proof.
  intros Ht Ht' Fs Hs s1 r rise.
  assert (E1 : s1 = mkStrategy (mid64 t) true (step_ s) (lots_ s)) by (unfold s1, example_on_tick; by destruct (if primed_ s then _ else _)).
  destruct (move_close t t' Ht Ht') as [F1 C1], (move_close t' t Ht' Ht) as [F2 C2]. unfold close in *. fold rise in C1.
  assert (C2' : - tolerance <= val (fsub binary64 (mid64 t) (mid64 t')) + rise <= tolerance) by (unfold rise; lra). clear C2.
  assert (Er : r.1 = if fge (fsub binary64 (mid64 t') (mid64 t)) (step_ s) then (true, make s (t_symbol t') Buy)
    else if fge (fsub binary64 (mid64 t) (mid64 t')) (step_ s) then (true, make s (t_symbol t') Sell) else (false, out')).
  { unfold r. rewrite E1. unfold example_on_tick. cbn [primed_ prev_mid_ step_]. unfold Bridge.d_ge, Bridge.d_sub, Bridge.d_half, Bridge.d_add, double_arith.
    fold (mid64 t'). by repeat destruct (fge _ _). }
  pose proof (fge_val _ _ F1 Fs) as G1. pose proof (fge_val _ _ F2 Fs) as G2. rewrite Er. clear Er E1. unfold tolerance in *. pose proof (pow2_pos (-28)) as Hp.
  split; [|split].
  - intros H. by rewrite (proj2 G1) by lra.
  - intros H. destruct (fge (fsub binary64 (mid64 t') (mid64 t)) (step_ s)); [pose proof (proj1 G1 eq_refl); lra|]. by rewrite (proj2 G2) by lra.
  - intros H. pose proof (Qle_Qabs rise). pose proof (Qle_Qabs (- rise)) as Ha. rewrite Qabs_opp in Ha.
    destruct (fge (fsub binary64 (mid64 t') (mid64 t)) (step_ s)); [pose proof (proj1 G1 eq_refl); lra|].
    destruct (fge (fsub binary64 (mid64 t) (mid64 t')) (step_ s)); [pose proof (proj1 G2 eq_refl); lra|done].
Qed.

(** The default step and lots, and a quote in pips around a mid. *)

Definition default_strategy : ExampleStrategy fl := example_strategy (dbl (1 # 1000)) (dbl (1 # 10)).

Definition quote (mid : Z) : Tick fl := mkTick (lit "EURUSD") 0 (dbl ((mid - 1) # 10000)) (dbl ((mid + 1) # 10000)) (dbl (mid # 10000)) 0.

(** From 1.0800 to 1.0810 is a rise by the step of 0.0010, on which the rule says to buy; the
    difference of the two doubles is below the double of the step, and nothing is sent.  One tick
    more is enough. *)
Lemma exact_step_unnoticed :
  let s1 := (example_on_tick default_strategy (quote 10800) order0).2 in
  (example_on_tick s1 (quote 10810) order0).1.1 = false ∧ (example_on_tick s1 (quote 10811) order0).1.1 = true.
Proof. vm_compute. done. Qed.

Lemma strategy_follows_rule_witness :
  let s1 := (example_on_tick default_strategy (quote 10835) order0).2 in
  (example_on_tick s1 (quote 10855) order0).1 = (true, make default_strategy (lit "EURUSD") Buy).
Proof.
  destruct (strategy_follows_rule default_strategy (quote 10835) (quote 10855) order0 order0) as (H & _);
    [unfold quote_ok; by vm_compute..|by vm_compute|by vm_compute|].
  apply H. by vm_compute.
Defined.
