(* ===== verification/Apps.v ===== *)
(** The drivers that work on a framed capture: the fuzz target (fuzz/decode_fuzz.cpp), the passes
    of obreplay over a capture (apps/obreplay.cpp) and the receiver mdrecv
    (apps/mdrecv.cpp).  Clock readings, sockets and the order of hash tables are arguments;
    the mains around these passes are in [Obreplay] and [Mdrecv]. *)
From stdpp Require Import strings.
From S2P Require Export Pipeline Tape LatencyHist.
From S2P Require Import Mold.

#[local] Open Scope list_scope.
#[local] Open Scope Z_scope.

(** * Loops over records

    Several drivers repeat the loop of the deframer with a body of their own, which sees the
    buffer behind the length bytes and the length, also of records that do not decode; some
    stop early ([go]). *)

Section RecordLoop.
Context {S : Type} (go : S → bool) (visit : S → list Z → Z → option S).

Fixpoint record_loop (fuel : nat) (buf : list Z) (len off : Z) (s : S) : option S :=
  match fuel with
  | O => None
  | Datatypes.S fuel =>
      if (u64 (off + 2) <=? len) && go s then
        b0 ← buf.[off];
        b1 ← buf.[off + 1];
        let mlen := Z.lor (Z.shiftl b0 8) b1 in
        if (mlen =? 0) || (len <? u64 (off + 2 + mlen)) then Some s
        else
          s' ← visit s (drop (Z.to_nat (off + 2)) buf) mlen;
          record_loop fuel buf len (u64 (off + (2 + mlen))) s'
      else Some s
  end.

Definition each_record (buf : list Z) (s : S) : option S :=
  record_loop (Datatypes.S (length buf)) buf (zlen buf) 0 s.

(** The same over a list of record bodies. *)

Fixpoint visits (s : S) (bodies : list (list Z)) : option S :=
  match bodies with
  | [] => Some s
  | b :: bodies => if go s then s' ← visit s b (zlen b); visits s' bodies else Some s
  end.

(** The body of the loop reads its record only. *)

Definition local_visit : Prop :=
  ∀ s body rest, bytes_ok body → visit s (body ++ rest) (zlen body) = visit s body (zlen body).

Lemma record_loop_stopped fuel buf off s : go s = false → record_loop (Datatypes.S fuel) buf (zlen buf) off s = Some s.
Proof. intros Hg. cbn [record_loop]. by rewrite Hg, andb_false_r. Qed.

Lemma visits_stopped s bodies : go s = false → visits s bodies = Some s.
Proof. intros Hg. destruct bodies; [done|]. cbn [visits]. by rewrite Hg. Qed.

Lemma record_loop_spec fuel pre rest :
  local_visit → (length rest < fuel)%nat → bytes_ok rest → zlen (pre ++ rest) < 2 ^ 63 →
  ∃ bodies tail, rest = frames bodies ++ tail ∧ Forall body_ok bodies ∧ stopping tail ∧
    ∀ s, record_loop fuel (pre ++ rest) (zlen (pre ++ rest)) (zlen pre) s = visits s bodies.
Proof.
  intros Hloc. revert pre rest. induction fuel as [|fuel IH]; intros pre rest Hf Hok Hlen; [lia|].
  pose proof (zlen_nonneg pre). pose proof (zlen_nonneg rest).
  destruct (stopping_dec_cases rest Hok) as [Hst|(body & rest' & -> & Hb)].
  - exists [], rest. split_and!; [done|constructor|done|]. intros s. cbn [record_loop visits].
    rewrite zlen_app in *. rewrite (u64_small (zlen pre + 2)) by lia.
    destruct (Z.leb_spec (zlen pre + 2) (zlen pre + zlen rest)); [|done]. destruct (go s); [|done]. cbn [andb].
    destruct (stop_head pre rest Hok Hst) as [?|(b0 & b1 & -> & -> & Hn & Hs)]; [lia|]. cbn [mbind option_bind].
    rewrite u64_small by lia. destruct (Z.eqb_spec (Z.lor (Z.shiftl b0 8) b1) 0); [done|]. cbn [orb].
    destruct (Z.ltb_spec (zlen pre + zlen rest) (zlen pre + 2 + Z.lor (Z.shiftl b0 8) b1)); [done|lia].
  - apply Forall_app in Hok as [[_ Hbok]%Forall_app Hok].
    assert (Hl : (length rest' < fuel)%nat) by (rewrite length_app in Hf; simpl in Hf; lia).
    destruct (IH (pre ++ record body) rest' Hl Hok) as (bodies & tail & -> & Hbs & Hst & Heq); [by rewrite <- app_assoc|].
    exists (body :: bodies), tail. split_and!; [by rewrite frames_cons, <- app_assoc|by constructor|done|].
    intros s. destruct (record_head pre body (frames bodies ++ tail) Hb) as (b0 & b1 & E0 & E1 & Ev & Hd & Hz).
    destruct Hb as [Hpos Hlt]. rewrite <- app_assoc in Heq. set (buf := pre ++ record body ++ frames bodies ++ tail) in *.
    pose proof (zlen_nonneg (frames bodies ++ tail)). cbn [visits]. destruct (go s) eqn:Hg; [|by apply record_loop_stopped].
    cbn [record_loop]. rewrite Hg, (u64_small (zlen pre + 2)) by lia.
    destruct (Z.leb_spec (zlen pre + 2) (zlen buf)); [|lia]. cbn [andb]. rewrite E0, E1. cbn [mbind option_bind]. rewrite Ev, Hd.
    rewrite (u64_small (_ + 2 + _)) by lia. destruct (Z.eqb_spec (zlen body) 0); [lia|]. cbn [orb].
    destruct (Z.ltb_spec (zlen buf) (zlen pre + 2 + zlen body)); [lia|]. rewrite Hloc by done.
    destruct (visit s body (zlen body)) as [s'|]; [|done]. cbn [mbind option_bind].
    rewrite (u64_small (_ + (2 + _))) by lia. rewrite <- (Heq s'). by rewrite (zlen_app pre), record_zlen.
Qed.

Lemma each_record_spec buf :
  local_visit → bytes_ok buf → zlen buf < 2 ^ 63 →
  ∃ bodies tail, buf = frames bodies ++ tail ∧ Forall body_ok bodies ∧ stopping tail ∧ ∀ s, each_record buf s = visits s bodies.
Proof.
  intros Hloc Hok Hlen. destruct (record_loop_spec (Datatypes.S (length buf)) [] buf Hloc) as (bs & t & E & H1 & H2 & H3); [lia|done|done|].
  by exists bs, t.
Qed.
End RecordLoop.

(** * The fuzz target *)

Definition LLVMFuzzerTestOneInput (data : list Z) : option Z :=
  bs ← for_each_framed_message BookSet.apply data (zlen data) set0;
  if 0 <? zlen data then r ← Itch.decode (Some data) (zlen data) message0; Some 0 else Some 0.

(** * obreplay *)

(** The timed pass is [replay_set] (one thread) or [replay_sharded].  The tapes, one per locate,
    are filled from the trades: *)

Section Tapes.
Context (fl : floats).

Definition is_trade (t : MsgType) : bool := match t with Trade | CrossTrade => true | _ => false end.

Definition tape_sink (tapes : gmap Z (Tape fl)) (m : Message) : option (gmap Z (Tape fl)) :=
  if is_trade (type m) then
    let t := default (make_tape fl 1000000) (tapes !! stock_locate m) in
    Some (<[stock_locate m := on_trade fl t (price m) (shares m) (timestamp m)]> tapes)
  else Some tapes.

Definition fill_tapes (data : list Z) : option (gmap Z (Tape fl)) :=
  r ← for_each_framed_message tape_sink data (zlen data) ∅; Some r.2.

End Tapes.

(** The latency pass: [clock k] is the time measured around message [k]. *)

Definition latency_visit (clock : Z → Z) (s : BookSet * LatencyHist) (tail : list Z) (mlen : Z) :
    option (BookSet * LatencyHist) :=
  r ← Itch.decode (Some tail) mlen message0;
  bs ← (if (r.1 : bool) then BookSet.apply s.1 r.2 else Some s.1);
  Some (bs, LatencyHist.add s.2 (clock (LatencyHist.count s.2))).

Definition latency_pass (clock : Z → Z) (data : list Z) : option (BookSet * LatencyHist) :=
  each_record (λ _, true) (latency_visit clock) data (set0, []).

(** * mdrecv *)

(** [--self]: packetize a framed stream, eight messages to a datagram, and receive it. *)

Definition mdrecv_sink (b : BookSet) (seq : Z) (m : Message) : option BookSet := BookSet.apply b m.

Definition mdrecv_self (framed : list Z) : option (MoldSession * BookSet) :=
  packets ← packetize_mold (lit "HFTOB-SYN") framed (zlen framed) 8;
  on_packets mdrecv_sink mold0 packets set0.

(** [--listen]: the datagrams that arrive, each before the timeout where there is one, and then no
    more; each is cut at the 2048 bytes of the receive buffer.  [expires]: the next [recv] gives up
    after a while; otherwise it blocks, and with it the program.  An empty datagram ends the loop
    like a timeout. *)

Inductive listening : Type :=
  | Finished (s : MoldSession) (book : BookSet)
  | Blocked (s : MoldSession) (book : BookSet).

Fixpoint mdrecv_listen (expires : bool) (arriving : list (list Z)) (s : MoldSession) (book : BookSet) : option listening :=
  match arriving with
  | [] => Some (if expires then Finished s book else Blocked s book)
  | d :: arriving =>
      let buf := take 2048 d in
      if zlen buf <=? 0 then Some (Finished s book)
      else
        r ← on_packet mdrecv_sink s buf (zlen buf) book;
        if ended_ r.1 then Some (Finished r.1 r.2) else mdrecv_listen expires arriving r.1 r.2
  end.

(** * Properties *)

(** The fuzz target returns 0 on every input of up to 2^32 bytes: deframing, decoding and
    routing into books, and decoding the whole input as one message, never read outside the
    input and never access a level vector or a pool out of bounds. *)
Theorem fuzz_target_never_fails data :
  bytes_ok data → zlen data ≤ 2 ^ 32 → LLVMFuzzerTestOneInput data = Some 0.
Proof.
  intros Hok Hl. destruct (sink_calls_spec data Hok) as (ms & used & _ & Hms & Hn & Hall); [lia|].
  pose proof (zlen_nonneg ms). unfold LLVMFuzzerTestOneInput. rewrite Hall.
  destruct (apply_set_rep ms Hms) as (bs & E & _); [lia|]. unfold apply_set in E. rewrite E. cbn [mbind option_bind].
  destruct (decode_body_total data [] Hok) as (r & m & Ed & _). rewrite app_nil_r in Ed.
  destruct (0 <? zlen data); [by rewrite Ed|done].
Qed.

Lemma fuzz_target_never_fails_witness : LLVMFuzzerTestOneInput (record delete_bytes ++ [0; 0; 7]) = Some 0.
Proof.
  apply (fuzz_target_never_fails (record delete_bytes ++ [0; 0; 7])).
  - apply (bool_decide_unpack _). vm_compute. exact I.
  - vm_compute. discriminate.
Defined.

(** ** obreplay *)

Lemma latency_visit_local clock : local_visit (latency_visit clock).
Proof. intros s body rest Hok. unfold latency_visit. by rewrite decode_prefix. Qed.

(** The readings from message [k] on. *)

Fixpoint readings (clock : Z → Z) (n : nat) (k : Z) : list Z :=
  match n with O => [] | Datatypes.S n => clock k :: readings clock n (k + 1) end.

Lemma latency_visits clock bodies bs h :
  Forall bytes_ok bodies →
  visits (λ _, true) (latency_visit clock) (bs, h) bodies =
  bs' ← foldM BookSet.apply bs (messages bodies); Some (bs', h ++ readings clock (length bodies) (zlen h)).
Proof.
  intros Hok. revert bs h. induction Hok as [|b bodies Hb _ IH]; intros bs h; [simpl; by rewrite app_nil_r|].
  destruct (decode_body_total b [] Hb) as (r & m & Ed & Em). rewrite app_nil_r in Ed.
  assert (Ev : latency_visit clock (bs, h) b (zlen b) =
    bs1 ← (if r then BookSet.apply bs m else Some bs); Some (bs1, LatencyHist.add h (clock (LatencyHist.count h))))
    by (unfold latency_visit; by rewrite Ed).
  cbn [visits length readings]. rewrite Ev. unfold messages. cbn [omap list_omap]. rewrite Em.
  fold (messages bodies).
  assert (Hstep : ∀ bs1, visits (λ _, true) (latency_visit clock) (bs1, LatencyHist.add h (clock (LatencyHist.count h))) bodies =
    bs' ← foldM BookSet.apply bs1 (messages bodies); Some (bs', h ++ clock (zlen h) :: readings clock (length bodies) (zlen h + 1))).
  { intros bs1. rewrite IH. unfold LatencyHist.add, LatencyHist.count. rewrite zlen_app. change (zlen [clock (zlen h)]) with 1.
    by rewrite <- app_assoc. }
  destruct r; cbn [foldM mbind option_bind]; [|apply Hstep]. destruct (BookSet.apply bs m) as [bs1|]; [|done]. apply Hstep.
Qed.

Section TapeFacts.
Context (fl : floats).

(** The trades of one locate, in order. *)

Definition trades_at (loc : Z) (ms : list Message) : list trade :=
  (λ m, mkTrade (price m) (shares m) (timestamp m)) <$> filter (λ m, is_trade (type m) = true ∧ stock_locate m = loc) ms.

Definition tape_of (l : list trade) : option (Tape fl) :=
  match l with [] => None | _ => Some (on_trades fl (make_tape fl 1000000) l) end.

Lemma tape_fold ms :
  ∃ tapes, foldM (tape_sink fl) ∅ ms = Some tapes ∧ ∀ loc, tapes !! loc = tape_of (trades_at loc ms).
Proof.
  induction ms as [|m ms IH] using rev_ind; [exists ∅; split; [done|intros loc; by rewrite lookup_empty]|].
  destruct IH as (tapes & E & Ht). rewrite foldM_app, E. cbn [mbind option_bind foldM]. unfold tape_sink, trades_at.
  destruct (is_trade (type m)) eqn:Em; (eexists; split; [done|]); intros loc; rewrite filter_app, fmap_app.
  - destruct (decide (stock_locate m = loc)) as [<-|Hne].
    + rewrite lookup_insert_eq, Ht. rewrite (filter_cons_True _ m []) by done. fold (trades_at (stock_locate m) ms).
      unfold tape_of. destruct (trades_at (stock_locate m) ms) as [|x l]; [done|]. cbn [app]. f_equal. simpl default.
      rewrite app_comm_cons. unfold on_trades. by rewrite foldl_app.
    + rewrite lookup_insert_ne by done. rewrite Ht, (filter_cons_False _ m []) by tauto. by rewrite app_nil_r.
  - rewrite Ht, (filter_cons_False _ m []) by (intros [? _]; congruence). by rewrite app_nil_r.
Qed.
End TapeFacts.

(** The passes of obreplay agree: on every capture of up to 2^32 bytes the timed pass and the
    latency pass end, in bounds, with the same book set; the latency pass takes one reading
    per complete record, decodable or not, in order; and the tape of a locate is the tape of
    its trades in order, absent without one. *)
Theorem obreplay_passes_agree fl clock data :
  bytes_ok data → zlen data ≤ 2 ^ 32 →
  ∃ bodies tail bs tapes, data = frames bodies ++ tail ∧ Forall body_ok bodies ∧ stopping tail ∧
    apply_set set0 (messages bodies) = Some bs ∧
    replay_set data (zlen data) = Some (zlen (messages bodies), bs) ∧
    latency_pass clock data = Some (bs, readings clock (length bodies) 0) ∧
    fill_tapes fl data = Some tapes ∧ ∀ loc, tapes !! loc = tape_of fl (trades_at loc (messages bodies)).
Proof.
  intros Hok Hl.
  destruct (each_record_spec (λ _, true) (latency_visit clock) data (latency_visit_local clock) Hok ltac:(lia))
    as (bodies & tail & -> & Hb & Hst & Heach).
  apply Forall_app in Hok as [Hok Htok]. pose proof (frames_bytes_ok bodies Hok) as Hbok.
  destruct (messages_ok bodies Hbok) as [Hms Hn]. rewrite zlen_app in Hl. pose proof (zlen_nonneg tail).
  destruct (apply_set_rep (messages bodies) Hms) as (bs & Ebs & _); [lia|]. unfold apply_set in Ebs.
  destruct (tape_fold fl (messages bodies)) as (tapes & Et & Htapes).
  pose proof (zlen_nonneg (messages bodies)). exists bodies, tail, bs, tapes. split_and!; try done.
  - unfold replay_set. rewrite framed_roundtrip by (done || (rewrite zlen_app; lia)). rewrite Pipeline.set_fold by lia.
    rewrite Ebs. done.
  - unfold latency_pass. rewrite Heach, latency_visits by done. by rewrite Ebs.
  - unfold fill_tapes. rewrite framed_roundtrip by (done || (rewrite zlen_app; lia)). by rewrite Et.
Qed.

Lemma obreplay_passes_agree_witness :
  ∃ bs n, replay_set demo_stream (zlen demo_stream) = Some (n, bs) ∧ ∃ h, latency_pass id demo_stream = Some (bs, h).
Proof.
  destruct (obreplay_passes_agree exact_floats id demo_stream) as (bodies & tail & bs & tapes & _ & _ & _ & _ & E1 & E2 & _).
  - apply (bool_decide_unpack _). vm_compute. exact I.
  - vm_compute. discriminate.
  - exists bs, (zlen (messages bodies)). split; [exact E1|]. exists (readings id (length bodies) 0). exact E2.
Defined.

(** ** mdrecv *)

Lemma deliver_messages bs q bodies :
  deliver mdrecv_sink bs (numbered q bodies) = foldM BookSet.apply bs (messages bodies).
Proof.
  revert bs q. induction bodies as [|b bodies IH]; intros bs q; [done|]. cbn [numbered]. unfold messages. cbn [omap list_omap].
  fold (messages bodies). destruct (decode_body b) as [m|]; [|apply IH]. unfold deliver in *. cbn [foldM fst snd].
  unfold mdrecv_sink at 2. destruct (BookSet.apply bs m); [apply IH|done].
Qed.

Lemma numbered_messages q bodies : (numbered q bodies).*2 = messages bodies.
Proof.
  revert q. induction bodies as [|b bodies IH]; intros q; [done|]. cbn [numbered]. unfold messages. cbn [omap list_omap].
  fold (messages bodies). destruct (decode_body b); [|apply IH]. cbn. by rewrite IH.
Qed.

(** The two transports build the same books: packetizing any framed stream and receiving its
    datagrams ends in bounds with the book set that replaying the stream as a file gives,
    with as many messages and without a gap. *)
Theorem mdrecv_equals_file_replay bodies tail :
  Forall body_ok bodies → Forall bytes_ok bodies → bytes_ok tail → stopping tail → bodies ≠ [] →
  zlen (frames bodies ++ tail) ≤ 2 ^ 32 →
  ∃ s bs n, mdrecv_self (frames bodies ++ tail) = Some (s, bs) ∧
    replay_set (frames bodies ++ tail) (zlen (frames bodies ++ tail)) = Some (n, bs) ∧
    messages_ s = n ∧ gaps_ s = 0 ∧ expected_ s = 1 + zlen bodies.
Proof.
  intros Hb Hbok Htok Hst Hne Hl.
  destruct (mold_receive_all mdrecv_sink (lit "HFTOB-SYN") bodies tail 8 set0) as (ps & Ep & Er); [done..|lia|done|lia|].
  destruct (messages_ok bodies Hbok) as [Hms Hn]. rewrite zlen_app in Hl. pose proof (zlen_nonneg tail).
  destruct (apply_set_rep (messages bodies) Hms) as (bs & Ebs & _); [lia|]. unfold apply_set in Ebs.
  pose proof (zlen_nonneg (messages bodies)).
  rewrite deliver_messages, Ebs in Er. cbn [mbind option_bind] in Er. eexists _, bs, (zlen (messages bodies)). split_and!.
  - unfold mdrecv_self. rewrite Ep. cbn [mbind option_bind]. exact Er.
  - unfold replay_set. rewrite framed_roundtrip by (done || (rewrite zlen_app; lia)). rewrite Pipeline.set_fold by lia. by rewrite Ebs.
  - simpl. rewrite <- (numbered_messages 1 bodies). by rewrite zlen_fmap.
  - done.
  - done.
Qed.

Lemma mdrecv_equals_file_replay_witness :
  ∃ s bs n, mdrecv_self (frames [delete_bytes; delete_bytes]) = Some (s, bs) ∧ gaps_ s = 0 ∧
    replay_set (frames [delete_bytes; delete_bytes]) 42 = Some (n, bs).
Proof.
  destruct (mdrecv_equals_file_replay [delete_bytes; delete_bytes] []) as (s & bs & n & E1 & E2 & _ & E3 & _).
  - apply (bool_decide_unpack _). vm_compute. exact I.
  - apply (bool_decide_unpack _). vm_compute. exact I.
  - constructor.
  - exact I.
  - discriminate.
  - vm_compute. discriminate.
  - exists s, bs, n. split; [exact E1|]. split; [exact E3|exact E2].
Defined.
