(* ===== verification/LatencyJson.v ===== *)
(** The latency report (bench/latency_json.cpp): splitting a session into message spans, the timed
    replay with its histograms per message type, and the JSON it prints.  The clock is an
    argument; the main around it is in [Tools]. *)
From stdpp Require Import strings.
From S2P Require Export Apps.

#[local] Open Scope list_scope.
#[local] Open Scope Z_scope.

(** [kTypes]: type, name, code. *)

Definition kTypes : list (MsgType * string * Z) :=
  [(AddOrder, "Add Order"%string, 65); (AddOrderMpid, "Add Order (MPID)"%string, 70);
   (OrderExecuted, "Order Executed"%string, 69); (OrderExecutedWithPrice, "Order Executed w/ Price"%string, 67);
   (OrderCancel, "Order Cancel"%string, 88); (OrderDelete, "Order Delete"%string, 68);
   (OrderReplace, "Order Replace"%string, 85)].

Definition kNTypes : Z := zlen kTypes.

Fixpoint index_from (i : Z) (types : list (MsgType * string * Z)) (t : MsgType) : Z :=
  match types with
  | [] => -1
  | (t', _, _) :: types => if decide (t' = t) then i else index_from (i + 1) types t
  end.

Definition index_of_type (t : MsgType) : Z := index_from 0 kTypes t.

(** The spans: a pointer and a length are the bytes they denote. *)

Definition span_visit (spans : list (list Z)) (tail : list Z) (mlen : Z) : option (list (list Z)) :=
  Some (spans ++ [take (Z.to_nat mlen) tail]).

Definition spans (data : list Z) : option (list (list Z)) := each_record (λ _, true) span_visit data [].

(** One round of the timed loop; [clock k] is the time measured around span [k]. *)

Record timed := mkTimed { t_book : OrderBook; per_type : list LatencyHist; overall : LatencyHist }.

Definition timed_step (clock : Z → Z) (s : Z * timed) (span : list Z) : option (Z * timed) :=
  let '(k, st) := s in
  r ← Itch.decode (Some span) (zlen span) message0;
  if (r.1 : bool) then
    book ← OrderBook.apply (t_book st) r.2;
    let idx := index_of_type (type r.2) in
    if idx <? 0 then Some (k + 1, mkTimed book (per_type st) (overall st))
    else
      h ← (per_type st).[idx];
      per ← (per_type st).[idx <- LatencyHist.add h (clock k)];
      Some (k + 1, mkTimed book per (LatencyHist.add (overall st) (clock k)))
  else Some (k + 1, st).

Definition timed0 : timed := mkTimed book0 (replicate (Z.to_nat kNTypes) []) [].

Definition timed_replay (clock : Z → Z) (data : list Z) : option timed :=
  sp ← spans data;
  r ← foldM (timed_step clock) (0, timed0) sp;
  Some r.2.

(** * The report *)

Definition quoted (s : list Z) : list Z := [34] ++ s ++ [34].

Definition emit_hist_fields (i50 i95 i99 : Z → Z) (h : LatencyHist) : option (list Z) :=
  p50 ← percentile i50 h;
  p95 ← percentile i95 h;
  p99 ← percentile i99 h;
  Some (quoted (lit "count") ++ lit ": " ++ to_string (LatencyHist.count h)
          ++ lit ", " ++ quoted (lit "p50_ns") ++ lit ": " ++ to_string p50
          ++ lit ", " ++ quoted (lit "p95_ns") ++ lit ": " ++ to_string p95
          ++ lit ", " ++ quoted (lit "p99_ns") ++ lit ": " ++ to_string p99
          ++ lit ", " ++ quoted (lit "max_ns") ++ lit ": " ++ to_string (LatencyHist.max h)).

Fixpoint emit_types (i50 i95 i99 : Z → Z) (types : list (MsgType * string * Z)) (per : list LatencyHist) (first : bool) :
    option (list Z) :=
  match types, per with
  | (_, name, code) :: types, h :: per =>
      if LatencyHist.count h =? 0 then emit_types i50 i95 i99 types per first
      else
        fields ← emit_hist_fields i50 i95 i99 h;
        rest ← emit_types i50 i95 i99 types per false;
        Some ((if first then [] else lit "," ++ [10]) ++ lit "    { " ++ quoted (lit "type") ++ lit ": " ++ quoted (lit name)
                ++ lit ", " ++ quoted (lit "code") ++ lit ": " ++ quoted [code] ++ lit ", " ++ fields ++ lit " }" ++ rest)
  | _, _ => Some []
  end.

(** The part of the document that depends on the measurements. *)

Definition emit_report (i50 i95 i99 : Z → Z) (st : timed) : option (list Z) :=
  types ← emit_types i50 i95 i99 kTypes (per_type st) true;
  all ← emit_hist_fields i50 i95 i99 (overall st);
  Some (lit "  " ++ quoted (lit "sample_messages") ++ lit ": " ++ to_string (LatencyHist.count (overall st)) ++ lit "," ++ [10]
          ++ lit "  " ++ quoted (lit "per_type") ++ lit ": [" ++ [10] ++ types ++ [10] ++ lit "  ]," ++ [10]
          ++ lit "  " ++ quoted (lit "overall") ++ lit ": { " ++ all ++ lit " }" ++ [10] ++ lit "}" ++ [10]).

(** * Facts *)

Lemma span_visit_local : local_visit span_visit.
Proof.
  intros s body rest _. unfold span_visit, zlen. rewrite Nat2Z.id. by rewrite take_app_length, firstn_all.
Qed.

Lemma span_visits sp bodies : visits (λ _, true) span_visit sp bodies = Some (sp ++ bodies).
Proof.
  revert sp. induction bodies as [|b bodies IH]; intros sp; cbn [visits]; [by rewrite app_nil_r|].
  assert (E : span_visit sp b (zlen b) = Some (sp ++ [b])) by (unfold span_visit, zlen; by rewrite Nat2Z.id, firstn_all).
  rewrite E. cbn [mbind option_bind]. rewrite IH. by rewrite <- app_assoc.
Qed.

(** The messages whose times are recorded. *)

Definition affecting (m : Message) : bool := 0 <=? index_of_type (type m).

Lemma index_of_type_range t : -1 ≤ index_of_type t < 7.
Proof. destruct t; vm_compute; split; congruence. Qed.

Lemma index_of_type_spec t i t' name code : kTypes.[i] = Some (t', name, code) → index_of_type t = i ↔ t = t'.
Proof.
  intros Hi. pose proof (vget_Some _ _ _ Hi) as Hr. change (zlen kTypes) with 7 in Hr.
  assert (Hall : ∀ j, (j < 7)%nat → ∀ x, kTypes.[Z.of_nat j] = Some x → index_of_type t = Z.of_nat j ↔ t = x.1.1).
  { intros j Hj x Hx. do 7 (destruct j as [|j]; [vm_compute in Hx; injection Hx as <-; destruct t; split; intros E; vm_compute in E |- *; congruence|]). lia. }
  specialize (Hall (Z.to_nat i) ltac:(lia)). rewrite Z2Nat.id in Hall by lia. apply (Hall _ Hi).
Qed.

Definition samples (per : list LatencyHist) : Z := foldr (λ h n, zlen h + n) 0 per.

Lemma samples_set per per' i h h' :
  per.[i] = Some h → per.[i <- h'] = Some per' → samples per' = samples per - zlen h + zlen h'.
Proof.
  intros Hi Hs. apply vset_inv in Hs as [Hr ->]. pose proof (vget_Some _ _ _ Hi). rewrite <- (Z2Nat.id i) in Hi by lia.
  rewrite vget_nat in Hi. generalize dependent (Z.to_nat i). clear. intros k Hk. revert k Hk.
  induction per as [|x per IH]; intros [|k] Hk; try done.
  - injection Hk as ->. change (zlen h' + samples per = zlen h + samples per - zlen h + zlen h'). lia.
  - change (zlen x + samples (<[k:=h']> per) = zlen x + samples per - zlen h + zlen h'). rewrite (IH k Hk). lia.
Qed.

Definition indexed (i : Z) (ms : list Message) : Z := zlen (filter (λ m, index_of_type (type m) = i) ms).

Definition recorded (ms : list Message) : Z := zlen (filter (λ m, affecting m = true) ms).

Lemma indexed_cons i m ms : indexed i (m :: ms) = (if decide (index_of_type (type m) = i) then 1 else 0) + indexed i ms.
Proof. unfold indexed. rewrite filter_cons. case_decide; [rewrite zlen_cons; lia|done]. Qed.

Lemma recorded_cons m ms : recorded (m :: ms) = (if affecting m then 1 else 0) + recorded ms.
Proof.
  unfold recorded. rewrite filter_cons. destruct (affecting m); case_decide; try done; [rewrite zlen_cons; lia].
Qed.

(** One span: the message it holds is applied and recorded under its type. *)
Lemma timed_step_spec clock k st b book' :
  bytes_ok b → zlen (per_type st) = 7 → samples (per_type st) = zlen (overall st) →
  apply_all (t_book st) (messages [b]) = Some book' →
  ∃ st', timed_step clock (k, st) b = Some (k + 1, st') ∧ t_book st' = book' ∧ zlen (per_type st') = 7 ∧
    samples (per_type st') = zlen (overall st') ∧ zlen (overall st') = zlen (overall st) + recorded (messages [b]) ∧
    ∀ i h, (per_type st).[i] = Some h → ∃ h', (per_type st').[i] = Some h' ∧ zlen h' = zlen h + indexed i (messages [b]).
Proof.
  intros Hok Hz Hsum Hb. destruct (decode_body_total b [] Hok) as (r & m & Ed & Em). rewrite app_nil_r in Ed.
  unfold timed_step. rewrite Ed. cbn [mbind option_bind fst snd]. unfold messages in *. cbn [omap list_omap] in *. rewrite Em in *.
  destruct r; cbn [apply_all mbind option_bind] in *.
  2: { exists st. injection Hb as <-. split_and!; try done; [unfold recorded, zlen; simpl; lia|].
       intros i h Hi. exists h. split; [done|]. unfold indexed, zlen. simpl. lia. }
  destruct (OrderBook.apply (t_book st) m) as [bk|]; [|done]. injection Hb as <-. cbn [mbind option_bind].
  pose proof (index_of_type_range (type m)) as Hr.
  assert (Hrec : recorded [m] = if affecting m then 1 else 0) by (rewrite recorded_cons; unfold recorded, zlen; simpl; lia).
  assert (Hidx : ∀ i, indexed i [m] = if decide (index_of_type (type m) = i) then 1 else 0)
    by (intros i; rewrite indexed_cons; unfold indexed, zlen; simpl; lia).
  rewrite Hrec. unfold affecting. destruct (Z.ltb_spec (index_of_type (type m)) 0) as [Hlt|Hge].
  - eexists. split; [done|]. cbn [t_book per_type overall]. replace (0 <=? index_of_type (type m)) with false by lia.
    split_and!; try done; [lia|]. intros i h Hi. exists h. split; [done|]. rewrite Hidx.
    pose proof (vget_Some _ _ _ Hi). rewrite decide_False by lia. lia.
  - replace (0 <=? index_of_type (type m)) with true by lia.
    destruct (vget_is_Some (per_type st) (index_of_type (type m))) as [h Eh]; [lia|]. rewrite Eh. cbn [mbind option_bind].
    destruct ((per_type st).[index_of_type (type m) <- LatencyHist.add h (clock k)]) as [per|] eqn:Es; [|rewrite vset_Some in Es; [done|lia]].
    assert (Hadd : ∀ h0, zlen (LatencyHist.add h0 (clock k)) = zlen h0 + 1) by (intros h0; unfold LatencyHist.add; rewrite zlen_app; done).
    eexists. split; [done|]. cbn [t_book per_type overall]. rewrite (samples_set _ _ _ _ _ Eh Es), !Hadd.
    split_and!; try done; [by rewrite (vset_length _ _ _ _ Es)|lia|].
    intros i h0 Hi. rewrite (vset_get _ _ _ i _ Es), Hidx. case_decide as Hc; [|exists h0; split; [done|lia]].
    exists (LatencyHist.add h (clock k)). split; [done|]. rewrite Hadd. subst i. rewrite Eh in Hi. injection Hi as ->. done.
Qed.

Lemma indexed_app i ms ks : indexed i (ms ++ ks) = indexed i ms + indexed i ks.
Proof. unfold indexed. by rewrite filter_app, zlen_app. Qed.

Lemma recorded_app ms ks : recorded (ms ++ ks) = recorded ms + recorded ks.
Proof. unfold recorded. by rewrite filter_app, zlen_app. Qed.

Lemma timed_fold clock bodies k st book' :
  Forall bytes_ok bodies → zlen (per_type st) = 7 → samples (per_type st) = zlen (overall st) →
  apply_all (t_book st) (messages bodies) = Some book' →
  ∃ st', foldM (timed_step clock) (k, st) bodies = Some (k + zlen bodies, st') ∧ t_book st' = book' ∧ zlen (per_type st') = 7 ∧
    samples (per_type st') = zlen (overall st') ∧ zlen (overall st') = zlen (overall st) + recorded (messages bodies) ∧
    ∀ i h, (per_type st).[i] = Some h → ∃ h', (per_type st').[i] = Some h' ∧ zlen h' = zlen h + indexed i (messages bodies).
Proof.
  intros Hok. revert k st. induction Hok as [|b bodies Hb _ IH]; intros k st Hz Hsum Ha.
  - injection Ha as <-. exists st. split; [cbn [foldM]; do 2 f_equal; unfold zlen; simpl; lia|]. split_and!; try done.
    + unfold recorded, zlen. simpl. lia.
    + intros i h Hi. exists h. split; [done|]. unfold indexed, zlen. simpl. lia.
  - assert (Em : messages (b :: bodies) = messages [b] ++ messages bodies).
    { unfold messages. change (b :: bodies) with ([b] ++ bodies). by rewrite omap_app. }
    rewrite Em in *. rewrite apply_all_app in Ha. destruct (apply_all (t_book st) (messages [b])) as [bk|] eqn:E1; [|done].
    destruct (timed_step_spec clock k st b bk Hb Hz Hsum E1) as (st1 & Es & Eb & Hz1 & Hs1 & Ho1 & Hp1).
    cbn [mbind option_bind] in Ha. rewrite <- Eb in Ha.
    destruct (IH (k + 1) st1 Hz1 Hs1 Ha) as (st2 & Ef & Eb2 & Hz2 & Hs2 & Ho2 & Hp2). exists st2.
    cbn [foldM]. rewrite Es. cbn [mbind option_bind]. rewrite Ef, zlen_cons, recorded_app. split_and!; try done.
    + do 2 f_equal. lia.
    + lia.
    + intros i h Hi. destruct (Hp1 i h Hi) as (h1 & E & L1). destruct (Hp2 i h1 E) as (h2 & E' & L2). exists h2.
      split; [done|]. rewrite indexed_app. lia.
Qed.

(** The timed loop over the records of a session. *)
Lemma timed_replay_runs clock data :
  bytes_ok data → zlen data ≤ 2 ^ 32 →
  ∃ bodies tail st (bk : OrderBook), data = frames bodies ++ tail ∧ Forall body_ok bodies ∧ stopping tail ∧ Forall bytes_ok bodies ∧
    spans data = Some bodies ∧ apply_all book0 (messages bodies) = Some bk ∧
    foldM (timed_step clock) (0, timed0) bodies = Some (0 + zlen bodies, st) ∧ timed_replay clock data = Some st.
Proof.
  intros Hok Hl.
  destruct (each_record_spec (λ _, true) span_visit data span_visit_local Hok ltac:(lia)) as (bodies & tail & -> & Hb & Hst & Heach).
  apply Forall_app in Hok as [Hok Htok]. pose proof (frames_bytes_ok bodies Hok) as Hbok.
  destruct (messages_ok bodies Hbok) as [Hms Hn]. rewrite zlen_app in Hl. pose proof (zlen_nonneg tail).
  destruct (map_book_total (messages bodies) Hms) as [bk Ebk]; [lia|].
  destruct (timed_fold clock bodies 0 timed0 bk Hbok) as (st & Ef & _); [done|done|done|].
  assert (Esp : spans (frames bodies ++ tail) = Some bodies) by (unfold spans; by rewrite Heach, span_visits).
  exists bodies, tail, st, bk. split_and!; try done. unfold timed_replay. rewrite Esp. cbn [mbind option_bind]. by rewrite Ef.
Qed.

Lemma emit_hist_fields_total i50 i95 i99 h : (∀ n, 0 ≤ i50 n ∧ 0 ≤ i95 n ∧ 0 ≤ i99 n) → is_Some (emit_hist_fields i50 i95 i99 h).
Proof.
  intros Hi. unfold emit_hist_fields. destruct (percentile_total i50 h) as [? ->]; [apply Hi|]. destruct (percentile_total i95 h) as [? ->]; [apply Hi|].
  destruct (percentile_total i99 h) as [? ->]; [apply Hi|]. by eexists.
Qed.

Lemma emit_report_total i50 i95 i99 st : (∀ n, 0 ≤ i50 n ∧ 0 ≤ i95 n ∧ 0 ≤ i99 n) → is_Some (emit_report i50 i95 i99 st).
Proof.
  intros Hi. assert (Ht : ∀ types per first, is_Some (emit_types i50 i95 i99 types per first)).
  { intros types. induction types as [|[[t name] code] types IH]; intros per first; [by eexists|]. cbn [emit_types].
    destruct per as [|h per]; [by eexists|]. destruct (_ =? 0); [apply IH|]. destruct (emit_hist_fields_total i50 i95 i99 h Hi) as [f ->].
    destruct (IH per false) as [rest ->]. by eexists. }
  unfold emit_report. destruct (Ht kTypes (per_type st) true) as [types ->]. destruct (emit_hist_fields_total i50 i95 i99 (overall st) Hi) as [all ->].
  by eexists.
Qed.

(** The latency report accounts for every book message once: for every session of up to 2^32
    bytes the spans are the complete records in order, the timed loop ends in bounds with the
    book of the single-symbol replay, the histogram of each reported type has one sample per
    decoded message of that type, and the overall histogram has one per message of a reported
    type, as many as the typed ones together. *)
Theorem latency_report_counts clock data :
  bytes_ok data → zlen data ≤ 2 ^ 32 →
  ∃ bodies tail st, data = frames bodies ++ tail ∧ Forall body_ok bodies ∧ stopping tail ∧
    spans data = Some bodies ∧ timed_replay clock data = Some st ∧
    apply_all book0 (messages bodies) = Some (t_book st) ∧
    (∀ i t name code, kTypes.[i] = Some (t, name, code) →
       ∃ h, (per_type st).[i] = Some h ∧ LatencyHist.count h = zlen (filter (λ m, type m = t) (messages bodies))) ∧
    LatencyHist.count (overall st) = samples (per_type st) ∧
    LatencyHist.count (overall st) = zlen (filter (λ m, affecting m = true) (messages bodies)).
Proof.
  intros Hok Hl. destruct (timed_replay_runs clock data Hok Hl) as (bodies & tail & st & bk & Ed & Hb & Hst & Hbok & Esp & Ebk & Ef & Er).
  destruct (timed_fold clock bodies 0 timed0 bk Hbok) as (st' & Ef' & Eb & Hz & Hs & Ho & Hp); [done|done|done|].
  rewrite Ef in Ef'. injection Ef' as <-. exists bodies, tail, st. split_and!; try done; [by rewrite Ebk, Eb|].
  - intros i t name code Hi. pose proof (vget_Some _ _ _ Hi) as Hr. change (zlen kTypes) with 7 in Hr.
    destruct (Hp i []) as (h & Eh & Lh).
    { unfold vget. change (zlen (per_type timed0)) with 7. unfold timed0. cbn [per_type]. change (Z.to_nat kNTypes) with 7%nat.
      rewrite decide_True by (change (zlen (replicate 7 (@nil Z))) with 7; lia).
      apply lookup_replicate. split; [done|lia]. }
    exists h. split; [done|]. unfold LatencyHist.count. rewrite Lh. unfold indexed. change (zlen (@nil Z)) with 0. rewrite Z.add_0_l.
    f_equal. apply list_filter_iff. intros m. by eapply index_of_type_spec.
Qed.

Lemma latency_report_counts_witness :
  ∃ st, timed_replay id demo_stream = Some st ∧ LatencyHist.count (overall st) = samples (per_type st).
Proof.
  destruct (latency_report_counts id demo_stream) as (bodies & tail & st & _ & _ & _ & _ & E & _ & _ & H & _).
  - apply (bool_decide_unpack _). vm_compute. exact I.
  - vm_compute. discriminate.
  - exists st. split; [exact E|exact H].
Defined.

(** Adds with and without MPID have rows of their own. *)
Lemma mpid_not_folded : index_of_type AddOrder = 0 ∧ index_of_type AddOrderMpid = 1.
Proof. done. Qed.
