(* ===== verification/WsBook.v ===== *)
(** The depth streamer (apps/wsbook.cpp): JSON snapshots of the focal book while a capture is
    replayed, printed by [--dump] or sent to a viewer as WebSocket text frames.  The texts of
    doubles and the order of the hash table are arguments; the main around
    them is in [Servers]. *)
From stdpp Require Import strings.
From S2P Require Import Doubles.
From S2P Require Export Apps Metrics WebSocket.

#[local] Open Scope list_scope.
#[local] Open Scope Z_scope.

(** * Snapshots *)

Section Snapshot.
Context (fl : floats) `{FloatOps (D fl) (LD fl)} (fmt : D fl → list Z).

Fixpoint push_rows (i : Z) (s : list Z) (levels : list (Price * Qty)) : list Z :=
  match levels with
  | [] => s
  | (p, q) :: levels =>
      let s := if i =? 0 then s else s ++ [44] in
      push_rows (i + 1) (s ++ lit "[" ++ fmt (to_dollars p) ++ lit "," ++ to_string q ++ lit "]") levels
  end.

Definition snapshot_json (sym : list Z) (ob : OrderBook) (tape : Tape fl) (seq : Z) : option (list Z) :=
  bs ← bids ob 10;
  as_ ← asks ob 10;
  mx ← compute_metrics ob 5;
  let s := jlit "{'symbol':'" ++ sym ++ jlit "','seq':" ++ to_string seq ++ jlit ",'bids':[" in
  let s := push_rows 0 s bs in
  let s := s ++ jlit "],'asks':[" in
  let s := push_rows 0 s as_ in
  let s := s ++ jlit "],'mid':" ++ fmt (mid mx) ++ jlit ",'microprice':" ++ fmt (microprice mx)
             ++ jlit ",'imbalance':" ++ fmt (imbalance_top mx) ++ jlit ",'spread_bps':" ++ fmt (spread_bps mx) in
  let s := if has_last fl tape then
             s ++ jlit ",'last':" ++ fmt (to_dollars (last_ fl tape)) ++ jlit ",'vwap':" ++ fmt (vwap_ fl tape)
               ++ jlit ",'volume':" ++ to_string (volume_ fl tape)
           else s in
  Some (s ++ lit "}").

(** A book of [std::map] levels always has a snapshot. *)
Lemma snapshot_total sym ob tape seq : is_Some (snapshot_json sym ob tape seq).
Proof.
  unfold snapshot_json, bids, asks, ls_top. cbn [MapLevels_store mbind option_bind].
  destruct (map_metrics_total (D := D fl) ob 5) as [mx ->]. by eexists.
Qed.

Definition count_sink (n : Z) (m : Message) : option Z := Some (u64 (n + 1)).

Definition count_messages (d : list Z) : option Z :=
  r ← for_each_framed_message count_sink d (zlen d) 0; Some r.2.

End Snapshot.

(** * The focal book *)

(** [iter] is the order in which [bs.books()] is traversed. *)

Definition focal_locate (focus : list Z) (iter : list (Z * OrderBook)) (bs : BookSet) : Z :=
  if decide (focus = []) then 1
  else match List.find (λ kv, bool_decide (symbol bs kv.1 = focus)) iter with
       | Some kv => kv.1
       | None => 1
       end.

Definition focal_name (bs : BookSet) (loc : Z) : list Z :=
  let name := symbol bs loc in if decide (name = []) then lit "SYNTH" else name.

(** * The stream *)

Section Stream.
Context (fl : floats) `{FloatOps (D fl) (LD fl)} (fmt : D fl → list Z).
Context {E : Type} (emit : E → list Z → bool * E).

(** [order k] is the traversal order after record [k]. *)

Context (order : Z → BookSet → list (Z * OrderBook)) (focus : list Z).

(** The variables of the loop; [w_stopped] is its early return. *)

Record walk := mkWalk {
  w_book : BookSet;
  w_tape : Tape fl;
  w_applied : Z;
  w_sent : Z;
  w_out : E;
  w_stopped : bool;
}.

Definition stream_visit (every : Z) (w : walk) (tail : list Z) (mlen : Z) : option walk :=
  r ← Itch.decode (Some tail) mlen message0;
  bs ← (if (r.1 : bool) then BookSet.apply (w_book w) r.2 else Some (w_book w));
  let tape := if (r.1 : bool) && is_trade (type r.2)
              then on_trade fl (w_tape w) (price r.2) (shares r.2) (timestamp r.2) else w_tape w in
  let applied := u64 (w_applied w + 1) in
  if applied `mod` every =? 0 then
    let loc := focal_locate focus (order applied bs) bs in
    match book bs loc with
    | Some ob =>
        j ← snapshot_json fl fmt (focal_name bs loc) ob tape (w_sent w);
        let '(ok, e) := emit (w_out w) j in
        if ok then Some (mkWalk bs tape applied (u64 (w_sent w + 1)) e false)
        else Some (mkWalk bs tape applied (w_sent w) e true)
    | None => Some (mkWalk bs tape applied (w_sent w) (w_out w) false)
    end
  else Some (mkWalk bs tape applied (w_sent w) (w_out w) false).

(** [None] is also the division by zero of [target + 1 = 2^64]. *)

Definition stream (target : Z) (data : list Z) (e : E) : option E :=
  total ← count_messages data;
  if u64 (target + 1) =? 0 then None
  else
    let every := u64 (total / u64 (target + 1) + 1) in
    w ← each_record (λ w, (w_sent w <? target) && negb (w_stopped w)) (stream_visit every) data
          (mkWalk set0 (make_tape fl 1000000) 0 0 e false);
    Some (w_out w).

End Stream.

Section Modes.
Context (fl : floats) `{FloatOps (D fl) (LD fl)} (fmt : D fl → list Z).
Context (order : Z → BookSet → list (Z * OrderBook)) (focus : list Z).

(** [--dump]: every snapshot is a line of the output. *)

Definition dump_emit (out j : list Z) : bool * list Z := (true, out ++ j ++ [10]).

Definition dump (n : Z) (data : list Z) : option (list Z) := stream fl fmt dump_emit order focus n data [].

(** One round of the server: the upgrade, then the snapshots as text frames. *)

Definition serve_viewer (frames : Z) (data : list Z) (conn : LineSocket) : option LineSocket :=
  r ← handshake conn;
  if negb r.1 then Some r.2
  else
    let target := if 0 <? frames then frames else 120 in
    stream fl fmt send_text order focus target data r.2.

End Modes.

(** * What the stream sends *)

Section Shots.
Context (fl : floats) `{FloatOps (D fl) (LD fl)} (fmt : D fl → list Z).
Context (order : Z → BookSet → list (Z * OrderBook)) (focus : list Z).

(** The books and the tape after the first [k] records. *)

Definition set_after (bodies : list (list Z)) (k : nat) : BookSet :=
  default set0 (apply_set set0 (messages (take k bodies))).

Definition all_trades (ms : list Message) : list trade :=
  (λ m, mkTrade (price m) (shares m) (timestamp m)) <$> filter (λ m, is_trade (type m) = true) ms.

Definition tape_after (bodies : list (list Z)) (k : nat) : Tape fl :=
  on_trades fl (make_tape fl 1000000) (all_trades (messages (take k bodies))).

(** The snapshot taken after record [k], if the focal book exists by then. *)

Definition shot : Type := list Z * OrderBook * Tape fl.

Definition shot_after (bodies : list (list Z)) (k : nat) : option shot :=
  let bs := set_after bodies k in
  let loc := focal_locate focus (order (Z.of_nat k) bs) bs in
  (λ ob, (focal_name bs loc, ob, tape_after bodies k)) <$> book bs loc.

(** The multiples of [every] among the records from [k + 1] to [k + n]. *)

Definition points (every : Z) (k n : nat) : list nat :=
  filter (λ i, Z.of_nat i `mod` every = 0) (seq (S k) n).

Definition shots (every : Z) (bodies : list (list Z)) (k n : nat) : list shot :=
  omap (shot_after bodies) (points every k n).

(** Their texts, numbered from [i]. *)

Fixpoint texts (i : Z) (l : list shot) : list (list Z) :=
  match l with
  | [] => []
  | (sym, ob, tape) :: l => default [] (snapshot_json fl fmt sym ob tape i) :: texts (i + 1) l
  end.

(** Emitting until the sink gives up. *)

Fixpoint deliver {E} (emit : E → list Z → bool * E) (e : E) (js : list (list Z)) : E :=
  match js with
  | [] => e
  | j :: js => let '(ok, e) := emit e j in if ok then deliver emit e js else e
  end.

Definition every_of (target total : Z) : Z := total / (target + 1) + 1.

Lemma take_snoc_message pre b suf :
  messages (take (S (length pre)) (pre ++ b :: suf)) = messages (take (length pre) (pre ++ b :: suf)) ++ option_list (decode_body b).
Proof.
  rewrite take_app_length. change (b :: suf) with ([b] ++ suf). rewrite app_assoc.
  replace (S (length pre)) with (length (pre ++ [b])) by (rewrite length_app; simpl; lia). rewrite take_app_length.
  unfold messages. by rewrite omap_app.
Qed.

Lemma tape_after_snoc pre b suf :
  tape_after (pre ++ b :: suf) (S (length pre)) =
  match decode_body b with
  | Some m => if is_trade (type m) then on_trade fl (tape_after (pre ++ b :: suf) (length pre)) (price m) (shares m) (timestamp m)
              else tape_after (pre ++ b :: suf) (length pre)
  | None => tape_after (pre ++ b :: suf) (length pre)
  end.
Proof.
  unfold tape_after, all_trades, on_trades. rewrite take_snoc_message, filter_app, fmap_app, foldl_app.
  destruct (decode_body b) as [m|]; [|done]. cbn [option_list]. destruct (is_trade (type m)) eqn:Em.
  - by rewrite (filter_cons_True _ m []) by done.
  - by rewrite (filter_cons_False _ m []) by (by rewrite Em).
Qed.

Lemma points_cons every k n :
  points every k (S n) = (if Z.of_nat (S k) `mod` every =? 0 then [S k] else []) ++ points every (S k) n.
Proof.
  unfold points. cbn [seq]. destruct (Z.eqb_spec (Z.of_nat (S k) `mod` every) 0).
  - by rewrite filter_cons_True.
  - by rewrite filter_cons_False.
Qed.

(** No more points than [every] fits into the records. *)
Lemma points_length every k n :
  0 < every → Z.of_nat (length (points every k n)) = (Z.of_nat k + Z.of_nat n) / every - Z.of_nat k / every.
Proof.
  intros He. revert k. induction n as [|n IH]; intros k; [cbn; rewrite Z.add_0_r; lia|].
  rewrite points_cons, length_app, Nat2Z.inj_add, IH. replace (Z.of_nat (S k) + Z.of_nat n) with (Z.of_nat k + Z.of_nat (S n)) by lia.
  rewrite Nat2Z.inj_succ, <- Z.add_1_r. pose proof (Z.div_mod (Z.of_nat k + 1) every). pose proof (Z.div_mod (Z.of_nat k) every).
  pose proof (Z.mod_pos_bound (Z.of_nat k) every). pose proof (Z.mod_pos_bound (Z.of_nat k + 1) every).
  destruct (Z.eqb_spec ((Z.of_nat k + 1) `mod` every) 0); simpl; nia.
Qed.

Lemma shots_length every bodies k n : (length (shots every bodies k n) <= length (points every k n))%nat.
Proof.
  unfold shots. induction (points every k n) as [|i l IH]; [done|]. cbn [omap list_omap length] in *. destruct (shot_after bodies i); cbn [length]; lia.
Qed.

(** When every record decodes, all the points fit the target. *)
Lemma shots_fit target bodies :
  0 < target → length (messages bodies) = length bodies →
  Z.of_nat (length (shots (every_of target (zlen (messages bodies))) bodies 0 (length bodies))) ≤ target.
Proof.
  intros Ht El. unfold zlen. rewrite El. set (n := Z.of_nat (length bodies)).
  assert (Hq : 0 ≤ n / (target + 1)) by (apply Z.div_pos; lia). unfold every_of.
  pose proof (shots_length (n / (target + 1) + 1) bodies 0 (length bodies)).
  pose proof (points_length (n / (target + 1) + 1) 0 (length bodies) ltac:(lia)) as Hp. rewrite Zdiv_0_l in Hp. fold n in Hp.
  assert (n / (n / (target + 1) + 1) < target + 1).
  { apply Z.div_lt_upper_bound; [lia|]. pose proof (Z.div_mod n (target + 1)). pose proof (Z.mod_pos_bound n (target + 1)). nia. }
  change (Z.of_nat 0 + n) with n in Hp. lia.
Qed.
End Shots.

Section StreamFacts.
Context (fl : floats) `{FloatOps (D fl) (LD fl)} (fmt : D fl → list Z).
Context {E : Type} (emit : E → list Z → bool * E).
Context (order : Z → BookSet → list (Z * OrderBook)) (focus : list Z).

Lemma stream_visit_local every : local_visit (stream_visit fl fmt emit order focus every).
Proof. intros s body rest Hok. unfold stream_visit. by rewrite decode_prefix. Qed.

Lemma set_after_total bodies k :
  Forall bytes_ok bodies → zlen (messages bodies) ≤ 2 ^ 32 →
  apply_set set0 (messages (take k bodies)) = Some (set_after bodies k).
Proof.
  intros Hok Hn. unfold set_after. destruct (messages_ok (take k bodies)) as [Hms _]; [by apply Forall_take|].
  destruct (apply_set_rep (messages (take k bodies)) Hms) as (bs & -> & _); [|done].
  rewrite <- (take_drop k bodies) in Hn. unfold messages in *. rewrite omap_app, zlen_app in Hn.
  pose proof (zlen_nonneg (omap decode_body (drop k bodies))). lia.
Qed.

Lemma set_after_step pre b suf r m :
  Forall bytes_ok (pre ++ b :: suf) → zlen (messages (pre ++ b :: suf)) ≤ 2 ^ 32 →
  decode_body b = (if (r : bool) then Some m else None) →
  (if r then BookSet.apply (set_after (pre ++ b :: suf) (length pre)) m else Some (set_after (pre ++ b :: suf) (length pre)))
  = Some (set_after (pre ++ b :: suf) (S (length pre))).
Proof.
  intros Hok Hn Em. pose proof (set_after_total _ (S (length pre)) Hok Hn) as Hs.
  rewrite take_snoc_message, Em in Hs. unfold apply_set in Hs. rewrite foldM_app in Hs.
  pose proof (set_after_total _ (length pre) Hok Hn) as Hp. unfold apply_set in Hp. rewrite Hp in Hs. cbn [mbind option_bind] in Hs.
  destruct r; [|exact Hs]. change (option_list (Some m)) with [m] in Hs. cbn [foldM] in Hs. by destruct (BookSet.apply (set_after (pre ++ b :: suf) (length pre)) m).
Qed.

(** One record, with the books and the tape in step with the records read. *)
Lemma stream_visit_spec every pre b suf i e :
  let bodies := pre ++ b :: suf in
  Forall bytes_ok bodies → zlen (messages bodies) ≤ 2 ^ 32 → zlen bodies < 2 ^ 63 → 0 ≤ i ≤ Z.of_nat (length pre) →
  let next := mkWalk fl (set_after bodies (S (length pre))) (tape_after fl bodies (S (length pre))) (Z.of_nat (S (length pre))) in
  stream_visit fl fmt emit order focus every
    (mkWalk fl (set_after bodies (length pre)) (tape_after fl bodies (length pre)) (Z.of_nat (length pre)) i e false) b (zlen b) =
  Some (if Z.of_nat (S (length pre)) `mod` every =? 0 then
          match shot_after fl order focus bodies (S (length pre)) with
          | Some (sym, ob, tape) =>
              let '(ok, e') := emit e (default [] (snapshot_json fl fmt sym ob tape i)) in
              next (if ok then i + 1 else i) e' (negb ok)
          | None => next i e false
          end
        else next i e false).
Proof.
  intros bodies Hok Hn Hl Hi next. assert (Hb : bytes_ok b) by (unfold bodies in Hok; by apply Forall_app in Hok as [_ [Hb _]%Forall_cons]).
  destruct (decode_body_total b [] Hb) as (r & m & Ed & Em). rewrite app_nil_r in Ed.
  assert (Hlen : Z.of_nat (length pre) < 2 ^ 63) by (unfold bodies, zlen in Hl; rewrite length_app in Hl; lia).
  unfold stream_visit. rewrite Ed. cbn [mbind option_bind fst snd w_book w_tape w_applied w_sent w_out].
  pose proof (set_after_step pre b suf r m Hok Hn Em) as Hstep. fold bodies in Hstep. rewrite Hstep. cbn [mbind option_bind].
  rewrite u64_small by lia. replace (Z.of_nat (length pre) + 1) with (Z.of_nat (S (length pre))) by lia.
  assert (Et : (if r && is_trade (type m) then on_trade fl (tape_after fl bodies (length pre)) (price m) (shares m) (timestamp m)
                else tape_after fl bodies (length pre)) = tape_after fl bodies (S (length pre))).
  { unfold bodies. rewrite tape_after_snoc, Em. by destruct r. }
  rewrite Et. destruct (_ `mod` every =? 0); [|done]. unfold shot_after. cbv zeta.
  destruct (book _ _) as [ob|]; [|done]. cbn [fmap option_fmap option_map].
  destruct (snapshot_total fl fmt (focal_name (set_after bodies (S (length pre)))
    (focal_locate focus (order (Z.of_nat (S (length pre))) (set_after bodies (S (length pre)))) (set_after bodies (S (length pre)))))
    ob (tape_after fl bodies (S (length pre))) i) as [j Ej].
  rewrite Ej. cbn [mbind option_bind from_option id]. destruct (emit e j) as [[] e']; [|done]. by rewrite u64_small by lia.
Qed.

Lemma stream_visits every target bodies pre suf i e :
  bodies = pre ++ suf → Forall bytes_ok bodies → zlen (messages bodies) ≤ 2 ^ 32 → zlen bodies < 2 ^ 63 →
  0 ≤ i ≤ Z.of_nat (length pre) →
  ∃ w, visits (λ w, (w_sent fl w <? target) && negb (w_stopped fl w)) (stream_visit fl fmt emit order focus every)
    (mkWalk fl (set_after bodies (length pre)) (tape_after fl bodies (length pre)) (Z.of_nat (length pre)) i e false) suf = Some w ∧
  w_out fl w = deliver emit e (take (Z.to_nat (target - i)) (texts fl fmt i (shots fl order focus every bodies (length pre) (length suf)))).
Proof.
  intros Eb Hok Hn Hl. revert pre i e Eb. induction suf as [|b suf IH]; intros pre i e -> Hi;
    [eexists; split; [done|]; unfold shots, points; simpl; by rewrite take_nil|].
  cbn [visits w_sent w_stopped]. rewrite andb_true_r.
  destruct (Z.ltb_spec i target) as [Hlt|Hge];
    [|eexists; split; [done|]; replace (Z.to_nat (target - i)) with O by lia; done].
  rewrite stream_visit_spec by done. cbn [mbind option_bind length]. unfold shots. rewrite points_cons.
  set (bodies := pre ++ b :: suf) in *.
  assert (IH' : ∀ i e, 0 ≤ i ≤ Z.of_nat (S (length pre)) → ∃ w,
    visits (λ w, (w_sent fl w <? target) && negb (w_stopped fl w)) (stream_visit fl fmt emit order focus every)
      (mkWalk fl (set_after bodies (S (length pre))) (tape_after fl bodies (S (length pre))) (Z.of_nat (S (length pre))) i e false) suf
      = Some w ∧
    w_out fl w = deliver emit e (take (Z.to_nat (target - i)) (texts fl fmt i (shots fl order focus every bodies (S (length pre)) (length suf))))).
  { intros i' e'. specialize (IH (pre ++ [b]) i' e' ltac:(unfold bodies; by rewrite <- app_assoc)).
    replace (length (pre ++ [b])) with (S (length pre)) in IH by (rewrite length_app; simpl; lia). exact IH. }
  destruct (_ `mod` every =? 0); [|apply IH'; lia]. rewrite omap_app. cbn [omap list_omap].
  destruct (shot_after fl order focus bodies (S (length pre))) as [[[sym ob] tape]|]; [|apply IH'; lia].
  cbn [app texts]. replace (Z.to_nat (target - i)) with (S (Z.to_nat (target - (i + 1)))) by lia. cbn [take deliver].
  destruct (emit e _) as [[] e']; cbn [negb]; [apply IH'; lia|].
  rewrite visits_stopped by (cbn [w_stopped negb]; apply andb_false_r). by eexists.
Qed.

Lemma count_fold n ms : 0 ≤ n → n + zlen ms < 2 ^ 64 → foldM count_sink n ms = Some (n + zlen ms).
Proof.
  revert n. induction ms as [|m ms IH]; intros n Hn Hl; [by rewrite Z.add_0_r|].
  rewrite zlen_cons in *. pose proof (zlen_nonneg ms). cbn [foldM count_sink mbind option_bind]. rewrite u64_small by lia.
  rewrite IH by lia. f_equal. lia.
Qed.

Lemma zlen_frames_le bodies : zlen bodies ≤ zlen (frames bodies).
Proof.
  induction bodies as [|b bodies IH]; [done|]. rewrite frames_cons, zlen_app, zlen_cons, record_zlen. pose proof (zlen_nonneg b). lia.
Qed.

Lemma count_messages_frames bodies tail :
  bytes_ok (frames bodies ++ tail) → Forall body_ok bodies → stopping tail → zlen (frames bodies ++ tail) ≤ 2 ^ 32 →
  count_messages (frames bodies ++ tail) = Some (zlen (messages bodies)) ∧ zlen (messages bodies) ≤ 2 ^ 32.
Proof.
  intros Hok Hb Hst Hl. apply Forall_app in Hok as [Hfok Htok]. pose proof (frames_bytes_ok bodies Hfok) as Hbok.
  destruct (messages_ok bodies Hbok) as [_ Hn].
  pose proof Hl as Hl'. rewrite zlen_app in Hl'. pose proof (zlen_nonneg tail). pose proof (zlen_nonneg (messages bodies)).
  unfold count_messages. rewrite framed_roundtrip by (done || lia).
  rewrite count_fold by lia. split; [done|lia].
Qed.

Lemma stream_delivers target data e :
  bytes_ok data → zlen data ≤ 2 ^ 32 → 0 < target < 2 ^ 63 →
  ∃ bodies tail, data = frames bodies ++ tail ∧ Forall body_ok bodies ∧ stopping tail ∧
    stream fl fmt emit order focus target data e =
    Some (deliver emit e (take (Z.to_nat target) (texts fl fmt 0
      (shots fl order focus (every_of target (zlen (messages bodies))) bodies 0 (length bodies))))).
Proof.
  intros Hok Hl Ht.
  destruct (each_record_spec (λ _, true) (λ s _ _, Some s) data (λ (s : E) _ _ _, eq_refl) Hok ltac:(lia)) as (bodies0 & tail0 & E0 & Hb0 & Hst0 & _).
  pose proof Hok as Hok0. pose proof Hl as Hl0. rewrite E0 in Hok0, Hl0. destruct (count_messages_frames bodies0 tail0 Hok0 Hb0 Hst0 Hl0) as [Ec0 Hn0]. rewrite <- E0 in Ec0.
  destruct (each_record_spec (λ w, (w_sent fl w <? target) && negb (w_stopped fl w))
    (stream_visit fl fmt emit order focus (every_of target (zlen (messages bodies0)))) data (stream_visit_local _) Hok ltac:(lia))
    as (bodies & tail & -> & Hb & Hst & Heach).
  destruct (count_messages_frames bodies tail Hok Hb Hst Hl) as [Ec Hn]. rewrite Ec0 in Ec. injection Ec as Ec.
  exists bodies, tail. split_and!; [done..|]. unfold stream. rewrite Ec0. cbn [mbind option_bind]. rewrite Ec in *.
  pose proof (zlen_nonneg (messages bodies)).
  assert (Hev : u64 (zlen (messages bodies) / u64 (target + 1) + 1) = every_of target (zlen (messages bodies))).
  { rewrite (u64_small (target + 1)) by lia. apply u64_small.
    assert (0 ≤ zlen (messages bodies) / (target + 1)) by (apply Z.div_pos; lia).
    assert (zlen (messages bodies) / (target + 1) ≤ 2 ^ 32) by (apply Z.div_le_upper_bound; lia). unfold every_of. lia. }
  rewrite Hev, (u64_small (target + 1)) by lia. destruct (Z.eqb_spec (target + 1) 0); [lia|]. rewrite Heach.
  pose proof Hok as [Hfok _]%Forall_app. rewrite zlen_app in Hl. pose proof (zlen_nonneg tail). pose proof (zlen_frames_le bodies).
  destruct (stream_visits (every_of target (zlen (messages bodies))) target bodies [] bodies 0 e) as (w & Ew & Eo);
    [done|by apply frames_bytes_ok|done|lia|simpl; lia|].
  change (set_after bodies (length [])) with set0 in Ew. change (tape_after fl bodies (length [])) with (make_tape fl 1000000) in Ew.
  change (Z.of_nat (length [])) with 0 in Ew. rewrite Ew. cbn [mbind option_bind]. rewrite Eo, Z.sub_0_r. done.
Qed.
End StreamFacts.

(** * Properties *)

(** The texts that [stream] with [target] sends for the records [bodies]. *)

Definition sent_texts fl `{FloatOps (D fl) (LD fl)} (fmt : D fl → list Z) order focus (target : Z) (bodies : list (list Z)) :
    list (list Z) :=
  take (Z.to_nat target) (texts fl fmt 0 (shots fl order focus (every_of target (zlen (messages bodies))) bodies 0 (length bodies))).

Lemma shot_texts_length fl `{FloatOps (D fl) (LD fl)} (fmt : D fl → list Z) i l : length (texts fl fmt i l) = length l.
Proof. revert i. induction l as [|[[sym ob] tape] l IH]; intros i; simpl; [done|]. by rewrite IH. Qed.

Lemma deliver_dump out js : deliver dump_emit out js = out ++ concat ((λ j, j ++ [10]) <$> js).
Proof.
  revert out. induction js as [|j js IH]; intros out; [by rewrite app_nil_r|]. cbn [deliver dump_emit]. rewrite IH. simpl.
  by rewrite <- !app_assoc.
Qed.

Lemma deliver_frames s js :
  sends_ok s → sent_ (deliver send_text s js) = sent_ s ++ concat (frame_text <$> js).
Proof.
  revert s. induction js as [|j js IH]; intros s Ha; [by rewrite app_nil_r|]. cbn [deliver].
  destruct (send_line_all (frame_text j) s Ha) as (Hok & Hsent & _ & _ & _ & Ha').
  change (send_line (frame_text j) s) with (send_text s j) in *. destruct (send_text s j) as [ok s']. simpl in *. subst ok.
  rewrite IH by done. by rewrite Hsent, <- app_assoc.
Qed.

Lemma deliver_unbroken s js : unbroken s → unbroken (deliver send_text s js).
Proof.
  revert s. induction js as [|j js IH]; intros s Hu; [done|]. cbn [deliver].
  destruct (send_spec (frame_text j) s) as (k & _ & _ & _ & _ & Hu'). change (send_loop _ (frame_text j) 0 s) with (send_text s j) in Hu'.
  destruct (send_text s j) as [[|] s']; simpl in *; auto.
Qed.

(** [wsbook --dump n] prints at most [n] lines, which are the snapshots taken after every
    [every]-th record, numbered from 0 in order: each shows the focal book, the name and the
    tape as they are after exactly the records before it, and points without a focal book are
    passed over.  When every record decodes, the limit of [n] never cuts a snapshot off. *)
Theorem wsbook_dump_snapshots fl `{FloatOps (D fl) (LD fl)} (fmt : D fl → list Z) order focus n data :
  bytes_ok data → zlen data ≤ 2 ^ 32 → 0 < n < 2 ^ 63 →
  ∃ bodies tail, data = frames bodies ++ tail ∧ Forall body_ok bodies ∧ stopping tail ∧
    dump fl fmt order focus n data = Some (concat ((λ j, j ++ [10]) <$> sent_texts fl fmt order focus n bodies)) ∧
    zlen (sent_texts fl fmt order focus n bodies) ≤ n ∧
    (length (messages bodies) = length bodies →
     length (sent_texts fl fmt order focus n bodies) =
     length (shots fl order focus (every_of n (zlen (messages bodies))) bodies 0 (length bodies))).
Proof.
  intros Hok Hl Hn. unfold dump.
  destruct (stream_delivers fl fmt dump_emit order focus n data [] Hok Hl Hn) as (bodies & tail & -> & Hb & Hst & ->).
  exists bodies, tail. split_and!; [done..| | |].
  - by rewrite deliver_dump.
  - unfold sent_texts, zlen. rewrite length_take. lia.
  - intros El. unfold sent_texts. rewrite length_take, shot_texts_length.
    pose proof (shots_fit fl order focus n bodies ltac:(lia) El). lia.
Qed.

(** C30: A viewer that asks for the upgrade sees the replay.  Let its request carry a key: the
    header's name in any case, its value between blanks, no key header behind it; let the request
    arrive in any pieces without a timeout, and let no send to the viewer fail.  Then it is sent
    the 101 response with the accept key of that value, and the snapshots as one text frame each;
    and a frame reader gives back exactly these snapshots in order, however the connection cuts
    the bytes. *)
Theorem wsbook_viewer_sees_replay fl `{FloatOps (D fl) (LD fl)} (fmt : D fl → list Z) order focus nframes data sock hs v blank more :
  bytes_ok data → zlen data ≤ 2 ^ 32 → nframes < 2 ^ 63 →
  steady sock → sends_ok sock → carries_key hs v → zlen v < 2 ^ 59 → is_blank_line blank →
  lines (content sock) = hs ++ blank :: more →
  ∃ bodies tail accept s', data = frames bodies ++ tail ∧ Forall body_ok bodies ∧ stopping tail ∧ accept_key v = Some accept ∧
    let js := sent_texts fl fmt order focus (if 0 <? nframes then nframes else 120) bodies in
    serve_viewer fl fmt order focus nframes data sock = Some s' ∧
    sent_ s' = sent_ sock ++ response accept ++ concat (frame_text <$> js) ∧
    ∀ viewer rest, steady viewer → Forall (λ j, zlen j < 2 ^ 63) js → content viewer = concat (frame_text <$> js) ++ rest →
      ∃ viewer', read_frames (length js) viewer = ((λ j, Frame j 1) <$> js, viewer') ∧ content viewer' = rest.
Proof.
  intros Hok Hl Hn Hs Ha Hk Hz Hb El. unfold serve_viewer.
  destruct (handshake_upgrades sock hs v blank more Hs Ha Hk Hz Hb El) as (accept & s1 & Eacc & -> & Esent & Ha1).
  cbn [mbind option_bind fst snd negb].
  set (target := if 0 <? nframes then nframes else 120).
  assert (Htgt : 0 < target < 2 ^ 63) by (unfold target; destruct (Z.ltb_spec 0 nframes); lia).
  destruct (stream_delivers fl fmt send_text order focus target data s1 Hok Hl Htgt) as (bodies & tail & -> & Hbo & Hst & ->).
  exists bodies, tail, accept. eexists. do 4 (split; [done|]). fold (sent_texts fl fmt order focus target bodies).
  set (js := sent_texts fl fmt order focus target bodies). split; [done|]. split; [by rewrite deliver_frames, Esent, app_assoc|].
  intros viewer rest Hv Hj Ec.
  destruct (read_frames_wire ((λ j, (129, None, j)) <$> js) viewer rest Hv) as (v' & E & Er).
  - apply Forall_fmap. eapply Forall_impl; [exact Hj|]. intros j Hj0. by split.
  - rewrite Ec, <- list_fmap_compose. done.
  - rewrite length_fmap, <- list_fmap_compose in E. exists v'. by split.
Qed.

Module WsBookWitness.

Definition listed (k : Z) (bs : BookSet) : list (Z * OrderBook) := map_to_list (books_ bs).

Definition dump_text (n : Z) : option (list Z) := dump ieee_floats Printf.fmt listed [] n demo_stream.

(** Two snapshots are asked for, one is printed. *)
Lemma dump_prints_fewer :
  dump_text 2 = Some (jlit "{'symbol':'SYNTH','seq':0,'bids':[[100,100]],'asks':[],'mid':0,'microprice':0,'imbalance':0,'spread_bps':0}" ++ [10]).
Proof. vm_compute. reflexivity. Qed.

Lemma wsbook_dump_snapshots_witness :
  ∃ js : list (list Z), dump_text 2 = Some (concat ((λ j, j ++ [10]) <$> js)) ∧ zlen js ≤ 2.
Proof.
  destruct (wsbook_dump_snapshots ieee_floats Printf.fmt listed [] 2 demo_stream) as (bodies & tail & _ & _ & _ & E & Hn & _).
  - apply (bool_decide_unpack _). vm_compute. exact I.
  - vm_compute. discriminate.
  - lia.
  - exists (sent_texts ieee_floats Printf.fmt listed [] 2 bodies). split; [exact E|exact Hn].
Defined.

(** A viewer whose request arrives in two pieces, the key header in capitals. *)

Definition odd_viewer : LineSocket :=
  let req := concat ((λ l, l ++ [10]) <$> (odd_request ++ [[13]])) in connection [Chunk (take 30 req); Chunk (drop 30 req)] [7; 3].

Lemma wsbook_viewer_sees_replay_witness :
  ∃ s' js accept, serve_viewer ieee_floats Printf.fmt listed [] 1 demo_stream odd_viewer = Some s' ∧
    accept_key kKey = Some accept ∧ sent_ s' = response accept ++ concat (frame_text <$> js).
Proof.
  destruct (wsbook_viewer_sees_replay ieee_floats Printf.fmt listed [] 1 demo_stream odd_viewer odd_request kKey [13] [])
    as (bodies & tail & accept & s' & _ & _ & _ & Ea & E & Es & _).
  - apply (bool_decide_unpack _). vm_compute. exact I.
  - vm_compute. discriminate.
  - lia.
  - split; [repeat constructor; discriminate|reflexivity].
  - split; [reflexivity|by repeat constructor].
  - apply odd_request_carries_key.
  - vm_compute. reflexivity.
  - reflexivity.
  - vm_compute. reflexivity.
  - exists s', (sent_texts ieee_floats Printf.fmt listed [] 1 bodies), accept. split; [exact E|split; [exact Ea|exact Es]].
Defined.

End WsBookWitness.
