(* ===== verification/Report.v ===== *)
(** The report of obreplay (apps/obreplay.cpp): the ranking of the symbols, the choice of the
    focal book and what is printed about it.  The traversal order of the books, [std::sort]
    (which leaves the order of equal counts open) and the text of a double are arguments; the
    lines in front of the report are in [Obreplay]. *)
From stdpp Require Import strings sorting.
From S2P Require Export Apps Metrics.
From S2P Require Import Json.

#[local] Open Scope list_scope.
#[local] Open Scope Z_scope.

Definition label (bs : BookSet) (locate : Z) : list Z :=
  let s := symbol bs locate in if decide (s = []) then lit "locate " ++ to_string locate else s.

(** * The ranking *)

(** What [std::sort] promises for [a.second > b.second]. *)

Class Ranking (sort : list (Z * Z) → list (Z * Z)) : Prop := {
  rank_perm : ∀ l, sort l ≡ₚ l;
  rank_sorted : ∀ l, StronglySorted (λ a b : Z * Z, b.2 ≤ a.2) (sort l);
}.

Section Report.
Context (fl : floats) `{FloatOps (D fl) (LD fl)} (show : D fl → list Z).
Context (sort : list (Z * Z) → list (Z * Z)).

Definition ranked (iter : list (Z * OrderBook)) : list (Z * Z) := sort ((λ kv, (kv.1, order_count kv.2)) <$> iter).

Definition dollars_text (p : Price) : list Z := show (to_dollars p).

Definition print_top (bs : BookSet) (locate : Z) : option (list Z) :=
  match book bs locate with
  | None => Some []
  | Some ob =>
      hb ← best_bid ob;
      ha ← best_ask ob;
      Some (lit "  [" ++ label bs locate ++ lit "]  "
        ++ match hb with Some (bp, bq) => lit "bid " ++ dollars_text bp ++ lit " x " ++ to_string bq | None => lit "bid (empty)" end
        ++ lit "  |  "
        ++ match ha with Some (ap, aq) => lit "ask " ++ dollars_text ap ++ lit " x " ++ to_string aq | None => lit "ask (empty)" end
        ++ lit "   (" ++ to_string (order_count ob) ++ lit " orders, " ++ to_string (bid_levels ob)
        ++ lit " bid / " ++ to_string (ask_levels ob) ++ lit " ask levels)" ++ [10])
  end.

Fixpoint print_tops (bs : BookSet) (r : list (Z * Z)) : option (list Z) :=
  match r with
  | [] => Some []
  | x :: r => t ← print_top bs x.1; ts ← print_tops bs r; Some (t ++ ts)
  end.

Definition print_ranked (bs : BookSet) (r : list (Z * Z)) : option (list Z) :=
  let shown := Z.min (zlen r) 10 in
  tops ← print_tops bs (take (Z.to_nat shown) r);
  Some ((if shown =? 0 then [] else [10] ++ lit "top symbols by resting orders:" ++ [10]) ++ tops).

(** * The focal book *)

(** The locate, if any, and what is printed when the symbol is unknown. *)

Definition choose_focus (focus : list Z) (bs : BookSet) (iter : list (Z * OrderBook)) (r : list (Z * Z)) :
    option Z * list Z :=
  let by_symbol :=
    if decide (focus = []) then None
    else match List.find (λ kv, bool_decide (symbol bs kv.1 = focus)) iter with
         | Some kv => Some kv.1
         | None =>
             match strtoll focus with
             | Some (L, _) => if decide (is_Some (book bs (u16 L))) then Some (u16 L) else None
             | None => None
             end
         end in
  match by_symbol with
  | Some loc => (Some loc, [])
  | None =>
      (fst <$> head r,
       if decide (focus = []) then []
       else [10] ++ jlit "(symbol '" ++ focus ++ jlit "' not found; showing the busiest)" ++ [10])
  end.

Definition print_levels (l : list (Price * Qty)) : list Z :=
  concat ((λ lv, lit "  " ++ dollars_text lv.1 ++ lit "x" ++ to_string lv.2) <$> l)
    ++ (if decide (l = []) then lit "  (empty)" else []).

Definition print_signals (mx : BookMetrics (D fl)) : list Z :=
  if two_sided mx then
    lit "signals:" ++ [10]
      ++ lit "  mid          " ++ show (mid mx) ++ [10]
      ++ lit "  micro-price  " ++ show (microprice mx) ++ [10]
      ++ lit "  spread       " ++ to_string (spread_ticks mx) ++ lit " ticks  (" ++ show (spread_bps mx) ++ lit " bps)" ++ [10]
      ++ lit "  imbalance    top " ++ show (imbalance_top mx) ++ lit "  / 5-level " ++ show (imbalance_n mx) ++ [10]
  else [].

Definition print_bar (b : Bar fl) : list Z :=
  lit "    o " ++ dollars_text (open fl b) ++ lit "  h " ++ dollars_text (high fl b) ++ lit "  l " ++ dollars_text (low fl b)
    ++ lit "  c " ++ dollars_text (close fl b) ++ lit "  v " ++ to_string (volume fl b) ++ lit "  vwap " ++ show (vwap fl b) ++ [10].

Definition print_tape (show_bars : bool) (tp : option (Tape fl)) : list Z :=
  match tp with
  | Some tape =>
      if has_last fl tape then
        lit "tape:" ++ [10] ++ lit "  last         " ++ dollars_text (last_ fl tape) ++ [10]
          ++ lit "  volume       " ++ to_string (volume_ fl tape) ++ [10]
          ++ lit "  vwap         " ++ show (vwap_ fl tape) ++ [10]
          ++ (if show_bars then
                let bs := bars fl tape true in
                lit "  OHLCV bars (" ++ to_string (zlen bs) ++ lit "):" ++ [10] ++ concat (print_bar <$> bs)
              else [])
      else []
  | None => []
  end.

(** [None] would be the null pointer of [book.book(focus_locate)]. *)

Definition print_focus (bs : BookSet) (tapes : gmap Z (Tape fl)) (show_bars : bool) (loc : Z) : option (list Z) :=
  ob ← book bs loc;
  bids_ ← bids ob 5;
  asks_ ← asks ob 5;
  mx ← compute_metrics ob 5;
  Some ([10] ++ lit "depth (best 5) for " ++ label bs loc ++ lit ":" ++ [10] ++ lit "  bids:" ++ print_levels bids_
    ++ [10] ++ lit "  asks:" ++ print_levels asks_ ++ [10]
    ++ print_signals mx ++ print_tape show_bars (tapes !! loc)).

Definition report (focus : list Z) (show_bars : bool) (bs : BookSet) (iter : list (Z * OrderBook)) (tapes : gmap Z (Tape fl)) :
    option (list Z) :=
  let r := ranked iter in
  tops ← print_ranked bs r;
  let '(focus_locate, msg) := choose_focus focus bs iter r in
  depth ← match focus_locate with Some loc => print_focus bs tapes show_bars loc | None => Some [] end;
  Some (lit "books: " ++ to_string (book_count bs) ++ lit " symbol(s), " ++ to_string (total_orders iter) ++ lit " resting orders"
    ++ [10] ++ tops ++ msg ++ depth ++ [10]).

End Report.

(** * Properties *)

Section ReportFacts.
Context (fl : floats) `{FloatOps (D fl) (LD fl)} (show : D fl → list Z).
Context (sort : list (Z * Z) → list (Z * Z)) `{!Ranking sort}.

Lemma print_tops_total bs r : is_Some (print_tops fl show bs r).
Proof.
  induction r as [|x r [ts IH]]; [by eexists|]. cbn [print_tops].
  assert (Ht : is_Some (print_top fl show bs x.1)).
  { unfold print_top, best_bid, best_ask, ls_best. destruct (book bs x.1); by eexists. }
  destruct Ht as [t ->]. rewrite IH. by eexists.
Qed.

Lemma print_focus_total bs tapes show_bars loc ob : book bs loc = Some ob → is_Some (print_focus fl show bs tapes show_bars loc).
Proof.
  intros E. unfold print_focus, bids, asks, ls_top. rewrite E. cbn [MapLevels_store mbind option_bind].
  destruct (map_metrics_total (D := D fl) ob 5) as [mx ->]. by eexists.
Qed.

Lemma traversal_book bs iter loc ob : iter ≡ₚ map_to_list (books_ bs) → (loc, ob) ∈ iter ↔ book bs loc = Some ob.
Proof. intros Hp. rewrite Hp. apply elem_of_map_to_list. Qed.

Lemma ranked_elem bs iter loc n :
  iter ≡ₚ map_to_list (books_ bs) → (loc, n) ∈ ranked sort iter ↔ ∃ ob, book bs loc = Some ob ∧ n = order_count ob.
Proof.
  intros Hp. unfold ranked. rewrite rank_perm, list_elem_of_fmap. split.
  - intros ([l ob] & [= -> ->] & Hin). exists ob. by rewrite <- (traversal_book bs iter).
  - intros (ob & Hb & ->). exists (loc, ob). split; [done|]. by apply (traversal_book bs iter).
Qed.

(** The head of the ranking is a busiest book. *)
Lemma busiest bs iter loc n :
  iter ≡ₚ map_to_list (books_ bs) → head (ranked sort iter) = Some (loc, n) →
  ∃ ob, book bs loc = Some ob ∧ ∀ l b, book bs l = Some b → order_count b ≤ order_count ob.
Proof.
  intros Hp Eh. pose proof (rank_sorted (sort := sort) ((λ kv : Z * OrderBook, (kv.1, order_count kv.2)) <$> iter)) as Hs. fold (ranked sort iter) in Hs.
  destruct (ranked sort iter) as [|x r] eqn:Er; [done|]. injection Eh as ->.
  assert (Hin : (loc, n) ∈ ranked sort iter) by (rewrite Er; left). apply (ranked_elem bs iter) in Hin as (ob & Hb & ->); [|done].
  exists ob. split; [done|]. intros l b Hl.
  assert (Hin : (l, order_count b) ∈ ranked sort iter) by (apply (ranked_elem bs iter); eauto). rewrite Er in Hin.
  apply StronglySorted_inv in Hs as [_ Hs]. rewrite Forall_forall in Hs. apply elem_of_cons in Hin as [[= _ ->]|Hin]; [done|].
  exact (Hs _ Hin).
Qed.

Lemma find_symbol focus bs iter :
  iter ≡ₚ map_to_list (books_ bs) →
  match List.find (λ kv, bool_decide (symbol bs kv.1 = focus)) iter with
  | Some kv => is_Some (book bs kv.1) ∧ symbol bs kv.1 = focus
  | None => ∀ l, is_Some (book bs l) → symbol bs l ≠ focus
  end.
Proof.
  intros Hp. destruct (List.find _ iter) as [[loc ob]|] eqn:Ef.
  - apply List.find_some in Ef as [Hin Hs]. apply bool_decide_eq_true in Hs. apply list_elem_of_In in Hin.
    apply (traversal_book bs iter) in Hin; [|done]. split; [by eexists|done].
  - intros l [ob Hob] Hs. apply (traversal_book bs iter) in Hob; [|done]. apply list_elem_of_In in Hob.
    pose proof (List.find_none _ _ Ef _ Hob) as Hf. by apply bool_decide_eq_false in Hf.
Qed.

(** What [choose_focus] returns: a book named by the argument, or the head of the ranking. *)
Lemma choose_focus_cases focus bs iter r :
  iter ≡ₚ map_to_list (books_ bs) →
  (∃ loc, (choose_focus focus bs iter r).1 = Some loc ∧ is_Some (book bs loc) ∧ focus ≠ [] ∧
     (symbol bs loc = focus ∨ (∀ l, is_Some (book bs l) → symbol bs l ≠ focus) ∧ strtoll focus ≠ None)) ∨
  (choose_focus focus bs iter r).1 = fst <$> head r ∧ (focus = [] ∨ ∀ l, is_Some (book bs l) → symbol bs l ≠ focus).
Proof.
  intros Hp. unfold choose_focus. destruct (decide (focus = [])) as [->|Hne]; [right; by eauto|].
  pose proof (find_symbol focus bs iter Hp) as Hno. destruct (List.find _ iter) as [[loc ob]|].
  - left. destruct Hno as [Hb Hs]. exists loc. split_and!; [done|done|done|by left].
  - destruct (strtoll focus) as [[L rest]|] eqn:El; [|right; by eauto].
    destruct (decide (is_Some (book bs (u16 L)))); [|right; by eauto].
    left. exists (u16 L). split_and!; [done|done|done|by right].
Qed.

Lemma ranked_head_none bs iter : iter ≡ₚ map_to_list (books_ bs) → head (ranked sort iter) = None → books_ bs = ∅.
Proof.
  intros Hp Eh. apply map_empty. intros loc. destruct (books_ bs !! loc) as [ob|] eqn:E; [|done].
  assert (Hin : (loc, order_count ob) ∈ ranked sort iter) by (apply (ranked_elem bs iter); eauto).
  destruct (ranked sort iter); [by apply not_elem_of_nil in Hin|done].
Qed.

Lemma chosen_exists focus bs iter loc msg :
  iter ≡ₚ map_to_list (books_ bs) → choose_focus focus bs iter (ranked sort iter) = (Some loc, msg) → is_Some (book bs loc).
Proof.
  intros Hp Ec. destruct (choose_focus_cases focus bs iter (ranked sort iter) Hp) as [(l & E & Hl & _)|[E _]]; rewrite Ec in E; simpl in E.
  - by simplify_eq.
  - destruct (head (ranked sort iter)) as [[l n]|] eqn:Eh; [|done]. simplify_eq/=.
    destruct (busiest bs iter l n Hp Eh) as (ob & Hob & _). by eexists.
Qed.

Lemma report_total focus show_bars bs iter tapes :
  iter ≡ₚ map_to_list (books_ bs) → is_Some (report fl show sort focus show_bars bs iter tapes).
Proof.
  intros Hp. unfold report, print_ranked.
  destruct (print_tops_total bs (take (Z.to_nat (Z.min (zlen (ranked sort iter)) 10)) (ranked sort iter))) as [ts ->].
  cbn [mbind option_bind]. destruct (choose_focus _ _ _ _) as [[loc|] msg] eqn:Ec; [|by eexists].
  destruct (chosen_exists _ _ _ _ _ Hp Ec) as [ob Hob]. destruct (print_focus_total bs tapes show_bars loc ob Hob) as [d ->]. by eexists.
Qed.

(** ** Traversal orders *)

(** No two books tie in the ranking, and at most one has the symbol asked for. *)

Definition unambiguous (focus : list Z) (bs : BookSet) : Prop :=
  (∀ l l' b b', book bs l = Some b → book bs l' = Some b' → order_count b = order_count b' → l = l') ∧
  (∀ l l', is_Some (book bs l) → is_Some (book bs l') → symbol bs l = focus → symbol bs l' = focus → l = l').

Lemma ranked_traversal focus bs iter iter' :
  iter ≡ₚ map_to_list (books_ bs) → iter' ≡ₚ map_to_list (books_ bs) → unambiguous focus bs → ranked sort iter = ranked sort iter'.
Proof.
  intros Hp Hp' [Hties _]. eapply (StronglySorted_unique_strong (λ a b : Z * Z, b.2 ≤ a.2)); [|unfold ranked; apply rank_sorted..|].
  - intros [l n] [l' n'] Hin Hin' H1 H2. simpl in H1, H2. apply (ranked_elem bs iter) in Hin as (b & Hb & ->); [|done].
    apply (ranked_elem bs iter') in Hin' as (b' & Hb' & ->); [|done]. assert (E : order_count b = order_count b') by lia.
    rewrite (Hties l l' b b' Hb Hb' E). by rewrite E.
  - unfold ranked. by rewrite !rank_perm, Hp, Hp'.
Qed.

(** Without ties the report does not depend on the order in which the books are traversed. *)
Lemma report_traversal focus show_bars bs iter iter' tapes :
  iter ≡ₚ map_to_list (books_ bs) → iter' ≡ₚ map_to_list (books_ bs) → unambiguous focus bs →
  report fl show sort focus show_bars bs iter tapes = report fl show sort focus show_bars bs iter' tapes.
Proof.
  intros Hp Hp' Hu. unfold report. rewrite (ranked_traversal focus bs iter iter') by done.
  rewrite (total_orders_perm iter iter') by (by rewrite Hp, Hp').
  assert (choose_focus focus bs iter (ranked sort iter') = choose_focus focus bs iter' (ranked sort iter')) as ->; [|done].
  unfold choose_focus. pose proof (find_symbol focus bs iter Hp) as F. pose proof (find_symbol focus bs iter' Hp') as F'.
  destruct (List.find _ iter) as [[l ob]|], (List.find _ iter') as [[l' ob']|]; simpl in *; try done.
  - by rewrite (proj2 Hu l l') by naive_solver.
  - by destruct (F' l (proj1 F) (proj2 F)).
  - by destruct (F l' (proj1 F') (proj2 F')).
Qed.

(** The report of obreplay never follows a null pointer: whatever the books, the traversal
    order and the argument of [--symbol], it prints to the end, and the book whose depth it
    shows exists.  The ranking lists every book once with its order count, busiest first.  A
    symbol that belongs to a book is the one shown; without [--symbol], or when it is neither a
    symbol nor a number, the book shown has the most resting orders; nothing is shown only if
    there are no books. *)
Theorem obreplay_report_safe focus show_bars bs iter tapes :
  iter ≡ₚ map_to_list (books_ bs) →
  is_Some (report fl show sort focus show_bars bs iter tapes) ∧
  StronglySorted (λ a b : Z * Z, b.2 ≤ a.2) (ranked sort iter) ∧
  (∀ loc n, (loc, n) ∈ ranked sort iter ↔ ∃ ob, book bs loc = Some ob ∧ n = order_count ob) ∧
  match (choose_focus focus bs iter (ranked sort iter)).1 with
  | None => books_ bs = ∅
  | Some loc => ∃ ob, book bs loc = Some ob ∧
      (focus ≠ [] → (∃ l, is_Some (book bs l) ∧ symbol bs l = focus) → symbol bs loc = focus) ∧
      (focus = [] ∨ (∀ l, is_Some (book bs l) → symbol bs l ≠ focus) ∧ strtoll focus = None →
       ∀ l b, book bs l = Some b → order_count b ≤ order_count ob)
  end.
Proof.
  intros Hp. split_and!.
  - by apply report_total.
  - unfold ranked. apply rank_sorted.
  - intros loc n. by apply ranked_elem.
  - destruct (choose_focus_cases focus bs iter (ranked sort iter) Hp) as [(loc & -> & [ob Hob] & Hne & Hs)|[-> Hs]].
    + exists ob. split; [done|]. split.
      * intros _ (l & Hl & Hf). destruct Hs as [Hs|[Hs _]]; [done|]. by destruct (Hs l Hl).
      * intros [?|[Hno Hz]]; [done|]. destruct Hs as [Hs|[_ Hs]]; [|done]. destruct (Hno loc); eauto.
    + destruct (head (ranked sort iter)) as [[loc n]|] eqn:Eh; cbn; [|by apply (ranked_head_none bs iter)].
      destruct (busiest bs iter loc n Hp Eh) as (ob & Hob & Hmax). exists ob. split; [done|]. split; [|done].
      intros Hne (l & Hl & Hf). destruct Hs as [?|Hs]; [done|]. by destruct (Hs l Hl).
Qed.
End ReportFacts.

Module ReportWitness.

Definition by_count (a b : Z * Z) : Prop := b.2 ≤ a.2.

#[local] Instance by_count_dec : RelDecision by_count := λ a b, decide (b.2 ≤ a.2).

#[local] Instance by_count_trans : Transitive by_count.
Proof. unfold by_count. intros a b c. lia. Qed.

#[local] Instance by_count_total : Total by_count.
Proof. unfold by_count. intros a b. lia. Qed.

#[local] Instance merge_ranking : Ranking (merge_sort by_count).
Proof. split; [apply merge_sort_Permutation|apply (StronglySorted_merge_sort by_count)]. Qed.

#[local] Instance exact_floats_ops : FloatOps (D exact_floats) (LD exact_floats) := WholeFloats.whole_ops.

Definition demo_set : BookSet := default set0 (snd <$> replay_set demo_stream (zlen demo_stream)).

Lemma obreplay_report_safe_witness :
  is_Some (report exact_floats to_string (merge_sort by_count) (lit "2") true demo_set (map_to_list (books_ demo_set)) ∅) ∧
  (choose_focus (lit "2") demo_set (map_to_list (books_ demo_set)) (ranked (merge_sort by_count) (map_to_list (books_ demo_set)))).1
    = Some 2.
Proof.
  split; [|vm_compute; reflexivity].
  exact (proj1 (obreplay_report_safe exact_floats to_string (merge_sort by_count) (lit "2") true demo_set
    (map_to_list (books_ demo_set)) ∅ (Permutation_refl _))).
Defined.

(** Two books with one order each: which one is shown depends on the traversal. *)

Definition tied_set : BookSet :=
  let data := write_stream [WAdd 1 34200000000000 1 66 100 1000000; WAdd 2 34200000000001 2 83 50 1000200] in
  default set0 (snd <$> replay_set data (zlen data)).

Definition busiest_of (iter : list (Z * OrderBook)) : option Z := (choose_focus [] tied_set iter (ranked (merge_sort by_count) iter)).1.

Lemma ties_follow_traversal :
  let iter := map_to_list (books_ tied_set) in busiest_of iter ≠ busiest_of (rev iter).
Proof. vm_compute. discriminate. Qed.

End ReportWitness.
