(* ===== verification/Cli.v ===== *)
(** What the command-line programs share: reading a number from an argument ([std::strtol]) and
    what a run leaves behind.  [long] has 64 bits, as on the platforms the program builds for. *)
From stdpp Require Import strings.
From S2P Require Export Text.
From S2P Require Import Json.

#[local] Open Scope list_scope.
#[local] Open Scope Z_scope.

(** [std::strtol(s, nullptr, 10)]: zero when there is no number. *)

Definition strtol (s : list Z) : Z := match strtoll s with Some (v, _) => v | None => 0 end.

(** The exit code and what was written to the two output streams. *)

Record process := mkProcess { exit_code : Z; cout : list Z; cerr : list Z }.

(** * Numbers in arguments *)

Lemma digits_whole ds : Forall (λ c, is_digit c = true) ds → skip_digits ds = [].
Proof. induction 1 as [|d ds Hd _ IH]; [done|]. simpl. by rewrite Hd. Qed.

(** A printed number is read back, to its end. *)
Lemma strtoll_whole z : strtoll (to_string z) = Some (clamp64 z, []).
Proof.
  unfold to_string. destruct (Z.ltb_spec z 0) as [Hz|Hz].
  - pose proof (dec_digits_ok (- z) ltac:(lia)) as Hf. pose proof (dec_digits_value (- z) ltac:(lia)) as Ev.
    pose proof (digits_whole _ Hf) as Es. assert (Hne : dec_digits (- z) ≠ []) by (apply dec_loop_nonempty; by left).
    destruct (dec_digits (- z)) as [|d ds]; [done|]. apply Forall_cons in Hf as [Hd _]. unfold strtoll.
    cbn [skip_space]. change (is_space 45) with false. cbv iota. change (45 =? 45) with true. cbv iota.
    rewrite Hd, Ev, Es. by rewrite Z.opp_involutive.
  - pose proof (dec_digits_ok z ltac:(lia)) as Hf. pose proof (dec_digits_value z ltac:(lia)) as Ev.
    pose proof (digits_whole _ Hf) as Es. assert (Hne : dec_digits z ≠ []) by (apply dec_loop_nonempty; by left).
    destruct (dec_digits z) as [|d ds]; [done|]. apply Forall_cons in Hf as [Hd _]. unfold strtoll. cbn [skip_space].
    assert (is_space d = false ∧ (d =? 45) = false ∧ (d =? 43) = false) as (-> & -> & ->) by (unfold is_digit, is_space in *; lia).
    by rewrite Hd, Ev, Es.
Qed.

Lemma strtol_to_string z : - 2 ^ 63 ≤ z < 2 ^ 63 → strtol (to_string z) = z.
Proof. intros Hz. unfold strtol. rewrite strtoll_whole. by apply clamp64_id. Qed.

Lemma strtoll_range s v rest : strtoll s = Some (v, rest) → - 2 ^ 63 ≤ v < 2 ^ 63.
Proof.
  unfold strtoll. intros H. repeat case_match; simplify_eq; unfold clamp64; lia.
Qed.

Lemma strtol_range s : - 2 ^ 63 ≤ strtol s < 2 ^ 63.
Proof. unfold strtol. destruct (strtoll s) as [[v rest]|] eqn:E; [by eapply strtoll_range|lia]. Qed.
