(* ===== verification/Obreplay.v ===== *)
(** The whole program obreplay (apps/obreplay.cpp): its options, the input it loads or
    generates, the passes over it and what it prints.  The file system, the zlib build option
    and library, the random engine, the clock, the schedule of the worker threads, the traversal
    orders of hash tables and the texts of doubles are arguments.  The order of a hash table depends
    on how it was filled, so it may differ with the input and with the number of threads. *)
From stdpp Require Import strings sorting.
From S2P Require Import Doubles.
From S2P Require Export Cli Report SyntheticMulti.

#[local] Open Scope list_scope.
#[local] Open Scope Z_scope.

(** * Options *)

Record options := mkOptions {
  focus : list Z;
  synth : Z;
  file : list Z;
  show_bars : bool;
  threads : Z;
  symbols : Z;
}.

Definition options0 : options := mkOptions [] 0 [] false 1 1.

(** The options with a value, which apply when there is a next argument. *)

Definition value_option (a v : list Z) (o : options) : option options :=
  if decide (a = lit "--symbol") then Some (mkOptions v (synth o) (file o) (show_bars o) (threads o) (symbols o))
  else if decide (a = lit "--synthetic") then Some (mkOptions (focus o) (strtol v) (file o) (show_bars o) (threads o) (symbols o))
  else if decide (a = lit "--threads") then Some (mkOptions (focus o) (synth o) (file o) (show_bars o) (strtol v) (symbols o))
  else if decide (a = lit "--symbols") then Some (mkOptions (focus o) (synth o) (file o) (show_bars o) (threads o) (strtol v))
  else None.

(** [None]: the usage is printed. *)

Definition plain_option (a : list Z) (o : options) : option options :=
  if decide (a = lit "--bars") then Some (mkOptions (focus o) (synth o) (file o) true (threads o) (symbols o))
  else match a with
       | c :: _ => if negb (c =? 45) then Some (mkOptions (focus o) (synth o) a (show_bars o) (threads o) (symbols o)) else None
       | [] => None
       end.

Fixpoint parse_args (args : list (list Z)) (o : options) : option options :=
  match args with
  | [] => Some o
  | a :: rest =>
      match rest with
      | v :: rest' =>
          match value_option a v o with
          | Some o => parse_args rest' o
          | None => o ← plain_option a o; parse_args rest o
          end
      | [] => plain_option a o
      end
  end.

Definition usage : list Z :=
  lit "usage:" ++ [10]
    ++ lit "  obreplay <capture.itch | capture.gz> [--symbol SYM] [--bars] [--threads W]" ++ [10]
    ++ lit "  obreplay --synthetic <N> [--symbols K] [--symbol SYM] [--bars] [--threads W]" ++ [10].

(** * Input *)

Definition ends_with (s suf : list Z) : bool :=
  (zlen suf <=? zlen s) && bool_decide (drop (length s - length suf) s = suf).

(** The results of [gzread] up to the first that is not positive. *)

Fixpoint gz_loop (reads : list (list Z)) (out : list Z) : list Z :=
  match reads with
  | [] => out
  | buf :: reads => if 0 <? zlen buf then gz_loop reads (out ++ buf) else out
  end.

Section Input.

(** [read_file path]: the content, if the file opens.  [zlib]: whether the program was built with
    zlib and, if so, the reads of the file, if it opens. *)

Context (read_file : list Z → option (list Z)) (zlib : option (list Z → option (list (list Z)))).
Context (engine : Z → nat → Z).

Definition cannot_open (path : list Z) : list Z := lit "error: cannot open " ++ path ++ [10].

(** An error message or the data. *)

Definition load_file (path : list Z) : list Z + list Z :=
  if ends_with path (lit ".gz") then
    match zlib with
    | Some gz => match gz path with Some reads => inr (gz_loop reads []) | None => inl (cannot_open path) end
    | None =>
        inl (lit "error: " ++ path ++ lit " is gzip but this build has no zlib." ++ [10]
               ++ lit "       gunzip it first, or rebuild with zlib available." ++ [10])
    end
  else match read_file path with Some d => inr d | None => inl (cannot_open path) end.

(** An exit code and an error message, or the name and the bytes of the source. *)

Inductive input : Type := Refused (code : Z) (err : list Z) | Loaded (source data : list Z).

Definition select (o : options) : option input :=
  if 0 <? synth o then
    data ← (if 1 <? symbols o then make_synthetic_multi (engine 1) (Z.to_nat (synth o)) (Z.to_nat (u32 (symbols o)))
            else make_synthetic_itch (engine 1) (Z.to_nat (synth o)));
    Some (Loaded (lit "synthetic(" ++ to_string (synth o)
                    ++ (if 1 <? symbols o then lit ", " ++ to_string (symbols o) ++ lit " symbols)" else lit ")")) data)
  else if decide (file o = []) then Some (Refused 2 usage)
  else match load_file (file o) with
       | inl err => Some (Refused 1 err)
       | inr data => Some (Loaded (file o) data)
       end.

End Input.

(** * The program *)

Section Main.
Context (fl : floats) `{FloatOps (D fl) (LD fl)} (show : D fl → list Z).
Context (sort : list (Z * Z) → list (Z * Z)).
Context (read_file : list Z → option (list Z)) (zlib : option (list Z → option (list (list Z)))).
Context (engine : Z → nat → Z).

(** The traversal orders of the final books and of the shards', which depend on the input and on the
    number of threads, the time of the first pass, the readings of the second and the ranks of the
    percentiles. *)

Context (iter : list Z → Z → BookSet → list (Z * OrderBook)).
Context (orders : list Z → Z → BookSet → list (Z * OrderBook) * list (Z * list Z)).
Context (ns : D fl) (clock : Z → Z) (i50 i99 i999 : Z → Z).

Definition banner (source : list Z) (bytes n : Z) : list Z :=
  lit "obreplay  source=" ++ source ++ [10]
    ++ lit "  bytes        " ++ to_string bytes ++ [10]
    ++ lit "  messages     " ++ to_string n ++ [10]
    ++ lit "  wall time    " ++ show (d_div ns (d_of_int 1000000)) ++ lit " ms" ++ [10]
    ++ lit "  throughput   " ++ show (d_div (d_of_int n) (d_div ns (d_of_int 1000000000))) ++ lit " msg/s" ++ [10]
    ++ lit "  per message  " ++ show (d_div ns (d_of_int (if n =? 0 then 1 else n))) ++ lit " ns (amortized)" ++ [10; 10].

Definition hist_mean (h : LatencyHist) : D fl :=
  LatencyHist.mean Metrics.ld_zero (λ s v, Metrics.ld_add s (ld_of_int v)) (λ s n, Metrics.ld_div s (ld_of_int n))
    ld_to_double Metrics.d_zero h.

Definition print_hist (h : LatencyHist) : option (list Z) :=
  print show (hist_mean h) i50 i99 i999 h (lit "per-message decode+apply latency [includes timer overhead; see README]").

(** The passes over the data and the report; [None] is undefined behaviour, or threads that have
    not ended under the schedule. *)

Definition process_data (sched : list nat) (o : options) (source data : list Z) : option process :=
  let threads := if threads o <? 1 then 1 else threads o in
  nb ← (if 1 <? threads then replay_sharded sched (orders data threads) data (zlen data) set0 (u32 threads)
        else replay_set data (zlen data));
  tapes ← fill_tapes fl data;
  lat ← latency_pass clock data;
  rep ← report fl show sort (focus o) (show_bars o) nb.2 (iter data threads nb.2) tapes;
  hist ← print_hist lat.2;
  Some (mkProcess 0 (banner source (zlen data) nb.1 ++ rep ++ hist) []).

Definition main (sched : list nat) (args : list (list Z)) : option process :=
  match parse_args args options0 with
  | None => Some (mkProcess 2 [] usage)
  | Some o =>
      i ← select read_file zlib engine o;
      match i with
      | Refused code err => Some (mkProcess code [] err)
      | Loaded source data =>
          if decide (data = []) then Some (mkProcess 1 [] (lit "error: empty input" ++ [10]))
          else process_data sched o source data
      end
  end.

End Main.

(** * Options read back *)

(** A command line for given options: those that differ from the defaults, the file last. *)

Definition option_args (o : options) : list (list Z) :=
  [lit "--symbol"; focus o; lit "--synthetic"; to_string (synth o); lit "--threads"; to_string (threads o);
   lit "--symbols"; to_string (symbols o)]
    ++ (if show_bars o then [lit "--bars"] else []) ++ (if decide (file o = []) then [] else [file o]).

Definition long_range (v : Z) : Prop := - 2 ^ 63 ≤ v < 2 ^ 63.

Lemma parse_value a v rest o o' : value_option a v o = Some o' → parse_args (a :: v :: rest) o = parse_args rest o'.
Proof. intros E. cbn [parse_args]. by rewrite E. Qed.

(** The file comes last, so the next argument cannot be taken for its value. *)
Lemma parse_file f o :
  f ≠ [] → head f ≠ Some 45 →
  parse_args [f] o = Some (mkOptions (focus o) (synth o) f (show_bars o) (threads o) (symbols o)).
Proof.
  intros Hne Hf. destruct f as [|c f]; [done|]. cbn [parse_args]. unfold plain_option. simpl in Hf.
  rewrite decide_False by (intros [= -> _]; done). destruct (Z.eqb_spec c 45); [congruence|done].
Qed.

(** Every combination of options can be given, and is read as it was given. *)
Lemma parse_option_args o :
  long_range (synth o) → long_range (threads o) → long_range (symbols o) → head (file o) ≠ Some 45 →
  parse_args (option_args o) options0 = Some o.
Proof.
  intros H1 H2 H3 Hf. destruct o as [fo sy fi sb th sm]. unfold option_args. cbn [focus synth file show_bars threads symbols app] in *.
  do 4 (erewrite parse_value by reflexivity). cbn [focus synth file show_bars threads symbols options0].
  rewrite !strtol_to_string by done. destruct (decide (fi = [])) as [->|Hne].
  - by destruct sb.
  - destruct sb; cbn [app]; [|by rewrite parse_file]. cbn [parse_args].
    change (value_option (lit "--bars") fi _) with (@None options). cbv iota. change (plain_option (lit "--bars") ?o) with
      (Some (mkOptions (focus o) (synth o) (file o) true (threads o) (symbols o))). cbn [mbind option_bind].
    exact (parse_file fi _ Hne Hf).
Qed.

(** * Input that can be replayed *)

Definition data_ok (d : list Z) : Prop := bytes_ok d ∧ zlen d ≤ 2 ^ 32.

Section InputFacts.
Context (read_file : list Z → option (list Z)) (zlib : option (list Z → option (list (list Z)))) (engine : Z → nat → Z).

(** Files of bytes, of up to 4 GB. *)

Definition files_ok : Prop :=
  (∀ p d, read_file p = Some d → data_ok d) ∧
  (∀ gz p reads, zlib = Some gz → gz p = Some reads → data_ok (gz_loop reads [])).

(** What the generators are asked for. *)

Definition options_ok (o : options) : Prop := synth o ≤ max_messages ∧ symbols o ≤ 65535.

Lemma written_data_ok ws : Forall wire_ok ws → zlen ws ≤ max_messages → data_ok (write_stream ws).
Proof.
  intros Hw Hl. split; [by apply write_stream_ok|]. pose proof (write_stream_zlen ws Hw). unfold max_messages in Hl. lia.
Qed.

Lemma load_file_ok path d : files_ok → load_file read_file zlib path = inr d → data_ok d.
Proof.
  intros [Hf Hz] E. unfold load_file in E. destruct (ends_with _ _).
  - destruct zlib as [gz|] eqn:Eg; [|done]. destruct (gz path) as [reads|] eqn:Er; [|done]. simplify_eq. by eapply Hz.
  - destruct (read_file path) eqn:Er; [|done]. simplify_eq. by eapply Hf.
Qed.

(** Selecting the input is defined, refuses with 1 or 2, and loads what can be replayed. *)
Lemma select_spec o :
  files_ok → options_ok o →
  ∃ i, select read_file zlib engine o = Some i ∧
    match i with Refused code err => (code = 1 ∨ code = 2) ∧ synth o ≤ 0 | Loaded source data => data_ok data end.
Proof.
  intros Hf [Hn Hs]. unfold select. destruct (Z.ltb_spec 0 (synth o)) as [Hp|Hp].
  - assert (Hg : ∃ ws, (if 1 <? symbols o then make_synthetic_multi (engine 1) (Z.to_nat (synth o)) (Z.to_nat (u32 (symbols o)))
        else make_synthetic_itch (engine 1) (Z.to_nat (synth o))) = Some (write_stream ws) ∧ Forall wire_ok ws ∧ zlen ws ≤ max_messages).
    { destruct (Z.ltb_spec 1 (symbols o)).
      - destruct (multi_stream (engine 1) (Z.to_nat (synth o)) (Z.to_nat (u32 (symbols o)))) as (ws & E & El & Hw);
          [lia|rewrite u32_small by lia; lia|]. exists ws. split_and!; [done|done|lia].
      - destruct (itch_stream (engine 1) (Z.to_nat (synth o))) as (ws & next & E & El & Hw); [lia|].
        exists ws. split_and!; [done|apply Hw|lia]. }
    destruct Hg as (ws & -> & Hw & Hl). eexists. split; [done|]. by apply written_data_ok.
  - destruct (decide (file o = [])); [eexists; split; [done|]; split; [by right|lia]|].
    destruct (load_file read_file zlib (file o)) as [err|d] eqn:El; (eexists; split; [done|]); [split; [by left|lia]|by eapply load_file_ok].
Qed.

End InputFacts.

(** * What the program does *)

Section MainFacts.
Context (fl : floats) `{FloatOps (D fl) (LD fl)} (show : D fl → list Z).
Context (sort : list (Z * Z) → list (Z * Z)) `{!Ranking sort}.
Context (read_file : list Z → option (list Z)) (zlib : option (list Z → option (list (list Z)))) (engine : Z → nat → Z).
Context (iter : list Z → Z → BookSet → list (Z * OrderBook)).
Context (orders : list Z → Z → BookSet → list (Z * OrderBook) * list (Z * list Z)).
Context (ns : D fl) (clock : Z → Z) (i50 i99 i999 : Z → Z).

Hypothesis files : files_ok read_file zlib.
Hypothesis iter_ok : ∀ data threads bs, iter data threads bs ≡ₚ map_to_list (books_ bs).
Hypothesis orders_ok : ∀ data threads bs, traversal bs (orders data threads bs).
Hypothesis ranks_ok : ∀ n, 0 ≤ i50 n ∧ 0 ≤ i99 n ∧ 0 ≤ i999 n.

(** The number of threads of a run. *)

Definition threads_of (o : options) : Z := if threads o <? 1 then 1 else threads o.

(** The output for data, by its records: [bodies] complete records and an incomplete [tail], the
    books [bs] of the decoded messages in order, the tapes of the trades, one reading per record. *)

Definition output (o : options) (source data : list Z) (bs : BookSet) (out : list Z) : Prop :=
  ∃ bodies tail tapes rep hist,
    data = frames bodies ++ tail ∧ Forall body_ok bodies ∧ stopping tail ∧
    apply_set set0 (messages bodies) = Some bs ∧
    (∀ loc, tapes !! loc = tape_of fl (trades_at loc (messages bodies))) ∧
    report fl show sort (focus o) (show_bars o) bs (iter data (threads_of o) bs) tapes = Some rep ∧
    print_hist fl show i50 i99 i999 (readings clock (length bodies) 0) = Some hist ∧
    out = banner fl show ns source (zlen data) (zlen (messages bodies)) ++ rep ++ hist.

Definition the_run (sched : list nat) (o : options) (source data : list Z) : option process :=
  process_data fl show sort iter orders ns clock i50 i99 i999 sched o source data.

(** Options that ask for the same report. *)

Definition same_view (o o' : options) : Prop := focus o' = focus o ∧ show_bars o' = show_bars o.

Lemma process_data_spec o source data :
  data_ok data →
  ∃ bs out, output o source data bs out ∧
    (∀ sched, the_run sched o source data = Some (mkProcess 0 out []) ∨ (1 < threads o ∧ the_run sched o source data = None)) ∧
    (∀ sched, fair (Z.to_nat (clamp_workers (u32 (threads o)))) sched →
       ∃ k, the_run (sched <$> seq 0 k) o source data = Some (mkProcess 0 out [])).
Proof using iter_ok orders_ok ranks_ok Ranking0.
  intros [Hok Hl].
  destruct (obreplay_passes_agree fl clock data Hok Hl) as (bodies & tail & bs & tapes & Ed & Hb & Hst & Ebs & Es & El & Et & Htapes).
  destruct (report_total fl show sort (focus o) (show_bars o) bs (iter data (threads_of o) bs) tapes) as [rep Er]; [apply iter_ok|].
  destruct (print_total show (hist_mean fl (readings clock (length bodies) 0)) i50 i99 i999 (readings clock (length bodies) 0)
    (lit "per-message decode+apply latency [includes timer overhead; see README]") ranks_ok) as [hist Eh].
  exists bs, (banner fl show ns source (zlen data) (zlen (messages bodies)) ++ rep ++ hist).
  split; [by exists bodies, tail, tapes, rep, hist|].
  unfold the_run, process_data. fold (threads_of o). cbv zeta. rewrite Es, Et, El. unfold print_hist. cbn [mbind option_bind snd]. rewrite Eh.
  destruct (Z.ltb_spec 1 (threads_of o)) as [Hw|Hw].
  2: { cbn -[report banner]. rewrite Er. split; [by left|]. intros sched _. by exists 0%nat. }
  assert (Ew : threads_of o = threads o) by (unfold threads_of in *; destruct (Z.ltb_spec (threads o) 1); lia). rewrite Ew in *.
  destruct (sharded_runs data (u32 (threads o)) (orders data (threads o)) Hok ltac:(lia)) as (m0 & n & bs' & _ & Es' & _ & Hall & Hfair);
    [apply orders_ok|]. rewrite Es in Es'. simplify_eq. split.
  - intros sched. rewrite Hall. destruct (all_done _); [left; cbn -[report banner]; by rewrite Er|by right].
  - intros sched [k Hk]%Hfair. exists k. rewrite Hall, Hk. cbn -[report banner]. by rewrite Er.
Qed.

(** What the output is does not depend on the threads, where the traversal order does not show. *)
Lemma output_threads o o' source data bs bs' out out' :
  data_ok data → same_view o o' → output o source data bs out → output o' source data bs' out' →
  iter data (threads_of o') bs = iter data (threads_of o) bs ∨ unambiguous (focus o) bs → out' = out.
Proof using iter_ok Ranking0.
  intros [Hok Hl] [Ef Eb] (b & t & tp & rep & h & Ed & Hb & Hs & Ea & Et & Er & Eh & ->)
    (b' & t' & tp' & rep' & h' & Ed' & Hb' & Hs' & Ea' & Et' & Er' & Eh' & ->) Hiter.
  destruct (frames_unique b b' t t') as [<- <-]; [done|done|done|done|congruence|].
  rewrite Ea in Ea'. injection Ea' as <-. assert (tp' = tp) as -> by (apply map_eq; intros loc; by rewrite Et, Et').
  rewrite Eh in Eh'. injection Eh' as <-. rewrite Ef, Eb in Er'.
  assert (Hrep : report fl show sort (focus o) (show_bars o) bs (iter data (threads_of o') bs) tp =
    report fl show sort (focus o) (show_bars o) bs (iter data (threads_of o) bs) tp)
    by (destruct Hiter as [->|Hu]; [done|apply report_traversal; (apply iter_ok || done)]).
  rewrite Hrep, Er in Er'. by injection Er' as <-.
Qed.

(** C16: the whole of obreplay (generated input of up to a million messages and 65535 symbols, files
    of up to 4 GB; memory and threads are always granted).  On every command line it ends without
    undefined behaviour.  Arguments it
    does not know, and no input at all, print the usage and exit with 2; a file it cannot load and
    an empty one exit with 1, with nothing on standard output; otherwise it exits with 0 and
    prints the count, the report, the tape and the latencies of the records of the input, one
    after the other.  How worker threads are scheduled changes nothing: every schedule under which
    the program returns gives this output, and it returns under every fair one.  Nor does their
    number, for the same clock readings, if the two runs traverse the hash table of the books in
    the same order, or if no two books have the same number of orders and at most one has the
    symbol asked for, so that the order of the traversal does not show. *)
Theorem obreplay_main (args : list (list Z)) :
  (∀ o, parse_args args options0 = Some o → options_ok o) →
  let run sched := main fl show sort read_file zlib engine iter orders ns clock i50 i99 i999 sched args in
  match parse_args args options0 with
  | None => ∀ sched, run sched = Some (mkProcess 2 [] usage)
  | Some o =>
      ∃ i, select read_file zlib engine o = Some i ∧
        match i with
        | Refused code err => (code = 1 ∨ code = 2) ∧ ∀ sched, run sched = Some (mkProcess code [] err)
        | Loaded source data =>
            (data = [] → ∀ sched, run sched = Some (mkProcess 1 [] (lit "error: empty input" ++ [10]))) ∧
            (data ≠ [] → ∃ bs out, output o source data bs out ∧
               (∀ sched p, run sched = Some p → p = mkProcess 0 out []) ∧
               (threads o ≤ 1 → ∀ sched, run sched = Some (mkProcess 0 out [])) ∧
               (∀ sched, fair (Z.to_nat (clamp_workers (u32 (threads o)))) sched →
                  ∃ k, run (sched <$> seq 0 k) = Some (mkProcess 0 out [])) ∧
               (∀ o' sched p, same_view o o' → the_run sched o' source data = Some p →
                  iter data (threads_of o') bs = iter data (threads_of o) bs ∨ unambiguous (focus o) bs →
                  p = mkProcess 0 out []))
        end
  end.
Proof using files iter_ok orders_ok ranks_ok Ranking0.
  intros Ho. cbv zeta. unfold main. destruct (parse_args args options0) as [o|] eqn:Ep; [|done].
  destruct (select_spec read_file zlib engine o files (Ho o eq_refl)) as (i & Ei & Hi). exists i. split; [done|]. rewrite Ei.
  cbn [mbind option_bind]. destruct i as [code err|source data]; [by destruct Hi|]. split; [by intros ->|]. intros Hne.
  destruct (process_data_spec o source data Hi) as (bs & out & Hout & Hall & Hfair). exists bs, out.
  split; [done|]. setoid_rewrite decide_False; [|done..]. unfold the_run in Hall, Hfair. split_and!; [|intros Ht sched|done|].
  - intros sched p Hp. destruct (Hall sched) as [E|[_ E]]; congruence.
  - destruct (Hall sched) as [E|[? _]]; [done|lia].
  - intros o' sched p Hv Hp Hiter. destruct (process_data_spec o' source data Hi) as (bs' & out' & Hout' & Hall' & _).
    rewrite <- (output_threads o o' source data bs bs' out out') by done. destruct (Hall' sched) as [E|[_ E]]; congruence.
Qed.
End MainFacts.

Module ObreplayWitness.
Import ReportWitness.

#[local] Existing Instances by_count_dec merge_ranking ieee_floats_ops.

Definition disk (p : list Z) : option (list Z) := if decide (p = lit "capture.itch") then Some demo_stream else None.

Definition demo_args : list (list Z) := [lit "capture.itch"; lit "--threads"; lit "2"].

Definition walk (data : list Z) (threads : Z) (bs : BookSet) : list (Z * OrderBook) := map_to_list (books_ bs).

Definition walks (data : list Z) (threads : Z) (bs : BookSet) : list (Z * OrderBook) * list (Z * list Z) := (map_to_list (books_ bs), map_to_list (symbols_ bs)).

Lemma disk_ok : files_ok disk None.
Proof.
  split; [|done]. intros p d. unfold disk. destruct (decide _); [|done]. intros [= <-]. split.
  - apply (bool_decide_unpack _). vm_compute. exact I.
  - vm_compute. discriminate.
Qed.

Definition demo_main (sched : list nat) (args : list (list Z)) : option process :=
  main ieee_floats show_double (merge_sort by_count) disk None mt19937 walk walks (of_Z binary64 1) id (rank_index p50) (rank_index p99) (rank_index p999) sched args.

(** Two workers, scheduled in turn, on a capture. *)
Lemma obreplay_main_witness :
  ∃ out k, demo_main ((λ n, n `mod` 3)%nat <$> seq 0 k) demo_args = Some (mkProcess 0 out []).
Proof.
  assert (Ho : ∀ o, parse_args demo_args options0 = Some o → options_ok o)
    by (intros o E; vm_compute in E; injection E as <-; split; vm_compute; discriminate).
  pose proof (obreplay_main ieee_floats show_double (merge_sort by_count) disk None mt19937 walk walks (of_Z binary64 1) id
    (rank_index p50) (rank_index p99) (rank_index p999)
    disk_ok (λ _ _ bs, Permutation_refl _) (λ _ _ bs, conj (Permutation_refl _) (Permutation_refl _))
    (λ n, conj (rank_index_nonneg _ n) (conj (rank_index_nonneg _ n) (rank_index_nonneg _ n))) demo_args Ho) as Hm.
  cbv zeta in Hm. destruct (parse_args demo_args options0) as [o|] eqn:Ep; [|vm_compute in Ep; discriminate].
  destruct Hm as (i & Ei & Hi). vm_compute in Ep. injection Ep as <-. vm_compute in Ei. injection Ei as <-.
  destruct Hi as [_ Hi]. destruct Hi as (bs & out & _ & _ & _ & Hf & _); [discriminate|].
  destruct (Hf _ (alternate_fair 2)) as [k Hk]. exists out, k. exact Hk.
Defined.

(** The exit codes, computed: no arguments, an unknown option, a missing value, a missing file, a
    compressed one without zlib, and a capture. *)
Lemma obreplay_exit_codes :
  exit_code <$> demo_main [] [] = Some 2 ∧
  exit_code <$> demo_main [] [lit "-x"] = Some 2 ∧
  exit_code <$> demo_main [] [lit "capture.itch"; lit "--threads"] = Some 2 ∧
  exit_code <$> demo_main [] [lit "other.itch"] = Some 1 ∧
  exit_code <$> demo_main [] [lit "capture.itch.gz"] = Some 1 ∧
  exit_code <$> demo_main [] [lit "capture.itch"; lit "--bars"] = Some 0.
Proof. vm_compute. done. Qed.

End ObreplayWitness.
