(* ===== verification/Tools.v ===== *)
(** The programs around a capture: gencap (apps/gencap.cpp), which writes one, and the main of the
    latency report (bench/latency_json.cpp); and fixsim (apps/fixsim.cpp), which prints two FIX
    messages.  Whether a file opens and takes the bytes, the environment and the random engine
    are arguments. *)
From stdpp Require Import strings.
From S2P Require Import Doubles.
From S2P Require Export Obreplay LatencyJson.
From S2P Require Import Fix.

#[local] Open Scope list_scope.
#[local] Open Scope Z_scope.

(** * gencap *)

Section Gencap.
Context (engine : Z → nat → Z) (can_open : list Z → bool) (can_write : bool).

(** The arguments behind the program's name; with the process, what the file holds when all of it
    was written. *)

Definition gencap (args : list (list Z)) : option (process * option (list Z)) :=
  match args with
  | [a1; path] =>
      let n := strtol a1 in
      if n <=? 0 then Some (mkProcess 2 [] (lit "error: N must be positive" ++ [10]), None)
      else
        data ← make_synthetic_itch (engine 1) (Z.to_nat n);
        if negb (can_open path) then Some (mkProcess 1 [] (lit "error: cannot write " ++ path ++ [10]), None)
        else if negb can_write then Some (mkProcess 1 [] (lit "error: write failed" ++ [10]), None)
        else Some (mkProcess 0 (lit "wrote " ++ to_string (zlen data) ++ lit " bytes (" ++ to_string n ++ lit " messages) to "
                                 ++ path ++ [10]) [], Some data)
  | _ => Some (mkProcess 2 [] (lit "usage: gencap <N messages> <out.itch>" ++ [10]), None)
  end.

End Gencap.

(** * latency_json *)

Section LatencyMain.
Context (engine : Z → nat → Z) (clock : Z → Z) (i50 i95 i99 : Z → Z).

(** [generated_at]: the variable HFTOB_GENERATED_AT, if set. *)

Context (generated_at : option (list Z)) (can_open : list Z → bool).

Definition latency_header : list Z :=
  lit "{" ++ [10]
    ++ match generated_at with
       | Some (c :: g) => jlit "  'generated_at': '" ++ (c :: g) ++ jlit "'," ++ [10]
       | _ => []
       end
    ++ jlit "  'environment': 'GitHub Actions ubuntu-latest (virtualized; relative figures, not absolute)'," ++ [10]
    ++ jlit "  'method': 'steady_clock per message; times decode + book.apply only (no IO/setup); deterministic synthetic ITCH 5.0, seed="
    ++ to_string 1 ++ jlit "'," ++ [10].

(** With the process, what is written to the named file. *)

Definition latency_main (args : list (list Z)) : option (process * option (list Z)) :=
  let n := match args with a :: _ => strtol a | [] => 200000 end in
  if n <=? 0 then Some (mkProcess 2 [] (lit "error: N must be positive" ++ [10]), None)
  else
    data ← make_synthetic_itch (engine 1) (Z.to_nat n);
    st ← timed_replay clock data;
    match args with
    | _ :: out_path :: _ =>
        if negb (can_open out_path) then Some (mkProcess 1 [] (lit "error: cannot write " ++ out_path ++ [10]), None)
        else
          body ← emit_report i50 i95 i99 st;
          Some (mkProcess 0 [] (lit "wrote latency JSON (" ++ to_string (LatencyHist.count (overall st))
                                  ++ lit " book-affecting messages) to " ++ out_path ++ [10]), Some (latency_header ++ body))
    | _ => body ← emit_report i50 i95 i99 st; Some (mkProcess 0 (latency_header ++ body) [], None)
    end.

End LatencyMain.

(** * fixsim *)

Section FixSim.
Context {D : Type} (price_str : D → list Z) (px : D).

Definition printable (s : list Z) : list Z := (λ c, if c =? SOH then 124 else c) <$> s.

Definition yes_no (b : bool) : list Z := if b then lit "yes" else lit "no".

(** [px] is the double 150.25. *)

Definition fixsim : option process :=
  let ord := new_order_single price_str (lit "HFTOB") (lit "EXCH") 1 (lit "CLORD-1") (lit "AAPL") FixBuy 100 Limit px in
  v1 ← valid_checksum ord;
  r ← Fix.parse ord;
  let m := r.2 in
  let er := execution_report price_str (lit "EXCH") (lit "HFTOB") 1 (lit "OID-1") (lit "CLORD-1") (lit "AAPL") FixBuy
              ExecFill StatusFilled 100 0 px in
  v2 ← valid_checksum er;
  Some (mkProcess 0
    (lit "NewOrderSingle (35=D):" ++ [10] ++ lit "  " ++ printable ord ++ [10] ++ lit "  checksum valid: " ++ yes_no v1 ++ [10]
       ++ lit "  parsed " ++ to_string (zlen m) ++ lit " fields; symbol=" ++ get_or m tag_Symbol [] ++ lit " side=" ++ get_or m tag_Side []
       ++ lit " qty=" ++ get_or m tag_OrderQty [] ++ lit " px=" ++ get_or m tag_Price [] ++ [10; 10]
       ++ lit "ExecutionReport (35=8):" ++ [10] ++ lit "  " ++ printable er ++ [10] ++ lit "  checksum valid: " ++ yes_no v2 ++ [10]) []).

End FixSim.

(** ** Facts *)

(** The demonstration prints its own messages back: both checksums are valid and the order's
    fields are those it was built from. *)
Lemma fixsim_output {D : Type} (price_str : D → list Z) (px : D) :
  (∀ x, SOH ∉ price_str x) →
  ∃ ord er, fixsim price_str px = Some (mkProcess 0
    (lit "NewOrderSingle (35=D):" ++ [10] ++ lit "  " ++ printable ord ++ [10] ++ lit "  checksum valid: yes" ++ [10]
       ++ lit "  parsed 13 fields; symbol=AAPL side=1 qty=100 px=" ++ price_str px ++ [10; 10]
       ++ lit "ExecutionReport (35=8):" ++ [10] ++ lit "  " ++ printable er ++ [10] ++ lit "  checksum valid: yes" ++ [10]) []).
Proof.
  intros Hp. eexists _, _. unfold fixsim. cbv zeta. unfold execution_report. cbv zeta. rewrite valid_encode.
  unfold new_order_single. cbv zeta. rewrite valid_encode, parse_encode.
  - cbn [mbind option_bind snd]. reflexivity.
  - by apply (bool_decide_unpack _).
  - by apply (bool_decide_unpack _).
  - assert (Hi : ∀ n, SOH ∉ to_string n) by (intros; by apply no_delim).
    unfold set_str, set_int, set_char. repeat (apply Forall_app; split); repeat constructor; simpl; auto; by apply (bool_decide_unpack _).
Qed.

(** The text of a price holds no delimiter, whatever the double. *)
Lemma price_str_no_soh (x : Float.fl) : SOH ∉ Printf.price_str x.
Proof. intros Hin. pose proof (price_chars x) as H. rewrite Forall_forall in H. specialize (H _ Hin). unfold SOH in H. lia. Qed.

(** What the demonstration prints, with the price 150.25. *)
Example fixsim_stdout :
  fixsim Printf.price_str (Printf.dbl (15025 # 100)) = Some (mkProcess 0
    (lit "NewOrderSingle (35=D):" ++ [10]
     ++ lit "  8=FIX.4.4|9=75|35=D|49=HFTOB|56=EXCH|34=1|11=CLORD-1|55=AAPL|54=1|38=100|40=2|44=150.2500|10=002|" ++ [10]
     ++ lit "  checksum valid: yes" ++ [10]
     ++ lit "  parsed 13 fields; symbol=AAPL side=1 qty=100 px=150.2500" ++ [10; 10]
     ++ lit "ExecutionReport (35=8):" ++ [10]
     ++ lit "  8=FIX.4.4|9=95|35=8|49=EXCH|56=HFTOB|34=1|37=OID-1|11=CLORD-1|55=AAPL|54=1|150=2|39=2|14=100|151=0|6=150.2500|10=181|" ++ [10]
     ++ lit "  checksum valid: yes" ++ [10]) []).
Proof. vm_compute. reflexivity. Qed.

(** The latency report ends: with 2 when the count is not positive, with 1 when the named file does
    not open, and otherwise with 0 and a document, in the file when one is named. *)
Lemma latency_main_exits (engine : Z → nat → Z) clock i50 i95 i99 gen can_open args :
  (∀ n, 0 ≤ i50 n ∧ 0 ≤ i95 n ∧ 0 ≤ i99 n) → match args with a :: _ => strtol a ≤ max_messages | [] => True end →
  ∃ p f, latency_main engine clock i50 i95 i99 gen can_open args = Some (p, f) ∧
    match args with
    | [] => exit_code p = 0 ∧ f = None
    | [a] => exit_code p = (if strtol a <=? 0 then 2 else 0) ∧ f = None
    | a :: path :: _ => exit_code p = (if strtol a <=? 0 then 2 else if can_open path then 0 else 1) ∧ (is_Some f ↔ exit_code p = 0)
    end.
Proof.
  intros Hi Hn. unfold latency_main. set (n := match args with a :: _ => strtol a | [] => 200000 end).
  assert (Hmax : n ≤ max_messages) by (unfold n; destruct args; [unfold max_messages; lia|done]).
  destruct (Z.leb_spec n 0) as [Hz|Hz].
  { eexists _, None. split; [done|]. destruct args as [|a [|path args]]; unfold n in Hz; [lia| |];
      (destruct (Z.leb_spec (strtol a) 0); [|lia]); split; try done. }
  destruct (itch_stream (engine 1) (Z.to_nat n)) as (ws & next & -> & El & Hf); [lia|]. rewrite Z2Nat.id in El by lia.
  pose proof (fi_wire _ _ Hf) as Hw. destruct (written_data_ok ws Hw) as [Hok Hl]; [lia|]. cbn [mbind option_bind].
  destruct (timed_replay_runs clock (write_stream ws) Hok Hl) as (b & t & st & bk & _ & _ & _ & _ & _ & _ & _ & ->). cbn [mbind option_bind].
  destruct (emit_report_total i50 i95 i99 st Hi) as [body Eb].
  destruct args as [|a [|path args]]; unfold n in Hz; try rewrite Eb.
  - by eexists _, None.
  - eexists _, None. split; [done|]. by destruct (Z.leb_spec (strtol a) 0); [lia|].
  - destruct (Z.leb_spec (strtol a) 0); [lia|]. destruct (can_open path); cbn [negb].
    + eexists _, _. split; [done|]. split; [done|]. split; [done|by eexists].
    + eexists _, None. split; [done|]. split; [done|]. by split; [intros [? ?]|].
Qed.

(** * A generated capture, replayed *)

Section Capture.
Context (fl : floats) `{FloatOps (D fl) (LD fl)} (show : D fl → list Z).
Context (sort : list (Z * Z) → list (Z * Z)) `{!Ranking sort}.
Context (read_file : list Z → option (list Z)) (zlib : option (list Z → option (list (list Z)))) (engine : Z → nat → Z).
Context (iter : list Z → Z → BookSet → list (Z * OrderBook)).
Context (orders : list Z → Z → BookSet → list (Z * OrderBook) * list (Z * list Z)).
Context (i50 i99 i999 : Z → Z) (can_open : list Z → bool).

Hypothesis iter_ok : ∀ data threads bs, iter data threads bs ≡ₚ map_to_list (books_ bs).
Hypothesis ranks_ok : ∀ n, 0 ≤ i50 n ∧ 0 ≤ i99 n ∧ 0 ≤ i999 n.

(** What a run prints for given clock readings: the lines with the source, the sizes and the measured
    times, the report, and the latencies of the records. *)

Definition timed_output (source data : list Z) (n : Z) (rep : list Z) (ns : D fl) (clock : Z → Z) (out : list Z) : Prop :=
  ∃ hist, print_hist fl show i50 i99 i999 (readings clock (Z.to_nat n) 0) = Some hist ∧
    out = banner fl show ns source (zlen data) n ++ rep ++ hist.

(** With one thread the report depends on the data and the options only. *)
Lemma single_thread_output data bodies bs :
  data_ok data → data = frames bodies → Forall body_ok bodies →
  replay_set data (zlen data) = Some (zlen bodies, bs) →
  ∃ rep, ∀ o source ns clock sched, focus o = [] → show_bars o = false → threads o = 1 →
    ∃ out, timed_output source data (zlen bodies) rep ns clock out ∧
      process_data fl show sort iter orders ns clock i50 i99 i999 sched o source data = Some (mkProcess 0 out []).
Proof using iter_ok ranks_ok Ranking0.
  intros [Hok Hl] Ed Hb Es.
  assert (Hpass : ∀ clock, ∃ tapes, fill_tapes fl data = Some tapes ∧ ∃ b2, latency_pass clock data = Some (b2, readings clock (length bodies) 0)).
  { intros clock. destruct (obreplay_passes_agree fl clock data Hok Hl) as (bodies' & tail & bs' & tapes & Ed' & Hb' & Hst & _ & _ & El & Et & _).
    destruct (frames_unique bodies bodies' [] tail) as [<- _]; [done|done|done|done|by rewrite app_nil_r, <- Ed|]. by eauto. }
  destruct (Hpass id) as (tapes & Et & _).
  destruct (report_total fl show sort [] false bs (iter data 1 bs) tapes) as [rep Er]; [apply iter_ok|].
  exists rep. intros o source ns clock sched E1 E2 E3. unfold process_data. rewrite E1, E2, E3. cbn [Z.ltb Z.compare Pos.compare Pos.compare_cont].
  destruct (print_total show (hist_mean fl (readings clock (length bodies) 0)) i50 i99 i999 (readings clock (length bodies) 0)
    (lit "per-message decode+apply latency [includes timer overhead; see README]") ranks_ok) as [hist Eh].
  destruct (Hpass clock) as (tapes' & Et' & b2 & El). rewrite Et in Et'. injection Et' as <-.
  eexists. split.
  - exists hist. split; [|reflexivity]. unfold zlen. by rewrite Nat2Z.id.
  - rewrite Es. cbn [mbind option_bind fst snd]. rewrite Et. cbn [mbind option_bind]. rewrite El. cbn [mbind option_bind snd].
    rewrite Er. cbn [mbind option_bind]. unfold print_hist. rewrite Eh. reflexivity.
Qed.

Lemma write_stream_nonempty ws : Forall wire_ok ws → 0 < zlen ws → write_stream ws ≠ [].
Proof using. intros Hw Hl. rewrite write_stream_frames by done. by destruct ws. Qed.

(** C20: gencap and obreplay fit together.  For a count between 1 and a million and a path that
    can be opened and written, is not empty, does not start with '-' and does not end in .gz, gencap writes a
    capture and exits with 0; obreplay on that file and [obreplay --synthetic] with the count both
    exit with 0, and both print exactly that many messages, the same number of bytes and one and the
    same report.  Whatever the two clocks read, the outputs differ in nothing but the name of the
    source and the lines with the measured times and latencies, which are the same functions of the
    readings. *)
Theorem gencap_obreplay (n : Z) (path : list Z) :
  0 < n ≤ max_messages → path ≠ [] → head path ≠ Some 45 → ends_with path (lit ".gz") = false → can_open path = true →
  ∃ p data rep,
    gencap engine can_open true [to_string n; path] = Some (p, Some data) ∧ exit_code p = 0 ∧
    ∀ ns clock sched,
      let obreplay args := main fl show sort read_file zlib engine iter orders ns clock i50 i99 i999 sched args in
      (read_file path = Some data → ∃ out, timed_output path data n rep ns clock out ∧ obreplay [path] = Some (mkProcess 0 out [])) ∧
      ∃ out, timed_output (lit "synthetic(" ++ to_string n ++ lit ")") data n rep ns clock out ∧
        obreplay [lit "--synthetic"; to_string n] = Some (mkProcess 0 out []).
Proof using iter_ok ranks_ok Ranking0.
  intros Hn Hne Hh Hgz Ho. assert (Hr : - 2 ^ 63 ≤ n < 2 ^ 63) by (unfold max_messages in Hn; lia).
  destruct (itch_stream (engine 1) (Z.to_nat n)) as (ws & next & Eg & El & [Hw _]); [lia|]. rewrite Z2Nat.id in El by lia.
  destruct (replay_set_written ws Hw) as [bs Es]; [unfold max_messages in Hn; lia|].
  destruct (single_thread_output (write_stream ws) (Wire.encode <$> ws) bs) as [rep Hrun].
  { apply written_data_ok; [done|lia]. }
  { by apply write_stream_frames. }
  { by apply encode_all_ok. }
  { by rewrite zlen_fmap. }
  rewrite zlen_fmap, El in Hrun.
  pose proof (write_stream_nonempty ws Hw ltac:(lia)) as Hd. eexists _, (write_stream ws), rep. split_and!.
  - unfold gencap. rewrite strtol_to_string by done. destruct (Z.leb_spec n 0); [lia|]. rewrite Eg, Ho. reflexivity.
  - done.
  - intros ns clock sched. cbv zeta. split.
    + intros Ef. unfold main. rewrite parse_file by done. unfold select, load_file. cbn [synth file].
      change (0 <? synth options0) with false. cbv iota. rewrite decide_False, Hgz, Ef by done. cbn [mbind option_bind].
      rewrite decide_False by done. by apply Hrun.
    + unfold main. erewrite parse_value by reflexivity. cbn [parse_args]. unfold select. cbn [synth symbols options0].
      rewrite strtol_to_string by done. destruct (Z.ltb_spec 0 n); [|lia]. change (1 <? 1) with false. cbv iota. rewrite Eg.
      cbn [mbind option_bind]. rewrite decide_False by done. by apply Hrun.
Qed.
End Capture.

Module CaptureWitness.
Import ReportWitness ObreplayWitness.

#[local] Existing Instances by_count_dec merge_ranking ieee_floats_ops.

(** Twenty messages. *)
Lemma gencap_obreplay_witness :
  ∃ p data out,
    gencap mt19937 (λ _, true) true [to_string 20; lit "c.itch"] = Some (p, Some data) ∧ exit_code p = 0 ∧
    main ieee_floats show_double (merge_sort by_count) (λ _, (gencap mt19937 (λ _, true) true [to_string 20; lit "c.itch"]) ≫= snd) None
      mt19937 walk walks (of_Z binary64 1) id (rank_index p50) (rank_index p99) (rank_index p999) [] [lit "c.itch"] = Some (mkProcess 0 out []).
Proof.
  destruct (gencap_obreplay ieee_floats show_double (merge_sort by_count)
    (λ _, (gencap mt19937 (λ _, true) true [to_string 20; lit "c.itch"]) ≫= snd) None mt19937 walk walks (rank_index p50) (rank_index p99) (rank_index p999) (λ _, true)
    (λ _ _ bs, Permutation_refl _) (λ n, conj (rank_index_nonneg _ n) (conj (rank_index_nonneg _ n) (rank_index_nonneg _ n))) 20 (lit "c.itch"))
    as (p & data & rep & E1 & E2 & E3).
  - split; [lia|vm_compute; discriminate].
  - discriminate.
  - vm_compute. discriminate.
  - reflexivity.
  - reflexivity.
  - destruct (E3 (of_Z binary64 1) id []) as [Hf _]. destruct Hf as (out & _ & Hrun); [rewrite E1; reflexivity|].
    exists p, data, out. split; [exact E1|]. split; [exact E2|]. exact Hrun.
Defined.

End CaptureWitness.
