(* ===== verification/Mdrecv.v ===== *)
(** The whole program mdrecv (apps/mdrecv.cpp): its options, the self-test and the receiver on a
    UDP socket, whose descriptor is accounted for.  The datagrams that arrive, what the kernel makes
    of the receive timeout, the random engine, thread pinning and the traversal order of the books
    are arguments.  A receiver whose timeout never expires may be found waiting. *)
From stdpp Require Import strings.
From S2P Require Export Cli Apps Mold Synthetic.
From S2P Require Import Sockets Cpu.

#[local] Open Scope list_scope.
#[local] Open Scope Z_scope.

(** * Options *)

Record md_options := mkMd {
  self : bool;
  listen : bool;
  md_n : Z;
  md_port : Z;
  ms : Z;
  pin : Z;
}.

Definition md0 : md_options := mkMd false false 20000 0 2000 (-1).

Definition md_value (a v : list Z) (o : md_options) : option md_options :=
  if decide (a = lit "--listen") then Some (mkMd (self o) true (md_n o) (strtol v) (ms o) (pin o))
  else if decide (a = lit "--ms") then Some (mkMd (self o) (listen o) (md_n o) (md_port o) (strtol v) (pin o))
  else if decide (a = lit "--pin") then Some (mkMd (self o) (listen o) (md_n o) (md_port o) (ms o) (strtol v))
  else None.

(** The count behind [--self] is optional; arguments that are not known are passed over. *)

Fixpoint md_parse (args : list (list Z)) (o : md_options) : md_options :=
  match args with
  | [] => o
  | a :: rest =>
      if decide (a = lit "--self") then
        let o := mkMd true (listen o) (md_n o) (md_port o) (ms o) (pin o) in
        match rest with
        | v :: rest' =>
            if negb (bool_decide (head v = Some 45))
            then md_parse rest' (mkMd true (listen o) (strtol v) (md_port o) (ms o) (pin o))
            else md_parse rest o
        | [] => o
        end
      else
        match rest with
        | v :: rest' => match md_value a v o with Some o => md_parse rest' o | None => md_parse rest o end
        | [] => o
        end
  end.

(** * The program *)

Section Main.
Context (engine : Z → nat → Z) (setaffinity : Z → Z) (iter : BookSet → list (Z * OrderBook)).
Context (expires : Z * Z → bool) (pick : gset Z → Z).

(** Where the program is found: ended, or blocked in [recv] with its output so far. *)

Inductive receiver : Type := Ended (p : process) | StillReceiving (out err : list Z).

Definition print_stats (s : MoldSession) (b : BookSet) : list Z :=
  lit "  packets=" ++ to_string (packets_ s) ++ lit " messages=" ++ to_string (messages_ s) ++ lit " gaps=" ++ to_string (gaps_ s)
    ++ lit " books=" ++ to_string (book_count b) ++ lit " orders=" ++ to_string (total_orders (iter b)) ++ [10].

Definition pinning (o : md_options) : list Z :=
  if 0 <=? pin o then
    lit "pin to core " ++ to_string (pin o) ++ lit ": "
      ++ (if pin_this_thread setaffinity (u32 (pin o)) then lit "ok" else lit "unsupported") ++ [10]
  else [].

Definition run_self (o : md_options) : option process :=
  framed ← make_synthetic_itch (engine 7) (Z.to_nat (if 0 <? md_n o then md_n o else 1));
  r ← mdrecv_self framed;
  Some (mkProcess 0 (lit "mdrecv --self " ++ to_string (md_n o) ++ lit " (MoldUDP64 packetize + parse, no socket)" ++ [10]
                       ++ print_stats r.1 r.2) (pinning o)).

(** The [try] block: the socket is destroyed on every way out of it.  [set_recv_timeout] takes an
    [int]. *)

Definition run_listen (o : md_options) (arriving : list (list Z)) (k : kernel) : option (receiver * kernel) :=
  match make_udp pick k with
  | (Throw what, k) => Some (Ended (mkProcess 1 [] (pinning o ++ lit "mdrecv error: " ++ what ++ [10])), k)
  | (Return rx, k) =>
      match bind_loopback (u16 (md_port o)) k with
      | (Throw what, k) => Some (Ended (mkProcess 1 [] (pinning o ++ lit "mdrecv error: " ++ what ++ [10])), udp_destroy rx k)
      | (Return bound, k) =>
          let err := pinning o ++ lit "mdrecv listening on UDP 127.0.0.1:" ++ to_string bound ++ lit " (idle " ++ to_string (ms o)
                       ++ lit " ms)" ++ [10] in
          r ← mdrecv_listen (expires (timeval_of (to_int (ms o)))) arriving mold0 set0;
          match r with
          | Finished s book => Some (Ended (mkProcess 0 (lit "mdrecv done" ++ [10] ++ print_stats s book) err), udp_destroy rx k)
          | Blocked _ _ => Some (StillReceiving [] err, k)
          end
      end
  end.

Definition mdrecv (args : list (list Z)) (arriving : list (list Z)) (k : kernel) : option (receiver * kernel) :=
  let o := md_parse args md0 in
  let self := if negb (self o) && negb (listen o) then true else self o in
  if self : bool then p ← run_self o; Some (Ended p, k) else run_listen o arriving k.

End Main.

(** * Facts *)

(** The books after [n] messages. *)

Definition received (n : Z) (bs : BookSet) : Prop :=
  ∃ l, zlen l = n ∧ Forall msg_ok l ∧ apply_set set0 l = Some bs.

Lemma received_step n bs sq b m :
  bytes_ok b → decode_body b = Some m → n < 2 ^ 32 → received n bs →
  ∃ bs', mdrecv_sink bs sq m = Some bs' ∧ received (n + 1) bs'.
Proof.
  intros Hok Em Hn (l & Hl & Hm & El). destruct (decode_body_ok b m Hok Em) as [Hmok _].
  assert (Hm' : Forall msg_ok (l ++ [m])) by (apply Forall_app; split; [done|by constructor]).
  assert (Hz : zlen (l ++ [m]) = n + 1) by (rewrite zlen_app, Hl; done).
  destruct (apply_set_rep (l ++ [m]) Hm') as (bs' & E' & _); [lia|]. exists bs'. split; [|by exists (l ++ [m])].
  unfold apply_set in *. rewrite foldM_app, El in E'. cbn [mbind option_bind foldM] in E'. unfold mdrecv_sink.
  destruct (BookSet.apply bs m); simpl in E'; congruence.
Qed.

(** Whatever arrives, up to 4 GB, the receive loop handles it in bounds, and with a timeout that
    expires it ends. *)
Lemma listen_total expires arriving s bs n :
  Forall bytes_ok arriving → received n bs → n + zlen (mjoin arriving) ≤ 2 ^ 32 →
  ∃ r, mdrecv_listen expires arriving s bs = Some r ∧ (expires = true → ∃ s' bs', r = Finished s' bs').
Proof.
  intros Hok. revert s bs n. induction Hok as [|d arriving Hd _ IH]; intros s bs n Hn Hl.
  { eexists. split; [done|]. intros ->. by eexists _, _. }
  cbn [mdrecv_listen]. destruct (zlen (take 2048 d) <=? 0); [by eexists; split; [|eexists _, _]|].
  change (mjoin (d :: arriving)) with (d ++ mjoin arriving) in Hl. rewrite zlen_app in Hl. pose proof (zlen_nonneg (mjoin arriving)).
  assert (Ht : zlen (take 2048 d) ≤ zlen d) by (unfold zlen; rewrite length_take; lia). pose proof (zlen_nonneg (take 2048 d)).
  assert (0 ≤ n) by (destruct Hn as (l & <- & _); apply zlen_nonneg).
  destruct (on_packet_total mdrecv_sink received (2 ^ 32) received_step s (take 2048 d) bs n) as (r & n' & -> & Hr & Hle);
    [by apply bytes_ok_take|lia|done|lia|].
  cbn [mbind option_bind]. destruct (ended_ r.1); [by eexists; split; [|eexists _, _]|]. apply (IH r.1 r.2 n' Hr). lia.
Qed.

Section MainFacts.
Context (engine : Z → nat → Z) (setaffinity : Z → Z) (iter : BookSet → list (Z * OrderBook)).
Context (expires : Z * Z → bool) `{!RecvTimeout expires} (pick : gset Z → Z) `{!Allocator pick}.

(** What the self-test prints for [n] on the command line. *)

Definition self_text (n packets messages gaps : Z) (bs : BookSet) : list Z :=
  lit "mdrecv --self " ++ to_string n ++ lit " (MoldUDP64 packetize + parse, no socket)" ++ [10]
    ++ lit "  packets=" ++ to_string packets ++ lit " messages=" ++ to_string messages ++ lit " gaps=" ++ to_string gaps
    ++ lit " books=" ++ to_string (book_count bs) ++ lit " orders=" ++ to_string (total_orders (iter bs)) ++ [10].

(** The self-test receives what the generator wrote, without a gap. *)
Lemma run_self_spec o :
  md_n o ≤ max_messages →
  ∃ data packets bs, make_synthetic_itch (engine 7) (Z.to_nat (Z.max 1 (md_n o))) = Some data ∧
    replay_set data (zlen data) = Some (Z.max 1 (md_n o), bs) ∧
    run_self engine setaffinity iter o = Some (mkProcess 0
      (self_text (md_n o) packets (Z.max 1 (md_n o)) 0 bs) (pinning setaffinity o)).
Proof using.
  intros Hn. unfold max_messages in Hn. unfold run_self.
  assert ((if 0 <? md_n o then md_n o else 1) = Z.max 1 (md_n o)) as -> by (destruct (Z.ltb_spec 0 (md_n o)); lia).
  destruct (itch_stream (engine 7) (Z.to_nat (Z.max 1 (md_n o)))) as (ws & next & Eg & El & [Hw _]); [unfold max_messages; lia|].
  rewrite Z2Nat.id in El by lia. destruct (encode_all_ok ws Hw) as [Hb Hbok]. pose proof (write_stream_zlen ws Hw) as Hz.
  destruct (mdrecv_equals_file_replay (Wire.encode <$> ws) []) as (s & bs & n & Em & Er & En & Eg0 & _);
    [done|done|by apply Forall_nil|done|intros ->%fmap_nil_inv; unfold zlen in El; simpl in El; lia|rewrite app_nil_r, <- write_stream_frames by done; lia|].
  rewrite app_nil_r, <- write_stream_frames in Em, Er by done.
  destruct (replay_set_written ws Hw) as [bs' Es]; [lia|]. rewrite Er in Es. injection Es as -> <-.
  exists (write_stream ws), (packets_ s), bs. rewrite <- El. split_and!; [by rewrite El|done|].
  rewrite El, Eg. cbn [mbind option_bind]. rewrite Em. cbn [mbind option_bind fst snd]. unfold print_stats.
  by rewrite En, Eg0, El.
Qed.

(** What a receiver leaves behind: its socket is closed on every way out, and open while it waits,
    which it does only without a timeout that expires. *)

Definition accounted (o : md_options) (r : receiver) (k k' : kernel) : Prop :=
  bad_close k' = bad_close k ∧
  match r with
  | Ended p => live k' = live k ∧ (exit_code p = 0 ∨ exit_code p = 1)
  | StillReceiving out err => expires (timeval_of (to_int (ms o))) = false ∧ out = [] ∧
      ∃ fd, 0 ≤ fd ∧ (fd ∉ live k) ∧ live k' = {[fd]} ∪ live k
  end.

(** What a receiver with a bound socket reports, for the end of its loop. *)

Definition reported (l : listening) (r : receiver) : Prop :=
  match r with
  | Ended p => exit_code p = 1 ∨
      ∃ s bs, l = Finished s bs ∧ exit_code p = 0 ∧ cout p = lit "mdrecv done" ++ [10] ++ print_stats iter s bs
  | StillReceiving _ _ => ∃ s bs, l = Blocked s bs
  end.

Lemma run_listen_spec o arriving k :
  Forall bytes_ok arriving → zlen (mjoin arriving) ≤ 2 ^ 32 →
  ∃ l r k', mdrecv_listen (expires (timeval_of (to_int (ms o)))) arriving mold0 set0 = Some l ∧
    run_listen setaffinity iter expires pick o arriving k = Some (r, k') ∧ accounted o r k k' ∧ reported l r.
Proof using Allocator0.
  intros Hok Hl. unfold run_listen.
  destruct (listen_total (expires (timeval_of (to_int (ms o)))) arriving mold0 set0 0 Hok) as (l & El & Hexp); [by exists []|lia|].
  exists l. rewrite El. destruct (udp_acquires pick k) as [Hb Ha]. destruct (make_udp pick k) as [[what|rx] k1]; simpl in *.
  - eexists _, _. do 2 (split; [done|]). split; [|by left]. split_and!; [done|done|by right].
  - destruct Ha as (H1 & H2 & H3). destruct (bind_keeps (u16 (md_port o)) k1) as [Hl2 Hb2].
    destruct (bind_loopback (u16 (md_port o)) k1) as [r k2]; simpl in *.
    assert (Hd : live (udp_destroy rx k2) = live k ∧ bad_close (udp_destroy rx k2) = bad_close k).
    { unfold udp_destroy. destruct (Z.leb_spec 0 rx); [|unfold id in *; lia].
      destruct (close_new rx k1 k2 (live k)) as [-> ->]; [done|done|done|]. split; congruence. }
    destruct Hd as [Hd1 Hd2]. destruct r as [what|bound]; [|destruct l as [s bs|s bs]]; cbn [mbind option_bind].
    + eexists _, _. do 2 (split; [done|]). split; [|by left]. split_and!; [done|done|by right].
    + eexists _, _. do 2 (split; [done|]). split; [split_and!; [done|done|by left]|]. right. by exists s, bs.
    + eexists _, _. do 2 (split; [done|]). split; [|by exists s, bs]. split; [congruence|]. split_and!; [|done|].
      * destruct (expires _); [|done]. destruct Hexp as (? & ? & [=]); done.
      * exists rx. split_and!; [done|done|congruence].
Qed.

(** C17: the whole of mdrecv (up to a million generated messages, up to 4 GB of datagrams, whatever
    bytes they hold): on every command line it runs without undefined behaviour, closes every
    descriptor it opened before it exits and no other, also when the socket cannot be created or
    bound, and exits with 0 or 1.  Without [--listen], or with [--self], it exits with 0 and reports
    as many messages as were generated, no gap, and the books that replaying the generated stream as
    a file gives.  With [--listen] it reports the counters and the books of its receive loop; it
    always ends when the timeout of [--ms] is positive as an [int], and can only be found waiting,
    with its socket open, when the kernel lets the timeout never expire, as it does for 0. *)
Theorem mdrecv_main args arriving k :
  md_n (md_parse args md0) ≤ max_messages → Forall bytes_ok arriving → zlen (mjoin arriving) ≤ 2 ^ 32 →
  let o := md_parse args md0 in
  ∃ r k', mdrecv engine setaffinity iter expires pick args arriving k = Some (r, k') ∧ accounted o r k k' ∧
    (self o = true ∨ listen o = false →
     ∃ data packets bs, make_synthetic_itch (engine 7) (Z.to_nat (Z.max 1 (md_n o))) = Some data ∧
       replay_set data (zlen data) = Some (Z.max 1 (md_n o), bs) ∧
       r = Ended (mkProcess 0 (self_text (md_n o) packets (Z.max 1 (md_n o)) 0 bs) (pinning setaffinity o))) ∧
    (self o = false → listen o = true →
     (∃ l, mdrecv_listen (expires (timeval_of (to_int (ms o)))) arriving mold0 set0 = Some l ∧ reported l r) ∧
     (0 < to_int (ms o) → ∃ p, r = Ended p)).
Proof using Allocator0 RecvTimeout0.
  intros Hn Hok Hl. cbv zeta. unfold mdrecv. set (o := md_parse args md0) in *.
  assert ((if negb (self o) && negb (listen o) then true else self o) = negb (negb (self o) && listen o)) as ->
    by (by destruct (self o), (listen o)).
  destruct (negb (self o) && listen o) eqn:Es; cbn [negb].
  - destruct (run_listen_spec o arriving k Hok Hl) as (l & r & k' & El & -> & Hacc & Hrep). exists r, k'. split_and!; try done.
    { apply andb_prop in Es as [Es1 Es2]. rewrite Es2. destruct (self o); [done|]. intros [?|?]; done. }
    intros _ _. split; [by exists l|]. intros Hms%(timeout_expires expires). destruct r as [p|out err]; [by exists p|].
    destruct Hacc as (_ & Hw & _). congruence.
  - destruct (run_self_spec o Hn) as (data & packets & bs & E1 & E2 & ->). eexists _, k. split_and!; [done|by split_and!; [| |left]| |].
    + intros _. by exists data, packets, bs.
    + intros H1 H2. by rewrite H1, H2 in Es.
Qed.
End MainFacts.

Module MdrecvWitness.

Definition demo_kernel : kernel := mkKernel {[0; 1; 2]} false [] [0x901F].

Definition run (args : list (list Z)) (arriving : list (list Z)) : option (receiver * kernel) :=
  mdrecv mt19937 (λ _, 22) (λ bs, map_to_list (books_ bs)) linux_expires lowest_free args arriving demo_kernel.

(** A datagram on a socket with a timeout of 50 ms. *)
Lemma mdrecv_main_witness :
  ∃ p k', run [lit "--listen"; lit "0"; lit "--ms"; lit "50"] [[1; 2; 3]] = Some (Ended p, k') ∧ live k' = live demo_kernel.
Proof.
  destruct (mdrecv_main mt19937 (λ _, 22) (λ bs, map_to_list (books_ bs)) linux_expires lowest_free
    [lit "--listen"; lit "0"; lit "--ms"; lit "50"] [[1; 2; 3]] demo_kernel) as (r & k' & E & Ha & _ & Hs).
  - vm_compute. discriminate.
  - apply (bool_decide_unpack _). vm_compute. exact I.
  - vm_compute. discriminate.
  - destruct Hs as [_ Hs]; [reflexivity|reflexivity|]. destruct Hs as [p ->]; [vm_compute; reflexivity|].
    exists p, k'. split; [exact E|]. apply Ha.
Defined.

Lemma self_test_exits :
  ∃ out, run [lit "--self"; lit "5"] [] = Some (Ended (mkProcess 0 out []), demo_kernel).
Proof. vm_compute. by eexists. Qed.

(** [--ms 0] asks for no timeout: the receiver waits for ever, its socket open. *)
Lemma zero_timeout_waits :
  ∃ err k', run [lit "--listen"; lit "0"; lit "--ms"; lit "0"] [[1; 2; 3]] = Some (StillReceiving [] err, k') ∧ live k' ≠ live demo_kernel.
Proof.
  destruct (run _ _) as [[r k']|] eqn:E; [|by vm_compute in E]. vm_compute in E. injection E as <- <-.
  eexists _, _. split; [done|]. apply (bool_decide_unpack _). vm_compute. exact I.
Qed.

End MdrecvWitness.
