(* ===== verification/Servers.v ===== *)
(** The two servers: wsbook (apps/wsbook.cpp) with its options and both modes, and mt5d
    (apps/mt5d.cpp).  Both accept one client after the other until [accept] throws, or until a send
    finds its client gone: neither program ignores SIGPIPE, so that send kills it.  The clients
    that connect, what the kernel answers to the sends to them, the failures of system calls, the random engine and the texts of doubles are
    arguments. *)
From stdpp Require Import strings.
From S2P Require Import Doubles.
From S2P Require Export Cli WsBook SyntheticMulti SyntheticBook Bridge.
From S2P Require Import Json Sockets.

#[local] Open Scope list_scope.
#[local] Open Scope Z_scope.

(** * Accepting clients *)

(** The loop is left by an exception or by the signal of a broken connection; otherwise it waits
    for the next client. *)

Inductive loop_end : Type := Waiting | Broken (what : list Z) | Signalled.

Section AcceptLoop.
Context (pick : gset Z → Z) {R : Type}.

(** Serving one client: what is printed and what becomes of the connection. *)

Context (serve : LineSocket → option (list Z * R)) (sock_of : R → LineSocket).

Fixpoint accept_loop (l : listener) (clients : list LineSocket) (out : list Z) (served : list R) (k : kernel) :
    option (loop_end * list Z * list R * kernel) :=
  match clients with
  | [] => Some (Waiting, out, served, k)
  | c :: clients =>
      match accept pick l k with
      | (Throw what, k) => Some (Broken what, out, served, k)
      | (Return conn, k) =>
          r ← serve c;
          if killed_ (sock_of r.2) then Some (Signalled, out ++ r.1, served ++ [r.2], k)
          else accept_loop l clients (out ++ r.1) (served ++ [r.2]) (destroy conn k)
      end
  end.

(** What a server is found in: ended, blocked in [accept], or killed by SIGPIPE; with what it has
    written to its streams so far (of which a kill loses what is still in a buffer). *)

Inductive server : Type := Exited (p : process) | Serving (out err : list Z) | Killed (out err : list Z).

End AcceptLoop.

(** * wsbook *)

Record ws_options := mkWs { ws_port : Z; ws_dump : Z; ws_frames : Z; ws_synth : Z; ws_symbols : Z; ws_focus : list Z }.

Definition ws0 : ws_options := mkWs 9010 0 0 20000 1 [].

Definition ws_value (a v : list Z) (o : ws_options) : option ws_options :=
  if decide (a = lit "--dump") then Some (mkWs (ws_port o) (strtol v) (ws_frames o) (ws_synth o) (ws_symbols o) (ws_focus o))
  else if decide (a = lit "--synthetic") then Some (mkWs (ws_port o) (ws_dump o) (ws_frames o) (strtol v) (ws_symbols o) (ws_focus o))
  else if decide (a = lit "--symbols") then Some (mkWs (ws_port o) (ws_dump o) (ws_frames o) (ws_synth o) (strtol v) (ws_focus o))
  else if decide (a = lit "--frames") then Some (mkWs (ws_port o) (ws_dump o) (strtol v) (ws_synth o) (ws_symbols o) (ws_focus o))
  else if decide (a = lit "--symbol") then Some (mkWs (ws_port o) (ws_dump o) (ws_frames o) (ws_synth o) (ws_symbols o) v)
  else None.

(** An argument that is a number and nothing else is the port. *)

Definition ws_plain (a : list Z) (o : ws_options) : ws_options :=
  match strtoll a with
  | Some (p, []) => mkWs p (ws_dump o) (ws_frames o) (ws_synth o) (ws_symbols o) (ws_focus o)
  | _ => o
  end.

Fixpoint ws_parse (args : list (list Z)) (o : ws_options) : ws_options :=
  match args with
  | [] => o
  | a :: rest =>
      match rest with
      | v :: rest' => match ws_value a v o with Some o => ws_parse rest' o | None => ws_parse rest (ws_plain a o) end
      | [] => ws_plain a o
      end
  end.

Section WsMain.
Context (fl : floats) `{FloatOps (D fl) (LD fl)} (fmt : D fl → list Z).
Context (order : Z → BookSet → list (Z * OrderBook)) (engine : Z → nat → Z) (pick : gset Z → Z).

Definition ws_data (o : ws_options) : option (list Z) :=
  let symbols := if ws_symbols o <? 1 then 1 else ws_symbols o in
  let synth := if ws_synth o <? 1 then 1 else ws_synth o in
  if 1 <? symbols then make_synthetic_multi (engine 1) (Z.to_nat synth) (Z.to_nat (u32 symbols))
  else make_synthetic_book (engine 1) (Z.to_nat synth).

(** One viewer; the message is printed when the upgrade succeeded. *)

Definition ws_session (o : ws_options) (data : list Z) (conn : LineSocket) : option (list Z * LineSocket) :=
  r ← handshake conn;
  s ← serve_viewer fl fmt order (ws_focus o) (ws_frames o) data conn;
  Some (if (r.1 : bool) then lit "viewer connected" ++ [10] else [], s).

Definition ws_error (what : list Z) : list Z := lit "wsbook error: " ++ what ++ [10].

Definition wsbook (args : list (list Z)) (clients : list LineSocket) (k : kernel) : option (server * list LineSocket * kernel) :=
  let o := ws_parse args ws0 in
  data ← ws_data o;
  if 0 <? ws_dump o then out ← dump fl fmt order (ws_focus o) (ws_dump o) data; Some (Exited (mkProcess 0 out []), [], k)
  else
    match make_listener pick (u16 (ws_port o)) k with
    | (Throw what, k) => Some (Exited (mkProcess 1 [] (ws_error what)), [], k)
    | (Return l, k) =>
        let err := lit "wsbook on 127.0.0.1:" ++ to_string (port_ l) ++ lit " (Ctrl-C to stop)" ++ [10] in
        '(e, err, socks, k) ← accept_loop pick (ws_session o data) id l clients err [] k;
        match e with
        | Waiting => Some (Serving [] err, socks, k)
        | Signalled => Some (Killed [] err, socks, k)
        | Broken what => Some (Exited (mkProcess 1 [] (err ++ ws_error what)), socks, listener_destroy l k)
        end
    end.

End WsMain.

(** * mt5d *)

Section Mt5Main.
Context {D : Type} `{DoubleText D} `{DoubleArith D}.

(** The default arguments of the strategy, 0.0010 and 0.10. *)

Context (step lots : D) (pick : gset Z → Z).

Definition mt5_session (conn : LineSocket) : option (list Z * (BridgeStats * LineSocket)) :=
  '(st, _, conn) ← run_bridge conn (example_strategy step lots) 12;
  let summary := lit "session ended: ticks=" ++ to_string (ticks st) ++ lit " orders=" ++ to_string (orders st)
                   ++ lit " acks=" ++ to_string (acks st) ++ lit " nops=" ++ to_string (nops st) ++ [10] in
  Some (lit "client connected" ++ [10] ++ (if killed_ conn then [] else summary), (st, conn)).

(** [None]: the usage. *)

Definition mt5_port (args : list (list Z)) : option Z :=
  match args with
  | [] => Some 9009
  | a :: _ => let p := strtol a in if (p <=? 0) || (65535 <? p) then None else Some (u16 p)
  end.

Definition mt5_error (what : list Z) : list Z := lit "mt5d error: " ++ what ++ [10].

Definition mt5d (args : list (list Z)) (clients : list LineSocket) (k : kernel) :
    option (server * list (BridgeStats * LineSocket) * kernel) :=
  match mt5_port args with
  | None => Some (Exited (mkProcess 2 [] (lit "usage: mt5d [port]" ++ [10])), [], k)
  | Some port =>
      match make_listener pick port k with
      | (Throw what, k) => Some (Exited (mkProcess 1 [] (mt5_error what)), [], k)
      | (Return l, k) =>
          let out := lit "mt5d listening on 127.0.0.1:" ++ to_string (port_ l) ++ lit "  (Ctrl-C to stop)" ++ [10] in
          '(e, out, served, k) ← accept_loop pick mt5_session snd l clients out [] k;
          match e with
          | Waiting => Some (Serving out [], served, k)
          | Signalled => Some (Killed out [], served, k)
          | Broken what => Some (Exited (mkProcess 1 out (mt5_error what)), served, listener_destroy l k)
          end
      end
  end.

End Mt5Main.

(** * Facts *)

Lemma line_destroy_new conn k k1 :
  0 ≤ fd_ conn → fd_ conn ∉ live k → live k1 = {[fd_ conn]} ∪ live k →
  live (destroy conn k1) = live k ∧ bad_close (destroy conn k1) = bad_close k1.
Proof.
  intros H1 H2 H3. unfold destroy, close_. destruct (Z.leb_spec 0 (fd_ conn)); [|lia]. cbn [snd]. by apply (close_new (fd_ conn) k1 k1 (live k)).
Qed.

Section AcceptFacts.
Context (pick : gset Z → Z) `{!Allocator pick} {R : Type} (serve : LineSocket → option (list Z * R)) (sock_of : R → LineSocket).

Definition survived (r : R) : Prop := killed_ (sock_of r) = false.

(** The last session was fatal, and no earlier one. *)

Definition killed_at_last (served : list R) : Prop :=
  ∃ earlier last, served = earlier ++ [last] ∧ Forall survived earlier ∧ killed_ (sock_of last) = true.

Lemma killed_at_last_not served : killed_at_last served → ¬ Forall survived served.
Proof using. intros (l & r & -> & _ & Hk) [_ [Hr _]%Forall_cons]%Forall_app. unfold survived in Hr. congruence. Qed.

(** The clients are served in order and independently of each other, until [accept] fails or a
    session is fatal; the descriptor of a client is closed before the next one is accepted. *)
Lemma accept_loop_spec l clients out served k :
  Forall (λ c, is_Some (serve c)) clients →
  ∃ e out' results k', accept_loop pick serve sock_of l clients out served k = Some (e, out', served ++ results, k') ∧
    (∃ j rs, (j ≤ length clients)%nat ∧ mapM serve (take j clients) = Some rs ∧ results = rs.*2 ∧ out' = out ++ concat rs.*1 ∧
       match e with
       | Waiting => j = length clients ∧ Forall survived results ∧ live k' = live k
       | Broken what => what = lit "accept() failed" ∧ (j < length clients)%nat ∧ Forall survived results ∧ live k' = live k
       | Signalled => killed_at_last results
       end) ∧
    bad_close k' = bad_close k.
Proof using Allocator0.
  intros Hs. revert out served k. induction Hs as [|c clients [r Er] _ IH]; intros out served k; cbn [accept_loop].
  - eexists _, _, [], k. rewrite app_nil_r. split; [done|]. split; [|done]. exists 0%nat, []. rewrite app_nil_r. by split_and!.
  - destruct (accept_acquires pick l k) as [Hb Ha]. unfold accept in *. destruct (new_fd pick k) as [fd k1]. destruct (fd <? 0); simpl in *.
    + eexists _, _, [], k1. rewrite app_nil_r. split; [done|]. split; [|done]. exists 0%nat, []. rewrite app_nil_r.
      split_and!; try done; lia.
    + destruct Ha as (H1 & H2 & H3). destruct (line_destroy_new (line_from fd) k k1 H1 H2 H3) as [Hl Hb'].
      rewrite Er. cbn [mbind option_bind]. destruct (killed_ (sock_of r.2)) eqn:Ek.
      { eexists _, _, [r.2], k1. split; [done|]. split; [|done]. exists 1%nat, [r]. cbn [take mapM fmap list_fmap concat].
        rewrite Er, app_nil_r. split_and!; try done; [lia|]. by exists [], r.2. }
      destruct (IH (out ++ r.1) (served ++ [r.2]) (destroy (line_from fd) k1))
        as (e & out' & results & k' & -> & (j & rs & Hj & Em & -> & -> & He) & Hbk).
      exists e, (out ++ concat (r :: rs).*1), (r :: rs).*2, k'. split_and!; [|exists (S j), (r :: rs)|congruence].
      * cbn [fmap list_fmap concat]. by rewrite <- !app_assoc.
      * cbn [take mapM length]. split_and!; [lia| |done|done|].
        -- rewrite Er. cbn [mbind option_bind]. by rewrite Em.
        -- destruct e as [|what|].
           ++ destruct He as (-> & Hf & Hlk). split_and!; [done|by constructor|congruence].
           ++ destruct He as (-> & Hlt & Hf & Hlk). split_and!; [done|lia|by constructor|congruence].
           ++ destruct He as (l0 & r0 & E0 & Hf & Hk). exists (r.2 :: l0), r0. cbn [fmap list_fmap]. rewrite E0. split_and!; [done|by constructor|done].
Qed.

Lemma sessions_related (P : LineSocket → R → Prop) clients rs :
  Forall (λ c, ∃ r, serve c = Some r ∧ P c r.2) clients → mapM serve clients = Some rs → Forall2 P clients rs.*2.
Proof using.
  intros Hc Hm%mapM_Some_1. apply Forall2_fmap_r. revert Hc. induction Hm as [|c r clients rs Hr _ IH]; intros Hc; constructor.
  - apply Forall_cons in Hc as [(r' & E & HP) _]. rewrite Hr in E. by injection E as <-.
  - apply IH. by apply Forall_cons in Hc as [_ Hc].
Qed.

Lemma served_length (P : LineSocket → R → Prop) j clients served :
  (j ≤ length clients)%nat → Forall2 P (take j clients) served → j = length served.
Proof using. intros Hj Hf%Forall2_length. rewrite length_take in Hf. lia. Qed.

Lemma survivors (P : LineSocket → R → Prop) clients served :
  (∀ c r, P c r → unbroken c → survived r) → Forall2 P clients served → Forall unbroken clients → Forall survived served.
Proof using.
  intros HP. induction 1 as [|c r clients served Hr _ IH]; intros Hu; [constructor|]. apply Forall_cons in Hu as [Hc Hu].
  constructor; [by eapply HP|by apply IH].
Qed.

End AcceptFacts.

(** The listener closed at the end. *)
Lemma listener_destroy_new l k k1 k2 :
  0 ≤ l_fd l → l_fd l ∉ live k → live k1 = {[l_fd l]} ∪ live k → live k2 = live k1 →
  live (listener_destroy l k2) = live k ∧ bad_close (listener_destroy l k2) = bad_close k2.
Proof.
  intros H1 H2 H3 H4. unfold listener_destroy. destruct (Z.leb_spec 0 (l_fd l)); [|lia]. by apply (close_new (l_fd l) k1 k2 (live k)).
Qed.

Section Mt5Facts.
Context {D : Type} `{DoubleText D} `{DoubleArith D} (step lots : D) (pick : gset Z → Z) `{!Allocator pick}.

(** A session as its specification has it, with a strategy and counters of its own: the replies
    go to the client as far as the sends take them, all of them when none fails, and a session that
    was not fatal ends with the counters of its specification. *)

Definition own_session (c : LineSocket) (r : BridgeStats * LineSocket) : Prop :=
  ∃ outs e rest, session 12 0 (1, stats0, example_strategy step lots) (arrivals c) = (outs, e, rest) ∧
    same_output (send_replies outs c) r.2 ∧ (sends_ok c → sent_ r.2 = sent_ c ++ concat outs) ∧
    (killed_ r.2 = false → e.1.2 = r.1 ∧ rest = arrivals r.2).

Definition client_ok (c : LineSocket) : Prop := chunks_ok (incoming c).

Lemma mt5_session_spec c : client_ok c → ∃ r, mt5_session step lots c = Some r ∧ own_session c r.2.
Proof using.
  intros Hc. destruct (run_bridge_session 12 (example_strategy step lots) c Hc) as (n & st & strat' & sock' & outs & E & Es & Ho & Hs).
  unfold mt5_session. rewrite E. eexists. split; [done|]. exists outs, (n, st, strat'), (arrivals sock'). by split_and!.
Qed.

Lemma own_session_survives c r : own_session c r → unbroken c → survived snd r.
Proof using. intros (outs & e & rest & _ & Ho & _) Hu. by eapply replies_unbroken. Qed.

Lemma mt5_sessions clients rs :
  Forall client_ok clients → mapM (mt5_session step lots) clients = Some rs → Forall2 own_session clients rs.*2.
Proof using.
  intros Hc. apply sessions_related. eapply Forall_impl; [exact Hc|]. intros c Hcc. by apply mt5_session_spec.
Qed.

(** C18: the bridge daemon.  A port argument that is not between 1 and 65535 prints the usage and
    exits with 2 before anything is opened.  Otherwise the daemon serves its clients one after the
    other, whatever they send, however their bytes are cut and whatever becomes of the sends to
    them: every client that is served gets a session of its own, with a fresh strategy, fresh
    counters and order numbers from 1.  A send that finds its client gone kills the daemon: it is
    killed exactly when the last session served was fatal, no earlier one was, and no later client
    gets a session; without such a send it is never killed.  Apart from this it leaves the loop only
    when [accept] throws, with exit code 1; then every descriptor it opened is closed, and while it
    waits every client has been served and only the listening descriptor is open. *)
Theorem mt5d_serves args clients k :
  Forall client_ok clients →
  ∃ sv served k', mt5d step lots pick args clients k = Some (sv, served, k') ∧ bad_close k' = bad_close k ∧
    Forall2 own_session (take (length served) clients) served ∧
    (Forall unbroken (take (length served) clients) → ∀ out err, sv ≠ Killed out err) ∧
    match sv with
    | Exited p => live k' = live k ∧ Forall (survived snd) served ∧
        match mt5_port args with
        | Some _ => exit_code p = 1 ∧ (length served < length clients ∨ served = [])%nat
        | None => exit_code p = 2 ∧ served = [] ∧ k' = k
        end
    | Serving out err => length served = length clients ∧ is_Some (mt5_port args) ∧ Forall (survived snd) served ∧
        ∃ fd, 0 ≤ fd ∧ (fd ∉ live k) ∧ live k' = {[fd]} ∪ live k
    | Killed out err => is_Some (mt5_port args) ∧ killed_at_last snd served
    end.
Proof using Allocator0.
  intros Hc. unfold mt5d. destruct (mt5_port args) as [port|].
  2: { eexists _, [], k. split; [done|]. rewrite take_0. by split_and!. }
  destruct (listener_acquires pick port k) as [Hb Ha]. destruct (make_listener pick port k) as [[what|l] k1]; cbn [fst snd] in Ha, Hb.
  { eexists _, [], k1. split; [done|]. rewrite take_0. split_and!; try done. by right. }
  destruct Ha as (H1 & H2 & H3).
  assert (Hs : Forall (λ c, is_Some (mt5_session step lots c)) clients)
    by (eapply Forall_impl; [exact Hc|]; intros c Hcc; destruct (mt5_session_spec c Hcc) as (r & -> & _); by eexists).
  destruct (accept_loop_spec pick (mt5_session step lots) snd l clients
    (lit "mt5d listening on 127.0.0.1:" ++ to_string (port_ l) ++ lit "  (Ctrl-C to stop)" ++ [10]) [] k1 Hs)
    as (e & out & results & k' & E & (j & rs & Hj & Em & -> & _ & He) & Hbk).
  rewrite E. clear E. cbn [mbind option_bind]. change ([] ++ rs.*2) with (rs.*2).
  pose proof (mt5_sessions _ _ (Forall_take _ _ _ Hc) Em) as Hown. pose proof (served_length _ _ _ _ Hj Hown) as Hlen.
  destruct e as [|what|].
  - destruct He as (-> & Hf & Hl). eexists _, _, k'. split; [done|]. rewrite <- Hlen. split_and!; try done; [congruence|].
    exists (l_fd l). split_and!; congruence || done.
  - destruct He as (-> & Hlt & Hf & Hl). destruct (listener_destroy_new l k k1 k' H1 H2 H3 Hl) as [Hd Hbd].
    eexists _, _, _. split; [done|]. rewrite <- Hlen. split_and!; try done; [congruence|left; lia].
  - eexists _, _, k'. split; [done|]. rewrite <- Hlen. split_and!; try done; [congruence|].
    intros Hu. destruct (killed_at_last_not _ _ He). eapply survivors; [|exact Hown|exact Hu]. apply own_session_survives.
Qed.
End Mt5Facts.

Section WsFacts.
Context (fl : floats) `{FloatOps (D fl) (LD fl)} (fmt : D fl → list Z).
Context (order : Z → BookSet → list (Z * OrderBook)) (engine : Z → nat → Z) (pick : gset Z → Z) `{!Allocator pick}.

Lemma ws_range args o :
  - 2 ^ 63 ≤ ws_dump o < 2 ^ 63 → - 2 ^ 63 ≤ ws_frames o < 2 ^ 63 →
  - 2 ^ 63 ≤ ws_dump (ws_parse args o) < 2 ^ 63 ∧ - 2 ^ 63 ≤ ws_frames (ws_parse args o) < 2 ^ 63.
Proof using.
  assert (Hp : ∀ a o, ws_dump (ws_plain a o) = ws_dump o ∧ ws_frames (ws_plain a o) = ws_frames o)
    by (intros a o'; unfold ws_plain; by repeat case_match).
  remember (length args) as n eqn:En. assert (Hn : (length args ≤ n)%nat) by lia. clear En. revert args o Hn.
  induction n as [|n IH]; intros args o Hn Hd Hf; destruct args as [|a [|v args]]; cbn [ws_parse] in *; simpl in Hn; try lia; try done.
  - by destruct (Hp a o) as [-> ->].
  - destruct (ws_value a v o) as [o'|] eqn:Ev.
    + unfold ws_value in Ev. pose proof (strtol_range v). repeat case_match; simplify_eq; apply IH; simpl; lia || done.
    + apply (IH (v :: args)); [simpl; lia|by destruct (Hp a o) as [-> _]|by destruct (Hp a o) as [_ ->]].
Qed.

Lemma ws_data_ok o : ws_synth o ≤ max_messages → ws_symbols o ≤ 65535 → ∃ data, ws_data engine o = Some data ∧ bytes_ok data ∧ zlen data ≤ 2 ^ 32.
Proof using.
  intros Hn Hs. unfold ws_data. set (n := if ws_synth o <? 1 then 1 else ws_synth o). set (s := if ws_symbols o <? 1 then 1 else ws_symbols o).
  assert (Hn' : 1 ≤ n ≤ max_messages) by (unfold n, max_messages in *; destruct (Z.ltb_spec (ws_synth o) 1); lia).
  assert (Hs' : 1 ≤ s ≤ 65535) by (unfold s; destruct (Z.ltb_spec (ws_symbols o) 1); lia).
  assert (Hg : ∃ ws, (if 1 <? s then make_synthetic_multi (engine 1) (Z.to_nat n) (Z.to_nat (u32 s)) else make_synthetic_book (engine 1) (Z.to_nat n))
    = Some (write_stream ws) ∧ zlen ws = n ∧ Forall wire_ok ws).
  { destruct (1 <? s).
    - destruct (multi_stream (engine 1) (Z.to_nat n) (Z.to_nat (u32 s))) as (ws & E & El & Hw); [lia|rewrite u32_small by lia; lia|].
      exists ws. by rewrite Z2Nat.id in El by lia.
    - destruct (book_stream (engine 1) (Z.to_nat n)) as (ws & E & El & Hw); [lia|]. exists ws. by rewrite Z2Nat.id in El by lia. }
  destruct Hg as (ws & -> & El & Hw). exists (write_stream ws). split; [done|]. split; [by apply write_stream_ok|].
  pose proof (write_stream_zlen ws Hw). unfold max_messages in Hn'. lia.
Qed.

(** Viewers may send anything in lines of up to 2^58 bytes. *)

Definition viewer_ok (c : LineSocket) : Prop := chunks_ok (incoming c) ∧ Forall (λ l, zlen l ≤ 2 ^ 58) (lines (content c)).

Lemma ws_session_spec o data c :
  bytes_ok data → zlen data ≤ 2 ^ 32 → ws_frames o < 2 ^ 63 → viewer_ok c →
  ∃ r, ws_session fl fmt order o data c = Some r ∧ serve_viewer fl fmt order (ws_focus o) (ws_frames o) data c = Some r.2.
Proof using.
  intros Hok Hl Hf [Hc Hv]. unfold ws_session. destruct (handshake_total c Hc Hv) as [[ok s1] Eh]. rewrite Eh. cbn [mbind option_bind fst].
  assert (Hs : is_Some (serve_viewer fl fmt order (ws_focus o) (ws_frames o) data c)).
  { unfold serve_viewer. rewrite Eh. cbn [mbind option_bind fst snd]. destruct ok; [|by eexists]. cbn [negb].
    set (target := if 0 <? ws_frames o then ws_frames o else 120).
    assert (Ht : 0 < target < 2 ^ 63) by (unfold target; destruct (Z.ltb_spec 0 (ws_frames o)); lia).
    destruct (stream_delivers fl fmt send_text order (ws_focus o) target data s1 Hok Hl Ht) as (b & t & _ & _ & _ & ->). by eexists. }
  destruct Hs as [s Es]. rewrite Es. by eexists.
Qed.

Lemma serve_viewer_unbroken o data c s :
  bytes_ok data → zlen data ≤ 2 ^ 32 → ws_frames o < 2 ^ 63 → chunks_ok (incoming c) →
  serve_viewer fl fmt order (ws_focus o) (ws_frames o) data c = Some s → unbroken c → unbroken s.
Proof using.
  intros Hok Hl Hf Hc E Hu. unfold serve_viewer in E. destruct (handshake c) as [[ok s1]|] eqn:Eh; [|done].
  pose proof (handshake_unbroken c _ Hc Hu Eh) as Hu1. cbn [mbind option_bind fst snd] in *. destruct ok; cbn [negb] in E; [|by simplify_eq].
  set (target := if 0 <? ws_frames o then ws_frames o else 120) in *.
  assert (Ht : 0 < target < 2 ^ 63) by (unfold target; destruct (Z.ltb_spec 0 (ws_frames o)); lia).
  destruct (stream_delivers fl fmt send_text order (ws_focus o) target data s1 Hok Hl Ht) as (b & t & _ & _ & _ & Ed). rewrite Ed in E.
  injection E as <-. by apply deliver_unbroken.
Qed.

(** A viewer served on its own. *)

Definition own_viewer (o : ws_options) (data : list Z) (c s : LineSocket) : Prop :=
  serve_viewer fl fmt order (ws_focus o) (ws_frames o) data c = Some s ∧ (unbroken c → survived id s).

(** C19: the depth server (up to a million generated messages, 65535 symbols and viewers that send
    lines of up to 2^58 bytes).  With [--dump] it prints the snapshots of the stream and exits with 0
    without opening a socket.  Otherwise it serves its viewers one after the other, whatever they
    send and whatever becomes of the sends to them: each that is served is sent the stream from its
    beginning, as if it were the only one.  A send that finds its viewer gone kills the server: it is
    killed exactly when the last viewer served was fatal, no earlier one was, and no later viewer
    is served; without such a send it is never killed.  Apart from this it leaves the loop only when
    [accept] throws, with exit code 1; then every descriptor it opened is closed, and while it waits
    every viewer has been served and only the listening descriptor is open. *)
Theorem wsbook_serves args clients k :
  let o := ws_parse args ws0 in
  ws_synth o ≤ max_messages → ws_symbols o ≤ 65535 → Forall viewer_ok clients →
  ∃ data sv socks k', ws_data engine o = Some data ∧ wsbook fl fmt order engine pick args clients k = Some (sv, socks, k') ∧
    bad_close k' = bad_close k ∧ Forall2 (own_viewer o data) (take (length socks) clients) socks ∧
    (Forall unbroken (take (length socks) clients) → ∀ out err, sv ≠ Killed out err) ∧
    (if 0 <? ws_dump o then ∃ out, dump fl fmt order (ws_focus o) (ws_dump o) data = Some out ∧ sv = Exited (mkProcess 0 out []) ∧ k' = k
     else match sv with
          | Exited p => exit_code p = 1 ∧ live k' = live k ∧ Forall (survived id) socks ∧ (length socks < length clients ∨ socks = [])%nat
          | Serving out err => length socks = length clients ∧ Forall (survived id) socks ∧
              ∃ fd, 0 ≤ fd ∧ (fd ∉ live k) ∧ live k' = {[fd]} ∪ live k
          | Killed out err => killed_at_last id socks
          end).
Proof using Allocator0.
  intros o Hn Hs Hc. destruct (ws_range args ws0) as [Hd Hf]; [done|done|]. fold o in Hd, Hf.
  destruct (ws_data_ok o Hn Hs) as (data & Ed & Hok & Hl). exists data. unfold wsbook. fold o. rewrite Ed. cbn [mbind option_bind].
  destruct (Z.ltb_spec 0 (ws_dump o)).
  { destruct (stream_delivers fl fmt dump_emit order (ws_focus o) (ws_dump o) data [] Hok Hl) as (b & t & _ & _ & _ & E); [lia|].
    unfold dump. rewrite E. eexists _, [], k. do 2 (split; [done|]). rewrite take_0. split_and!; try done. by eexists. }
  destruct (listener_acquires pick (u16 (ws_port o)) k) as [Hb Ha]. destruct (make_listener pick _ k) as [[what|l] k1]; cbn [fst snd] in Ha, Hb.
  { eexists _, [], k1. do 2 (split; [done|]). rewrite take_0. split_and!; try done. by right. }
  destruct Ha as (H1 & H2 & H3).
  assert (Hses : Forall (λ c, ∃ r, ws_session fl fmt order o data c = Some r ∧ own_viewer o data c r.2) clients).
  { eapply Forall_impl; [exact Hc|]. intros c Hcc. destruct (ws_session_spec o data c) as (r & E1 & E2); [done|done|lia|done|].
    exists r. split; [done|]. split; [done|]. intros Hu. by apply (serve_viewer_unbroken o data c r.2 Hok Hl ltac:(lia) (proj1 Hcc) E2). }
  assert (Htot : Forall (λ c, is_Some (ws_session fl fmt order o data c)) clients)
    by (eapply Forall_impl; [exact Hses|]; intros c (r & -> & _); by eexists).
  destruct (accept_loop_spec pick (ws_session fl fmt order o data) id l clients
    (lit "wsbook on 127.0.0.1:" ++ to_string (port_ l) ++ lit " (Ctrl-C to stop)" ++ [10]) [] k1 Htot)
    as (e & out & results & k' & E & (j & rs & Hj & Em & -> & _ & He) & Hbk).
  rewrite E. clear E. cbn [mbind option_bind]. change ([] ++ rs.*2) with (rs.*2).
  pose proof (sessions_related (ws_session fl fmt order o data) (own_viewer o data) _ _ (Forall_take _ j _ Hses) Em) as Hown.
  pose proof (served_length _ _ _ _ Hj Hown) as Hlen. destruct e as [|what|].
  - destruct He as (-> & Hsv & Hlk). eexists _, _, k'. do 2 (split; [done|]). rewrite <- Hlen. split_and!; try done; [congruence|].
    exists (l_fd l). split_and!; congruence || done.
  - destruct He as (-> & Hlt & Hsv & Hlk). destruct (listener_destroy_new l k k1 k' H1 H2 H3 Hlk) as [Hdd Hbd].
    eexists _, _, _. do 2 (split; [done|]). rewrite <- Hlen. split_and!; try done; [congruence|left; lia].
  - eexists _, _, k'. do 2 (split; [done|]). rewrite <- Hlen. split_and!; try done; [congruence|].
    intros Hu. destruct (killed_at_last_not _ _ He). eapply survivors; [|exact Hown|exact Hu]. by intros c s [_ Hsurv].
Qed.
End WsFacts.

Module ServersWitness.
Import BridgeWitness WholeDoubles.

#[local] Existing Instance whole_arith.

Definition demo_kernel : kernel := mkKernel {[0; 1; 2]} false [] [0x901F].

(** A client in pieces, then one that closes at once. *)

Definition demo_clients : list LineSocket := [connection script [3; 5]; connection [] []].

Lemma mt5d_serves_witness :
  ∃ sv served k', mt5d 10 1 lowest_free [lit "9009"] demo_clients demo_kernel = Some (sv, served, k') ∧
    Forall2 (own_session 10 1) (take (length served) demo_clients) served.
Proof.
  destruct (mt5d_serves 10 1 lowest_free [lit "9009"] demo_clients demo_kernel) as (sv & served & k' & E & _ & Hf & _).
  - constructor; [apply script_ok|]. constructor; [constructor|constructor].
  - exists sv, served, k'. split; [exact E|exact Hf].
Defined.

Definition orders_of (_ : Z) (bs : BookSet) : list (Z * OrderBook) := map_to_list (books_ bs).

Lemma wsbook_serves_witness :
  ∃ sv socks k', wsbook ieee_floats Printf.fmt orders_of mt19937 lowest_free [lit "--synthetic"; lit "6"; lit "9010"]
    [connection [] []] demo_kernel = Some (sv, socks, k') ∧ length socks = 1%nat.
Proof.
  destruct (wsbook_serves ieee_floats Printf.fmt orders_of mt19937 lowest_free [lit "--synthetic"; lit "6"; lit "9010"]
    [connection [] []] demo_kernel) as (data & sv & socks & k' & _ & E & _ & Hf & He).
  - vm_compute. discriminate.
  - vm_compute. discriminate.
  - constructor; [split; constructor|constructor].
  - exists sv, socks, k'. split; [exact E|]. vm_compute in E. injection E as <- <- <-. reflexivity.
Defined.

(** A client that has closed its end when the first reply is sent ends the daemon, and the client
    behind it gets no session. *)
Lemma vanished_client_kills_mt5d :
  ∃ out served k', mt5d 10 1 lowest_free [lit "9009"] [connection script [- EPIPE]; connection script []] demo_kernel
    = Some (Killed out [], served, k') ∧ length served = 1%nat.
Proof. vm_compute. by do 3 eexists. Qed.

(** The same for a viewer that leaves after the upgrade. *)
Lemma vanished_viewer_kills_wsbook :
  ∃ err socks k', wsbook ieee_floats Printf.fmt orders_of mt19937 lowest_free [lit "--synthetic"; lit "6"; lit "9010"]
    [connection [Chunk (request (lit "/"))] [2 ^ 20; - EPIPE]; connection [Chunk (request (lit "/"))] []] demo_kernel
    = Some (Killed [] err, socks, k') ∧ length socks = 1%nat.
Proof. vm_compute. by do 3 eexists. Qed.

End ServersWitness.
