(* ===== verification/Bench.v ===== *)
(** The benchmarks (bench/bench.cpp) as functions of the number of iterations the harness runs and
    of the argument [state.range(0)]: what they compute and the number of items they report.  The
    random engine and the schedules of the pipelined replay are arguments. *)
From S2P Require Export Pipeline Synthetic RingQueue FlatLevels WindowedFacts.

(** [for (auto _ : state)], with the number of the round. *)

Fixpoint rounds {S : Type} (body : nat → S → option S) (i n : nat) (s : S) : option S :=
  match n with O => Some s | Datatypes.S n => s ← body i s; rounds body (Datatypes.S i) n s end.

(** A product of [std::int64_t]s, undefined when it overflows. *)

Definition int64_mul (a b : Z) : option Z := if decide (- 2 ^ 63 ≤ a * b < 2 ^ 63) then Some (a * b) else None.

Section Bench.
Context (engine : Z → nat → Z) (iterations : nat).

(** The last result and message, and the items processed. *)

Definition BM_Decode : option (bool * Message * Z) :=
  buf ← make_synthetic_itch (engine 7) 1;
  b0 ← buf.[0];
  b1 ← buf.[1];
  let mlen := Z.lor (Z.shiftl b0 8) b1 in
  r ← rounds (λ _ s, Itch.decode (Some (drop 2 buf)) mlen s.2) 0 iterations (false, message0);
  Some (r, Z.of_nat iterations).

Definition BM_ReplaySingleThreaded (range : Z) : option Z :=
  data ← make_synthetic_itch (engine 1) (Z.to_nat range);
  applied ← rounds (λ _ _, r ← replay_single_threaded data (zlen data) book0; Some r.1) 0 iterations 0;
  int64_mul (Z.of_nat iterations) applied.

Definition BM_ReplayPipelined (scheds : nat → list nat) (range : Z) : option Z :=
  data ← make_synthetic_itch (engine 1) (Z.to_nat range);
  applied ← rounds (λ i _, r ← replay_pipelined (scheds i) data (zlen data) book0 4096; Some r.1) 0 iterations 0;
  int64_mul (Z.of_nat iterations) applied.

(** The sink counts what it applies to the book of this round. *)

Definition BM_BookOps (F : Compare → Type) `{LevelStore F} (range : Z) : option Z :=
  data ← make_synthetic_itch (engine 1) (Z.to_nat range);
  applied ← rounds (λ _ _,
    r ← for_each_framed_message (λ (bn : BasicOrderBook F * Z) m, b ← OrderBook.apply bn.1 m; Some (b, u64 (bn.2 + 1)))
          data (zlen data) (book0, 0);
    Some r.2.2) 0 iterations 0;
  int64_mul (Z.of_nat iterations) applied.

(** The value read last. *)

Definition BM_SpscPushPop : option (Z * Z) :=
  ring ← make_ring 0 1024;
  r ← rounds (λ _ (s : SpscRing Z * Z),
        '(ring, _) ← push s.1 42;
        '(ring, out) ← pop ring;
        Some (ring, default s.2 out)) 0 iterations (ring, 0);
  Some (r.2, Z.of_nat iterations).

End Bench.

(** * Facts *)

Lemma rounds_const {S : Type} (body : nat → S → option S) x n i s :
  (∀ j s, (i ≤ j < i + n)%nat → body j s = Some x) → rounds body i n s = Some (if decide (n = 0%nat) then s else x).
Proof.
  revert i s. induction n as [|n IH]; intros i s Hb; [done|]. cbn [rounds]. rewrite Hb by lia. cbn [mbind option_bind].
  rewrite IH by (intros; apply Hb; lia). by destruct n.
Qed.

(** The items: as many as were applied in the last round, times the rounds. *)
Lemma items_total n (range : Z) :
  0 ≤ range → Z.of_nat n * range < 2 ^ 63 →
  int64_mul (Z.of_nat n) (if decide (n = 0%nat) then 0 else range) = Some (Z.of_nat n * range).
Proof.
  intros Hr Hn. unfold int64_mul. destruct (decide (n = 0%nat)) as [->|]; [done|]. rewrite decide_True by nia. done.
Qed.

Lemma finite_choice (P : nat → nat → Prop) n : (∀ i, ∃ k, P i k) → ∃ ks : nat → nat, ∀ i, (i < n)%nat → P i (ks i).
Proof.
  intros H. induction n as [|n [ks IH]]; [exists (λ _, 0%nat); lia|]. destruct (H n) as [k Hk].
  exists (λ i, if decide (i = n) then k else ks i). intros i Hi. destruct (decide (i = n)) as [->|]; [done|]. apply IH. lia.
Qed.

(** The message to decode does not matter once there is a header. *)
Lemma decode_out buf len out out' : 11 ≤ len → Itch.decode (Some buf) len out = Itch.decode (Some buf) len out'.
Proof. intros Hl. unfold Itch.decode. by destruct (Z.ltb_spec len 11); [lia|]. Qed.

(** The sink of the benchmark over a list of messages, for every level store. *)
Lemma book_ops_fold {F : Compare → Type} `{LevelStore F} (b : BasicOrderBook F) n ms :
  0 ≤ n → n + zlen ms < 2 ^ 64 →
  foldM (λ (bn : BasicOrderBook F * Z) m, b ← OrderBook.apply bn.1 m; Some (b, u64 (bn.2 + 1))) (b, n) ms =
  b' ← apply_all b ms; Some (b', n + zlen ms).
Proof.
  revert b n. induction ms as [|m ms IH]; intros b n Hn Hl; cbn [foldM apply_all]; [by rewrite Z.add_0_r|].
  rewrite zlen_cons in *. pose proof (zlen_nonneg ms). cbn [fst snd]. destruct (OrderBook.apply b m) as [b1|]; [|done].
  cbn [mbind option_bind]. rewrite u64_small by lia. rewrite IH by lia. by replace (n + 1 + zlen ms) with (n + (zlen ms + 1)) by lia.
Qed.

(** One push and one pop on an empty ring. *)
Lemma push_pop_round cap (r : SpscRing Z) v x :
  0 < cap → represents cap r [] →
  ∃ r', ('(ring, _) ← push r x; '(ring, out) ← pop ring; Some (ring, default v out)) = Some (r', x) ∧ represents cap r' [].
Proof.
  intros Hc Hr. destruct (ring_op_sim cap r [] (QPush x) Hr) as (r1 & E1 & Hr1). cbn [ring_op queue_op] in *.
  change (zlen ([] : list Z)) with 0 in *. destruct (Z.ltb_spec 0 cap); [|lia]. cbn [fst snd app] in *.
  destruct (push r x) as [[r2 ok]|]; [|done]. cbn [mbind option_bind] in E1. injection E1 as -> ->.
  destruct (ring_op_sim cap r1 [x] QPop Hr1) as (r3 & E3 & Hr3). cbn [ring_op queue_op fst snd] in *.
  cbn [mbind option_bind]. destruct (pop r1) as [[r4 out]|]; [|done]. cbn [mbind option_bind] in *. injection E3 as -> ->.
  by exists r3.
Qed.

Lemma push_pop_rounds cap (r : SpscRing Z) v n i :
  0 < cap → represents cap r [] →
  ∃ r', rounds (λ _ (s : SpscRing Z * Z), '(ring, _) ← push s.1 42; '(ring, out) ← pop ring; Some (ring, default s.2 out)) i n (r, v)
    = Some (r', if decide (n = 0%nat) then v else 42).
Proof.
  intros Hc. revert r v i. induction n as [|n IH]; intros r v i Hr; [by exists r|]. cbn [rounds fst snd].
  destruct (push_pop_round cap r v 42 Hc Hr) as (r1 & -> & Hr1). cbn [mbind option_bind].
  destruct (IH r1 42 (S i) Hr1) as (r2 & ->). exists r2. by destruct n.
Qed.

Section BenchFacts.
Context (engine : Z → nat → Z) (n : nat) (range : Z).
Hypothesis Hrange : 0 ≤ range ≤ max_messages.
Hypothesis Hitems : Z.of_nat n * range < 2 ^ 63.

(** The stream of the benchmarks and the single-threaded replay of it. *)
Lemma bench_stream :
  ∃ ws next, make_synthetic_itch (engine 1) (Z.to_nat range) = Some (write_stream ws) ∧ zlen ws = range ∧ feed_inv ws next ∧
    bytes_ok (write_stream ws) ∧ zlen (write_stream ws) ≤ 46 * range.
Proof using Hrange.
  clear Hitems n. destruct (itch_stream (engine 1) (Z.to_nat range)) as (ws & next & E & El & Hf); [lia|]. rewrite Z2Nat.id in El by lia.
  pose proof (fi_wire _ _ Hf) as Hw. pose proof (write_stream_zlen ws Hw). exists ws, next.
  split_and!; [done|done|done|by apply write_stream_ok|lia].
Qed.

Lemma bench_single : BM_ReplaySingleThreaded engine n range = Some (Z.of_nat n * range).
Proof using Hrange Hitems.
  destruct bench_stream as (ws & next & E & El & Hf & _). unfold BM_ReplaySingleThreaded. rewrite E. cbn [mbind option_bind].
  destruct (feed_replay_consistent ws next Hf) as (b & Hb & _); [unfold max_messages in Hrange; lia|].
  rewrite (rounds_const _ range) by (intros; by rewrite Hb, El). cbn [mbind option_bind]. apply items_total; lia.
Qed.

Lemma bench_books {F : Compare → Type} `{LevelStoreSpec F} : BM_BookOps engine n F range = Some (Z.of_nat n * range).
Proof using Hrange Hitems.
  destruct bench_stream as (ws & next & E & El & Hf & _ & Hl). unfold BM_BookOps. rewrite E. cbn [mbind option_bind].
  unfold max_messages in Hrange. destruct (feed_stream_ok ws next Hf) as (Hs & _); [lia|]. destruct (run_rep (F:=F) _ Hs) as (b & Hb & _).
  rewrite (rounds_const _ range).
  - cbn [mbind option_bind]. apply items_total; lia.
  - intros. rewrite replay_written by (apply (fi_wire _ _ Hf) || lia). fold (feed_messages ws).
    assert (Ez : zlen (feed_messages ws) = range) by (unfold feed_messages; by rewrite zlen_fmap).
    rewrite book_ops_fold by (rewrite ?Ez; lia). rewrite Hb, Ez. done.
Qed.

Lemma bench_pipelined scheds :
  (BM_ReplayPipelined engine n scheds range = Some (Z.of_nat n * range) ∨ BM_ReplayPipelined engine n scheds range = None) ∧
  (∀ fairs, (∀ i, fair 1 (fairs i)) →
     ∃ ks, BM_ReplayPipelined engine n (λ i, fairs i <$> seq 0 (ks i)) range = Some (Z.of_nat n * range)).
Proof using Hrange Hitems.
  destruct bench_stream as (ws & next & E & El & Hf & Hok & Hl). unfold BM_ReplayPipelined. rewrite E. cbn [mbind option_bind].
  unfold max_messages in Hrange. destruct (feed_replay_consistent ws next Hf) as (b & Hb & _); [lia|]. rewrite El in Hb.
  destruct (pipelined_runs (write_stream ws) book0 4096 range b Hok ltac:(lia) ltac:(lia) Hb) as (m0 & _ & _ & Hall & Hfair). split.
  - assert (Hr : ∀ i s k,
      rounds (λ i (_ : Z), r ← replay_pipelined (scheds i) (write_stream ws) (zlen (write_stream ws)) book0 4096; Some r.1) i k s
        = Some (if decide (k = 0%nat) then s else range) ∨
      rounds (λ i (_ : Z), r ← replay_pipelined (scheds i) (write_stream ws) (zlen (write_stream ws)) book0 4096; Some r.1) i k s = None).
    { intros i s k. revert i s. induction k as [|k IH]; intros i s; [by left|]. cbn [rounds]. rewrite Hall.
      destruct (all_done _); cbn [mbind option_bind fst]; [|by right]. destruct (IH (S i) range) as [->| ->]; [left; by destruct k|by right]. }
    destruct (Hr 0%nat 0 n) as [->| ->]; [|by right]. left. cbn [mbind option_bind]. apply items_total; lia.
  - intros fairs Hfs. destruct (finite_choice (λ i k, all_done (run replay_sink (λ _, 0%nat) (fairs i <$> seq 0 k) m0) = true) n) as [ks Hks];
      [intros i; by apply Hfair|].
    exists ks. rewrite (rounds_const _ range).
    + cbn [mbind option_bind]. apply items_total; lia.
    + intros j s Hj. rewrite Hall, Hks by lia. done.
Qed.
End BenchFacts.

Lemma bench_spsc n : BM_SpscPushPop n = Some (if decide (n = 0%nat) then 0 else 42, Z.of_nat n).
Proof.
  unfold BM_SpscPushPop. destruct (round_up_pow2_spec 1024) as (cap & Ec & Hc & _); [lia|].
  assert (Er : make_ring 0 1024 = Some (mkRing cap (cap - 1) (replicate (Z.to_nat cap) 0) 0 0 0 0)) by (unfold make_ring; by rewrite Ec).
  destruct (make_ring_inv 0 1024 _ ltac:(lia) Er) as [Hi _]. cbn [cap_] in Hi. rewrite Er. cbn [mbind option_bind].
  pose proof (cap_ok_range _ Hc). destruct (push_pop_rounds cap (mkRing cap (cap - 1) (replicate (Z.to_nat cap) 0) 0 0 0 0) 0 n 0) as (r' & ->);
    [lia|by exists []|done].
Qed.

(** Every round decodes the one message of the stream. *)
Lemma bench_decode (engine : Z → nat → Z) n :
  ∃ w, wire_ok w ∧ make_synthetic_itch (engine 7) 1 = Some (write_stream [w]) ∧
    BM_Decode engine n = Some (if decide (n = 0%nat) then (false, message0) else (true, wire_message w), Z.of_nat n).
Proof.
  destruct (itch_stream (engine 7) 1) as (ws & next & E & El & Hf); [done|]. pose proof (fi_wire _ _ Hf) as Hw.
  destruct ws as [|w [|w' ws]]; [done| |rewrite !zlen_cons in El; pose proof (zlen_nonneg ws); lia].
  apply Forall_cons in Hw as [Hw _]. exists w. split; [done|]. split; [done|]. unfold BM_Decode. rewrite E. cbn [mbind option_bind].
  rewrite write_stream_frames by (by constructor). cbn [fmap list_fmap]. rewrite frames_cons. change (frames []) with ([] : list Z).
  pose proof (encode_body_ok w Hw) as Hb. pose proof (encode_ok w Hw) as Hok. rewrite app_nil_r.
  destruct (record_head [] (Wire.encode w) [] Hb) as (b0 & b1 & E0 & E1 & Ev & _ & _). rewrite app_nil_r in E0, E1. cbn [app] in E0, E1.
  change ((record (Wire.encode w)).[0] = Some b0) in E0. change ((record (Wire.encode w)).[1] = Some b1) in E1. rewrite E0, E1. cbn [mbind option_bind]. rewrite Ev.
  change (drop 2 (record (Wire.encode w))) with (Wire.encode w).
  pose proof (Wire.decode_encode w Hw) as Ed. destruct (decode_body_ok _ _ Hok Ed) as [_ Hlen].
  rewrite (rounds_const _ (true, wire_message w)); [by destruct (decide (n = 0%nat))|].
  intros j s _. rewrite (decode_out _ _ _ message0) by done. unfold decode_body in Ed.
  destruct (Itch.decode (Some (Wire.encode w)) (zlen (Wire.encode w)) message0) as [[[] m]|]; congruence.
Qed.

(** The benchmarks compare the same work.  For up to a million messages and any number of rounds
    whose product fits the counter, nothing in the timed loops is undefined and every replay reports
    rounds times messages: the single-threaded one, the pipelined one under every schedule its
    threads end under (and they end under fair ones), and the book operations with every level
    store; so no variant gains by skipping messages.  The decoding benchmark decodes a message in
    every round, and the ring benchmark gets back what it pushed in every round. *)
Theorem benchmarks_same_work (engine : Z → nat → Z) (n : nat) (range : Z) :
  0 ≤ range ≤ max_messages → Z.of_nat n * range < 2 ^ 63 →
  BM_ReplaySingleThreaded engine n range = Some (Z.of_nat n * range) ∧
  BM_BookOps engine n MapLevels range = Some (Z.of_nat n * range) ∧
  BM_BookOps engine n FlatLevels range = Some (Z.of_nat n * range) ∧
  BM_BookOps engine n WindowedLevels range = Some (Z.of_nat n * range) ∧
  (∀ scheds items, BM_ReplayPipelined engine n scheds range = Some items → items = Z.of_nat n * range) ∧
  (∀ fairs, (∀ i, fair 1 (fairs i)) →
     ∃ ks, BM_ReplayPipelined engine n (λ i, fairs i <$> seq 0 (ks i)) range = Some (Z.of_nat n * range)) ∧
  (∃ w, make_synthetic_itch (engine 7) 1 = Some (write_stream [w]) ∧
     BM_Decode engine n = Some (if decide (n = 0%nat) then (false, message0) else (true, wire_message w), Z.of_nat n)) ∧
  BM_SpscPushPop n = Some (if decide (n = 0%nat) then 0 else 42, Z.of_nat n).
Proof.
  intros Hr Hi. split_and!.
  - exact (bench_single engine n range Hr Hi).
  - exact (bench_books engine n range Hr Hi).
  - exact (bench_books engine n range Hr Hi).
  - exact (bench_books engine n range Hr Hi).
  - intros scheds items E. destruct (bench_pipelined engine n range Hr Hi scheds) as [[H|H] _]; congruence.
  - by apply (bench_pipelined engine n range Hr Hi (λ _, [])).
  - destruct (bench_decode engine n) as (w & _ & E & Ed). by exists w.
  - apply bench_spsc.
Qed.

(** Three rounds of forty messages. *)
Lemma benchmarks_same_work_witness :
  BM_BookOps mt19937 3 FlatLevels 40 = Some 120 ∧ BM_SpscPushPop 3 = Some (42, 3).
Proof.
  destruct (benchmarks_same_work mt19937 3 40) as (_ & _ & E & _ & _ & _ & _ & Es).
  - split; [lia|vm_compute; discriminate].
  - lia.
  - split; [exact E|exact Es].
Defined.
